(* ===== verification/_CoqProject ===== *)
-Q . S2P
Prelude.v
Bitops.v
Kfifo.v
Sort.v
Rbtree.v
RbtreeRep.v
RbtreeBalance.v
RbtreeErase.v
RbtreeSpec.v
Bytes.v
Tea.v
Arc4.v
Cipher.v
CipherMem.v
CipherModes.v
CipherWalk.v
CipherCrypt.v
CipherSpec.v
Compress.v
Rwsem.v
Resource.v
ResourceTree.v
ResourceOps.v
ResourceAlloc.v
ResourceInsert.v
ResourceRegion.v
ResourceSpec.v
Digest.v
Fips.v
Sha1.v
Sha256.v
Md.v
MdRfc.v
Michael.v
DigestApi.v
DigestSpec.v
Timer.v
TimerSpec.v
Radix.v
RadixTree.v
RadixOps.v
RadixTags.v
RadixDelete.v
RadixGang.v
RadixSpec.v
Buddy.v
BuddyBlocks.v
BuddyOps.v
BuddyFree.v
BuddyAlloc.v
BuddyPool.v
BuddyCache.v
BuddySpec.v
BuddyWater.v
PageAlloc.v
Str.v
StrMem.v
StrSpec.v
Vsprintf.v
VsprintfText.v
VsprintfOut.v
VsprintfParse.v
VsprintfSpec.v
VsprintfRead.v
