(* ===== verification/Prelude.v ===== *)
(** * A verification of the core libraries of a Linux 2.6.15 media-player kernel

    The repository holds the sources of the Syabas A110: the kernel in
    [src/linux-2.6.15], configured for a little-endian MIPS32 machine with one processor,
    preemption, 4 KB pages and no high memory ([config-2.6.15-smp86xx]), the patches and
    the toolchain it is built with, and the drivers of its wireless adapters.  This
    library models the parts of the kernel that everything else stands on: bit operations,
    the byte FIFO, sorting, red-black and radix trees, reader/writer semaphores, timers, the
    tree of I/O resources, the page allocator, strings and formatted output, and the crypto
    API with its ciphers and digests.  All paths below are relative to [src/linux-2.6.15].

    ** How code becomes Rocq

    A C function is a function with the name of the source.  Unsigned integers are [Z]
    with the wrap-around written at every operation that can leave the range ([u32],
    [+u], [<<u], ...); [int] is [s32], except for counters that cannot leave the range
    without an amount of tasks that no machine has ([activity] of [Rwsem]) and the field
    widths of [Vsprintf], which are [Z].  Code that works on one array returns [option]: an
    access outside the array is [None].  Code that follows pointers threads a store through
    the state monad [SM]: a map from addresses to nodes ([Rbtree], [Resource], [Radix]), from
    frame numbers to page structures ([Buddy]) or from addresses to bytes ([Cipher],
    [DigestApi], and [Str], where the memory is passed explicitly), so aliasing is what it is in C; a bad pointer, [BUG_ON] and an
    exhausted bound are failures of the monad.  Loops that are not structural take fuel;
    every theorem that says what such a function returns proves that the fuel given in the
    definition is enough, so none of them is about a function that only "may" return.
    Errors are the negative numbers of the source.  What [kmalloc] returns, comparison and
    alignment functions and the algorithm behind a transform are parameters.  Interrupts and
    preemption matter where the code is meant to survive them: the FIFO and the semaphores
    are step relations over all interleavings.

    ** The parts

    - [Prelude]: integers, byte arrays, the state monad, the errors.
    - [Bitops] ([include/linux/bitops.h], [include/asm-mips/bitops.h]): searches in words
      and bitmaps, rotations, bit counts.  The searches find the first bit of the range,
      the portable versions agree with those of the machine, [hweight32] counts bits.
    - [Kfifo] ([kernel/kfifo.c], [include/linux/kfifo.h]): the byte FIFO.  It refines a
      bounded queue, also when its counters wrap.  One reader and one writer need no lock: as
      threads whose steps are single byte copies they never leave a buffer, lose or reorder
      a byte, or wait for each other, and a thread that runs alone does what its function
      does.  Allocation fails without a leak.
    - [Sort] ([lib/sort.c]): heapsort on bytes.  The result is a sorted permutation.
    - [Rbtree], [RbtreeRep], [RbtreeBalance], [RbtreeErase], [RbtreeSpec]
      ([lib/rbtree.c], [include/linux/rbtree.h]): the code, what it means that a store holds
      a tree (a zipper of frames around a focus), rebalancing after insertion and removal,
      and the theorems: insertion and removal keep a red-black tree and change its in-order
      sequence by exactly one node, traversal follows it, the loops are logarithmic.
    - [Bytes], [Tea], [Arc4] ([crypto/tea.c], [crypto/arc4.c]): words in byte strings and the
      ciphers, each proved invertible.
    - [Cipher], [CipherMem], [CipherModes], [CipherWalk], [CipherCrypt], [CipherSpec]
      ([crypto/cipher.c], [crypto/scatterwalk.c], [crypto/crypto_null.c]): ECB and CBC over
      scatterlists in a flat memory, with the bounce buffers for unaligned data and for blocks
      that cross a page.  [CipherSpec] has the class that a block cipher instantiates and
      the theorems: a call refines the mode on one byte string, whatever [__get_free_page]
      answers in each round, decryption undoes encryption, and the error paths.  The class
      lets an algorithm refuse keys.
    - [Compress] ([crypto/compress.c], [crypto/crypto_null.c]): the compression layer and the
      null compressor, which the layer cannot set up.
    - [Digest], [Fips], [Sha1], [Sha256], [Md], [MdRfc], [Michael] ([lib/sha1.c],
      [crypto/sha1.c], [crypto/sha256.c], [crypto/md5.c], [crypto/md4.c], [crypto/michael_mic.c]):
      buffering and padding, shared, and each digest proved equal to its definition from FIPS
      180 (in [Fips], which takes nothing from the model of the code) or RFC 1320/1321 (in
      [MdRfc]), or for Michael to the function of IEEE 802.11i.
    - [DigestApi], [DigestSpec] ([crypto/digest.c], [crypto/hmac.c]): the class
      [DigestLaws] that states what a digest promises, scatterlists and HMAC proved
      against it, and the four digests as its instances.  HMAC is only built with
      [CONFIG_CRYPTO_HMAC], which the [.config] of the repository does not set.  Every split of a message into
      updates gives the digest of the standard; HMAC is that of RFC 2104.
    - [Rwsem] ([lib/rwsem-spinlock.c]): tasks, the semaphore and its queue as a transition
      system; mutual exclusion, first-in first-out service, progress.
    - [Resource], [ResourceTree], [ResourceOps], [ResourceAlloc], [ResourceInsert],
      [ResourceRegion], [ResourceSpec] ([kernel/resource.c]): the tree of address ranges.
      [ResourceTree] says what a well-formed store is; every call keeps it, allocation is
      sound and (for more than one address) complete, requests and releases undo each other;
      where a call does not do what its parameters ask for, that is proved for every tree.
    - [Timer], [TimerSpec] ([kernel/timer.c]): the timer wheel.  It implements alarms with
      deadlines ([TimerSpec.alarms]): every timer runs in the tick of its deadline, across
      the cascades and the wrap of the tick counter, whatever the handlers do.
    - [Radix], [RadixTree], [RadixOps], [RadixTags], [RadixDelete], [RadixGang], [RadixSpec]
      ([lib/radix-tree.c], [include/linux/radix-tree.h]): the tree from 32-bit indices to items
      with two tags.  [RadixTree] says what a well-formed store is; [RadixSpec] proves that
      every sequence of calls behaves as on a finite map with tags, that removal frees the
      nodes that it should and that the failures of the allocator are harmless where they are;
      where they are not, the failure is proved for every tree in the situation.
    - [Buddy], [BuddyBlocks], [BuddyOps], [BuddyFree], [BuddyAlloc], [BuddyPool], [BuddyCache],
      [BuddySpec], [BuddyWater], [PageAlloc] ([mm/page_alloc.c]): the page allocator for one
      zone.  [Buddy] is the code; [BuddyBlocks] the arithmetic of aligned blocks, with the
      canonical blocks of a set of pages; [BuddyOps], [BuddyFree] and [BuddyAlloc] prove that
      the free lists always hold the canonical blocks of the free pages; [BuddyPool],
      [BuddyCache] and [BuddySpec] add compound pages, the checks of pages and the lists of
      the processor; [BuddyWater] counts pages for the watermark test.  [PageAlloc] puts the
      clients beside the allocator as a step relation: in every interleaving no page is
      lost or handed out twice, no check fires on correct clients, a double free is caught,
      and an allocation fails exactly when nothing suitable is free.
    - [Str], [StrMem], [StrSpec] ([lib/string.c], [lib/ctype.c], [include/linux/ctype.h]): the
      string functions on a memory of bytes; what is in memory and how copies change it; the
      functions proved equal to definitions on lists of characters, copies with exactly the
      bytes that they write.
    - [Vsprintf], [VsprintfText], [VsprintfOut], [VsprintfParse], [VsprintfSpec], [VsprintfRead]
      ([lib/vsprintf.c]): reading numbers, [number] and [vsnprintf].  [VsprintfText] gives formats
      a meaning (the relation [renders]), [VsprintfOut] says what each piece of code puts into a
      buffer of limited size, [VsprintfParse] that the code takes a directive apart as the
      meaning does; [VsprintfSpec] proves the refinement and the boundary cases of sizes,
      [VsprintfRead] that printed numbers are read back.

    ** Bounds

    Fuel is always a length that the loop cannot exceed: the number of bytes of a buffer, of
    nodes of a store, of elements of an array, of bytes of memory for a walk along a string.  The loops of the red-black tree get the
    number of nodes, and a theorem shows the logarithmic bound that they keep.  Page frame
    numbers are below 2^20, the 4 GB of a 32-bit machine.  Digest updates
    are bounded by 2^29 bytes where the code keeps a bit count (a longer update is counted
    wrongly, which is proved).

    ** What is not modelled

    Hardware: [arch/], [drivers/], [sound/] and the wireless drivers, whose behaviour is that of
    the devices.  Subsystems whose state is mostly that of hardware or of other subsystems:
    the scheduler, memory management above the page allocator of a zone, file systems,
    networking, IPC.  The other ciphers of
    [crypto/] (tables of several hundred lines each), deflate, the rest of [lib/].
    Atomic bit operations and locks are assembly; a locked section is one step here.
    Registration of algorithms, procfs listings and other glue keep no state of their own.

    ** Plan

    In this order: IDR ([lib/idr.c]), [vsscanf], checksums ([lib/crc32.c]), and the block
    acknowledgement reordering of the wireless drivers. *)
From Stdlib Require Import ZArith Lia.
From stdpp Require Import base numbers list list_numbers option gmap.

Local Open Scope Z_scope.

(** * Machine integers

    The target is a 32-bit little-endian MIPS ([config-2.6.15-smp86xx]), so
    [int] and [long] are 32 bits wide.  An unsigned value of width [w] is a [Z] in
    [0, 2^w); every operation that can leave the range is written with its
    reduction, [u8], [u16] or [u32].  A C [int] is a [Z] in [-2^31, 2^31) and is
    reduced by [s32]. *)
Definition u8 (x : Z) : Z := x `mod` 2^8.
Definition u16 (x : Z) : Z := x `mod` 2^16.
Definition u32 (x : Z) : Z := x `mod` 2^32.
Definition u64 (x : Z) : Z := x `mod` 2^64.
Definition s32 (x : Z) : Z := (x + 2^31) `mod` 2^32 - 2^31.

Declare Scope kernel_scope.
Delimit Scope kernel_scope with kern.

(** Unsigned 32-bit operators. *)
Notation "x +u y" := (u32 (x + y)) (at level 50, left associativity) : kernel_scope.
Notation "x -u y" := (u32 (x - y)) (at level 50, left associativity) : kernel_scope.
Notation "x *u y" := (u32 (x * y)) (at level 40, left associativity) : kernel_scope.
Notation "x <<u n" := (u32 (Z.shiftl x n)) (at level 51, left associativity) : kernel_scope.
Notation "x >>u n" := (Z.shiftr x n) (at level 51, left associativity) : kernel_scope.
Notation "x ^u y" := (Z.lxor x y) (at level 53, left associativity) : kernel_scope.
Notation "x &u y" := (Z.land x y) (at level 52, left associativity) : kernel_scope.
Notation "x |u y" := (Z.lor x y) (at level 54, left associativity) : kernel_scope.

(** Bitwise complement at 32 bits. *)
Definition not32 (x : Z) : Z := 2^32 - 1 - x.

Definition is_u8 (x : Z) : Prop := 0 <= x < 2^8.
Definition is_u16 (x : Z) : Prop := 0 <= x < 2^16.
Definition is_u32 (x : Z) : Prop := 0 <= x < 2^32.

Global Instance is_u8_dec x : Decision (is_u8 x).
Proof. unfold is_u8. apply _. Defined.
Global Instance is_u32_dec x : Decision (is_u32 x).
Proof. unfold is_u32. apply _. Defined.

Create HintDb kern.
Create Rewrite HintDb kern.

Lemma u8_range x : is_u8 (u8 x).
Proof. unfold is_u8, u8. apply Z.mod_pos_bound. lia. Qed.
Lemma u16_range x : is_u16 (u16 x).
Proof. unfold is_u16, u16. apply Z.mod_pos_bound. lia. Qed.
Lemma u32_range x : is_u32 (u32 x).
Proof. unfold is_u32, u32. apply Z.mod_pos_bound. lia. Qed.

Lemma u8_small x : is_u8 x -> u8 x = x.
Proof. apply Z.mod_small. Qed.
Lemma u16_small x : is_u16 x -> u16 x = x.
Proof. apply Z.mod_small. Qed.
Lemma u32_small x : is_u32 x -> u32 x = x.
Proof. apply Z.mod_small. Qed.

Lemma s32_small x : - 2^31 <= x < 2^31 -> s32 x = x.
Proof. intros H. unfold s32. rewrite Z.mod_small; lia. Qed.

Lemma s32_u32 x : s32 (u32 x) = s32 x.
Proof. unfold s32, u32. rewrite Zplus_mod_idemp_l. reflexivity. Qed.

#[export] Hint Resolve u8_range u16_range u32_range : kern.

(** Reduction commutes with the ring operations. *)
Lemma u32_add_l x y : u32 (u32 x + y) = u32 (x + y).
Proof. apply Zplus_mod_idemp_l. Qed.
Lemma u32_add_r x y : u32 (x + u32 y) = u32 (x + y).
Proof. apply Zplus_mod_idemp_r. Qed.
Lemma u32_sub_l x y : u32 (u32 x - y) = u32 (x - y).
Proof. apply Zminus_mod_idemp_l. Qed.
Lemma u32_sub_r x y : u32 (x - u32 y) = u32 (x - y).
Proof. apply Zminus_mod_idemp_r. Qed.
Lemma u32_u32 x : u32 (u32 x) = u32 x.
Proof. apply u32_small, u32_range. Qed.
Lemma u32_mul_l x y : u32 (u32 x * y) = u32 (x * y).
Proof. apply Zmult_mod_idemp_l. Qed.
Lemma u32_mul_r x y : u32 (x * u32 y) = u32 (x * y).
Proof. apply Zmult_mod_idemp_r. Qed.

#[export] Hint Rewrite u32_add_l u32_add_r u32_sub_l u32_sub_r u32_u32
  u32_mul_l u32_mul_r : kern.

(** Subtracting what was added gives the value back, whatever wrapped. *)
Lemma u32_add_sub x d : is_u32 x -> u32 (u32 (x + d) - d) = x.
Proof.
  intros H. rewrite u32_sub_l. replace (x + d - d) with x by lia.
  by apply u32_small.
Qed.

(** ** Bits *)

Lemma testbit_high x w i : 0 <= x < 2^w -> w <= i -> Z.testbit x i = false.
Proof.
  intros Hx Hi. destruct (decide (w < 0)) as [Hw|Hw].
  { rewrite Z.pow_neg_r in Hx by lia. lia. }
  destruct (decide (x = 0)) as [->|Hne]; [by rewrite Z.testbit_0_l|].
  apply Z.bits_above_log2; [lia|].
  apply Z.log2_lt_pow2; [lia|].
  apply (Z.lt_le_trans _ (2^w)); [lia|]. by apply Z.pow_le_mono_r.
Qed.

Lemma bits_range x w :
  0 <= w -> 0 <= x -> (forall i, w <= i -> Z.testbit x i = false) -> x < 2^w.
Proof.
  intros Hw Hx Hb. destruct (decide (x = 0)) as [->|Hne]; [lia|].
  apply Z.log2_lt_pow2; [lia|].
  destruct (Z.lt_ge_cases (Z.log2 x) w) as [?|Hge]; [done|].
  specialize (Hb _ Hge). rewrite Z.bit_log2 in Hb by lia. done.
Qed.

(** A bitwise operator that keeps [false, false] at [false] keeps the width. *)
Lemma lxor_range w x y : 0 <= w -> 0 <= x < 2^w -> 0 <= y < 2^w -> 0 <= Z.lxor x y < 2^w.
Proof.
  intros Hw Hx Hy. assert (0 <= Z.lxor x y) by (apply Z.lxor_nonneg; lia).
  split; [done|]. apply bits_range; [done..|]. intros i Hi.
  rewrite Z.lxor_spec, !(testbit_high _ w) by done. done.
Qed.
Lemma lor_range w x y : 0 <= w -> 0 <= x < 2^w -> 0 <= y < 2^w -> 0 <= Z.lor x y < 2^w.
Proof.
  intros Hw Hx Hy. assert (0 <= Z.lor x y) by (apply Z.lor_nonneg; lia).
  split; [done|]. apply bits_range; [done..|]. intros i Hi.
  rewrite Z.lor_spec, !(testbit_high _ w) by done. done.
Qed.
Lemma land_range_l w x y : 0 <= w -> 0 <= x < 2^w -> 0 <= Z.land x y < 2^w.
Proof.
  intros Hw Hx. assert (0 <= Z.land x y) by (apply Z.land_nonneg; lia).
  split; [done|]. apply bits_range; [done..|]. intros i Hi.
  rewrite Z.land_spec, (testbit_high x w) by done. done.
Qed.
Lemma shiftr_range w x n : 0 <= n -> 0 <= x < 2^w -> 0 <= Z.shiftr x n < 2^w.
Proof.
  intros Hn Hx. rewrite Z.shiftr_div_pow2 by done.
  split; [apply Z.div_pos; [lia|by apply Z.pow_pos_nonneg]|].
  apply (Z.le_lt_trans _ x); [|lia]. apply Z.div_le_upper_bound; [by apply Z.pow_pos_nonneg|].
  assert (1 <= 2^n) by (apply (Z.pow_le_mono_r 2 0); lia). nia.
Qed.

Lemma is_u32_lxor x y : is_u32 x -> is_u32 y -> is_u32 (Z.lxor x y).
Proof. by apply lxor_range. Qed.
Lemma is_u32_lor x y : is_u32 x -> is_u32 y -> is_u32 (Z.lor x y).
Proof. by apply lor_range. Qed.
Lemma is_u32_land_l x y : is_u32 x -> is_u32 (Z.land x y).
Proof. by apply land_range_l. Qed.
Lemma is_u32_shiftr x n : 0 <= n -> is_u32 x -> is_u32 (Z.shiftr x n).
Proof. apply shiftr_range. Qed.
Lemma is_u8_lxor x y : is_u8 x -> is_u8 y -> is_u8 (Z.lxor x y).
Proof. by apply lxor_range. Qed.
Lemma is_u32_not32 x : is_u32 x -> is_u32 (not32 x).
Proof. unfold is_u32, not32. lia. Qed.
#[export] Hint Resolve is_u32_lxor is_u32_lor is_u32_land_l is_u8_lxor is_u32_not32 : kern.

Lemma testbit_not32 x i : is_u32 x -> 0 <= i < 32 -> Z.testbit (not32 x) i = negb (Z.testbit x i).
Proof.
  intros Hx Hi. replace (not32 x) with (Z.lnot x `mod` 2^32).
  - rewrite Z.mod_pow2_bits_low by lia. by rewrite Z.lnot_spec by lia.
  - unfold Z.lnot, not32, is_u32 in *. symmetry. apply (Z.mod_unique _ _ (-1)); lia.
Qed.

(** [x & ~m] *)
Lemma land_not32 x m : is_u32 x -> is_u32 m -> Z.land x (not32 m) = Z.ldiff x m.
Proof.
  intros Hx Hm. apply Z.bits_inj'. intros i Hi. rewrite Z.land_spec, Z.ldiff_spec.
  destruct (Z.lt_ge_cases i 32).
  - by rewrite testbit_not32 by (done || lia).
  - rewrite (testbit_high x 32) by done. done.
Qed.

(** Masking with [2^k - 1] is reduction modulo [2^k]. *)
Lemma land_mask x k : 0 <= k -> Z.land x (2^k - 1) = x `mod` 2^k.
Proof.
  intros Hk. rewrite <- Z.land_ones by done. f_equal. rewrite Z.ones_equiv. lia.
Qed.

(** The kernel's test for a power of two: [x & (x - 1)] is zero. *)
Lemma pow2_land_pred k : 0 <= k -> Z.land (2^k) (2^k - 1) = 0.
Proof.
  intros Hk. rewrite land_mask by done. apply Z.mod_same.
  apply Z.pow_nonzero; lia.
Qed.

Lemma land_pred_pow2 x : 0 < x -> Z.land x (x - 1) = 0 -> exists k, 0 <= k /\ x = 2^k.
Proof.
  intros Hx Hand. exists (Z.log2 x). split; [apply Z.log2_nonneg|].
  pose proof (Z.log2_spec x Hx) as [Hlo Hhi].
  destruct (decide (x = 2 ^ Z.log2 x)) as [?|Hne]; [done|]. exfalso.
  assert (Hl : Z.log2 (x - 1) = Z.log2 x).
  { apply Z.log2_unique; [apply Z.log2_nonneg|lia]. }
  assert (0 < x - 1).
  { assert (0 < 2 ^ Z.log2 x) by (apply Z.pow_pos_nonneg; [lia|apply Z.log2_nonneg]). lia. }
  assert (Hb : Z.testbit (Z.land x (x - 1)) (Z.log2 x) = true).
  { rewrite Z.land_spec, Z.bit_log2 by done. rewrite <- Hl, Z.bit_log2 by done. done. }
  rewrite Hand, Z.testbit_0_l in Hb. done.
Qed.

(** * Memory blocks

    A block of memory (a buffer, an array) is the list of its cells.  An access
    outside the block is [None]: a theorem that an operation returns [Some]
    therefore says that it stays inside its buffers. *)
Section Blocks.
Context {A : Type}.
Implicit Types (m d : list A) (off n : Z).

Definition zlen m : Z := Z.of_nat (length m).

Lemma zlen_cons x m : zlen (x :: m) = zlen m + 1.
Proof. unfold zlen. cbn [length]. lia. Qed.
Lemma zlen_nonneg m : 0 <= zlen m.
Proof. unfold zlen. lia. Qed.

Definition mem_get m off : option A :=
  if decide (0 <= off) then m !! Z.to_nat off else None.

Definition mem_set m off (x : A) : option (list A) :=
  if decide (0 <= off < zlen m) then Some (<[Z.to_nat off := x]> m) else None.

Definition mem_read m off n : option (list A) :=
  if decide (0 <= off /\ 0 <= n /\ off + n <= zlen m)
  then Some (take (Z.to_nat n) (drop (Z.to_nat off) m)) else None.

Definition mem_write m off d : option (list A) :=
  if decide (0 <= off /\ off + zlen d <= zlen m)
  then Some (take (Z.to_nat off) m ++ d ++ drop (Z.to_nat off + length d) m) else None.

(** [memcpy(dst + doff, src + soff, n)] between two blocks. *)
Definition memcpy (dst : list A) (doff : Z) (src : list A) (soff n : Z) : option (list A) :=
  mem_read src soff n ≫= mem_write dst doff.

Lemma mem_read_Some m off n :
  0 <= off -> 0 <= n -> off + n <= zlen m ->
  mem_read m off n = Some (take (Z.to_nat n) (drop (Z.to_nat off) m)).
Proof. intros. unfold mem_read. rewrite decide_True; [done|lia]. Qed.

Lemma mem_write_Some m off d :
  0 <= off -> off + zlen d <= zlen m ->
  mem_write m off d = Some (take (Z.to_nat off) m ++ d ++ drop (Z.to_nat off + length d) m).
Proof. intros. unfold mem_write. rewrite decide_True; [done|lia]. Qed.

Lemma mem_get_Some m off x : mem_get m off = Some x -> 0 <= off < zlen m.
Proof.
  unfold mem_get, zlen. case_decide; [|done]. intros Hl%lookup_lt_Some. lia.
Qed.

Lemma mem_get_nat m (i : nat) : mem_get m (Z.of_nat i) = m !! i.
Proof. unfold mem_get. rewrite decide_True by lia. by rewrite Nat2Z.id. Qed.

Lemma mem_set_nat m (i : nat) x :
  (i < length m)%nat -> mem_set m (Z.of_nat i) x = Some (<[i := x]> m).
Proof.
  intros. unfold mem_set, zlen. rewrite decide_True by lia. by rewrite Nat2Z.id.
Qed.

(** Cell [j] after a block write. *)
Lemma lookup_mem_write m off d m' (j : nat) :
  mem_write m off d = Some m' ->
  m' !! j = if decide (Z.to_nat off <= j < Z.to_nat off + length d)%nat
            then d !! (j - Z.to_nat off)%nat else m !! j.
Proof.
  unfold mem_write, zlen. case_decide as Hr; [|done]. intros [= <-].
  assert (Hl : length (take (Z.to_nat off) m) = Z.to_nat off)
    by (rewrite length_take; lia).
  case_decide as Hj.
  - rewrite lookup_app_r by lia. rewrite Hl, lookup_app_l by lia. done.
  - destruct (decide (j < Z.to_nat off)%nat).
    + rewrite lookup_app_l by lia. by rewrite lookup_take_lt by lia.
    + rewrite lookup_app_r, Hl, lookup_app_r, lookup_drop by lia. f_equal. lia.
Qed.

Lemma length_mem_write m off d m' :
  mem_write m off d = Some m' -> length m' = length m.
Proof.
  unfold mem_write, zlen. case_decide; [|done]. intros [= <-].
  rewrite !length_app, length_take, length_drop. lia.
Qed.
End Blocks.

Arguments zlen {A} m : simpl never.

(** * State and failure

    Code that works on a shared store is written in the monad [SM S]: a function
    of the store that returns a value and the new store, or [None] when it
    dereferences a pointer that is null or does not point to an object. *)
Definition SM (S A : Type) : Type := S -> option (A * S).

Global Instance SM_ret {S} : MRet (SM S) := fun A x s => Some (x, s).
Global Instance SM_bind {S} : MBind (SM S) :=
  fun A B k m s => match m s with Some (x, s') => k x s' | None => None end.

Definition SM_fail {S A} : SM S A := fun _ => None.

Lemma SM_bind_eq {S A B} (m : SM S A) (k : A -> SM S B) s x s' :
  m s = Some (x, s') -> (m ≫= k) s = k x s'.
Proof. intros H. unfold mbind, SM_bind. by rewrite H. Qed.

(** * Results of kernel functions that can fail *)

Definition ENOMEM : Z := 12.
Definition EBUSY : Z := 16.
Definition EEXIST : Z := 17.
Definition EINVAL : Z := 22.
Definition ENOSYS : Z := 38.
