(* ===== verification/Bitops.v ===== *)
(** Bit operations: [include/linux/bitops.h], [include/asm-mips/bitops.h] and
    the power-of-two helpers of [include/linux/kernel.h].

    A bitmap is the list of its 32-bit words.  [bit_of ws i] is bit [i] of the
    bitmap, the abstraction every theorem on bitmaps is stated with. *)
From Stdlib Require Import ZArith Lia.
From stdpp Require Import base numbers list option.
From S2P Require Import Prelude.

Local Open Scope Z_scope.
Local Open Scope kernel_scope.

Definition BITS_PER_LONG : Z := 32.
Definition SZLONG_LOG : Z := 5.
Definition SZLONG_MASK : Z := 31.
Definition ULONG_ONES : Z := 2^32 - 1.

(** ** Searching inside one word *)

(** The [clz] instruction: the number of leading zeros of a 32-bit word. *)
Definition clz (x : Z) : Z := if decide (x = 0) then 32 else 31 - Z.log2 x.

Definition __ilog2 (x : Z) : Z := 31 - clz x.

Definition __ffs (word : Z) : Z := u32 (__ilog2 (word &u u32 (- word))).

Definition ffs (word : Z) : Z := if decide (word = 0) then 0 else __ffs word +u 1.

Definition ffz (word : Z) : Z := __ffs (not32 word).

Definition flz (word : Z) : Z := u32 (__ilog2 (not32 word)).

Definition fls (word : Z) : Z := if decide (word = 0) then 0 else flz (not32 word) +u 1.

(** One halving step of [generic_ffs]: when the [s] low bits ([mask]) are
    clear, shift them out and count them. *)
Definition ffs_step (mask s : Z) (st : Z * Z) : Z * Z :=
  let '(x, r) := st in
  if decide (x &u mask = 0) then (x >>u s, r + s) else (x, r).

Definition generic_ffs (x : Z) : Z :=
  if decide (x = 0) then 0 else
  let st := (x, 1) in
  let st := ffs_step 0xffff 16 st in
  let st := ffs_step 0xff 8 st in
  let st := ffs_step 0xf 4 st in
  let st := ffs_step 3 2 st in
  let st := ffs_step 1 1 st in
  st.2.

(** One halving step of [generic_fls]: when the [s] high bits are clear, shift
    the word up. *)
Definition fls_step (mask s : Z) (st : Z * Z) : Z * Z :=
  let '(x, r) := st in
  if decide (x &u mask = 0) then (x <<u s, r - s) else (x, r).

Definition generic_fls (x : Z) : Z :=
  if decide (x = 0) then 0 else
  let st := (x, 32) in
  let st := fls_step 0xffff0000 16 st in
  let st := fls_step 0xff000000 8 st in
  let st := fls_step 0xf0000000 4 st in
  let st := fls_step 0xc0000000 2 st in
  let st := fls_step 0x80000000 1 st in
  st.2.

Definition generic_hweight32 (w : Z) : Z :=
  let res := (w &u 0x55555555) +u ((w >>u 1) &u 0x55555555) in
  let res := (res &u 0x33333333) +u ((res >>u 2) &u 0x33333333) in
  let res := (res &u 0x0F0F0F0F) +u ((res >>u 4) &u 0x0F0F0F0F) in
  let res := (res &u 0x00FF00FF) +u ((res >>u 8) &u 0x00FF00FF) in
  (res &u 0x0000FFFF) +u ((res >>u 16) &u 0x0000FFFF).

Definition rol32 (word shift : Z) : Z :=
  (word <<u shift) |u (word >>u (32 - shift)).

Definition ror32 (word shift : Z) : Z :=
  (word >>u shift) |u (word <<u (32 - shift)).

Definition roundup_pow_of_two (x : Z) : Z := 1 <<u fls (x -u 1).

(** ** Bitmaps *)

Definition bit_of (ws : list Z) (i : Z) : bool :=
  if decide (i < 0) then false
  else Z.testbit (ws !!! Z.to_nat (i `div` 32)) (i `mod` 32).

Definition bitmap_wf (ws : list Z) : Prop := Forall is_u32 ws.

(** [addr += nr >> SZLONG_LOG; *addr op= 1UL << (nr & SZLONG_MASK)]. *)
Definition bit_word (nr : Z) : Z := nr >>u SZLONG_LOG.
Definition bit_mask (nr : Z) : Z := 1 <<u (nr &u SZLONG_MASK).

Definition __set_bit (nr : Z) (addr : list Z) : option (list Z) :=
  w ← mem_get addr (bit_word nr); mem_set addr (bit_word nr) (w |u bit_mask nr).

Definition __clear_bit (nr : Z) (addr : list Z) : option (list Z) :=
  w ← mem_get addr (bit_word nr); mem_set addr (bit_word nr) (w &u not32 (bit_mask nr)).

Definition __change_bit (nr : Z) (addr : list Z) : option (list Z) :=
  w ← mem_get addr (bit_word nr); mem_set addr (bit_word nr) (w ^u bit_mask nr).

Definition test_bit (nr : Z) (addr : list Z) : option Z :=
  w ← mem_get addr (bit_word nr); Some (1 &u (w >>u (nr &u SZLONG_MASK))).

Definition __test_and_set_bit (nr : Z) (addr : list Z) : option (Z * list Z) :=
  w ← mem_get addr (bit_word nr);
  let retval := if decide (bit_mask nr &u w = 0) then 0 else 1 in
  addr' ← mem_set addr (bit_word nr) (w |u bit_mask nr);
  Some (retval, addr').

Definition __test_and_clear_bit (nr : Z) (addr : list Z) : option (Z * list Z) :=
  w ← mem_get addr (bit_word nr);
  let retval := if decide (bit_mask nr &u w = 0) then 0 else 1 in
  addr' ← mem_set addr (bit_word nr) (w &u not32 (bit_mask nr));
  Some (retval, addr').

(** [find_next_bit] and [find_next_zero_bit].  The [while] loop over full words
    recurses on [fuel]; [length addr + 1] rounds are enough because every round
    reads one more word of the bitmap. *)
Definition fnb_found_middle (result tmp : Z) : option Z := Some (result +u __ffs tmp).

Definition fnb_found_first (result size tmp : Z) : option Z :=
  let tmp := tmp &u (ULONG_ONES >>u (BITS_PER_LONG - size)) in
  if decide (tmp = 0) then Some (result +u size) else fnb_found_middle result tmp.

Fixpoint fnb_words (fuel : nat) (addr : list Z) (p result size : Z) : option Z :=
  match fuel with
  | O => None
  | S fuel =>
    if decide (size &u not32 SZLONG_MASK = 0) then
      if decide (size = 0) then Some result
      else tmp ← mem_get addr p; fnb_found_first result size tmp
    else
      tmp ← mem_get addr p;
      if decide (tmp = 0)
      then fnb_words fuel addr (p + 1) (result +u BITS_PER_LONG) (size -u BITS_PER_LONG)
      else fnb_found_middle result tmp
  end.

Definition find_next_bit (addr : list Z) (size offset : Z) : option Z :=
  let p := offset >>u SZLONG_LOG in
  let result := offset &u not32 SZLONG_MASK in
  if decide (offset >= size) then Some size else
  let size := size -u result in
  let offset := offset &u SZLONG_MASK in
  if decide (offset = 0) then fnb_words (S (length addr)) addr p result size else
  tmp ← mem_get addr p;
  let tmp := tmp &u (ULONG_ONES <<u offset) in
  if decide (size < BITS_PER_LONG) then fnb_found_first result size tmp
  else if decide (tmp = 0)
  then fnb_words (S (length addr)) addr (p + 1) (result +u BITS_PER_LONG) (size -u BITS_PER_LONG)
  else fnb_found_middle result tmp.

Definition fnz_found_middle (result tmp : Z) : option Z := Some (result +u ffz tmp).

Definition fnz_found_first (result size tmp : Z) : option Z :=
  let tmp := tmp |u (ULONG_ONES <<u size) in
  if decide (tmp = ULONG_ONES) then Some (result +u size) else fnz_found_middle result tmp.

Fixpoint fnz_words (fuel : nat) (addr : list Z) (p result size : Z) : option Z :=
  match fuel with
  | O => None
  | S fuel =>
    if decide (size &u not32 SZLONG_MASK = 0) then
      if decide (size = 0) then Some result
      else tmp ← mem_get addr p; fnz_found_first result size tmp
    else
      tmp ← mem_get addr p;
      if decide (not32 tmp = 0)
      then fnz_words fuel addr (p + 1) (result +u BITS_PER_LONG) (size -u BITS_PER_LONG)
      else fnz_found_middle result tmp
  end.

Definition find_next_zero_bit (addr : list Z) (size offset : Z) : option Z :=
  let p := offset >>u SZLONG_LOG in
  let result := offset &u not32 SZLONG_MASK in
  if decide (offset >= size) then Some size else
  let size := size -u result in
  let offset := offset &u SZLONG_MASK in
  if decide (offset = 0) then fnz_words (S (length addr)) addr p result size else
  tmp ← mem_get addr p;
  let tmp := tmp |u (ULONG_ONES >>u (BITS_PER_LONG - offset)) in
  if decide (size < BITS_PER_LONG) then fnz_found_first result size tmp
  else if decide (not32 tmp = 0)
  then fnz_words (S (length addr)) addr (p + 1) (result +u BITS_PER_LONG) (size -u BITS_PER_LONG)
  else fnz_found_middle result tmp.

(** * Searching inside one word *)

(** [lsb x r]: bit [r] is the lowest set bit of [x]. *)
Definition lsb (x r : Z) : Prop :=
  0 <= r /\ Z.testbit x r = true /\ forall j, 0 <= j < r -> Z.testbit x j = false.

Lemma lsb_unique x r r' : lsb x r -> lsb x r' -> r = r'.
Proof.
  intros (? & Hr & Hl) (? & Hr' & Hl').
  destruct (Z.lt_trichotomy r r') as [?|[?|?]]; [|done|].
  - rewrite Hl' in Hr by lia. done.
  - rewrite Hl in Hr' by lia. done.
Qed.


(** Every set bit bounds the lowest one, which exists. *)
Lemma lsb_exists x i : 0 <= i -> Z.testbit x i = true -> exists r, lsb x r /\ r <= i.
Proof.
  intros Hi. pattern i. apply Zlt_0_ind; [|done]. clear i Hi. intros i IH Hi Hb.
  destruct (decide (Exists (fun j => Z.testbit x j = true) (seqZ 0 i))) as [He|Hno].
  - apply Exists_exists in He as (j & Hj%list_elem_of_In%elem_of_seqZ & Hbj).
    destruct (IH j ltac:(lia) Hbj) as (r & ? & ?). exists r. split; [done|lia].
  - exists i. split; [|lia]. split; [done|]. split; [done|]. intros j Hj.
    destruct (Z.testbit x j) eqn:E; [|done]. destruct Hno. apply Exists_exists.
    exists j. split; [apply list_elem_of_In, elem_of_seqZ; lia|done].
Qed.

Lemma nonzero_bit x w : 0 <= w -> 0 <= x < 2^w -> x <> 0 -> exists i, 0 <= i < w /\ Z.testbit x i = true.
Proof.
  intros Hw Hx Hne. exists (Z.log2 x). split; [|apply Z.bit_log2; lia].
  split; [apply Z.log2_nonneg|]. apply Z.log2_lt_pow2; lia.
Qed.

Lemma lsb_word w : is_u32 w -> w <> 0 -> exists r, lsb w r /\ r < 32.
Proof.
  intros Hw Hne. destruct (nonzero_bit w 32) as (i & Hi & Hb); [lia|done..|].
  destruct (lsb_exists w i) as (r & ? & ?); [lia|done|]. exists r. split; [done|lia].
Qed.

(** A number with lowest set bit [r] is an odd multiple of [2^r]. *)
Lemma lsb_decompose x r : lsb x r -> exists m, x = 2^r * (2 * m + 1).
Proof.
  intros (Hr & Hb & Hlow). exists (x / 2^(r + 1)).
  apply Z.bits_inj'. intros j Hj.
  rewrite (Z.mul_comm (2^r)), Z.mul_pow2_bits by done.
  destruct (Z.lt_trichotomy j r) as [Hlt|[->|Hgt]].
  - rewrite Hlow by lia. by rewrite Z.testbit_neg_r by lia.
  - rewrite Z.sub_diag, Hb. by rewrite Z.testbit_odd_0.
  - replace (j - r) with (Z.succ (j - r - 1)) by lia.
    rewrite Z.testbit_odd_succ by lia. rewrite Z.div_pow2_bits by lia.
    f_equal. lia.
Qed.

Lemma land_opp x r : lsb x r -> Z.land x (- x) = 2^r.
Proof.
  intros Hl. pose proof Hl as (Hr & Hb & Hlow).
  destruct (lsb_decompose x r Hl) as (m & Hx).
  assert (Hpos : 0 < 2^r) by (by apply Z.pow_pos_nonneg).
  assert (Hdiv : forall y, 2^r * (2 * m) <= y < 2^r * (2 * m) + 2 * 2^r -> y / 2^(r + 1) = m).
  { intros y Hy. rewrite Z.pow_add_r by lia. symmetry.
    apply (Z.div_unique _ _ _ (y - 2^r * (2 * m))); lia. }
  apply Z.bits_inj'. intros j Hj.
  rewrite Z.land_spec, Z.pow2_bits_eqb by done. rewrite Z.bits_opp by done.
  destruct (Z.lt_trichotomy j r) as [Hlt|[->|Hgt]].
  - rewrite Hlow by lia. rewrite (proj2 (Z.eqb_neq r j)) by lia. done.
  - rewrite Z.eqb_refl, Hb. simpl. rewrite Z.testbit_eqb by done.
    replace (Z.pred x / 2^r) with (2 * m) by (apply (Z.div_unique _ _ _ (2^r - 1)); lia).
    rewrite Z.mul_comm, Z_mod_mult. done.
  - rewrite (proj2 (Z.eqb_neq r j)) by lia.
    assert (Heq : Z.testbit (Z.pred x) j = Z.testbit x j).
    { rewrite !Z.testbit_eqb by done. replace j with (r + 1 + (j - r - 1)) by lia.
      rewrite Z.pow_add_r by lia. rewrite <- !Z.div_div by (try apply Z.pow_nonzero; lia).
      rewrite !Hdiv by lia. done. }
    rewrite Heq. by destruct (Z.testbit x j).
Qed.

(** [__ffs] returns the index of the lowest set bit. *)
Lemma __ffs_lsb w : is_u32 w -> w <> 0 -> lsb w (__ffs w) /\ __ffs w < 32.
Proof.
  intros Hw Hne. destruct (lsb_word w Hw Hne) as (r & Hl & Hr32).
  assert (Hr : 0 <= r) by apply Hl.
  assert (Hand : Z.land w (u32 (- w)) = 2^r).
  { unfold u32. rewrite <- Z.land_ones, Z.land_assoc, (land_opp w r Hl) by lia.
    rewrite Z.land_ones by lia. apply Z.mod_small.
    split; [by apply Z.pow_nonneg|by apply Z.pow_lt_mono_r]. }
  assert (__ffs w = r) as ->; [|done].
  unfold __ffs, __ilog2, clz. rewrite Hand.
  assert (0 < 2^r) by (by apply Z.pow_pos_nonneg).
  rewrite decide_False, Z.log2_pow2 by lia.
  replace (31 - (31 - r)) with r by lia. apply u32_small. unfold is_u32. lia.
Qed.

Lemma __ffs_unique w r : is_u32 w -> lsb w r -> __ffs w = r.
Proof.
  intros Hw Hl. destruct (__ffs_lsb w Hw); [|by eapply lsb_unique].
  intros ->. destruct Hl as (_ & Hb & _). by rewrite Z.testbit_0_l in Hb.
Qed.

(** [fls] is one more than the index of the highest set bit. *)
Lemma fls_log2 w : is_u32 w -> w <> 0 -> fls w = Z.log2 w + 1.
Proof.
  unfold is_u32. intros Hw Hne. unfold fls, flz, __ilog2, clz, not32.
  rewrite decide_False by done.
  replace (2^32 - 1 - (2^32 - 1 - w)) with w by lia. rewrite decide_False by done.
  assert (0 <= Z.log2 w < 32).
  { split; [apply Z.log2_nonneg|apply Z.log2_lt_pow2; lia]. }
  replace (31 - (31 - Z.log2 w)) with (Z.log2 w) by lia.
  rewrite (u32_small (Z.log2 w)) by (unfold is_u32; lia).
  apply u32_small. unfold is_u32. lia.
Qed.

(** *** The generic halving versions agree with the MIPS ones *)

Lemma land_high_mask x s :
  0 <= s <= 32 -> is_u32 x -> Z.land x (2^32 - 2^(32 - s)) = 0 <-> x < 2^(32 - s).
Proof.
  intros Hs Hx. assert (Hm : 2^32 - 2^(32 - s) = Z.shiftl (Z.ones s) (32 - s)).
  { rewrite Z.shiftl_mul_pow2, Z.ones_equiv by lia.
    assert (2^32 = 2^s * 2^(32 - s)) by (rewrite <- Z.pow_add_r by lia; f_equal; lia). lia. }
  rewrite Hm. split.
  - intros H0. apply bits_range; [lia|unfold is_u32 in Hx; lia|]. intros i Hi.
    destruct (decide (i < 32)).
    + assert (Hb : Z.testbit (Z.land x (Z.shiftl (Z.ones s) (32 - s))) i = false)
        by (rewrite H0; apply Z.testbit_0_l).
      rewrite Z.land_spec, Z.shiftl_spec, Z.ones_spec_low in Hb by lia.
      by rewrite andb_true_r in Hb.
    + apply (testbit_high x 32); [done|lia].
  - intros Hlt. apply Z.bits_inj'. intros i Hi. rewrite Z.land_spec, Z.testbit_0_l.
    destruct (decide (i < 32 - s)).
    + rewrite Z.shiftl_spec_low by lia. by rewrite andb_false_r.
    + rewrite (testbit_high x (32 - s)); [done| |lia]. unfold is_u32 in Hx. lia.
Qed.

(** One step keeps [r + log2 x] and doubles the lower bound on the exponent. *)
Lemma fls_step_spec s x r :
  0 < s <= 16 -> is_u32 x -> 2^(32 - 2 * s) <= x ->
  let '(x', r') := fls_step (2^32 - 2^(32 - s)) s (x, r) in
  is_u32 x' /\ 2^(32 - s) <= x' /\ r' + Z.log2 x' = r + Z.log2 x.
Proof.
  intros Hs Hx Hlo. unfold fls_step. case_decide as Hd.
  - apply land_high_mask in Hd; [|lia|done].
    assert (Hpos : 0 < 2^(32 - 2 * s)) by (apply Z.pow_pos_nonneg; lia).
    assert (Hp : 2^(32 - s) * 2^s = 2^32) by (rewrite <- Z.pow_add_r by lia; f_equal; lia).
    assert (Hp2 : 2^(32 - 2 * s) * 2^s = 2^(32 - s))
      by (rewrite <- Z.pow_add_r by lia; f_equal; lia).
    assert (0 < 2^s) by (apply Z.pow_pos_nonneg; lia).
    rewrite u32_small by (unfold is_u32; rewrite Z.shiftl_mul_pow2 by lia; nia).
    split; [unfold is_u32; rewrite Z.shiftl_mul_pow2 by lia; nia|].
    rewrite Z.log2_shiftl by lia. split; [rewrite Z.shiftl_mul_pow2 by lia; nia|lia].
  - split; [done|]. split; [|done].
    rewrite land_high_mask in Hd by (done || lia). lia.
Qed.

Lemma generic_fls_log2 w : is_u32 w -> w <> 0 -> generic_fls w = Z.log2 w + 1.
Proof.
  intros Hw Hne. unfold generic_fls. rewrite decide_False by done.
  pose proof (fls_step_spec 16 w 32) as St1.
  change (2^32 - 2^(32 - 16)) with 0xffff0000 in St1.
  destruct (fls_step 0xffff0000 16 (w, 32)) as [x1 r1].
  destruct St1 as (? & ? & ?); [lia|done|simpl; unfold is_u32 in Hw; lia|].
  pose proof (fls_step_spec 8 x1 r1) as St2. change (2^32 - 2^(32 - 8)) with 0xff000000 in St2.
  destruct (fls_step 0xff000000 8 (x1, r1)) as [x2 r2]. destruct St2 as (? & ? & ?); [lia|done..|].
  pose proof (fls_step_spec 4 x2 r2) as St3. change (2^32 - 2^(32 - 4)) with 0xf0000000 in St3.
  destruct (fls_step 0xf0000000 4 (x2, r2)) as [x3 r3]. destruct St3 as (? & ? & ?); [lia|done..|].
  pose proof (fls_step_spec 2 x3 r3) as St4. change (2^32 - 2^(32 - 2)) with 0xc0000000 in St4.
  destruct (fls_step 0xc0000000 2 (x3, r3)) as [x4 r4]. destruct St4 as (? & ? & ?); [lia|done..|].
  pose proof (fls_step_spec 1 x4 r4) as St5. change (2^32 - 2^(32 - 1)) with 0x80000000 in St5.
  destruct (fls_step 0x80000000 1 (x4, r4)) as [x5 r5]. destruct St5 as (Hx5 & Hlo5 & ?); [lia|done..|].
  simpl. assert (Z.log2 x5 = 31); [|lia].
  apply Z.log2_unique; [lia|]. unfold is_u32 in Hx5. simpl in *. lia.
Qed.

Lemma lsb_shiftr x s r : 0 <= s -> lsb x r -> s <= r -> lsb (Z.shiftr x s) (r - s).
Proof.
  intros Hs (Hr & Hb & Hl) Hsr. split; [lia|]. rewrite Z.shiftr_spec by lia.
  replace (r - s + s) with r by lia. split; [done|]. intros j Hj.
  rewrite Z.shiftr_spec by lia. apply Hl. lia.
Qed.

Lemma lsb_mask x r s : 0 <= s -> lsb x r -> Z.land x (Z.ones s) = 0 <-> s <= r.
Proof.
  intros Hs (Hr & Hb & Hl). split.
  - intros H0. destruct (decide (s <= r)); [done|].
    assert (Hf : Z.testbit (Z.land x (Z.ones s)) r = false) by (rewrite H0; apply Z.testbit_0_l).
    rewrite Z.land_spec, Hb, Z.ones_spec_low in Hf by lia. done.
  - intros Hsr. apply Z.bits_inj'. intros i Hi. rewrite Z.land_spec, Z.testbit_0_l.
    destruct (decide (i < s)); [by rewrite Hl by lia|].
    rewrite Z.ones_spec_high by lia. apply andb_false_r.
Qed.

Lemma ffs_step_spec s x r b :
  0 < s -> lsb x b -> b < 2 * s ->
  exists b', lsb (ffs_step (Z.ones s) s (x, r)).1 b' /\ b' < s /\
    (ffs_step (Z.ones s) s (x, r)).2 + b' = r + b.
Proof.
  intros Hs Hl Hb. unfold ffs_step. case_decide as Hd.
  - apply (lsb_mask x b s) in Hd; [|lia|done]. exists (b - s). simpl.
    split; [apply lsb_shiftr; [lia|done|done]|]. lia.
  - exists b. split; [done|]. split; [|done].
    destruct (Z.lt_ge_cases b s) as [?|Hge]; [done|]. destruct Hd.
    apply (lsb_mask x b s); [lia|done|done].
Qed.

(** [generic_ffs] takes an [int]: its argument may be negative, and [>>] is then
    the arithmetic shift. *)
Lemma generic_ffs_lsb x b : lsb x b -> b < 32 -> generic_ffs x = b + 1.
Proof.
  intros Hl Hb. unfold generic_ffs. rewrite decide_False
    by (intros ->; destruct Hl as (_ & Hb0 & _); by rewrite Z.testbit_0_l in Hb0).
  cbv zeta.
  destruct (ffs_step_spec 16 x 1 b) as (b1 & ? & ? & ?); [lia|done|lia|].
  change (Z.ones 16) with 0xffff in *. destruct (ffs_step 0xffff 16 (x, 1)) as [x1 r1].
  destruct (ffs_step_spec 8 x1 r1 b1) as (b2 & ? & ? & ?); [lia|done|lia|].
  change (Z.ones 8) with 0xff in *. destruct (ffs_step 0xff 8 (x1, r1)) as [x2 r2].
  destruct (ffs_step_spec 4 x2 r2 b2) as (b3 & ? & ? & ?); [lia|done|lia|].
  change (Z.ones 4) with 0xf in *. destruct (ffs_step 0xf 4 (x2, r2)) as [x3 r3].
  destruct (ffs_step_spec 2 x3 r3 b3) as (b4 & ? & ? & ?); [lia|done|lia|].
  change (Z.ones 2) with 3 in *. destruct (ffs_step 3 2 (x3, r3)) as [x4 r4].
  destruct (ffs_step_spec 1 x4 r4 b4) as (b5 & Hl5 & ? & ?); [lia|done|lia|].
  change (Z.ones 1) with 1 in *. destruct (ffs_step 1 1 (x4, r4)) as [x5 r5].
  simpl in *. assert (0 <= b5) by apply Hl5. lia.
Qed.

Lemma testbit_s32 w j : is_u32 w -> 0 <= j < 32 -> Z.testbit (s32 w) j = Z.testbit w j.
Proof.
  intros Hw Hj. rewrite <- (Z.mod_pow2_bits_low (s32 w) 32 j), <- (Z.mod_pow2_bits_low w 32 j) by lia.
  f_equal. unfold s32. rewrite Zminus_mod_idemp_l. f_equal. lia.
Qed.

(** *** Population count *)

(** The sum of the [n] low fields of [k] bits of [w]. *)
Fixpoint fsum (k : Z) (n : nat) (w : Z) : Z :=
  match n with
  | O => 0
  | S n => w `mod` 2^k + fsum k n (w / 2^k)
  end.

(** [n] fields of [2k] bits, each with its [k] low bits set. *)
Fixpoint field_mask (k : Z) (n : nat) : Z :=
  match n with
  | O => 0
  | S n => (2^k - 1) + 2^(2 * k) * field_mask k n
  end.

Definition popcount32 (w : Z) : Z := fsum 1 32 w.

Lemma land_split k lo hi mlo mhi :
  0 <= k -> 0 <= lo < 2^k -> 0 <= mlo < 2^k ->
  Z.land (lo + 2^k * hi) (mlo + 2^k * mhi) = Z.land lo mlo + 2^k * Z.land hi mhi.
Proof.
  intros Hk Hlo Hmlo.
  assert (Hbits : forall a b i, 0 <= a < 2^k -> 0 <= i ->
    Z.testbit (a + 2^k * b) i = if decide (i < k) then Z.testbit a i else Z.testbit b (i - k)).
  { intros a b i Ha Hi. case_decide.
    - rewrite <- (Z.mod_pow2_bits_low _ k i) by lia. f_equal.
      rewrite Z.mul_comm, Z_mod_plus_full. by apply Z.mod_small.
    - replace i with ((i - k) + k) at 1 by lia. rewrite <- Z.div_pow2_bits by lia. f_equal.
      symmetry. apply (Z.div_unique _ _ _ a); lia. }
  pose proof (land_range_l k lo mlo Hk Hlo).
  apply Z.bits_inj'. intros i Hi. rewrite Z.land_spec, !Hbits by done.
  case_decide; by rewrite Z.land_spec.
Qed.

(** One stage of the parallel count adds neighbouring fields without a carry
    between the wider fields. *)
Definition hw_stage (k : Z) (m w : Z) : Z := Z.land w m + Z.land (Z.shiftr w k) m.

Lemma hw_stage_fsum k n w :
  1 <= k -> 0 <= w < 2^(2 * k * Z.of_nat n) ->
  0 <= hw_stage k (field_mask k n) w < 2^(2 * k * Z.of_nat n) /\
  fsum (2 * k) n (hw_stage k (field_mask k n) w) = fsum k (2 * n) w.
Proof.
  intros Hk. revert w. induction n as [|n IH]; intros w Hw.
  { rewrite Z.mul_0_r in *. change (2^0) with 1 in *.
    assert (w = 0) as -> by lia. unfold hw_stage. rewrite Z.shiftr_0_l. simpl. done. }
  assert (HK : 0 < 2^k) by (apply Z.pow_pos_nonneg; lia).
  assert (HKK : 2^(2 * k) = 2^k * 2^k) by (rewrite <- Z.pow_add_r by lia; f_equal; lia).
  assert (H2K : 2 <= 2^k) by (apply (Z.pow_le_mono_r 2 1); lia).
  set (hi := w / 2^(2 * k)). set (lo := w `mod` 2^(2 * k)).
  assert (Hwe : w = lo + 2^(2 * k) * hi)
    by (unfold lo, hi; pose proof (Z.div_mod w (2^(2 * k))); lia).
  assert (Hlo : 0 <= lo < 2^(2 * k)) by (apply Z.mod_pos_bound; lia).
  assert (Hpow : 2^(2 * k * Z.of_nat (S n)) = 2^(2 * k) * 2^(2 * k * Z.of_nat n))
    by (rewrite <- Z.pow_add_r by lia; f_equal; lia).
  assert (Hhi : 0 <= hi < 2^(2 * k * Z.of_nat n)).
  { unfold hi. split; [apply Z.div_pos; lia|]. apply Z.div_lt_upper_bound; lia. }
  destruct (IH hi Hhi) as [Hr Hs].
  assert (Hstage : hw_stage k (field_mask k (S n)) w
                   = (lo `mod` 2^k + lo / 2^k) + 2^(2 * k) * hw_stage k (field_mask k n) hi).
  { unfold hw_stage. simpl field_mask.
    assert (Hsh : Z.shiftr w k = (lo / 2^k + 2^k * (hi `mod` 2^k)) + 2^(2 * k) * Z.shiftr hi k).
    { rewrite !Z.shiftr_div_pow2 by lia. rewrite Hwe, HKK.
      replace (lo + 2^k * 2^k * hi) with (lo + (2^k * hi) * 2^k) by lia.
      rewrite Z.div_add by lia. rewrite (Z.div_mod hi (2^k)) at 1 by lia. ring. }
    assert (0 <= lo / 2^k < 2^k)
      by (split; [apply Z.div_pos; lia|apply Z.div_lt_upper_bound; lia]).
    pose proof (Z.mod_pos_bound hi (2^k) HK).
    rewrite Hsh. rewrite Hwe at 1. rewrite !land_split by nia.
    rewrite !land_mask by lia.
    rewrite (Z.mul_comm (2^k) (hi `mod` 2^k)), Z_mod_plus_full, (Z.mod_small (lo / 2^k)) by lia.
    lia. }
  pose proof (Z.mod_pos_bound lo (2^k) HK).
  assert (0 <= lo / 2^k < 2^k)
    by (split; [apply Z.div_pos; lia|apply Z.div_lt_upper_bound; lia]).
  rewrite Hstage. split; [rewrite Hpow; nia|].
  replace (2 * S n)%nat with (S (S (2 * n))) by lia. simpl fsum.
  rewrite (Z.mul_comm (2^(2 * k))), Z_mod_plus_full, Z.div_add by lia.
  assert (HB : 0 <= lo `mod` 2^k + lo / 2^k < 2^(2 * k)) by nia.
  rewrite (Z.mod_small _ _ HB), (Z.div_small _ _ HB), Z.add_0_l.
  replace (n + (n + 0))%nat with (2 * n)%nat by lia. rewrite Hs.
  rewrite Z.div_div by lia. rewrite <- HKK. fold hi.
  assert (w `mod` 2^k = lo `mod` 2^k) as ->.
  { rewrite Hwe, HKK. rewrite <- Z.mul_assoc, (Z.mul_comm (2^k) (2^k * hi)), Z_mod_plus_full. done. }
  assert ((w / 2^k) `mod` 2^k = lo / 2^k) as ->; [|lia].
  rewrite Hwe, HKK. replace (lo + 2^k * 2^k * hi) with (lo + (hi * 2^k) * 2^k) by lia.
  rewrite Z.div_add, Z_mod_plus_full by lia. apply Z.mod_small. lia.
Qed.

Lemma generic_hweight32_popcount w : is_u32 w -> generic_hweight32 w = popcount32 w.
Proof.
  intros Hw. unfold generic_hweight32, popcount32.
  pose proof (hw_stage_fsum 1 16 w) as S1. change (field_mask 1 16) with 0x55555555 in S1.
  destruct S1 as [R1 E1]; [lia|exact Hw|]. fold (hw_stage 1 0x55555555 w).
  rewrite (u32_small (hw_stage 1 _ _)) by exact R1. change (2 * 16)%nat with 32%nat in E1.
  rewrite <- E1. set (w1 := hw_stage 1 0x55555555 w) in *. clearbody w1.
  pose proof (hw_stage_fsum 2 8 w1) as S2. change (field_mask 2 8) with 0x33333333 in S2.
  destruct S2 as [R2 E2]; [lia|exact R1|]. fold (hw_stage 2 0x33333333 w1).
  rewrite (u32_small (hw_stage 2 _ _)) by exact R2.
  change (2 * 1) with 2. change (2 * 8)%nat with 16%nat in E2. rewrite <- E2.
  set (w2 := hw_stage 2 0x33333333 w1) in *. clearbody w2.
  pose proof (hw_stage_fsum 4 4 w2) as S3. change (field_mask 4 4) with 0x0F0F0F0F in S3.
  destruct S3 as [R3 E3]; [lia|exact R2|]. fold (hw_stage 4 0x0F0F0F0F w2).
  rewrite (u32_small (hw_stage 4 _ _)) by exact R3.
  change (2 * 2) with 4. change (2 * 4)%nat with 8%nat in E3. rewrite <- E3.
  set (w3 := hw_stage 4 0x0F0F0F0F w2) in *. clearbody w3.
  pose proof (hw_stage_fsum 8 2 w3) as S4. change (field_mask 8 2) with 0x00FF00FF in S4.
  destruct S4 as [R4 E4]; [lia|exact R3|]. fold (hw_stage 8 0x00FF00FF w3).
  rewrite (u32_small (hw_stage 8 _ _)) by exact R4.
  change (2 * 4) with 8. change (2 * 2)%nat with 4%nat in E4. rewrite <- E4.
  set (w4 := hw_stage 8 0x00FF00FF w3) in *. clearbody w4.
  pose proof (hw_stage_fsum 16 1 w4) as S5. change (field_mask 16 1) with 0x0000FFFF in S5.
  destruct S5 as [R5 E5]; [lia|exact R4|]. fold (hw_stage 16 0x0000FFFF w4).
  rewrite (u32_small (hw_stage 16 _ _)) by exact R5.
  change (2 * 8) with 16. change (2 * 1)%nat with 2%nat in E5. rewrite <- E5.
  simpl fsum. change (2 * 16) with 32. rewrite Z.mod_small; [lia|]. exact R5.
Qed.

(** * Searching a bitmap *)

(** [r] is the first index in [offset, size) where [P] holds, or [size]. *)
Definition next_bit_spec (P : Z -> bool) (size offset r : Z) : Prop :=
  offset <= r <= size /\
  (forall i, offset <= i < r -> P i = false) /\
  (r < size -> P r = true).

Lemma next_bit_spec_extend P size offset o' r :
  offset <= o' -> (forall i, offset <= i < o' -> P i = false) ->
  next_bit_spec P size o' r -> next_bit_spec P size offset r.
Proof.
  intros Ho Hf ([? ?] & Hlow & Hhit). split; [lia|]. split; [|done].
  intros i Hi. destruct (decide (i < o')); [apply Hf; lia|apply Hlow; lia].
Qed.

Lemma bit_of_word ws p w j :
  0 <= p -> mem_get ws p = Some w -> 0 <= j < 32 -> bit_of ws (32 * p + j) = Z.testbit w j.
Proof.
  intros Hp Hw Hj. unfold bit_of. rewrite decide_False by lia.
  replace ((32 * p + j) `div` 32) with p by (apply (Z.div_unique _ _ _ j); lia).
  replace ((32 * p + j) `mod` 32) with j by (apply (Z.mod_unique _ _ p); lia).
  f_equal. unfold mem_get in Hw. rewrite decide_True in Hw by done.
  by apply list_lookup_total_correct.
Qed.

Lemma mem_get_u32 ws p w : bitmap_wf ws -> mem_get ws p = Some w -> is_u32 w.
Proof.
  unfold mem_get. case_decide; [|done]. intros Hwf Hl. by eapply Forall_lookup_1.
Qed.

Lemma mem_get_in ws p : 0 <= p < zlen ws -> exists w : Z, mem_get ws p = Some w.
Proof.
  intros Hp. unfold mem_get, zlen in *. rewrite decide_True by lia.
  apply lookup_lt_is_Some_2. lia.
Qed.

(** The word [tmp] holds the bits of the window [result, result + 32) of [P] from
    [o] on. *)
Definition window (P : Z -> bool) (result o tmp : Z) : Prop :=
  is_u32 tmp /\ forall j, 0 <= j < 32 -> Z.testbit tmp j = bool_decide (o <= j) && P (result + j).

Lemma window_zero P result o tmp :
  window P result o tmp -> 0 <= o -> tmp = 0 -> forall i, result + o <= i < result + 32 -> P i = false.
Proof.
  intros [_ Hw] Ho -> i Hi. specialize (Hw (i - result) ltac:(lia)).
  rewrite Z.testbit_0_l, bool_decide_eq_true_2 in Hw by lia. simpl in Hw.
  by replace (result + (i - result)) with i in Hw by lia.
Qed.

Lemma fnb_found_middle_spec P result o tmp size :
  window P result o tmp -> 0 <= o -> tmp <> 0 -> 0 <= result -> result + __ffs tmp < size ->
  size < 2^32 -> exists r, fnb_found_middle result tmp = Some r /\ next_bit_spec P size (result + o) r.
Proof.
  intros [Hu Hw] Ho Hne Hr Hlt Hs. destruct (__ffs_lsb tmp Hu Hne) as ((Hf & Hb & Hl) & Hf32).
  exists (result + __ffs tmp). unfold fnb_found_middle.
  rewrite u32_small by (unfold is_u32; lia). split; [done|].
  rewrite Hw in Hb by lia. apply andb_true_iff in Hb as [Hof%bool_decide_eq_true_1 Hb].
  split; [lia|]. split; [|done]. intros i Hi.
  specialize (Hl (i - result) ltac:(lia)). rewrite Hw in Hl by lia.
  rewrite bool_decide_eq_true_2 in Hl by lia.
  by replace (result + (i - result)) with i in Hl by lia.
Qed.

Lemma testbit_ones_shiftr size j :
  0 < size <= 32 -> 0 <= j -> Z.testbit (Z.shiftr ULONG_ONES (32 - size)) j = bool_decide (j < size).
Proof.
  intros Hs Hj. change ULONG_ONES with (Z.ones 32). rewrite Z.shiftr_spec by done.
  destruct (decide (j < size)).
  - rewrite bool_decide_eq_true_2 by done. apply Z.ones_spec_low. lia.
  - rewrite bool_decide_eq_false_2 by done. apply Z.ones_spec_high. lia.
Qed.

Lemma testbit_ones_shiftl off j :
  0 <= off -> 0 <= j < 32 -> Z.testbit (u32 (Z.shiftl ULONG_ONES off)) j = bool_decide (off <= j).
Proof.
  intros Ho Hj. unfold u32. rewrite Z.mod_pow2_bits_low by lia. rewrite Z.shiftl_spec by lia.
  change ULONG_ONES with (Z.ones 32). destruct (decide (off <= j)).
  - rewrite bool_decide_eq_true_2 by done. apply Z.ones_spec_low. lia.
  - rewrite bool_decide_eq_false_2 by done. apply Z.testbit_neg_r. lia.
Qed.

Lemma fnb_found_first_spec P result o tmp size :
  window P result o tmp -> 0 <= o < size -> size < 32 -> 0 <= result -> result + size < 2^32 ->
  exists r, fnb_found_first result size tmp = Some r /\
    next_bit_spec P (result + size) (result + o) r.
Proof.
  intros [Hu Hw] Ho Hs Hr Hlt. unfold fnb_found_first, BITS_PER_LONG.
  set (tmp' := Z.land tmp (Z.shiftr ULONG_ONES (32 - size))).
  assert (Hb : forall j, 0 <= j < 32 ->
    Z.testbit tmp' j = bool_decide (o <= j) && (bool_decide (j < size) && P (result + j))).
  { intros j Hj. unfold tmp'. rewrite Z.land_spec, Hw, testbit_ones_shiftr by lia.
    by rewrite <- andb_assoc, (andb_comm (P _)). }
  assert (Hu' : is_u32 tmp') by (by apply is_u32_land_l).
  set (Q := fun i => bool_decide (i < result + size) && P i).
  assert (Hwin : window Q result o tmp').
  { split; [done|]. intros j Hj. rewrite Hb by done. unfold Q. do 2 f_equal.
    apply bool_decide_ext. lia. }
  assert (HQ : forall i, result + o <= i < result + size -> Q i = P i).
  { intros i Hi. unfold Q. rewrite bool_decide_eq_true_2 by lia. done. }
  case_decide as Hz.
  - exists (result + size). rewrite u32_small by (unfold is_u32; lia). split; [done|].
    split; [lia|]. split; [|lia]. intros i Hi. rewrite <- HQ by lia.
    eapply window_zero; [exact Hwin|lia|done|lia].
  - destruct (__ffs_lsb tmp' Hu' Hz) as ((Hf & Hbf & _) & ?). rewrite Hb in Hbf by lia.
    apply andb_true_iff in Hbf as [_ [Hfs%bool_decide_eq_true_1 _]%andb_true_iff].
    destruct (fnb_found_middle_spec Q result o tmp' (result + size)) as (r & Heq & Hspec & Hl & Hh);
      [done|lia|done|lia|lia|lia|].
    exists r. split; [done|]. split; [done|]. split.
    + intros i Hi. rewrite <- HQ by lia. by apply Hl.
    + intros Hlt'. rewrite <- HQ by lia. by apply Hh.
Qed.

Lemma land_not31 size : is_u32 size -> Z.land size (not32 SZLONG_MASK) = 32 * (size / 32).
Proof.
  intros Hu. assert (Hn : not32 SZLONG_MASK = Z.shiftl (Z.ones 27) 5) by reflexivity.
  rewrite Hn. apply Z.bits_inj'. intros i Hi.
  rewrite Z.land_spec, (Z.mul_comm 32). change 32 with (2^5).
  rewrite Z.mul_pow2_bits by lia. destruct (decide (i < 5)).
  - rewrite Z.shiftl_spec_low, (Z.testbit_neg_r _ (i - 5)) by lia. apply andb_false_r.
  - rewrite Z.shiftl_spec, Z.div_pow2_bits by lia. replace (i - 5 + 5) with i by lia.
    destruct (decide (i < 32)).
    + rewrite Z.ones_spec_low by lia. apply andb_true_r.
    + rewrite (testbit_high size 32) by (done || lia). done.
Qed.

Lemma window_word ws p w : 0 <= p -> bitmap_wf ws -> mem_get ws p = Some w ->
  window (bit_of ws) (32 * p) 0 w.
Proof.
  intros Hp Hwf Hw. split; [by eapply mem_get_u32|]. intros j Hj.
  rewrite bool_decide_eq_true_2 by lia. by rewrite (bit_of_word ws p w) by done.
Qed.

Lemma fnb_words_spec fuel ws p size :
  bitmap_wf ws -> 0 <= p -> 0 <= size -> 32 * p + size <= 32 * zlen ws ->
  32 * p + size < 2^32 -> zlen ws < p + Z.of_nat fuel ->
  exists r, fnb_words fuel ws p (32 * p) size = Some r /\
    next_bit_spec (bit_of ws) (32 * p + size) (32 * p) r.
Proof.
  intros Hwf. revert p size. induction fuel as [|fuel IH]; intros p size Hp Hs Hlen Hlt Hfuel.
  { lia. }
  simpl. rewrite land_not31 by (unfold is_u32; lia). case_decide as Hq.
  - assert (size < 32) by (pose proof (Z.div_mod size 32); pose proof (Z.mod_pos_bound size 32); lia).
    case_decide as Hz.
    { exists (32 * p). split; [done|]. split; [lia|]. split; intros; lia. }
    destruct (mem_get_in ws p ltac:(lia)) as [w Hw]. rewrite Hw. simpl.
    destruct (fnb_found_first_spec (bit_of ws) (32 * p) 0 w size) as (r & Heq & Hspec);
      [by apply window_word|lia..|]. rewrite Z.add_0_r in Hspec. eauto.
  - assert (32 <= size) by (pose proof (Z.div_small size 32); lia).
    destruct (mem_get_in ws p ltac:(lia)) as [w Hw]. rewrite Hw. simpl.
    pose proof (window_word ws p w Hp Hwf Hw) as Hwin. case_decide as Hz.
    + unfold BITS_PER_LONG. rewrite !u32_small by (unfold is_u32; lia).
      replace (32 * p + 32) with (32 * (p + 1)) by lia.
      destruct (IH (p + 1) (size - 32)) as (r & Heq & Hspec); [lia..|].
      exists r. split; [done|]. replace (32 * p + size) with (32 * (p + 1) + (size - 32)) by lia.
      eapply next_bit_spec_extend; [| |exact Hspec]; [lia|].
      intros i Hi. eapply window_zero; [exact Hwin|lia|done|lia].
    + assert (Hu : is_u32 w) by apply Hwin. destruct (__ffs_lsb w Hu Hz) as [(? & _) ?].
      destruct (fnb_found_middle_spec (bit_of ws) (32 * p) 0 w (32 * p + size))
        as (r & Heq & Hspec); [done|lia|done|lia..|]. rewrite Z.add_0_r in Hspec. eauto.
Qed.

Lemma land31 x : Z.land x SZLONG_MASK = x `mod` 32.
Proof. apply (land_mask x 5). lia. Qed.

Lemma find_next_bit_spec ws size offset :
  bitmap_wf ws -> 0 <= offset < size -> size <= 32 * zlen ws -> size < 2^32 ->
  exists r, find_next_bit ws size offset = Some r /\ next_bit_spec (bit_of ws) size offset r.
Proof.
  intros Hwf Ho Hlen Hlt. unfold find_next_bit. rewrite decide_False by lia.
  rewrite land_not31 by (unfold is_u32; lia). rewrite land31.
  unfold SZLONG_LOG. rewrite Z.shiftr_div_pow2 by lia. change (2^5) with 32.
  set (p := offset / 32). set (o := offset `mod` 32).
  assert (Hoff : offset = 32 * p + o) by (apply Z.div_mod; lia).
  assert (0 <= o < 32) by (apply Z.mod_pos_bound; lia).
  assert (0 <= p) by (apply Z.div_pos; lia).
  rewrite (u32_small (size - 32 * p)) by (unfold is_u32; lia).
  case_decide as Hz.
  - destruct (fnb_words_spec (S (length ws)) ws p (size - 32 * p)) as (r & Heq & Hspec);
      [done|unfold zlen in *; lia..|].
    exists r. split; [done|]. by replace offset with (32 * p) by lia;
      replace size with (32 * p + (size - 32 * p)) by lia.
  - destruct (mem_get_in ws p ltac:(lia)) as [w Hw]. rewrite Hw. simpl.
    pose proof (window_word ws p w ltac:(lia) Hwf Hw) as [Hu Hb].
    assert (Hwin : window (bit_of ws) (32 * p) o (Z.land w (u32 (Z.shiftl ULONG_ONES o)))).
    { split; [by apply is_u32_land_l|]. intros j Hj.
      rewrite Z.land_spec, testbit_ones_shiftl, Hb by lia.
      rewrite (bool_decide_eq_true_2 (0 <= j)) by lia. apply andb_comm. }
    unfold BITS_PER_LONG. rewrite Hoff. case_decide as Hs.
    + destruct (fnb_found_first_spec _ _ _ _ (size - 32 * p) Hwin) as (r & Heq & Hspec); [lia..|].
      exists r. split; [done|]. by replace size with (32 * p + (size - 32 * p)) by lia.
    + case_decide as Hz'.
      * rewrite !u32_small by (unfold is_u32; lia). replace (32 * p + 32) with (32 * (p + 1)) by lia.
        destruct (fnb_words_spec (S (length ws)) ws (p + 1) (size - 32 * p - 32)) as (r & Heq & Hspec);
          [done|unfold zlen in *; lia..|].
        exists r. split; [done|]. replace size with (32 * (p + 1) + (size - 32 * p - 32)) by lia.
        eapply next_bit_spec_extend; [| |exact Hspec]; [lia|].
        intros i Hi. eapply window_zero; [exact Hwin|lia|done|lia].
      * destruct (__ffs_lsb _ (proj1 Hwin) Hz') as [(? & _) ?].
        apply fnb_found_middle_spec; [done|lia|done|lia|lia|lia].
Qed.

(** ** [find_next_zero_bit] is [find_next_bit] on the complemented bitmap *)

Lemma not32_testbit x j : is_u32 x -> 0 <= j < 32 -> Z.testbit (not32 x) j = negb (Z.testbit x j).
Proof.
  intros Hx Hj. unfold not32.
  assert (Heq : 2^32 - 1 - x = (Z.lnot x) `mod` 2^32).
  { unfold Z.lnot, is_u32 in *. apply (Z.mod_unique _ _ (-1)); lia. }
  rewrite Heq, Z.mod_pow2_bits_low by lia. by rewrite Z.lnot_spec by lia.
Qed.

Lemma not32_inv x : not32 (not32 x) = x.
Proof. unfold not32. lia. Qed.

Lemma u32_bits_eq x y :
  is_u32 x -> is_u32 y -> (forall j, 0 <= j < 32 -> Z.testbit x j = Z.testbit y j) -> x = y.
Proof.
  intros Hx Hy Hb. apply Z.bits_inj'. intros j Hj. destruct (decide (j < 32)).
  - apply Hb. lia.
  - rewrite !(testbit_high _ 32) by (done || lia). done.
Qed.

Lemma not32_lor x m : is_u32 x -> is_u32 m -> not32 (Z.lor x m) = Z.land (not32 x) (not32 m).
Proof.
  intros Hx Hm. apply u32_bits_eq; [by auto with kern..|]. intros j Hj.
  rewrite Z.land_spec, !not32_testbit by auto with kern.
  rewrite Z.lor_spec. by destruct (Z.testbit x j), (Z.testbit m j).
Qed.

Lemma not32_ones_shiftl s : 0 <= s <= 32 -> not32 (u32 (Z.shiftl ULONG_ONES s)) = Z.shiftr ULONG_ONES (32 - s).
Proof.
  intros Hs. assert (is_u32 (Z.shiftr ULONG_ONES (32 - s)))
    by (apply is_u32_shiftr; [lia|unfold is_u32, ULONG_ONES; lia]).
  apply u32_bits_eq; [by auto with kern..|]. intros j Hj.
  rewrite not32_testbit, testbit_ones_shiftl by (auto with kern || lia).
  rewrite Z.shiftr_spec by lia. change ULONG_ONES with (Z.ones 32).
  destruct (decide (s <= j)).
  - rewrite bool_decide_eq_true_2 by done. symmetry. apply Z.ones_spec_high. lia.
  - rewrite bool_decide_eq_false_2 by done. symmetry. apply Z.ones_spec_low. lia.
Qed.

Lemma not32_zero x : not32 x = 0 <-> x = ULONG_ONES.
Proof. unfold not32, ULONG_ONES. lia. Qed.

Lemma mem_get_not ws p : mem_get (not32 <$> ws) p = not32 <$> mem_get ws p.
Proof. unfold mem_get. case_decide; [|done]. apply list_lookup_fmap. Qed.

Lemma fnz_found_middle_not result tmp :
  fnz_found_middle result tmp = fnb_found_middle result (not32 tmp).
Proof. done. Qed.

Lemma fnz_found_first_not result size tmp :
  is_u32 tmp -> 0 <= size <= 32 ->
  fnz_found_first result size tmp = fnb_found_first result size (not32 tmp).
Proof.
  intros Ht Hs. unfold fnz_found_first, fnb_found_first, BITS_PER_LONG.
  rewrite <- not32_ones_shiftl, <- not32_lor by (auto with kern).
  repeat case_decide; rewrite ?not32_zero in *; done.
Qed.

Lemma fnz_words_not fuel ws p result size :
  bitmap_wf ws -> is_u32 size ->
  fnz_words fuel ws p result size = fnb_words fuel (not32 <$> ws) p result size.
Proof.
  intros Hwf. revert p result size. induction fuel as [|fuel IH]; intros p result size Hs; [done|].
  simpl. rewrite mem_get_not. case_decide as Hq.
  - case_decide; [done|]. destruct (mem_get ws p) as [w|] eqn:Hw; [|done]. simpl.
    apply fnz_found_first_not; [by eapply mem_get_u32|].
    rewrite land_not31 in Hq by done. unfold is_u32 in Hs.
    pose proof (Z.div_mod size 32). pose proof (Z.mod_pos_bound size 32). lia.
  - destruct (mem_get ws p) as [w|] eqn:Hw; [|done]. simpl.
    case_decide; [|done]. apply IH. auto with kern.
Qed.

Lemma find_next_zero_bit_not ws size offset :
  bitmap_wf ws -> is_u32 size -> 0 <= offset ->
  find_next_zero_bit ws size offset = find_next_bit (not32 <$> ws) size offset.
Proof.
  intros Hwf Hs Ho. unfold find_next_zero_bit, find_next_bit.
  rewrite length_fmap, mem_get_not, land31. case_decide; [done|].
  pose proof (Z.mod_pos_bound offset 32 ltac:(lia)).
  case_decide; [by apply fnz_words_not; auto with kern|].
  destruct (mem_get ws _) as [w|] eqn:Hw; [|done]. simpl.
  assert (Hu : is_u32 w) by (by eapply mem_get_u32).
  assert (Hor : not32 (Z.lor w (Z.shiftr ULONG_ONES (BITS_PER_LONG - offset `mod` 32)))
              = Z.land (not32 w) (u32 (Z.shiftl ULONG_ONES (offset `mod` 32)))).
  { rewrite <- (not32_inv (u32 (Z.shiftl _ _))), not32_ones_shiftl by lia.
    apply not32_lor; [done|]. apply is_u32_shiftr; [unfold BITS_PER_LONG; lia|].
    unfold is_u32, ULONG_ONES. lia. }
  rewrite <- Hor. assert (Hu' : is_u32 (Z.lor w (Z.shiftr ULONG_ONES (BITS_PER_LONG - offset `mod` 32)))).
  { apply is_u32_lor; [done|]. apply is_u32_shiftr; [unfold BITS_PER_LONG; lia|].
    unfold is_u32, ULONG_ONES. lia. }
  case_decide as Hlt.
  - apply fnz_found_first_not; [done|]. unfold BITS_PER_LONG in Hlt.
    pose proof (u32_range (size - Z.land offset (not32 SZLONG_MASK))) as Hr. unfold is_u32 in Hr. lia.
  - case_decide; [|done]. apply (fnz_words_not (S (length ws))); auto with kern.
Qed.

Lemma bit_of_not ws i : bitmap_wf ws -> 0 <= i < 32 * zlen ws -> bit_of (not32 <$> ws) i = negb (bit_of ws i).
Proof.
  intros Hwf Hi. assert (Hp : 0 <= i / 32 < zlen ws)
    by (split; [apply Z.div_pos; lia|apply Z.div_lt_upper_bound; lia]).
  destruct (mem_get_in ws (i / 32) Hp) as [w Hw].
  pose proof (Z.mod_pos_bound i 32 ltac:(lia)).
  replace i with (32 * (i / 32) + i `mod` 32) by (symmetry; apply Z.div_mod; lia).
  rewrite (bit_of_word ws (i / 32) w) by (done || lia).
  rewrite (bit_of_word _ (i / 32) (not32 w)); [|lia|by rewrite mem_get_not, Hw|lia].
  apply not32_testbit; [by eapply mem_get_u32|lia].
Qed.

Lemma bitmap_wf_not ws : bitmap_wf ws -> bitmap_wf (not32 <$> ws).
Proof. intros Hwf. apply Forall_fmap. eapply Forall_impl; [|exact Hwf]. apply is_u32_not32. Qed.

(** ** Single-bit updates *)

Lemma bit_mask_pow nr : 0 <= nr -> bit_mask nr = 2^(nr `mod` 32).
Proof.
  intros Hnr. unfold bit_mask. rewrite land31, Z.shiftl_1_l.
  pose proof (Z.mod_pos_bound nr 32 ltac:(lia)). apply u32_small. unfold is_u32.
  split; [apply Z.pow_nonneg; lia|apply Z.pow_lt_mono_r; lia].
Qed.

Lemma bit_word_div nr : bit_word nr = nr / 32.
Proof. unfold bit_word, SZLONG_LOG. by rewrite Z.shiftr_div_pow2. Qed.

(** Replacing word [nr / 32] by [w'] changes the bits of that word only. *)
Lemma bit_of_mem_set ws p w' ws' i :
  mem_set ws p w' = Some ws' -> 0 <= i ->
  bit_of ws' i = if decide (i / 32 = p) then Z.testbit w' (i `mod` 32) else bit_of ws i.
Proof.
  unfold mem_set, zlen. case_decide as Hp; [|done]. intros [= <-] Hi.
  assert (0 <= i / 32) by (apply Z.div_pos; lia).
  unfold bit_of. rewrite !(decide_False (P := i < 0)) by lia. case_decide as Heq.
  - rewrite Heq. f_equal. apply list_lookup_total_insert_eq. lia.
  - f_equal. rewrite list_lookup_total_insert_ne; [done|]. lia.
Qed.

(** The common shape of [__set_bit], [__clear_bit] and [__change_bit]. *)
Lemma bit_update_spec (f : Z -> Z -> Z) (g : bool -> bool) ws nr :
  (forall w, is_u32 w -> is_u32 (f w (bit_mask nr))) ->
  (forall w j, is_u32 w -> 0 <= j < 32 -> Z.testbit (f w (bit_mask nr)) j
     = if decide (j = nr `mod` 32) then g (Z.testbit w j) else Z.testbit w j) ->
  bitmap_wf ws -> 0 <= nr < 32 * zlen ws ->
  exists ws', (w ← mem_get ws (bit_word nr); mem_set ws (bit_word nr) (f w (bit_mask nr))) = Some ws' /\
    bitmap_wf ws' /\ length ws' = length ws /\
    forall i, 0 <= i -> bit_of ws' i = if decide (i = nr) then g (bit_of ws i) else bit_of ws i.
Proof.
  intros Hf Hfb Hwf Hnr. rewrite bit_word_div.
  assert (Hp : 0 <= nr / 32 < zlen ws)
    by (split; [apply Z.div_pos; lia|apply Z.div_lt_upper_bound; lia]).
  destruct (mem_get_in ws (nr / 32) Hp) as [w Hw]. rewrite Hw. simpl.
  assert (Hu : is_u32 w) by (by eapply mem_get_u32).
  destruct (mem_set ws (nr / 32) (f w (bit_mask nr))) as [ws'|] eqn:Hset.
  2: { unfold mem_set in Hset. rewrite decide_True in Hset by done. done. }
  exists ws'. split; [done|].
  assert (Hws' : ws' = <[Z.to_nat (nr / 32) := f w (bit_mask nr)]> ws).
  { unfold mem_set in Hset. rewrite decide_True in Hset by done. by injection Hset. }
  split. { rewrite Hws'. apply Forall_insert; [done|by apply Hf]. }
  split. { rewrite Hws'. apply length_insert. }
  intros i Hi. rewrite (bit_of_mem_set _ _ _ _ _ Hset Hi).
  pose proof (Z.mod_pos_bound i 32 ltac:(lia)). pose proof (Z.div_mod i 32 ltac:(lia)).
  pose proof (Z.div_mod nr 32 ltac:(lia)).
  case_decide as Hq.
  - rewrite Hfb by (done || lia).
    assert (Hbi : bit_of ws i = Z.testbit w (i `mod` 32)).
    { rewrite <- (bit_of_word ws (nr / 32) w) by (done || lia). f_equal. lia. }
    rewrite Hbi. repeat case_decide; (done || lia).
  - rewrite (decide_False (P := i = nr)); [done|]. intros ->. done.
Qed.

Lemma testbit_mask nr j : 0 <= nr -> Z.testbit (bit_mask nr) j = bool_decide (j = nr `mod` 32).
Proof.
  intros Hnr. rewrite bit_mask_pow by done.
  pose proof (Z.mod_pos_bound nr 32 ltac:(lia)).
  destruct (decide (0 <= j)); [|by rewrite Z.testbit_neg_r, bool_decide_eq_false_2 by lia].
  rewrite Z.pow2_bits_eqb by lia. destruct (Z.eqb_spec (nr `mod` 32) j).
  - by rewrite bool_decide_eq_true_2.
  - by rewrite bool_decide_eq_false_2.
Qed.

Lemma is_u32_bit_mask nr : is_u32 (bit_mask nr).
Proof. apply u32_range. Qed.
#[export] Hint Resolve is_u32_bit_mask : kern.

Lemma __set_bit_spec ws nr :
  bitmap_wf ws -> 0 <= nr < 32 * zlen ws ->
  exists ws', __set_bit nr ws = Some ws' /\ bitmap_wf ws' /\ length ws' = length ws /\
    forall i, 0 <= i -> bit_of ws' i = if decide (i = nr) then true else bit_of ws i.
Proof.
  intros Hwf Hnr. apply (bit_update_spec Z.lor (fun _ => true)); [by auto with kern| |done|done].
  intros w j _ Hj. rewrite Z.lor_spec, testbit_mask by lia.
  case_decide; [rewrite bool_decide_eq_true_2 by done|rewrite bool_decide_eq_false_2 by done];
    [apply orb_true_r|apply orb_false_r].
Qed.

Lemma __clear_bit_spec ws nr :
  bitmap_wf ws -> 0 <= nr < 32 * zlen ws ->
  exists ws', __clear_bit nr ws = Some ws' /\ bitmap_wf ws' /\ length ws' = length ws /\
    forall i, 0 <= i -> bit_of ws' i = if decide (i = nr) then false else bit_of ws i.
Proof.
  intros Hwf Hnr. apply (bit_update_spec (fun w m => Z.land w (not32 m)) (fun _ => false));
    [by auto with kern| |done|done].
  intros w j Hw Hj. rewrite Z.land_spec, not32_testbit, testbit_mask by (auto with kern || lia).
  case_decide; [rewrite bool_decide_eq_true_2 by done|rewrite bool_decide_eq_false_2 by done];
    [apply andb_false_r|apply andb_true_r].
Qed.

Lemma __change_bit_spec ws nr :
  bitmap_wf ws -> 0 <= nr < 32 * zlen ws ->
  exists ws', __change_bit nr ws = Some ws' /\ bitmap_wf ws' /\ length ws' = length ws /\
    forall i, 0 <= i -> bit_of ws' i = if decide (i = nr) then negb (bit_of ws i) else bit_of ws i.
Proof.
  intros Hwf Hnr. apply (bit_update_spec Z.lxor negb); [by auto with kern| |done|done].
  intros w j _ Hj. rewrite Z.lxor_spec, testbit_mask by lia.
  case_decide; [rewrite bool_decide_eq_true_2 by done|rewrite bool_decide_eq_false_2 by done];
    [apply xorb_true_r|apply xorb_false_r].
Qed.

Lemma test_bit_spec ws nr :
  bitmap_wf ws -> 0 <= nr < 32 * zlen ws -> test_bit nr ws = Some (Z.b2z (bit_of ws nr)).
Proof.
  intros Hwf Hnr. unfold test_bit. rewrite bit_word_div, land31.
  assert (Hp : 0 <= nr / 32 < zlen ws)
    by (split; [apply Z.div_pos; lia|apply Z.div_lt_upper_bound; lia]).
  destruct (mem_get_in ws (nr / 32) Hp) as [w Hw]. rewrite Hw. simpl. f_equal.
  pose proof (Z.mod_pos_bound nr 32 ltac:(lia)).
  assert (bit_of ws nr = Z.testbit w (nr `mod` 32)) as ->.
  { rewrite <- (bit_of_word ws (nr / 32) w) by (done || lia). f_equal. apply Z.div_mod. lia. }
  rewrite Z.land_comm. change 1 with (Z.ones 1) at 1. rewrite Z.land_ones by lia.
  rewrite Z.shiftr_div_pow2, <- Z.testbit_spec' by lia. done.
Qed.

(** * Properties *)

(** [find_next_bit] and [find_next_zero_bit] search a bitmap correctly: for a
    bitmap with room for [size] bits both return, without reading outside the
    bitmap, the first index of [offset, size) whose bit is set (clear), or [size]
    when there is none; from [offset >= size] on they return [size]. *)
Theorem find_next_bits_correct ws size offset :
  bitmap_wf ws -> 0 <= offset -> 0 <= size <= 32 * zlen ws -> size < 2^32 ->
  exists r z,
    find_next_bit ws size offset = Some r /\
    find_next_zero_bit ws size offset = Some z /\
    (size <= offset -> r = size /\ z = size) /\
    (offset < size ->
      next_bit_spec (bit_of ws) size offset r /\
      next_bit_spec (fun i => negb (bit_of ws i)) size offset z).
Proof.
  intros Hwf Ho Hs Hlt. rewrite find_next_zero_bit_not by (done || unfold is_u32; lia).
  destruct (decide (offset < size)) as [Hlo|Hge].
  - destruct (find_next_bit_spec ws size offset) as (r & -> & Hr); [done|lia..|].
    destruct (find_next_bit_spec (not32 <$> ws) size offset) as (z & -> & Hz & Hlow & Hhit);
      [by apply bitmap_wf_not|unfold zlen; rewrite ?length_fmap; fold (zlen ws); lia..|].
    exists r, z. split; [done|]. split; [done|]. split; [lia|]. intros _. split; [done|].
    split; [done|]. split.
    + intros i Hi. rewrite <- bit_of_not by (done || lia). by apply Hlow.
    + intros Hzl. rewrite <- bit_of_not by (done || lia). by apply Hhit.
  - exists size, size. unfold find_next_bit. rewrite !decide_True by lia.
    split; [done|]. split; [done|]. split; [done|lia].
Qed.

Lemma find_next_bits_witness :
  exists r z, find_next_bit [0; 0x80; 5] 96 3 = Some r /\
    find_next_zero_bit [0; 0x80; 5] 96 3 = Some z /\
    (96 <= 3 -> r = 96 /\ z = 96) /\
    (3 < 96 -> next_bit_spec (bit_of [0; 0x80; 5]) 96 3 r /\
      next_bit_spec (fun i => negb (bit_of [0; 0x80; 5] i)) 96 3 z).
Proof.
  apply (find_next_bits_correct [0; 0x80; 5] 96 3).
  - repeat constructor; lia.
  - lia.
  - unfold zlen. simpl. lia.
  - lia.
Defined.

(** The portable halving searches [generic_ffs] and [generic_fls] compute the
    same function as the MIPS versions built on the count-leading-zeros
    instruction, on every 32-bit word ([generic_ffs] sees it as a signed [int]). *)
Theorem generic_bit_search_equiv w :
  is_u32 w -> generic_ffs (s32 w) = ffs w /\ generic_fls w = fls w.
Proof.
  intros Hw. destruct (decide (w = 0)) as [->|Hne]; [done|]. split.
  - destruct (__ffs_lsb w Hw Hne) as [(Hr & Hb & Hl) Hr32].
    rewrite (generic_ffs_lsb _ (__ffs w)); [| |done].
    + unfold ffs. rewrite decide_False by done. symmetry. apply u32_small. unfold is_u32. lia.
    + split; [done|]. rewrite testbit_s32 by (done || lia). split; [done|].
      intros j Hj. rewrite testbit_s32 by (done || lia). by apply Hl.
  - by rewrite generic_fls_log2, fls_log2.
Qed.

Lemma generic_bit_search_witness :
  generic_ffs (s32 0x80005000) = ffs 0x80005000 /\ generic_fls 0x80005000 = fls 0x80005000.
Proof. apply (generic_bit_search_equiv 0x80005000). unfold is_u32. lia. Defined.

(** [generic_hweight32] returns the number of set bits of every 32-bit word:
    none of its five parallel additions carries into a neighbouring field. *)
Theorem hweight32_counts_bits w :
  is_u32 w -> generic_hweight32 w = popcount32 w.
Proof. apply generic_hweight32_popcount. Qed.

Lemma hweight32_witness : generic_hweight32 0xf0f1 = popcount32 0xf0f1.
Proof. apply (hweight32_counts_bits 0xf0f1). unfold is_u32. lia. Defined.
