(* ===== verification/Kfifo.v ===== *)
(** The kernel byte FIFO: [kernel/kfifo.c] and [include/linux/kfifo.h].

    A [struct kfifo] is the record [kfifo]; its buffer is a memory block and
    [in], [out] are free-running 32-bit counters.  The file shows that the
    operations implement a bounded byte queue, that allocation never leaks, and
    that one reader and one writer may run without a lock. *)
From Stdlib Require Import ZArith Lia.
From stdpp Require Import base numbers list list_numbers option gmap relations.
From S2P Require Import Prelude Bitops.

Local Open Scope Z_scope.
Local Open Scope kernel_scope.

(** ** Data *)

Record kfifo := Kfifo {
  buffer : list Z;      (* the buffer holding the data *)
  size : Z;             (* the size of the allocated buffer *)
  in_ : Z;              (* data is added at offset (in % size) *)
  out : Z;              (* data is extracted from offset (out % size) *)
  lock : Z              (* the spinlock's address *)
}.

Definition set_in (f : kfifo) (v : Z) : kfifo :=
  Kfifo (buffer f) (size f) v (out f) (lock f).
Definition set_out (f : kfifo) (v : Z) : kfifo :=
  Kfifo (buffer f) (size f) (in_ f) v (lock f).
Definition set_buffer (f : kfifo) (b : list Z) : kfifo :=
  Kfifo b (size f) (in_ f) (out f) (lock f).

(** ** Allocation

    [kmalloc] is a component of its own: here it is an allocator whose outcomes
    are chosen by the environment ([outcomes], [None] when memory is short, else
    the address of a fresh block and what the memory happens to contain) and that
    records the blocks in use. *)
Record kheap := Kheap {
  live : gset Z;
  outcomes : list (option (Z * (nat -> Z)))
}.

Definition kmalloc (h : kheap) : option (Z * (nat -> Z)) * kheap :=
  match outcomes h with
  | Some (p, junk) :: rest => (Some (p, junk), Kheap ({[p]} ∪ live h) rest)
  | None :: rest => (None, Kheap (live h) rest)
  | [] => (None, h)
  end.

Definition kfree (p : Z) (h : kheap) : kheap := Kheap (live h ∖ {[p]}) (outcomes h).

(** [kfifo_init]: [None] is the [BUG_ON]; [inr] is [ERR_PTR]. *)
Definition kfifo_init (buf : list Z) (sz lk : Z) (h : kheap)
    : option ((Z * kfifo + Z) * kheap) :=
  if decide (sz &u (sz -u 1) = 0) then
    match kmalloc h with
    | (None, h) => Some (inr (- ENOMEM), h)
    | (Some (p, _), h) =>
      let fifo := Kfifo buf sz 0 0 lk in
      Some (inl (p, fifo), h)
    end
  else None.

(** [kfifo_alloc] returns the address of the [struct kfifo], its contents and the
    address of the buffer. *)
Definition kfifo_alloc (sz lk : Z) (h : kheap)
    : option ((Z * Z * kfifo + Z) * kheap) :=
  sz ← (if decide (sz &u (sz -u 1) = 0) then Some sz
        else if decide (sz > 0x80000000) then None
        else Some (roundup_pow_of_two sz));
  match kmalloc h with
  | (None, h) => Some (inr (- ENOMEM), h)
  | (Some (bp, junk), h) =>
    '(ret, h) ← kfifo_init (junk <$> seq 0 (Z.to_nat sz)) sz lk h;
    match ret with
    | inl (p, fifo) => Some (inl (p, bp, fifo), h)
    | inr err => Some (inr err, kfree bp h)
    end
  end.

Definition kfifo_free (p bp : Z) (h : kheap) : kheap := kfree p (kfree bp h).

(** ** Operations *)

Definition __kfifo_reset (f : kfifo) : kfifo := set_out (set_in f 0) 0.

Definition __kfifo_len (f : kfifo) : Z := in_ f -u out f.

(** The two limits computed by [__kfifo_put]: the bytes that fit, and those of
    them that go before the end of the buffer. *)
Definition put_len (f : kfifo) (len : Z) : Z := len `min` (size f -u in_ f +u out f).
Definition put_l (f : kfifo) (len : Z) : Z :=
  len `min` (size f -u (in_ f &u (size f -u 1))).

Definition __kfifo_put (f : kfifo) (src : list Z) (len : Z) : option (Z * kfifo) :=
  let len := put_len f len in
  let l := put_l f len in
  b ← memcpy (buffer f) (in_ f &u (size f -u 1)) src 0 l;
  b ← memcpy b 0 src l (len -u l);
  Some (len, set_in (set_buffer f b) (in_ f +u len)).

Definition get_len (f : kfifo) (len : Z) : Z := len `min` (in_ f -u out f).
Definition get_l (f : kfifo) (len : Z) : Z :=
  len `min` (size f -u (out f &u (size f -u 1))).

Definition __kfifo_get (f : kfifo) (dst : list Z) (len : Z) : option (Z * list Z * kfifo) :=
  let len := get_len f len in
  let l := get_l f len in
  dst ← memcpy dst 0 (buffer f) (out f &u (size f -u 1)) l;
  dst ← memcpy dst l (buffer f) 0 (len -u l);
  Some (len, dst, set_out f (out f +u len)).

(** The locked versions; the lock makes each of them one atomic step. *)
Definition kfifo_reset (f : kfifo) : kfifo := __kfifo_reset f.

Definition kfifo_put (f : kfifo) (src : list Z) (len : Z) : option (Z * kfifo) :=
  __kfifo_put f src len.

Definition kfifo_get (f : kfifo) (dst : list Z) (len : Z) : option (Z * list Z * kfifo) :=
  '(ret, dst, f) ← __kfifo_get f dst len;
  let f := if decide (in_ f = out f) then set_out (set_in f 0) 0 else f in
  Some (ret, dst, f).

Definition kfifo_len (f : kfifo) : Z := __kfifo_len f.

(** * The abstract queue *)

(** The size is a power of two, the counters are 32-bit words and hold at most
    [size] bytes between them. *)
Record kfifo_wf (f : kfifo) : Prop := {
  wf_size : exists k, 0 <= k <= 31 /\ size f = 2^k;
  wf_buffer : zlen (buffer f) = size f;
  wf_in : is_u32 (in_ f);
  wf_out : is_u32 (out f);
  wf_fill : __kfifo_len f <= size f
}.

(** [n] cells of a ring of [s] cells from position [start]. *)
Definition ring (b : list Z) (s start : Z) (n : nat) : list Z :=
  (fun i => b !!! Z.to_nat ((start + Z.of_nat i) `mod` s)) <$> seq 0 n.

(** The bytes in the queue, oldest first. *)
Definition contents (f : kfifo) : list Z :=
  ring (buffer f) (size f) (out f) (Z.to_nat (__kfifo_len f)).

(** ** The ring behind the queue *)

Lemma length_ring b s st n : length (ring b s st n) = n.
Proof. unfold ring. by rewrite length_fmap, length_seq. Qed.

Lemma lookup_ring b s st n i :
  (i < n)%nat -> ring b s st n !! i = Some (b !!! Z.to_nat ((st + Z.of_nat i) `mod` s)).
Proof.
  intros Hi. unfold ring. rewrite list_lookup_fmap, lookup_seq_lt by done. done.
Qed.

Lemma ring_app b s st n m :
  ring b s st (n + m) = ring b s st n ++ ring b s (st + Z.of_nat n) m.
Proof.
  unfold ring. rewrite seq_app, fmap_app. f_equal. simpl.
  apply list_eq. intros i. rewrite !list_lookup_fmap.
  destruct (decide (i < m)%nat).
  - rewrite !lookup_seq_lt by done. simpl. do 4 f_equal. lia.
  - rewrite !lookup_seq_ge by lia. done.
Qed.

Lemma ring_ext b b' s st st' n :
  (forall i, (i < n)%nat ->
    b !!! Z.to_nat ((st + Z.of_nat i) `mod` s) = b' !!! Z.to_nat ((st' + Z.of_nat i) `mod` s)) ->
  ring b s st n = ring b' s st' n.
Proof.
  intros H. apply list_eq. intros i. destruct (decide (i < n)%nat).
  - rewrite !lookup_ring by done. f_equal. by apply H.
  - rewrite !lookup_ge_None_2 by (rewrite length_ring; lia). done.
Qed.

Lemma take_ring b s st n m : (m <= n)%nat -> take m (ring b s st n) = ring b s st m.
Proof.
  intros Hm. replace n with (m + (n - m))%nat by lia. rewrite ring_app.
  by rewrite take_app_length' by (by rewrite length_ring).
Qed.

Lemma drop_ring b s st n m :
  (m <= n)%nat -> drop m (ring b s st n) = ring b s (st + Z.of_nat m) (n - m).
Proof.
  intros Hm. replace n with (m + (n - m))%nat at 1 by lia. rewrite ring_app.
  by rewrite drop_app_length' by (by rewrite length_ring).
Qed.

(** Positions are taken modulo the size, which divides [2^32]. *)
Lemma ring_pos_wrap k x y :
  0 <= k <= 31 -> (u32 x + y) `mod` 2^k = (x + y) `mod` 2^k.
Proof.
  intros Hk. unfold u32.
  assert (H32 : 2^32 = 2^(32 - k) * 2^k) by (rewrite <- Z.pow_add_r by lia; f_equal; lia).
  assert (0 < 2^k) by (apply Z.pow_pos_nonneg; lia).
  assert (0 < 2^(32 - k)) by (apply Z.pow_pos_nonneg; lia).
  rewrite H32, (Z.mod_eq x) by lia.
  replace (x - 2^(32 - k) * 2^k * (x / (2^(32 - k) * 2^k)) + y)
    with (x + y + (- (2^(32 - k) * (x / (2^(32 - k) * 2^k)))) * 2^k) by ring.
  apply Z_mod_plus_full.
Qed.

Lemma mod_diff s a b :
  0 < s -> 0 <= b < s ->
  (b - a) `mod` s = if decide (a `mod` s <= b) then b - a `mod` s else b - a `mod` s + s.
Proof.
  intros Hs Hb. pose proof (Z.mod_pos_bound a s Hs). pose proof (Z.div_mod a s ltac:(lia)).
  symmetry. case_decide; [apply (Z.mod_unique _ _ (- (a / s)))|apply (Z.mod_unique _ _ (- (a / s) - 1))]; lia.
Qed.

(** The two [memcpy]s of [__kfifo_put] write [n] bytes round the ring. *)
Lemma ring_write (b src : list Z) s st n l :
  zlen b = s -> 0 < s -> 0 <= n <= s -> n <= zlen src ->
  l = n `min` (s - st `mod` s) ->
  exists b1 b2,
    memcpy b (st `mod` s) src 0 l = Some b1 /\ memcpy b1 0 src l (n - l) = Some b2 /\
    length b2 = length b /\
    forall j, 0 <= j < s ->
      b2 !! Z.to_nat j = if decide ((j - st) `mod` s < n) then src !! Z.to_nat ((j - st) `mod` s)
                         else b !! Z.to_nat j.
Proof.
  intros Hlen Hs Hn Hsrc Hl. pose proof (Z.mod_pos_bound st s Hs) as Hoff.
  unfold zlen in *. unfold memcpy.
  rewrite (mem_read_Some src 0 l), (mem_read_Some src l (n - l)) by (unfold zlen; lia). simpl.
  set (d1 := take (Z.to_nat l) (drop 0 src)). set (d2 := take (Z.to_nat (n - l)) (drop (Z.to_nat l) src)).
  assert (Hd1 : length d1 = Z.to_nat l) by (unfold d1; rewrite length_take, length_drop; lia).
  assert (Hd2 : length d2 = Z.to_nat (n - l)) by (unfold d2; rewrite length_take, length_drop; lia).
  destruct (mem_write b (st `mod` s) d1) as [b1|] eqn:W1.
  2: { rewrite mem_write_Some in W1 by (unfold zlen; lia). done. }
  pose proof (length_mem_write _ _ _ _ W1) as L1.
  destruct (mem_write b1 0 d2) as [b2|] eqn:W2.
  2: { rewrite mem_write_Some in W2 by (unfold zlen; lia). done. }
  pose proof (length_mem_write _ _ _ _ W2) as L2.
  exists b1, b2. split; [done|]. split; [done|]. split; [lia|]. intros j Hj.
  rewrite (lookup_mem_write _ _ _ _ _ W2), (lookup_mem_write _ _ _ _ _ W1), Hd1, Hd2, (mod_diff s st j) by done.
  change (Z.to_nat 0) with 0%nat. rewrite Nat.sub_0_r.
  assert (D1 : forall i, (i < Z.to_nat l)%nat -> d1 !! i = src !! i).
  { intros i Hi. unfold d1. by rewrite drop_0, lookup_take_lt. }
  assert (D2 : forall i, (i < Z.to_nat (n - l))%nat -> d2 !! i = src !! (Z.to_nat l + i)%nat).
  { intros i Hi. unfold d2. by rewrite lookup_take_lt, lookup_drop. }
  repeat case_decide; try lia; rewrite ?D1, ?D2 by lia; try done; f_equal; lia.
Qed.

(** The two [memcpy]s of [__kfifo_get] read [n] bytes round the ring. *)
Lemma ring_read (b dst : list Z) s st n l :
  zlen b = s -> 0 < s -> 0 <= n <= s -> n <= zlen dst ->
  l = n `min` (s - st `mod` s) ->
  exists d1 d2,
    memcpy dst 0 b (st `mod` s) l = Some d1 /\ memcpy d1 l b 0 (n - l) = Some d2 /\
    d2 = ring b s st (Z.to_nat n) ++ drop (Z.to_nat n) dst.
Proof.
  intros Hlen Hs Hn Hdst Hl. pose proof (Z.mod_pos_bound st s Hs) as Hoff.
  unfold zlen in *. unfold memcpy.
  rewrite (mem_read_Some b (st `mod` s) l), (mem_read_Some b 0 (n - l)) by (unfold zlen; lia). simpl.
  set (r1 := take (Z.to_nat l) (drop (Z.to_nat (st `mod` s)) b)). set (r2 := take (Z.to_nat (n - l)) (drop 0 b)).
  assert (Hr1 : length r1 = Z.to_nat l) by (unfold r1; rewrite length_take, length_drop; lia).
  assert (Hr2 : length r2 = Z.to_nat (n - l)) by (unfold r2; rewrite length_take, length_drop; lia).
  destruct (mem_write dst 0 r1) as [d1|] eqn:W1.
  2: { rewrite mem_write_Some in W1 by (unfold zlen; lia). done. }
  pose proof (length_mem_write _ _ _ _ W1) as L1.
  destruct (mem_write d1 l r2) as [d2|] eqn:W2.
  2: { rewrite mem_write_Some in W2 by (unfold zlen; lia). done. }
  pose proof (length_mem_write _ _ _ _ W2) as L2.
  exists d1, d2. split; [done|]. split; [done|]. apply list_eq. intros i.
  rewrite (lookup_mem_write _ _ _ _ _ W2), (lookup_mem_write _ _ _ _ _ W1), Hr1, Hr2.
  change (Z.to_nat 0) with 0%nat. rewrite Nat.sub_0_r.
  destruct (decide (i < Z.to_nat n)%nat) as [Hi|Hi].
  - rewrite (lookup_app_l (ring _ _ _ _)) by (rewrite length_ring; lia). rewrite lookup_ring by done.
    assert (Hpos : (st + Z.of_nat i) `mod` s = if decide (Z.of_nat i < l) then st `mod` s + Z.of_nat i
                                               else Z.of_nat i - l).
    { pose proof (Z.div_mod st s ltac:(lia)). symmetry.
      case_decide; [apply (Z.mod_unique _ _ (st / s))|apply (Z.mod_unique _ _ (st / s + 1))]; lia. }
    rewrite Hpos. repeat case_decide; try lia.
    + unfold r1. rewrite lookup_take_lt, lookup_drop by lia.
      rewrite <- list_lookup_lookup_total_lt by lia. f_equal. lia.
    + unfold r2. rewrite drop_0, lookup_take_lt by lia.
      rewrite <- list_lookup_lookup_total_lt by lia. f_equal. lia.
  - rewrite (lookup_app_r (ring _ _ _ _)) by (rewrite length_ring; lia). rewrite length_ring, lookup_drop.
    repeat case_decide; try lia. f_equal. lia.
Qed.

(** ** The counters *)

Section Counters.
Context (f : kfifo) (Hwf : kfifo_wf f).

Lemma size_bounds : 0 < size f <= 2^31.
Proof using Hwf.
  destruct (wf_size f Hwf) as (k & Hk & ->). split; [apply Z.pow_pos_nonneg; lia|].
  apply Z.pow_le_mono_r; lia.
Qed.

Lemma kfifo_len_range : 0 <= __kfifo_len f <= size f.
Proof using Hwf. split; [apply u32_range|apply Hwf]. Qed.

Lemma in_eq : in_ f = u32 (out f + __kfifo_len f).
Proof using Hwf.
  unfold __kfifo_len. autorewrite with kern.
  replace (out f + (in_ f - out f)) with (in_ f) by lia.
  symmetry. apply u32_small, Hwf.
Qed.

(** [x & (size - 1)] is the offset of counter value [x] in the buffer. *)
Lemma offset_mod x : Z.land x (u32 (size f - 1)) = x `mod` size f.
Proof using Hwf.
  pose proof size_bounds. destruct (wf_size f Hwf) as (k & Hk & Hs).
  rewrite u32_small by (unfold is_u32; lia). rewrite Hs. apply land_mask. lia.
Qed.

Lemma ring_shift b x y n : ring b (size f) (u32 x + y) n = ring b (size f) (x + y) n.
Proof using Hwf.
  apply ring_ext. intros i Hi. do 2 f_equal.
  destruct (wf_size f Hwf) as (k & Hk & ->).
  rewrite <- !Z.add_assoc. by apply ring_pos_wrap.
Qed.

Lemma put_len_free len : put_len f len = len `min` (size f - __kfifo_len f).
Proof using Hwf.
  unfold put_len. f_equal. autorewrite with kern.
  pose proof kfifo_len_range. pose proof size_bounds.
  replace (size f - in_ f + out f) with (size f - (in_ f - out f)) by lia.
  rewrite <- u32_sub_r. apply u32_small. unfold is_u32. fold (__kfifo_len f). lia.
Qed.

Lemma rest_of_buffer x : size f -u (Z.land x (u32 (size f - 1))) = size f - x `mod` size f.
Proof using Hwf.
  rewrite offset_mod. pose proof size_bounds.
  pose proof (Z.mod_pos_bound x (size f) ltac:(lia)). apply u32_small. unfold is_u32. lia.
Qed.

Lemma length_contents : length (contents f) = Z.to_nat (__kfifo_len f).
Proof. apply length_ring. Qed.

(** The cells that [__kfifo_put] may write hold none of the queued bytes. *)
Lemma free_cells i n :
  0 <= i < __kfifo_len f -> 0 <= n <= size f - __kfifo_len f ->
  n <= ((out f + i) `mod` size f - in_ f) `mod` size f.
Proof using Hwf.
  intros Hi Hn. pose proof size_bounds as Hs. pose proof kfifo_len_range.
  rewrite in_eq. destruct (wf_size f Hwf) as (k & Hk & Hsz).
  assert (Hm : ((out f + i) `mod` size f - u32 (out f + __kfifo_len f)) `mod` size f
             = i - __kfifo_len f + size f).
  { rewrite <- Zminus_mod_idemp_r.
    assert (u32 (out f + __kfifo_len f) `mod` size f = (out f + __kfifo_len f) `mod` size f) as ->.
    { rewrite Hsz, <- (Z.add_0_r (u32 _)), ring_pos_wrap by done. by rewrite Z.add_0_r. }
    rewrite Zminus_mod_idemp_r, Zminus_mod_idemp_l. symmetry.
    apply (Z.mod_unique _ _ (-1)); lia. }
  rewrite Hm. lia.
Qed.
End Counters.

Lemma kfifo_wf_set_in f b n :
  kfifo_wf f -> length b = length (buffer f) -> 0 <= n <= size f - __kfifo_len f ->
  kfifo_wf (set_in (set_buffer f b) (in_ f +u n)) /\
  __kfifo_len (set_in (set_buffer f b) (in_ f +u n)) = __kfifo_len f + n.
Proof.
  intros Hwf Hb Hn. pose proof (size_bounds f Hwf). pose proof (kfifo_len_range f Hwf).
  assert (Hlen : __kfifo_len (set_in (set_buffer f b) (in_ f +u n)) = __kfifo_len f + n).
  { unfold __kfifo_len at 1. simpl. rewrite u32_sub_l.
    replace (in_ f + n - out f) with ((in_ f - out f) + n) by lia.
    rewrite <- u32_add_l. apply u32_small. unfold is_u32. fold (__kfifo_len f). lia. }
  split; [|done]. destruct Hwf. split; simpl; [done|unfold zlen in *; congruence|apply u32_range|done|].
  rewrite Hlen. lia.
Qed.

Lemma kfifo_wf_set_out f n :
  kfifo_wf f -> 0 <= n <= __kfifo_len f ->
  kfifo_wf (set_out f (out f +u n)) /\
  __kfifo_len (set_out f (out f +u n)) = __kfifo_len f - n.
Proof.
  intros Hwf Hn. pose proof (size_bounds f Hwf). pose proof (kfifo_len_range f Hwf).
  assert (Hlen : __kfifo_len (set_out f (out f +u n)) = __kfifo_len f - n).
  { unfold __kfifo_len at 1. simpl. rewrite u32_sub_r.
    replace (in_ f - (out f + n)) with ((in_ f - out f) - n) by lia.
    rewrite <- u32_sub_l. apply u32_small. unfold is_u32. fold (__kfifo_len f). lia. }
  split; [|done]. destruct Hwf. split; simpl; [done|done|done|apply u32_range|].
  rewrite Hlen. lia.
Qed.

(** Writing [d] into the free cells from [in] on and advancing [in] appends [d]. *)
Lemma contents_put f b d :
  kfifo_wf f -> length b = length (buffer f) -> zlen d <= size f - __kfifo_len f ->
  (forall j, 0 <= j < size f ->
     b !! Z.to_nat j = if decide ((j - in_ f) `mod` size f < zlen d)
                       then d !! Z.to_nat ((j - in_ f) `mod` size f)
                       else buffer f !! Z.to_nat j) ->
  contents (set_in (set_buffer f b) (in_ f +u zlen d)) = contents f ++ d.
Proof.
  intros Hwf Hlb Hd Hb. pose proof (size_bounds f Hwf) as Hs.
  pose proof (kfifo_len_range f Hwf) as Hl. assert (0 <= zlen d) by (unfold zlen; lia).
  destruct (kfifo_wf_set_in f b (zlen d)) as [_ Hlen]; [done..|lia|].
  unfold contents. rewrite Hlen. simpl.
  rewrite Z2Nat.inj_add by lia. rewrite ring_app. f_equal.
  - apply ring_ext. intros i Hi. set (p := (out f + Z.of_nat i) `mod` size f).
    assert (Hp : 0 <= p < size f) by (apply Z.mod_pos_bound; lia).
    assert (Hfree := free_cells f Hwf (Z.of_nat i) (zlen d) ltac:(lia) ltac:(lia)). fold p in Hfree.
    rewrite !list_lookup_total_alt, Hb by done. rewrite decide_False by lia. done.
  - apply list_eq. intros i. destruct (decide (i < length d)%nat) as [Hi|Hi].
    + rewrite lookup_ring by (unfold zlen; lia). rewrite Z2Nat.id by lia.
      set (p := (out f + __kfifo_len f + Z.of_nat i) `mod` size f).
      assert (Hp : 0 <= p < size f) by (apply Z.mod_pos_bound; lia).
      assert (Hpi : (p - in_ f) `mod` size f = Z.of_nat i).
      { rewrite (in_eq f Hwf). unfold p. destruct (wf_size f Hwf) as (k & Hk & Hsz).
        rewrite <- Zminus_mod_idemp_r. rewrite Hsz in *.
        rewrite <- (Z.add_0_r (u32 _)), ring_pos_wrap, Z.add_0_r by done.
        rewrite Zminus_mod_idemp_r, Zminus_mod_idemp_l.
        replace (out f + __kfifo_len f + Z.of_nat i - (out f + __kfifo_len f)) with (Z.of_nat i) by lia.
        apply Z.mod_small. unfold zlen in *. lia. }
      rewrite list_lookup_total_alt, Hb, Hpi by done. rewrite decide_True by (unfold zlen; lia).
      rewrite Nat2Z.id. destruct (lookup_lt_is_Some_2 d i Hi) as [x ->]. done.
    + rewrite !lookup_ge_None_2; [done|lia|rewrite length_ring; unfold zlen; lia].
Qed.

(** [__kfifo_put] writes [n] bytes round the ring from [in] on and advances [in]. *)
Lemma __kfifo_put_cells f src len :
  kfifo_wf f -> is_u32 len -> len <= zlen src ->
  let n := len `min` (size f - __kfifo_len f) in
  exists b, __kfifo_put f src len = Some (n, set_in (set_buffer f b) (in_ f +u n)) /\
    length b = length (buffer f) /\
    forall j, 0 <= j < size f ->
      b !! Z.to_nat j = if decide ((j - in_ f) `mod` size f < n)
                        then src !! Z.to_nat ((j - in_ f) `mod` size f)
                        else buffer f !! Z.to_nat j.
Proof.
  intros Hwf Hlen Hsrc n. pose proof (size_bounds f Hwf) as Hs. unfold is_u32 in Hlen.
  pose proof (kfifo_len_range f Hwf) as Hl. assert (Hn : 0 <= n <= size f) by lia.
  unfold __kfifo_put. rewrite (put_len_free f Hwf). fold n. unfold put_l.
  rewrite (rest_of_buffer f Hwf), (offset_mod f Hwf).
  set (l := n `min` (size f - in_ f `mod` size f)).
  pose proof (Z.mod_pos_bound (in_ f) (size f) ltac:(lia)).
  rewrite (u32_small (n - l)) by (unfold is_u32; lia).
  destruct (ring_write (buffer f) src (size f) (in_ f) n l) as (b1 & b2 & -> & W2 & Hlb & Hb);
    [apply Hwf|lia|lia|lia|done|]. simpl. rewrite W2. simpl. by exists b2.
Qed.

Lemma __kfifo_put_spec f src len :
  kfifo_wf f -> is_u32 len -> len <= zlen src ->
  let n := len `min` (size f - __kfifo_len f) in
  exists f', __kfifo_put f src len = Some (n, f') /\ kfifo_wf f' /\ size f' = size f /\
    contents f' = contents f ++ take (Z.to_nat n) src.
Proof.
  intros Hwf Hlen Hsrc n. pose proof (size_bounds f Hwf) as Hs.
  pose proof (kfifo_len_range f Hwf) as Hl. assert (Hn : 0 <= n <= size f) by (unfold is_u32 in Hlen; lia).
  destruct (__kfifo_put_cells f src len) as (b & -> & Hlb & Hb); [done..|]. fold n in Hb |- *.
  assert (Hz : zlen (take (Z.to_nat n) src) = n) by (unfold zlen in *; rewrite length_take; lia).
  eexists. split; [done|]. destruct (kfifo_wf_set_in f b n) as [Hwf' _]; [done..|lia|].
  split; [done|]. split; [done|]. rewrite <- Hz at 1. apply contents_put; [done|done|lia|].
  intros j Hj. rewrite Hb, Hz by done. case_decide; [|done].
  pose proof (Z.mod_pos_bound (j - in_ f) (size f) ltac:(lia)).
  by rewrite lookup_take_lt by lia.
Qed.

Lemma contents_get f n :
  kfifo_wf f -> 0 <= n <= __kfifo_len f ->
  contents (set_out f (out f +u n)) = drop (Z.to_nat n) (contents f).
Proof.
  intros Hwf Hn. destruct (kfifo_wf_set_out f n Hwf Hn) as [_ Hlen].
  unfold contents. rewrite Hlen. simpl. rewrite drop_ring by lia.
  rewrite <- (Z.add_0_r (u32 _)), (ring_shift f Hwf), Z.add_0_r, Z2Nat.id, Z2Nat.inj_sub by lia. done.
Qed.

Lemma __kfifo_get_eq f dst len :
  kfifo_wf f -> is_u32 len -> len <= zlen dst ->
  let n := len `min` __kfifo_len f in
  __kfifo_get f dst len
    = Some (n, take (Z.to_nat n) (contents f) ++ drop (Z.to_nat n) dst, set_out f (out f +u n)).
Proof.
  intros Hwf Hlen Hdst n. pose proof (size_bounds f Hwf) as Hs. unfold is_u32 in Hlen.
  pose proof (kfifo_len_range f Hwf) as Hl. assert (Hn : 0 <= n <= __kfifo_len f) by lia.
  unfold __kfifo_get, get_len. fold (__kfifo_len f). fold n. unfold get_l.
  rewrite (rest_of_buffer f Hwf), (offset_mod f Hwf).
  set (l := n `min` (size f - out f `mod` size f)).
  pose proof (Z.mod_pos_bound (out f) (size f) ltac:(lia)).
  rewrite (u32_small (n - l)) by (unfold is_u32; lia).
  destruct (ring_read (buffer f) dst (size f) (out f) n l) as (d1 & d2 & -> & W2 & ->);
    [apply Hwf|lia|lia|lia|done|]. simpl. rewrite W2. simpl.
  unfold contents. by rewrite take_ring by lia.
Qed.

Lemma __kfifo_get_spec f dst len :
  kfifo_wf f -> is_u32 len -> len <= zlen dst ->
  let n := len `min` __kfifo_len f in
  exists f', __kfifo_get f dst len
      = Some (n, take (Z.to_nat n) (contents f) ++ drop (Z.to_nat n) dst, f') /\
    kfifo_wf f' /\ size f' = size f /\ contents f' = drop (Z.to_nat n) (contents f).
Proof.
  intros Hwf Hlen Hdst n. pose proof (kfifo_len_range f Hwf) as Hl.
  assert (Hn : 0 <= n <= __kfifo_len f) by (unfold is_u32 in Hlen; lia).
  eexists. split; [by apply __kfifo_get_eq|].
  split; [by apply kfifo_wf_set_out|]. split; [done|]. by apply contents_get.
Qed.

Lemma empty_contents f : in_ f = out f -> contents f = [].
Proof. intros H. unfold contents, __kfifo_len. by rewrite H, Z.sub_diag. Qed.

Lemma __kfifo_reset_wf f : kfifo_wf f -> kfifo_wf (__kfifo_reset f) /\ contents (__kfifo_reset f) = [].
Proof.
  intros Hwf. pose proof (size_bounds f Hwf) as Hs. split; [|by apply empty_contents].
  destruct Hwf. split; simpl; [done|done|done|done|].
  change (__kfifo_len (__kfifo_reset f)) with 0. simpl. lia.
Qed.

(** ** Refinement of a bounded queue by sequences of calls *)

Inductive fifo_call :=
| CallPut (src : list Z) (len : Z)
| CallGet (dst : list Z) (len : Z)       (* __kfifo_get *)
| CallGetLocked (dst : list Z) (len : Z) (* kfifo_get *)
| CallReset
| CallLen.

(** What a caller sees: the returned count and the destination buffer. *)
Definition fifo_obs : Type := Z * list Z.

(** The buffer passed by the caller is at least as long as it says. *)
Definition legal_call (c : fifo_call) : Prop :=
  match c with
  | CallPut b len | CallGet b len | CallGetLocked b len => is_u32 len /\ len <= zlen b
  | CallReset | CallLen => True
  end.

Definition kfifo_step (f : kfifo) (c : fifo_call) : option (fifo_obs * kfifo) :=
  match c with
  | CallPut src len => '(n, f') ← kfifo_put f src len; Some (n, [], f')
  | CallGet dst len => '(n, d, f') ← __kfifo_get f dst len; Some (n, d, f')
  | CallGetLocked dst len => '(n, d, f') ← kfifo_get f dst len; Some (n, d, f')
  | CallReset => Some (0, [], kfifo_reset f)
  | CallLen => Some (kfifo_len f, [], f)
  end.

Fixpoint kfifo_run (f : kfifo) (cs : list fifo_call) : option (list fifo_obs * kfifo) :=
  match cs with
  | [] => Some ([], f)
  | c :: cs =>
    '(o, f') ← kfifo_step f c;
    '(os, f'') ← kfifo_run f' cs;
    Some (o :: os, f'')
  end.

(** The specification: a list of bytes with a capacity. *)
Definition queue_step (cap : Z) (q : list Z) (c : fifo_call) : fifo_obs * list Z :=
  match c with
  | CallPut src len =>
    let n := len `min` (cap - zlen q) in (n, [], q ++ take (Z.to_nat n) src)
  | CallGet dst len | CallGetLocked dst len =>
    let n := len `min` zlen q in
    (n, take (Z.to_nat n) q ++ drop (Z.to_nat n) dst, drop (Z.to_nat n) q)
  | CallReset => (0, [], [])
  | CallLen => (zlen q, [], q)
  end.

Fixpoint queue_run (cap : Z) (q : list Z) (cs : list fifo_call) : list fifo_obs * list Z :=
  match cs with
  | [] => ([], q)
  | c :: cs =>
    let '(o, q') := queue_step cap q c in
    let '(os, q'') := queue_run cap q' cs in
    (o :: os, q'')
  end.

Lemma zlen_contents f : kfifo_wf f -> zlen (contents f) = __kfifo_len f.
Proof.
  intros Hwf. unfold zlen. rewrite length_contents, Z2Nat.id; [done|]. by apply kfifo_len_range.
Qed.

Lemma kfifo_step_refines f c :
  kfifo_wf f -> legal_call c ->
  exists o f', kfifo_step f c = Some (o, f') /\ kfifo_wf f' /\ size f' = size f /\
    queue_step (size f) (contents f) c = (o, contents f').
Proof.
  intros Hwf Hc. pose proof (zlen_contents f Hwf) as Hz.
  destruct c as [src len|dst len|dst len| |]; simpl in *.
  - destruct Hc as [? ?]. unfold kfifo_put.
    destruct (__kfifo_put_spec f src len) as (f' & -> & ? & ? & Hq); [done..|].
    eexists _, f'. simpl. rewrite Hz, Hq. done.
  - destruct Hc as [? ?].
    destruct (__kfifo_get_spec f dst len) as (f' & -> & ? & ? & Hq); [done..|].
    eexists _, f'. simpl. rewrite Hz, Hq. done.
  - destruct Hc as [? ?]. unfold kfifo_get.
    destruct (__kfifo_get_spec f dst len) as (f' & -> & Hwf' & Hs' & Hq); [done..|]. simpl.
    rewrite Hz. case_decide as He.
    + destruct (__kfifo_reset_wf f' Hwf') as [Hr Hr0]. exists (len `min` __kfifo_len f,
        take (Z.to_nat (len `min` __kfifo_len f)) (contents f) ++ drop (Z.to_nat (len `min` __kfifo_len f)) dst),
        (__kfifo_reset f').
      split; [done|]. split; [done|]. split; [done|].
      rewrite Hr0, <- Hq, (empty_contents f' He). done.
    + eexists _, f'. rewrite Hq. done.
  - destruct (__kfifo_reset_wf f Hwf) as [Hr Hr0].
    exists (0, []), (__kfifo_reset f). rewrite Hr0. done.
  - exists (__kfifo_len f, []), f. by rewrite Hz.
Qed.

(** C2. Any sequence of calls on a FIFO ([kfifo_put], [__kfifo_get], [kfifo_get],
    [kfifo_reset], [kfifo_len]) stays inside its buffers and returns exactly what
    a bounded byte queue of the same capacity returns, including when the 32-bit
    [in] and [out] counters wrap around. *)
Theorem kfifo_refines_queue f cs :
  kfifo_wf f -> Forall legal_call cs ->
  exists os f', kfifo_run f cs = Some (os, f') /\ kfifo_wf f' /\
    queue_run (size f) (contents f) cs = (os, contents f').
Proof.
  intros Hwf Hcs. revert f Hwf. induction Hcs as [|c cs Hc Hcs IH]; intros f Hwf.
  { exists [], f. done. }
  destruct (kfifo_step_refines f c Hwf Hc) as (o & f1 & Hs & Hwf1 & Hsz & Hq).
  destruct (IH f1 Hwf1) as (os & f2 & Hr & Hwf2 & Hqr).
  exists (o :: os), f2. simpl. rewrite Hs. simpl. rewrite Hr. simpl.
  split; [done|]. split; [done|]. rewrite Hq, <- Hsz, Hqr. done.
Qed.

(** A FIFO of four bytes whose counters are about to wrap. *)
Definition wrapping_fifo : kfifo := Kfifo [7; 8; 9; 10] 4 (2^32 - 1) (2^32 - 3) 0.

Lemma kfifo_refines_queue_witness :
  exists os f', kfifo_run wrapping_fifo [CallPut [1; 2; 3] 3; CallGetLocked [0; 0; 0; 0; 0] 5; CallLen]
      = Some (os, f') /\ kfifo_wf f' /\
    queue_run (size wrapping_fifo) (contents wrapping_fifo)
      [CallPut [1; 2; 3] 3; CallGetLocked [0; 0; 0; 0; 0] 5; CallLen] = (os, contents f').
Proof.
  apply (kfifo_refines_queue wrapping_fifo).
  - split; [exists 2; by vm_compute|done|by vm_compute..].
  - repeat constructor; by vm_compute.
Defined.

(** ** Allocation *)

Lemma roundup_pow_of_two_spec x :
  1 < x <= 2^31 -> exists k, 0 < k <= 31 /\ roundup_pow_of_two x = 2^k /\ 2^(k - 1) < x <= 2^k.
Proof.
  intros Hx. unfold roundup_pow_of_two. rewrite (u32_small (x - 1)) by (unfold is_u32; lia).
  rewrite fls_log2 by (unfold is_u32; lia).
  pose proof (Z.log2_spec (x - 1) ltac:(lia)) as [Hlo Hhi].
  assert (0 <= Z.log2 (x - 1)) by apply Z.log2_nonneg.
  assert (Z.log2 (x - 1) < 31) by (apply Z.log2_lt_pow2; lia).
  exists (Z.log2 (x - 1) + 1). split; [lia|]. split.
  - rewrite Z.shiftl_1_l. apply u32_small. unfold is_u32.
    split; [by apply Z.pow_nonneg|]. apply Z.pow_lt_mono_r; lia.
  - replace (Z.log2 (x - 1) + 1 - 1) with (Z.log2 (x - 1)) by lia.
    rewrite <- Z.add_1_r in Hhi. lia.
Qed.

Lemma kfree_undo (p : Z) (s : gset Z) : p ∉ s -> ({[p]} ∪ s) ∖ {[p]} = s.
Proof. set_solver. Qed.

(** Fresh blocks: [kmalloc] never hands out a block that is in use. *)
Definition heap_ok (h : kheap) : Prop :=
  forall p j rest, outcomes h = Some (p, j) :: rest -> p ∉ live h.

(** [kfifo_alloc] of [1 <= size <= 2^31] bytes never hits a [BUG_ON]: it
    returns an empty well-formed FIFO whose capacity is the least power of two
    that is at least [size], having taken two blocks, or it returns [-ENOMEM] and
    leaves the set of allocated blocks as it was. *)
Theorem kfifo_alloc_correct sz lk h :
  1 <= sz <= 2^31 -> heap_ok h ->
  exists r h', kfifo_alloc sz lk h = Some (r, h') /\
    match r with
    | inl (p, bp, f) =>
      kfifo_wf f /\ contents f = [] /\ sz <= size f < 2 * sz /\ lock f = lk /\
      live h' = {[p]} ∪ ({[bp]} ∪ live h)
    | inr err => err = - ENOMEM /\ live h' = live h
    end.
Proof.
  intros Hsz Hok. set (n := if decide (Z.land sz (u32 (sz - 1)) = 0) then sz else roundup_pow_of_two sz).
  assert (Hn : exists k, 0 <= k <= 31 /\ n = 2^k /\ sz <= n < 2 * sz).
  { unfold n. case_decide as Hp.
    - rewrite u32_small in Hp by (unfold is_u32; lia).
      destruct (land_pred_pow2 sz ltac:(lia) Hp) as (k & Hk & ->). exists k.
      assert (k <= 31) by (apply (Z.pow_le_mono_r_iff 2); lia). lia.
    - assert (sz <> 1) by (by intros ->).
      destruct (roundup_pow_of_two_spec sz) as (k & Hk & -> & Hb); [lia|]. exists k.
      replace (2^k) with (2 * 2^(k - 1)) in * by (rewrite <- Z.pow_succ_r by lia; f_equal; lia). lia. }
  destruct Hn as (k & Hk & Hn & Hb).
  assert (Hdef : kfifo_alloc sz lk h = match kmalloc h with
    | (None, h) => Some (inr (- ENOMEM), h)
    | (Some (bp, junk), h) =>
      '(ret, h) ← kfifo_init (junk <$> seq 0 (Z.to_nat n)) n lk h;
      match ret with inl (p, fifo) => Some (inl (p, bp, fifo), h) | inr err => Some (inr err, kfree bp h) end
    end).
  { unfold kfifo_alloc, n. case_decide; [done|]. rewrite decide_False by lia. done. }
  rewrite Hdef. clear Hdef. unfold kmalloc at 1.
  destruct (outcomes h) as [|[[bp junk]|] rest] eqn:Ho;
    [by eexists _, _| |by eexists _, _].
  assert (Hfresh : bp ∉ live h) by (by eapply Hok).
  unfold kfifo_init.
  assert (2^k <= 2^31) by (apply Z.pow_le_mono_r; lia).
  assert (0 < 2^k) by (apply Z.pow_pos_nonneg; lia).
  rewrite decide_True by (rewrite Hn, u32_small by (unfold is_u32; lia); apply pow2_land_pred; lia).
  unfold kmalloc. simpl. destruct rest as [|[[p j2]|] rest']; simpl; eexists _, _; (split; [done|]); simpl.
  - split; [done|]. by apply kfree_undo.
  - split; [|split; [done|split; [lia|split; [done|done]]]].
    split; simpl; [exists k; done| |done|done|].
    + unfold zlen. rewrite length_fmap, length_seq. lia.
    + change (__kfifo_len _) with 0. lia.
  - split; [done|]. by apply kfree_undo.
Qed.

Lemma kfifo_alloc_witness :
  exists r h', kfifo_alloc 5 0 (Kheap ∅ [Some (100, fun _ => 0); None]) = Some (r, h') /\
    match r with
    | inl (p, bp, f) =>
      kfifo_wf f /\ contents f = [] /\ 5 <= size f < 2 * 5 /\ lock f = 0 /\
      live h' = {[p]} ∪ ({[bp]} ∪ ∅)
    | inr err => err = - ENOMEM /\ live h' = ∅
    end.
Proof.
  apply (kfifo_alloc_correct 5 0 (Kheap ∅ [Some (100, fun _ => 0); None])).
  - lia.
  - intros p j rest _. simpl. set_solver.
Defined.

(** ** One reader and one writer without a lock

    The comment on [__kfifo_put] and [__kfifo_get] promises that one concurrent
    writer and one concurrent reader need no lock.  Here each of the two runs as a
    thread whose steps are the reads of the shared counters, the single byte
    copies of the two [memcpy]s and the final counter update, interleaved in any
    order (the target has one processor, so the interleaving is sequentially
    consistent).  A byte copy that leaves a buffer takes its thread to a fault
    state.  [sent] and [recvd] record the bytes the writer has published and the
    bytes the reader has taken.  That the steps are those of the two functions is
    part of the theorem: a thread that runs alone does what its function does. *)

Inductive writer :=
| WIdle
| WCopy (data : list Z) (len l k : Z)  (* [k] of [len] bytes copied, [l] before the end *)
| WFault.                              (* a byte was copied from or to outside a buffer *)

Inductive reader :=
| RIdle
| RCopy (dst : list Z) (len l k : Z)
| RFault.

Record spsc := Spsc {
  fifo : kfifo;
  wr : writer;
  rd : reader;
  sent : list Z;
  recvd : list Z
}.

(** The buffer index of byte [k]: the first [memcpy] runs from [x & (size - 1)],
    the second one from the start of the buffer. *)
Definition copy_pos (f : kfifo) (x l k : Z) : Z :=
  if decide (k < l) then (x &u (size f -u 1)) + k else k - l.

(** Byte [k] of the writer's copy, from the caller's [data], and byte [k] of the
    reader's copy, to the caller's [dst]. *)
Definition put_byte (f : kfifo) (data : list Z) (l k : Z) : option kfifo :=
  x ← mem_get data k;
  b ← mem_set (buffer f) (copy_pos f (in_ f) l k) x;
  Some (set_buffer f b).

Definition get_byte (f : kfifo) (dst : list Z) (l k : Z) : option (list Z) :=
  x ← mem_get (buffer f) (copy_pos f (out f) l k);
  mem_set dst k x.

Inductive writer_step : spsc -> spsc -> Prop :=
| W_start f r s t data n :
    is_u32 n -> n <= zlen data ->
    let len := put_len f n in
    writer_step (Spsc f WIdle r s t) (Spsc f (WCopy data len (put_l f len) 0) r s t)
| W_byte f f' r s t data len l k :
    k < len -> put_byte f data l k = Some f' ->
    writer_step (Spsc f (WCopy data len l k) r s t) (Spsc f' (WCopy data len l (k + 1)) r s t)
| W_out_of_bounds f r s t data len l k :
    k < len -> put_byte f data l k = None ->
    writer_step (Spsc f (WCopy data len l k) r s t) (Spsc f WFault r s t)
| W_done f r s t data len l :
    writer_step (Spsc f (WCopy data len l len) r s t)
      (Spsc (set_in f (in_ f +u len)) WIdle r (s ++ take (Z.to_nat len) data) t).

Inductive reader_step : spsc -> spsc -> Prop :=
| R_start f w s t dst n :
    is_u32 n -> n <= zlen dst ->
    let len := get_len f n in
    reader_step (Spsc f w RIdle s t) (Spsc f w (RCopy dst len (get_l f len) 0) s t)
| R_byte f w s t dst dst' len l k :
    k < len -> get_byte f dst l k = Some dst' ->
    reader_step (Spsc f w (RCopy dst len l k) s t) (Spsc f w (RCopy dst' len l (k + 1)) s t)
| R_out_of_bounds f w s t dst len l k :
    k < len -> get_byte f dst l k = None ->
    reader_step (Spsc f w (RCopy dst len l k) s t) (Spsc f w RFault s t)
| R_done f w s t dst len l :
    reader_step (Spsc f w (RCopy dst len l len) s t)
      (Spsc (set_out f (out f +u len)) w RIdle s (t ++ take (Z.to_nat len) dst)).

Definition spsc_step (c c' : spsc) : Prop := writer_step c c' \/ reader_step c c'.

(** The steps a thread has left in its call: the bytes and the counter update. *)
Definition writer_left (w : writer) : nat :=
  match w with WCopy _ len _ k => S (Z.to_nat (len - k)) | _ => 0 end.
Definition reader_left (r : reader) : nat :=
  match r with RCopy _ len _ k => S (Z.to_nat (len - k)) | _ => 0 end.

(** The bytes a call in progress will publish or has claimed. *)
Definition writer_pending (w : writer) : list Z :=
  match w with WCopy data len _ _ => take (Z.to_nat len) data | _ => [] end.
Definition reader_pending (f : kfifo) (r : reader) : list Z :=
  match r with RCopy _ len _ _ => take (Z.to_nat len) (contents f) | _ => [] end.

Definition writer_ok (f : kfifo) (w : writer) : Prop :=
  match w with
  | WIdle => True
  | WCopy data len l k =>
    0 <= k <= len /\ len <= zlen data /\ len <= size f - __kfifo_len f /\
    l = len `min` (size f - in_ f `mod` size f) /\
    forall i, 0 <= i < k -> buffer f !! Z.to_nat ((in_ f + i) `mod` size f) = data !! Z.to_nat i
  | WFault => False
  end.

Definition reader_ok (f : kfifo) (r : reader) : Prop :=
  match r with
  | RIdle => True
  | RCopy dst len l k =>
    0 <= k <= len /\ len <= __kfifo_len f /\ len <= zlen dst /\
    l = len `min` (size f - out f `mod` size f) /\
    take (Z.to_nat k) dst = take (Z.to_nat k) (contents f)
  | RFault => False
  end.

Record spsc_inv (c : spsc) : Prop := {
  inv_wf : kfifo_wf (fifo c);
  inv_writer : writer_ok (fifo c) (wr c);
  inv_reader : reader_ok (fifo c) (rd c);
  inv_queue : sent c = recvd c ++ contents (fifo c)
}.

(** The index computed for byte [k] is the ring position of counter [x + k]. *)
Lemma copy_pos_ring f x len l k :
  kfifo_wf f -> 0 <= k < len -> len <= size f -> l = len `min` (size f - x `mod` size f) ->
  copy_pos f x l k = (x + k) `mod` size f.
Proof.
  intros Hwf Hk Hlen Hl. unfold copy_pos. rewrite (offset_mod f Hwf).
  pose proof (size_bounds f Hwf). pose proof (Z.mod_pos_bound x (size f) ltac:(lia)).
  pose proof (Z.div_mod x (size f) ltac:(lia)).
  case_decide; [apply (Z.mod_unique _ _ (x / size f))|apply (Z.mod_unique _ _ (x / size f + 1))]; lia.
Qed.

(** Two different offsets within one turn of the ring are different cells. *)
Lemma ring_pos_inj s x i j :
  0 < s -> 0 <= i < s -> 0 <= j < s -> (x + i) `mod` s = (x + j) `mod` s -> i = j.
Proof.
  intros Hs Hi Hj Heq.
  pose proof (Z.div_mod (x + i) s ltac:(lia)). pose proof (Z.div_mod (x + j) s ltac:(lia)).
  assert ((x + i) / s = (x + j) / s) by nia. lia.
Qed.

Lemma queued_pos f i :
  kfifo_wf f ->
  (out f + (__kfifo_len f + i)) `mod` size f = (in_ f + i) `mod` size f.
Proof.
  intros Hwf. rewrite (in_eq f Hwf). destruct (wf_size f Hwf) as (k & Hk & ->).
  rewrite ring_pos_wrap by done. f_equal. lia.
Qed.

(** A byte written in the free part leaves the queued bytes alone. *)
Lemma contents_set_free f i x :
  kfifo_wf f -> 0 <= i < size f - __kfifo_len f ->
  contents (set_buffer f (<[Z.to_nat ((in_ f + i) `mod` size f) := x]> (buffer f))) = contents f.
Proof.
  intros Hwf Hi. pose proof (size_bounds f Hwf). pose proof (kfifo_len_range f Hwf).
  apply ring_ext. intros j Hj. simpl. change (__kfifo_len (set_buffer _ _)) with (__kfifo_len f) in Hj.
  rewrite list_lookup_total_insert_ne; [done|]. rewrite <- (queued_pos f i Hwf).
  intros Heq. apply Z2Nat.inj in Heq; [|apply Z.mod_pos_bound; lia..].
  apply ring_pos_inj in Heq; lia.
Qed.

Lemma kfifo_wf_set_buffer f b : kfifo_wf f -> length b = length (buffer f) -> kfifo_wf (set_buffer f b).
Proof. intros [] Hb. split; simpl; [done|unfold zlen in *; congruence|done..]. Qed.

Lemma writer_start_ok f data n :
  kfifo_wf f -> is_u32 n -> n <= zlen data ->
  writer_ok f (WCopy data (put_len f n) (put_l f (put_len f n)) 0).
Proof.
  intros Hwf Hn Hd. pose proof (kfifo_len_range f Hwf). unfold is_u32 in Hn.
  rewrite (put_len_free f Hwf). unfold put_l. rewrite (rest_of_buffer f Hwf). simpl.
  split; [lia|]. split; [lia|]. split; [lia|]. split; [done|]. intros; lia.
Qed.

Lemma reader_start_ok f dst n :
  kfifo_wf f -> is_u32 n -> n <= zlen dst ->
  reader_ok f (RCopy dst (get_len f n) (get_l f (get_len f n)) 0).
Proof.
  intros Hwf Hn Hd. pose proof (kfifo_len_range f Hwf). unfold is_u32 in Hn.
  unfold get_len, get_l. fold (__kfifo_len f). rewrite (rest_of_buffer f Hwf). simpl.
  split; [lia|]. split; [lia|]. split; [lia|]. done.
Qed.

(** The copies stay inside both buffers. *)
Lemma put_byte_spec f data len l k :
  kfifo_wf f -> writer_ok f (WCopy data len l k) -> k < len ->
  exists x, data !! Z.to_nat k = Some x /\
    put_byte f data l k = Some (set_buffer f (<[Z.to_nat ((in_ f + k) `mod` size f) := x]> (buffer f))).
Proof.
  intros Hwf (Hk & Hd & Hfree & Hl & Hdone) Hlt.
  pose proof (size_bounds f Hwf). pose proof (kfifo_len_range f Hwf).
  destruct (lookup_lt_is_Some_2 data (Z.to_nat k)) as [x Hx]; [unfold zlen in *; lia|].
  exists x. split; [done|]. unfold put_byte, mem_get, mem_set. rewrite decide_True by lia. rewrite Hx. simpl.
  rewrite (copy_pos_ring f (in_ f) len l k) by (done || lia).
  rewrite decide_True; [done|]. rewrite (wf_buffer f Hwf). apply Z.mod_pos_bound. lia.
Qed.

Lemma get_byte_spec f dst len l k :
  kfifo_wf f -> reader_ok f (RCopy dst len l k) -> k < len ->
  exists x, contents f !! Z.to_nat k = Some x /\
    get_byte f dst l k = Some (<[Z.to_nat k := x]> dst).
Proof.
  intros Hwf (Hk & Hlen & Hd & Hl & Hdone) Hlt.
  pose proof (size_bounds f Hwf). pose proof (kfifo_len_range f Hwf).
  unfold contents. rewrite lookup_ring, Z2Nat.id by lia. eexists. split; [done|].
  unfold get_byte, mem_get, mem_set. rewrite (copy_pos_ring f (out f) len l k) by (done || lia).
  pose proof (Z.mod_pos_bound (out f + k) (size f) ltac:(lia)).
  rewrite decide_True by lia. pose proof (wf_buffer f Hwf) as Hb. unfold zlen in Hb.
  rewrite list_lookup_lookup_total_lt by lia. simpl. rewrite decide_True by (unfold zlen in *; lia). done.
Qed.

Lemma writer_byte_ok f data len l k x :
  kfifo_wf f -> writer_ok f (WCopy data len l k) -> k < len -> data !! Z.to_nat k = Some x ->
  let f' := set_buffer f (<[Z.to_nat ((in_ f + k) `mod` size f) := x]> (buffer f)) in
  kfifo_wf f' /\ contents f' = contents f /\ writer_ok f' (WCopy data len l (k + 1)).
Proof.
  intros Hwf (Hk & Hd & Hfree & Hl & Hdone) Hlt Hx.
  pose proof (size_bounds f Hwf) as Hs. pose proof (kfifo_len_range f Hwf).
  pose proof (Z.mod_pos_bound (in_ f + k) (size f) ltac:(lia)) as Hp.
  assert (Hlb : length (buffer f) = Z.to_nat (size f)) by (pose proof (wf_buffer f Hwf); unfold zlen in *; lia).
  split; [apply kfifo_wf_set_buffer; [done|apply length_insert]|].
  split; [apply contents_set_free; [done|lia]|].
  split; [lia|]. split; [done|]. split; [done|]. split; [done|]. simpl. intros i Hi.
  destruct (decide (i = k)) as [->|Hne]; [by rewrite list_lookup_insert_eq by lia|].
  rewrite list_lookup_insert_ne; [apply Hdone; lia|]. intros Heq.
  apply Z2Nat.inj in Heq; [|apply Z.mod_pos_bound; lia..]. apply ring_pos_inj in Heq; lia.
Qed.

Lemma reader_byte_ok f dst len l k x :
  kfifo_wf f -> reader_ok f (RCopy dst len l k) -> k < len -> contents f !! Z.to_nat k = Some x ->
  reader_ok f (RCopy (<[Z.to_nat k := x]> dst) len l (k + 1)).
Proof.
  intros Hwf (Hk & Hlen & Hd & Hl & Hdone) Hlt Hx.
  split; [lia|]. split; [done|]. split; [unfold zlen in *; by rewrite length_insert|]. split; [done|].
  replace (Z.to_nat (k + 1)) with (S (Z.to_nat k)) by lia.
  rewrite (take_S_r _ _ _ Hx), <- Hdone. erewrite take_S_r by (apply list_lookup_insert_eq; unfold zlen in *; lia).
  by rewrite take_insert_ge by lia.
Qed.

Lemma writer_done_ok f data len l :
  kfifo_wf f -> writer_ok f (WCopy data len l len) ->
  kfifo_wf (set_in f (in_ f +u len)) /\
  __kfifo_len (set_in f (in_ f +u len)) = __kfifo_len f + len /\
  contents (set_in f (in_ f +u len)) = contents f ++ take (Z.to_nat len) data.
Proof.
  intros Hwf (Hk & Hd & Hfree & Hl & Hdone). pose proof (size_bounds f Hwf) as Hs.
  destruct (kfifo_wf_set_in f (buffer f) len) as [Hwf' Hlen]; [done..|lia|].
  split; [by destruct f|]. split; [by destruct f|].
  assert (Hz : zlen (take (Z.to_nat len) data) = len) by (unfold zlen in *; rewrite length_take; lia).
  rewrite <- Hz at 1. apply (contents_put f (buffer f)); [done|done|lia|].
  intros j Hj. case_decide as Hc; [|done]. rewrite Hz in Hc.
  pose proof (Z.mod_pos_bound (j - in_ f) (size f) ltac:(lia)).
  rewrite lookup_take_lt, <- Hdone by lia. f_equal. f_equal.
  rewrite Zplus_mod_idemp_r. replace (in_ f + (j - in_ f)) with j by lia.
  symmetry. by apply Z.mod_small.
Qed.

(** The writer only makes the queue longer, the reader only shorter: each keeps
    what the other one relies on. *)
Lemma reader_ok_put f f' r q :
  contents f' = contents f ++ q -> __kfifo_len f <= __kfifo_len f' -> size f' = size f ->
  out f' = out f -> kfifo_wf f -> reader_ok f r -> reader_ok f' r.
Proof.
  intros Hc Hl Hs Ho Hwf. destruct r as [|dst len l k|]; [done| |done]. simpl.
  intros (? & ? & ? & ? & ->). rewrite Hs, Ho, Hc. split; [done|]. split; [lia|]. split; [done|].
  split; [done|]. rewrite take_app_le; [done|]. rewrite length_contents. lia.
Qed.

Lemma writer_ok_get f n w :
  kfifo_wf f -> 0 <= n <= __kfifo_len f -> writer_ok f w -> writer_ok (set_out f (out f +u n)) w.
Proof.
  intros Hwf Hn. destruct (kfifo_wf_set_out f n Hwf Hn) as [_ Hlen].
  destruct w as [|data len l k|]; [done| |done]. simpl. intros (? & ? & ? & ? & ?).
  rewrite Hlen. split; [done|]. split; [done|]. split; [lia|]. done.
Qed.

Lemma writer_step_inv c c' : spsc_inv c -> writer_step c c' -> spsc_inv c'.
Proof.
  intros [Hwf Hw Hr Hq] Hstep. destruct Hstep; simpl in *.
  - split; simpl; [done|by apply writer_start_ok|done|done].
  - destruct (put_byte_spec f data len l k) as (x & Hx & Hb); [done..|].
    match goal with H : put_byte _ _ _ _ = _ |- _ => rewrite Hb in H; injection H as <- end.
    destruct (writer_byte_ok f data len l k x) as (Hwf' & Hc & Hw'); [done..|].
    split; simpl; [done|done| |by rewrite Hc].
    eapply (reader_ok_put f _ r []); [by rewrite app_nil_r|done|done|done|done|done].
  - destruct (put_byte_spec f data len l k) as (x & _ & Hb); [done..|congruence].
  - destruct (writer_done_ok f data len l) as (Hwf' & Hlen & Hc); [done..|].
    destruct Hw as (? & _). split; simpl; [done|done| |by rewrite Hc, app_assoc, Hq].
    eapply reader_ok_put; [exact Hc|lia|done|done|done|done].
Qed.

Lemma reader_step_inv c c' : spsc_inv c -> reader_step c c' -> spsc_inv c'.
Proof.
  intros [Hwf Hw Hr Hq] Hstep. destruct Hstep; simpl in *.
  - split; simpl; [done|done|by apply reader_start_ok|done].
  - destruct (get_byte_spec f dst len l k) as (x & Hx & Hb); [done..|].
    match goal with H : get_byte _ _ _ _ = _ |- _ => rewrite Hb in H; injection H as <- end.
    split; simpl; [done|done|by apply reader_byte_ok|done].
  - destruct (get_byte_spec f dst len l k) as (x & _ & Hb); [done..|congruence].
  - destruct Hr as (Hk & Hlen & Hd & Hl & Hdone).
    split; simpl; [apply kfifo_wf_set_out; [done|lia]|apply writer_ok_get; [done|lia|done]|done|].
    rewrite contents_get, Hdone by (done || lia). by rewrite <- app_assoc, take_drop.
Qed.

Lemma spsc_reach_inv f c :
  kfifo_wf f -> rtc spsc_step (Spsc f WIdle RIdle (contents f) []) c -> spsc_inv c.
Proof.
  intros Hwf. apply (rtc_ind_r (fun c => spsc_inv c)); [by split|].
  intros y z _ [Hyz|Hyz] Hy; [by eapply writer_step_inv|by eapply reader_step_inv].
Qed.

(** *** A thread that runs alone *)

(** The bytes that are left, one step each. *)
Lemma writer_run n : forall f r s t data len l k,
  kfifo_wf f -> writer_ok f (WCopy data len l k) -> len - k = Z.of_nat n ->
  exists b, nsteps writer_step n (Spsc f (WCopy data len l k) r s t)
                                 (Spsc (set_buffer f b) (WCopy data len l len) r s t) /\
    length b = length (buffer f) /\
    forall j, 0 <= j < size f ->
      b !! Z.to_nat j = if decide (k <= (j - in_ f) `mod` size f < len)
                        then data !! Z.to_nat ((j - in_ f) `mod` size f)
                        else buffer f !! Z.to_nat j.
Proof.
  induction n as [|n IH]; intros f r s t data len l k Hwf Hok Hn.
  - assert (k = len) as -> by lia. exists (buffer f). split; [destruct f; apply nsteps_O|].
    split; [done|]. intros j Hj. by rewrite decide_False by lia.
  - assert (Hlt : k < len) by lia. pose proof (size_bounds f Hwf) as Hs.
    pose proof (kfifo_len_range f Hwf). pose proof Hok as (Hk & Hd & Hfree & _).
    destruct (put_byte_spec f data len l k) as (x & Hx & Hb); [done..|].
    destruct (writer_byte_ok f data len l k x) as (Hwf' & _ & Hok'); [done..|].
    destruct (IH _ r s t data len l (k + 1) Hwf' Hok' ltac:(lia)) as (b & Hrun & Hlb & Hcells).
    simpl in Hlb, Hcells. rewrite length_insert in Hlb.
    exists b. split; [eapply nsteps_l; [by apply W_byte|exact Hrun]|]. split; [done|].
    intros j Hj. rewrite Hcells by done. pose proof (Z.mod_pos_bound (j - in_ f) (size f) ltac:(lia)).
    assert (Hmod : (in_ f + (j - in_ f) `mod` size f) `mod` size f = j).
    { rewrite Zplus_mod_idemp_r. replace (in_ f + (j - in_ f)) with j by lia. by apply Z.mod_small. }
    pose proof (wf_buffer f Hwf) as Hbuf. unfold zlen in Hbuf.
    destruct (decide ((j - in_ f) `mod` size f = k)) as [Hjk|Hjk].
    + rewrite decide_False, decide_True by lia. rewrite Hjk in *.
      rewrite Hmod. rewrite list_lookup_insert_eq by lia. done.
    + rewrite list_lookup_insert_ne; [repeat case_decide; done || lia|].
      intros Heq. apply Z2Nat.inj in Heq; [|apply Z.mod_pos_bound; lia|lia].
      rewrite <- Hmod in Heq at 1. apply ring_pos_inj in Heq; lia.
Qed.

Lemma reader_run n : forall f w s t dst len l k,
  kfifo_wf f -> reader_ok f (RCopy dst len l k) -> len - k = Z.of_nat n ->
  nsteps reader_step n (Spsc f w (RCopy dst len l k) s t)
    (Spsc f w (RCopy (take (Z.to_nat len) (contents f) ++ drop (Z.to_nat len) dst) len l len) s t).
Proof.
  induction n as [|n IH]; intros f w s t dst len l k Hwf Hok Hn.
  - assert (k = len) as -> by lia. destruct Hok as (_ & _ & _ & _ & <-). rewrite take_drop. apply nsteps_O.
  - assert (Hlt : k < len) by lia.
    destruct (get_byte_spec f dst len l k) as (x & Hx & Hb); [done..|].
    eapply nsteps_l; [by apply R_byte|].
    pose proof (IH f w s t _ len l (k + 1) Hwf (reader_byte_ok _ _ _ _ _ _ Hwf Hok Hlt Hx) ltac:(lia)) as Hrun.
    destruct Hok as (? & _). by rewrite drop_insert_lt in Hrun by lia.
Qed.

Lemma writer_finishes f w r s t :
  kfifo_wf f -> writer_ok f w ->
  exists f', nsteps writer_step (writer_left w) (Spsc f w r s t)
               (Spsc f' WIdle r (s ++ writer_pending w) t).
Proof.
  intros Hwf Hok. destruct w as [|data len l k|]; [|simpl|done].
  - exists f. rewrite app_nil_r. apply nsteps_O.
  - destruct (writer_run (Z.to_nat (len - k)) f r s t data len l k) as (b & Hrun & _);
      [done|done|destruct Hok; lia|].
    eexists. eapply nsteps_r; [exact Hrun|]. apply W_done.
Qed.

Lemma reader_finishes f w r s t :
  kfifo_wf f -> reader_ok f r ->
  exists f', nsteps reader_step (reader_left r) (Spsc f w r s t)
               (Spsc f' w RIdle s (t ++ reader_pending f r)).
Proof.
  intros Hwf Hok. destruct r as [|dst len l k|]; [|simpl|done].
  - exists f. rewrite app_nil_r. apply nsteps_O.
  - eexists. eapply nsteps_r; [apply reader_run; [done|done|destruct Hok; lia]|].
    assert (take (Z.to_nat len) (contents f) = take (Z.to_nat len)
      (take (Z.to_nat len) (contents f) ++ drop (Z.to_nat len) dst)) as Heq.
    { destruct Hok as (? & ? & ? & _). rewrite take_app_length'; [done|].
      rewrite length_take, length_contents. lia. }
    rewrite Heq at 2. apply R_done.
Qed.

(** A writer that runs alone from the start of its call to the end does what
    [__kfifo_put] does, and a reader what [__kfifo_get] does. *)
Lemma put_alone f r s t data n :
  kfifo_wf f -> is_u32 n -> n <= zlen data ->
  exists len f', __kfifo_put f data n = Some (len, f') /\
    nsteps writer_step (S (S (Z.to_nat len))) (Spsc f WIdle r s t)
      (Spsc f' WIdle r (s ++ take (Z.to_nat len) data) t).
Proof.
  intros Hwf Hn Hd. pose proof (size_bounds f Hwf) as Hs. pose proof (kfifo_len_range f Hwf).
  destruct (__kfifo_put_cells f data n) as (b & Hput & Hlb & Hb); [done..|].
  eexists _, _. split; [exact Hput|]. pose proof (writer_start_ok f data n Hwf Hn Hd) as Hok.
  rewrite (put_len_free f Hwf) in Hok. set (len := n `min` (size f - __kfifo_len f)) in *.
  destruct (writer_run (Z.to_nat len) f r s t data len (put_l f len) 0) as (b' & Hrun & Hlb' & Hb');
    [done|done|destruct Hok; lia|].
  assert (b' = b) as ->.
  { apply list_eq_same_length with (length b); [done|lia|]. intros i x y Hi Hx Hy.
    pose proof (wf_buffer f Hwf) as Hbuf. unfold zlen in Hbuf.
    specialize (Hb (Z.of_nat i) ltac:(lia)). specialize (Hb' (Z.of_nat i) ltac:(lia)). rewrite Nat2Z.id in *.
    pose proof (Z.mod_pos_bound (Z.of_nat i - in_ f) (size f) ltac:(lia)).
    assert (b' !! i = b !! i) by (rewrite Hb, Hb'; repeat case_decide; done || lia). congruence. }
  eapply nsteps_l; [by apply (W_start f r s t data n)|]. rewrite (put_len_free f Hwf). fold len.
  eapply nsteps_r; [exact Hrun|]. apply (W_done (set_buffer f b)).
Qed.

Lemma get_alone f w s t dst n :
  kfifo_wf f -> is_u32 n -> n <= zlen dst ->
  exists len dst' f', __kfifo_get f dst n = Some (len, dst', f') /\
    nsteps reader_step (S (S (Z.to_nat len))) (Spsc f w RIdle s t)
      (Spsc f' w RIdle s (t ++ take (Z.to_nat len) dst')).
Proof.
  intros Hwf Hn Hd. eexists _, _, _. split; [by apply __kfifo_get_eq|].
  pose proof (reader_start_ok f dst n Hwf Hn Hd) as Hok.
  unfold get_len in Hok. fold (__kfifo_len f) in Hok. set (len := n `min` __kfifo_len f) in *.
  eapply nsteps_l; [by apply (R_start f w s t dst n)|]. unfold get_len. fold (__kfifo_len f). fold len.
  eapply nsteps_r; [apply reader_run; [done|done|destruct Hok; lia]|]. apply R_done.
Qed.

(** C1. One writer running [__kfifo_put] and one reader running [__kfifo_get]
    concurrently need no lock.  In every state that an interleaving of their
    counter reads, byte copies and counter updates reaches: no copy has left a
    buffer; the bytes received are a prefix of the bytes sent, in order, and the
    bytes still in flight are the queue's contents, at most [size] of them; a
    thread inside a call ends it by its own steps, one for each byte left and one
    for the counter, and publishes (takes) the bytes it has claimed; and a thread
    outside a call that runs one alone leaves the FIFO and the destination
    exactly as [__kfifo_put] ([__kfifo_get]) does. *)
Theorem kfifo_lock_free f c :
  kfifo_wf f -> rtc spsc_step (Spsc f WIdle RIdle (contents f) []) c ->
  (wr c <> WFault /\ rd c <> RFault) /\
  (sent c = recvd c ++ contents (fifo c) /\ zlen (contents (fifo c)) <= size (fifo c) /\
   kfifo_wf (fifo c)) /\
  (exists f', nsteps writer_step (writer_left (wr c)) c
     (Spsc f' WIdle (rd c) (sent c ++ writer_pending (wr c)) (recvd c))) /\
  (exists f', nsteps reader_step (reader_left (rd c)) c
     (Spsc f' (wr c) RIdle (sent c) (recvd c ++ reader_pending (fifo c) (rd c)))) /\
  (forall data n, wr c = WIdle -> is_u32 n -> n <= zlen data ->
     exists len f', __kfifo_put (fifo c) data n = Some (len, f') /\
       nsteps writer_step (S (S (Z.to_nat len))) c
         (Spsc f' WIdle (rd c) (sent c ++ take (Z.to_nat len) data) (recvd c))) /\
  (forall dst n, rd c = RIdle -> is_u32 n -> n <= zlen dst ->
     exists len dst' f', __kfifo_get (fifo c) dst n = Some (len, dst', f') /\
       nsteps reader_step (S (S (Z.to_nat len))) c
         (Spsc f' (wr c) RIdle (sent c) (recvd c ++ take (Z.to_nat len) dst'))).
Proof.
  intros Hf Hsteps. destruct (spsc_reach_inv f c Hf Hsteps) as [Hwf Hw Hr Hq].
  split; [split; [by intros E; rewrite E in Hw|by intros E; rewrite E in Hr]|].
  split; [split; [done|split; [|done]]|].
  { rewrite zlen_contents by done. by apply kfifo_len_range. }
  destruct c as [g w r s t]; simpl in *.
  split; [by apply writer_finishes|]. split; [by apply reader_finishes|].
  split; [intros data n ->; by apply put_alone|intros dst n ->; by apply get_alone].
Qed.

(** The writer starts a two-byte put, the reader takes the two old bytes, then the
    writer copies its first byte across the end of the buffer. *)
Lemma kfifo_lock_free_witness :
  exists c, rtc spsc_step (Spsc wrapping_fifo WIdle RIdle (contents wrapping_fifo) []) c /\
    recvd c = [8; 9] /\ sent c = recvd c ++ contents (fifo c) /\ wr c <> WFault /\
    exists f', nsteps writer_step 2 c (Spsc f' WIdle RIdle [8; 9; 1; 2] [8; 9]).
Proof.
  assert (Hsteps : rtc spsc_step (Spsc wrapping_fifo WIdle RIdle (contents wrapping_fifo) [])
    (Spsc (Kfifo [7; 8; 9; 1] 4 (2^32 - 1) (2^32 - 1) 0) (WCopy [1; 2; 3] 2 1 1) RIdle [8; 9] [8; 9])).
  { eapply rtc_l. { left. apply (W_start _ _ _ _ [1; 2; 3] 3); by vm_compute. }
    eapply rtc_l. { right. apply (R_start _ _ _ _ [0; 0; 0; 0; 0] 5); by vm_compute. }
    eapply rtc_l. { right. eapply R_byte; [by vm_compute|reflexivity]. }
    eapply rtc_l. { left. eapply W_byte; [by vm_compute|reflexivity]. }
    eapply rtc_l. { right. eapply R_byte; [by vm_compute|reflexivity]. }
    eapply rtc_l. { right. apply R_done. }
    apply rtc_refl. }
  assert (Hwf : kfifo_wf wrapping_fifo) by (split; [exists 2; by vm_compute|done|by vm_compute..]).
  destruct (kfifo_lock_free wrapping_fifo _ Hwf Hsteps) as ([Hw _] & (Hq & _) & Hrun & _).
  eexists. split; [exact Hsteps|]. split; [done|]. split; [exact Hq|]. split; [exact Hw|]. exact Hrun.
Defined.
