(* ===== verification/Sort.v ===== *)
(** The in-place heapsort of [lib/sort.c].

    The array is a memory block of bytes, addressed by byte offsets as in the
    source; [cmp] sees the bytes of the two elements.  The file proves that
    [sort] terminates inside the array and leaves a sorted permutation of it. *)
From Stdlib Require Import ZArith Lia.
From stdpp Require Import base numbers list option sorting.
From S2P Require Import Prelude.

Local Open Scope Z_scope.

(** ** The code *)

(** [u32_swap]: exchange two 32-bit words. *)
Definition u32_swap (m : list Z) (a b : Z) (size : Z) : option (list Z) :=
  t ← mem_read m a 4;
  vb ← mem_read m b 4;
  m ← mem_write m a vb;
  mem_write m b t.

(** [generic_swap]: exchange byte by byte; the [do ... while (--size > 0)] loop
    recurses on [fuel]. *)
Fixpoint generic_swap_loop (fuel : nat) (m : list Z) (a b : Z) (size : Z) : option (list Z) :=
  match fuel with
  | O => None
  | S fuel =>
    t ← mem_get m a;
    vb ← mem_get m b;
    m ← mem_set m a vb;
    m ← mem_set m b t;
    let size := size - 1 in
    if decide (size > 0) then generic_swap_loop fuel m (a + 1) (b + 1) size else Some m
  end.

Definition generic_swap (m : list Z) (a b : Z) (size : Z) : option (list Z) :=
  generic_swap_loop (Z.to_nat (Z.max 1 size)) m a b size.

Definition swap_fn : Type := list Z -> Z -> Z -> Z -> option (list Z).

Section Sort.
Context (cmp : list Z -> list Z -> Z).

(** The inner loop of both phases: [for (r = ...; r * 2 < lim; r = c)].  [lim]
    is [n] while heapifying and [i] while sorting.  [size] is a [size_t], so
    [lim - size] and the comparison with it are unsigned. *)
Fixpoint sift (fuel : nat) (swap : swap_fn) (size : Z) (m : list Z) (r lim : Z) : option (list Z) :=
  match fuel with
  | O => None
  | S fuel =>
    if decide (s32 (r * 2) < lim) then
      let c := s32 (r * 2) in
      c ← (if decide (u32 c < u32 (lim - size)) then
             x ← mem_read m c size;
             y ← mem_read m (c + size) size;
             Some (if decide (cmp x y < 0) then s32 (c + size) else c)
           else Some c);
      x ← mem_read m r size;
      y ← mem_read m c size;
      if decide (cmp x y >= 0) then Some m
      else m ← swap m r c size; sift fuel swap size m c lim
    else Some m
  end.

(** [for ( ; i >= 0; i -= size)] of the heapify phase. *)
Fixpoint heapify (fuel : nat) (swap : swap_fn) (size n : Z) (m : list Z) (i : Z) : option (list Z) :=
  match fuel with
  | O => None
  | S fuel =>
    if decide (i >= 0) then
      m ← sift (S (Z.to_nat n)) swap size m i n;
      heapify fuel swap size n m (s32 (i - size))
    else Some m
  end.

(** [for (i = n - size; i >= 0; i -= size)] of the sort phase. *)
Fixpoint sort_loop (fuel : nat) (swap : swap_fn) (size : Z) (m : list Z) (i : Z) : option (list Z) :=
  match fuel with
  | O => None
  | S fuel =>
    if decide (i >= 0) then
      m ← swap m 0 i size;
      m ← sift (S (Z.to_nat i)) swap size m 0 i;
      sort_loop fuel swap size m (s32 (i - size))
    else Some m
  end.

(** [sort]: the counters are pre-scaled to byte offsets.  The loop bounds are
    passed as fuel: [num / 2 + 2] and [num + 1] rounds. *)
Definition sort (m : list Z) (num size : Z) (swap : option swap_fn) : option (list Z) :=
  let i := s32 (u32 (num / 2 * size)) in
  let n := s32 (u32 (num * size)) in
  let swap := match swap with
              | Some f => f
              | None => if decide (size = 4) then u32_swap else generic_swap
              end in
  m ← heapify (Z.to_nat (num / 2) + 2) swap size n m i;
  sort_loop (Z.to_nat num + 1) swap size m (s32 (n - size)).
End Sort.

(** * Arrays of elements *)

(** The same loops on a list of elements indexed by element number. *)
Section Elements.
Context {A : Type} `{!Inhabited A} (cmp : A -> A -> Z).
Implicit Types (E : list A) (r k lo hi : nat).

Definition swap_el E (i j : nat) : list A := <[i := E !!! j]> (<[j := E !!! i]> E).

Definition pick_child E (r hi : nat) : nat :=
  if decide (2 * r + 1 < hi)%nat then
    if decide (cmp (E !!! (2 * r)%nat) (E !!! (2 * r + 1)%nat) < 0) then (2 * r + 1)%nat else (2 * r)%nat
  else (2 * r)%nat.

Fixpoint sift_el (fuel : nat) E (r hi : nat) : option (list A) :=
  match fuel with
  | O => None
  | S fuel =>
    if decide (2 * r < hi)%nat then
      let c := pick_child E r hi in
      if decide (cmp (E !!! r) (E !!! c) >= 0) then Some E
      else sift_el fuel (swap_el E r c) c hi
    else Some E
  end.

(** What a comparison function must satisfy: it orders its arguments
    consistently and transitively. *)
Class Comparison : Prop := {
  cmp_sym x y : Z.sgn (cmp x y) = - Z.sgn (cmp y x);
  cmp_trans x y z : cmp x y <= 0 -> cmp y z <= 0 -> cmp x z <= 0
}.

Context `{!Comparison}.

Definition le_el (x y : A) : Prop := cmp x y <= 0.

Lemma cmp_ge x y : cmp x y >= 0 <-> le_el y x.
Proof using Type*. unfold le_el. pose proof (cmp_sym x y). lia. Qed.
Lemma cmp_lt x y : cmp x y < 0 -> le_el x y.
Proof using Type. unfold le_el. lia. Qed.
Lemma le_el_refl x : le_el x x.
Proof using Type*. unfold le_el. pose proof (cmp_sym x x). lia. Qed.
Lemma le_el_trans x y z : le_el x y -> le_el y z -> le_el x z.
Proof using Type*. apply cmp_trans. Qed.

(** ** Exchanging two elements *)

Lemma length_swap_el E i j : length (swap_el E i j) = length E.
Proof using Type. unfold swap_el. by rewrite !length_insert. Qed.

Lemma lookup_swap_el E i j k :
  (i < length E)%nat -> (j < length E)%nat ->
  swap_el E i j !!! k = if decide (k = i) then E !!! j else if decide (k = j) then E !!! i else E !!! k.
Proof using Type.
  intros Hi Hj. unfold swap_el. case_decide as Hk; [subst k|].
  { apply list_lookup_total_insert_eq. by rewrite length_insert. }
  rewrite list_lookup_total_insert_ne by done. case_decide as Hk'; [subst k|].
  { by apply list_lookup_total_insert_eq. }
  by apply list_lookup_total_insert_ne.
Qed.

Lemma swap_el_perm E i j : (i < length E)%nat -> (j < length E)%nat -> swap_el E i j ≡ₚ E.
Proof using Type.
  intros Hi Hj.
  destruct (lookup_lt_is_Some_2 E i Hi) as [x Hx]. destruct (lookup_lt_is_Some_2 E j Hj) as [y Hy].
  unfold swap_el. rewrite (list_lookup_total_correct _ _ _ Hx), (list_lookup_total_correct _ _ _ Hy).
  by apply Permutation_insert_swap.
Qed.

(** ** Heaps

    Node [k >= 1] hangs below node [k / 2], so node 0 has the single child 1.
    [heap lo hi E]: every edge whose parent is at least [lo] and whose child is
    below [hi] is in order. *)
Definition heap (lo hi : nat) E : Prop :=
  forall k, (1 <= k < hi)%nat -> (lo <= k / 2)%nat -> le_el (E !!! k) (E !!! (k / 2)%nat).

(** The heap while an element is sinking at [r]. *)
Definition heap_but (lo hi r : nat) E : Prop :=
  forall k, (1 <= k < hi)%nat -> (lo <= k / 2)%nat ->
    ((k / 2)%nat <> r -> le_el (E !!! k) (E !!! (k / 2)%nat)) /\
    ((k / 2)%nat = r -> (1 <= r)%nat -> (lo <= r / 2)%nat -> le_el (E !!! k) (E !!! (r / 2)%nat)).

Lemma child_div r k : (k / 2)%nat = r <-> k = (2 * r)%nat \/ k = (2 * r + 1)%nat.
Proof using Type.
  pose proof (Nat.div_mod_eq k 2). pose proof (Nat.mod_upper_bound k 2). lia.
Qed.

(** [pick_child] is a largest child. *)
Lemma pick_child_spec E r hi :
  (2 * r < hi)%nat ->
  let c := pick_child E r hi in
  (c = 2 * r \/ c = 2 * r + 1)%nat /\ (c < hi)%nat /\
  forall k, (k / 2)%nat = r -> (k < hi)%nat -> le_el (E !!! k) (E !!! c).
Proof using Type*.
  intros Hr c. unfold c, pick_child. repeat case_decide; (split; [lia|]); (split; [lia|]);
    intros k [->| ->]%child_div Hk; try lia; try apply le_el_refl.
  - by apply cmp_lt.
  - apply cmp_ge. lia.
Qed.

Lemma sift_el_heap fuel E r lo hi :
  (hi <= length E)%nat -> (lo <= r)%nat -> (hi - r < fuel)%nat -> heap_but lo hi r E ->
  exists E', sift_el fuel E r hi = Some E' /\ heap lo hi E' /\ E' ≡ₚ E /\
    (forall k, (hi <= k)%nat -> E' !!! k = E !!! k) /\
    (forall k, (k < hi)%nat -> exists k', (k' < hi)%nat /\ E' !!! k = E !!! k').
Proof using Type*.
  revert E r. induction fuel as [|fuel IH]; intros E r Hlen Hlo Hfuel Hbut; [lia|]. simpl.
  case_decide as Hr.
  - change (2 * r)%nat with (r + (r + 0))%nat in *.
    destruct (pick_child_spec E r hi ltac:(lia)) as (Hc & Hch & Hmax).
    set (c := pick_child E r hi) in *.
    case_decide as Hcmp.
    + apply cmp_ge in Hcmp. exists E. split; [done|]. split.
      { intros k Hk Hp. destruct (decide ((k / 2)%nat = r)) as [He|Hne].
        - rewrite He. eapply le_el_trans; [apply Hmax; [done|lia]|done].
        - by apply (Hbut k Hk Hp). }
      split; [done|]. split; [done|]. intros k Hk. exists k. done.
    + assert (Hlt : le_el (E !!! r) (E !!! c)) by (apply cmp_lt; lia).
      assert (Hcr : c <> r).
      { intros Heq. rewrite Heq in Hcmp. destruct Hcmp. apply cmp_ge, le_el_refl. }
      assert (Hc1 : (1 <= c /\ r < c)%nat) by lia.
      assert (Hcp : (c / 2)%nat = r) by (apply child_div; lia).
      destruct (IH (swap_el E r c) c) as (E' & -> & Hheap & Hperm & Hout & Hin).
      * by rewrite length_swap_el.
      * lia.
      * lia.
      * intros k Hk Hp. rewrite !lookup_swap_el by lia.
        assert (Hkk : (k / 2 < k)%nat) by (apply Nat.div_lt; lia).
        destruct (Hbut k Hk Hp) as [Hne Heq]. split.
        -- intros Hkc. destruct (decide ((k / 2)%nat = r)) as [Hkr|Hkr].
           ++ rewrite !(decide_False (P := k = r)) by lia. case_decide; [done|].
              by apply Hmax; [|lia].
           ++ destruct (decide (k = r)) as [->|Hk'].
              { rewrite (decide_False (P := (r / 2)%nat = c)) by lia.
                destruct (Hbut c ltac:(lia) ltac:(lia)) as [_ Hg]. apply Hg; lia. }
              rewrite (decide_False (P := k = c)) by (intros ->; done).
              rewrite (decide_False (P := (k / 2)%nat = c)) by done. by apply Hne.
        -- intros Hkc _ _. rewrite Hcp.
           rewrite !(decide_False (P := k = r)), !(decide_False (P := k = c)) by lia.
           rewrite (decide_True (P := r = r)) by done. rewrite <- Hkc. apply Hne. lia.
      * exists E'. split; [done|]. split; [done|].
        split; [rewrite Hperm; apply swap_el_perm; lia|]. split.
        -- intros k Hk. rewrite Hout by done. rewrite lookup_swap_el by lia.
           by rewrite !decide_False by lia.
        -- intros k Hk. destruct (Hin k Hk) as (k' & Hk' & ->). rewrite lookup_swap_el by lia.
           repeat case_decide; eexists; (split; [|reflexivity]); lia.
  - exists E. split; [done|]. split.
    { intros k Hk Hp. apply (Hbut k Hk Hp). intros Heq. apply child_div in Heq. lia. }
    split; [done|]. split; [done|]. intros k Hk. exists k. done.
Qed.

(** The root of a heap is its maximum. *)
Lemma heap_root_max hi E k : heap 0 hi E -> (k < hi)%nat -> le_el (E !!! k) (E !!! 0%nat).
Proof using Type*.
  intros Hh. induction k as [k IH] using lt_wf_ind. intros Hk.
  destruct (decide (k = 0%nat)) as [->|Hne]; [apply le_el_refl|].
  assert (k / 2 < k)%nat by (apply Nat.div_lt; lia).
  eapply le_el_trans; [apply Hh; lia|]. apply IH; lia.
Qed.

Fixpoint heapify_el (F fuel : nat) E (i hi : nat) : option (list A) :=
  match fuel with
  | O => None
  | S fuel =>
    E ← sift_el F E i hi;
    match i with O => Some E | S i' => heapify_el F fuel E i' hi end
  end.

Lemma heapify_el_heap F fuel E i hi :
  (hi < F)%nat -> (hi <= length E)%nat -> (i < fuel)%nat -> heap (S i) hi E ->
  exists E', heapify_el F fuel E i hi = Some E' /\ heap 0 hi E' /\ E' ≡ₚ E.
Proof using Type*.
  intros HF. revert E i. induction fuel as [|fuel IH]; intros E i Hlen Hi Hheap; [lia|]. cbn [heapify_el].
  destruct (sift_el_heap F E i i hi) as (E1 & -> & Hh1 & Hp1 & _); [done|lia|lia| |].
  { intros k Hk Hp. split; [intros; apply Hheap; lia|]. intros Hki Hi1 Hi2.
    assert (i / 2 < i)%nat by (apply Nat.div_lt; lia). lia. }
  simpl. destruct i as [|i].
  - exists E1. done.
  - destruct (IH E1 i) as (E2 & -> & Hh2 & Hp2).
    + by rewrite (Permutation_length Hp1).
    + lia.
    + done.
    + exists E2. split; [done|]. split; [done|]. by rewrite Hp2.
Qed.

Fixpoint sort_el (F : nat -> nat) (fuel : nat) E (i : nat) : option (list A) :=
  match fuel with
  | O => None
  | S fuel =>
    E ← sift_el (F i) (swap_el E 0 i) 0 i;
    match i with O => Some E | S i' => sort_el F fuel E i' end
  end.

(** Elements from [i] on are sorted and above everything before them. *)
Definition sorted_from (i : nat) E : Prop :=
  forall j k, (j <= k)%nat -> (i <= k < length E)%nat -> le_el (E !!! j) (E !!! k).

Lemma sort_el_sorted F fuel E i :
  (forall i, i < F i)%nat -> (i < length E)%nat -> (i < fuel)%nat -> heap 0 (S i) E -> sorted_from (S i) E ->
  exists E', sort_el F fuel E i = Some E' /\ sorted_from 0 E' /\ E' ≡ₚ E.
Proof using Type*.
  intros HF. revert E i. induction fuel as [|fuel IH]; intros E i Hlen Hi Hheap Hsort; [lia|]. cbn [sort_el].
  set (E0 := swap_el E 0 i).
  assert (HL0 : length E0 = length E) by apply length_swap_el.
  assert (Hp0 : E0 ≡ₚ E) by (apply swap_el_perm; lia).
  destruct (sift_el_heap (F i) E0 0 0 i) as (E1 & -> & Hh1 & Hp1 & Hout & Hin);
    [lia|lia|pose proof (HF i); lia| |].
  { intros k Hk _. split; [|lia]. intros Hk0. unfold E0. rewrite !lookup_swap_el by lia.
    assert (k / 2 < k)%nat by (apply Nat.div_lt; lia).
    rewrite !decide_False by lia. apply Hheap; lia. }
  simpl. assert (HL1 : length E1 = length E) by (rewrite (Permutation_length Hp1); done).
  assert (Hout' : forall k, (i < k)%nat -> E1 !!! k = E !!! k).
  { intros k Hk. rewrite Hout by lia. unfold E0. rewrite lookup_swap_el by lia.
    by rewrite !decide_False by lia. }
  assert (Hi1 : E1 !!! i = E !!! 0%nat).
  { rewrite Hout by lia. unfold E0. rewrite lookup_swap_el by lia.
    case_decide as Hz; [by rewrite Hz|]. by rewrite decide_True. }
  assert (Hin' : forall k, (k < i)%nat -> exists k', (k' <= i)%nat /\ E1 !!! k = E !!! k').
  { intros k Hk. destruct (Hin k Hk) as (k1 & Hk1 & ->). unfold E0. rewrite lookup_swap_el by lia.
    repeat case_decide; eexists; (split; [|reflexivity]); lia. }
  assert (Hsort1 : sorted_from i E1).
  { intros j k Hjk Hk. destruct (decide (k = i)) as [->|Hki].
    - rewrite Hi1. destruct (decide (j = i)) as [->|Hji]; [rewrite Hi1; apply le_el_refl|].
      destruct (Hin' j ltac:(lia)) as (j' & Hj' & ->). eapply heap_root_max; [exact Hheap|lia].
    - rewrite (Hout' k) by lia. destruct (decide (j < i)%nat) as [Hji|Hji].
      + destruct (Hin' j Hji) as (j' & Hj' & ->). apply Hsort; lia.
      + destruct (decide (j = i)) as [->|Hne].
        * rewrite Hi1. apply Hsort; lia.
        * rewrite (Hout' j) by lia. apply Hsort; lia. }
  destruct i as [|i].
  - exists E1. split; [done|]. split; [done|]. by rewrite Hp1.
  - destruct (IH E1 i) as (E2 & -> & Hs2 & Hp2); [lia|lia| |done|].
    + intros k Hk Hp. apply Hh1; lia.
    + exists E2. split; [done|]. split; [done|]. by rewrite Hp2, Hp1.
Qed.
End Elements.

(** * From bytes to elements *)

(** [E] is an array of elements of [sz] bytes each. *)
Definition uniform (sz : nat) (E : list (list Z)) : Prop := Forall (fun x => length x = sz) E.

Lemma uniform_lookup sz E k : uniform sz E -> (k < length E)%nat -> length (E !!! k) = sz.
Proof.
  intros HE Hk. destruct (lookup_lt_is_Some_2 E k Hk) as [x Hx].
  rewrite (list_lookup_total_correct _ _ _ Hx). by eapply (Forall_lookup_1 _ _ _ _ HE).
Qed.

Lemma uniform_swap sz E i j :
  uniform sz E -> (i < length E)%nat -> (j < length E)%nat -> uniform sz (swap_el E i j).
Proof.
  intros HE Hi Hj. unfold swap_el. apply Forall_insert; [apply Forall_insert; [done|]|];
    by apply uniform_lookup.
Qed.

Lemma length_concat_uniform sz E : uniform sz E -> length (concat E) = (length E * sz)%nat.
Proof.
  induction 1 as [|x E Hx HE IH]; [done|]. simpl. rewrite length_app, IH, Hx. done.
Qed.

Lemma lookup_concat_uniform sz E k o :
  uniform sz E -> (k < length E)%nat -> (o < sz)%nat -> concat E !! (k * sz + o)%nat = (E !!! k) !! o.
Proof.
  intros HE. revert k. induction HE as [|x E Hx HE IH]; intros k Hk Ho; simpl in *; [lia|].
  destruct k as [|k].
  - simpl. by rewrite lookup_app_l by lia.
  - rewrite lookup_app_r by lia. change ((x :: E) !!! S k) with (E !!! k).
    rewrite <- IH by lia. f_equal. lia.
Qed.

(** Two arrays of the same shape are equal when their elements are. *)
Lemma concat_ext sz E m :
  uniform sz E -> length m = (length E * sz)%nat ->
  (forall k o, (k < length E)%nat -> (o < sz)%nat -> m !! (k * sz + o)%nat = (E !!! k) !! o) ->
  m = concat E.
Proof.
  intros HE Hlen Hm. apply list_eq. intros x.
  destruct (decide (x < length E * sz)%nat) as [Hx|Hx].
  - assert (sz <> 0%nat) by (intros ->; lia).
    pose proof (Nat.div_mod_eq x sz) as Hdm. pose proof (Nat.mod_upper_bound x sz ltac:(done)).
    assert (x / sz < length E)%nat by (apply Nat.Div0.div_lt_upper_bound; lia).
    replace x with (x / sz * sz + x mod sz)%nat by lia.
    rewrite Hm by done. by rewrite (lookup_concat_uniform sz).
  - rewrite !lookup_ge_None_2; [done|rewrite (length_concat_uniform sz) by done; lia|lia].
Qed.

Lemma read_el sz E k :
  uniform sz E -> (k < length E)%nat ->
  mem_read (concat E) (Z.of_nat (k * sz)) (Z.of_nat sz) = Some (E !!! k).
Proof.
  intros HE Hk. pose proof (length_concat_uniform sz E HE) as Hlen.
  rewrite mem_read_Some; [|lia|lia|unfold zlen; rewrite Hlen; nia]. rewrite !Nat2Z.id. f_equal.
  pose proof (uniform_lookup sz E k HE Hk) as Hl.
  apply list_eq. intros o. destruct (decide (o < sz)%nat).
  - rewrite lookup_take_lt, lookup_drop by done. by apply lookup_concat_uniform.
  - rewrite !lookup_ge_None_2; [done|lia|]. rewrite length_take. lia.
Qed.

(** A swap function exchanges elements [i] and [j] of any array of that element
    size. *)
Definition swap_ok (sz : nat) (f : swap_fn) : Prop :=
  forall E i j, uniform sz E -> (i < length E)%nat -> (j < length E)%nat ->
    f (concat E) (Z.of_nat (i * sz)) (Z.of_nat (j * sz)) (Z.of_nat sz) = Some (concat (swap_el E i j)).

(** Byte [x] after exchanging the ranges [a, a + s) and [b, b + s) of [m]. *)
Definition swapped (m m' : list Z) (a b s : nat) : Prop :=
  length m' = length m /\
  forall x, m' !! x = if decide (a <= x < a + s)%nat then m !! (b + (x - a))%nat
                     else if decide (b <= x < b + s)%nat then m !! (a + (x - b))%nat
                     else m !! x.

Lemma swapped_concat sz E i j m' :
  uniform sz E -> (i < length E)%nat -> (j < length E)%nat ->
  swapped (concat E) m' (i * sz) (j * sz) sz -> m' = concat (swap_el E i j).
Proof.
  intros HE Hi Hj [Hlen Hm']. apply (concat_ext sz).
  - by apply uniform_swap.
  - by rewrite Hlen, length_swap_el, (length_concat_uniform sz).
  - rewrite length_swap_el. intros k o Hk Ho. rewrite Hm', lookup_swap_el by done.
    assert (Hin : forall q, (q * sz <= k * sz + o < q * sz + sz)%nat <-> k = q).
    { intros q. split; [|intros ->; lia]. intros. nia. }
    repeat case_decide; rewrite ?Hin in *; try done; subst;
      try (rewrite <- (lookup_concat_uniform sz) by done; f_equal; lia).
Qed.

Lemma generic_swap_loop_swapped fuel m a b s :
  (fuel = s)%nat -> (0 < s)%nat -> (a + s <= length m)%nat -> (b + s <= length m)%nat ->
  (a = b \/ a + s <= b \/ b + s <= a)%nat ->
  exists m', generic_swap_loop fuel m (Z.of_nat a) (Z.of_nat b) (Z.of_nat s) = Some m' /\ swapped m m' a b s.
Proof.
  revert m a b s. induction fuel as [|fuel IH]; intros m a b s Hf Hs Ha Hb Hdis; [lia|].
  cbn [generic_swap_loop]. rewrite !mem_get_nat.
  destruct (lookup_lt_is_Some_2 m a ltac:(lia)) as [x Hx].
  destruct (lookup_lt_is_Some_2 m b ltac:(lia)) as [y Hy].
  rewrite Hx, Hy. cbn [mbind option_bind]. rewrite mem_set_nat by lia. cbn [mbind option_bind].
  rewrite mem_set_nat by (rewrite length_insert; lia). cbn [mbind option_bind].
  set (m1 := <[b:=x]> (<[a:=y]> m)).
  assert (Hl1 : length m1 = length m) by (unfold m1; by rewrite !length_insert).
  assert (Hm1 : swapped m m1 a b 1).
  { split; [done|]. intros z. unfold m1. destruct (decide (z = b)) as [->|Hzb].
    - rewrite list_lookup_insert_eq by (rewrite length_insert; lia).
      repeat case_decide; try lia; rewrite <- ?Hx, <- ?Hy; f_equal; lia || (assert (a = b) by lia; congruence).
    - rewrite list_lookup_insert_ne by done. destruct (decide (z = a)) as [->|Hza].
      + rewrite list_lookup_insert_eq by lia. repeat case_decide; try lia. rewrite <- Hy. f_equal. lia.
      + rewrite list_lookup_insert_ne by done. repeat case_decide; try lia. done. }
  case_decide as Hgt.
  - replace (Z.of_nat a + 1) with (Z.of_nat (S a)) by lia.
    replace (Z.of_nat b + 1) with (Z.of_nat (S b)) by lia.
    replace (Z.of_nat s - 1) with (Z.of_nat (s - 1)) by lia.
    destruct (IH m1 (S a) (S b) (s - 1)%nat) as (m' & -> & Hlen & Hm'); [lia..|].
    exists m'. split; [done|]. split; [lia|]. intros z. rewrite Hm', !(proj2 Hm1).
    repeat case_decide; try lia; f_equal; lia.
  - exists m1. split; [done|]. by replace s with 1%nat by lia.
Qed.

Lemma el_ranges (sz n i j : nat) :
  (i < n)%nat -> (j < n)%nat ->
  (i * sz + sz <= n * sz)%nat /\ (j * sz + sz <= n * sz)%nat /\
  (i * sz = j * sz \/ i * sz + sz <= j * sz \/ j * sz + sz <= i * sz)%nat.
Proof.
  intros Hi Hj. split; [nia|]. split; [nia|].
  destruct (Nat.lt_trichotomy i j) as [?|[->|?]]; [right; left; nia|by left|right; right; nia].
Qed.

Lemma generic_swap_ok sz : (0 < sz)%nat -> swap_ok sz generic_swap.
Proof.
  intros Hsz E i j HE Hi Hj. pose proof (length_concat_uniform sz E HE) as Hlen.
  destruct (el_ranges sz (length E) i j Hi Hj) as (? & ? & ?).
  unfold generic_swap. replace (Z.to_nat (Z.max 1 (Z.of_nat sz))) with sz by lia.
  destruct (generic_swap_loop_swapped sz (concat E) (i * sz) (j * sz) sz) as (m' & -> & Hsw); [lia..|].
  f_equal. by apply (swapped_concat sz).
Qed.

Lemma u32_swap_ok : swap_ok 4 u32_swap.
Proof.
  intros E i j HE Hi Hj. pose proof (length_concat_uniform 4 E HE) as Hlen.
  destruct (el_ranges 4 (length E) i j Hi Hj) as (Ha & Hb & Hdis).
  unfold u32_swap. rewrite (mem_read_Some _ (Z.of_nat (i * 4)) 4), (mem_read_Some _ (Z.of_nat (j * 4)) 4)
    by (unfold zlen; lia). cbn [mbind option_bind].
  set (t := take (Z.to_nat 4) (drop (Z.to_nat (Z.of_nat (i * 4))) (concat E))).
  set (vb := take (Z.to_nat 4) (drop (Z.to_nat (Z.of_nat (j * 4))) (concat E))).
  assert (Hlt : length t = 4%nat) by (unfold t; rewrite length_take, length_drop; lia).
  assert (Hlv : length vb = 4%nat) by (unfold vb; rewrite length_take, length_drop; lia).
  destruct (mem_write (concat E) (Z.of_nat (i * 4)) vb) as [m1|] eqn:W1.
  2: { rewrite mem_write_Some in W1 by (unfold zlen; lia). done. }
  pose proof (length_mem_write _ _ _ _ W1) as L1. cbn [mbind option_bind].
  destruct (mem_write m1 (Z.of_nat (j * 4)) t) as [m2|] eqn:W2.
  2: { rewrite mem_write_Some in W2 by (unfold zlen; lia). done. }
  pose proof (length_mem_write _ _ _ _ W2) as L2. f_equal. apply (swapped_concat 4); [done..|].
  split; [lia|]. intros x. rewrite (lookup_mem_write _ _ _ _ _ W2), (lookup_mem_write _ _ _ _ _ W1).
  rewrite Hlt, Hlv, !Nat2Z.id.
  assert (Ht : forall o, (o < 4)%nat -> t !! o = concat E !! (i * 4 + o)%nat).
  { intros o Ho. unfold t. rewrite lookup_take_lt, lookup_drop by lia. by rewrite Nat2Z.id. }
  assert (Hv : forall o, (o < 4)%nat -> vb !! o = concat E !! (j * 4 + o)%nat).
  { intros o Ho. unfold vb. rewrite lookup_take_lt, lookup_drop by lia. by rewrite Nat2Z.id. }
  repeat case_decide; try lia; rewrite ?Ht, ?Hv by lia; f_equal; lia.
Qed.

(** ** The loops on bytes are the loops on elements *)

Section Bytes.
Context (cmp : list Z -> list Z -> Z) (sz : nat) (swap : swap_fn).
Context (Hsz : 0 < Z.of_nat sz <= 2^30) (Hswap : swap_ok sz swap).

Lemma s32_off (k : nat) : Z.of_nat (k * sz) < 2^31 -> s32 (Z.of_nat (k * sz)) = Z.of_nat (k * sz).
Proof using Type. intros H. apply s32_small. lia. Qed.

(** Offsets of elements compare like their numbers. *)
Lemma off_lt (i j : nat) : Z.of_nat (i * sz) < Z.of_nat (j * sz) <-> (i < j)%nat.
Proof using Hsz. nia. Qed.

Lemma off_mono (i j : nat) : (i <= j)%nat -> Z.of_nat (i * sz) <= Z.of_nat (j * sz).
Proof using Type. nia. Qed.

Lemma pick_child_lt E r hi : (2 * r < hi)%nat -> (pick_child cmp E r hi < hi)%nat.
Proof using Type. clear. unfold pick_child. repeat case_decide; lia. Qed.

(** The choice of the child [c] in the inner loop. *)
Lemma pick_bytes E r hi :
  uniform sz E -> (hi <= length E)%nat -> (2 * r < hi)%nat -> Z.of_nat (hi * sz) <= 2^30 ->
  (if decide (Z.of_nat (2 * r * sz) < Z.of_nat (hi * sz) - Z.of_nat sz) then
     x ← mem_read (concat E) (Z.of_nat (2 * r * sz)) (Z.of_nat sz);
     y ← mem_read (concat E) (Z.of_nat (2 * r * sz) + Z.of_nat sz) (Z.of_nat sz);
     Some (if decide (cmp x y < 0) then s32 (Z.of_nat (2 * r * sz) + Z.of_nat sz) else Z.of_nat (2 * r * sz))
   else Some (Z.of_nat (2 * r * sz))) = Some (Z.of_nat (pick_child cmp E r hi * sz)).
Proof using Hsz.
  intros HE Hlen Hr Hb. unfold pick_child.
  replace (Z.of_nat (2 * r * sz) + Z.of_nat sz) with (Z.of_nat ((2 * r + 1) * sz)) by lia.
  destruct (decide (2 * r + 1 < hi)%nat) as [H1|H1].
  - pose proof (off_mono (2 * r + 2) hi ltac:(lia)). rewrite decide_True by nia.
    rewrite !read_el by (done || lia). cbn [mbind option_bind]. f_equal.
    case_decide; [apply s32_off; nia|done].
  - rewrite decide_False; [done|]. assert (hi = 2 * r + 1)%nat as -> by lia. nia.
Qed.

Lemma sift_bytes fuel E r hi :
  uniform sz E -> (hi <= length E)%nat -> Z.of_nat (2 * r * sz) < 2^31 -> Z.of_nat (hi * sz) <= 2^30 ->
  sift cmp fuel swap (Z.of_nat sz) (concat E) (Z.of_nat (r * sz)) (Z.of_nat (hi * sz))
  = (fun E => concat E) <$> sift_el cmp fuel E r hi.
Proof using Hsz Hswap.
  intros HE Hlen Hr Hb. revert E r HE Hlen Hr. induction fuel as [|fuel IH]; intros E r HE Hlen Hr; [done|].
  cbn [sift sift_el].
  replace (Z.of_nat (r * sz) * 2) with (Z.of_nat (2 * r * sz)) by lia.
  rewrite s32_off by done.
  destruct (decide (2 * r < hi)%nat) as [Hlt|Hge].
  2: { rewrite decide_False; [done|]. rewrite off_lt. done. }
  rewrite decide_True by (by apply off_lt).
  pose proof (off_mono 1 hi ltac:(lia)).
  rewrite !u32_small by (unfold is_u32; lia).
  rewrite pick_bytes by done. cbn [mbind option_bind].
  pose proof (pick_child_lt E r hi Hlt) as Hc.
  rewrite !read_el by (done || lia). cbn [mbind option_bind].
  case_decide; [done|]. rewrite Hswap by (done || lia). cbn [mbind option_bind].
  apply IH; [apply uniform_swap; (done || lia)|by rewrite length_swap_el|].
  pose proof (proj2 (off_lt _ _) Hc). nia.
Qed.

Lemma sift_el_uniform fuel E r hi E' :
  uniform sz E -> (hi <= length E)%nat -> sift_el cmp fuel E r hi = Some E' ->
  uniform sz E' /\ length E' = length E.
Proof using Type.
  revert E r. induction fuel as [|fuel IH]; intros E r HE Hlen; cbn [sift_el]; [done|].
  case_decide as Hlt; [|by intros [= <-]]. case_decide; [by intros [= <-]|]. intros Heq.
  pose proof (pick_child_lt E r hi Hlt) as Hc.
  apply IH in Heq as [? Hl]; [by rewrite length_swap_el in Hl| |by rewrite length_swap_el].
  apply uniform_swap; [done|lia|lia].
Qed.

Lemma heapify_bytes fuel E k hi :
  uniform sz E -> (hi <= length E)%nat -> (k <= hi / 2)%nat -> (k < fuel)%nat ->
  Z.of_nat (hi * sz) <= 2^30 ->
  heapify cmp (S fuel) swap (Z.of_nat sz) (Z.of_nat (hi * sz)) (concat E) (Z.of_nat (k * sz))
  = (fun E => concat E) <$> heapify_el cmp (S (hi * sz)) fuel E k hi.
Proof using Hsz Hswap.
  revert E k. induction fuel as [|fuel IH]; intros E k HE Hlen Hk Hf Hb; [lia|].
  remember (S fuel) as fuel1 eqn:Hfuel1. cbn [heapify].
  assert (Hel : heapify_el cmp (S (hi * sz)) fuel1 E k hi =
    (E ← sift_el cmp (S (hi * sz)) E k hi;
     match k with O => Some E | S i' => heapify_el cmp (S (hi * sz)) fuel E i' hi end)) by (by subst).
  rewrite Hel. clear Hel. rewrite decide_True by lia. rewrite Nat2Z.id.
  pose proof (Nat.Div0.mul_div_le hi 2).
  pose proof (off_mono (2 * k) hi ltac:(lia)).
  rewrite sift_bytes by (done || lia). destruct (sift_el cmp _ E k hi) as [E1|] eqn:Hs; [|done].
  cbn [mbind option_bind fmap option_fmap option_map].
  destruct (sift_el_uniform _ _ _ _ _ HE Hlen Hs) as [HE1 HL1].
  destruct k as [|k].
  - rewrite s32_small by lia. subst fuel1. cbn [heapify]. rewrite decide_False by lia. done.
  - replace (Z.of_nat (S k * sz) - Z.of_nat sz) with (Z.of_nat (k * sz)) by lia.
    rewrite s32_off by nia. subst fuel1. apply IH; [done|lia|lia|lia|done].
Qed.

Lemma sort_loop_bytes fuel E k :
  uniform sz E -> (k < length E)%nat -> (k < fuel)%nat -> Z.of_nat (length E * sz) <= 2^30 ->
  sort_loop cmp (S fuel) swap (Z.of_nat sz) (concat E) (Z.of_nat (k * sz))
  = (fun E => concat E) <$> sort_el cmp (fun i => S (i * sz)) fuel E k.
Proof using Hsz Hswap.
  revert E k. induction fuel as [|fuel IH]; intros E k HE Hk Hf Hb; [lia|].
  remember (S fuel) as fuel1 eqn:Hfuel1. cbn [sort_loop].
  assert (Hel : sort_el cmp (fun i => S (i * sz)) fuel1 E k =
    (E ← sift_el cmp (S (k * sz)) (swap_el E 0 k) 0 k;
     match k with O => Some E | S i' => sort_el cmp (fun i => S (i * sz)) fuel E i' end)) by (by subst).
  rewrite Hel. clear Hel. rewrite decide_True by lia.
  pose proof (Hswap E 0%nat k HE ltac:(lia) Hk) as Hsw0. change (Z.of_nat (0 * sz)) with 0 in Hsw0. rewrite Hsw0.
  cbn [mbind option_bind]. rewrite Nat2Z.id.
  pose proof (off_mono k (length E) ltac:(lia)).
  assert (HE0 : uniform sz (swap_el E 0 k)) by (apply uniform_swap; (done || lia)).
  pose proof (sift_bytes (S (k * sz)) (swap_el E 0 k) 0%nat k HE0) as Hsb.
  change (Z.of_nat (0 * sz)) with 0 in Hsb. rewrite Hsb by (rewrite ?length_swap_el; lia). clear Hsb.
  destruct (sift_el cmp _ (swap_el E 0 k) 0 k) as [E1|] eqn:Hs; [|done].
  cbn [mbind option_bind fmap option_fmap option_map].
  apply sift_el_uniform in Hs as [HE1 HL1]; [|done|rewrite length_swap_el; lia].
  rewrite length_swap_el in HL1. destruct k as [|k].
  - rewrite s32_small by lia. subst fuel1. cbn [sort_loop]. rewrite decide_False by lia. done.
  - replace (Z.of_nat (S k * sz) - Z.of_nat sz) with (Z.of_nat (k * sz)) by lia.
    rewrite s32_off by nia. subst fuel1. apply IH; [done|lia|lia|by rewrite HL1].
Qed.
End Bytes.

(** * Correctness of [sort] *)

Lemma sort_el_all {A} `{!Inhabited A} (cmp : A -> A -> Z) `{!Comparison cmp} F G (E : list A) :
  (length E < F)%nat -> (forall i, i < G i)%nat -> E <> [] ->
  exists E1 E2, heapify_el cmp F (length E / 2 + 1) E (length E / 2) (length E) = Some E1 /\
    sort_el cmp G (length E) E1 (length E - 1) = Some E2 /\ sorted_from cmp 0 E2 /\ E2 ≡ₚ E /\ E1 ≡ₚ E.
Proof.
  intros HF HG Hne. assert (Hlen : (0 < length E)%nat) by (destruct E; [done|simpl; lia]).
  destruct (heapify_el_heap cmp F (length E / 2 + 1) E (length E / 2) (length E)) as (E1 & H1 & Hh & Hp);
    [done|lia|lia| |].
  { intros k Hk Hlo. pose proof (Nat.div_mod_eq (length E) 2). pose proof (Nat.mod_upper_bound (length E) 2).
    pose proof (Nat.Div0.mul_div_le k 2). lia. }
  pose proof (Permutation_length Hp) as HL1.
  destruct (sort_el_sorted cmp G (length E) E1 (length E - 1)) as (E2 & H2 & Hs & Hp2); [done|lia|lia| | |].
  - by replace (S (length E - 1)) with (length E) by lia.
  - intros j k Hjk Hk. lia.
  - exists E1, E2. split; [done|]. split; [done|]. split; [done|]. split; [by rewrite Hp2|done].
Qed.

(** C3. [sort] is a correct in-place sort: for an array of [length E] elements of
    [sz] bytes, of at most [2^30] bytes in all, and any comparison function that
    orders its arguments consistently, it terminates without touching memory
    outside the array or overflowing an [int], and leaves a permutation of the
    elements in ascending order, whether it uses [u32_swap], [generic_swap] or a
    swap function of the caller that exchanges two elements. *)
Theorem sort_correct (cmp : list Z -> list Z -> Z) (sz : nat) (swap : option swap_fn) (E : list (list Z)) :
  Comparison cmp -> uniform sz E -> 0 < Z.of_nat sz <= 2^30 -> Z.of_nat (length E * sz) <= 2^30 ->
  (forall f, swap = Some f -> swap_ok sz f) ->
  exists E', sort cmp (concat E) (Z.of_nat (length E)) (Z.of_nat sz) swap = Some (concat E') /\
    E' ≡ₚ E /\ (forall j k, (j <= k < length E')%nat -> cmp (E' !!! j) (E' !!! k) <= 0).
Proof.
  intros Hcmp HE Hsz Hb Hsw. unfold sort.
  set (f := match swap with Some f => f | None => if decide (Z.of_nat sz = 4) then u32_swap else generic_swap end).
  assert (Hf : swap_ok sz f).
  { unfold f. destruct swap as [g|]; [by apply Hsw|]. case_decide as H4.
    - assert (sz = 4%nat) as -> by lia. apply u32_swap_ok.
    - apply generic_swap_ok. lia. }
  clearbody f. pose proof (Nat.Div0.mul_div_le (length E) 2) as Hhalf.
  assert (Hh : Z.of_nat (length E) / 2 = Z.of_nat (length E / 2)) by (by rewrite Nat2Z.inj_div).
  rewrite Hh, <- !Nat2Z.inj_mul, !s32_u32, !Nat2Z.id.
  rewrite !s32_off by nia.
  replace (length E / 2 + 2)%nat with (S (length E / 2 + 1)) by lia.
  rewrite (heapify_bytes cmp sz f Hsz Hf) by (done || lia).
  destruct (decide (E = [])) as [->|Hne].
  - simpl. rewrite s32_small by lia. cbn [sort_loop]. rewrite decide_False by lia.
    exists []. split; [done|]. split; [done|]. intros j k Hjk. simpl in Hjk. lia.
  - assert (Hlen : (0 < length E)%nat) by (destruct E; [done|simpl; lia]).
    destruct (sort_el_all cmp (S (length E * sz)) (fun i => S (i * sz)) E) as (E1 & E2 & H1 & H2 & Hs & Hp & Hp1);
      [nia|intros; nia|done|].
    rewrite H1. cbn [mbind option_bind fmap option_fmap option_map].
    replace (Z.of_nat (length E * sz) - Z.of_nat sz) with (Z.of_nat ((length E - 1) * sz)) by nia.
    rewrite s32_off by nia. rewrite Nat.add_1_r.
    assert (HE1 : uniform sz E1) by (unfold uniform; by rewrite Hp1).
    pose proof (Permutation_length Hp1) as HL.
    rewrite (sort_loop_bytes cmp sz f Hsz Hf) by (rewrite ?HL; done || lia). rewrite H2.
    exists E2. split; [done|]. split; [done|]. intros j k Hjk. apply Hs; lia.
Qed.

(** Comparing by an integer key, as [cmpint] in the source's boot-time test does,
    is a comparison function. *)
Definition cmp_key (key : list Z -> Z) (x y : list Z) : Z := key x - key y.

Lemma cmp_key_comparison key : Comparison (cmp_key key).
Proof. split; unfold cmp_key; intros; lia. Qed.

Lemma sort_correct_witness :
  exists E', sort (cmp_key (fun x => x !!! 0%nat)) (concat [[3; 9]; [1; 8]; [2; 7]; [1; 6]]) 4 2 None
      = Some (concat E') /\
    E' ≡ₚ [[3; 9]; [1; 8]; [2; 7]; [1; 6]] /\
    (forall j k, (j <= k < length E')%nat -> cmp_key (fun x => x !!! 0%nat) (E' !!! j) (E' !!! k) <= 0).
Proof.
  apply (sort_correct (cmp_key (fun x => x !!! 0%nat)) 2 None [[3; 9]; [1; 8]; [2; 7]; [1; 6]]).
  - apply cmp_key_comparison.
  - repeat constructor.
  - simpl. lia.
  - simpl. lia.
  - intros f Hf. discriminate Hf.
Defined.
