(* ===== verification/Rbtree.v ===== *)
(** Red-black trees: [lib/rbtree.c] and [include/linux/rbtree.h].

    The tree is a graph of [struct rb_node]s in a store: a finite map from
    addresses to nodes plus the root pointer, mutated through parent and child
    pointers exactly as the source does.  A null or dangling dereference is a
    failure of the monad. *)
From Stdlib Require Import ZArith Lia.
From stdpp Require Import base list option gmap.
From S2P Require Import Prelude.

(** ** Data *)

Abbreviation loc := positive.
Abbreviation ptr := (option positive).   (* [None] is [NULL] *)

Inductive color := RB_RED | RB_BLACK.

Global Instance color_eq_dec : EqDecision color.
Proof. solve_decision. Defined.

Record rb_node := RbNode {
  rb_parent : ptr;
  rb_color : color;
  rb_right : ptr;
  rb_left : ptr
}.

(** [struct rb_root] and the memory that holds the nodes. *)
Record rb_store := RbStore {
  rb_root : ptr;
  nodes : gmap loc rb_node
}.

Definition RM : Type -> Type := SM rb_store.
Global Instance RM_ret : MRet RM := SM_ret.
Global Instance RM_bind : MBind RM := SM_bind.

(** ** Memory accesses *)

Definition ld (p : ptr) : RM rb_node := fun s =>
  match p with
  | None => None
  | Some x => match nodes s !! x with Some n => Some (n, s) | None => None end
  end.

Definition upd (p : ptr) (f : rb_node -> rb_node) : RM unit := fun s =>
  match p with
  | None => None
  | Some x =>
    match nodes s !! x with
    | Some n => Some (tt, RbStore (rb_root s) (<[x := f n]> (nodes s)))
    | None => None
    end
  end.

Definition get_root : RM ptr := fun s => Some (rb_root s, s).
Definition put_root (p : ptr) : RM unit := fun s => Some (tt, RbStore p (nodes s)).

Definition with_parent (v : ptr) (n : rb_node) := RbNode v (rb_color n) (rb_right n) (rb_left n).
Definition with_color (v : color) (n : rb_node) := RbNode (rb_parent n) v (rb_right n) (rb_left n).
Definition with_right (v : ptr) (n : rb_node) := RbNode (rb_parent n) (rb_color n) v (rb_left n).
Definition with_left (v : ptr) (n : rb_node) := RbNode (rb_parent n) (rb_color n) (rb_right n) v.

Definition set_parent (p v : ptr) : RM unit := upd p (with_parent v).
Definition set_color (p : ptr) (v : color) : RM unit := upd p (with_color v).
Definition set_right (p v : ptr) : RM unit := upd p (with_right v).
Definition set_left (p v : ptr) : RM unit := upd p (with_left v).

Definition when (b : bool) (m : RM unit) : RM unit := if b then m else mret tt.
Definition nonnull (p : ptr) : bool := match p with Some _ => true | None => false end.

(** ** Rotations *)

Definition __rb_rotate_left (node : ptr) : RM unit :=
  n ← ld node;
  let right := rb_right n in
  r ← ld right;
  _ ← set_right node (rb_left r);
  _ ← when (nonnull (rb_left r)) (r ← ld right; set_parent (rb_left r) node);
  _ ← set_left right node;
  n ← ld node;
  _ ← set_parent right (rb_parent n);
  _ ← (if nonnull (rb_parent n) then
         p ← ld (rb_parent n);
         if decide (node = rb_left p) then set_left (rb_parent n) right
         else set_right (rb_parent n) right
       else put_root right);
  set_parent node right.

Definition __rb_rotate_right (node : ptr) : RM unit :=
  n ← ld node;
  let left := rb_left n in
  l ← ld left;
  _ ← set_left node (rb_right l);
  _ ← when (nonnull (rb_right l)) (l ← ld left; set_parent (rb_right l) node);
  _ ← set_right left node;
  n ← ld node;
  _ ← set_parent left (rb_parent n);
  _ ← (if nonnull (rb_parent n) then
         p ← ld (rb_parent n);
         if decide (node = rb_right p) then set_right (rb_parent n) left
         else set_left (rb_parent n) left
       else put_root left);
  set_parent node left.

(** ** Insertion *)

(** [rb_link_node(node, parent, rb_link)]: [rb_link] is the address of the root
    pointer or of a child pointer of [parent]. *)
Inductive rb_link := LinkRoot | LinkLeft | LinkRight.

Definition rb_link_node (node parent : ptr) (link : rb_link) : RM unit :=
  _ ← set_parent node parent;
  _ ← set_color node RB_RED;
  _ ← set_right node None;
  _ ← set_left node None;
  match link with
  | LinkRoot => put_root node
  | LinkLeft => set_left parent node
  | LinkRight => set_right parent node
  end.

(** [p && p->rb_color == RB_RED]. *)
Definition is_red (p : ptr) : RM bool :=
  if nonnull p then n ← ld p; mret (bool_decide (rb_color n = RB_RED)) else mret false.

(** The [while] loop of [rb_insert_color]; every round moves [node] up. *)
Fixpoint rb_insert_color_loop (fuel : nat) (node : ptr) : RM unit :=
  match fuel with
  | O => SM_fail
  | S fuel =>
    n ← ld node;
    let parent := rb_parent n in
    b ← is_red parent;
    if b : bool then
      p ← ld parent;
      let gparent := rb_parent p in
      g ← ld gparent;
      if decide (parent = rb_left g) then
        let uncle := rb_right g in
        ured ← is_red uncle;
        if ured : bool then
          _ ← set_color uncle RB_BLACK;
          _ ← set_color parent RB_BLACK;
          _ ← set_color gparent RB_RED;
          rb_insert_color_loop fuel gparent
        else
          p ← ld parent;
          '(parent, node) ← (if decide (rb_right p = node) then
                               _ ← __rb_rotate_left parent; mret (node, parent)
                             else mret (parent, node));
          _ ← set_color parent RB_BLACK;
          _ ← set_color gparent RB_RED;
          _ ← __rb_rotate_right gparent;
          rb_insert_color_loop fuel node
      else
        let uncle := rb_left g in
        ured ← is_red uncle;
        if ured : bool then
          _ ← set_color uncle RB_BLACK;
          _ ← set_color parent RB_BLACK;
          _ ← set_color gparent RB_RED;
          rb_insert_color_loop fuel gparent
        else
          p ← ld parent;
          '(parent, node) ← (if decide (rb_left p = node) then
                               _ ← __rb_rotate_right parent; mret (node, parent)
                             else mret (parent, node));
          _ ← set_color parent RB_BLACK;
          _ ← set_color gparent RB_RED;
          _ ← __rb_rotate_left gparent;
          rb_insert_color_loop fuel node
    else mret tt
  end.

Definition store_fuel : RM nat := fun s => Some (S (size (nodes s)), s).

Definition rb_insert_color (node : ptr) : RM unit :=
  fuel ← store_fuel;
  _ ← rb_insert_color_loop fuel node;
  root ← get_root;
  set_color root RB_BLACK.

(** ** Removal *)

(** [!p || p->rb_color == RB_BLACK]. *)
Definition is_black (p : ptr) : RM bool :=
  if nonnull p then n ← ld p; mret (bool_decide (rb_color n = RB_BLACK)) else mret true.

(** The rest of a round of [__rb_erase_color] once the sibling [other] of [node]
    is black, for [node] the left child of [parent]; [again] is the next round. *)
Definition erase_color_left (again : ptr -> ptr -> RM ptr) (parent other : ptr) : RM ptr :=
  o ← ld other;
  lb ← is_black (rb_left o);
  rb ← is_black (rb_right o);
  if lb && rb then
    _ ← set_color other RB_RED;
    p ← ld parent;
    again parent (rb_parent p)
  else
    other ← (if rb : bool then
               _ ← when (nonnull (rb_left o)) (set_color (rb_left o) RB_BLACK);
               _ ← set_color other RB_RED;
               _ ← __rb_rotate_right other;
               p ← ld parent; mret (rb_right p)
             else mret other);
    p ← ld parent;
    _ ← set_color other (rb_color p);
    _ ← set_color parent RB_BLACK;
    o ← ld other;
    _ ← when (nonnull (rb_right o)) (set_color (rb_right o) RB_BLACK);
    _ ← __rb_rotate_left parent;
    get_root.

(** The same for [node] the right child of [parent]. *)
Definition erase_color_right (again : ptr -> ptr -> RM ptr) (parent other : ptr) : RM ptr :=
  o ← ld other;
  lb ← is_black (rb_left o);
  rb ← is_black (rb_right o);
  if lb && rb then
    _ ← set_color other RB_RED;
    p ← ld parent;
    again parent (rb_parent p)
  else
    other ← (if lb : bool then
               _ ← when (nonnull (rb_right o)) (set_color (rb_right o) RB_BLACK);
               _ ← set_color other RB_RED;
               _ ← __rb_rotate_left other;
               p ← ld parent; mret (rb_left p)
             else mret other);
    p ← ld parent;
    _ ← set_color other (rb_color p);
    _ ← set_color parent RB_BLACK;
    o ← ld other;
    _ ← when (nonnull (rb_left o)) (set_color (rb_left o) RB_BLACK);
    _ ← __rb_rotate_right parent;
    get_root.

(** The [while] loop of [__rb_erase_color]; returns the final [node]. *)
Fixpoint rb_erase_color_loop (fuel : nat) (node parent : ptr) : RM ptr :=
  match fuel with
  | O => SM_fail
  | S fuel =>
    nb ← is_black node;
    root ← get_root;
    if nb && bool_decide (node <> root) then
      p ← ld parent;
      if decide (rb_left p = node) then
        let other := rb_right p in
        o ← ld other;
        other ← (if decide (rb_color o = RB_RED) then
                   _ ← set_color other RB_BLACK;
                   _ ← set_color parent RB_RED;
                   _ ← __rb_rotate_left parent;
                   p ← ld parent; mret (rb_right p)
                 else mret other);
        erase_color_left (rb_erase_color_loop fuel) parent other
      else
        let other := rb_left p in
        o ← ld other;
        other ← (if decide (rb_color o = RB_RED) then
                   _ ← set_color other RB_BLACK;
                   _ ← set_color parent RB_RED;
                   _ ← __rb_rotate_right parent;
                   p ← ld parent; mret (rb_left p)
                 else mret other);
        erase_color_right (rb_erase_color_loop fuel) parent other
    else mret node
  end.

Definition __rb_erase_color (node parent : ptr) : RM unit :=
  fuel ← store_fuel;
  node ← rb_erase_color_loop fuel node parent;
  when (nonnull node) (set_color node RB_BLACK).

(** [while ((left = node->rb_left) != NULL) node = left;]. *)
Fixpoint leftmost (fuel : nat) (node : ptr) : RM ptr :=
  match fuel with
  | O => SM_fail
  | S fuel => n ← ld node; if nonnull (rb_left n) then leftmost fuel (rb_left n) else mret node
  end.

Fixpoint rightmost (fuel : nat) (node : ptr) : RM ptr :=
  match fuel with
  | O => SM_fail
  | S fuel => n ← ld node; if nonnull (rb_right n) then rightmost fuel (rb_right n) else mret node
  end.

(** Make [child] take the place of [node] under [parent]. *)
Definition replace_child (parent node child : ptr) : RM unit :=
  if nonnull parent then
    p ← ld parent;
    if decide (rb_left p = node) then set_left parent child else set_right parent child
  else put_root child.

Definition rb_erase (node : ptr) : RM unit :=
  n ← ld node;
  if nonnull (rb_left n) && nonnull (rb_right n) then
    let old := node in
    fuel ← store_fuel;
    node ← leftmost fuel (rb_right n);
    n ← ld node;
    let child := rb_right n in
    let parent := rb_parent n in
    let color := rb_color n in
    _ ← when (nonnull child) (set_parent child parent);
    _ ← replace_child parent node child;
    n ← ld node;
    let parent := if decide (rb_parent n = old) then node else parent in
    o ← ld old;
    _ ← set_parent node (rb_parent o);
    _ ← set_color node (rb_color o);
    _ ← set_right node (rb_right o);
    _ ← set_left node (rb_left o);
    _ ← replace_child (rb_parent o) old node;
    _ ← set_parent (rb_left o) node;
    _ ← when (nonnull (rb_right o)) (set_parent (rb_right o) node);
    if decide (color = RB_BLACK) then __rb_erase_color child parent else mret tt
  else
    let child := if nonnull (rb_left n) then rb_left n else rb_right n in
    let parent := rb_parent n in
    let color := rb_color n in
    _ ← when (nonnull child) (set_parent child parent);
    _ ← replace_child parent node child;
    if decide (color = RB_BLACK) then __rb_erase_color child parent else mret tt.

(** ** Traversal *)

Definition rb_first : RM ptr :=
  n ← get_root;
  if nonnull n then fuel ← store_fuel; leftmost fuel n else mret None.

Definition rb_last : RM ptr :=
  n ← get_root;
  if nonnull n then fuel ← store_fuel; rightmost fuel n else mret None.

(** [while (node->rb_parent && node == node->rb_parent->rb_right)] climbing. *)
Fixpoint climb_right (fuel : nat) (node : ptr) : RM ptr :=
  match fuel with
  | O => SM_fail
  | S fuel =>
    n ← ld node;
    if nonnull (rb_parent n) then
      p ← ld (rb_parent n);
      if decide (node = rb_right p) then climb_right fuel (rb_parent n) else mret (rb_parent n)
    else mret (rb_parent n)
  end.

Fixpoint climb_left (fuel : nat) (node : ptr) : RM ptr :=
  match fuel with
  | O => SM_fail
  | S fuel =>
    n ← ld node;
    if nonnull (rb_parent n) then
      p ← ld (rb_parent n);
      if decide (node = rb_left p) then climb_left fuel (rb_parent n) else mret (rb_parent n)
    else mret (rb_parent n)
  end.

Definition rb_next (node : ptr) : RM ptr :=
  n ← ld node;
  fuel ← store_fuel;
  if nonnull (rb_right n) then leftmost fuel (rb_right n) else climb_right fuel node.

Definition rb_prev (node : ptr) : RM ptr :=
  n ← ld node;
  fuel ← store_fuel;
  if nonnull (rb_left n) then rightmost fuel (rb_left n) else climb_left fuel node.

(** ** Replacement *)

Definition rb_replace_node (victim new : ptr) : RM unit :=
  v ← ld victim;
  let parent := rb_parent v in
  _ ← (if nonnull parent then
         p ← ld parent;
         if decide (victim = rb_left p) then set_left parent new else set_right parent new
       else put_root new);
  v ← ld victim;
  _ ← when (nonnull (rb_left v)) (set_parent (rb_left v) new);
  _ ← when (nonnull (rb_right v)) (set_parent (rb_right v) new);
  v ← ld victim;
  upd new (fun _ => v).
