(* ===== verification/RbtreeRep.v ===== *)
(** How a store represents a red-black tree, and what the pointer operations of
    [lib/rbtree.c] do to the represented tree.

    A tree under a focus is a pair of a context (the path from the focus to the
    root with the subtrees hanging off it) and the subtree in focus.  The pointer
    code walks up and down such a path and rewrites the tree near the focus, so
    each of its pieces is specified as a rewriting of the focused tree; the rest
    of the store is framed by the lemmas on [rep] and [repk]. *)
From Stdlib Require Import ZArith Lia.
From stdpp Require Import base list option gmap.
From S2P Require Import Prelude Rbtree.

(** ** Trees and contexts *)

Inductive tree := E | T (c : color) (l : tree) (x : loc) (r : tree).

Inductive frame := FL (c : color) (x : loc) (r : tree) | FR (c : color) (l : tree) (x : loc).

Abbreviation context := (list frame).

Definition tptr (t : tree) : ptr := match t with E => None | T _ _ x _ => Some x end.

Definition floc (f : frame) : loc := match f with FL _ x _ | FR _ _ x => x end.

Definition kparent (k : context) : ptr := match k with [] => None | f :: _ => Some (floc f) end.

(** The nodes in order. *)
Fixpoint elems (t : tree) : list loc :=
  match t with E => [] | T _ l x r => elems l ++ x :: elems r end.

(** The nodes of a context to the left and to the right of the focus, in order. *)
Fixpoint kl (k : context) : list loc :=
  match k with
  | [] => []
  | FL _ _ _ :: k => kl k
  | FR _ l x :: k => kl k ++ elems l ++ [x]
  end.

Fixpoint kr (k : context) : list loc :=
  match k with
  | [] => []
  | FL _ x r :: k => x :: elems r ++ kr k
  | FR _ _ _ :: k => kr k
  end.

Fixpoint plug (k : context) (t : tree) : tree :=
  match k with
  | [] => t
  | FL c x r :: k => plug k (T c t x r)
  | FR c l x :: k => plug k (T c l x t)
  end.

(** ** Representation *)

(** [rep h t p]: the store [h] holds the tree [t], whose root has parent [p]. *)
Fixpoint rep (h : gmap loc rb_node) (t : tree) (p : ptr) : Prop :=
  match t with
  | E => True
  | T c l x r =>
    h !! x = Some (RbNode p c (tptr r) (tptr l)) /\ rep h l (Some x) /\ rep h r (Some x)
  end.

(** [repk h root k p]: the store holds the context [k] around a subtree whose
    root pointer is [p]. *)
Fixpoint repk (h : gmap loc rb_node) (root : ptr) (k : context) (p : ptr) : Prop :=
  match k with
  | [] => root = p
  | FL c x r :: k =>
    h !! x = Some (RbNode (kparent k) c (tptr r) p) /\ rep h r (Some x) /\ repk h root k (Some x)
  | FR c l x :: k =>
    h !! x = Some (RbNode (kparent k) c p (tptr l)) /\ rep h l (Some x) /\ repk h root k (Some x)
  end.

Definition all_nodes (k : context) (t : tree) : list loc := kl k ++ elems t ++ kr k.

Record represents (s : rb_store) (k : context) (t : tree) : Prop := {
  rp_tree : rep (nodes s) t (kparent k);
  rp_ctx : repk (nodes s) (rb_root s) k (tptr t);
  rp_nodup : NoDup (all_nodes k t)
}.

(** ** Framing *)

Lemma rep_insert h t p x n : x ∉ elems t -> rep h t p -> rep (<[x:=n]> h) t p.
Proof.
  revert p. induction t as [|c l IHl y r IHr]; intros p Hx; [done|]. simpl in *.
  intros (Hy & Hl & Hr). rewrite elem_of_app, elem_of_cons in Hx.
  split; [rewrite lookup_insert_ne by (intros ->; tauto); done|].
  split; [apply IHl; tauto|apply IHr; tauto].
Qed.

Lemma repk_insert h root k p x n : x ∉ kl k -> x ∉ kr k -> repk h root k p -> repk (<[x:=n]> h) root k p.
Proof.
  revert p. induction k as [|[c y r|c l y] k IH]; intros p Hl Hr; simpl in *; [done| |].
  - rewrite elem_of_cons, elem_of_app in Hr. intros (Hy & Ht & Hk).
    split; [rewrite lookup_insert_ne by (intros ->; tauto); done|].
    split; [apply rep_insert; [tauto|done]|apply IH; tauto].
  - rewrite !elem_of_app, list_elem_of_singleton in Hl. intros (Hy & Ht & Hk).
    split; [rewrite lookup_insert_ne by (intros ->; tauto); done|].
    split; [apply rep_insert; [tauto|done]|apply IH; tauto].
Qed.

(** ** Moving the focus *)

Lemma all_nodes_FL c x r k l : all_nodes (FL c x r :: k) l = all_nodes k (T c l x r).
Proof. unfold all_nodes. simpl. by rewrite <- !app_assoc. Qed.

Lemma all_nodes_FR c l x k r : all_nodes (FR c l x :: k) r = all_nodes k (T c l x r).
Proof. unfold all_nodes. simpl. by rewrite <- !app_assoc. Qed.

Lemma nav_L s k c l x r : represents s k (T c l x r) <-> represents s (FL c x r :: k) l.
Proof.
  split; intros [Ht Hk Hn]; (split; [| |by rewrite ?all_nodes_FL in *]); simpl in *; tauto.
Qed.

Lemma nav_R s k c l x r : represents s k (T c l x r) <-> represents s (FR c l x :: k) r.
Proof.
  split; intros [Ht Hk Hn]; (split; [| |by rewrite ?all_nodes_FR in *]); simpl in *; tauto.
Qed.

Lemma nav_root s k t : represents s k t <-> represents s [] (plug k t).
Proof.
  revert t. induction k as [|[c x r|c l x] k IH]; intros t; [done| |]; simpl.
  - by rewrite <- nav_L, IH.
  - by rewrite <- nav_R, IH.
Qed.

Lemma elems_plug k t : elems (plug k t) = all_nodes k t.
Proof.
  revert t. induction k as [|[c x r|c l x] k IH]; intros t; simpl.
  - unfold all_nodes. simpl. by rewrite app_nil_r.
  - by rewrite IH, all_nodes_FL.
  - by rewrite IH, all_nodes_FR.
Qed.

(** ** Reading nodes *)

Lemma ld_focus s k c l x r :
  represents s k (T c l x r) ->
  ld (Some x) s = Some (RbNode (kparent k) c (tptr r) (tptr l), s).
Proof. intros [(Hx & _) _ _]. unfold ld. by rewrite Hx. Qed.

(** ** Writing nodes *)

(** Occurrences of a node in a list: a tree without duplicates has each node at
    most once, which decides every disequality the framing lemmas ask for. *)
Definition occ1 (z x : loc) : nat := if decide (z = x) then 1 else 0.

Fixpoint occ (z : loc) (l : list loc) : nat :=
  match l with [] => 0 | x :: l => occ1 z x + occ z l end.

Lemma occ1_refl z : occ1 z z = 1.
Proof. unfold occ1. by rewrite decide_True. Qed.

Lemma occ_app z l1 l2 : occ z (l1 ++ l2) = occ z l1 + occ z l2.
Proof. induction l1 as [|x l1 IH]; simpl; [done|]. rewrite IH. lia. Qed.

Lemma occ_elem z l : z ∈ l -> 1 <= occ z l.
Proof.
  induction l as [|x l IH]; [by intros ?%elem_of_nil|]. rewrite elem_of_cons. simpl.
  intros [->|Hin]; [rewrite occ1_refl; lia|]. specialize (IH Hin). lia.
Qed.

Lemma occ_NoDup z l : NoDup l -> occ z l <= 1.
Proof.
  induction 1 as [|x l Hx Hl IH]; simpl; [lia|]. unfold occ1. case_decide as Hz; [|lia].
  subst x. destruct (occ z l) eqn:Ho; [lia|]. exfalso. clear IH.
  assert (Hge : 1 <= occ z l) by lia. clear Ho. revert Hx Hge. clear. induction l as [|y l IH]; simpl; [lia|].
  unfold occ1. rewrite elem_of_cons. case_decide; [tauto|]. intros Hn Hge. apply IH; [tauto|lia].
Qed.

(** [solve_fresh H]: prove [x ∉ l] or [x <> y] from [H : NoDup _]. *)
Ltac occ_simpl H :=
  unfold all_nodes in H; cbn [elems kl kr] in H;
  repeat (rewrite occ_app in H || (progress cbn [occ] in H)); rewrite ?occ1_refl in H.

(** The counting form of the absence of duplicates, computed once per goal. *)
Definition occs (z : loc) (n : nat) : Prop := n <= 1.

Ltac know_fresh H :=
  lazymatch goal with
  | _ : forall z, occs z _ |- _ => idtac
  | _ =>
    let F := fresh "Hocc" in
    eassert (F : forall z, occs z _)
      by (let Hc := fresh "Hc" in
          let z := fresh "z" in intros z; pose proof (occ_NoDup z _ H) as Hc; unfold all_nodes in Hc; cbn [elems kl kr] in Hc;
          repeat (rewrite occ_app in Hc || (progress cbn [occ] in Hc)); exact Hc)
  end.

Ltac solve_fresh H :=
  know_fresh H;
  match goal with
  | F : forall z, occs z _ |- ?x ∉ ?l =>
    let Hin := fresh "Hin" in let Hc := fresh "Hc" in
    intros Hin; apply occ_elem in Hin; pose proof (F x) as Hc;
    unfold occs in Hc; rewrite ?occ1_refl in Hc; occ_simpl Hin; clear - Hc Hin; lia
  | F : forall z, occs z _ |- ?x <> ?y =>
    let Heq := fresh "Heq" in let Hc := fresh "Hc" in
    intros Heq; pose proof (F x) as Hc; unfold occs in Hc;
    rewrite <- ?Heq in Hc; rewrite ?occ1_refl in Hc; clear - Hc; lia
  end.

(** Execute monadic code on a store whose lookups are known. *)
Ltac rb_unfold :=
  unfold __rb_rotate_left, __rb_rotate_right, set_left, set_right, set_parent, set_color, upd, ld,
    put_root, get_root, when, replace_child, with_left, with_right, with_parent, with_color,
    mbind, RM_bind, SM_bind, mret, RM_ret, SM_ret.

Ltac rb_step :=
  first
    [ rewrite lookup_insert_eq
    | rewrite lookup_insert_ne by congruence
    | match goal with H : ?h !! ?x = Some _ |- context [?h !! ?x] => rewrite H end ].

Ltac rb_exec := rb_unfold; cbn -[lookup insert]; repeat (rb_step; cbn -[lookup insert]).

Lemma set_color_focus s k c l x r c' :
  represents s k (T c l x r) ->
  exists s', set_color (Some x) c' s = Some (tt, s') /\ represents s' k (T c' l x r).
Proof.
  intros [(Hx & Hl & Hr) Hk Hn]. rb_exec. eexists. split; [done|].
  split; simpl; [|apply repk_insert; [solve_fresh Hn..|done]|done].
  rewrite lookup_insert_eq. split; [done|].
  split; (apply rep_insert; [solve_fresh Hn|done]).
Qed.

(** Prove that an updated store represents a tree: look up the updated nodes and
    frame the updates away from the subtrees. *)
Ltac rb_frame H :=
  know_fresh H;
  repeat match goal with
  | |- _ /\ _ => split
  | |- rep _ (T _ _ _ _) _ => simpl
  | |- rep _ E _ => exact I
  | |- repk _ _ [] _ => simpl
  | |- repk _ _ (_ :: _) _ => simpl
  | |- rep (<[_:=_]> _) _ _ => apply rep_insert; [solve_fresh H|]
  | |- repk (<[_:=_]> _) _ _ _ => apply repk_insert; [solve_fresh H|solve_fresh H|]
  | |- (<[_:=_]> _) !! _ = Some _ => repeat rb_step; reflexivity
  | |- _ => first [assumption | reflexivity]
  end.

(** A step that rewrites the focus keeps the absence of duplicates because it
    keeps the in-order list of nodes. *)
Lemma represents_intro s k t t' :
  NoDup (all_nodes k t) -> elems t' = elems t ->
  rep (nodes s) t' (kparent k) -> repk (nodes s) (rb_root s) k (tptr t') -> represents s k t'.
Proof. intros Hn He Ht Hk. split; [done|done|]. unfold all_nodes. by rewrite He. Qed.

Lemma elems_rotate c c' a x b y d : elems (T c' (T c a x b) y d) = elems (T c a x (T c' b y d)).
Proof. simpl. rewrite <- app_assoc. done. Qed.

Lemma tptr_notin x t : x ∉ elems t -> Some x <> tptr t.
Proof.
  destruct t as [|c l y r]; simpl; [done|]. rewrite elem_of_app, elem_of_cons. intros Hx [= ->]. tauto.
Qed.

(** Case analysis on the parent of the focus and on the inner subtree of a
    rotation, with the disequalities between the nodes involved. *)
Ltac rb_fresh H x y :=
  match goal with
  | _ : x <> y |- _ => idtac
  | _ => assert (x <> y) by solve_fresh H
  end.

Ltac rb_split_ctx H Hk x k :=
  destruct k as [|[? ?g ?gt|? ?gt ?g] k];
  [|let Hg := fresh "Hg" in let Hgt := fresh "Hgt" in destruct Hk as (Hg & Hgt & Hk);
    match type of Hg with
    | _ !! ?g = _ => rb_fresh H x g
    end;
    match type of Hgt with
    | rep _ ?t _ => assert (Some x <> tptr t) by (apply tptr_notin; solve_fresh H)
    end..].

Ltac rb_split_sub H Hb b :=
  let c := fresh "cb" in let b1 := fresh "b1" in let z := fresh "z" in let b2 := fresh "b2" in
  destruct b as [|c b1 z b2]; [|
    let Hz := fresh "Hz" in let Hb1 := fresh "Hb1" in let Hb2 := fresh "Hb2" in
    destruct Hb as (Hz & Hb1 & Hb2)].

Ltac rb_neq H :=
  know_fresh H;
  repeat match goal with
  | _ : ?h !! ?x = Some _, _ : ?h !! ?y = Some _ |- _ =>
    lazymatch x with
    | y => fail
    | _ => match goal with
           | _ : x <> y |- _ => fail 1
           | _ : y <> x |- _ => fail 1
           | _ => assert (x <> y) by solve_fresh H
           end
    end
  end.

Ltac rb_run :=
  rb_exec;
  repeat (first [rewrite decide_True by congruence | rewrite decide_False by congruence]; rb_exec);
  eexists; split; [reflexivity|].

Lemma rotate_left_focus s k c a x c' b y d :
  represents s k (T c a x (T c' b y d)) ->
  exists s', __rb_rotate_left (Some x) s = Some (tt, s') /\ represents s' k (T c' (T c a x b) y d).
Proof.
  intros [(Hx & Ha & Hy & Hb & Hd) Hk Hn].
  rb_split_sub Hn Hb b; rb_split_ctx Hn Hk x k; rb_neq Hn; rb_run;
    (eapply represents_intro; [exact Hn|apply elems_rotate|..]; simpl; rb_frame Hn).
Qed.

Lemma rotate_right_focus s k c a x c' b y d :
  represents s k (T c' (T c a x b) y d) ->
  exists s', __rb_rotate_right (Some y) s = Some (tt, s') /\ represents s' k (T c a x (T c' b y d)).
Proof.
  intros [(Hy & (Hx & Ha & Hb) & Hd) Hk Hn].
  rb_split_sub Hn Hb b; rb_split_ctx Hn Hk y k; rb_neq Hn; rb_run;
    (eapply represents_intro; [exact Hn|symmetry; apply elems_rotate|..]; simpl; rb_frame Hn).
Qed.
