(* ===== verification/RbtreeBalance.v ===== *)
(** Insertion and removal keep a red-black tree: [rb_link_node],
    [rb_insert_color] and [rb_erase] of [lib/rbtree.c].

    The loops are followed on the focused tree of [RbtreeRep]: their invariant
    says which one of the red-black properties may still be broken at the focus. *)
From Stdlib Require Import ZArith Lia.
From stdpp Require Import base list option gmap.
From S2P Require Import Prelude Rbtree RbtreeRep.

(** ** Red-black trees *)

Definition tcolor (t : tree) : color := match t with E => RB_BLACK | T c _ _ _ => c end.
Definition fcolor (f : frame) : color := match f with FL c _ _ | FR c _ _ => c end.

(** [rbt t n]: no red node has a red child, and every path from the root of [t]
    to a leaf has [n] black nodes. *)
Inductive rbt : tree -> nat -> Prop :=
| rbt_E : rbt E 0
| rbt_R l x r n :
    rbt l n -> rbt r n -> tcolor l = RB_BLACK -> tcolor r = RB_BLACK -> rbt (T RB_RED l x r) n
| rbt_B l x r n : rbt l n -> rbt r n -> rbt (T RB_BLACK l x r) (S n).

(** The invariant of a tree between operations. *)
Definition rb_tree (t : tree) : Prop := tcolor t = RB_BLACK /\ exists n, rbt t n.

Definition kblack (k : context) : Prop :=
  match k with f :: _ => fcolor f = RB_BLACK | [] => False end.

(** [rbk k n]: the context [k] is red-black around a black subtree of black
    height [n]. *)
Fixpoint rbk (k : context) (n : nat) : Prop :=
  match k with
  | [] => True
  | FL RB_BLACK _ t :: k | FR RB_BLACK t _ :: k => rbt t n /\ rbk k (S n)
  | FL RB_RED _ t :: k | FR RB_RED t _ :: k =>
    rbt t n /\ tcolor t = RB_BLACK /\ kblack k /\ rbk k n
  end.

Lemma rbt_plug k t n :
  rbt t n -> rbk k n -> (tcolor t = RB_RED -> k = [] \/ kblack k) -> exists n', rbt (plug k t) n'.
Proof.
  revert t n. induction k as [|f k IH]; intros t n Ht Hk Hc; [by exists n|].
  assert (Hnil : (f :: k) <> []) by done.
  destruct f as [[] x u|[] u x]; simpl in *.
  - destruct Hk as (Hu & Huc & Hb & Hk). eapply IH; [|exact Hk|by right].
    constructor; [done|done| |done]. destruct (tcolor t); [|done]. destruct (Hc eq_refl) as [?|?]; done.
  - destruct Hk as (Hu & Hk). eapply IH; [|exact Hk|done]. by constructor.
  - destruct Hk as (Hu & Huc & Hb & Hk). eapply IH; [|exact Hk|by right].
    constructor; [done|done|done|]. destruct (tcolor t); [|done]. destruct (Hc eq_refl) as [?|?]; done.
  - destruct Hk as (Hu & Hk). eapply IH; [|exact Hk|done]. by constructor.
Qed.

(** Every place inside a red-black tree is a context around a subtree. *)
Lemma rbt_unplug k t n' :
  rbt (plug k t) n' -> tcolor (plug k t) = RB_BLACK ->
  exists n, rbt t n /\ rbk k n /\ (tcolor t = RB_RED -> kblack k).
Proof.
  revert t n'. induction k as [|[c x u|c u x] k IH]; intros t n' Ht Hc; simpl in *.
  - exists n'. rewrite Hc. done.
  - destruct (IH _ _ Ht Hc) as (n & Hr & Hk & Hb). inversion Hr; subst; simpl in *.
    + exists n. repeat (split; [done|]). split; [|congruence]. repeat (split; [done|]). split; [by apply Hb|done].
    + eexists. split; [done|]. done.
  - destruct (IH _ _ Ht Hc) as (n & Hr & Hk & Hb). inversion Hr; subst; simpl in *.
    + exists n. repeat (split; [done|]). split; [|congruence]. repeat (split; [done|]). split; [by apply Hb|done].
    + eexists. split; [done|]. done.
Qed.

Lemma rbt_blacken c l x r n : rbt (T c l x r) n -> rb_tree (T RB_BLACK l x r).
Proof. intros H. split; [done|]. inversion H; subst; eexists; by constructor. Qed.

(** ** Executing the code on a focused tree *)

Lemma RM_bind_eq {A B} (m : RM A) (k : A -> RM B) s x s' :
  m s = Some (x, s') -> (m ≫= k) s = k x s'.
Proof. apply SM_bind_eq. Qed.

Lemma RM_ret_bind {A B} (x : A) (k : A -> RM B) s : (mret x ≫= k) s = k x s.
Proof. reflexivity. Qed.

Lemma is_red_tptr s t p : rep (nodes s) t p -> is_red (tptr t) s = Some (bool_decide (tcolor t = RB_RED), s).
Proof.
  destruct t as [|c l x r]; [done|]. intros (Hx & _). unfold is_red. rb_exec. done.
Qed.

Lemma is_black_tptr s t p :
  rep (nodes s) t p -> is_black (tptr t) s = Some (bool_decide (tcolor t = RB_BLACK), s).
Proof.
  destruct t as [|c l x r]; [done|]. intros (Hx & _). unfold is_black. rb_exec. done.
Qed.

Lemma is_red_kparent s f k t :
  represents s (f :: k) t -> is_red (kparent (f :: k)) s = Some (bool_decide (fcolor f = RB_RED), s).
Proof.
  intros [_ Hk _]. destruct f as [c x r|c l x]; destruct Hk as (Hx & _); unfold is_red; rb_exec; done.
Qed.

(** [bind E]: the next command returns as equation [E] says. *)
Ltac bind E := rewrite (RM_bind_eq _ _ _ _ _ E); cbn beta iota.

(** Whole focused trees move the focus without a name for the lemma. *)
Ltac up R := first [apply nav_L in R | apply nav_R in R].
Ltac pop_L R := apply (proj2 (nav_L _ _ _ _ _ _)) in R.
Ltac pop_R R := apply (proj2 (nav_R _ _ _ _ _ _)) in R.
Ltac pop R := first [pop_L R | pop_R R].

Lemma length_all_nodes k t : length k + length (elems t) <= length (all_nodes k t).
Proof.
  unfold all_nodes. rewrite !length_app.
  assert (length k <= length (kl k) + length (kr k)); [|lia].
  induction k as [|[c x r|c l x] k IH]; simpl; rewrite ?length_app; simpl; lia.
Qed.

Lemma rep_dom h t p x : rep h t p -> x ∈ elems t -> is_Some (h !! x).
Proof.
  revert p. induction t as [|c l IHl y r IHr]; intros p; simpl; [by intros _ ?%elem_of_nil|].
  intros (Hy & Hl & Hr). rewrite elem_of_app, elem_of_cons. naive_solver.
Qed.

(** The store has at least as many nodes as the tree, so [store_fuel] bounds the
    length of every path. *)
Lemma store_size s k t : represents s k t -> length (all_nodes k t) <= size (nodes s).
Proof.
  rewrite nav_root, <- elems_plug. intros [Ht _ Hn]. unfold all_nodes in Hn. simpl in Hn. rewrite app_nil_r in Hn.
  rewrite <- size_dom. rewrite <- (size_list_to_set (C := gset loc)) by done.
  apply subseteq_size. intros x Hx%elem_of_list_to_set. apply elem_of_dom. by eapply rep_dom.
Qed.


(** ** Single steps at the focus *)

Lemma ld_eq s x n : nodes s !! x = Some n -> ld (Some x) s = Some (n, s).
Proof. intros H. unfold ld. by rewrite H. Qed.

Lemma is_red_eq s x n :
  nodes s !! x = Some n -> is_red (Some x) s = Some (bool_decide (rb_color n = RB_RED), s).
Proof. intros H. unfold is_red. rb_exec. done. Qed.

Lemma is_black_eq s x n :
  nodes s !! x = Some n -> is_black (Some x) s = Some (bool_decide (rb_color n = RB_BLACK), s).
Proof. intros H. unfold is_black. rb_exec. done. Qed.

Lemma set_color_L s k c c1 l x r y t c' :
  represents s k (T c (T c1 l x r) y t) ->
  exists s', set_color (Some x) c' s = Some (tt, s') /\ represents s' k (T c (T c' l x r) y t).
Proof.
  rewrite nav_L. intros (s' & He & R)%(set_color_focus _ _ _ _ _ _ c'). exists s'. by rewrite nav_L.
Qed.

Lemma set_color_R s k c c1 l x r y t c' :
  represents s k (T c t y (T c1 l x r)) ->
  exists s', set_color (Some x) c' s = Some (tt, s') /\ represents s' k (T c t y (T c' l x r)).
Proof.
  rewrite nav_R. intros (s' & He & R)%(set_color_focus _ _ _ _ _ _ c'). exists s'. by rewrite nav_R.
Qed.

Lemma rotate_left_L s k c0 c a x c' b y d z t :
  represents s k (T c0 (T c a x (T c' b y d)) z t) ->
  exists s', __rb_rotate_left (Some x) s = Some (tt, s') /\
    represents s' k (T c0 (T c' (T c a x b) y d) z t).
Proof. rewrite nav_L. intros (s' & He & R)%rotate_left_focus. exists s'. by rewrite nav_L. Qed.

Lemma rotate_left_R s k c0 c a x c' b y d z t :
  represents s k (T c0 t z (T c a x (T c' b y d))) ->
  exists s', __rb_rotate_left (Some x) s = Some (tt, s') /\
    represents s' k (T c0 t z (T c' (T c a x b) y d)).
Proof. rewrite nav_R. intros (s' & He & R)%rotate_left_focus. exists s'. by rewrite nav_R. Qed.

Lemma rotate_right_L s k c0 c a x c' b y d z t :
  represents s k (T c0 (T c' (T c a x b) y d) z t) ->
  exists s', __rb_rotate_right (Some y) s = Some (tt, s') /\
    represents s' k (T c0 (T c a x (T c' b y d)) z t).
Proof. rewrite nav_L. intros (s' & He & R)%rotate_right_focus. exists s'. by rewrite nav_L. Qed.

Lemma rotate_right_R s k c0 c a x c' b y d z t :
  represents s k (T c0 t z (T c' (T c a x b) y d)) ->
  exists s', __rb_rotate_right (Some y) s = Some (tt, s') /\
    represents s' k (T c0 t z (T c a x (T c' b y d))).
Proof. rewrite nav_R. intros (s' & He & R)%rotate_right_focus. exists s'. by rewrite nav_R. Qed.

(** [act lem R]: the next command is the one that [lem] describes; [R] becomes
    the tree it leaves. *)
Tactic Notation "act" open_constr(lem) hyp(R) :=
  let E := fresh "E" in let R' := fresh "R" in let s := fresh "s" in
  destruct (lem R) as (s & E & R'); bind E; clear E R; rename R' into R.

(** [reads R]: run the loads and the colour tests in front. *)
Ltac read1 :=
  first
    [ rewrite RM_ret_bind
    | erewrite RM_bind_eq; [|apply ld_eq; eassumption]
    | erewrite RM_bind_eq; [|first [eapply is_red_tptr | eapply is_black_tptr]; eassumption]
    | erewrite RM_bind_eq; [|first [eapply is_red_eq | eapply is_black_eq]; eassumption]
    | rewrite decide_True by congruence
    | rewrite decide_False by congruence
    | rewrite bool_decide_eq_true_2 by congruence
    | rewrite bool_decide_eq_false_2 by congruence ];
  cbn beta iota; cbn [rb_parent rb_color rb_left rb_right tptr kparent floc tcolor andb].

Lemma insert_stop s k c l x r fuel :
  represents s k (T c l x r) -> (k = [] \/ kblack k) ->
  rb_insert_color_loop (S fuel) (Some x) s = Some (tt, s).
Proof.
  intros R Hk. cbn [rb_insert_color_loop]. bind (ld_focus _ _ _ _ _ _ R).
  destruct k as [|f k]; [done|]. destruct Hk as [?|Hk]; [done|]. simpl in Hk.
  rewrite nav_root in R. rewrite <- nav_root in R.
  bind (is_red_kparent _ _ _ _ R). by rewrite Hk.
Qed.

(** The recolouring step, for both places of the inserted node and of its parent. *)
Lemma insert_recolor_L s k A p D g ul u ur l x r fuel :
  represents s k (T RB_BLACK (T RB_RED A p D) g (T RB_RED ul u ur)) ->
  A = T RB_RED l x r \/ D = T RB_RED l x r ->
  exists s', rb_insert_color_loop (S fuel) (Some x) s = rb_insert_color_loop fuel (Some g) s' /\
    represents s' k (T RB_RED (T RB_BLACK A p D) g (T RB_BLACK ul u ur)).
Proof.
  intros R Hx. cbn [rb_insert_color_loop].
  pose proof (rp_tree _ _ _ R) as (Hg & (Hp & HA & HD) & (Hu & _)).
  assert (exists fl fr, nodes s !! x = Some (RbNode (Some p) RB_RED fr fl)) as (fl & fr & Hxn).
  { destruct Hx as [->| ->]; [destruct HA as (Hx & _)|destruct HD as (Hx & _)]; eauto. }
  repeat read1.
  act (set_color_R _ _ _ _ _ _ _ _ _ RB_BLACK) R.
  act (set_color_L _ _ _ _ _ _ _ _ _ RB_BLACK) R.
  act (set_color_focus _ _ _ _ _ _ RB_RED) R. eauto.
Qed.

Lemma insert_recolor_R s k A p D g ul u ur l x r fuel :
  represents s k (T RB_BLACK (T RB_RED ul u ur) g (T RB_RED A p D)) ->
  A = T RB_RED l x r \/ D = T RB_RED l x r ->
  exists s', rb_insert_color_loop (S fuel) (Some x) s = rb_insert_color_loop fuel (Some g) s' /\
    represents s' k (T RB_RED (T RB_BLACK ul u ur) g (T RB_BLACK A p D)).
Proof.
  intros R Hx. cbn [rb_insert_color_loop].
  pose proof (rp_tree _ _ _ R) as (Hg & (Hu & _) & (Hp & HA & HD)).
  assert (exists fl fr, nodes s !! x = Some (RbNode (Some p) RB_RED fr fl)) as (fl & fr & Hxn).
  { destruct Hx as [->| ->]; [destruct HA as (Hx & _)|destruct HD as (Hx & _)]; eauto. }
  assert (p <> u) by solve_fresh (rp_nodup _ _ _ R).
  repeat read1.
  act (set_color_L _ _ _ _ _ _ _ _ _ RB_BLACK) R.
  act (set_color_R _ _ _ _ _ _ _ _ _ RB_BLACK) R.
  act (set_color_focus _ _ _ _ _ _ RB_RED) R. eauto.
Qed.

(** The rotations, when the uncle is black. *)
Lemma insert_rotate_LL s k l x r p D g U fuel :
  represents s k (T RB_BLACK (T RB_RED (T RB_RED l x r) p D) g U) -> tcolor U = RB_BLACK ->
  exists s', rb_insert_color_loop (S fuel) (Some x) s = rb_insert_color_loop fuel (Some x) s' /\
    represents s' k (T RB_BLACK (T RB_RED l x r) p (T RB_RED D g U)).
Proof.
  intros R HU. cbn [rb_insert_color_loop].
  pose proof (rp_tree _ _ _ R) as (Hg & (Hp & (Hx & _) & HD) & HrU).
  assert (Some x <> tptr D) by (apply tptr_notin; solve_fresh (rp_nodup _ _ _ R)).
  repeat read1.
  act (set_color_L _ _ _ _ _ _ _ _ _ RB_BLACK) R.
  act (set_color_focus _ _ _ _ _ _ RB_RED) R.
  act (rotate_right_focus _ _ _ _ _ _ _ _ _) R. eauto.
Qed.

Lemma insert_rotate_LR s k A p l x r g U fuel :
  represents s k (T RB_BLACK (T RB_RED A p (T RB_RED l x r)) g U) -> tcolor U = RB_BLACK ->
  exists s', rb_insert_color_loop (S fuel) (Some x) s = rb_insert_color_loop fuel (Some p) s' /\
    represents s' k (T RB_BLACK (T RB_RED A p l) x (T RB_RED r g U)).
Proof.
  intros R HU. cbn [rb_insert_color_loop].
  pose proof (rp_tree _ _ _ R) as (Hg & (Hp & HA & (Hx & _)) & HrU).
  repeat read1.
  destruct (rotate_left_L _ _ _ _ _ _ _ _ _ _ _ _ R) as (s1 & E & R1).
  erewrite RM_bind_eq; [|erewrite RM_bind_eq by exact E; reflexivity]. cbn beta iota. clear E.
  act (set_color_L _ _ _ _ _ _ _ _ _ RB_BLACK) R1.
  act (set_color_focus _ _ _ _ _ _ RB_RED) R1.
  act (rotate_right_focus _ _ _ _ _ _ _ _ _) R1. eauto.
Qed.

Lemma insert_rotate_RR s k l x r p D g U fuel :
  represents s k (T RB_BLACK U g (T RB_RED D p (T RB_RED l x r))) -> tcolor U = RB_BLACK ->
  exists s', rb_insert_color_loop (S fuel) (Some x) s = rb_insert_color_loop fuel (Some x) s' /\
    represents s' k (T RB_BLACK (T RB_RED U g D) p (T RB_RED l x r)).
Proof.
  intros R HU. cbn [rb_insert_color_loop].
  pose proof (rp_tree _ _ _ R) as (Hg & HrU & (Hp & HD & (Hx & _))).
  assert (Some x <> tptr D) by (apply tptr_notin; solve_fresh (rp_nodup _ _ _ R)).
  assert (Some p <> tptr U) by (apply tptr_notin; solve_fresh (rp_nodup _ _ _ R)).
  repeat read1.
  act (set_color_R _ _ _ _ _ _ _ _ _ RB_BLACK) R.
  act (set_color_focus _ _ _ _ _ _ RB_RED) R.
  act (rotate_left_focus _ _ _ _ _ _ _ _ _) R. eauto.
Qed.

Lemma insert_rotate_RL s k A p l x r g U fuel :
  represents s k (T RB_BLACK U g (T RB_RED (T RB_RED l x r) p A)) -> tcolor U = RB_BLACK ->
  exists s', rb_insert_color_loop (S fuel) (Some x) s = rb_insert_color_loop fuel (Some p) s' /\
    represents s' k (T RB_BLACK (T RB_RED U g l) x (T RB_RED r p A)).
Proof.
  intros R HU. cbn [rb_insert_color_loop].
  pose proof (rp_tree _ _ _ R) as (Hg & HrU & (Hp & (Hx & _) & HA)).
  assert (Some p <> tptr U) by (apply tptr_notin; solve_fresh (rp_nodup _ _ _ R)).
  repeat read1.
  destruct (rotate_right_R _ _ _ _ _ _ _ _ _ _ _ _ R) as (s1 & E & R1).
  erewrite RM_bind_eq; [|erewrite RM_bind_eq by exact E; reflexivity]. cbn beta iota. clear E.
  act (set_color_R _ _ _ _ _ _ _ _ _ RB_BLACK) R1.
  act (set_color_focus _ _ _ _ _ _ RB_RED) R1.
  act (rotate_left_focus _ _ _ _ _ _ _ _ _) R1. eauto.
Qed.

(** The loop restores the tree: the only red node that may have a red parent is
    the one in focus. *)
Definition insert_done (s : rb_store) (l : list loc) (m : RM unit) : Prop :=
  exists s' t n, m s = Some (tt, s') /\ represents s' [] t /\ elems t = l /\ rbt t n.

Lemma insert_done_stop s k c l x r n fuel :
  represents s k (T c l x r) -> (k = [] \/ kblack k) -> rbt (T c l x r) n -> rbk k n ->
  insert_done s (all_nodes k (T c l x r)) (rb_insert_color_loop (S fuel) (Some x)).
Proof.
  intros R Hk Ht Hr. destruct (rbt_plug k _ n Ht Hr) as (n' & Hn'); [done|].
  exists s, (plug k (T c l x r)), n'. split; [by eapply insert_stop|].
  rewrite <- nav_root. split_and!; [done|apply elems_plug|done].
Qed.

Lemma insert_done_step s s' l m m' : m s = m' s' -> insert_done s' l m' -> insert_done s l m.
Proof. unfold insert_done. intros ->. done. Qed.

(** Turn a focused red-black hypothesis into its parts, and build one. *)
Ltac rbt_inv := repeat match goal with H : rbt (T _ _ _ _) _ |- _ => inversion H; subst; clear H end; simpl in *; try done.
Ltac rbt_auto := repeat constructor; simpl; (assumption || done).

(** After a rotation the parent of the focus is black, and the loop stops. *)
Lemma insert_done_stop_L s k c l x r y t l0 fuel n :
  represents s k (T RB_BLACK (T c l x r) y t) -> rbt (T RB_BLACK (T c l x r) y t) n -> rbk k n ->
  l0 = all_nodes k (T RB_BLACK (T c l x r) y t) ->
  insert_done s l0 (rb_insert_color_loop (S fuel) (Some x)).
Proof.
  intros R Ht Hk ->. rewrite <- all_nodes_FL. rewrite nav_L in R.
  inversion Ht; subst. eapply insert_done_stop; [done|by right|done|done].
Qed.

Lemma insert_done_stop_R s k c l x r y t l0 fuel n :
  represents s k (T RB_BLACK t y (T c l x r)) -> rbt (T RB_BLACK t y (T c l x r)) n -> rbk k n ->
  l0 = all_nodes k (T RB_BLACK t y (T c l x r)) ->
  insert_done s l0 (rb_insert_color_loop (S fuel) (Some x)).
Proof.
  intros R Ht Hk ->. rewrite <- all_nodes_FR. rewrite nav_R in R.
  inversion Ht; subst. eapply insert_done_stop; [done|by right|done|done].
Qed.

(** The in-order list of the rewritten tree. *)
Ltac same_nodes := unfold all_nodes; cbn [elems kl kr]; repeat (rewrite <- ?app_assoc; cbn [app]); reflexivity.

Ltac insert_again IH R n :=
  eapply (IH _ _ _ _ _ (S n) R); [rbt_inv; rbt_auto|assumption|simpl in *; lia].

Ltac insert_finish n R :=
  first [eapply (insert_done_stop_L _ _ _ _ _ _ _ _ _ _ (S n) R)
        |eapply (insert_done_stop_R _ _ _ _ _ _ _ _ _ _ (S n) R)];
  [rbt_auto|assumption|same_nodes].

Lemma insert_loop fuel s k l x r n :
  represents s k (T RB_RED l x r) -> rbt (T RB_RED l x r) n -> rbk k n -> length k < fuel ->
  insert_done s (all_nodes k (T RB_RED l x r)) (rb_insert_color_loop fuel (Some x)).
Proof.
  revert s k l x r n. induction fuel as [|fuel IH]; intros s k l x r n R Ht Hk Hf; [lia|].
  destruct k as [|f k]; [eapply insert_done_stop; eauto|].
  destruct (fcolor f) eqn:Hc; [|eapply insert_done_stop; eauto].
  destruct fuel as [|fuel]; [simpl in Hf; lia|].
  assert (Hg : kblack k) by (destruct f as [[] ? ?|[] ? ?]; simpl in *; tauto || done).
  destruct k as [|g k]; [done|].
  destruct g as [cg g U|cg U g]; simpl in Hg; subst cg;
    destruct f as [cf p D|cf D p]; simpl in Hc; subst cf; simpl in Hk;
    destruct Hk as (HD & HDc & _ & HU & Hk); repeat rewrite ?all_nodes_FL, ?all_nodes_FR;
    rewrite <- ?nav_L, <- ?nav_R in R; rewrite <- ?nav_L, <- ?nav_R in R;
    inversion Ht; subst;
    (destruct (tcolor U) eqn:HUc; [destruct U as [|? ul u ur]; simpl in HUc; [done|subst]|]).
  - destruct (insert_recolor_L _ _ _ _ _ _ _ _ _ _ _ _ (S fuel) R (or_introl eq_refl)) as (s' & E1 & R').
    eapply insert_done_step; [exact E1|]. insert_again IH R' n.
  - destruct (insert_rotate_LL _ _ _ _ _ _ _ _ _ (S fuel) R HUc) as (s' & E1 & R').
    eapply insert_done_step; [exact E1|]. insert_finish n R'.
  - destruct (insert_recolor_L _ _ _ _ _ _ _ _ _ _ _ _ (S fuel) R (or_intror eq_refl)) as (s' & E1 & R').
    eapply insert_done_step; [exact E1|]. insert_again IH R' n.
  - destruct (insert_rotate_LR _ _ _ _ _ _ _ _ _ (S fuel) R HUc) as (s' & E1 & R').
    eapply insert_done_step; [exact E1|]. insert_finish n R'.
  - destruct (insert_recolor_R _ _ _ _ _ _ _ _ _ _ _ _ (S fuel) R (or_introl eq_refl)) as (s' & E1 & R').
    eapply insert_done_step; [exact E1|]. insert_again IH R' n.
  - destruct (insert_rotate_RL _ _ _ _ _ _ _ _ _ (S fuel) R HUc) as (s' & E1 & R').
    eapply insert_done_step; [exact E1|]. insert_finish n R'.
  - destruct (insert_recolor_R _ _ _ _ _ _ _ _ _ _ _ _ (S fuel) R (or_intror eq_refl)) as (s' & E1 & R').
    eapply insert_done_step; [exact E1|]. insert_again IH R' n.
  - destruct (insert_rotate_RR _ _ _ _ _ _ _ _ _ (S fuel) R HUc) as (s' & E1 & R').
    eapply insert_done_step; [exact E1|]. insert_finish n R'.
Qed.

(** The link through which a new node is attached at the empty place [k]. *)
Definition klink (k : context) : rb_link :=
  match k with [] => LinkRoot | FL _ _ _ :: _ => LinkLeft | FR _ _ _ :: _ => LinkRight end.

Lemma link_focus s k x :
  represents s k E -> is_Some (nodes s !! x) -> x ∉ all_nodes k E ->
  exists s', rb_link_node (Some x) (kparent k) (klink k) s = Some (tt, s') /\
    represents s' k (T RB_RED E x E).
Proof.
  intros [_ Hk Hn] (nx & Hx) Hnew.
  assert (Hn' : NoDup (all_nodes k (T RB_RED E x E))).
  { unfold all_nodes in *. simpl in *. apply NoDup_app in Hn as (Hl & Hlr & Hr).
    rewrite elem_of_app in Hnew. apply NoDup_app. split_and!; [done| |constructor; [tauto|done]].
    intros y Hy. rewrite elem_of_cons. intros [->|?]; [tauto|]. by apply (Hlr y). }
  unfold rb_link_node.
  destruct k as [|[c g t|c t g] k];
    [|destruct Hk as (Hg & Ht & Hk); rb_neq Hn'..]; cbn [kparent klink floc]; rb_exec;
    (eexists; split; [reflexivity|]; split; [| |exact Hn']); simpl; rb_frame Hn'.
Qed.

Lemma insert_color_focus s k x n :
  represents s k (T RB_RED E x E) -> rbk k n -> n = 0 ->
  exists s' t, rb_insert_color (Some x) s = Some (tt, s') /\ represents s' [] t /\ rb_tree t /\
    elems t = all_nodes k (T RB_RED E x E).
Proof.
  intros R Hk ->. pose proof (store_size _ _ _ R) as Hs.
  pose proof (length_all_nodes k (T RB_RED E x E)) as Hl. simpl in Hl.
  destruct (insert_loop (S (size (nodes s))) s k E x E 0 R) as (s1 & t & n' & E1 & R1 & He & Ht);
    [rbt_auto|done|lia|].
  unfold rb_insert_color. erewrite RM_bind_eq by reflexivity. bind E1.
  destruct t as [|c l y r].
  { exfalso. symmetry in He. unfold all_nodes in He. simpl in He. by apply app_eq_nil in He as [_ ?]. }
  erewrite RM_bind_eq by (unfold get_root; rewrite (rp_ctx _ _ _ R1); reflexivity).
  destruct (set_color_focus _ _ _ _ _ _ RB_BLACK R1) as (s2 & E2 & R2).
  exists s2, (T RB_BLACK l y r). split_and!; [done|done|by eapply rbt_blacken|done].
Qed.

(** What a user of the library does to insert: find the place, link, rebalance. *)
Definition rb_insert (node parent : ptr) (link : rb_link) : RM unit :=
  _ ← rb_link_node node parent link; rb_insert_color node.

Lemma rb_insert_ok s k x :
  represents s k E -> rb_tree (plug k E) -> is_Some (nodes s !! x) -> x ∉ all_nodes k E ->
  exists s' t, rb_insert (Some x) (kparent k) (klink k) s = Some (tt, s') /\
    represents s' [] t /\ rb_tree t /\ elems t = kl k ++ x :: kr k.
Proof.
  intros R [Hb (n & Hr)] Hx Hnew. destruct (rbt_unplug _ _ _ Hr Hb) as (n' & Hn & Hk & _).
  destruct (link_focus _ _ _ R Hx Hnew) as (s1 & E1 & R1).
  destruct (insert_color_focus _ _ _ n' R1 Hk) as (s2 & t & E2 & R2 & Ht & He); [by inversion Hn|].
  exists s2, t. split; [unfold rb_insert; by bind E1|done].
Qed.
