(* ===== verification/RbtreeErase.v ===== *)
(** Removal from a red-black tree: [__rb_erase_color] and [rb_erase] of
    [lib/rbtree.c] restore the red-black invariant and take exactly the given
    node out of the in-order sequence. *)
From Stdlib Require Import ZArith Lia.
From stdpp Require Import base list option gmap.
From S2P Require Import Prelude Rbtree RbtreeRep RbtreeBalance.

(** ** The repair loop *)

Definition blacken (t : tree) : tree := match t with E => E | T _ l x r => T RB_BLACK l x r end.

(** The subtree in focus is one black node short of what its context expects;
    a red one may break the rule on red nodes, since it is blackened at the end. *)
Definition short (k : context) (t : tree) : Prop :=
  exists n, rbk k (S n) /\
    match tcolor t with RB_BLACK => rbt t n | RB_RED => rbt (blacken t) (S n) end.

(** The node that [m] returns is at a focus whose blackening completes the tree. *)
Definition erase_done (s : rb_store) (l : list loc) (m : RM ptr) : Prop :=
  exists s' k t, m s = Some (tptr t, s') /\ represents s' k t /\ all_nodes k t = l /\
    rb_tree (plug k (blacken t)).

Lemma erase_done_step s s' l m m' : m s = m' s' -> erase_done s' l m' -> erase_done s l m.
Proof. unfold erase_done. intros ->. done. Qed.

Lemma elems_blacken t : elems (blacken t) = elems t.
Proof. by destruct t. Qed.

Lemma tcolor_blacken t : tcolor (blacken t) = RB_BLACK.
Proof. by destruct t. Qed.

(** A red frame is never the outermost one. *)
Lemma plug_black k t n : rbk k n -> k <> [] -> tcolor (plug k t) = RB_BLACK.
Proof.
  revert t n. induction k as [|f k IH]; intros t n Hk Hne; [done|].
  destruct k as [|f' k]; [destruct f as [[]|[]]; simpl in *; tauto|].
  destruct f as [[]|[]]; simpl in Hk; [eapply (IH (T _ _ _ _) n)|eapply (IH (T _ _ _ _) (S n))|
    eapply (IH (T _ _ _ _) n)|eapply (IH (T _ _ _ _) (S n))]; done || (simpl; tauto).
Qed.

Lemma rb_tree_plug k t n : rbt t n -> tcolor t = RB_BLACK -> rbk k n -> rb_tree (plug k t).
Proof.
  intros Ht Hc Hk. split.
  - destruct k as [|f k]; [done|]. by eapply plug_black.
  - eapply rbt_plug; [done|done|congruence].
Qed.

Lemma erase_done_root s t n :
  represents s [] t -> rbt t n -> erase_done s (elems t) get_root.
Proof.
  intros R Ht. exists s, [], t. split; [unfold get_root; by rewrite (rp_ctx _ _ _ R)|].
  split; [done|]. split; [unfold all_nodes; simpl; by rewrite app_nil_r|]. simpl.
  destruct t as [|c l x r]; [split; [done|by exists n]|by eapply rbt_blacken].
Qed.

(** The root of a tree is the focus only when the context is empty. *)
Lemma tptr_plug k t : k <> [] -> exists y, tptr (plug k t) = Some y /\ (y ∈ kl k \/ y ∈ kr k).
Proof.
  revert t. induction k as [|f k IH]; intros t Hne; [done|]. destruct k as [|f' k].
  - destruct f as [c x r|c l x]; simpl; exists x; (split; [done|]); [right; left|left].
    rewrite elem_of_app, list_elem_of_singleton. tauto.
  - destruct f as [c x r|c l x]; simpl in *.
    + destruct (IH (T c t x r)) as (y & Hy & Hin); [done|]. exists y. split; [done|].
      rewrite elem_of_cons, elem_of_app. tauto.
    + destruct (IH (T c l x t)) as (y & Hy & Hin); [done|]. exists y. split; [done|].
      rewrite !elem_of_app. tauto.
Qed.

Lemma root_ne_focus s k t : represents s k t -> k <> [] -> tptr t <> rb_root s.
Proof.
  intros R Hne. pose proof (rp_nodup _ _ _ R) as Hn. rewrite nav_root in R. rewrite (rp_ctx _ _ _ R).
  destruct (tptr_plug k t Hne) as (y & -> & Hin). intros Heq. symmetry in Heq. revert Heq. apply tptr_notin.
  intros Ht. pose proof (occ_NoDup y _ Hn) as Ho. apply occ_elem in Ht.
  occ_simpl Ho. destruct Hin as [Hin|Hin]; apply occ_elem in Hin; lia.
Qed.

(** The loop stops at a red node and at the root. *)
Lemma erase_stop s k t fuel :
  represents s k t -> short k t -> k = [] \/ tcolor t = RB_RED ->
  erase_done s (all_nodes k t) (rb_erase_color_loop (S fuel) (tptr t) (kparent k)).
Proof.
  intros R (n & Hk & Ht) Hstop. exists s, k, t. split; [|split; [done|split; [done|]]].
  - cbn [rb_erase_color_loop]. bind (is_black_tptr _ _ _ (rp_tree _ _ _ R)).
    erewrite RM_bind_eq by reflexivity. destruct Hstop as [->|Hr].
    + pose proof (rp_ctx _ _ _ R) as ->. rewrite (bool_decide_eq_false_2 (tptr t <> tptr t)) by tauto.
      by rewrite andb_false_r.
    + by rewrite Hr.
  - destruct (tcolor t) eqn:Hc.
    + eapply rb_tree_plug; [exact Ht|apply tcolor_blacken|done].
    + destruct Hstop as [->|?]; [|done]. destruct t as [|c l x r]; [split; [done|by exists n]|].
      by eapply rbt_blacken.
Qed.

(** A round with a black sibling [o] on the right: both its children are black,
    its right child is red, only its left child is red. *)
Lemma erase_left_black s k c N p ol o or' again :
  represents s k (T c N p (T RB_BLACK ol o or')) -> tcolor ol = RB_BLACK -> tcolor or' = RB_BLACK ->
  exists s', erase_color_left again (Some p) (Some o) s = again (Some p) (kparent k) s' /\
    represents s' k (T c N p (T RB_RED ol o or')).
Proof.
  intros R Hl Hr. unfold erase_color_left.
  pose proof (rp_tree _ _ _ R) as (Hp & _ & Ho & Hol & Hor).
  repeat read1. act (set_color_R _ _ _ _ _ _ _ _ _ RB_RED) R. bind (ld_focus _ _ _ _ _ _ R). eauto.
Qed.

Lemma erase_left_far s k c N p ol o a z b again :
  represents s k (T c N p (T RB_BLACK ol o (T RB_RED a z b))) ->
  exists s', erase_color_left again (Some p) (Some o) s = get_root s' /\
    represents s' k (T c (T RB_BLACK N p ol) o (T RB_BLACK a z b)).
Proof.
  intros R. unfold erase_color_left.
  pose proof (rp_tree _ _ _ R) as (Hp & _ & Ho & Hol & (Hz & _)).
  do 3 read1. rewrite andb_false_r. repeat read1.
  act (set_color_R _ _ _ _ _ _ _ _ _ c) R.
  act (set_color_focus _ _ _ _ _ _ RB_BLACK) R.
  rewrite nav_R in R. bind (ld_focus _ _ _ _ _ _ R). cbn [rb_right tptr when nonnull].
  act (set_color_R _ _ _ _ _ _ _ _ _ RB_BLACK) R.
  rewrite <- nav_R in R. act (rotate_left_focus _ _ _ _ _ _ _ _ _) R. eauto.
Qed.

Lemma erase_left_near s k c N p a z b o or' again :
  represents s k (T c N p (T RB_BLACK (T RB_RED a z b) o or')) -> tcolor or' = RB_BLACK ->
  exists s', erase_color_left again (Some p) (Some o) s = get_root s' /\
    represents s' k (T c (T RB_BLACK N p a) z (T RB_BLACK b o or')).
Proof.
  intros R Hr. unfold erase_color_left.
  pose proof (rp_tree _ _ _ R) as (Hp & _ & Ho & (Hz & _) & Hor).
  do 3 read1. repeat read1.
  rewrite nav_R in R. cbn [when nonnull].
  destruct (set_color_L _ _ _ _ _ _ _ _ _ RB_BLACK R) as (s1 & E1 & R1).
  destruct (set_color_focus _ _ _ _ _ _ RB_RED R1) as (s2 & E2 & R2).
  destruct (rotate_right_focus _ _ _ _ _ _ _ _ _ R2) as (s3 & E3 & R3).
  rewrite <- nav_R in R3.
  erewrite RM_bind_eq; [|bind E1; bind E2; bind E3; bind (ld_focus _ _ _ _ _ _ R3); reflexivity].
  cbn beta iota. cbn [rb_right tptr]. bind (ld_focus _ _ _ _ _ _ R3).
  act (set_color_R _ _ _ _ _ _ _ _ _ c) R3.
  act (set_color_focus _ _ _ _ _ _ RB_BLACK) R3.
  rewrite nav_R in R3. bind (ld_focus _ _ _ _ _ _ R3). cbn [rb_right tptr when nonnull].
  act (set_color_R _ _ _ _ _ _ _ _ _ RB_BLACK) R3.
  rewrite <- nav_R in R3. act (rotate_left_focus _ _ _ _ _ _ _ _ _) R3. eauto.
Qed.

(** The mirror images, for a sibling on the left. *)
Lemma erase_right_black s k c N p ol o or' again :
  represents s k (T c (T RB_BLACK ol o or') p N) -> tcolor ol = RB_BLACK -> tcolor or' = RB_BLACK ->
  exists s', erase_color_right again (Some p) (Some o) s = again (Some p) (kparent k) s' /\
    represents s' k (T c (T RB_RED ol o or') p N).
Proof.
  intros R Hl Hr. unfold erase_color_right.
  pose proof (rp_tree _ _ _ R) as (Hp & (Ho & Hol & Hor) & _).
  repeat read1. act (set_color_L _ _ _ _ _ _ _ _ _ RB_RED) R. bind (ld_focus _ _ _ _ _ _ R). eauto.
Qed.

Lemma erase_right_far s k c N p or' o a z b again :
  represents s k (T c (T RB_BLACK (T RB_RED a z b) o or') p N) ->
  exists s', erase_color_right again (Some p) (Some o) s = get_root s' /\
    represents s' k (T c (T RB_BLACK a z b) o (T RB_BLACK or' p N)).
Proof.
  intros R. unfold erase_color_right.
  pose proof (rp_tree _ _ _ R) as (Hp & (Ho & (Hz & _) & Hor) & _).
  repeat read1.
  act (set_color_L _ _ _ _ _ _ _ _ _ c) R.
  act (set_color_focus _ _ _ _ _ _ RB_BLACK) R.
  rewrite nav_L in R. bind (ld_focus _ _ _ _ _ _ R). cbn [rb_left tptr when nonnull].
  act (set_color_L _ _ _ _ _ _ _ _ _ RB_BLACK) R.
  rewrite <- nav_L in R. act (rotate_right_focus _ _ _ _ _ _ _ _ _) R. eauto.
Qed.

Lemma erase_right_near s k c N p a z b o ol again :
  represents s k (T c (T RB_BLACK ol o (T RB_RED a z b)) p N) -> tcolor ol = RB_BLACK ->
  exists s', erase_color_right again (Some p) (Some o) s = get_root s' /\
    represents s' k (T c (T RB_BLACK ol o a) z (T RB_BLACK b p N)).
Proof.
  intros R Hr. unfold erase_color_right.
  pose proof (rp_tree _ _ _ R) as (Hp & (Ho & Hol & (Hz & _)) & _).
  repeat read1.
  rewrite nav_L in R. cbn [when nonnull].
  destruct (set_color_R _ _ _ _ _ _ _ _ _ RB_BLACK R) as (s1 & E1 & R1).
  destruct (set_color_focus _ _ _ _ _ _ RB_RED R1) as (s2 & E2 & R2).
  destruct (rotate_left_focus _ _ _ _ _ _ _ _ _ R2) as (s3 & E3 & R3).
  rewrite <- nav_L in R3.
  erewrite RM_bind_eq; [|bind E1; bind E2; bind E3; bind (ld_focus _ _ _ _ _ _ R3); reflexivity].
  cbn beta iota. cbn [rb_left tptr]. bind (ld_focus _ _ _ _ _ _ R3).
  act (set_color_L _ _ _ _ _ _ _ _ _ c) R3.
  act (set_color_focus _ _ _ _ _ _ RB_BLACK) R3.
  rewrite nav_L in R3. bind (ld_focus _ _ _ _ _ _ R3). cbn [rb_left tptr when nonnull].
  act (set_color_L _ _ _ _ _ _ _ _ _ RB_BLACK) R3.
  rewrite <- nav_L in R3. act (rotate_right_focus _ _ _ _ _ _ _ _ _) R3. eauto.
Qed.

(** What the context of a node of colour [c] and black height [S n] with a short
    child knows. *)
Definition above (c : color) (k : context) (n : nat) : Prop :=
  match c with RB_RED => kblack k /\ rbk k (S n) | RB_BLACK => rbk k (S (S n)) end.

(** A finished round: the tree in focus has its full black height again. *)
Lemma erase_done_finish s k c l x r n l0 :
  represents s k (T c l x r) -> rbt l (S n) -> rbt r (S n) ->
  tcolor l = RB_BLACK -> tcolor r = RB_BLACK -> above c k n -> l0 = all_nodes k (T c l x r) ->
  erase_done s l0 get_root.
Proof.
  intros R Hl Hr Hlc Hrc Hk ->. rewrite nav_root in R. rewrite <- elems_plug.
  assert (exists n', rbt (plug k (T c l x r)) n') as (n' & Hn'); [|by eapply erase_done_root].
  destruct c; simpl in Hk; (eapply rbt_plug; [by constructor|..]); try tauto. done.
Qed.

(** A round that recolours leaves its focus short in the same way. *)
Lemma short_recolor c k N p ol o or' n :
  rbt N n -> tcolor N = RB_BLACK -> rbt ol n -> rbt or' n ->
  tcolor ol = RB_BLACK -> tcolor or' = RB_BLACK -> above c k n ->
  short k (T c N p (T RB_RED ol o or')) /\ short k (T c (T RB_RED ol o or') p N).
Proof.
  intros HN HNc Hl Hr Hlc Hrc Hk. destruct c; simpl in Hk.
  - split; exists n; (split; [tauto|]); simpl; by repeat constructor.
  - split; exists (S n); (split; [done|]); simpl; by repeat constructor.
Qed.

(** The next round, from a parent [p] that was of colour [c]. *)
Definition next_round (fuel : nat) (c : color) (k : context) : Prop :=
  forall s l p r, represents s k (T c l p r) -> short k (T c l p r) ->
    erase_done s (all_nodes k (T c l p r)) (rb_erase_color_loop fuel (Some p) (kparent k)).

Lemma erase_color_left_ok s k c N p ol o or' fuel n :
  represents s k (T c N p (T RB_BLACK ol o or')) ->
  rbt N n -> tcolor N = RB_BLACK -> rbt ol n -> rbt or' n -> above c k n -> next_round fuel c k ->
  erase_done s (all_nodes k (T c N p (T RB_BLACK ol o or')))
    (erase_color_left (rb_erase_color_loop fuel) (Some p) (Some o)).
Proof.
  intros R HN HNc Hl Hr Hk Hrec. destruct (tcolor or') eqn:Hrc; [|destruct (tcolor ol) eqn:Hlc].
  - destruct or' as [|? a z b]; simpl in Hrc; [done|subst]. inversion Hr; subst.
    destruct (erase_left_far _ _ _ _ _ _ _ _ _ _ (rb_erase_color_loop fuel) R) as (s' & E1 & R').
    eapply erase_done_step; [exact E1|]. eapply erase_done_finish; [exact R'|rbt_auto..|exact Hk|same_nodes].
  - destruct ol as [|? a z b]; simpl in Hlc; [done|subst]. inversion Hl; subst.
    destruct (erase_left_near _ _ _ _ _ _ _ _ _ _ (rb_erase_color_loop fuel) R Hrc) as (s' & E1 & R').
    eapply erase_done_step; [exact E1|]. eapply erase_done_finish; [exact R'|rbt_auto..|exact Hk|same_nodes].
  - destruct (erase_left_black _ _ _ _ _ _ _ _ (rb_erase_color_loop fuel) R Hlc Hrc) as (s' & E1 & R').
    eapply erase_done_step; [exact E1|]. apply (Hrec _ _ _ _ R'). by eapply short_recolor.
Qed.

Lemma erase_color_right_ok s k c N p ol o or' fuel n :
  represents s k (T c (T RB_BLACK ol o or') p N) ->
  rbt N n -> tcolor N = RB_BLACK -> rbt ol n -> rbt or' n -> above c k n -> next_round fuel c k ->
  erase_done s (all_nodes k (T c (T RB_BLACK ol o or') p N))
    (erase_color_right (rb_erase_color_loop fuel) (Some p) (Some o)).
Proof.
  intros R HN HNc Hl Hr Hk Hrec. destruct (tcolor ol) eqn:Hlc; [|destruct (tcolor or') eqn:Hrc].
  - destruct ol as [|? a z b]; simpl in Hlc; [done|subst]. inversion Hl; subst.
    destruct (erase_right_far _ _ _ _ _ _ _ _ _ _ (rb_erase_color_loop fuel) R) as (s' & E1 & R').
    eapply erase_done_step; [exact E1|]. eapply erase_done_finish; [exact R'|rbt_auto..|exact Hk|same_nodes].
  - destruct or' as [|? a z b]; simpl in Hrc; [done|subst]. inversion Hr; subst.
    destruct (erase_right_near _ _ _ _ _ _ _ _ _ _ (rb_erase_color_loop fuel) R Hlc) as (s' & E1 & R').
    eapply erase_done_step; [exact E1|]. eapply erase_done_finish; [exact R'|rbt_auto..|exact Hk|same_nodes].
  - destruct (erase_right_black _ _ _ _ _ _ _ _ (rb_erase_color_loop fuel) R Hlc Hrc) as (s' & E1 & R').
    eapply erase_done_step; [exact E1|]. apply (Hrec _ _ _ _ R'). by eapply short_recolor.
Qed.

(** Entering a round: the tests of the loop head, and the rotation that makes the
    sibling black. *)
Lemma erase_head s k f N fuel :
  represents s (f :: k) N -> tcolor N = RB_BLACK ->
  rb_erase_color_loop (S fuel) (tptr N) (Some (floc f)) s =
    (p ← ld (Some (floc f));
     if decide (rb_left p = tptr N) then
       let other := rb_right p in
       o ← ld other;
       other ← (if decide (rb_color o = RB_RED) then
                  _ ← set_color other RB_BLACK;
                  _ ← set_color (Some (floc f)) RB_RED;
                  _ ← __rb_rotate_left (Some (floc f));
                  p ← ld (Some (floc f)); mret (rb_right p)
                else mret other);
       erase_color_left (rb_erase_color_loop fuel) (Some (floc f)) other
     else
       let other := rb_left p in
       o ← ld other;
       other ← (if decide (rb_color o = RB_RED) then
                  _ ← set_color other RB_BLACK;
                  _ ← set_color (Some (floc f)) RB_RED;
                  _ ← __rb_rotate_right (Some (floc f));
                  p ← ld (Some (floc f)); mret (rb_left p)
                else mret other);
       erase_color_right (rb_erase_color_loop fuel) (Some (floc f)) other) s.
Proof.
  intros R HN. cbn [rb_erase_color_loop]. bind (is_black_tptr _ _ _ (rp_tree _ _ _ R)).
  erewrite RM_bind_eq by reflexivity. rewrite !bool_decide_eq_true_2; [done| |done].
  by apply (root_ne_focus _ _ _ R).
Qed.

Lemma erase_enter_left s k c N p ol o or' fuel :
  represents s k (T c N p (T RB_BLACK ol o or')) -> tcolor N = RB_BLACK ->
  rb_erase_color_loop (S fuel) (tptr N) (Some p) s =
    erase_color_left (rb_erase_color_loop fuel) (Some p) (Some o) s.
Proof.
  intros R HN. pose proof (proj1 (nav_L _ _ _ _ _ _) R) as RN. rewrite (erase_head _ _ _ _ _ RN HN).
  pose proof (rp_tree _ _ _ R) as (Hp & _ & Ho & _). cbn [floc]. by repeat read1.
Qed.

Lemma erase_enter_left_red s k N p c a z b o or' fuel :
  represents s k (T RB_BLACK N p (T RB_RED (T c a z b) o or')) -> tcolor N = RB_BLACK ->
  exists s', rb_erase_color_loop (S fuel) (tptr N) (Some p) s =
      erase_color_left (rb_erase_color_loop fuel) (Some p) (Some z) s' /\
    represents s' (FL RB_BLACK o or' :: k) (T RB_RED N p (T c a z b)).
Proof.
  intros R HN. pose proof (proj1 (nav_L _ _ _ _ _ _) R) as RN. rewrite (erase_head _ _ _ _ _ RN HN).
  pose proof (rp_tree _ _ _ R) as (Hp & _ & Ho & _). cbn [floc]. clear RN. repeat read1.
  destruct (set_color_R _ _ _ _ _ _ _ _ _ RB_BLACK R) as (s1 & E1 & R1).
  destruct (set_color_focus _ _ _ _ _ _ RB_RED R1) as (s2 & E2 & R2).
  destruct (rotate_left_focus _ _ _ _ _ _ _ _ _ R2) as (s3 & E3 & R3). rewrite nav_L in R3.
  erewrite RM_bind_eq; [|bind E1; bind E2; bind E3; bind (ld_focus _ _ _ _ _ _ R3); reflexivity]. eauto.
Qed.

Lemma erase_enter_right s k c N p ol o or' fuel :
  represents s k (T c (T RB_BLACK ol o or') p N) -> tcolor N = RB_BLACK ->
  rb_erase_color_loop (S fuel) (tptr N) (Some p) s =
    erase_color_right (rb_erase_color_loop fuel) (Some p) (Some o) s.
Proof.
  intros R HN. pose proof (proj1 (nav_R _ _ _ _ _ _) R) as RN. rewrite (erase_head _ _ _ _ _ RN HN).
  pose proof (rp_tree _ _ _ R) as (Hp & (Ho & _) & _). cbn [floc].
  assert (Some o <> tptr N) by (apply tptr_notin; solve_fresh (rp_nodup _ _ _ R)). by repeat read1.
Qed.

Lemma erase_enter_right_red s k N p c a z b o ol fuel :
  represents s k (T RB_BLACK (T RB_RED ol o (T c a z b)) p N) -> tcolor N = RB_BLACK ->
  exists s', rb_erase_color_loop (S fuel) (tptr N) (Some p) s =
      erase_color_right (rb_erase_color_loop fuel) (Some p) (Some z) s' /\
    represents s' (FR RB_BLACK ol o :: k) (T RB_RED (T c a z b) p N).
Proof.
  intros R HN. pose proof (proj1 (nav_R _ _ _ _ _ _) R) as RN. rewrite (erase_head _ _ _ _ _ RN HN).
  pose proof (rp_tree _ _ _ R) as (Hp & (Ho & _) & _). cbn [floc]. clear RN.
  assert (Some o <> tptr N) by (apply tptr_notin; solve_fresh (rp_nodup _ _ _ R)). repeat read1.
  destruct (set_color_L _ _ _ _ _ _ _ _ _ RB_BLACK R) as (s1 & E1 & R1).
  destruct (set_color_focus _ _ _ _ _ _ RB_RED R1) as (s2 & E2 & R2).
  destruct (rotate_right_focus _ _ _ _ _ _ _ _ _ R2) as (s3 & E3 & R3). rewrite nav_R in R3.
  erewrite RM_bind_eq; [|bind E1; bind E2; bind E3; bind (ld_focus _ _ _ _ _ _ R3); reflexivity]. eauto.
Qed.

(** A red parent ends the loop in its next round. *)
Lemma next_round_red fuel k : next_round (S fuel) RB_RED k.
Proof. intros s l p r R Hs. apply (erase_stop s k (T RB_RED l p r)); [done|done|by right]. Qed.

Lemma erase_round_left s k c N p O fuel n :
  represents s k (T c N p O) -> rbt N n -> tcolor N = RB_BLACK ->
  rbk (FL c p O :: k) (S n) -> next_round (S fuel) c k ->
  erase_done s (all_nodes k (T c N p O)) (rb_erase_color_loop (S (S fuel)) (tptr N) (Some p)).
Proof.
  intros R HN Hc Hk Hnext.
  assert (HO : rbt O (S n)) by (destruct c; simpl in Hk; tauto).
  assert (Hab : above c k n) by (destruct c; simpl in *; tauto).
  inversion HO as [|ol o or' ? Hl Hr Hlc Hrc|ol o or' ? Hl Hr]; subst.
  - destruct c; simpl in Hk; [naive_solver|]. inversion Hl as [| |a z b ? Ha Hb]; subst; [done|].
    destruct (erase_enter_left_red _ _ _ _ _ _ _ _ _ _ (S fuel) R Hc) as (s' & E1 & R').
    eapply erase_done_step; [exact E1|].
    replace (all_nodes k _) with (all_nodes (FL RB_BLACK o or' :: k) (T RB_RED N p (T RB_BLACK a z b)))
      by same_nodes.
    eapply erase_color_left_ok; [exact R'|done..| |apply next_round_red]. simpl. tauto.
  - eapply erase_done_step; [exact (erase_enter_left _ _ _ _ _ _ _ _ _ R Hc)|].
    by eapply erase_color_left_ok.
Qed.

Lemma erase_round_right s k c N p O fuel n :
  represents s k (T c O p N) -> rbt N n -> tcolor N = RB_BLACK ->
  rbk (FR c O p :: k) (S n) -> next_round (S fuel) c k ->
  erase_done s (all_nodes k (T c O p N)) (rb_erase_color_loop (S (S fuel)) (tptr N) (Some p)).
Proof.
  intros R HN Hc Hk Hnext.
  assert (HO : rbt O (S n)) by (destruct c; simpl in Hk; tauto).
  assert (Hab : above c k n) by (destruct c; simpl in *; tauto).
  inversion HO as [|ol o or' ? Hl Hr Hlc Hrc|ol o or' ? Hl Hr]; subst.
  - destruct c; simpl in Hk; [naive_solver|]. inversion Hr as [| |a z b ? Ha Hb]; subst; [done|].
    destruct (erase_enter_right_red _ _ _ _ _ _ _ _ _ _ (S fuel) R Hc) as (s' & E1 & R').
    eapply erase_done_step; [exact E1|].
    replace (all_nodes k _) with (all_nodes (FR RB_BLACK ol o :: k) (T RB_RED (T RB_BLACK a z b) p N))
      by same_nodes.
    eapply erase_color_right_ok; [exact R'|done..| |apply next_round_red]. simpl. tauto.
  - eapply erase_done_step; [exact (erase_enter_right _ _ _ _ _ _ _ _ _ R Hc)|].
    by eapply erase_color_right_ok.
Qed.

Lemma erase_loop fuel s k t :
  represents s k t -> short k t -> length k < fuel ->
  erase_done s (all_nodes k t) (rb_erase_color_loop fuel (tptr t) (kparent k)).
Proof.
  revert s k t. induction fuel as [|fuel IH]; intros s k t R Hs Hf; [lia|].
  destruct k as [|f k]; [apply erase_stop; tauto|].
  destruct (tcolor t) eqn:Hc; [apply erase_stop; tauto|]. simpl in Hf.
  destruct fuel as [|fuel]; [lia|].
  assert (Hnext : forall c, next_round (S fuel) c k).
  { intros c s' l p r R' Hs'. apply (IH s' k (T c l p r)); [done|done|lia]. }
  destruct Hs as (n & Hk & Ht). rewrite Hc in Ht.
  destruct f as [c p O|c O p].
  - rewrite all_nodes_FL. rewrite <- nav_L in R. by eapply erase_round_left.
  - rewrite all_nodes_FR. rewrite <- nav_R in R. by eapply erase_round_right.
Qed.

Lemma erase_color_focus s k t :
  represents s k t -> short k t ->
  exists s' t', __rb_erase_color (tptr t) (kparent k) s = Some (tt, s') /\
    represents s' [] t' /\ rb_tree t' /\ elems t' = all_nodes k t.
Proof.
  intros R Hs. pose proof (store_size _ _ _ R) as Hz. pose proof (length_all_nodes k t) as Hl.
  destruct (erase_loop (S (size (nodes s))) s k t R Hs) as (s1 & k1 & t1 & E1 & R1 & Hn1 & Hb1); [lia|].
  unfold __rb_erase_color. erewrite RM_bind_eq by reflexivity. bind E1.
  destruct t1 as [|c l x r].
  - exists s1, (plug k1 E). rewrite <- nav_root, elems_plug. done.
  - destruct (set_color_focus _ _ _ _ _ _ RB_BLACK R1) as (s2 & E2 & R2).
    exists s2, (plug k1 (T RB_BLACK l x r)). rewrite <- nav_root, elems_plug. done.
Qed.

(** ** Unlinking a node *)

(** A node with at most one child is replaced by that child. *)
Definition splice (parent node child : ptr) : RM unit :=
  _ ← when (nonnull child) (set_parent child parent); replace_child parent node child.

Lemma splice_focus s k c l x r ch :
  represents s k (T c l x r) -> (l = E /\ ch = r) \/ (r = E /\ ch = l) ->
  exists s', splice (kparent k) (Some x) (tptr ch) s = Some (tt, s') /\
    represents s' k ch /\ nodes s' !! x = Some (RbNode (kparent k) c (tptr r) (tptr l)).
Proof.
  intros [(Hx & Hl & Hr) Hk Hn] Hch. unfold splice.
  assert (Hch' : rep (nodes s) ch (Some x)) by naive_solver.
  assert (Hn' : NoDup (x :: all_nodes k ch)).
  { enough (x :: all_nodes k ch ≡ₚ all_nodes k (T c l x r)) as -> by done.
    unfold all_nodes. simpl. destruct Hch as [[-> ->]|[-> ->]]; simpl; rewrite <- ?app_assoc; simpl.
    - by rewrite Permutation_middle.
    - by rewrite <- Permutation_middle, (app_assoc _ (elems l)), <- Permutation_middle, <- app_assoc. }
  clear Hl Hr.
  rb_split_sub Hn' Hch' ch; rb_split_ctx Hn' Hk x k; rb_neq Hn'; cbn [tptr kparent floc]; rb_exec;
    repeat (first [rewrite decide_True by congruence | rewrite decide_False by congruence]; rb_exec);
    (eexists; split; [reflexivity|]; split; [|cbn [nodes]; repeat rb_step; reflexivity]);
    (split; [| |by apply NoDup_cons in Hn' as [_ ?]]); simpl; rb_frame Hn'.
Qed.

(** [new] takes the place of [old] (the field copies and re-linking of the
    two-children case). *)
Definition transplant (old new : ptr) : RM unit :=
  o ← ld old;
  _ ← set_parent new (rb_parent o);
  _ ← set_color new (rb_color o);
  _ ← set_right new (rb_right o);
  _ ← set_left new (rb_left o);
  _ ← replace_child (rb_parent o) old new;
  _ ← set_parent (rb_left o) new;
  when (nonnull (rb_right o)) (set_parent (rb_right o) new).

Lemma represents_insert s k t y n :
  represents s k t -> y ∉ all_nodes k t -> represents (RbStore (rb_root s) (<[y:=n]> (nodes s))) k t.
Proof.
  intros [Ht Hk Hn] Hy. unfold all_nodes in Hy. rewrite !elem_of_app in Hy.
  split; [apply rep_insert; [tauto|done]|apply repk_insert; tauto|done].
Qed.

Lemma rename_nodup k c l x r y :
  NoDup (y :: all_nodes k (T c l x r)) -> NoDup (all_nodes k (T c l y r)).
Proof.
  intros Hn. enough (y :: all_nodes k (T c l x r) ≡ₚ x :: all_nodes k (T c l y r)) as Hp
    by (rewrite Hp in Hn; by apply NoDup_cons in Hn as [_ ?]).
  unfold all_nodes. simpl. rewrite <- !app_assoc. simpl.
  rewrite !(app_assoc (kl k)), <- !Permutation_middle. apply perm_swap.
Qed.

(** Once its fields are copied, [new] only has to be linked in. *)
Lemma relink_focus s k c l x r y :
  represents s k (T c l x r) -> l <> E -> y ∉ all_nodes k (T c l x r) ->
  nodes s !! y = Some (RbNode (kparent k) c (tptr r) (tptr l)) ->
  exists s',
    (_ ← replace_child (kparent k) (Some x) (Some y);
     _ ← set_parent (tptr l) (Some y);
     when (nonnull (tptr r)) (set_parent (tptr r) (Some y))) s = Some (tt, s') /\
    represents s' k (T c l y r).
Proof.
  intros [(Hx & Hl & Hr) Hk Hn] Hne Hnew Hy.
  assert (Hn1 : NoDup (y :: all_nodes k (T c l x r))) by by constructor.
  assert (Hn2 : NoDup (all_nodes k (T c l y r))) by by apply (rename_nodup k c l x r y).
  destruct l as [|cl ll z lr]; [done|]. destruct Hl as (Hz & Hll & Hlr).
  rb_split_sub Hn1 Hr r; rb_split_ctx Hn1 Hk x k; rb_neq Hn1; cbn [tptr kparent floc]; rb_exec;
    repeat (first [rewrite decide_True by congruence | rewrite decide_False by congruence]; rb_exec);
    (eexists; split; [reflexivity|]); (split; [| |exact Hn2]); simpl; rb_frame Hn1.
Qed.

Lemma transplant_focus s k c l x r y :
  represents s k (T c l x r) -> l <> E -> is_Some (nodes s !! y) -> y ∉ all_nodes k (T c l x r) ->
  exists s', transplant (Some x) (Some y) s = Some (tt, s') /\ represents s' k (T c l y r).
Proof.
  intros R Hne (ny & Hy) Hnew. unfold transplant. bind (ld_focus _ _ _ _ _ _ R).
  cbn [rb_parent rb_color rb_right rb_left].
  destruct (relink_focus _ _ _ _ _ _ y
    (represents_insert _ _ _ y (RbNode (kparent k) c (tptr r) (tptr l)) R Hnew) Hne Hnew)
    as (s' & E1 & R'); [apply lookup_insert_eq|].
  exists s'. split; [|done]. rewrite <- E1.
  do 4 (erewrite RM_bind_eq by (rb_exec; reflexivity)). by rewrite !insert_insert_eq.
Qed.

(** ** [rb_erase] *)

Lemma RM_bind_inv {A B} (m : RM A) (k : A -> RM B) s r :
  (m ≫= k) s = Some r -> exists x s', m s = Some (x, s') /\ k x s' = Some r.
Proof.
  change (mbind k m s) with (match m s with Some (x, s') => k x s' | None => None end).
  destruct (m s) as [[x s']|]; [eauto|done].
Qed.

(** Run the commands of [m] in the order in which an equation [E : m s = Some _]
    says that they succeed. *)
Ltac unchain E :=
  repeat (let x := fresh "u" in let s := fresh "s" in let E1 := fresh "E" in
          apply RM_bind_inv in E as (x & s & E1 & E); cbn beta iota in E).

Lemma plug_app k k0 t : plug (k ++ k0) t = plug k0 (plug k t).
Proof. revert t. induction k as [|[] k IH]; intros t; simpl; [done|apply IH..]. Qed.

Lemma kl_app k k0 : kl (k ++ k0) = kl k0 ++ kl k.
Proof.
  induction k as [|[] k IH]; simpl; [by rewrite app_nil_r|done|]. by rewrite IH, <- !app_assoc.
Qed.

Lemma kr_app k k0 : kr (k ++ k0) = kr k ++ kr k0.
Proof. induction k as [|[] k IH]; simpl; [done| |done]. by rewrite IH, <- !app_assoc. Qed.

Lemma represents_app s k k0 t : represents s (k ++ k0) t <-> represents s k0 (plug k t).
Proof. by rewrite nav_root, plug_app, <- nav_root. Qed.

(** The successor of a node with a right child. *)
Lemma leftmost_focus t :
  t <> E -> exists k c y r, t = plug k (T c E y r) /\ kl k = [] /\
    forall s k0 fuel, represents s k0 t -> length k < fuel ->
      leftmost fuel (tptr t) s = Some (Some y, s).
Proof.
  induction t as [|c l IHl y r IHr]; intros Hne; [done|].
  destruct (decide (tptr l = None)) as [Hl|Hl].
  - destruct l; [|done]. exists [], c, y, r. split_and!; [done|done|].
    intros s k0 [|fuel] R Hf; [simpl in Hf; lia|]. cbn [leftmost]. by bind (ld_focus _ _ _ _ _ _ R).
  - destruct IHl as (k & cy & z & rz & Hl' & Hkl & Hrun); [by destruct l|].
    exists (k ++ [FL c y r]), cy, z, rz. rewrite plug_app, kl_app, Hkl, <- Hl', length_app. split_and!; [done..|].
    intros s k0 [|fuel] R Hf; simpl in Hf; [lia|]. cbn [leftmost tptr].
    bind (ld_focus _ _ _ _ _ _ R). cbn [rb_left]. rewrite nav_L in R.
    destruct (tptr l) eqn:Hp; [|done]. cbn [nonnull]. apply (Hrun s (FL c y r :: k0)); [done|lia].
Qed.

(** [rbk] does not depend on which nodes are on the path. *)
Lemma rbk_rename k0 c l x y k n : rbk (k0 ++ FR c l x :: k) n -> rbk (k0 ++ FR c l y :: k) n.
Proof.
  revert n. induction k0 as [|f k0 IH]; intros n; [destruct c; done|].
  assert (Hb : kblack (k0 ++ FR c l x :: k) -> kblack (k0 ++ FR c l y :: k)) by by destruct k0.
  destruct f as [[]|[]]; simpl; naive_solver.
Qed.

Lemma short_child k ch n : rbt ch n -> rbk k (S n) -> short k ch.
Proof.
  intros Hch Hk. exists n. split; [done|]. destruct (tcolor ch) eqn:Hc; [|done].
  inversion Hch; subst; [done| |done]. simpl. by constructor.
Qed.

(** Rebalancing after a node of colour [c] with the only child [ch] is gone. *)
Lemma unlink_balance s k c ch n :
  represents s k ch -> rbt ch n ->
  match c with RB_BLACK => rbk k (S n) | RB_RED => ch = E /\ k <> [] /\ rbk k n end ->
  exists s' t, (if decide (c = RB_BLACK) then __rb_erase_color (tptr ch) (kparent k) else mret tt) s = Some (tt, s') /\
    represents s' [] t /\ rb_tree t /\ elems t = all_nodes k ch.
Proof.
  intros R Hch Hk. destruct c; cbn.
  - destruct Hk as (-> & Hne & Hk). exists s, (plug k E). rewrite <- nav_root, elems_plug.
    split_and!; [done|done| |done]. by eapply rb_tree_plug.
  - by apply erase_color_focus, (short_child _ _ n).
Qed.

Lemma unlink_heights k c l x r ch :
  rb_tree (plug k (T c l x r)) -> (l = E /\ ch = r) \/ (r = E /\ ch = l) ->
  exists n, rbt ch n /\ match c with RB_BLACK => rbk k (S n) | RB_RED => ch = E /\ k <> [] /\ rbk k n end.
Proof.
  intros [Hb (n0 & Hr)] Hch. destruct (rbt_unplug _ _ _ Hr Hb) as (n & Ht & Hk & Hkb).
  inversion Ht as [|? ? ? ? Hl Hr' Hlc Hrc|? ? ? ? Hl Hr']; subst.
  - assert (n = 0) as -> by (destruct Hch as [[-> _]|[-> _]]; [by inversion Hl|by inversion Hr']).
    assert (ch = E) as -> by (destruct Hch as [[_ ->]|[_ ->]]; [by inversion Hr'; subst|by inversion Hl; subst]).
    exists 0. split_and!; [constructor|done| |done]. specialize (Hkb eq_refl). by destruct k.
  - destruct Hch as [[_ ->]|[_ ->]]; eauto.
Qed.

Definition erased (s : rb_store) (x : loc) (l : list loc) : Prop :=
  exists s' t, rb_erase (Some x) s = Some (tt, s') /\ represents s' [] t /\ rb_tree t /\ elems t = l.

Lemma erase_one_child s k c l x r ch :
  represents s k (T c l x r) -> rb_tree (plug k (T c l x r)) ->
  (l = E /\ ch = r) \/ (r = E /\ ch = l) -> erased s x (all_nodes k ch).
Proof.
  intros R Hb Hch. destruct (unlink_heights _ _ _ _ _ _ Hb Hch) as (n & Hn & Hk).
  destruct (splice_focus _ _ _ _ _ _ _ R Hch) as (s1 & E1 & R1 & _).
  destruct (unlink_balance _ _ _ _ _ R1 Hn Hk) as (s2 & t & E2 & HR).
  exists s2, t. split; [|done]. unfold rb_erase. bind (ld_focus _ _ _ _ _ _ R).
  cbn [rb_left rb_right rb_parent rb_color]. unfold splice in E1. unchain E1.
  assert (nonnull (tptr l) && nonnull (tptr r) = false /\
    (if nonnull (tptr l) then tptr l else tptr r) = tptr ch) as (-> & ->).
  { destruct Hch as [[-> ->]|[-> ->]]; [done|]. by destruct l. }
  bind E. by bind E1.
Qed.

(** The parent from which to rebalance when the successor [y] of [x] moves up. *)
Lemma successor_parent s k0 c l x k t y :
  represents s (k0 ++ FR c l x :: k) t ->
  (if decide (kparent (k0 ++ FR c l x :: k) = Some x) then Some y else kparent (k0 ++ FR c l x :: k)) =
  kparent (k0 ++ FR c l y :: k).
Proof.
  intros R. destruct k0 as [|f k0]; simpl; [by rewrite decide_True|].
  pose proof (rp_nodup _ _ _ R) as Hn. unfold all_nodes in Hn. rewrite kl_app, kr_app in Hn.
  rewrite decide_False; [done|]. enough (floc f <> x) by congruence. destruct f; simpl in *; solve_fresh Hn.
Qed.

(** A node with two children: its successor is unlinked and takes its place. *)
Lemma erase_two_children s k c l x r :
  represents s k (T c l x r) -> rb_tree (plug k (T c l x r)) -> l <> E -> r <> E ->
  erased s x (kl k ++ elems l ++ elems r ++ kr k).
Proof.
  intros R Hb Hl Hr. destruct (leftmost_focus r Hr) as (k0 & cy & y & ry & Hr0 & Hkl & Hrun).
  pose proof (proj1 (nav_R _ _ _ _ _ _) R) as RR.
  pose proof (store_size _ _ _ R) as Hz.
  assert (Hf : length k0 < S (size (nodes s))).
  { pose proof (length_all_nodes k (T c l x r)) as H1. simpl in H1. rewrite length_app in H1. simpl in H1.
    pose proof (length_all_nodes k0 (T cy E y ry)) as H2. rewrite <- elems_plug, <- Hr0 in H2. lia. }
  pose proof (Hrun _ _ _ RR Hf) as Elm.
  rewrite Hr0 in RR, Hb. rewrite <- represents_app in RR.
  assert (Hb' : rb_tree (plug (k0 ++ FR c l x :: k) (T cy E y ry))) by by rewrite plug_app.
  destruct (unlink_heights _ _ _ _ _ ry Hb') as (n & Hn & Hk); [by left|].
  destruct (splice_focus _ _ _ _ _ _ ry RR) as (s1 & E1 & R1 & Hy); [by left|].
  assert (Hfresh : y ∉ all_nodes (k0 ++ FR c l x :: k) ry).
  { pose proof (rp_nodup _ _ _ RR) as Hnd. solve_fresh Hnd. }
  rewrite represents_app, <- nav_R in R1.
  destruct (transplant_focus _ _ _ _ _ _ y R1 Hl) as (s2 & E2 & R2); [by eexists| |].
  { by rewrite <- all_nodes_FR, <- elems_plug, <- plug_app, elems_plug. }
  rewrite nav_R, <- represents_app in R2.
  destruct (unlink_balance s2 _ cy ry n R2 Hn) as (s3 & t & E3 & R3 & Ht & He).
  { destruct cy; [destruct Hk as (-> & _ & Hk)|]; [|by eapply rbk_rename].
    split_and!; [done|by destruct k0|by eapply rbk_rename]. }
  exists s3, t. split; [|split_and!; [done|done|]].
  - unfold rb_erase. bind (ld_focus _ _ _ _ _ _ R). cbn [rb_left rb_right rb_parent rb_color].
    destruct (tptr l) eqn:Hpl; [|by destruct l]. destruct (tptr r) eqn:Hpr; [|by destruct r].
    cbn [nonnull andb]. erewrite RM_bind_eq by reflexivity. bind Elm. bind (ld_focus _ _ _ _ _ _ RR).
    cbn [rb_left rb_right rb_parent rb_color]. unfold splice in E1. unchain E1. bind E. bind E1.
    bind (ld_eq _ _ _ Hy). cbn [rb_parent]. unfold transplant in E2.
    unchain E2. bind E0. bind E4. bind E5. bind E6. bind E7. bind E8. bind E9. bind E2.
    by rewrite (successor_parent _ _ _ _ _ _ _ _ RR).
  - rewrite He, Hr0, elems_plug. unfold all_nodes. rewrite kl_app, kr_app, Hkl. simpl.
    by rewrite app_nil_r, <- !app_assoc.
Qed.

Lemma rb_erase_ok s k c l x r :
  represents s k (T c l x r) -> rb_tree (plug k (T c l x r)) ->
  erased s x (kl k ++ elems l ++ elems r ++ kr k).
Proof.
  intros R Hb. destruct l as [|cl ll z lr] eqn:Hl.
  - eapply (erase_one_child _ _ _ _ _ _ r R Hb). by left.
  - destruct r as [|] eqn:Hr; [|by eapply erase_two_children].
    eapply (erase_one_child _ _ _ _ _ _ _ R Hb). by right.
Qed.

(** Being red-black does not depend on the nodes, only on colours and shape. *)
Lemma rb_tree_rename k c l x y r : rb_tree (plug k (T c l x r)) -> rb_tree (plug k (T c l y r)).
Proof.
  intros [Hb (n & Hr)]. destruct (rbt_unplug _ _ _ Hr Hb) as (n' & Ht & Hk & Hkb).
  assert (Ht' : rbt (T c l y r) n') by (inversion Ht; subst; by constructor).
  split; [|eapply rbt_plug; [exact Ht'|done|intros; right; auto]].
  destruct k; [by simpl in *|by eapply plug_black].
Qed.
