(* ===== verification/RbtreeSpec.v ===== *)
(** The contract of [lib/rbtree.c]: insertion, removal, traversal and replacement
    of nodes, with the logarithmic bound on the loops. *)
From Stdlib Require Import ZArith Lia.
From stdpp Require Import base list option gmap.
From S2P Require Import Prelude Rbtree RbtreeRep RbtreeBalance RbtreeErase.

(** ** Traversal *)

Lemma leftmost_ok s k t fuel :
  represents s k t -> t <> E -> size (nodes s) < fuel -> leftmost fuel (tptr t) s = Some (head (elems t), s).
Proof.
  intros R Hne Hf. destruct (leftmost_focus t Hne) as (k0 & c & y & r & Ht & Hkl & Hrun).
  assert (Hh : head (elems t) = Some y) by (rewrite Ht, elems_plug; unfold all_nodes; by rewrite Hkl).
  rewrite Hh. apply (Hrun s k); [done|].
  pose proof (store_size _ _ _ R) as Hz. pose proof (length_all_nodes k t) as H1.
  pose proof (length_all_nodes k0 (T c E y r)) as H2. rewrite <- elems_plug, <- Ht in H2. lia.
Qed.

Lemma last_app_cons {A} (l1 l2 : list A) x : last (l1 ++ x :: l2) = last (x :: l2).
Proof. rewrite last_app. destruct (last (x :: l2)) eqn:Hl; [done|]. by apply last_None in Hl. Qed.

Lemma rightmost_ok s k t fuel :
  represents s k t -> t <> E -> size (nodes s) < fuel + length k ->
  rightmost fuel (tptr t) s = Some (last (elems t), s).
Proof.
  revert k fuel. induction t as [|c l IHl y r IHr]; intros k fuel R Hne Hf; [done|].
  assert (Hk : length k < size (nodes s)).
  { pose proof (store_size _ _ _ R). pose proof (length_all_nodes k (T c l y r)) as H1. simpl in H1.
    rewrite length_app in H1. simpl in H1. lia. }
  destruct fuel as [|fuel]; [lia|]. cbn [rightmost tptr]. bind (ld_focus _ _ _ _ _ _ R). cbn [rb_right].
  destruct r as [|cr rl z rr].
  - simpl. by rewrite last_app_cons.
  - rewrite nav_R in R. cbn [tptr nonnull]. change (Some z) with (tptr (T cr rl z rr)).
    erewrite (IHr _ _ R); [|done|simpl; lia]. cbn [elems]. do 2 f_equal.
    rewrite (last_app_cons (elems l)), !last_app_cons. symmetry. apply (last_app_cons (y :: elems rl)).
Qed.

Lemma climb_right_ok s k c l x r fuel :
  represents s k (T c l x r) -> length k < fuel -> climb_right fuel (Some x) s = Some (head (kr k), s).
Proof.
  revert c l x r fuel. induction k as [|f k IH]; intros c l x r [|fuel] R Hf; simpl in Hf; try lia;
    cbn [climb_right]; bind (ld_focus _ _ _ _ _ _ R); cbn [rb_parent kparent nonnull]; [done|].
  pose proof (rp_nodup _ _ _ R) as Hn.
  destruct f as [c0 p u|c0 u p]; rewrite <- ?nav_L, <- ?nav_R in R; cbn [floc];
    bind (ld_focus _ _ _ _ _ _ R); cbn [rb_right tptr kr head].
  - rewrite decide_False; [done|]. apply tptr_notin. solve_fresh Hn.
  - rewrite decide_True by done. apply (IH _ _ _ _ _ R). lia.
Qed.

Lemma last_snoc_app {A} (l1 l2 : list A) x : last (l1 ++ l2 ++ [x]) = Some x.
Proof. by rewrite app_assoc, last_snoc. Qed.

Lemma climb_left_ok s k c l x r fuel :
  represents s k (T c l x r) -> length k < fuel -> climb_left fuel (Some x) s = Some (last (kl k), s).
Proof.
  revert c l x r fuel. induction k as [|f k IH]; intros c l x r [|fuel] R Hf; simpl in Hf; try lia;
    cbn [climb_left]; bind (ld_focus _ _ _ _ _ _ R); cbn [rb_parent kparent nonnull]; [done|].
  pose proof (rp_nodup _ _ _ R) as Hn.
  destruct f as [c0 p u|c0 u p]; rewrite <- ?nav_L, <- ?nav_R in R; cbn [floc];
    bind (ld_focus _ _ _ _ _ _ R); cbn [rb_left tptr kl].
  - rewrite decide_True by done. apply (IH _ _ _ _ _ R). lia.
  - rewrite decide_False; [by rewrite last_snoc_app|]. apply tptr_notin. solve_fresh Hn.
Qed.

(** [rb_first] and [rb_last] return the ends of the in-order sequence, and
    [rb_next] and [rb_prev] return the in-order neighbours of a node ([NULL] at
    the ends); none of them changes the tree, and all of them terminate. *)
Theorem rb_traversal_in_order s k c l x r :
  represents s k (T c l x r) ->
  rb_first s = Some (head (all_nodes k (T c l x r)), s) /\
  rb_last s = Some (last (all_nodes k (T c l x r)), s) /\
  rb_next (Some x) s = Some (head (elems r ++ kr k), s) /\
  rb_prev (Some x) s = Some (last (kl k ++ elems l), s).
Proof.
  intros R. pose proof (store_size _ _ _ R) as Hz. pose proof (length_all_nodes k (T c l x r)) as Hl.
  simpl in Hl. rewrite length_app in Hl. simpl in Hl.
  pose proof (proj1 (nav_root _ _ _) R) as R0. pose proof (rp_ctx _ _ _ R0) as Hroot. simpl in Hroot.
  assert (Hne : plug k (T c l x r) <> E).
  { intros He. pose proof (elems_plug k (T c l x r)) as Hp. rewrite He in Hp. simpl in Hp.
    rewrite <- Hp in Hl. simpl in Hl. lia. }
  rewrite <- elems_plug.
  unfold rb_first, rb_last, rb_next, rb_prev. rewrite !(RM_bind_eq _ _ _ _ _ (ld_focus _ _ _ _ _ _ R)).
  do 4 (erewrite RM_bind_eq by reflexivity). rewrite Hroot. cbn [rb_right rb_left].
  destruct (tptr (plug k (T c l x r))) eqn:Hp; [|by destruct (plug k (T c l x r))]. cbn [nonnull].
  do 2 (erewrite RM_bind_eq by reflexivity). rewrite <- Hp. split_and!.
  - eapply leftmost_ok; [exact R0|done|lia].
  - eapply rightmost_ok; [exact R0|done|simpl; lia].
  - destruct r as [|cr rl z rr]; cbn [tptr nonnull].
    + eapply climb_right_ok; [exact R|lia].
    + rewrite nav_R in R. change (Some z) with (tptr (T cr rl z rr)).
      rewrite (leftmost_ok _ _ _ _ R) by (done || lia). simpl. by destruct (elems rl).
  - destruct l as [|cl ll z lr]; cbn [tptr nonnull].
    + rewrite app_nil_r. eapply climb_left_ok; [exact R|lia].
    + rewrite nav_L in R. change (Some z) with (tptr (T cl ll z lr)).
      rewrite (rightmost_ok _ _ _ _ R) by (done || simpl; lia). simpl.
      by rewrite app_assoc, !last_app_cons.
Qed.

(** ** Replacement *)

Lemma replace_focus s k c l x r y :
  represents s k (T c l x r) -> is_Some (nodes s !! y) -> y ∉ all_nodes k (T c l x r) ->
  exists s', rb_replace_node (Some x) (Some y) s = Some (tt, s') /\ represents s' k (T c l y r).
Proof.
  intros [(Hx & Hl & Hr) Hk Hn] (ny & Hy) Hnew. unfold rb_replace_node.
  assert (Hn1 : NoDup (y :: all_nodes k (T c l x r))) by by constructor.
  assert (Hn2 : NoDup (all_nodes k (T c l y r))) by by apply (rename_nodup k c l x r y).
  rb_split_sub Hn1 Hl l; rb_split_sub Hn1 Hr r; rb_split_ctx Hn1 Hk x k; rb_neq Hn1;
    cbn [tptr kparent floc]; rb_exec;
    repeat (first [rewrite decide_True by congruence | rewrite decide_False by congruence]; rb_exec);
    (eexists; split; [reflexivity|]); (split; [| |exact Hn2]); simpl; rb_frame Hn1.
Qed.

(** ** Height *)

Fixpoint height (t : tree) : nat :=
  match t with E => 0 | T _ l _ r => S (Nat.max (height l) (height r)) end.

Lemma rbt_size t n : rbt t n -> 2 ^ n <= S (length (elems t)).
Proof.
  induction 1 as [|l x r n _ IHl _ IHr _ _|l x r n _ IHl _ IHr]; simpl; [lia|..];
    rewrite length_app; simpl; lia.
Qed.

Lemma rbt_height t n :
  rbt t n -> height t <= 2 * n + match tcolor t with RB_RED => 1 | RB_BLACK => 0 end.
Proof.
  induction 1 as [|l x r n _ IHl _ IHr Hl Hr|l x r n _ IHl _ IHr]; simpl in *; [lia|..].
  - rewrite Hl, Hr in *. lia.
  - destruct (tcolor l), (tcolor r); lia.
Qed.

Lemma height_plug k t : length k + height t <= height (plug k t).
Proof.
  revert t. induction k as [|[c x r|c l x] k IH]; intros t; simpl; [lia|..].
  - pose proof (IH (T c t x r)) as H. simpl in H. lia.
  - pose proof (IH (T c l x t)) as H. simpl in H. lia.
Qed.

Lemma rb_tree_height t : rb_tree t -> height t <= 2 * Nat.log2 (S (length (elems t))).
Proof.
  intros [Hc (n & Ht)]. pose proof (rbt_height _ _ Ht) as Hh. rewrite Hc in Hh.
  pose proof (Nat.log2_le_mono _ _ (rbt_size _ _ Ht)) as Hs. rewrite Nat.log2_pow2 in Hs by lia. lia.
Qed.

Lemma path_log k t : rb_tree (plug k t) -> length k <= 2 * Nat.log2 (S (length (all_nodes k t))).
Proof.
  intros Hb. pose proof (rb_tree_height _ Hb). pose proof (height_plug k t). rewrite <- elems_plug. lia.
Qed.

(** ** The contract *)

(** C16. Linking a new node at an empty place of a red-black tree and calling
    [rb_insert_color] gives a red-black tree again, with the new node at that
    place of the in-order sequence and every other node where it was. *)
Theorem rb_insert_correct s k x :
  represents s k E -> rb_tree (plug k E) -> is_Some (nodes s !! x) -> x ∉ all_nodes k E ->
  exists s' t, rb_insert (Some x) (kparent k) (klink k) s = Some (tt, s') /\
    represents s' [] t /\ rb_tree t /\ elems t = kl k ++ x :: kr k.
Proof. apply rb_insert_ok. Qed.

(** C17. [rb_erase] of any node of a red-black tree gives a red-black tree again,
    whose in-order sequence is the old one without that node. *)
Theorem rb_erase_correct s k c l x r :
  represents s k (T c l x r) -> rb_tree (plug k (T c l x r)) ->
  exists s' t, rb_erase (Some x) s = Some (tt, s') /\
    represents s' [] t /\ rb_tree t /\ elems t = (kl k ++ elems l) ++ elems r ++ kr k.
Proof. rewrite <- app_assoc. apply rb_erase_ok. Qed.

(** [rb_replace_node] puts the new node in the place of the victim: same
    shape, same colours, so the tree stays red-black without any rebalancing. *)
Theorem rb_replace_correct s k c l x r y :
  represents s k (T c l x r) -> rb_tree (plug k (T c l x r)) ->
  is_Some (nodes s !! y) -> y ∉ all_nodes k (T c l x r) ->
  exists s', rb_replace_node (Some x) (Some y) s = Some (tt, s') /\
    represents s' [] (plug k (T c l y r)) /\ rb_tree (plug k (T c l y r)).
Proof.
  intros R Hb Hy Hnew. destruct (replace_focus _ _ _ _ _ _ _ R Hy Hnew) as (s' & E1 & R').
  exists s'. split; [done|]. rewrite <- nav_root. split; [done|]. by apply (rb_tree_rename k c l x).
Qed.

(** C18. The loops climb at most the height of the tree, twice the logarithm of
    its size: [rb_insert_color] after a link, and [__rb_erase_color] after a
    black node with at most one child was unlinked, end within that many rounds. *)
Theorem rb_loops_logarithmic s k :
  (forall x, represents s k (T RB_RED E x E) -> rb_tree (plug k E) ->
    exists s', rb_insert_color_loop (S (2 * Nat.log2 (S (length (all_nodes k E))))) (Some x) s = Some (tt, s')) /\
  (forall l x r ch, represents s k ch -> rb_tree (plug k (T RB_BLACK l x r)) ->
    (l = E /\ ch = r) \/ (r = E /\ ch = l) ->
    exists p s', rb_erase_color_loop (S (2 * Nat.log2 (S (length (all_nodes k (T RB_BLACK l x r))))))
      (tptr ch) (kparent k) s = Some (p, s')).
Proof.
  split.
  - intros x R Hb. pose proof (path_log _ _ Hb). destruct Hb as [Hb (n & Hr)].
    destruct (rbt_unplug _ _ _ Hr Hb) as (n' & Hn & Hk & _). inversion Hn; subst.
    edestruct (insert_loop (S (2 * Nat.log2 (S (length (all_nodes k E)))))) as (s' & ? & ? & -> & _);
      [exact R|by repeat constructor|done|lia|eauto].
  - intros l x r ch R Hb Hch. pose proof (path_log _ _ Hb).
    destruct (unlink_heights _ _ _ _ _ _ Hb Hch) as (n & Hn & Hk).
    edestruct (erase_loop (S (2 * Nat.log2 (S (length (all_nodes k (T RB_BLACK l x r))))))) as (s' & ? & ? & -> & _);
      [exact R|by apply (short_child _ _ n)|lia|eauto].
Qed.

(** ** Instances *)

(** A tree with the nodes 1, 2, 3 and two nodes 4 and 5 that are not linked. *)
Definition demo_tree : tree := T RB_BLACK (T RB_RED E 1 E) 2 (T RB_RED E 3 E).

Definition demo_store : rb_store :=
  RbStore (Some 2%positive)
    (list_to_map
       [(1%positive, RbNode (Some 2%positive) RB_RED None None);
        (2%positive, RbNode None RB_BLACK (Some 3%positive) (Some 1%positive));
        (3%positive, RbNode (Some 2%positive) RB_RED None None);
        (4%positive, RbNode None RB_BLACK None None);
        (5%positive, RbNode None RB_BLACK None None)]).

Definition demo_hole : context := [FR RB_RED E 3; FR RB_BLACK (T RB_RED E 1 E) 2].

Lemma demo_represents : represents demo_store [] demo_tree.
Proof.
  split; [by vm_compute|by vm_compute|].
  apply (bool_decide_unpack _). by vm_compute.
Qed.

Lemma demo_rb_tree : rb_tree demo_tree.
Proof. split; [done|]. exists 1. by repeat constructor. Qed.

Lemma rb_traversal_in_order_witness :
  rb_next (Some 2%positive) demo_store = Some (Some 3%positive, demo_store) /\
  rb_prev (Some 2%positive) demo_store = Some (Some 1%positive, demo_store).
Proof.
  pose proof (rb_traversal_in_order demo_store [] RB_BLACK (T RB_RED E 1 E) 2 (T RB_RED E 3 E)
    demo_represents) as (_ & _ & Hn & Hp).
  split; [exact Hn|exact Hp].
Defined.

Lemma rb_insert_correct_witness :
  exists s' t, rb_insert (Some 4%positive) (Some 3%positive) LinkRight demo_store = Some (tt, s') /\
    represents s' [] t /\ rb_tree t /\ elems t = [1; 2; 3; 4]%positive.
Proof.
  apply (rb_insert_correct demo_store demo_hole 4).
  - apply nav_root. exact demo_represents.
  - exact demo_rb_tree.
  - eexists. by vm_compute.
  - apply (bool_decide_unpack _). by vm_compute.
Defined.

Lemma rb_erase_correct_witness :
  exists s' t, rb_erase (Some 2%positive) demo_store = Some (tt, s') /\
    represents s' [] t /\ rb_tree t /\ elems t = [1; 3]%positive.
Proof.
  exact (rb_erase_correct demo_store [] _ _ _ _ demo_represents demo_rb_tree).
Defined.

Lemma rb_replace_correct_witness :
  exists s', rb_replace_node (Some 2%positive) (Some 5%positive) demo_store = Some (tt, s') /\
    represents s' [] (T RB_BLACK (T RB_RED E 1 E) 5 (T RB_RED E 3 E)) /\
    rb_tree (T RB_BLACK (T RB_RED E 1 E) 5 (T RB_RED E 3 E)).
Proof.
  apply (rb_replace_correct demo_store [] RB_BLACK _ 2 _ 5 demo_represents demo_rb_tree).
  - eexists. by vm_compute.
  - apply (bool_decide_unpack _). by vm_compute.
Defined.

(** A new red node 2 linked under the root 1; a node 2 left alone at the root. *)
Definition linked_store : rb_store :=
  RbStore (Some 1%positive)
    (list_to_map [(1%positive, RbNode None RB_BLACK None (Some 2%positive));
                  (2%positive, RbNode (Some 1%positive) RB_RED None None)]).

Definition alone_store : rb_store :=
  RbStore (Some 2%positive) (list_to_map [(2%positive, RbNode None RB_RED None None)]).

Lemma rb_loops_logarithmic_witness :
  (exists s', rb_insert_color_loop 3 (Some 2%positive) linked_store = Some (tt, s')) /\
  (exists p s', rb_erase_color_loop 3 (Some 2%positive) None alone_store = Some (p, s')).
Proof.
  split.
  - apply (proj1 (rb_loops_logarithmic linked_store [FL RB_BLACK 1 E]) 2%positive).
    + split; [by vm_compute..|]. apply (bool_decide_unpack _). by vm_compute.
    + split; [done|]. exists 1. by repeat constructor.
  - apply (proj2 (rb_loops_logarithmic alone_store []) E 1%positive (T RB_RED E 2 E) (T RB_RED E 2 E)).
    + split; [by vm_compute..|]. apply (bool_decide_unpack _). by vm_compute.
    + split; [done|]. exists 1. by repeat constructor.
    + by left.
Defined.
