(* ===== verification/Bytes.v ===== *)
(** Byte strings and the little-endian words in them: the [le32_to_cpu] and
    [cpu_to_le32] accesses of [crypto/] and [lib/]. *)
From Stdlib Require Import ZArith Lia.
From stdpp Require Import base numbers list list_numbers option.
From S2P Require Import Prelude.

Local Open Scope Z_scope.

Abbreviation bytes := (list Z).

(** A string of [n] bytes. *)
Definition is_bytes (n : nat) (b : bytes) : Prop := length b = n /\ Forall is_u8 b.

Global Instance is_bytes_dec n b : Decision (is_bytes n b).
Proof. unfold is_bytes. apply _. Defined.

(** ** Little-endian words *)

Fixpoint le_word (b : bytes) : Z :=
  match b with [] => 0 | x :: b => x + 2^8 * le_word b end.

Fixpoint le_bytes (n : nat) (x : Z) : bytes :=
  match n with O => [] | S n => u8 x :: le_bytes n (x / 2^8) end.

(** [u32_in(b + off)] and what [u32_out(to, x)] stores. *)
Definition u32_in (b : bytes) (off : nat) : Z := le_word (take 4 (drop off b)).
Definition u32_out (x : Z) : bytes := le_bytes 4 x.

Lemma length_le_bytes n x : length (le_bytes n x) = n.
Proof. revert x. induction n as [|n IH]; intros x; simpl; [done|]. by rewrite IH. Qed.

Lemma le_bytes_ok n x : is_bytes n (le_bytes n x).
Proof.
  split; [apply length_le_bytes|]. revert x. induction n as [|n IH]; intros x; simpl; constructor; auto with kern.
Qed.

Lemma le_word_range b : Forall is_u8 b -> 0 <= le_word b < 2 ^ (8 * Z.of_nat (length b)).
Proof.
  induction 1 as [|x b Hx Hb IH]; simpl; [lia|]. unfold is_u8 in Hx.
  rewrite Nat2Z.inj_succ, Z.mul_succ_r, Z.pow_add_r by lia. lia.
Qed.

Lemma le_word_bytes n x : 0 <= x < 2 ^ (8 * Z.of_nat n) -> le_word (le_bytes n x) = x.
Proof.
  revert x. induction n as [|n IH]; intros x Hx; simpl; [simpl in Hx; lia|].
  rewrite Nat2Z.inj_succ, Z.mul_succ_r, Z.pow_add_r in Hx by lia.
  rewrite IH.
  - unfold u8. pose proof (Z.div_mod x (2^8)). lia.
  - split; [apply Z.div_pos; lia|]. apply Z.div_lt_upper_bound; lia.
Qed.

Lemma le_bytes_word b : Forall is_u8 b -> le_bytes (length b) (le_word b) = b.
Proof.
  induction 1 as [|x b Hx Hb IH]; [done|]. cbn [length le_bytes le_word].
  rewrite (Z.mul_comm (2^8)), Z.div_add, Z.div_small, Z.add_0_l, IH by (done || lia).
  f_equal. unfold u8. rewrite Z.mod_add, Z.mod_small by (done || lia). done.
Qed.

Lemma u32_in_range b off : Forall is_u8 b -> is_u32 (u32_in b off).
Proof.
  intros Hb. unfold u32_in, is_u32. set (w := take 4 (drop off b)).
  assert (Hw : Forall is_u8 w) by by apply Forall_take, Forall_drop.
  assert (Hl : (length w <= 4)%nat) by (unfold w; rewrite length_take; lia).
  pose proof (le_word_range w Hw) as H. split; [lia|].
  apply (Z.lt_le_trans _ _ _ (proj2 H)). apply Z.pow_le_mono_r; lia.
Qed.

Lemma u32_in_app_l x b : is_u32 x -> u32_in (u32_out x ++ b) 0 = x.
Proof.
  intros Hx. unfold u32_in, u32_out. rewrite drop_0, take_app_length' by (by rewrite length_le_bytes).
  by apply le_word_bytes.
Qed.

Lemma u32_in_app_r x y : is_u32 x -> is_u32 y -> u32_in (u32_out x ++ u32_out y) 4 = y.
Proof.
  intros Hx Hy. unfold u32_in, u32_out. rewrite drop_app_length' by (by rewrite length_le_bytes).
  rewrite take_ge by (rewrite length_le_bytes; lia). by apply le_word_bytes.
Qed.

(** Reading the two words of an 8-byte block and writing them back. *)
Lemma u32_out_in2 b : is_bytes 8 b -> u32_out (u32_in b 0) ++ u32_out (u32_in b 4) = b.
Proof.
  intros [Hl Hb]. unfold u32_out, u32_in. rewrite drop_0.
  assert (Hd : length (drop 4 b) = 4%nat) by (rewrite length_drop; lia).
  rewrite (take_ge (drop 4 b)) by lia.
  pose proof (le_bytes_word (take 4 b) (Forall_take _ 4 _ Hb)) as H1.
  pose proof (le_bytes_word (drop 4 b) (Forall_drop _ 4 _ Hb)) as H2.
  rewrite length_take, Hl in H1. rewrite Hd in H2. simpl Nat.min in H1. rewrite H1, H2. apply take_drop.
Qed.

Lemma u32_out_ok x : is_bytes 4 (u32_out x).
Proof. apply le_bytes_ok. Qed.

Lemma is_bytes_app n m a b : is_bytes n a -> is_bytes m b -> is_bytes (n + m) (a ++ b).
Proof. intros [<- Ha] [<- Hb]. split; [apply length_app|by apply Forall_app]. Qed.

#[export] Hint Resolve u32_in_range u32_out_ok : kern.

(** ** Exclusive or of byte strings *)

Definition xor_bytes : bytes -> bytes -> bytes := zip_with Z.lxor.

Lemma lxor_bytes_step x y a b : is_u8 x -> is_u8 y ->
  Z.lxor (x + 2^8 * a) (y + 2^8 * b) = Z.lxor x y + 2^8 * Z.lxor a b.
Proof.
  intros Hx Hy. apply Z.bits_inj'. intros i Hi.
  assert (Hlow : forall u v, is_u8 u -> Z.testbit (u + 2^8 * v) i = if decide (i < 8) then Z.testbit u i else Z.testbit v (i - 8)).
  { intros u v Hu. rewrite Z.mul_comm. destruct (decide (i < 8)).
    - rewrite <- (Z.mod_pow2_bits_low _ 8 i) by lia. rewrite Z.mod_add, Z.mod_small by (done || unfold is_u8 in Hu; lia). done.
    - replace i with ((i - 8) + 8) at 1 by lia. rewrite <- Z.div_pow2_bits by lia.
      rewrite Z.div_add, Z.div_small by (done || unfold is_u8 in Hu; lia). done. }
  rewrite Z.lxor_spec, !Hlow by auto with kern. destruct (decide (i < 8)); by rewrite Z.lxor_spec.
Qed.

Lemma le_bytes_lxor x y :
  Forall is_u8 x -> Forall is_u8 y -> length x = length y ->
  le_bytes (length x) (Z.lxor (le_word x) (le_word y)) = xor_bytes x y.
Proof.
  intros Hx. revert y. induction Hx as [|a x Ha Hx IH]; intros [|b y] Hy Hl; try done.
  apply Forall_cons_1 in Hy as [Hb Hy]. injection Hl as Hl. cbn [le_word length le_bytes].
  rewrite lxor_bytes_step by done. assert (Hab : is_u8 (Z.lxor a b)) by auto with kern.
  rewrite (Z.mul_comm (2^8)), Z.div_add, Z.div_small, Z.add_0_l, IH by (done || unfold is_u8 in Hab; lia).
  unfold xor_bytes. cbn [zip_with]. f_equal. unfold u8. rewrite Z.mod_add, Z.mod_small by (done || unfold is_u8 in Hab; lia). done.
Qed.

Lemma xor_bytes_ok n x y : is_bytes n x -> is_bytes n y -> is_bytes n (xor_bytes x y).
Proof.
  intros [Hlx Hx] [Hly Hy]. split; [unfold xor_bytes; rewrite length_zip_with; lia|].
  clear Hlx Hly. revert y Hy. induction Hx as [|a x Ha Hx IH]; intros [|b y] Hy; try by constructor.
  apply Forall_cons_1 in Hy as [Hb Hy]. constructor; [auto with kern|by apply IH].
Qed.

Lemma xor_bytes_app x1 x2 y1 y2 : length x1 = length y1 ->
  xor_bytes (x1 ++ x2) (y1 ++ y2) = xor_bytes x1 y1 ++ xor_bytes x2 y2.
Proof. intros H. by apply zip_with_app. Qed.

(** Adding the same string twice cancels. *)
Lemma xor_bytes_twice x y : length x = length y -> xor_bytes (xor_bytes x y) x = y.
Proof.
  revert y. induction x as [|a x IH]; intros [|b y] Hl; simpl in Hl; try lia; [done|].
  unfold xor_bytes in *. simpl. rewrite IH by lia.
  by rewrite (Z.lxor_comm a b), Z.lxor_assoc, Z.lxor_nilpotent, Z.lxor_0_r.
Qed.

Lemma is_bytes_split n m b : is_bytes (n + m) b -> is_bytes n (take n b) /\ is_bytes m (drop n b).
Proof.
  intros [Hl Hb]. split; split; [rewrite length_take; lia|by apply Forall_take|rewrite length_drop; lia|by apply Forall_drop].
Qed.
