(* ===== verification/Tea.v ===== *)
(** The TEA, XTEA and XETA block ciphers: [crypto/tea.c].

    Blocks and keys are byte strings.  The XTEA loops are controlled by the value
    of [sum], not by a counter, so they run on fuel; that they stop after 32
    rounds is proved. *)
From Stdlib Require Import ZArith Lia.
From stdpp Require Import base numbers list list_numbers option.
From S2P Require Import Prelude Bytes.

Local Open Scope Z_scope.
Local Open Scope kernel_scope.

Definition CRYPTO_TFM_RES_BAD_KEY_LEN : Z := 0x00200000.

Definition TEA_ROUNDS : nat := 32.
Definition TEA_DELTA : Z := 0x9e3779b9.
Definition XTEA_ROUNDS : nat := 32.
Definition XTEA_DELTA : Z := 0x9e3779b9.

(** [struct tea_ctx] and [struct xtea_ctx]: [u32 KEY[4]]. *)
Record tea_ctx := TeaCtx { KEY : list Z }.

Definition tea_ctx_ok (c : tea_ctx) : Prop := length (KEY c) = 4%nat /\ Forall is_u32 (KEY c).

Definition key_at (c : tea_ctx) (i : Z) : Z := nth (Z.to_nat i) (KEY c) 0.

(** [tea_setkey] and [xtea_setkey]: the return value, the context and the flags. *)
Definition tea_setkey (ctx : tea_ctx) (in_key : bytes) (key_len flags : Z) : Z * tea_ctx * Z :=
  if decide (key_len = 16)
  then (0, TeaCtx [u32_in in_key 0; u32_in in_key 4; u32_in in_key 8; u32_in in_key 12], flags)
  else (- EINVAL, ctx, flags |u CRYPTO_TFM_RES_BAD_KEY_LEN).

Definition xtea_setkey := tea_setkey.

(** The loop state: [sum], [y] and [z]. *)
Abbreviation feistel := (Z * Z * Z)%type.

(** ** TEA *)

Definition tea_round (c : tea_ctx) (st : feistel) : feistel :=
  let '(sum, y, z) := st in
  let sum := sum +u TEA_DELTA in
  let y := y +u (((z <<u 4) +u key_at c 0) ^u (z +u sum) ^u ((z >>u 5) +u key_at c 1)) in
  let z := z +u (((y <<u 4) +u key_at c 2) ^u (y +u sum) ^u ((y >>u 5) +u key_at c 3)) in
  (sum, y, z).

Definition tea_unround (c : tea_ctx) (st : feistel) : feistel :=
  let '(sum, y, z) := st in
  let z := z -u (((y <<u 4) +u key_at c 2) ^u (y +u sum) ^u ((y >>u 5) +u key_at c 3)) in
  let y := y -u (((z <<u 4) +u key_at c 0) ^u (z +u sum) ^u ((z >>u 5) +u key_at c 1)) in
  let sum := sum -u TEA_DELTA in
  (sum, y, z).

(** The two words written back: [u32_out(dst, y); u32_out(dst + 4, z)]. *)
Definition block_out (st : feistel) : bytes := let '(_, y, z) := st in u32_out y ++ u32_out z.

Definition tea_encrypt (c : tea_ctx) (src : bytes) : option bytes :=
  Some (block_out (Nat.iter TEA_ROUNDS (tea_round c) (0, u32_in src 0, u32_in src 4))).

Definition tea_decrypt (c : tea_ctx) (src : bytes) : option bytes :=
  Some (block_out
    (Nat.iter TEA_ROUNDS (tea_unround c) (TEA_DELTA <<u 5, u32_in src 0, u32_in src 4))).

(** ** XTEA and XETA *)

Definition xtea_round (c : tea_ctx) (st : feistel) : feistel :=
  let '(sum, y, z) := st in
  let y := y +u ((((z <<u 4) ^u (z >>u 5)) +u z) ^u (sum +u key_at c (sum &u 3))) in
  let sum := sum +u XTEA_DELTA in
  let z := z +u ((((y <<u 4) ^u (y >>u 5)) +u y) ^u (sum +u key_at c ((sum >>u 11) &u 3))) in
  (sum, y, z).

Definition xtea_unround (c : tea_ctx) (st : feistel) : feistel :=
  let '(sum, y, z) := st in
  let z := z -u ((((y <<u 4) ^u (y >>u 5)) +u y) ^u (sum +u key_at c ((sum >>u 11) &u 3))) in
  let sum := sum -u XTEA_DELTA in
  let y := y -u ((((z <<u 4) ^u (z >>u 5)) +u z) ^u (sum +u key_at c (sum &u 3))) in
  (sum, y, z).

Definition xeta_round (c : tea_ctx) (st : feistel) : feistel :=
  let '(sum, y, z) := st in
  let y := y +u (((z <<u 4) ^u (z >>u 5)) +u (z ^u sum) +u key_at c (sum &u 3)) in
  let sum := sum +u XTEA_DELTA in
  let z := z +u (((y <<u 4) ^u (y >>u 5)) +u (y ^u sum) +u key_at c ((sum >>u 11) &u 3)) in
  (sum, y, z).

Definition xeta_unround (c : tea_ctx) (st : feistel) : feistel :=
  let '(sum, y, z) := st in
  let z := z -u (((y <<u 4) ^u (y >>u 5)) +u (y ^u sum) +u key_at c ((sum >>u 11) &u 3)) in
  let sum := sum -u XTEA_DELTA in
  let y := y -u (((z <<u 4) ^u (z >>u 5)) +u (z ^u sum) +u key_at c (sum &u 3)) in
  (sum, y, z).

(** [while (sum != stop) st = round(st);] *)
Fixpoint until_sum (fuel : nat) (stop : Z) (round : feistel -> feistel) (st : feistel) : option feistel :=
  match fuel with
  | O => None
  | S fuel =>
    if decide (fst (fst st) = stop) then Some st else until_sum fuel stop round (round st)
  end.

Definition xtea_limit : Z := XTEA_DELTA *u Z.of_nat XTEA_ROUNDS.
Definition xtea_fuel : nat := S XTEA_ROUNDS.

Definition xtea_encrypt (c : tea_ctx) (src : bytes) : option bytes :=
  st ← until_sum xtea_fuel xtea_limit (xtea_round c) (0, u32_in src 0, u32_in src 4);
  Some (block_out st).

Definition xtea_decrypt (c : tea_ctx) (src : bytes) : option bytes :=
  st ← until_sum xtea_fuel 0 (xtea_unround c) (xtea_limit, u32_in src 0, u32_in src 4);
  Some (block_out st).

Definition xeta_encrypt (c : tea_ctx) (src : bytes) : option bytes :=
  st ← until_sum xtea_fuel xtea_limit (xeta_round c) (0, u32_in src 0, u32_in src 4);
  Some (block_out st).

Definition xeta_decrypt (c : tea_ctx) (src : bytes) : option bytes :=
  st ← until_sum xtea_fuel 0 (xeta_unround c) (xtea_limit, u32_in src 0, u32_in src 4);
  Some (block_out st).

(** ** Rounds and their inverses *)

Definition feistel_ok (st : feistel) : Prop :=
  let '(sum, y, z) := st in is_u32 sum /\ is_u32 y /\ is_u32 z.

(** What the four round functions have in common: a round adds [XTEA_DELTA] to
    [sum], and the other direction undoes it. *)
Record inverse_rounds (round unround : feistel -> feistel) : Prop := {
  ir_ok st : feistel_ok st -> feistel_ok (round st);
  ir_unok st : feistel_ok st -> feistel_ok (unround st);
  ir_sum st : fst (fst (round st)) = u32 (fst (fst st) + XTEA_DELTA);
  ir_unsum st : fst (fst (unround st)) = u32 (fst (fst st) - XTEA_DELTA);
  ir_inv st : feistel_ok st -> unround (round st) = st;
  ir_invr st : feistel_ok st -> round (unround st) = st
}.

Lemma u32_sub_add x d : is_u32 x -> u32 (u32 (x - d) + d) = x.
Proof.
  intros H. rewrite u32_add_l. replace (x - d + d) with x by lia. by apply u32_small.
Qed.

Ltac solve_rounds :=
  constructor;
    [ intros [[sum y] z] (? & ? & ?); simpl; auto with kern
    | intros [[sum y] z] (? & ? & ?); simpl; auto with kern
    | by intros [[sum y] z]
    | by intros [[sum y] z]
    | intros [[sum y] z] (? & ? & ?); cbn -[u32]; rewrite ?(u32_add_sub z), ?(u32_add_sub sum), ?(u32_add_sub y) by done;
      by rewrite ?(u32_add_sub y) by done
    | intros [[sum y] z] (? & ? & ?); cbn -[u32]; rewrite ?(u32_sub_add sum), ?(u32_sub_add y), ?(u32_sub_add z) by done;
      by rewrite ?(u32_sub_add z) by done ].

Lemma tea_inverse c : inverse_rounds (tea_round c) (tea_unround c).
Proof. solve_rounds. Qed.
Lemma xtea_inverse c : inverse_rounds (xtea_round c) (xtea_unround c).
Proof. solve_rounds. Qed.
Lemma xeta_inverse c : inverse_rounds (xeta_round c) (xeta_unround c).
Proof. solve_rounds. Qed.

(** ** Whole encryptions *)

Section Rounds.
Context (round unround : feistel -> feistel) (Hir : inverse_rounds round unround).

Lemma iter_ok n st : feistel_ok st -> feistel_ok (Nat.iter n round st).
Proof. intros H. induction n as [|n IH]; [done|]. simpl. by apply (ir_ok _ _ Hir). Qed.

Lemma iter_unok n st : feistel_ok st -> feistel_ok (Nat.iter n unround st).
Proof. intros H. induction n as [|n IH]; [done|]. simpl. by apply (ir_unok _ _ Hir). Qed.

Lemma iter_inv n st : feistel_ok st -> Nat.iter n unround (Nat.iter n round st) = st.
Proof.
  revert st. induction n as [|n IH]; intros st H; [done|]. rewrite Nat.iter_succ_r. simpl.
  rewrite (ir_inv _ _ Hir) by by apply iter_ok. by apply IH.
Qed.

Lemma iter_invr n st : feistel_ok st -> Nat.iter n round (Nat.iter n unround st) = st.
Proof.
  revert st. induction n as [|n IH]; intros st H; [done|]. rewrite Nat.iter_succ_r. simpl.
  rewrite (ir_invr _ _ Hir) by by apply iter_unok. by apply IH.
Qed.

Lemma iter_sum n st : is_u32 (fst (fst st)) ->
  fst (fst (Nat.iter n round st)) = u32 (fst (fst st) + Z.of_nat n * XTEA_DELTA).
Proof.
  intros Hs. induction n as [|n IH]; simpl.
  - rewrite Z.add_0_r. symmetry. by apply u32_small.
  - rewrite (ir_sum _ _ Hir), IH, u32_add_l. f_equal. lia.
Qed.

Lemma iter_unsum n st : is_u32 (fst (fst st)) ->
  fst (fst (Nat.iter n unround st)) = u32 (fst (fst st) - Z.of_nat n * XTEA_DELTA).
Proof.
  intros Hs. induction n as [|n IH]; simpl.
  - rewrite Z.sub_0_r. symmetry. by apply u32_small.
  - rewrite (ir_unsum _ _ Hir), IH, u32_sub_l. f_equal. lia.
Qed.
End Rounds.

(** A loop that tests [sum] stops after the first [n] rounds whose sum is [stop]. *)
Lemma until_sum_iter n fuel stop f st :
  (forall i, (i < n)%nat -> fst (fst (Nat.iter i f st)) <> stop) ->
  fst (fst (Nat.iter n f st)) = stop -> (n < fuel)%nat ->
  until_sum fuel stop f st = Some (Nat.iter n f st).
Proof.
  revert fuel st. induction n as [|n IH]; intros [|fuel] st Hne He Hf; try lia; simpl.
  - by rewrite decide_True.
  - rewrite decide_False by (apply (Hne 0%nat); lia).
    rewrite (IH fuel (f st)).
    + by rewrite <- Nat.iter_succ_r.
    + intros i Hi. rewrite <- Nat.iter_succ_r. apply Hne. lia.
    + by rewrite <- Nat.iter_succ_r.
    + lia.
Qed.

(** The 32 sums of the loops are told apart from the stop value by computation. *)
Lemma xtea_sums_up i : (i < 32)%nat -> u32 (0 + Z.of_nat i * XTEA_DELTA) <> xtea_limit.
Proof.
  intros Hi. assert (H : forallb (fun i => negb (Z.eqb (u32 (0 + Z.of_nat i * XTEA_DELTA)) xtea_limit)) (seq 0 32) = true)
    by (vm_compute; reflexivity).
  rewrite forallb_forall in H. specialize (H i). rewrite in_seq in H.
  assert (Hb := H ltac:(lia)). apply negb_true_iff, Z.eqb_neq in Hb. done.
Qed.

Lemma xtea_sums_down i : (i < 32)%nat -> u32 (xtea_limit - Z.of_nat i * XTEA_DELTA) <> 0.
Proof.
  intros Hi. assert (H : forallb (fun i => negb (Z.eqb (u32 (xtea_limit - Z.of_nat i * XTEA_DELTA)) 0)) (seq 0 32) = true)
    by (vm_compute; reflexivity).
  rewrite forallb_forall in H. specialize (H i). rewrite in_seq in H.
  assert (Hb := H ltac:(lia)). apply negb_true_iff, Z.eqb_neq in Hb. done.
Qed.

Section Cipher.
Context (round unround : feistel -> feistel) (Hir : inverse_rounds round unround).

Lemma loop_encrypt y z :
  until_sum xtea_fuel xtea_limit round (0, y, z) = Some (Nat.iter 32 round (0, y, z)).
Proof.
  apply until_sum_iter; [| |unfold xtea_fuel, XTEA_ROUNDS; lia].
  - intros i Hi. rewrite (iter_sum _ _ Hir) by done. by apply xtea_sums_up.
  - by rewrite (iter_sum _ _ Hir).
Qed.

Lemma loop_decrypt y z :
  until_sum xtea_fuel 0 unround (xtea_limit, y, z) = Some (Nat.iter 32 unround (xtea_limit, y, z)).
Proof.
  apply until_sum_iter; [| |unfold xtea_fuel, XTEA_ROUNDS; lia].
  - intros i Hi. rewrite (iter_unsum _ _ Hir) by done. by apply xtea_sums_down.
  - by rewrite (iter_unsum _ _ Hir).
Qed.

Lemma block_out_ok st : is_bytes 8 (block_out st).
Proof. destruct st as [[s y] z]. apply (is_bytes_app 4 4); apply u32_out_ok. Qed.

Lemma feistel_in_ok sum b : is_u32 sum -> Forall is_u8 b -> feistel_ok (sum, u32_in b 0, u32_in b 4).
Proof. intros Hs Hb. simpl. auto with kern. Qed.

(** Reading back what was written, and undoing the rounds. *)
Lemma iter_roundtrip b n s0 s1 :
  is_bytes 8 b -> is_u32 s0 -> s1 = u32 (s0 + Z.of_nat n * XTEA_DELTA) ->
  let e := block_out (Nat.iter n round (s0, u32_in b 0, u32_in b 4)) in
  block_out (Nat.iter n unround (s1, u32_in e 0, u32_in e 4)) = b.
Proof.
  intros Hb Hs -> e. pose proof (feistel_in_ok s0 b Hs (proj2 Hb)) as Hok.
  pose proof (iter_ok _ _ Hir n _ Hok) as Hok'. pose proof (iter_sum _ _ Hir n (s0, u32_in b 0, u32_in b 4) Hs) as Hsum.
  pose proof (iter_inv _ _ Hir n _ Hok) as Hinv. cbn [fst] in *.
  destruct (Nat.iter n round _) as [[s y] z]. destruct Hok' as (Hs' & Hy & Hz). simpl in Hsum. subst s.
  unfold e, block_out. rewrite u32_in_app_l, u32_in_app_r by done. rewrite Hinv. by apply u32_out_in2.
Qed.

Lemma iter_roundtripr b n s0 s1 :
  is_bytes 8 b -> is_u32 s1 -> s0 = u32 (s1 - Z.of_nat n * XTEA_DELTA) ->
  let d := block_out (Nat.iter n unround (s1, u32_in b 0, u32_in b 4)) in
  block_out (Nat.iter n round (s0, u32_in d 0, u32_in d 4)) = b.
Proof.
  intros Hb Hs -> e. pose proof (feistel_in_ok s1 b Hs (proj2 Hb)) as Hok.
  pose proof (iter_unok _ _ Hir n _ Hok) as Hok'. pose proof (iter_unsum _ _ Hir n (s1, u32_in b 0, u32_in b 4) Hs) as Hsum.
  pose proof (iter_invr _ _ Hir n _ Hok) as Hinv. cbn [fst] in *.
  destruct (Nat.iter n unround _) as [[s y] z]. destruct Hok' as (Hs' & Hy & Hz). simpl in Hsum. subst s.
  unfold e, block_out. rewrite u32_in_app_l, u32_in_app_r by done. rewrite Hinv. by apply u32_out_in2.
Qed.
End Cipher.

(** [inverse_ciphers enc dec]: both are total on 8-byte blocks and undo each other. *)
Definition inverse_ciphers (enc dec : bytes -> option bytes) : Prop :=
  forall b, is_bytes 8 b ->
    exists e d, enc b = Some e /\ is_bytes 8 e /\ dec e = Some b /\
                dec b = Some d /\ is_bytes 8 d /\ enc d = Some b.

Lemma loop_cipher round unround :
  inverse_rounds round unround ->
  inverse_ciphers
    (fun b => st ← until_sum xtea_fuel xtea_limit round (0, u32_in b 0, u32_in b 4); Some (block_out st))
    (fun b => st ← until_sum xtea_fuel 0 unround (xtea_limit, u32_in b 0, u32_in b 4); Some (block_out st)).
Proof.
  intros Hir b Hb.
  exists (block_out (Nat.iter 32 round (0, u32_in b 0, u32_in b 4))),
         (block_out (Nat.iter 32 unround (xtea_limit, u32_in b 0, u32_in b 4))).
  rewrite !(loop_encrypt _ _ Hir), !(loop_decrypt _ _ Hir). cbn [mbind option_bind].
  split_and!; [done|apply block_out_ok| |done|apply block_out_ok|]; f_equal.
  - by apply (iter_roundtrip _ _ Hir b 32 0 xtea_limit).
  - by apply (iter_roundtripr _ _ Hir b 32 0 xtea_limit).
Qed.

Lemma tea_cipher c : inverse_ciphers (tea_encrypt c) (tea_decrypt c).
Proof.
  intros b Hb. eexists _, _. unfold tea_encrypt, tea_decrypt.
  split_and!; [done|apply block_out_ok| |done|apply block_out_ok|]; f_equal.
  - by apply (iter_roundtrip _ _ (tea_inverse c) b 32 0 (TEA_DELTA <<u 5)).
  - by apply (iter_roundtripr _ _ (tea_inverse c) b 32 0 (TEA_DELTA <<u 5)).
Qed.

Lemma xtea_cipher c : inverse_ciphers (xtea_encrypt c) (xtea_decrypt c).
Proof. apply loop_cipher, xtea_inverse. Qed.

Lemma xeta_cipher c : inverse_ciphers (xeta_encrypt c) (xeta_decrypt c).
Proof. apply loop_cipher, xeta_inverse. Qed.

(** C22. The TEA, XTEA and XETA decryptions undo the encryptions and the other way
    round, for every key and block; in particular the XTEA loops, which test the
    wrapping [sum] instead of counting, always stop after 32 rounds. *)
Theorem tea_roundtrip c :
  inverse_ciphers (tea_encrypt c) (tea_decrypt c) /\
  inverse_ciphers (xtea_encrypt c) (xtea_decrypt c) /\
  inverse_ciphers (xeta_encrypt c) (xeta_decrypt c).
Proof. split_and!; [apply tea_cipher|apply xtea_cipher|apply xeta_cipher]. Qed.

(** The published test vector of the kernel's [tcrypt.h] for TEA, first entry. *)
Example tea_vector_0 :
  tea_encrypt (TeaCtx [0; 0; 0; 0]) [0; 0; 0; 0; 0; 0; 0; 0] =
    Some [0x0a; 0x3a; 0xea; 0x41; 0x40; 0xa9; 0xba; 0x94].
Proof. vm_compute. reflexivity. Qed.

Example xtea_vector_0 :
  xtea_encrypt (TeaCtx [0; 0; 0; 0]) [0; 0; 0; 0; 0; 0; 0; 0] =
    Some [0xd8; 0xd4; 0xe9; 0xde; 0xd9; 0x1e; 0x13; 0xf7].
Proof. vm_compute. reflexivity. Qed.
