(* ===== verification/Arc4.v ===== *)
(** The ARC4 stream cipher: [crypto/arc4.c], a cipher of one-byte blocks whose
    context changes with every byte. *)
From Stdlib Require Import ZArith Lia.
From stdpp Require Import base numbers list list_numbers option.
From S2P Require Import Prelude Bytes.

Local Open Scope Z_scope.

Record arc4_ctx := Arc4Ctx { arc4_S : list Z; arc4_x : Z; arc4_y : Z }.

(** ** Key schedule *)

(** The second loop of [arc4_set_key], from index [i]; [n] rounds are left. *)
Fixpoint arc4_schedule (n : nat) (S0 : list Z) (in_key : bytes) (key_len i j k : Z) : option (list Z) :=
  match n with
  | O => Some S0
  | S n =>
    a ← mem_get S0 i;
    c ← mem_get in_key k;
    let j := Z.land (j + c + a) 0xff in
    b ← mem_get S0 j;
    S1 ← mem_set S0 i b;
    S2 ← mem_set S1 j a;
    let k := k + 1 in
    arc4_schedule n S2 in_key key_len (i + 1) j (if decide (key_len <= k) then 0 else k)
  end.

Definition arc4_set_key (in_key : bytes) (key_len : Z) : option arc4_ctx :=
  S1 ← arc4_schedule 256 (seqZ 0 256) in_key key_len 0 0 0;
  Some (Arc4Ctx S1 1 0).

(** ** One byte *)

Definition arc4_crypt (c : arc4_ctx) (inb : Z) : option (Z * arc4_ctx) :=
  let x := arc4_x c in
  let y := arc4_y c in
  a ← mem_get (arc4_S c) x;
  let y := Z.land (y + a) 0xff in
  b ← mem_get (arc4_S c) y;
  S1 ← mem_set (arc4_S c) x b;
  S2 ← mem_set S1 y a;
  let x := Z.land (x + 1) 0xff in
  d ← mem_get S2 (Z.land (a + b) 0xff);
  Some (Z.lxor inb d, Arc4Ctx S2 x y).

(** A whole message, byte by byte. *)
Fixpoint arc4_stream (c : arc4_ctx) (m : bytes) : option (bytes * arc4_ctx) :=
  match m with
  | [] => Some ([], c)
  | b :: m => '(e, c) ← arc4_crypt c b; '(es, c) ← arc4_stream c m; Some (e :: es, c)
  end.

(** ** The state is always a permutation of the bytes *)

Definition arc4_perm (l : list Z) : Prop := l ≡ₚ seqZ 0 256.

Definition arc4_ok (c : arc4_ctx) : Prop := arc4_perm (arc4_S c) /\ is_u8 (arc4_x c) /\ is_u8 (arc4_y c).

Lemma arc4_perm_length l : arc4_perm l -> length l = 256%nat.
Proof. intros Hl. rewrite (Permutation_length Hl). by rewrite length_seqZ. Qed.

Lemma arc4_perm_get l i : arc4_perm l -> is_u8 i -> exists a, mem_get l i = Some a /\ is_u8 a.
Proof.
  intros Hl Hi. pose proof (arc4_perm_length l Hl) as Hn. unfold is_u8 in Hi.
  unfold mem_get. rewrite decide_True by lia.
  destruct (lookup_lt_is_Some_2 l (Z.to_nat i)) as (a & Ha); [lia|]. exists a. split; [done|].
  assert (Hin : a ∈ seqZ 0 256) by (unfold arc4_perm in Hl; rewrite <- Hl; by eapply list_elem_of_lookup_2).
  apply elem_of_seqZ in Hin. unfold is_u8. lia.
Qed.

Lemma land_ff x : 0 <= x -> is_u8 (Z.land x 0xff).
Proof. intros Hx. change 0xff with (2^8 - 1). rewrite land_mask by lia. apply u8_range. Qed.

(** Exchanging two cells of a block permutes it. *)
Lemma swap_cells (l : list Z) i j a b :
  mem_get l i = Some a -> mem_get l j = Some b ->
  exists l1 l2, mem_set l i b = Some l1 /\ mem_set l1 j a = Some l2 /\ l2 ≡ₚ l.
Proof.
  intros Ha Hb. pose proof (mem_get_Some _ _ _ Ha) as Hi. pose proof (mem_get_Some _ _ _ Hb) as Hj.
  unfold mem_get in Ha, Hb. rewrite decide_True in Ha by lia. rewrite decide_True in Hb by lia.
  unfold mem_set. rewrite decide_True by lia. eexists _, _. split; [done|].
  unfold zlen in *. rewrite length_insert, decide_True by lia. split; [done|].
  by apply Permutation_insert_swap.
Qed.

Lemma schedule_ok n l in_key key_len i j k :
  arc4_perm l -> 0 <= i -> i + Z.of_nat n <= 256 -> 0 <= j -> 0 <= k < key_len ->
  zlen in_key = key_len -> Forall is_u8 in_key ->
  exists l', arc4_schedule n l in_key key_len i j k = Some l' /\ arc4_perm l'.
Proof.
  revert l i j k. induction n as [|n IH]; intros l i j k Hl Hi Hn Hj Hk Hlen Hb; [by exists l|].
  cbn [arc4_schedule].
  destruct (arc4_perm_get l i Hl) as (a & Ha & Hau); [unfold is_u8; lia|]. rewrite Ha. cbn [mbind option_bind].
  destruct (lookup_lt_is_Some_2 in_key (Z.to_nat k)) as (c & Hc); [unfold zlen in Hlen; lia|].
  pose proof (proj1 (Forall_lookup _ _) Hb _ _ Hc) as Hcu. unfold is_u8 in *.
  assert (mem_get in_key k = Some c) as -> by (unfold mem_get; by rewrite decide_True by lia).
  cbn [mbind option_bind].
  destruct (arc4_perm_get l (Z.land (j + c + a) 0xff) Hl) as (b & Hb' & _); [apply land_ff; lia|].
  rewrite Hb'. cbn [mbind option_bind].
  destruct (swap_cells _ _ _ _ _ Ha Hb') as (l1 & l2 & -> & E2 & Hp). cbn [mbind option_bind]. rewrite E2.
  cbn [mbind option_bind]. pose proof (land_ff (j + c + a)) as Hj'. unfold is_u8 in Hj'.
  apply IH; [unfold arc4_perm in *; by rewrite Hp|lia|lia|lia|case_decide; lia|done|done].
Qed.

Lemma arc4_crypt_ok c b :
  arc4_ok c -> is_u8 b ->
  exists d c', arc4_crypt c b = Some (Z.lxor b d, c') /\ is_u8 d /\ arc4_ok c' /\
    (forall b', arc4_crypt c b' = Some (Z.lxor b' d, c')).
Proof.
  intros (Hl & Hx & Hy) Hb. unfold arc4_crypt.
  destruct (arc4_perm_get _ _ Hl Hx) as (a & Ha & Hau). rewrite Ha. cbn [mbind option_bind].
  assert (Hy' : is_u8 (Z.land (arc4_y c + a) 0xff)) by (apply land_ff; unfold is_u8 in *; lia).
  destruct (arc4_perm_get _ _ Hl Hy') as (b0 & Hb0 & Hbu). rewrite Hb0. cbn [mbind option_bind].
  destruct (swap_cells _ _ _ _ _ Ha Hb0) as (l1 & l2 & -> & E2 & Hp). cbn [mbind option_bind]. rewrite E2.
  cbn [mbind option_bind]. assert (Hl2 : arc4_perm l2) by (unfold arc4_perm in *; by rewrite Hp).
  destruct (arc4_perm_get l2 (Z.land (a + b0) 0xff) Hl2) as (d & -> & Hdu);
    [apply land_ff; unfold is_u8 in *; lia|]. cbn [mbind option_bind].
  eexists d, _. split; [done|]. split; [done|]. split; [|done].
  split; [done|]. split; [apply land_ff; unfold is_u8 in *; lia|done].
Qed.

Lemma stream_ok c m :
  arc4_ok c -> Forall is_u8 m ->
  exists e c', arc4_stream c m = Some (e, c') /\ is_bytes (length m) e /\ arc4_ok c' /\
    arc4_stream c e = Some (m, c').
Proof.
  intros Hc Hm. revert c Hc. induction Hm as [|b m Hb Hm IH]; intros c Hc.
  - exists [], c. split_and!; done.
  - destruct (arc4_crypt_ok c b Hc Hb) as (d & c1 & E1 & Hd & Hc1 & Hback).
    destruct (IH c1 Hc1) as (es & c2 & E2 & [Hl Hes] & Hc2 & Hback2).
    exists (Z.lxor b d :: es), c2. cbn [arc4_stream]. rewrite E1. cbn [mbind option_bind]. rewrite E2.
    split_and!; [done|split; [simpl; by rewrite Hl|by constructor; auto with kern]|done|].
    cbn [mbind option_bind]. rewrite Hback. cbn [mbind option_bind]. rewrite Hback2. cbn [mbind option_bind].
    by rewrite Z.lxor_assoc, Z.lxor_nilpotent, Z.lxor_0_r.
Qed.

(** Every key of 1 to 256 bytes sets up a permutation of the 256 byte values;
    encrypting any message keeps it one, never leaves the tables, and running the
    same code on the ciphertext with the same key gives the message back. *)
Theorem arc4_roundtrip in_key m :
  (1 <= length in_key <= 256)%nat -> Forall is_u8 in_key -> Forall is_u8 m ->
  exists c e c', arc4_set_key in_key (zlen in_key) = Some c /\ arc4_ok c /\
    arc4_stream c m = Some (e, c') /\ is_bytes (length m) e /\ arc4_ok c' /\
    arc4_stream c e = Some (m, c').
Proof.
  intros Hk Hkey Hm. unfold arc4_set_key.
  destruct (schedule_ok 256 (seqZ 0 256) in_key (zlen in_key) 0 0 0) as (S1 & -> & HS);
    [unfold arc4_perm; reflexivity|lia|lia|lia|unfold zlen; lia|done|done|]. cbn [mbind option_bind].
  assert (Hc : arc4_ok (Arc4Ctx S1 1 0)) by (split_and!; [exact HS|by vm_compute..]).
  destruct (stream_ok _ m Hc Hm) as (e & c' & H). by exists (Arc4Ctx S1 1 0), e, c'.
Qed.

Lemma arc4_roundtrip_witness :
  exists c e c', arc4_set_key [0x01; 0x23; 0x45] 3 = Some c /\ arc4_ok c /\
    arc4_stream c [0x41; 0x42] = Some (e, c') /\ is_bytes 2 e /\ arc4_ok c' /\
    arc4_stream c e = Some ([0x41; 0x42], c').
Proof.
  apply (arc4_roundtrip [0x01; 0x23; 0x45] [0x41; 0x42]); [simpl; lia|by apply (bool_decide_unpack _)|].
  by apply (bool_decide_unpack _).
Defined.

(** The first vector of [crypto/tcrypt.h]. *)
Example arc4_vector_0 :
  (c ← arc4_set_key [0x01; 0x23; 0x45; 0x67; 0x89; 0xab; 0xcd; 0xef] 8;
   r ← arc4_stream c [0x01; 0x23; 0x45; 0x67; 0x89; 0xab; 0xcd; 0xef]; Some (fst r)) =
  Some [0x75; 0xb7; 0x87; 0x80; 0x99; 0xe0; 0xc5; 0x96].
Proof. vm_compute. reflexivity. Qed.
