(* ===== verification/Cipher.v ===== *)
(** The cipher layer of the crypto API: [crypto/cipher.c] and
    [crypto/scatterwalk.c], which run a block cipher over scatterlists of pages
    in ECB or CBC mode.

    Memory is the flat kernel address space, a map from addresses to bytes; the
    page with number [p] is mapped at [p * PAGE_SIZE] (there is no highmem on the
    target, so [kmap_atomic] is [page_address]).  Buffers, the IV and the stack
    arrays all live in it, so aliasing of source and destination is expressed by
    equal addresses, as in the code.  An access to an address that is not mapped,
    [BUG_ON] and running off a scatterlist are failures of the monad. *)
From Stdlib Require Import ZArith Lia.
From stdpp Require Import base numbers list list_numbers option gmap.
From S2P Require Import Prelude Bytes.

Local Open Scope Z_scope.
Local Open Scope kernel_scope.

Definition PAGE_SIZE : Z := 4096.

Definition CRYPTO_TFM_MODE_MASK : Z := 0xff.
Definition CRYPTO_TFM_MODE_ECB : Z := 1.
Definition CRYPTO_TFM_MODE_CBC : Z := 2.
Definition CRYPTO_TFM_MODE_CFB : Z := 4.
Definition CRYPTO_TFM_MODE_CTR : Z := 8.
Definition RES_BAD_KEY_LEN : Z := 0x00200000.
Definition RES_BAD_BLOCK_LEN : Z := 0x00800000.

(** [ALIGN(x, a)]. *)
Definition ALIGN (x a : Z) : Z := Z.land (x + a - 1) (Z.lnot (a - 1)).

(** ** State *)

(** Memory, the cipher's private context and the flags of the transform. *)
Record cstate (C : Type) := CState { cmem : gmap Z Z; cctx : C; crt_flags : Z }.
Arguments CState {C}.
Arguments cmem {C}.
Arguments cctx {C}.
Arguments crt_flags {C}.

Definition CM (C : Type) : Type -> Type := SM (cstate C).
Global Instance CM_ret {C} : MRet (CM C) := SM_ret.
Global Instance CM_bind {C} : MBind (CM C) := SM_bind.

(** The private function of a cipher: one block in, one block out; the context
    may change (a stream cipher). *)
Definition block_fn (C : Type) : Type := C -> bytes -> option (bytes * C).

Section Memory.
Context {C : Type}.

(** The bytes at a list of addresses. *)
Definition peek (m : gmap Z Z) (l : list Z) : option bytes := mapM (fun a => m !! a) l.

Fixpoint poke (m : gmap Z Z) (l : list Z) (b : bytes) : option (gmap Z Z) :=
  match l, b with
  | [], [] => Some m
  | a :: l, x :: b => match m !! a with Some _ => poke (<[a := x]> m) l b | None => None end
  | _, _ => None
  end.

Definition rd (a n : Z) : CM C bytes := fun s =>
  match peek (cmem s) (seqZ a n) with Some b => Some (b, s) | None => None end.

Definition wr (a : Z) (b : bytes) : CM C unit := fun s =>
  match poke (cmem s) (seqZ a (zlen b)) b with
  | Some m => Some (tt, CState m (cctx s) (crt_flags s))
  | None => None
  end.

(** [memcpy(dst, src, n)]. *)
Definition memcpy (dst src n : Z) : CM C unit := b ← rd src n; wr dst b.

(** [fn(ctx, dst, src)] with blocks of [bsize] bytes. *)
Definition run_fn (f : block_fn C) (b : bytes) : CM C bytes := fun s =>
  match f (cctx s) b with
  | Some (e, c) => Some (e, CState (cmem s) c (crt_flags s))
  | None => None
  end.

Definition call_fn (f : block_fn C) (bsize dst src : Z) : CM C unit :=
  b ← rd src bsize; e ← run_fn f b; wr dst e.

(** ** The process functions *)

(** A 32-bit word of a block is combined with another by exclusive or, through
    pointers to [u32]. *)
Definition xor_word (a b : Z) : CM C unit :=
  x ← rd a 4; y ← rd b 4; wr a (le_bytes 4 (le_word x ^u le_word y)).

Definition xor_64 (a b : Z) : CM C unit := _ ← xor_word a b; xor_word (a + 4) (b + 4).

Definition xor_128 (a b : Z) : CM C unit :=
  _ ← xor_word a b; _ ← xor_word (a + 4) (b + 4); _ ← xor_word (a + 8) (b + 8); xor_word (a + 12) (b + 12).

(** [struct cipher_desc] with the parts of the transform that it points to. *)
Record cipher_desc := CipherDesc {
  bsize : Z;
  alignmask : Z;
  crfn : block_fn C;
  xor_block : Z -> Z -> CM C unit;
  info : Z
}.

Definition process_fn : Type := cipher_desc -> Z -> Z -> Z -> CM C Z.

(** The [do ... while ((done += bsize) <= nbytes)] loop around a block step. *)
Fixpoint process_loop (fuel : nat) (bs : Z) (body : Z -> Z -> CM C unit) (dst src done nbytes : Z) : CM C Z :=
  match fuel with
  | O => SM_fail
  | S fuel =>
    _ ← body dst src;
    let done := done +u bs in
    if decide (done <= nbytes) then process_loop fuel bs body (dst + bs) (src + bs) done nbytes
    else mret done
  end.

Definition process (d : cipher_desc) (body : Z -> Z -> CM C unit) (dst src nbytes : Z) : CM C Z :=
  process_loop (Z.to_nat nbytes) (bsize d) body dst src 0 (nbytes -u bsize d).

Definition cbc_process_encrypt : process_fn := fun d dst src nbytes =>
  let iv := info d in
  process d (fun dst src =>
    _ ← xor_block d iv src;
    _ ← call_fn (crfn d) (bsize d) dst iv;
    memcpy iv dst (bsize d)) dst src nbytes.

(** [stack] is the local array that holds a block when decrypting in place. *)
Definition cbc_process_decrypt (stack : Z) : process_fn := fun d dst src nbytes =>
  let iv := info d in
  let inplace := bool_decide (src = dst) in
  process d (fun dst src =>
    let tmp_dst := if inplace then stack else dst in
    _ ← call_fn (crfn d) (bsize d) tmp_dst src;
    _ ← xor_block d tmp_dst iv;
    _ ← memcpy iv src (bsize d);
    if decide (tmp_dst <> dst) then memcpy dst tmp_dst (bsize d) else mret tt) dst src nbytes.

Definition ecb_process : process_fn := fun d dst src nbytes =>
  process d (fun dst src => call_fn (crfn d) (bsize d) dst src) dst src nbytes.
End Memory.

Arguments cipher_desc : clear implicits.
Arguments process_fn : clear implicits.

(** ** Walking a scatterlist *)

Record scatterlist := Sg { sg_page : Z; sg_offset : Z; sg_length : Z }.

(** [struct scatter_walk]; [sg] points into an array, of which the walk sees the
    rest from its position on. *)
Record scatter_walk := ScatterWalk {
  sg : list scatterlist;
  page : Z;
  data : Z;
  len_this_page : Z;
  len_this_segment : Z;
  offset : Z
}.

Definition scatterwalk_samebuf (walk_in walk_out : scatter_walk) : bool :=
  bool_decide (page walk_in = page walk_out) && bool_decide (offset walk_in = offset walk_out).

Definition scatterwalk_clamp (walk : scatter_walk) (nbytes : Z) : Z :=
  if decide (len_this_page walk < nbytes) then len_this_page walk else nbytes.

Definition scatterwalk_advance (walk : scatter_walk) (nbytes : Z) : scatter_walk :=
  ScatterWalk (sg walk) (page walk) (data walk + nbytes) (len_this_page walk -u nbytes)
    (len_this_segment walk -u nbytes) (offset walk +u nbytes).

Definition scatterwalk_aligned (walk : scatter_walk) (alignmask : Z) : bool :=
  bool_decide (Z.land (offset walk) alignmask = 0).

Section Walk.
Context {C : Type}.

(** [scatterwalk_start]; [data] is not set before the page is mapped. *)
Definition scatterwalk_start (data0 : Z) (sgs : list scatterlist) : CM C scatter_walk := fun s =>
  match sgs with
  | [] => None
  | g :: _ =>
    if decide (sg_length g = 0) then None
    else
      let rest_of_page := PAGE_SIZE -u Z.land (sg_offset g) (PAGE_SIZE - 1) in
      Some (ScatterWalk sgs (sg_page g) data0 (Z.min (sg_length g) rest_of_page) (sg_length g) (sg_offset g), s)
  end.

Definition scatterwalk_map (walk : scatter_walk) : scatter_walk :=
  ScatterWalk (sg walk) (page walk) (page walk * PAGE_SIZE + offset walk) (len_this_page walk)
    (len_this_segment walk) (offset walk).

(** [scatterwalk_pagedone] ([scatterwalk_unmap] and [flush_dcache_page] do not
    change the state). *)
Definition scatterwalk_pagedone (walk : scatter_walk) (more : bool) : CM C scatter_walk :=
  if more then
    let seg := len_this_segment walk -u len_this_page walk in
    if decide (seg <> 0) then
      mret (ScatterWalk (sg walk) (page walk + 1) (data walk) (Z.min seg PAGE_SIZE) seg 0)
    else scatterwalk_start (data walk) (tail (sg walk))
  else mret walk.

Definition scatterwalk_done (walk : scatter_walk) (more : bool) : CM C scatter_walk :=
  if bool_decide (len_this_page walk = 0) || negb more then scatterwalk_pagedone walk more else mret walk.

Definition memcpy_dir (buf sgdata nbytes : Z) (out : bool) : CM C unit :=
  if out then memcpy sgdata buf nbytes else memcpy buf sgdata nbytes.

Fixpoint copychunks_loop (fuel : nat) (buf : Z) (walk : scatter_walk) (nbytes : Z) (out : bool) :
    CM C (Z * scatter_walk) :=
  match fuel with
  | O => SM_fail
  | S fuel =>
    if decide (len_this_page walk < nbytes) then
      _ ← memcpy_dir buf (data walk) (len_this_page walk) out;
      w ← scatterwalk_pagedone walk true;
      copychunks_loop fuel (buf + len_this_page walk) (scatterwalk_map w) (nbytes -u len_this_page walk) out
    else
      _ ← memcpy_dir buf (data walk) nbytes out;
      mret (nbytes, walk)
  end.

Definition scatterwalk_copychunks (buf : Z) (walk : scatter_walk) (nbytes : Z) (out : bool) :
    CM C (Z * scatter_walk) :=
  copychunks_loop (S (Z.to_nat nbytes)) buf walk nbytes out.

(** ** [crypt] *)

(** Where the local arrays of [crypt_slow], [crypt_iv_unaligned] and
    [cbc_process_decrypt] are, and how [__get_free_page(GFP_ATOMIC)] answers in each
    round of the loop of [crypt].  A page that was granted is kept until the end of
    the call, so that there is at most one, [free_page]; before, a round may find no
    memory and the next one some. *)
Record scratch := Scratch {
  slow_buffer : Z;
  iv_buffer : Z;
  stack_buffer : Z;
  free_page : Z;
  page_granted : nat -> bool
}.

Context (k : scratch).

(** [__get_free_page] in round [i], 0 when it fails. *)
Definition get_free_page (i : nat) : Z := if page_granted k i then free_page k else 0.

Definition crypt_slow (d : cipher_desc C) (prfn : process_fn C) (win wout : scatter_walk) :
    CM C (Z * scatter_walk * scatter_walk) :=
  let src := ALIGN (slow_buffer k) (alignmask d + 1) in
  let dst := src + bsize d in
  '(n, win) ← scatterwalk_copychunks src win (bsize d) false;
  let win := scatterwalk_advance win n in
  _ ← prfn d dst src (bsize d);
  '(n, wout) ← scatterwalk_copychunks dst wout (bsize d) true;
  let wout := scatterwalk_advance wout n in
  mret (bsize d, win, wout).

Definition crypt_fast (d : cipher_desc C) (prfn : process_fn C) (win wout : scatter_walk) (nbytes tmp : Z) :
    CM C (Z * scatter_walk * scatter_walk) :=
  let src := data win in
  let dst := if scatterwalk_samebuf win wout then src else data wout in
  _ ← (if decide (tmp <> 0) then memcpy tmp (data win) nbytes else mret tt);
  let src' := if decide (tmp <> 0) then tmp else src in
  let dst' := if decide (tmp <> 0) then tmp else dst in
  n ← prfn d dst' src' nbytes;
  _ ← (if decide (tmp <> 0) then memcpy (data wout) tmp n else mret tt);
  mret (n, scatterwalk_advance win n, scatterwalk_advance wout n).

(** Iteration [i] of the [for (;;)] loop of [crypt]: it returns the remaining
    byte count, the walks and the bounce page. *)
Definition crypt_round (i : nat) (d : cipher_desc C) (prfn : process_fn C) (win wout : scatter_walk)
    (nbytes buffer : Z) : CM C (Z * scatter_walk * scatter_walk * Z) :=
  let unaligned := negb (scatterwalk_aligned win (alignmask d)) || negb (scatterwalk_aligned wout (alignmask d)) in
  let buffer := if unaligned && bool_decide (buffer = 0) then get_free_page i else buffer in
  let n := if unaligned && bool_decide (buffer = 0) then 0 else nbytes in
  let tmp := if unaligned then buffer else 0 in
  let win := scatterwalk_map win in
  let wout := scatterwalk_map wout in
  let n := scatterwalk_clamp win n in
  let n := scatterwalk_clamp wout n in
  '(n, win, wout) ← (if decide (bsize d <= n) then crypt_fast d prfn win wout n tmp
                     else crypt_slow d prfn win wout);
  let nbytes := nbytes -u n in
  win ← scatterwalk_done win (bool_decide (nbytes <> 0));
  wout ← scatterwalk_done wout (bool_decide (nbytes <> 0));
  mret (nbytes, win, wout, buffer).

Fixpoint crypt_loop (fuel i : nat) (d : cipher_desc C) (prfn : process_fn C) (win wout : scatter_walk)
    (nbytes buffer : Z) : CM C unit :=
  match fuel with
  | O => SM_fail
  | S fuel =>
    '(nbytes, win, wout, buffer) ← crypt_round i d prfn win wout nbytes buffer;
    if decide (nbytes = 0) then mret tt else crypt_loop fuel (S i) d prfn win wout nbytes buffer
  end.

Definition set_flag (f : Z) : CM C unit := fun s => Some (tt, CState (cmem s) (cctx s) (crt_flags s |u f)).

Definition crypt (d : cipher_desc C) (prfn : process_fn C) (dst src : list scatterlist) (nbytes : Z) : CM C Z :=
  if decide (nbytes = 0) then mret 0
  else if decide (nbytes `mod` bsize d <> 0) then _ ← set_flag RES_BAD_BLOCK_LEN; mret (- EINVAL)
  else
    walk_in ← scatterwalk_start 0 src;
    walk_out ← scatterwalk_start 0 dst;
    _ ← crypt_loop (Z.to_nat nbytes) 0 d prfn walk_in walk_out nbytes 0;
    mret 0.

Definition crypt_iv_unaligned (d : cipher_desc C) (ivsize : Z) (prfn : process_fn C)
    (dst src : list scatterlist) (nbytes : Z) : CM C Z :=
  let iv := info d in
  if decide (Z.land iv (alignmask d) <> 0) then
    let tmp := ALIGN (iv_buffer k) (alignmask d + 1) in
    _ ← memcpy tmp iv ivsize;
    err ← crypt (CipherDesc (bsize d) (alignmask d) (crfn d) (xor_block d) tmp) prfn dst src nbytes;
    _ ← memcpy iv tmp ivsize;
    mret err
  else crypt d prfn dst src nbytes.
End Walk.

(** ** Algorithms and transforms *)

(** [struct cipher_alg] of a [struct crypto_alg]; the mode functions that a driver
    may bring along are optional. *)
Record cipher_alg (C : Type) := CipherAlg {
  cra_blocksize : Z;
  cra_alignmask : Z;
  cra_ctxsize : Z;
  cia_min_keysize : Z;
  cia_max_keysize : Z;
  cia_setkey : C -> bytes -> Z -> Z -> option (Z * C * Z);
  cia_encrypt : block_fn C;
  cia_decrypt : block_fn C;
  cia_encrypt_ecb : option (process_fn C);
  cia_decrypt_ecb : option (process_fn C);
  cia_encrypt_cbc : option (process_fn C);
  cia_decrypt_cbc : option (process_fn C)
}.
Arguments cra_blocksize {C}.
Arguments cra_alignmask {C}.
Arguments cra_ctxsize {C}.
Arguments cia_min_keysize {C}.
Arguments cia_max_keysize {C}.
Arguments cia_setkey {C}.
Arguments cia_encrypt {C}.
Arguments cia_decrypt {C}.
Arguments cia_encrypt_ecb {C}.
Arguments cia_decrypt_ecb {C}.
Arguments cia_encrypt_cbc {C}.
Arguments cia_decrypt_cbc {C}.

(** The functions that [crypto_init_cipher_ops] stores in [struct cipher_tfm]. *)
Inductive crypt_op := Ecb_encrypt | Ecb_decrypt | Cbc_encrypt | Cbc_decrypt | Nocrypt.
Inductive xor_op := Xor_64 | Xor_128.

Record cipher_tfm := CipherTfm {
  cit_mode : Z;
  cit_ivsize : Z;
  cit_iv : Z;
  cit_encrypt : option crypt_op;
  cit_decrypt : option crypt_op;
  cit_encrypt_iv : option crypt_op;
  cit_decrypt_iv : option crypt_op;
  cit_xor_block : option xor_op
}.

Definition crypto_init_cipher_flags (flags : Z) : Z :=
  let mode := flags &u CRYPTO_TFM_MODE_MASK in
  if decide (mode <> 0) then mode else CRYPTO_TFM_MODE_ECB.

Section Ops.
Context {C : Type} (alg : cipher_alg C).

(** [crypto_init_cipher_ops]: the return value and the operations; [ctx_addr] is
    [crypto_tfm_ctx(tfm)] and an unknown mode is a [BUG]. *)
Definition crypto_init_cipher_ops (mode ctx_addr : Z) : option (Z * cipher_tfm) :=
  if decide (mode = CRYPTO_TFM_MODE_ECB) then
    Some (0, CipherTfm mode 0 0 (Some Ecb_encrypt) (Some Ecb_decrypt) None None None)
  else if decide (mode = CRYPTO_TFM_MODE_CBC) then
    let ops xor ivsize iv := CipherTfm mode ivsize iv (Some Cbc_encrypt) (Some Cbc_decrypt)
                               (Some Cbc_encrypt) (Some Cbc_decrypt) xor in
    let align := cra_alignmask alg + 1 in
    let addr := ALIGN ctx_addr align + ALIGN (cra_ctxsize alg) align in
    if decide (cra_blocksize alg = 8) then Some (0, ops (Some Xor_64) (cra_blocksize alg) addr)
    else if decide (cra_blocksize alg = 16) then Some (0, ops (Some Xor_128) (cra_blocksize alg) addr)
    else Some (- EINVAL, ops None 0 0)
  else if decide (mode = CRYPTO_TFM_MODE_CFB \/ mode = CRYPTO_TFM_MODE_CTR) then
    Some (0, CipherTfm mode 0 0 (Some Nocrypt) (Some Nocrypt) (Some Nocrypt) (Some Nocrypt) None)
  else None.

Definition setkey (key : bytes) (keylen : Z) : CM C Z :=
  if bool_decide (keylen < cia_min_keysize alg) || bool_decide (cia_max_keysize alg < keylen) then
    _ ← set_flag RES_BAD_KEY_LEN; mret (- EINVAL)
  else fun s =>
    match cia_setkey alg (cctx s) key keylen (crt_flags s) with
    | Some (ret, c, flags) => Some (ret, CState (cmem s) c flags)
    | None => None
    end.

Context (k : scratch) (tfm : cipher_tfm).

Definition xor_of (x : option xor_op) : Z -> Z -> CM C unit :=
  match x with Some Xor_64 => xor_64 | Some Xor_128 => xor_128 | None => fun _ _ => SM_fail end.

(** The descriptor on the stack of the mode functions. *)
Definition desc (f : block_fn C) (iv : Z) : cipher_desc C :=
  CipherDesc (cra_blocksize alg) (cra_alignmask alg) f (xor_of (cit_xor_block tfm)) iv.

(** [p ?: default]. *)
Definition or_else (p : option (process_fn C)) (q : process_fn C) : process_fn C :=
  match p with Some p => p | None => q end.

Definition ecb_encrypt (dst src : list scatterlist) (nbytes : Z) : CM C Z :=
  crypt k (desc (cia_encrypt alg) 0) (or_else (cia_encrypt_ecb alg) ecb_process) dst src nbytes.

Definition ecb_decrypt (dst src : list scatterlist) (nbytes : Z) : CM C Z :=
  crypt k (desc (cia_decrypt alg) 0) (or_else (cia_decrypt_ecb alg) ecb_process) dst src nbytes.

Definition cbc_encrypt (dst src : list scatterlist) (nbytes : Z) : CM C Z :=
  crypt k (desc (cia_encrypt alg) (cit_iv tfm)) (or_else (cia_encrypt_cbc alg) cbc_process_encrypt)
    dst src nbytes.

Definition cbc_encrypt_iv (dst src : list scatterlist) (nbytes iv : Z) : CM C Z :=
  crypt_iv_unaligned k (desc (cia_encrypt alg) iv) (cit_ivsize tfm)
    (or_else (cia_encrypt_cbc alg) cbc_process_encrypt) dst src nbytes.

Definition cbc_decrypt (dst src : list scatterlist) (nbytes : Z) : CM C Z :=
  crypt k (desc (cia_decrypt alg) (cit_iv tfm))
    (or_else (cia_decrypt_cbc alg) (cbc_process_decrypt (stack_buffer k))) dst src nbytes.

Definition cbc_decrypt_iv (dst src : list scatterlist) (nbytes iv : Z) : CM C Z :=
  crypt_iv_unaligned k (desc (cia_decrypt alg) iv) (cit_ivsize tfm)
    (or_else (cia_decrypt_cbc alg) (cbc_process_decrypt (stack_buffer k))) dst src nbytes.

Definition nocrypt (dst src : list scatterlist) (nbytes : Z) : CM C Z := mret (- ENOSYS).
Definition nocrypt_iv (dst src : list scatterlist) (nbytes iv : Z) : CM C Z := mret (- ENOSYS).

(** A call through [tfm->crt_cipher.cit_encrypt] and its siblings; a pointer that
    was never set is a failure. *)
Definition call_op (op : option crypt_op) (dst src : list scatterlist) (nbytes : Z) : CM C Z :=
  match op with
  | Some Ecb_encrypt => ecb_encrypt dst src nbytes
  | Some Ecb_decrypt => ecb_decrypt dst src nbytes
  | Some Cbc_encrypt => cbc_encrypt dst src nbytes
  | Some Cbc_decrypt => cbc_decrypt dst src nbytes
  | Some Nocrypt => nocrypt dst src nbytes
  | None => SM_fail
  end.

Definition call_op_iv (op : option crypt_op) (dst src : list scatterlist) (nbytes iv : Z) : CM C Z :=
  match op with
  | Some Cbc_encrypt => cbc_encrypt_iv dst src nbytes iv
  | Some Cbc_decrypt => cbc_decrypt_iv dst src nbytes iv
  | Some Nocrypt => nocrypt_iv dst src nbytes iv
  | _ => SM_fail
  end.
End Ops.
