(* ===== verification/CipherMem.v ===== *)
(** Reasoning about the flat memory of [Cipher]: what reads and writes of address
    lists do, and which addresses an operation may change. *)
From Stdlib Require Import ZArith Lia.
From stdpp Require Import base numbers list list_numbers option gmap sets.
From S2P Require Import Prelude Bytes Cipher.

Local Open Scope Z_scope.

(** ** Address lists *)

Lemma length_seqZ_nat a (n : nat) : length (seqZ a (Z.of_nat n)) = n.
Proof. rewrite length_seqZ. lia. Qed.

Lemma seqZ_split a n m : 0 <= n -> 0 <= m -> seqZ a (n + m) = seqZ a n ++ seqZ (a + n) m.
Proof. intros. by rewrite seqZ_app. Qed.

Lemma take_seqZ a n m : 0 <= n <= m -> take (Z.to_nat n) (seqZ a m) = seqZ a n.
Proof.
  intros. replace m with (n + (m - n)) by lia. rewrite seqZ_split by lia.
  apply take_app_length'. rewrite length_seqZ. done.
Qed.

Lemma drop_seqZ a n m : 0 <= n <= m -> drop (Z.to_nat n) (seqZ a m) = seqZ (a + n) (m - n).
Proof.
  intros. replace (seqZ a m) with (seqZ a n ++ seqZ (a + n) (m - n)) by (rewrite <- seqZ_split by lia; f_equal; lia).
  apply drop_app_length'. rewrite length_seqZ. done.
Qed.

(** *** Disjointness and inclusion of address lists

    The facts that the proofs need follow from a few hypotheses [A ## B] and
    [A ⊆ B] by following one address. *)

Lemma disjoint_app (A B D : list Z) : A ## B ++ D <-> A ## B /\ A ## D.
Proof. set_solver. Qed.

Lemma disjoint_app_l (A B D : list Z) : A ++ B ## D <-> A ## D /\ B ## D.
Proof. set_solver. Qed.

Ltac split_apart :=
  repeat match goal with
  | H : _ ## _ ++ _ |- _ => apply disjoint_app in H as [? ?]
  | H : _ ++ _ ## _ |- _ => apply disjoint_app_l in H as [? ?]
  end.

(** [follow z]: everywhere that [z] is known to be. *)
Ltac follow z :=
  repeat match goal with
  | H : z ∈ _ ++ _ |- _ => apply elem_of_app in H as [H|H]
  | S : ?A ⊆ ?B, H : z ∈ ?A |- _ =>
    lazymatch goal with _ : z ∈ B |- _ => fail | _ => pose proof (S z H) end
  end.

Ltac solve_apart :=
  let z := fresh "z" in let H1 := fresh in let H2 := fresh in
  intros z H1 H2; follow z;
  match goal with D : ?A ## ?B, K1 : z ∈ ?A, K2 : z ∈ ?B |- _ => exact (D z K1 K2) end.

Ltac solve_sub :=
  let z := fresh "z" in let H := fresh in
  intros z H; follow z; rewrite ?elem_of_app; tauto.

(** ** Reading *)

Definition mapped (m : gmap Z Z) (l : list Z) : Prop := forall a, a ∈ l -> is_Some (m !! a).

Lemma peek_nil m : peek m [] = Some [].
Proof. reflexivity. Qed.

Lemma peek_cons m a l : peek m (a :: l) = (x ← m !! a; b ← peek m l; Some (x :: b)).
Proof. reflexivity. Qed.

Lemma peek_app m l1 l2 : peek m (l1 ++ l2) = (b1 ← peek m l1; b2 ← peek m l2; Some (b1 ++ b2)).
Proof.
  induction l1 as [|a l1 IH]; [rewrite app_nil_l, peek_nil; simpl; by destruct (peek m l2)|].
  rewrite <- app_comm_cons, !peek_cons, IH.
  destruct (m !! a), (peek m l1), (peek m l2); done.
Qed.

Lemma peek_app_Some m l1 l2 b1 b2 :
  peek m l1 = Some b1 -> peek m l2 = Some b2 -> peek m (l1 ++ l2) = Some (b1 ++ b2).
Proof. intros H1 H2. by rewrite peek_app, H1; simpl; rewrite H2. Qed.

Lemma peek_length m l b : peek m l = Some b -> length b = length l.
Proof.
  revert b. induction l as [|a l IH]; intros b; [intros [= <-]; done|]. rewrite peek_cons.
  destruct (m !! a); [|done]. destruct (peek m l); [|done]. intros [= <-]. simpl. by rewrite (IH l0).
Qed.

Lemma peek_app_inv m l1 l2 b :
  peek m (l1 ++ l2) = Some b ->
  peek m l1 = Some (take (length l1) b) /\ peek m l2 = Some (drop (length l1) b).
Proof.
  rewrite peek_app. destruct (peek m l1) as [b1|] eqn:H1; [|done]. destruct (peek m l2) as [b2|] eqn:H2; [|done].
  intros [= <-]. rewrite <- (peek_length _ _ _ H1), take_app_length, drop_app_length. done.
Qed.

Lemma peek_take_drop m l b (n : nat) :
  peek m l = Some b -> peek m (take n l) = Some (take n b) /\ peek m (drop n l) = Some (drop n b).
Proof.
  intros H. pose proof (peek_length _ _ _ H) as Hl. destruct (decide (n <= length l)%nat) as [Hn|Hn].
  - rewrite <- (take_drop n l) in H. apply peek_app_inv in H. rewrite length_take, Nat.min_l in H by done. done.
  - rewrite !take_ge, !drop_ge by lia. done.
Qed.

Lemma peek_mapped m l : mapped m l <-> exists b, peek m l = Some b.
Proof.
  unfold mapped. induction l as [|a l IH].
  - split; [by exists []|]. intros _ a Ha. by apply elem_of_nil in Ha.
  - rewrite peek_cons. split.
    + intros H. destruct (H a) as (x & ->); [left|]. destruct (proj1 IH) as (b & ->); [|simpl; eauto].
      intros a' Ha'. apply H. by right.
    + destruct (m !! a) eqn:Ha; [|by intros (? & ?)]. destruct (peek m l) eqn:Hl; [|by intros (? & ?)].
      intros _ a' [->|Ha']%elem_of_cons; [by rewrite Ha|]. apply (proj2 IH); eauto.
Qed.

Lemma peek_ext m m' l : (forall a, a ∈ l -> m' !! a = m !! a) -> peek m' l = peek m l.
Proof.
  induction l as [|a l IH]; intros H; [done|]. rewrite !peek_cons, IH, (H a) by (left || (intros; apply H; by right)). done.
Qed.

(** ** What an operation may change *)

Record modifies (X : list Z) (m m' : gmap Z Z) : Prop := {
  mod_same a : a ∉ X -> m' !! a = m !! a;
  mod_dom a : is_Some (m !! a) -> is_Some (m' !! a)
}.

Lemma modifies_refl X m : modifies X m m.
Proof. by split. Qed.

Lemma modifies_weaken X Y m m' : modifies X m m' -> X ⊆ Y -> modifies Y m m'.
Proof. intros [H1 H2] HXY. split; [|done]. intros a Ha. apply H1. set_solver. Qed.

Lemma modifies_trans X Y W m1 m2 m3 :
  modifies X m1 m2 -> modifies Y m2 m3 -> X ⊆ W -> Y ⊆ W -> modifies W m1 m3.
Proof.
  intros [H1 H2] [H3 H4] HX HY. split; [|by auto].
  intros a Ha. rewrite H3, H1 by set_solver. done.
Qed.

Lemma modifies_peek X m m' l : modifies X m m' -> l ## X -> peek m' l = peek m l.
Proof. intros [H _] Hd. apply peek_ext. intros a Ha. apply H. set_solver. Qed.

Lemma modifies_mapped X m m' l : modifies X m m' -> mapped m l -> mapped m' l.
Proof. intros [_ H] Hm a Ha. by apply H, Hm. Qed.

(** ** Writing *)

Lemma poke_ok m l b :
  NoDup l -> length b = length l -> mapped m l ->
  exists m', poke m l b = Some m' /\ peek m' l = Some b /\ modifies l m m'.
Proof.
  revert m b. induction l as [|a l IH]; intros m [|x b] Hn Hl Hm; simpl in Hl; try lia.
  - exists m. split; [done|]. split; [done|apply modifies_refl].
  - apply NoDup_cons in Hn as [Ha Hn]. cbn [poke]. destruct (Hm a) as (y & Hy); [left|]. rewrite Hy.
    destruct (IH (<[a:=x]> m) b Hn) as (m' & -> & Hp & Hmod); [lia| |].
    { intros c Hc. rewrite lookup_insert_ne by (intros ->; done). apply Hm. by right. }
    exists m'. split; [done|]. split.
    + rewrite peek_cons, Hp, (mod_same _ _ _ Hmod a Ha), lookup_insert_eq. done.
    + split.
      * intros c Hc. rewrite (mod_same _ _ _ Hmod) by set_solver. rewrite lookup_insert_ne by set_solver. done.
      * intros c Hc. apply (mod_dom _ _ _ Hmod). destruct (decide (c = a)) as [->|?]; [by rewrite lookup_insert_eq|].
        by rewrite lookup_insert_ne.
Qed.

(** ** The memory operations of the monad *)

Section Monad.
Context {C : Type}.
Implicit Types (s : cstate C).

Definition with_mem s (m : gmap Z Z) : cstate C := CState m (cctx s) (crt_flags s).

Lemma CM_bind_eq {A B} (x : CM C A) (f : A -> CM C B) s v s' : x s = Some (v, s') -> (x ≫= f) s = f v s'.
Proof. apply SM_bind_eq. Qed.

Lemma rd_ok s a n b : peek (cmem s) (seqZ a n) = Some b -> rd a n s = Some (b, s).
Proof. intros H. unfold rd. by rewrite H. Qed.

Lemma wr_ok s a b :
  mapped (cmem s) (seqZ a (zlen b)) ->
  exists m', wr a b s = Some (tt, with_mem s m') /\ peek m' (seqZ a (zlen b)) = Some b /\
    modifies (seqZ a (zlen b)) (cmem s) m'.
Proof.
  intros Hm. unfold wr. destruct (poke_ok (cmem s) (seqZ a (zlen b)) b) as (m' & -> & H);
    [apply NoDup_seqZ|unfold zlen; by rewrite length_seqZ_nat|done|]. by exists m'.
Qed.

Lemma memcpy_ok s dst src n b :
  0 <= n -> peek (cmem s) (seqZ src n) = Some b -> mapped (cmem s) (seqZ dst n) ->
  exists m', Cipher.memcpy dst src n s = Some (tt, with_mem s m') /\ peek m' (seqZ dst n) = Some b /\
    modifies (seqZ dst n) (cmem s) m'.
Proof.
  intros Hn Hb Hm. unfold Cipher.memcpy. rewrite (CM_bind_eq _ _ _ _ _ (rd_ok _ _ _ _ Hb)).
  assert (Hl : zlen b = n) by (unfold zlen; rewrite (peek_length _ _ _ Hb), length_seqZ; lia).
  destruct (wr_ok s dst b) as (m' & E & H); rewrite Hl in *; [done|]. by exists m'.
Qed.
End Monad.
