(* ===== verification/CipherModes.v ===== *)
(** The process functions of [crypto/cipher.c] on one contiguous buffer: ECB and
    CBC over any block cipher, in place or from one buffer to another. *)
From Stdlib Require Import ZArith Lia.
From stdpp Require Import base numbers list list_numbers option gmap sets.
From S2P Require Import Prelude Bytes Cipher CipherMem.

Local Open Scope Z_scope.

(** ** Exclusive or of blocks in memory *)

Section Xor.
Context {C : Type}.
Implicit Types (s : cstate C).

Definition xor_spec (n : nat) (xor : Z -> Z -> CM C unit) : Prop := forall s a b x y,
  peek (cmem s) (seqZ a (Z.of_nat n)) = Some x -> is_bytes n x ->
  peek (cmem s) (seqZ b (Z.of_nat n)) = Some y -> is_bytes n y ->
  seqZ a (Z.of_nat n) ## seqZ b (Z.of_nat n) ->
  exists m', xor a b s = Some (tt, with_mem s m') /\
    peek m' (seqZ a (Z.of_nat n)) = Some (xor_bytes x y) /\ modifies (seqZ a (Z.of_nat n)) (cmem s) m'.

Lemma xor_word_ok : xor_spec 4 (@xor_word C).
Proof.
  intros s a b x y Hx [Hlx Hux] Hy [Hly Huy] Hd. unfold xor_word. simpl Z.of_nat in *.
  rewrite (CM_bind_eq _ _ _ _ _ (rd_ok _ _ _ _ Hx)), (CM_bind_eq _ _ _ _ _ (rd_ok _ _ _ _ Hy)).
  destruct (wr_ok s a (le_bytes 4 (Z.lxor (le_word x) (le_word y)))) as (m' & E & Hp & Hm).
  { unfold zlen. rewrite length_le_bytes. apply peek_mapped. by exists x. }
  exists m'. split; [exact E|]. unfold zlen in *. rewrite length_le_bytes in *.
  split; [|done]. rewrite Hp. f_equal. rewrite <- Hlx. apply le_bytes_lxor; [done|done|lia].
Qed.

(** Two blocks one after the other. *)
Lemma xor_seq n m (f g : Z -> Z -> CM C unit) :
  xor_spec n f -> xor_spec m g ->
  xor_spec (n + m) (fun a b => _ ← f a b; g (a + Z.of_nat n) (b + Z.of_nat n)).
Proof.
  intros Hf Hg s a b x y Hx Hxb Hy Hyb Hd.
  destruct (is_bytes_split n m x Hxb) as [Hx1 Hx2]. destruct (is_bytes_split n m y Hyb) as [Hy1 Hy2].
  rewrite Nat2Z.inj_add in *. rewrite !seqZ_split in * by lia.
  apply peek_app_inv in Hx as [Px1 Px2]. apply peek_app_inv in Hy as [Py1 Py2]. rewrite !length_seqZ_nat in *.
  destruct (Hf s a b _ _ Px1 Hx1 Py1 Hy1) as (m1 & E1 & P1 & M1); [set_solver|].
  rewrite (CM_bind_eq _ _ _ _ _ E1).
  destruct (Hg (with_mem s m1) (a + Z.of_nat n) (b + Z.of_nat n) (drop n x) (drop n y)) as (m2 & E2 & P2 & M2).
  - simpl. rewrite (modifies_peek _ _ _ _ M1); [done|]. intros z. rewrite !elem_of_seqZ. lia.
  - done.
  - simpl. rewrite (modifies_peek _ _ _ _ M1); [done|set_solver].
  - done.
  - set_solver.
  - exists m2. split; [exact E2|]. split.
    + rewrite <- (take_drop n x), <- (take_drop n y), xor_bytes_app by (rewrite (proj1 Hx1), (proj1 Hy1); done).
      apply peek_app_Some; [|done]. rewrite (modifies_peek _ _ _ _ M2); [done|].
      intros z. rewrite !elem_of_seqZ. lia.
    + eapply modifies_trans; [exact M1|exact M2|set_solver|set_solver].
Qed.

Lemma xor_64_ok : xor_spec 8 (@xor_64 C).
Proof. exact (xor_seq 4 4 _ _ xor_word_ok xor_word_ok). Qed.

Lemma xor_128_ok : xor_spec 16 (@xor_128 C).
Proof.
  intros s a b x y Hx Hxb Hy Hyb Hd.
  destruct (xor_seq 4 12 _ _ xor_word_ok (xor_seq 4 8 _ _ xor_word_ok (xor_seq 4 4 _ _ xor_word_ok xor_word_ok))
    s a b x y Hx Hxb Hy Hyb Hd) as (m' & E & H).
  exists m'. split; [|done]. rewrite <- E. unfold xor_128. simpl Z.of_nat.
  by rewrite <- !Z.add_assoc.
Qed.
End Xor.

(** ** The modes, on byte strings *)

Section Modes.
Context {C : Type}.
Implicit Types (f : block_fn C) (st : C * bytes).

(** One block: the state is the cipher's context and the chaining value. *)
Definition step_fn : Type := C * bytes -> bytes -> option (bytes * (C * bytes)).

Definition ecb_step f : step_fn := fun st b =>
  '(e, c) ← f (fst st) b; Some (e, (c, snd st)).
Definition cbc_enc_step f : step_fn := fun st b =>
  '(e, c) ← f (fst st) (xor_bytes (snd st) b); Some (e, (c, e)).
Definition cbc_dec_step f : step_fn := fun st b =>
  '(d, c) ← f (fst st) b; Some (xor_bytes d (snd st), (c, b)).

(** [n] blocks of [bs] bytes. *)
Fixpoint run (step : step_fn) (bs n : nat) st (b : bytes) : option (bytes * (C * bytes)) :=
  match n with
  | O => Some ([], st)
  | S n => '(e, st) ← step st (take bs b); '(es, st) ← run step bs n st (drop bs b); Some (e ++ es, st)
  end.

Lemma run_add step bs n m st b :
  run step bs (n + m) st b =
    ('(e1, st1) ← run step bs n st b; '(e2, st2) ← run step bs m st1 (drop (n * bs) b); Some (e1 ++ e2, st2)).
Proof.
  revert st b. induction n as [|n IH]; intros st b; simpl.
  - rewrite drop_0. destruct (run step bs m st b) as [[? ?]|]; done.
  - destruct (step st (take bs b)) as [[e st1]|]; simpl; [|done]. rewrite IH.
    destruct (run step bs n st1 (drop bs b)) as [[e1 st2]|]; simpl; [|done].
    rewrite drop_drop. destruct (run step bs m st2 _) as [[e2 st3]|]; simpl; [|done]. by rewrite app_assoc.
Qed.

Lemma run_take step bs n st b k : (n * bs <= k)%nat -> run step bs n st (take k b) = run step bs n st b.
Proof.
  revert st b k. induction n as [|n IH]; intros st b k Hk; [done|]. simpl in *.
  rewrite take_take, Nat.min_l by lia. destruct (step st (take bs b)) as [[e st1]|]; simpl; [|done].
  by rewrite skipn_firstn_comm, IH by lia.
Qed.

(** What a block cipher promises to the mode functions. *)
Definition fn_spec (bs : nat) (ctx_ok : C -> Prop) f : Prop := forall c b,
  ctx_ok c -> is_bytes bs b -> exists e c', f c b = Some (e, c') /\ is_bytes bs e /\ ctx_ok c'.

Definition step_spec (bs ivs : nat) (ctx_ok : C -> Prop) (step : step_fn) : Prop := forall c iv b,
  ctx_ok c -> is_bytes ivs iv -> is_bytes bs b ->
  exists e c' iv', step (c, iv) b = Some (e, (c', iv')) /\ is_bytes bs e /\ ctx_ok c' /\ is_bytes ivs iv'.

Lemma run_total bs ivs ctx_ok step n c iv b :
  step_spec bs ivs ctx_ok step -> ctx_ok c -> is_bytes ivs iv -> is_bytes (n * bs) b ->
  exists e c' iv', run step bs n (c, iv) b = Some (e, (c', iv')) /\ is_bytes (n * bs) e /\ ctx_ok c' /\ is_bytes ivs iv'.
Proof.
  intros Hs. revert c iv b. induction n as [|n IH]; intros c iv b Hc Hiv Hb; [by exists [], c, iv|].
  simpl in Hb. destruct (is_bytes_split bs (n * bs) b Hb) as [Hb1 Hb2]. cbn [run].
  destruct (Hs c iv _ Hc Hiv Hb1) as (e1 & c1 & iv1 & -> & He1 & Hc1 & Hiv1). cbn [mbind option_bind].
  destruct (IH c1 iv1 _ Hc1 Hiv1 Hb2) as (e2 & c2 & iv2 & -> & He2 & Hc2 & Hiv2). cbn [mbind option_bind].
  exists (e1 ++ e2), c2, iv2. split; [done|]. split; [by apply is_bytes_app|done].
Qed.

Lemma ecb_step_ok bs ivs ctx_ok f : fn_spec bs ctx_ok f -> step_spec bs ivs ctx_ok (ecb_step f).
Proof.
  intros Hf c iv b Hc Hiv Hb. destruct (Hf c b Hc Hb) as (e & c' & He & Heb & Hc').
  exists e, c', iv. unfold ecb_step. simpl. rewrite He. done.
Qed.

Lemma cbc_enc_step_ok bs ctx_ok f : fn_spec bs ctx_ok f -> step_spec bs bs ctx_ok (cbc_enc_step f).
Proof.
  intros Hf c iv b Hc Hiv Hb. destruct (Hf c (xor_bytes iv b) Hc) as (e & c' & He & Heb & Hc'); [by apply xor_bytes_ok|].
  exists e, c', e. unfold cbc_enc_step. simpl. rewrite He. done.
Qed.

Lemma cbc_dec_step_ok bs ctx_ok f : fn_spec bs ctx_ok f -> step_spec bs bs ctx_ok (cbc_dec_step f).
Proof.
  intros Hf c iv b Hc Hiv Hb. destruct (Hf c b Hc Hb) as (e & c' & He & Heb & Hc').
  exists (xor_bytes e iv), c', b. unfold cbc_dec_step. simpl. rewrite He. split; [done|]. split; [by apply xor_bytes_ok|done].
Qed.

(** *** Decryption undoes encryption *)

(** [g] undoes [f] block by block, with the same changes of the context. *)
Definition fn_inverse (bs : nat) (ctx_ok : C -> Prop) f (g : block_fn C) : Prop := forall c b,
  ctx_ok c -> is_bytes bs b ->
  exists e c', f c b = Some (e, c') /\ is_bytes bs e /\ ctx_ok c' /\ g c e = Some (b, c').

Lemma fn_inverse_spec bs ctx_ok f g : fn_inverse bs ctx_ok f g -> fn_spec bs ctx_ok f.
Proof. intros H c b Hc Hb. destruct (H c b Hc Hb) as (e & c' & ? & ? & ? & _). eauto. Qed.

Definition steps_inverse (bs ivs : nat) (ctx_ok : C -> Prop) (enc dec : step_fn) : Prop := forall c iv b,
  ctx_ok c -> is_bytes ivs iv -> is_bytes bs b ->
  exists e c' iv', enc (c, iv) b = Some (e, (c', iv')) /\ is_bytes bs e /\ ctx_ok c' /\ is_bytes ivs iv' /\
    dec (c, iv) e = Some (b, (c', iv')).

Lemma ecb_inverse bs ivs ctx_ok f g :
  fn_inverse bs ctx_ok f g -> steps_inverse bs ivs ctx_ok (ecb_step f) (ecb_step g).
Proof.
  intros H c iv b Hc Hiv Hb. destruct (H c b Hc Hb) as (e & c' & He & Heb & Hc' & Hg).
  exists e, c', iv. unfold ecb_step. simpl. rewrite He, Hg. done.
Qed.

Lemma cbc_inverse bs ctx_ok f g :
  fn_inverse bs ctx_ok f g -> steps_inverse bs bs ctx_ok (cbc_enc_step f) (cbc_dec_step g).
Proof.
  intros H c iv b Hc Hiv Hb.
  destruct (H c (xor_bytes iv b) Hc) as (e & c' & He & Heb & Hc' & Hg); [by apply xor_bytes_ok|].
  exists e, c', e. unfold cbc_enc_step, cbc_dec_step. simpl. rewrite He, Hg. simpl.
  rewrite xor_bytes_twice; [done|]. by rewrite (proj1 Hiv), (proj1 Hb).
Qed.

Lemma run_inverse bs ivs ctx_ok enc dec n c iv b :
  steps_inverse bs ivs ctx_ok enc dec -> ctx_ok c -> is_bytes ivs iv -> is_bytes (n * bs) b ->
  exists e c' iv', run enc bs n (c, iv) b = Some (e, (c', iv')) /\ is_bytes (n * bs) e /\
    ctx_ok c' /\ is_bytes ivs iv' /\ run dec bs n (c, iv) e = Some (b, (c', iv')).
Proof.
  intros Hs. revert c iv b. induction n as [|n IH]; intros c iv b Hc Hiv Hb.
  - destruct b; [|by destruct Hb]. by exists [], c, iv.
  - simpl in Hb. destruct (is_bytes_split bs (n * bs) b Hb) as [Hb1 Hb2]. cbn [run].
    destruct (Hs c iv _ Hc Hiv Hb1) as (e1 & c1 & iv1 & -> & He1 & Hc1 & Hiv1 & D1). cbn [mbind option_bind].
    destruct (IH c1 iv1 _ Hc1 Hiv1 Hb2) as (e2 & c2 & iv2 & -> & He2 & Hc2 & Hiv2 & D2). cbn [mbind option_bind].
    exists (e1 ++ e2), c2, iv2. split; [done|]. split; [by apply is_bytes_app|]. split; [done|]. split; [done|].
    rewrite take_app_length' by (by rewrite (proj1 He1)). rewrite drop_app_length' by (by rewrite (proj1 He1)).
    rewrite D1. cbn [mbind option_bind]. rewrite D2. cbn [mbind option_bind]. by rewrite take_drop.
Qed.
End Modes.

(** ** The process functions refine the modes *)

Lemma disjoint_mono (A B A' B' : list Z) : A ## B -> A' ⊆ A -> B' ⊆ B -> A' ## B'.
Proof. intros H HA HB z Hz1 Hz2. exact (H z (HA z Hz1) (HB z Hz2)). Qed.

Lemma seqZ_sub a n a' n' : a <= a' -> a' + n' <= a + n -> seqZ a' n' ⊆ seqZ a n.
Proof. intros ? ? z. rewrite !elem_of_seqZ. lia. Qed.

(** A source that is the destination or apart from it. *)
Definition apart (src dst n : Z) : Prop := src = dst \/ seqZ src n ## seqZ dst n.

(** The memory in which [n] bytes [b] at [src] can be processed to [dst], with the
    chaining value [iv] at the addresses [I] and scratch memory [X]. *)
Record ready (m : gmap Z Z) (I X : list Z) (dst src n : Z) (b iv : bytes) : Prop := {
  rdy_src : peek m (seqZ src n) = Some b;
  rdy_bytes : is_bytes (Z.to_nat n) b;
  rdy_iv : peek m I = Some iv;
  rdy_ivb : is_bytes (length I) iv;
  rdy_dst : mapped m (seqZ dst n);
  rdy_X : mapped m X;
  rdy_apart : apart src dst n;
  rdy_DI : seqZ dst n ## I;
  rdy_SI : seqZ src n ## I;
  rdy_DX : seqZ dst n ## X;
  rdy_SX : seqZ src n ## X;
  rdy_IX : I ## X
}.

Lemma ready_head m I X dst src n k b iv :
  0 <= k <= n -> ready m I X dst src n b iv -> ready m I X dst src k (take (Z.to_nat k) b) iv.
Proof.
  intros Hk [Hs [Hl Hb] Hiv Hivb HD HX Hap HDI HSI HDX HSX HIX].
  assert (HsD : seqZ dst k ⊆ seqZ dst n) by (apply seqZ_sub; lia).
  assert (HsS : seqZ src k ⊆ seqZ src n) by (apply seqZ_sub; lia).
  split; try done; first [by apply (disjoint_mono _ _ _ _ HDI)|by apply (disjoint_mono _ _ _ _ HSI)|by apply (disjoint_mono _ _ _ _ HDX)|by apply (disjoint_mono _ _ _ _ HSX)|idtac].
  - apply (peek_take_drop _ _ _ (Z.to_nat k)) in Hs as [Hs _]. by rewrite take_seqZ in Hs by lia.
  - split; [rewrite length_take; lia|by apply Forall_take].
  - intros a Ha. apply HD, HsD, Ha.
  - destruct Hap as [->|Hap]; [by left|right]. by apply (disjoint_mono _ _ _ _ Hap).
Qed.

Lemma ready_tail m m1 I X dst src n k b iv iv1 :
  0 <= k <= n -> ready m I X dst src n b iv ->
  modifies (seqZ dst k ++ I ++ X) m m1 -> peek m1 I = Some iv1 -> is_bytes (length I) iv1 ->
  ready m1 I X (dst + k) (src + k) (n - k) (drop (Z.to_nat k) b) iv1.
Proof.
  intros Hk [Hs [Hl Hb] Hiv Hivb HD HX Hap HDI HSI HDX HSX HIX] Hm Hiv1 Hivb1.
  assert (HsD : seqZ (dst + k) (n - k) ⊆ seqZ dst n) by (apply seqZ_sub; lia).
  assert (HsS : seqZ (src + k) (n - k) ⊆ seqZ src n) by (apply seqZ_sub; lia).
  assert (HsD0 : seqZ dst k ⊆ seqZ dst n) by (apply seqZ_sub; lia).
  split; try done; first [by apply (disjoint_mono _ _ _ _ HDI)|by apply (disjoint_mono _ _ _ _ HSI)|by apply (disjoint_mono _ _ _ _ HDX)|by apply (disjoint_mono _ _ _ _ HSX)|idtac].
  - rewrite (modifies_peek _ _ _ _ Hm).
    + apply (peek_take_drop _ _ _ (Z.to_nat k)) in Hs as [_ Hs]. by rewrite drop_seqZ in Hs by lia.
    + intros z Hz [Hz'|[Hz'|Hz']%elem_of_app]%elem_of_app; [|exact (HSI z (HsS z Hz) Hz')|exact (HSX z (HsS z Hz) Hz')].
      destruct Hap as [->|Hap]; [rewrite !elem_of_seqZ in *; lia|]. exact (Hap z (HsS z Hz) (HsD0 z Hz')).
  - split; [rewrite length_drop; lia|by apply Forall_drop].
  - apply (modifies_mapped _ _ _ _ Hm). intros a Ha. apply HD, HsD, Ha.
  - by apply (modifies_mapped _ _ _ _ Hm).
  - destruct Hap as [->|Hap]; [by left|right]. by apply (disjoint_mono _ _ _ _ Hap).
Qed.

Section Process.
Context {C : Type} (ctx_ok : C -> Prop) (bs : nat) (Hbs : (0 < bs)%nat).
Context (step : @step_fn C) (I X : list Z) (Hstep : step_spec bs (length I) ctx_ok step).
Implicit Types (s : cstate C) (d : cipher_desc C).

(** [body] performs [step] on one block where [cond] holds of the pointers. *)
Definition body_spec (cond : Z -> Z -> Prop) (body : Z -> Z -> CM C unit) : Prop :=
  forall s dst src b iv,
    ctx_ok (cctx s) -> ready (cmem s) I X dst src (Z.of_nat bs) b iv -> cond dst src ->
    exists e c' iv' m', step (cctx s, iv) b = Some (e, (c', iv')) /\
      body dst src s = Some (tt, CState m' c' (crt_flags s)) /\
      peek m' (seqZ dst (Z.of_nat bs)) = Some e /\ peek m' I = Some iv' /\
      modifies (seqZ dst (Z.of_nat bs) ++ I ++ X) (cmem s) m'.

(** The outcome of processing [n] blocks. *)
Definition processed s (dst : Z) (n : nat) (b iv : bytes) (r : Z) (o : option (Z * cstate C)) : Prop :=
  exists e c' iv' m', run step bs n (cctx s, iv) b = Some (e, (c', iv')) /\ ctx_ok c' /\
    o = Some (r, CState m' c' (crt_flags s)) /\
    peek m' (seqZ dst (Z.of_nat (n * bs))) = Some e /\ peek m' I = Some iv' /\ is_bytes (length I) iv' /\
    modifies (seqZ dst (Z.of_nat (n * bs)) ++ I ++ X) (cmem s) m'.

(** [prfn] performs [run step] on as many blocks as fit in [nbytes]. *)
Definition process_spec d (prfn : process_fn C) : Prop :=
  forall s dst src nbytes b iv (n : nat),
    (1 <= n)%nat -> Z.of_nat (n * bs) <= nbytes < Z.of_nat (S n * bs) -> nbytes < 2^32 ->
    ctx_ok (cctx s) -> ready (cmem s) I X dst src (Z.of_nat (n * bs)) b iv ->
    processed s dst n b iv (Z.of_nat (n * bs)) (prfn d dst src nbytes s).

(** One block in front of [n] others. *)
Lemma processed_cons s dst n b iv e1 c1 iv1 m1 r o :
  step (cctx s, iv) (take bs b) = Some (e1, (c1, iv1)) ->
  peek m1 (seqZ dst (Z.of_nat bs)) = Some e1 ->
  modifies (seqZ dst (Z.of_nat bs) ++ I ++ X) (cmem s) m1 ->
  seqZ dst (Z.of_nat bs) ## I -> seqZ dst (Z.of_nat bs) ## X ->
  processed (CState m1 c1 (crt_flags s)) (dst + Z.of_nat bs) n (drop bs b) iv1 r o ->
  processed s dst (S n) b iv r o.
Proof.
  intros E1 P1 M1 HDI HDX (e2 & c2 & iv2 & m2 & R2 & Hc2 & -> & P2 & PI2 & HI2 & M2). simpl in *.
  exists (e1 ++ e2), c2, iv2, m2. cbn [run]. rewrite E1. cbn [mbind option_bind]. rewrite R2.
  split; [done|]. split; [done|]. split; [done|].
  change (S n * bs)%nat with (bs + n * bs)%nat. rewrite Nat2Z.inj_add, seqZ_split by lia. split; [|split; [done|split; [done|]]].
  - apply peek_app_Some; [|done]. rewrite (modifies_peek _ _ _ _ M2); [done|].
    intros z Hz [Hz'|[Hz'|Hz']%elem_of_app]%elem_of_app; [|exact (HDI z Hz Hz')|exact (HDX z Hz Hz')].
    rewrite !elem_of_seqZ in *. lia.
  - eapply modifies_trans; [exact M1|exact M2| |]; intros z; rewrite !elem_of_app; tauto.
Qed.

Lemma processed_nil s dst iv r o : ctx_ok (cctx s) -> is_bytes (length I) iv -> peek (cmem s) I = Some iv ->
  o = Some (r, s) -> processed s dst 0 [] iv r o.
Proof.
  intros Hc HI PI ->. exists [], (cctx s), iv, (cmem s). destruct s. simpl. by split_and!.
Qed.

Lemma process_loop_ok cond body (n fuel : nat) s dst src done nbytes b iv :
  body_spec cond body -> (forall i : nat, cond (dst + Z.of_nat (i * bs)) (src + Z.of_nat (i * bs))) ->
  (n < fuel)%nat -> 0 <= done -> done + Z.of_nat (n * bs) <= nbytes < done + Z.of_nat (S n * bs) ->
  nbytes + Z.of_nat bs < 2^32 -> ctx_ok (cctx s) ->
  ready (cmem s) I X dst src (Z.of_nat (S n * bs)) b iv ->
  processed s dst (S n) b iv (done + Z.of_nat (S n * bs))
    (process_loop fuel (Z.of_nat bs) body dst src done nbytes s).
Proof.
  intros Hbody. revert fuel s dst src done b iv.
  induction n as [|n IH]; intros [|fuel] s dst src done b iv Hcond Hf Hd Hn Hmax Hc Hr; try lia.
  all: pose proof (fun H => ready_head _ _ _ _ _ _ (Z.of_nat bs) _ _ H Hr) as Hh; specialize (Hh ltac:(nia)); rewrite Nat2Z.id in Hh.
  all: destruct (Hbody s dst src (take bs b) iv Hc Hh) as (e1 & c1 & iv1 & m1 & E1 & B1 & P1 & PI1 & M1);
    [specialize (Hcond 0%nat); by rewrite !Z.add_0_r in Hcond|].
  all: destruct (Hstep (cctx s) iv (take bs b) Hc (rdy_ivb _ _ _ _ _ _ _ _ Hr)) as (e1' & c1' & iv1' & E1' & He1 & Hc1 & Hi1);
    [pose proof (rdy_bytes _ _ _ _ _ _ _ _ Hh) as H; by rewrite Nat2Z.id in H|].
  all: assert ((e1', (c1', iv1')) = (e1, (c1, iv1))) as [= -> -> ->] by congruence.
  all: eapply processed_cons; [exact E1|exact P1|exact M1|apply (rdy_DI _ _ _ _ _ _ _ _ Hh)|apply (rdy_DX _ _ _ _ _ _ _ _ Hh)|].
  all: cbn [process_loop]; rewrite (CM_bind_eq _ _ _ _ _ B1).
  all: rewrite (u32_small (done + Z.of_nat bs)) by (unfold is_u32; lia).
  - rewrite decide_False by lia.
    assert (drop bs b = []) as ->.
    { pose proof (proj1 (rdy_bytes _ _ _ _ _ _ _ _ Hr)). apply nil_length_inv. rewrite length_drop. lia. }
    apply processed_nil; [done|done|done|]. unfold mret, CM_ret, SM_ret. repeat f_equal. lia.
  - rewrite decide_True by lia.
    pose proof (fun H => ready_tail _ m1 _ _ _ _ _ (Z.of_nat bs) _ _ iv1 H Hr M1 PI1 Hi1) as Ht. specialize (Ht ltac:(nia)).
    rewrite Nat2Z.id in Ht. replace (Z.of_nat (S (S n) * bs) - Z.of_nat bs) with (Z.of_nat (S n * bs)) in Ht by lia.
    replace (done + Z.of_nat (S (S n) * bs)) with (done + Z.of_nat bs + Z.of_nat (S n * bs)) by lia.
    apply IH; [|lia|lia|lia|lia|done|done].
    intros i. specialize (Hcond (S i)). simpl in Hcond. rewrite Nat2Z.inj_add, !Z.add_assoc in Hcond. done.
Qed.

(** A process function is its body in the loop. *)
Lemma process_ok cond body d s dst src nbytes b iv (n : nat) :
  bsize d = Z.of_nat bs -> body_spec cond body ->
  (forall i : nat, cond (dst + Z.of_nat (i * bs)) (src + Z.of_nat (i * bs))) ->
  (1 <= n)%nat -> Z.of_nat (n * bs) <= nbytes < Z.of_nat (S n * bs) -> nbytes < 2^32 ->
  ctx_ok (cctx s) -> ready (cmem s) I X dst src (Z.of_nat (n * bs)) b iv ->
  processed s dst n b iv (Z.of_nat (n * bs)) (process d body dst src nbytes s).
Proof.
  intros Hd Hbody Hcond Hn Hnb Hmax Hc Hr. destruct n as [|n]; [lia|]. unfold process. rewrite Hd.
  rewrite (u32_small (nbytes - Z.of_nat bs)) by (unfold is_u32; lia).
  rewrite <- (Z.add_0_l (Z.of_nat (S n * bs))).
  eapply process_loop_ok; [exact Hbody|exact Hcond|nia|lia|lia|lia|done|done].
Qed.
End Process.

(** ** The three process functions *)

Section Functions.
Context {C : Type} (ctx_ok : C -> Prop) (bs : nat) (Hbs : (0 < bs)%nat) (f : block_fn C) (Hf : fn_spec bs ctx_ok f).
Implicit Types (s : cstate C) (d : cipher_desc C).

Local Abbreviation B := (Z.of_nat bs).

Lemma call_fn_ok s dst src b :
  ctx_ok (cctx s) -> peek (cmem s) (seqZ src B) = Some b -> is_bytes bs b -> mapped (cmem s) (seqZ dst B) ->
  exists e c' m', f (cctx s) b = Some (e, c') /\ is_bytes bs e /\ ctx_ok c' /\
    call_fn f B dst src s = Some (tt, CState m' c' (crt_flags s)) /\
    peek m' (seqZ dst B) = Some e /\ modifies (seqZ dst B) (cmem s) m'.
Proof.
  intros Hc Hb Hbb Hm. destruct (Hf _ _ Hc Hbb) as (e & c' & E & He & Hc').
  assert (Hz : zlen e = B) by (unfold zlen; by rewrite (proj1 He)).
  destruct (wr_ok (CState (cmem s) c' (crt_flags s)) dst e) as (m' & W & P & M); rewrite Hz in *; [done|].
  exists e, c', m'. do 3 (split; [done|]). split; [|done].
  unfold call_fn. rewrite (CM_bind_eq _ _ _ _ _ (rd_ok _ _ _ _ Hb)).
  erewrite CM_bind_eq by (unfold run_fn; rewrite E; reflexivity). exact W.
Qed.

Lemma ecb_body I X : body_spec ctx_ok bs (ecb_step f) I X (fun _ _ => True) (fun dst src => call_fn f B dst src).
Proof.
  intros s dst src b iv Hc [Hs Hb Hiv Hivb HD HX Hap HDI HSI HDX HSX HIX] _. rewrite Nat2Z.id in Hb.
  destruct (call_fn_ok s dst src b Hc Hs Hb HD) as (e & c' & m' & E & He & Hc' & W & P & M).
  exists e, c', iv, m'. unfold ecb_step. simpl. rewrite E. split; [done|]. split; [done|]. split; [done|].
  split; [rewrite (modifies_peek _ _ _ _ M); [done|set_solver]|].
  eapply modifies_weaken; [exact M|set_solver].
Qed.

(** *** CBC *)
Context (xor : Z -> Z -> CM C unit) (Hxor : xor_spec bs xor) (iv0 : Z).
Local Abbreviation I := (seqZ iv0 B).

Lemma cbc_enc_body X :
  body_spec ctx_ok bs (cbc_enc_step f) I X (fun _ _ => True)
    (fun dst src => _ ← xor iv0 src; _ ← call_fn f B dst iv0; Cipher.memcpy iv0 dst B).
Proof.
  intros s dst src b iv Hc [Hs Hb Hiv Hivb HD HX Hap HDI HSI HDX HSX HIX] _.
  rewrite Nat2Z.id in Hb. rewrite length_seqZ_nat in Hivb.
  destruct (Hxor s iv0 src iv b Hiv Hivb Hs Hb) as (m1 & E1 & P1 & M1); [set_solver|].
  destruct (call_fn_ok (with_mem s m1) dst iv0 (xor_bytes iv b)) as (e & c' & m2 & E & He & Hc' & E2 & P2 & M2);
    [done|done|by apply xor_bytes_ok|by apply (modifies_mapped _ _ _ _ M1)|]. simpl in *.
  destruct (memcpy_ok (CState m2 c' (crt_flags s)) iv0 dst B e) as (m3 & E3 & P3 & M3); [lia|done| |].
  { apply (modifies_mapped _ _ _ _ M2), (modifies_mapped _ _ _ _ M1), peek_mapped. by exists iv. }
  exists e, c', e, m3. unfold cbc_enc_step. simpl in *. rewrite E. split; [done|].
  split; [by rewrite (CM_bind_eq _ _ _ _ _ E1), (CM_bind_eq _ _ _ _ _ E2)|].
  split; [rewrite (modifies_peek _ _ _ _ M3); done|]. split; [done|].
  eapply modifies_trans; [|exact M3|done|set_solver].
  eapply modifies_trans; [exact M1|exact M2|set_solver|set_solver].
Qed.

Lemma cbc_dec_core s tmp dst src b iv :
  ctx_ok (cctx s) -> peek (cmem s) (seqZ src B) = Some b -> is_bytes bs b ->
  peek (cmem s) I = Some iv -> is_bytes bs iv -> mapped (cmem s) (seqZ tmp B) ->
  seqZ tmp B ## I -> seqZ src B ## I -> tmp = dst \/ src = dst /\ seqZ tmp B ## seqZ src B ->
  (tmp = dst -> seqZ src B ## seqZ dst B) -> mapped (cmem s) (seqZ dst B) -> seqZ dst B ## I ->
  exists e c' m', cbc_dec_step f (cctx s, iv) b = Some (e, (c', b)) /\
    (_ ← call_fn f B tmp src; _ ← xor tmp iv0; _ ← Cipher.memcpy iv0 src B;
     if decide (tmp <> dst) then Cipher.memcpy dst tmp B else mret tt) s = Some (tt, CState m' c' (crt_flags s)) /\
    peek m' (seqZ dst B) = Some e /\ peek m' I = Some b /\
    modifies (seqZ dst B ++ I ++ seqZ tmp B) (cmem s) m'.
Proof.
  intros Hc Hs Hb Hiv Hivb Htm HtI HsI Hcase Hne HD HDI.
  assert (Hts : seqZ tmp B ## seqZ src B).
  { destruct Hcase as [->|[-> ?]]; [|done]. intros z Hz1 Hz2. exact (Hne eq_refl z Hz2 Hz1). }
  destruct (call_fn_ok s tmp src b Hc Hs Hb Htm) as (e & c' & m1 & E & He & Hc' & E1 & P1 & M1).
  destruct (Hxor (CState m1 c' (crt_flags s)) tmp iv0 e iv) as (m2 & E2 & P2 & M2); [done|done| |done|done|].
  { simpl. rewrite (modifies_peek _ _ _ _ M1); [done|set_solver]. }
  simpl in *.
  destruct (memcpy_ok (CState m2 c' (crt_flags s)) iv0 src B b) as (m3 & E3 & P3 & M3); [lia| | |].
  { simpl. rewrite (modifies_peek _ _ _ _ M2), (modifies_peek _ _ _ _ M1); [done|set_solver|set_solver]. }
  { apply (modifies_mapped _ _ _ _ M2), (modifies_mapped _ _ _ _ M1), peek_mapped. by exists iv. }
  unfold cbc_dec_step. simpl in *. rewrite E. exists (xor_bytes e iv), c'.
  rewrite (CM_bind_eq _ _ _ _ _ E1), (CM_bind_eq _ _ _ _ _ E2), (CM_bind_eq _ _ _ _ _ E3).
  assert (P2' : peek m3 (seqZ tmp B) = Some (xor_bytes e iv)) by (rewrite (modifies_peek _ _ _ _ M3); done).
  assert (M123 : modifies (seqZ dst B ++ I ++ seqZ tmp B) (cmem s) m3).
  { eapply modifies_trans; [|exact M3|done|set_solver]. eapply modifies_trans; [exact M1|exact M2|set_solver|set_solver]. }
  destruct (decide (tmp <> dst)) as [Htd|Htd].
  - destruct (memcpy_ok (CState m3 c' (crt_flags s)) dst tmp B (xor_bytes e iv)) as (m4 & E4 & P4 & M4); [lia|done| |].
    { by apply (modifies_mapped _ _ _ _ M123). }
    exists m4. simpl in *. split; [done|]. split; [exact E4|]. split; [done|].
    split; [rewrite (modifies_peek _ _ _ _ M4); [done|set_solver]|].
    eapply modifies_trans; [exact M123|exact M4|done|set_solver].
  - exists m3. assert (tmp = dst) as <- by (destruct (decide (tmp = dst)); tauto). done.
Qed.

Lemma cbc_dec_body stack X (inplace : bool) :
  seqZ stack B ⊆ X ->
  body_spec ctx_ok bs (cbc_dec_step f) I X
    (fun dst src => bool_decide (src = dst) = inplace)
    (fun dst src =>
       let tmp_dst := if inplace then stack else dst in
       _ ← call_fn f B tmp_dst src; _ ← xor tmp_dst iv0; _ ← Cipher.memcpy iv0 src B;
       if decide (tmp_dst <> dst) then Cipher.memcpy dst tmp_dst B else mret tt).
Proof.
  intros HX0 s dst src b iv Hc [Hs Hb Hiv Hivb HD HX Hap HDI HSI HDX HSX HIX] Hcond.
  rewrite Nat2Z.id in Hb. rewrite length_seqZ_nat in Hivb. cbn zeta.
  assert (Hcond' : if inplace then src = dst else seqZ src B ## seqZ dst B).
  { destruct inplace; [by apply bool_decide_eq_true in Hcond|]. apply bool_decide_eq_false in Hcond.
    by destruct Hap. }
  clear Hcond.
  destruct (cbc_dec_core s (if inplace then stack else dst) dst src b iv) as (e & c' & m' & H); try done.
  - destruct inplace; [|done]. intros a Ha. apply HX, HX0, Ha.
  - destruct inplace; [|done]. set_solver.
  - destruct inplace; [right|by left]. split; [done|]. subst. set_solver.
  - destruct inplace; [|done]. intros ->. subst src. exfalso.
    assert (Hin : dst ∈ seqZ dst B) by (rewrite elem_of_seqZ; lia).
    exact (HDX dst Hin (HX0 dst Hin)).
  - exists e, c', b, m'. destruct H as (E1 & E2 & P1 & P2 & M). split_and!; try done.
    eapply modifies_weaken; [exact M|]. destruct inplace; set_solver.
Qed.

Lemma ecb_process_ok I0 X d : bsize d = B -> crfn d = f -> process_spec ctx_ok bs (ecb_step f) I0 X d ecb_process.
Proof.
  intros Hd Hcr s dst src nbytes b iv n Hn Hnb Hmax Hc Hr. unfold ecb_process. rewrite Hcr, Hd.
  eapply process_ok; [done|by apply ecb_step_ok|done|apply ecb_body|done|done..].
Qed.

Lemma cbc_encrypt_ok X d :
  bsize d = B -> crfn d = f -> xor_block d = xor -> info d = iv0 ->
  process_spec ctx_ok bs (cbc_enc_step f) I X d cbc_process_encrypt.
Proof.
  intros Hd Hcr Hx Hi s dst src nbytes b iv n Hn Hnb Hmax Hc Hr. unfold cbc_process_encrypt.
  rewrite Hcr, Hd, Hx, Hi.
  eapply process_ok; [done|rewrite length_seqZ_nat; by apply cbc_enc_step_ok|done|apply cbc_enc_body|done|done..].
Qed.

Lemma cbc_decrypt_ok stack X d :
  bsize d = B -> crfn d = f -> xor_block d = xor -> info d = iv0 -> seqZ stack B ⊆ X ->
  process_spec ctx_ok bs (cbc_dec_step f) I X d (cbc_process_decrypt stack).
Proof.
  intros Hd Hcr Hx Hi Hst s dst src nbytes b iv n Hn Hnb Hmax Hc Hr. unfold cbc_process_decrypt.
  rewrite Hcr, Hd, Hx, Hi.
  eapply process_ok; [done|rewrite length_seqZ_nat; by apply cbc_dec_step_ok|done|
    apply (cbc_dec_body stack X (bool_decide (src = dst)) Hst)| |done..].
  intros i. apply bool_decide_ext. lia.
Qed.
End Functions.
