(* ===== verification/CipherWalk.v ===== *)
(** Walking a scatterlist ([crypto/scatterwalk.c]): a [scatter_walk] stands for
    the list of addresses that it still has to visit. *)
From Stdlib Require Import ZArith Lia.
From stdpp Require Import base numbers list list_numbers option gmap sets.
From S2P Require Import Prelude Bytes Cipher CipherMem CipherModes.

Local Open Scope Z_scope.

(** The addresses of the bytes of a scatterlist, in order. *)
Definition sg_addr (g : scatterlist) : Z := sg_page g * PAGE_SIZE + sg_offset g.
Definition sg_addrs (l : list scatterlist) : list Z := l ≫= (fun g => seqZ (sg_addr g) (sg_length g)).

Definition sg_ok (g : scatterlist) : Prop := 0 < sg_length g < 2^32 /\ 0 <= sg_offset g < PAGE_SIZE.

(** [walk_at w A]: the walk has the addresses [A] in front of it. *)
Record walk_at (w : scatter_walk) (A : list Z) : Prop := {
  wa_len : 0 <= len_this_page w <= len_this_segment w;
  wa_seg : len_this_segment w < 2^32;
  wa_off : 0 <= offset w /\ offset w + len_this_page w <= PAGE_SIZE;
  wa_full : len_this_page w < len_this_segment w -> offset w + len_this_page w = PAGE_SIZE;
  wa_addrs : A = seqZ (page w * PAGE_SIZE + offset w) (len_this_segment w) ++ sg_addrs (tail (sg w));
  wa_rest : Forall sg_ok (tail (sg w))
}.

Lemma length_walk w A : walk_at w A -> len_this_page w <= zlen A.
Proof.
  intros [Hl _ _ _ -> _]. unfold zlen. rewrite length_app, length_seqZ. lia.
Qed.

Lemma take_walk w A n : walk_at w A -> 0 <= n <= len_this_page w ->
  take (Z.to_nat n) A = seqZ (page w * PAGE_SIZE + offset w) n.
Proof.
  intros [Hl _ _ _ -> _] Hn. rewrite take_app_le by (rewrite length_seqZ; lia). apply take_seqZ. lia.
Qed.

Lemma advance_walk w A n : walk_at w A -> 0 <= n <= len_this_page w ->
  walk_at (scatterwalk_advance w n) (drop (Z.to_nat n) A).
Proof.
  intros [Hl Hs Ho Hf -> Hr] Hn. unfold PAGE_SIZE in *.
  assert (u32 (offset w + n) = offset w + n) as Ho' by (apply u32_small; unfold is_u32; lia).
  assert (u32 (len_this_page w - n) = len_this_page w - n) as Hp' by (apply u32_small; unfold is_u32; lia).
  assert (u32 (len_this_segment w - n) = len_this_segment w - n) as Hs' by (apply u32_small; unfold is_u32; lia).
  split; simpl; rewrite ?Ho', ?Hp', ?Hs'; unfold PAGE_SIZE; try lia; [|done].
  rewrite drop_app_le by (rewrite length_seqZ; lia). rewrite drop_seqZ by lia. f_equal. f_equal; unfold PAGE_SIZE; lia.
Qed.

Section Walk.
Context {C : Type}.
Implicit Types (s : cstate C).

Lemma start_walk s a g l : Forall sg_ok (g :: l) ->
  exists w, scatterwalk_start a (g :: l) s = Some (w, s) /\ walk_at w (sg_addrs (g :: l)) /\ 0 < len_this_page w.
Proof.
  intros [[Hl Ho] Hr]%Forall_cons_1. unfold scatterwalk_start. rewrite decide_False by lia.
  change (PAGE_SIZE - 1) with (2^12 - 1). rewrite land_mask by lia. unfold PAGE_SIZE in *.
  rewrite (Z.mod_small (sg_offset g)) by lia. rewrite u32_small by (unfold is_u32; lia).
  eexists. split; [reflexivity|]. split; [|simpl; lia]. split; simpl; unfold PAGE_SIZE; try lia; [|done].
  done.
Qed.

Lemma drop_sg_addrs_ne l : sg_addrs l <> [] -> exists g l', l = g :: l'.
Proof. destruct l as [|g l]; [done|]. eauto. Qed.

(** Moving on to the next page. *)
Lemma pagedone_walk s w A :
  walk_at w A -> len_this_page w < zlen A ->
  exists w', scatterwalk_pagedone w true s = Some (w', s) /\
    walk_at w' (drop (Z.to_nat (len_this_page w)) A) /\ 0 < len_this_page w'.
Proof.
  intros [Hl Hs Ho Hf HA Hr] Hlen. unfold scatterwalk_pagedone.
  rewrite u32_small by (unfold is_u32; lia). case_decide as Hd.
  - assert (len_this_page w < len_this_segment w) as Hlt by lia. specialize (Hf Hlt).
    eexists. split; [reflexivity|]. unfold PAGE_SIZE in *. split; [|simpl; lia]. split; simpl; unfold PAGE_SIZE; try lia; [|done].
    rewrite HA, drop_app_le by (rewrite length_seqZ; lia). rewrite drop_seqZ by lia. f_equal. f_equal; unfold PAGE_SIZE; lia.
  - assert (Hll : len_this_page w = len_this_segment w) by lia.
    assert (HA' : drop (Z.to_nat (len_this_page w)) A = sg_addrs (tail (sg w))).
    { rewrite HA. apply drop_app_length'. rewrite length_seqZ. lia. }
    rewrite HA'. destruct (tail (sg w)) as [|g l] eqn:Hg.
    + exfalso. rewrite HA in Hlen. unfold zlen in Hlen. simpl in Hlen. rewrite app_nil_r, length_seqZ in Hlen. lia.
    + by apply start_walk.
Qed.

Lemma done_more s w A : walk_at w A -> 0 < zlen A ->
  exists w', scatterwalk_done w true s = Some (w', s) /\ walk_at w' A /\ 0 < len_this_page w'.
Proof.
  intros Hw HA. unfold scatterwalk_done. rewrite orb_false_r. case_bool_decide as Hz.
  - destruct (pagedone_walk s w A Hw) as (w' & E & Hw' & Hp); [lia|]. rewrite Hz in Hw'. simpl in Hw'.
    rewrite drop_0 in Hw'. eauto.
  - exists w. split; [done|]. split; [done|]. pose proof (wa_len _ _ Hw). lia.
Qed.

Lemma done_last s w : scatterwalk_done w false s = Some (w, s).
Proof. unfold scatterwalk_done. by rewrite orb_true_r. Qed.

Lemma map_walk w A : walk_at w A -> walk_at (scatterwalk_map w) A.
Proof. by intros []. Qed.

(** The first [n] addresses are those of the page and some more. *)
Lemma take_page w A n : walk_at w A -> len_this_page w <= n ->
  take (Z.to_nat n) A =
    seqZ (page w * PAGE_SIZE + offset w) (len_this_page w) ++
    take (Z.to_nat (n - len_this_page w)) (drop (Z.to_nat (len_this_page w)) A).
Proof.
  intros Hw Hn. pose proof (wa_len _ _ Hw). rewrite <- (take_walk w A) by (done || lia).
  rewrite take_take_drop. f_equal. lia.
Qed.

(** The outcome of copying [n] bytes between [buf] and the walk: [dst] are the
    addresses written, [A] those in front of the walk. *)
Definition copied s (A dst : list Z) (n : Z) (b : bytes) (o : option (Z * scatter_walk * cstate C)) : Prop :=
  exists k w' m', o = Some (k, w', with_mem s m') /\ 0 <= k <= len_this_page w' /\
    walk_at (scatterwalk_advance w' k) (drop (Z.to_nat n) A) /\
    peek m' dst = Some b /\ modifies dst (cmem s) m'.

Lemma copied_cons s m1 A dst1 dst2 (p n : Z) b1 b2 o :
  0 <= p <= n -> peek m1 dst1 = Some b1 -> modifies dst1 (cmem s) m1 -> dst1 ## dst2 ->
  copied (with_mem s m1) (drop (Z.to_nat p) A) dst2 (n - p) b2 o -> copied s A (dst1 ++ dst2) n (b1 ++ b2) o.
Proof.
  intros Hp P1 M1 Hd (k & w' & m' & -> & Hk & Hw & P2 & M2). simpl in *.
  exists k, w', m'. split; [done|]. split; [done|]. split; [|split].
  - rewrite drop_drop in Hw. replace (Z.to_nat n) with (Z.to_nat p + Z.to_nat (n - p))%nat by lia. done.
  - apply peek_app_Some; [|done]. by rewrite (modifies_peek _ _ _ _ M2).
  - eapply modifies_trans; [exact M1|exact M2|set_solver|set_solver].
Qed.

Lemma copied_last s w A dst n b m' :
  walk_at w A -> 0 <= n <= len_this_page w -> peek m' dst = Some b -> modifies dst (cmem s) m' ->
  copied s A dst n b (Some (n, w, with_mem s m')).
Proof. intros Hw Hn P M. exists n, w, m'. split_and!; try done; [lia..|by apply advance_walk]. Qed.

Lemma copy_from fuel buf w A n b s :
  walk_at w A -> 0 < len_this_page w -> 0 <= n <= zlen A -> n < Z.of_nat fuel -> n < 2^32 ->
  peek (cmem s) (take (Z.to_nat n) A) = Some b -> mapped (cmem s) (seqZ buf n) ->
  take (Z.to_nat n) A ## seqZ buf n ->
  copied s A (seqZ buf n) n b (copychunks_loop fuel buf (scatterwalk_map w) n false s).
Proof.
  revert buf w A n b s. induction fuel as [|fuel IH]; intros buf w A n b s Hw Hpos Hn Hf Hmax Hb Hm Hd; [lia|].
  cbn [copychunks_loop]. cbn [len_this_page scatterwalk_map data]. case_decide as Hlt.
  - set (p := len_this_page w) in *. pose proof (wa_len _ _ Hw). fold p in H.
    rewrite (take_page _ _ _ Hw) in Hb, Hd by (fold p; lia). fold p in Hb, Hd.
    apply peek_app_inv in Hb as [Hb1 Hb2]. rewrite length_seqZ in Hb1, Hb2.
    assert (Hseq : seqZ buf n = seqZ buf p ++ seqZ (buf + p) (n - p)) by (rewrite <- seqZ_split by lia; f_equal; lia).
    rewrite Hseq in Hm, Hd |- *. clear Hseq.
    destruct (memcpy_ok s buf (page w * PAGE_SIZE + offset w) p _ ltac:(lia) Hb1) as (m1 & E1 & P1 & M1).
    { intros a Ha. apply Hm. set_solver. }
    unfold memcpy_dir at 1. rewrite (CM_bind_eq _ _ _ _ _ E1).
    destruct (pagedone_walk (with_mem s m1) (scatterwalk_map w) A (map_walk _ _ Hw)) as (w' & E2 & Hw' & Hp');
      [simpl; fold p; lia|]. rewrite (CM_bind_eq _ _ _ _ _ E2). simpl in Hw'. fold p in Hw'.
    rewrite u32_small by (unfold is_u32; lia).
    rewrite <- (take_drop (Z.to_nat p) b).
    eapply (copied_cons _ _ _ _ _ p); [|exact P1|exact M1| |]; [lia|intros z; rewrite !elem_of_seqZ; lia|].
    apply IH; [done|done|unfold zlen in *; rewrite length_drop; lia|lia|lia| | |].
    + simpl. rewrite (modifies_peek _ _ _ _ M1); [done|set_solver].
    + apply (modifies_mapped _ _ _ _ M1). intros a Ha. apply Hm. set_solver.
    + set_solver.
  - rewrite (take_walk _ _ _ Hw) in Hb by lia.
    destruct (memcpy_ok s buf (page w * PAGE_SIZE + offset w) n b ltac:(lia) Hb Hm) as (m1 & E1 & P1 & M1).
    unfold memcpy_dir. rewrite (CM_bind_eq _ _ _ _ _ E1).
    apply copied_last; [by apply map_walk|simpl; lia|done|done].
Qed.

Lemma copy_to fuel buf w A n b s :
  walk_at w A -> 0 < len_this_page w -> 0 <= n <= zlen A -> n < Z.of_nat fuel -> n < 2^32 ->
  mapped (cmem s) (take (Z.to_nat n) A) -> NoDup (take (Z.to_nat n) A) -> peek (cmem s) (seqZ buf n) = Some b ->
  take (Z.to_nat n) A ## seqZ buf n ->
  copied s A (take (Z.to_nat n) A) n b (copychunks_loop fuel buf (scatterwalk_map w) n true s).
Proof.
  revert buf w A n b s. induction fuel as [|fuel IH]; intros buf w A n b s Hw Hpos Hn Hf Hmax Hm Hnd Hb Hd; [lia|].
  cbn [copychunks_loop]. cbn [len_this_page scatterwalk_map data]. case_decide as Hlt.
  - set (p := len_this_page w) in *. pose proof (wa_len _ _ Hw). fold p in H.
    rewrite (take_page _ _ _ Hw) in Hm, Hd, Hnd |- * by (fold p; lia). fold p in Hm, Hd, Hnd |- *.
    apply NoDup_app in Hnd as (Hnd1 & Hnd12 & Hnd2).
    assert (Hseq : seqZ buf n = seqZ buf p ++ seqZ (buf + p) (n - p)) by (rewrite <- seqZ_split by lia; f_equal; lia).
    rewrite Hseq in Hb, Hd. clear Hseq.
    apply peek_app_inv in Hb as [Hb1 Hb2]. rewrite length_seqZ in Hb1, Hb2.
    destruct (memcpy_ok s (page w * PAGE_SIZE + offset w) buf p _ ltac:(lia) Hb1) as (m1 & E1 & P1 & M1).
    { intros a Ha. apply Hm. set_solver. }
    unfold memcpy_dir at 1. rewrite (CM_bind_eq _ _ _ _ _ E1).
    destruct (pagedone_walk (with_mem s m1) (scatterwalk_map w) A (map_walk _ _ Hw)) as (w' & E2 & Hw' & Hp');
      [simpl; fold p; lia|]. rewrite (CM_bind_eq _ _ _ _ _ E2). simpl in Hw'. fold p in Hw'.
    rewrite u32_small by (unfold is_u32; lia).
    rewrite <- (take_drop (Z.to_nat p) b).
    eapply (copied_cons _ _ _ _ _ p); [|exact P1|exact M1| |]; [lia|intros z Hz1 Hz2; exact (Hnd12 z Hz1 Hz2)|].
    apply IH; [done|done|unfold zlen in *; rewrite length_drop; lia|lia|lia| |done| |set_solver].
    + apply (modifies_mapped _ _ _ _ M1). intros a Ha. apply Hm. set_solver.
    + simpl. rewrite (modifies_peek _ _ _ _ M1); [done|set_solver].
  - rewrite (take_walk _ _ _ Hw) in Hm |- * by lia.
    destruct (memcpy_ok s (page w * PAGE_SIZE + offset w) buf n b ltac:(lia) Hb Hm) as (m1 & E1 & P1 & M1).
    unfold memcpy_dir. rewrite (CM_bind_eq _ _ _ _ _ E1).
    apply copied_last; [by apply map_walk|simpl; lia|done|done].
Qed.
End Walk.
