(* ===== verification/CipherCrypt.v ===== *)
(** [crypt] of [crypto/cipher.c]: whatever the segments, pages and alignments of
    the two scatterlists are, it does to their bytes what the mode does to one
    string. *)
From Stdlib Require Import ZArith Lia.
From stdpp Require Import base numbers list list_numbers option gmap sets.
From S2P Require Import Prelude Bytes Cipher CipherMem CipherModes CipherWalk.

Local Open Scope Z_scope.

Ltac solve_map H := let a := fresh in let Ha := fresh in intros a Ha; apply H; rewrite ?elem_of_app; tauto.

Section Crypt.
Context {C : Type} (ctx_ok : C -> Prop) (bs : nat) (Hbs : (0 < bs)%nat).
Context (step : @step_fn C) (I X : list Z) (d : cipher_desc C) (prfn : process_fn C) (k : scratch).
Context (Hstep : step_spec bs (length I) ctx_ok step) (Hp : process_spec ctx_ok bs step I X d prfn).
Context (Hd : bsize d = Z.of_nat bs).
Implicit Types (s : cstate C).

(** The bounce buffers: the two blocks of [crypt_slow] and the page of [crypt]. *)
Definition slow_src : Z := ALIGN (slow_buffer k) (alignmask d + 1).
Definition slow_area : list Z := seqZ slow_src (Z.of_nat bs + Z.of_nat bs).
Definition page_area : list Z := if decide (free_page k = 0) then [] else seqZ (free_page k) PAGE_SIZE.
Definition work : list Z := X ++ slow_area ++ page_area.

(** The memory in which the bytes [b] at [Lin] can be processed to [Lout]. *)
Record crypt_ready (m : gmap Z Z) (Lin Lout : list Z) (b iv : bytes) : Prop := {
  cr_src : peek m Lin = Some b;
  cr_u8 : Forall is_u8 b;
  cr_iv : peek m I = Some iv;
  cr_ivb : is_bytes (length I) iv;
  cr_dst : mapped m Lout;
  cr_work : mapped m work;
  cr_nodup : NoDup Lout;
  cr_apart : Lin = Lout \/ Lin ## Lout;
  cr_in : Lin ## I ++ work;
  cr_out : Lout ## I ++ work;
  cr_iw : I ## work;
  cr_areas : X ## slow_area /\ X ## page_area /\ slow_area ## page_area
}.

(** [j] blocks were done: the walks moved on and the addresses [D] hold them. *)
Definition advanced s (Ain Aout : list Z) (j : nat) (b iv : bytes)
    (o : option (Z * scatter_walk * scatter_walk * cstate C)) : Prop :=
  exists e c' iv' m' win wout,
    o = Some (Z.of_nat (j * bs), win, wout, CState m' c' (crt_flags s)) /\
    run step bs j (cctx s, iv) b = Some (e, (c', iv')) /\ ctx_ok c' /\
    walk_at win (drop (j * bs) Ain) /\ walk_at wout (drop (j * bs) Aout) /\
    peek m' (take (j * bs) Aout) = Some e /\ peek m' I = Some iv' /\ is_bytes (length I) iv' /\
    modifies (take (j * bs) Aout ++ I ++ work) (cmem s) m'.

Lemma crypt_ready_apart m Lin Lout b iv D :
  crypt_ready m Lin Lout b iv -> D ⊆ Lin \/ D ⊆ Lout -> D ## I /\ D ## X /\ D ## slow_area /\ D ## page_area.
Proof.
  intros [_ _ _ _ _ _ _ _ Hin Hout _ _] HD. unfold work in *. set_solver.
Qed.

Lemma take_sub (A : list Z) (n m : nat) : (n <= m)%nat -> take n A ⊆ take m A.
Proof.
  intros H. replace (take n A) with (take n (take m A)) by (rewrite take_take; f_equal; lia). apply subseteq_take.
Qed.

(** The part of [crypt_ready] that a process function on one page needs. *)
Lemma ready_direct m win wout Ain Aout nb b iv n :
  walk_at win Ain -> walk_at wout Aout -> crypt_ready m (take nb Ain) (take nb Aout) b iv ->
  0 < n <= Z.of_nat nb -> n <= len_this_page win -> n <= len_this_page wout ->
  ready m I X (page wout * PAGE_SIZE + offset wout) (page win * PAGE_SIZE + offset win) n (take (Z.to_nat n) b) iv.
Proof.
  intros Hwi Hwo Hr Hn Hli Hlo.
  pose proof (take_walk _ _ n Hwi ltac:(lia)) as Ti. pose proof (take_walk _ _ n Hwo ltac:(lia)) as To.
  assert (Si : take (Z.to_nat n) Ain ⊆ take nb Ain) by (apply take_sub; lia).
  assert (So : take (Z.to_nat n) Aout ⊆ take nb Aout) by (apply take_sub; lia).
  destruct (crypt_ready_apart _ _ _ _ _ _ Hr (or_introl Si)) as (DiI & DiX & _ & _).
  destruct (crypt_ready_apart _ _ _ _ _ _ Hr (or_intror So)) as (DoI & DoX & _ & _).
  destruct Hr as [Hb Hu Hiv Hivb HD HW Hnd Hap Hin Hout Hiw (Hxs & Hxp & Hsp)].
  assert (Hb' : peek m (take (Z.to_nat n) Ain) = Some (take (Z.to_nat n) b)).
  { apply (peek_take_drop _ _ _ (Z.to_nat n)) in Hb as [Hb _]. by rewrite take_take, Nat.min_l in Hb by lia. }
  rewrite Ti in Hb', DiI, DiX, Si. rewrite To in DoI, DoX, So.
  split; try done.
  - split; [|by apply Forall_take]. rewrite (peek_length _ _ _ Hb'), length_seqZ. done.
  - intros a Ha. apply HD, So, Ha.
  - intros a Ha. apply HW. unfold work. set_solver.
  - unfold apart. destruct Hap as [Heq|Hdis]; [left|right; by apply (disjoint_mono _ _ _ _ Hdis)].
    assert (Heq' : take (Z.to_nat n) Ain = take (Z.to_nat n) Aout).
    { rewrite <- (Nat.min_l (Z.to_nat n) nb) by lia. by rewrite <- !take_take, Heq. }
    rewrite Ti, To in Heq'. destruct (Z.to_nat n) as [|n'] eqn:Hn'; [lia|].
    rewrite !(seqZ_cons _ n) in Heq' by lia. by injection Heq'.
  - unfold work in Hiw. set_solver.
Qed.

Lemma samebuf_data win wout : (if scatterwalk_samebuf (scatterwalk_map win) (scatterwalk_map wout)
    then data (scatterwalk_map win) else data (scatterwalk_map wout)) = page wout * PAGE_SIZE + offset wout.
Proof.
  unfold scatterwalk_samebuf. simpl. repeat case_bool_decide; simpl; congruence.
Qed.

(** Processing straight from page to page. *)
Lemma crypt_fast_direct s win wout Ain Aout nb b iv n (j : nat) :
  walk_at win Ain -> walk_at wout Aout -> ctx_ok (cctx s) -> crypt_ready (cmem s) (take nb Ain) (take nb Aout) b iv ->
  (1 <= j)%nat -> Z.of_nat (j * bs) <= n < Z.of_nat (S j * bs) -> n <= Z.of_nat nb -> n < 2^32 ->
  n <= len_this_page win -> n <= len_this_page wout ->
  advanced s Ain Aout j b iv (crypt_fast d prfn (scatterwalk_map win) (scatterwalk_map wout) n 0 s).
Proof.
  intros Hwi Hwo Hc Hr Hj Hn Hnb Hmax Hli Hlo. unfold crypt_fast.
  rewrite samebuf_data. rewrite !(decide_False (P := 0 <> 0)) by lia. cbn [data scatterwalk_map].
  assert (Hpos : 0 < Z.of_nat (j * bs)) by nia.
  pose proof (ready_direct _ _ _ _ _ _ _ _ (Z.of_nat (j * bs)) Hwi Hwo Hr ltac:(lia) ltac:(lia) ltac:(lia)) as Hrd.
  erewrite CM_bind_eq by reflexivity.
  destruct (Hp s _ _ n _ iv j Hj Hn Hmax Hc Hrd) as (e & c' & iv' & m' & R & Hc' & E & P & PI & HI & M).
  rewrite (CM_bind_eq _ _ _ _ _ E). erewrite CM_bind_eq by reflexivity.
  rewrite Nat2Z.id, run_take in R by lia.
  exists e, c', iv', m', (scatterwalk_advance (scatterwalk_map win) (Z.of_nat (j * bs))),
    (scatterwalk_advance (scatterwalk_map wout) (Z.of_nat (j * bs))).
  split; [done|]. split; [done|]. split; [done|].
  pose proof (take_walk _ _ (Z.of_nat (j * bs)) Hwo ltac:(lia)) as To. rewrite Nat2Z.id in To. rewrite To.
  split; [|split; [|split; [done|split; [done|split; [done|]]]]].
  - rewrite <- (Nat2Z.id (j * bs)) at 2. apply advance_walk; [by apply map_walk|simpl; lia].
  - rewrite <- (Nat2Z.id (j * bs)) at 2. apply advance_walk; [by apply map_walk|simpl; lia].
  - eapply modifies_weaken; [exact M|]. unfold work. set_solver.
Qed.

Lemma page_area_sub n : free_page k <> 0 -> 0 <= n <= PAGE_SIZE -> seqZ (free_page k) n ⊆ page_area.
Proof. intros Hk Hn. unfold page_area. rewrite decide_False by done. apply seqZ_sub; lia. Qed.

(** Processing through the bounce page. *)
Lemma crypt_fast_bounce s win wout Ain Aout nb b iv n (j : nat) :
  walk_at win Ain -> walk_at wout Aout -> ctx_ok (cctx s) -> crypt_ready (cmem s) (take nb Ain) (take nb Aout) b iv ->
  (1 <= j)%nat -> Z.of_nat (j * bs) <= n < Z.of_nat (S j * bs) -> n <= Z.of_nat nb -> n < 2^32 ->
  n <= len_this_page win -> n <= len_this_page wout -> free_page k <> 0 ->
  advanced s Ain Aout j b iv (crypt_fast d prfn (scatterwalk_map win) (scatterwalk_map wout) n (free_page k) s).
Proof.
  intros Hwi Hwo Hc Hr Hj Hn Hnb Hmax Hli Hlo Hk. unfold crypt_fast.
  rewrite !(decide_True (P := free_page k <> 0)) by done. cbn [data scatterwalk_map].
  assert (Hpos : 0 < Z.of_nat (j * bs)) by nia.
  pose proof (ready_direct _ _ _ _ _ _ _ _ n Hwi Hwo Hr ltac:(lia) ltac:(lia) ltac:(lia)) as Hn0.
  pose proof (ready_direct _ _ _ _ _ _ _ _ (Z.of_nat (j * bs)) Hwi Hwo Hr ltac:(lia) ltac:(lia) ltac:(lia)) as Hj0.
  assert (Hpg : n <= PAGE_SIZE) by (pose proof (wa_off _ _ Hwi); lia).
  assert (So : take (j * bs) Aout ⊆ take nb Aout) by (apply take_sub; lia).
  destruct (crypt_ready_apart _ _ _ _ _ _ Hr (or_intror So)) as (DoI & DoX & _ & DoP).
  pose proof (cr_iw _ _ _ _ _ Hr) as HIW. unfold work in HIW. pose proof (cr_areas _ _ _ _ _ Hr) as (_ & HXP & _).
  pose proof (page_area_sub n Hk ltac:(lia)) as Sn. pose proof (page_area_sub (Z.of_nat (j * bs)) Hk ltac:(lia)) as Sj.
  pose proof (take_walk _ _ (Z.of_nat (j * bs)) Hwo ltac:(lia)) as To. rewrite Nat2Z.id in To. rewrite To in DoI, DoX, DoP.
  assert (HmP : mapped (cmem s) page_area) by (intros a Ha; apply (cr_work _ _ _ _ _ Hr); unfold work; rewrite !elem_of_app; tauto).
  split_apart.
  destruct (memcpy_ok s (free_page k) _ n _ ltac:(lia) (rdy_src _ _ _ _ _ _ _ _ Hn0)) as (m1 & E1 & P1 & M1).
  { intros a Ha. apply HmP, Sn, Ha. }
  rewrite (CM_bind_eq _ _ _ _ _ E1).
  assert (Hrt : ready m1 I X (free_page k) (free_page k) (Z.of_nat (j * bs)) (take (j * bs) b) iv).
  { destruct Hn0 as [_ [Hl Hu] Hiv Hivb _ HX _ _ _ _ _ HIX].
    apply (peek_take_drop _ _ _ (Z.to_nat (Z.of_nat (j * bs)))) in P1 as [P1 _].
    rewrite take_seqZ, Nat2Z.id, take_take, Nat.min_l in P1 by lia.
    split; try done; try (by left); try solve_apart.
    - destruct Hj0 as [_ Hjb _ _ _ _ _ _ _ _ _ _]. by rewrite Nat2Z.id in *.
    - rewrite (modifies_peek _ _ _ _ M1); [done|solve_apart].
    - apply (modifies_mapped _ _ _ _ M1). intros a Ha. apply HmP, Sj, Ha.
    - by apply (modifies_mapped _ _ _ _ M1). }
  destruct (Hp (with_mem s m1) _ _ n _ iv j Hj Hn Hmax Hc Hrt) as (e & c' & iv' & m2 & R & Hc' & E2 & P2 & PI & HI & M2).
  simpl in *. rewrite (CM_bind_eq _ _ _ _ _ E2). rewrite run_take in R by lia.
  destruct (memcpy_ok (CState m2 c' (crt_flags s)) (page wout * PAGE_SIZE + offset wout) (free_page k) (Z.of_nat (j * bs)) e)
    as (m3 & E3 & P3 & M3); [lia|done| |].
  { apply (modifies_mapped _ _ _ _ M2), (modifies_mapped _ _ _ _ M1), (rdy_dst _ _ _ _ _ _ _ _ Hj0). }
  rewrite decide_True by done. rewrite (CM_bind_eq _ _ _ _ _ E3). simpl in *.
  exists e, c', iv', m3, (scatterwalk_advance (scatterwalk_map win) (Z.of_nat (j * bs))),
    (scatterwalk_advance (scatterwalk_map wout) (Z.of_nat (j * bs))).
  split; [done|]. split; [done|]. split; [done|]. rewrite To.
  split; [|split; [|split; [done|split; [|split; [done|]]]]].
  - rewrite <- (Nat2Z.id (j * bs)) at 2. apply advance_walk; [by apply map_walk|simpl; lia].
  - rewrite <- (Nat2Z.id (j * bs)) at 2. apply advance_walk; [by apply map_walk|simpl; lia].
  - rewrite (modifies_peek _ _ _ _ M3); [done|solve_apart].
  - unfold work. eapply modifies_trans; [|exact M3| |solve_sub]; [|done].
    eapply modifies_trans; [exact M1|exact M2|solve_sub|solve_sub].
Qed.

Lemma slow_area_split : slow_area = seqZ slow_src (Z.of_nat bs) ++ seqZ (slow_src + Z.of_nat bs) (Z.of_nat bs).
Proof. unfold slow_area. apply seqZ_split; lia. Qed.

(** Processing one block that lies across pages. *)
Lemma crypt_slow_ok s win wout Ain Aout nb b iv :
  walk_at win Ain -> walk_at wout Aout -> 0 < len_this_page win -> 0 < len_this_page wout ->
  ctx_ok (cctx s) -> crypt_ready (cmem s) (take nb Ain) (take nb Aout) b iv ->
  (bs <= nb)%nat -> Z.of_nat nb <= zlen Ain -> Z.of_nat nb <= zlen Aout -> Z.of_nat nb < 2^32 -> Z.of_nat (2 * bs) < 2^32 ->
  advanced s Ain Aout 1 b iv (crypt_slow k d prfn (scatterwalk_map win) (scatterwalk_map wout) s).
Proof.
  intros Hwi Hwo Hpi Hpo Hc Hr Hle Hzi Hzo Hmax Hbmax. unfold crypt_slow. fold slow_src. rewrite Hd.
  assert (Si : take bs Ain ⊆ take nb Ain) by (apply take_sub; lia).
  assert (So : take bs Aout ⊆ take nb Aout) by (apply take_sub; lia).
  destruct (crypt_ready_apart _ _ _ _ _ _ Hr (or_introl Si)) as (DiI & DiX & DiS & _).
  destruct (crypt_ready_apart _ _ _ _ _ _ Hr (or_intror So)) as (DoI & DoX & DoS & _).
  destruct Hr as [Hb Hu Hiv Hivb HD HW Hnd Hap Hin Hout Hiw (Hxs & Hxp & Hsp)].
  unfold work in HW, Hiw. rewrite slow_area_split in *. split_apart.
  assert (HSD : seqZ slow_src (Z.of_nat bs) ## seqZ (slow_src + Z.of_nat bs) (Z.of_nat bs))
    by (intros z; rewrite !elem_of_seqZ; lia).
  assert (Hb' : peek (cmem s) (take bs Ain) = Some (take bs b)).
  { apply (peek_take_drop _ _ _ bs) in Hb as [Hb _]. by rewrite take_take, Nat.min_l in Hb by lia. }
  assert (Hlb : length (take bs b) = bs).
  { rewrite (peek_length _ _ _ Hb'), length_take. unfold zlen in Hzi. lia. }
  destruct (copy_from (S (Z.to_nat (Z.of_nat bs))) slow_src win Ain (Z.of_nat bs) (take bs b) s)
    as (k1 & w1 & m1 & E1 & Hk1 & Hw1 & P1 & M1); try done; rewrite ?Nat2Z.id; try lia; [done|set_solver|set_solver|].
  unfold scatterwalk_copychunks. rewrite (CM_bind_eq _ _ _ _ _ E1).
  assert (Hrt : ready m1 I X (slow_src + Z.of_nat bs) slow_src (Z.of_nat (1 * bs)) (take bs b) iv).
  { rewrite Nat.mul_1_l. split; try done; try solve_apart.
    - split; [by rewrite Nat2Z.id|by apply Forall_take].
    - rewrite (modifies_peek _ _ _ _ M1); [done|solve_apart].
    - apply (modifies_mapped _ _ _ _ M1). solve_map HW.
    - apply (modifies_mapped _ _ _ _ M1). solve_map HW.
    - right. done. }
  destruct (Hp (with_mem s m1) (slow_src + Z.of_nat bs) slow_src (Z.of_nat bs) _ iv 1%nat ltac:(lia) ltac:(lia) ltac:(lia) Hc Hrt)
    as (e & c' & iv' & m2 & R & Hc' & E2 & P2 & PI & HI & M2). rewrite Nat.mul_1_l in *. simpl in E2, R, M2.
  rewrite (CM_bind_eq _ _ _ _ _ E2).
  change (run step bs 1%nat (cctx s, iv) (take bs b) = Some (e, (c', iv'))) in R. rewrite run_take in R by lia.
  destruct (copy_to (S (Z.to_nat (Z.of_nat bs))) (slow_src + Z.of_nat bs) wout Aout (Z.of_nat bs) e (CState m2 c' (crt_flags s)))
    as (k2 & w2 & m3 & E3 & Hk2 & Hw2 & P3 & M3); try done; rewrite ?Nat2Z.id in *; try lia.
  - apply (modifies_mapped _ _ _ _ M2), (modifies_mapped _ _ _ _ M1). intros a Ha. apply HD, So, Ha.
  - rewrite <- (take_drop bs (take nb Aout)), take_take, Nat.min_l in Hnd by lia. by apply NoDup_app in Hnd as (? & _ & _).
  - solve_apart.
  - rewrite (CM_bind_eq _ _ _ _ _ E3).
    exists e, c', iv', m3, (scatterwalk_advance w1 k1), (scatterwalk_advance w2 k2). rewrite Nat.mul_1_l.
    split; [done|]. split; [done|]. split; [done|]. split; [done|]. split; [done|]. split; [done|].
    simpl in *. split; [rewrite (modifies_peek _ _ _ _ M3); [done|solve_apart]|]. split; [done|].
    unfold work. rewrite slow_area_split. eapply modifies_trans; [|exact M3| |solve_sub]; [|done].
    eapply modifies_trans; [exact M1|exact M2|solve_sub|solve_sub].
Qed.

(** What is left to do after the first [p] bytes. *)
Lemma crypt_ready_rest m m' Ain Aout nb p b iv iv' :
  crypt_ready m (take nb Ain) (take nb Aout) b iv -> (p <= nb)%nat ->
  modifies (take p Aout ++ I ++ work) m m' -> peek m' I = Some iv' -> is_bytes (length I) iv' ->
  crypt_ready m' (take (nb - p) (drop p Ain)) (take (nb - p) (drop p Aout)) (drop p b) iv'.
Proof.
  intros Hr Hple M PI HI. destruct Hr as [Hb Hu Hiv Hivb HD HW Hnd Hap Hin Hout Hiw Hareas].
  rewrite <- !skipn_firstn_comm.
  assert (Tp : take p Aout = take p (take nb Aout)) by (rewrite take_take; f_equal; lia).
  set (Lin := take nb Ain) in *. set (Lout := take nb Aout) in *. rewrite Tp in M. clear Tp.
  pose proof (subseteq_drop p Lin) as Si. pose proof (subseteq_drop p Lout) as So.
  pose proof (subseteq_take p Lout) as Sp. split_apart.
  assert (Hfresh : drop p Lout ## take p Lout).
  { rewrite <- (take_drop p Lout) in Hnd. apply NoDup_app in Hnd as (_ & Hx & _). intros z Hz1 Hz2. exact (Hx z Hz2 Hz1). }
  assert (Hfresh' : drop p Lin ## take p Lout).
  { destruct Hap as [->|Hap]; [done|solve_apart]. }
  split; try done; try (apply disjoint_app; split; solve_apart).
  - rewrite (modifies_peek _ _ _ _ M).
    + by apply (peek_take_drop _ _ _ p) in Hb as [_ Hb].
    + apply disjoint_app. split; [done|]. apply disjoint_app. split; solve_apart.
  - by apply Forall_drop.
  - apply (modifies_mapped _ _ _ _ M). intros a Ha. apply HD, So, Ha.
  - by apply (modifies_mapped _ _ _ _ M).
  - rewrite <- (take_drop p Lout) in Hnd. by apply NoDup_app in Hnd as (_ & _ & ?).
  - destruct Hap as [->|Hap]; [by left|right; solve_apart].
Qed.

(** The walks stop or move to the next page. *)
Lemma done_any s w A (more : bool) :
  walk_at w A -> (more = true -> 0 < zlen A) ->
  exists w', scatterwalk_done w more s = Some (w', s) /\ (more = true -> walk_at w' A /\ 0 < len_this_page w').
Proof.
  intros Hw HA. destruct more.
  - destruct (done_more s w A Hw (HA eq_refl)) as (w' & E & H). eauto.
  - exists w. split; [apply done_last|done].
Qed.

(** The work of one round: some number [j] of blocks. *)
Lemma crypt_work s win wout Ain Aout (N : nat) b iv (unaligned : bool) (buffer n : Z) :
  walk_at win Ain -> walk_at wout Aout -> 0 < len_this_page win -> 0 < len_this_page wout ->
  ctx_ok (cctx s) -> crypt_ready (cmem s) (take (N * bs) Ain) (take (N * bs) Aout) b iv -> (1 <= N)%nat ->
  Z.of_nat (N * bs) <= zlen Ain -> Z.of_nat (N * bs) <= zlen Aout -> Z.of_nat (N * bs) < 2^32 ->
  Z.of_nat (2 * bs) < 2^32 -> (buffer = 0 \/ buffer = free_page k) ->
  n = scatterwalk_clamp wout (scatterwalk_clamp win
        (if unaligned && bool_decide (buffer = 0) then 0 else Z.of_nat (N * bs))) ->
  exists j, (1 <= j <= N)%nat /\
    advanced s Ain Aout j b iv
      ((if decide (bsize d <= n)
        then crypt_fast d prfn (scatterwalk_map win) (scatterwalk_map wout) n (if unaligned then buffer else 0)
        else crypt_slow k d prfn (scatterwalk_map win) (scatterwalk_map wout)) s).
Proof.
  intros Hwi Hwo Hpi Hpo Hc Hr HN Hzi Hzo Hmax Hbmax Hbuf Hn. rewrite Hd.
  assert (Hn' : n <= Z.of_nat (N * bs) /\ n <= len_this_page win /\ n <= len_this_page wout).
  { subst n. unfold scatterwalk_clamp. repeat case_decide; destruct (unaligned && _); lia. }
  destruct (decide (Z.of_nat bs <= n)) as [Hle|Hle].
  - set (j := Z.to_nat (n / Z.of_nat bs)).
    assert (Hdiv : Z.of_nat bs * (n / Z.of_nat bs) <= n < Z.of_nat bs * (n / Z.of_nat bs) + Z.of_nat bs).
    { pose proof (Z.div_mod n (Z.of_nat bs)). pose proof (Z.mod_pos_bound n (Z.of_nat bs)). lia. }
    assert (Hj0 : 1 <= n / Z.of_nat bs) by (apply Z.div_le_lower_bound; lia).
    assert (Hj : Z.of_nat (j * bs) <= n < Z.of_nat (S j * bs)) by (unfold j; nia).
    assert (HjN : (1 <= j <= N)%nat) by (unfold j in *; nia).
    exists j. split; [done|]. destruct (decide ((if unaligned then buffer else 0) = 0)) as [->|Hnz].
    + apply (crypt_fast_direct _ _ _ _ _ (N * bs)); try done; lia.
    + assert ((if unaligned then buffer else 0) = free_page k /\ free_page k <> 0) as [-> Hk].
      { destruct unaligned; [|done]. destruct Hbuf as [->| ->]; done. }
      apply (crypt_fast_bounce _ _ _ _ _ (N * bs)); try done; lia.
  - exists 1%nat. split; [lia|]. apply (crypt_slow_ok _ _ _ _ _ (N * bs)); try done. nia.
Qed.

(** A round leaves fewer blocks, and the walks at the rest of the addresses. *)
Lemma crypt_round_ok i s win wout Ain Aout (N : nat) b iv buffer :
  walk_at win Ain -> walk_at wout Aout -> 0 < len_this_page win -> 0 < len_this_page wout ->
  ctx_ok (cctx s) -> crypt_ready (cmem s) (take (N * bs) Ain) (take (N * bs) Aout) b iv -> (1 <= N)%nat ->
  Z.of_nat (N * bs) <= zlen Ain -> Z.of_nat (N * bs) <= zlen Aout -> Z.of_nat (N * bs) < 2^32 ->
  Z.of_nat (2 * bs) < 2^32 -> (buffer = 0 \/ buffer = free_page k) ->
  exists j e c' iv' m' wi wo buf, (1 <= j <= N)%nat /\
    crypt_round k i d prfn win wout (Z.of_nat (N * bs)) buffer s =
      Some (Z.of_nat ((N - j) * bs), wi, wo, buf, CState m' c' (crt_flags s)) /\
    (buf = 0 \/ buf = free_page k) /\
    run step bs j (cctx s, iv) b = Some (e, (c', iv')) /\ ctx_ok c' /\
    ((j < N)%nat -> walk_at wi (drop (j * bs) Ain) /\ 0 < len_this_page wi /\
                    walk_at wo (drop (j * bs) Aout) /\ 0 < len_this_page wo) /\
    peek m' (take (j * bs) Aout) = Some e /\ peek m' I = Some iv' /\ is_bytes (length I) iv' /\
    modifies (take (j * bs) Aout ++ I ++ work) (cmem s) m'.
Proof.
  intros Hwi Hwo Hpi Hpo Hc Hr HN Hzi Hzo Hmax Hbmax Hbuf.
  set (una := negb (scatterwalk_aligned win (alignmask d)) || negb (scatterwalk_aligned wout (alignmask d))).
  set (buf := if una && bool_decide (buffer = 0) then get_free_page k i else buffer).
  assert (Hbuf' : buf = 0 \/ buf = free_page k).
  { unfold buf, get_free_page. destruct (una && _); [|tauto]. destruct (page_granted k i); tauto. }
  destruct (crypt_work s win wout Ain Aout N b iv una buf _ Hwi Hwo Hpi Hpo Hc Hr HN Hzi Hzo Hmax Hbmax Hbuf' eq_refl)
    as (j & Hj & e & c' & iv' & m' & wi & wo & E & R & Hc' & Hwi' & Hwo' & P & PI & HI & M).
  assert (Hleft : Z.of_nat (N * bs) - Z.of_nat (j * bs) = Z.of_nat ((N - j) * bs)) by nia.
  set (left := Z.of_nat ((N - j) * bs)) in *. set (s' := CState m' c' (crt_flags s)) in *.
  assert (Hmore : bool_decide (left <> 0) = true -> (j < N)%nat) by (rewrite bool_decide_eq_true; unfold left; nia).
  destruct (done_any s' wi _ (bool_decide (left <> 0)) Hwi') as (wi2 & Di & Hwi2).
  { intros Hne%Hmore. unfold zlen in *. rewrite length_drop. nia. }
  destruct (done_any s' wo _ (bool_decide (left <> 0)) Hwo') as (wo2 & Do & Hwo2).
  { intros Hne%Hmore. unfold zlen in *. rewrite length_drop. nia. }
  exists j, e, c', iv', m', wi2, wo2, buf. split; [done|]. split; [|split_and!; try done].
  - unfold crypt_round. fold una. fold buf.
    match type of E with (if decide (_ <= ?n) then _ else _) _ = _ =>
      change (scatterwalk_clamp (scatterwalk_map wout) (scatterwalk_clamp (scatterwalk_map win) _)) with n end.
    rewrite (CM_bind_eq _ _ _ _ _ E). rewrite Hleft, u32_small by (unfold is_u32, left; nia).
    by rewrite (CM_bind_eq _ _ _ _ _ Di), (CM_bind_eq _ _ _ _ _ Do).
  - intros HjN. assert (Hm : bool_decide (left <> 0) = true) by (apply bool_decide_eq_true; unfold left; nia).
    destruct (Hwi2 Hm), (Hwo2 Hm). done.
Qed.

Lemma crypt_loop_ok fuel i s win wout Ain Aout (N : nat) b iv buffer :
  walk_at win Ain -> walk_at wout Aout -> 0 < len_this_page win -> 0 < len_this_page wout ->
  ctx_ok (cctx s) -> crypt_ready (cmem s) (take (N * bs) Ain) (take (N * bs) Aout) b iv -> (1 <= N <= fuel)%nat ->
  Z.of_nat (N * bs) <= zlen Ain -> Z.of_nat (N * bs) <= zlen Aout -> Z.of_nat (N * bs) < 2^32 ->
  Z.of_nat (2 * bs) < 2^32 -> (buffer = 0 \/ buffer = free_page k) ->
  exists e c' iv' m',
    crypt_loop k fuel i d prfn win wout (Z.of_nat (N * bs)) buffer s = Some (tt, CState m' c' (crt_flags s)) /\
    run step bs N (cctx s, iv) b = Some (e, (c', iv')) /\ ctx_ok c' /\
    peek m' (take (N * bs) Aout) = Some e /\ peek m' I = Some iv' /\ is_bytes (length I) iv' /\
    modifies (take (N * bs) Aout ++ I ++ work) (cmem s) m'.
Proof.
  revert i s win wout Ain Aout N b iv buffer.
  induction fuel as [|fuel IH]; intros i s win wout Ain Aout N b iv buffer Hwi Hwo Hpi Hpo Hc Hr HN Hzi Hzo Hmax Hbmax Hbuf; [lia|].
  destruct (crypt_round_ok i s win wout Ain Aout N b iv buffer Hwi Hwo Hpi Hpo Hc Hr ltac:(lia) Hzi Hzo Hmax Hbmax Hbuf)
    as (j & e & c' & iv' & m' & wi & wo & buf & Hj & E & Hbuf' & R & Hc' & Hnext & P & PI & HI & M).
  cbn [crypt_loop]. rewrite (CM_bind_eq _ _ _ _ _ E). destruct (decide (j = N)) as [->|Hne].
  - rewrite decide_True by lia. exists e, c', iv', m'. done.
  - rewrite decide_False by nia. destruct (Hnext ltac:(lia)) as (Hwi' & Hpi' & Hwo' & Hpo').
    pose proof (crypt_ready_rest _ _ Ain Aout (N * bs) (j * bs) _ _ _ Hr ltac:(nia) M PI HI) as Hr'.
    replace (N * bs - j * bs)%nat with ((N - j) * bs)%nat in Hr' by nia.
    destruct (IH (S i) (CState m' c' (crt_flags s)) wi wo _ _ (N - j)%nat _ iv' buf Hwi' Hwo' Hpi' Hpo' Hc' Hr')
      as (e2 & c2 & iv2 & m2 & E2 & R2 & Hc2 & P2 & PI2 & HI2 & M2); [lia|unfold zlen in *; rewrite length_drop; nia..|nia|done|done|].
    exists (e ++ e2), c2, iv2, m2. split; [exact E2|]. simpl in *.
    assert (HT : take (N * bs) Aout = take (j * bs) Aout ++ take ((N - j) * bs) (drop (j * bs) Aout))
      by (rewrite take_take_drop; f_equal; nia).
    split; [replace N with (j + (N - j))%nat by lia; rewrite run_add, R; simpl; by rewrite R2|].
    split; [done|]. rewrite HT. pose proof (cr_nodup _ _ _ _ _ Hr) as Hnd. pose proof (cr_out _ _ _ _ _ Hr) as Ho.
    rewrite HT in Hnd, Ho. apply NoDup_app in Hnd as (_ & Hx & _). split_apart.
    split; [|split; [done|split; [done|]]].
    + apply peek_app_Some; [|done]. rewrite (modifies_peek _ _ _ _ M2); [done|].
      apply disjoint_app. split; [done|]. apply disjoint_app. done.
    + eapply modifies_trans; [exact M|exact M2|solve_sub|solve_sub].
Qed.

(** Everything before the loop. *)
Lemma crypt_ok s (dst src : list scatterlist) (N : nat) b iv :
  Forall sg_ok dst -> Forall sg_ok src -> ctx_ok (cctx s) ->
  crypt_ready (cmem s) (take (N * bs) (sg_addrs src)) (take (N * bs) (sg_addrs dst)) b iv ->
  Z.of_nat (N * bs) <= zlen (sg_addrs src) -> Z.of_nat (N * bs) <= zlen (sg_addrs dst) ->
  Z.of_nat (N * bs) < 2^32 -> Z.of_nat (2 * bs) < 2^32 ->
  exists e c' iv' m',
    crypt k d prfn dst src (Z.of_nat (N * bs)) s = Some (0, CState m' c' (crt_flags s)) /\
    run step bs N (cctx s, iv) b = Some (e, (c', iv')) /\ ctx_ok c' /\
    peek m' (take (N * bs) (sg_addrs dst)) = Some e /\ peek m' I = Some iv' /\ is_bytes (length I) iv' /\
    modifies (take (N * bs) (sg_addrs dst) ++ I ++ work) (cmem s) m'.
Proof.
  intros Hdst Hsrc Hc Hr Hzi Hzo Hmax Hbmax. unfold crypt. rewrite Hd.
  destruct (decide (N = 0%nat)) as [->|HN].
  { exists [], (cctx s), iv, (cmem s). destruct s. simpl. split_and!; try done; [apply Hr|apply Hr]. }
  rewrite decide_False by nia. rewrite Nat2Z.inj_mul, Z.mod_mul by lia. rewrite <- Nat2Z.inj_mul.
  rewrite decide_False by (intros H; by apply H).
  destruct src as [|g l]; [simpl in Hzi; unfold zlen in Hzi; simpl in Hzi; nia|].
  destruct dst as [|g' l']; [simpl in Hzo; unfold zlen in Hzo; simpl in Hzo; nia|].
  destruct (start_walk s 0 g l Hsrc) as (win & Ei & Hwi & Hpi).
  destruct (start_walk s 0 g' l' Hdst) as (wout & Eo & Hwo & Hpo).
  rewrite (CM_bind_eq _ _ _ _ _ Ei), (CM_bind_eq _ _ _ _ _ Eo).
  destruct (crypt_loop_ok (Z.to_nat (Z.of_nat (N * bs))) 0 s win wout _ _ N b iv 0 Hwi Hwo Hpi Hpo Hc Hr)
    as (e & c' & iv' & m' & E & H); [nia|done|done|done|done|by left|].
  exists e, c', iv', m'. split; [|done]. by rewrite (CM_bind_eq _ _ _ _ _ E).
Qed.
End Crypt.
