(* ===== verification/CipherSpec.v ===== *)
(** The contract of the cipher layer: what a block cipher promises to it, which
    ciphers keep the promise, and what the transform operations do for their
    callers. *)
From Stdlib Require Import ZArith Lia.
From stdpp Require Import base numbers list list_numbers option gmap sets.
From S2P Require Import Prelude Bytes Tea Arc4 Cipher CipherMem CipherModes CipherWalk CipherCrypt.

Local Open Scope Z_scope.

(** ** Block ciphers *)

(** What the code of [cipher.c] relies on: blocks of a fixed size, a decryption
    that undoes the encryption, and a key setup that answers for every key of an
    announced length: it may refuse the key (as [aes_set_key] does for 17 bytes and
    the DES drivers for weak keys), but when it returns 0 the context is usable. *)
Class BlockCipher {C : Type} (alg : cipher_alg C) := {
  bc_ctx_ok : C -> Prop;
  bc_bs : nat;
  bc_blocksize : cra_blocksize alg = Z.of_nat bc_bs;
  bc_range : (0 < bc_bs < 1000)%nat;
  bc_inverse : fn_inverse bc_bs bc_ctx_ok (cia_encrypt alg) (cia_decrypt alg);
  bc_decrypts : fn_spec bc_bs bc_ctx_ok (cia_decrypt alg);
  bc_setkey c key flags :
    cia_min_keysize alg <= zlen key <= cia_max_keysize alg -> Forall is_u8 key ->
    exists ret c' flags', cia_setkey alg c key (zlen key) flags = Some (ret, c', flags') /\
      (ret = 0 -> bc_ctx_ok c');
  bc_generic : cia_encrypt_ecb alg = None /\ cia_decrypt_ecb alg = None /\
               cia_encrypt_cbc alg = None /\ cia_decrypt_cbc alg = None
}.
Arguments bc_ctx_ok {C} alg {_}.
Arguments bc_bs {C} alg {_}.

(** A block function that does not change its context. *)
Definition stateless {C} (f : C -> bytes -> option bytes) : block_fn C :=
  fun c b => e ← f c b; Some (e, c).

Lemma stateless_inverse {C} (P : C -> Prop) (f g : C -> bytes -> option bytes) :
  (forall c, inverse_ciphers (f c) (g c)) -> fn_inverse 8 P (stateless f) (stateless g).
Proof.
  intros H c b Hc Hb. destruct (H c b Hb) as (e & d & E & He & D & _).
  exists e, c. unfold stateless. rewrite E. simpl. rewrite D. done.
Qed.

Lemma stateless_spec {C} (P : C -> Prop) (f g : C -> bytes -> option bytes) :
  (forall c, inverse_ciphers (f c) (g c)) -> fn_spec 8 P (stateless g).
Proof.
  intros H c b Hc Hb. destruct (H c b Hb) as (e & d & _ & _ & _ & D & Hd & _).
  exists d, c. unfold stateless. by rewrite D.
Qed.

(** [tea_alg], [xtea_alg] and [xeta_alg]. *)
Definition tea_like (enc dec : tea_ctx -> bytes -> option bytes) : cipher_alg tea_ctx :=
  CipherAlg _ 8 0 16 16 16 (fun c key len flags => Some (tea_setkey c key len flags))
    (stateless enc) (stateless dec) None None None None.

Definition tea_alg := tea_like tea_encrypt tea_decrypt.
Definition xtea_alg := tea_like xtea_encrypt xtea_decrypt.
Definition xeta_alg := tea_like xeta_encrypt xeta_decrypt.

Lemma tea_setkey_ok c key flags :
  16 <= zlen key <= 16 -> Forall is_u8 key ->
  exists c', Some (tea_setkey c key (zlen key) flags) = Some (0, c', flags) /\ tea_ctx_ok c'.
Proof.
  intros Hl Hk. unfold tea_setkey. rewrite decide_True by lia. eexists. split; [reflexivity|].
  split; [done|]. simpl. repeat constructor; by apply u32_in_range.
Qed.

Definition tea_like_ok enc dec (H : forall c, inverse_ciphers (enc c) (dec c)) : BlockCipher (tea_like enc dec).
Proof.
  refine (Build_BlockCipher _ _ tea_ctx_ok 8 _ _ _ _ _ _); [done|lia|by apply stateless_inverse|by eapply stateless_spec| |done].
  intros c key flags Hl Hk. destruct (tea_setkey_ok c key flags Hl Hk) as (c' & E & Hc). by exists 0, c', flags.
Defined.

Global Instance tea_block_cipher : BlockCipher tea_alg := tea_like_ok _ _ tea_cipher.
Global Instance xtea_block_cipher : BlockCipher xtea_alg := tea_like_ok _ _ xtea_cipher.
Global Instance xeta_block_cipher : BlockCipher xeta_alg := tea_like_ok _ _ xeta_cipher.

(** [arc4_alg]: blocks of one byte. *)
Definition arc4_fn : block_fn arc4_ctx := fun c b =>
  match b with [x] => '(y, c) ← arc4_crypt c x; Some ([y], c) | _ => None end.

Definition arc4_alg : cipher_alg arc4_ctx :=
  CipherAlg _ 1 0 258 1 256 (fun c key len flags => c ← arc4_set_key key len; Some (0, c, flags))
    arc4_fn arc4_fn None None None None.

Lemma arc4_inverse : fn_inverse 1 arc4_ok arc4_fn arc4_fn.
Proof.
  intros c b Hc [Hl Hb]. destruct b as [|x [|]]; try done. apply Forall_cons_1 in Hb as [Hx _].
  destruct (arc4_crypt_ok c x Hc Hx) as (d & c' & E & Hd & Hc' & Hback).
  exists [Z.lxor x d], c'. unfold arc4_fn. rewrite E, Hback. simpl.
  split_and!; [done|split; [done|by constructor; auto with kern]|done|].
  by rewrite Z.lxor_assoc, Z.lxor_nilpotent, Z.lxor_0_r.
Qed.

Lemma arc4_set_key_ok key : 1 <= zlen key <= 256 -> Forall is_u8 key ->
  exists c, arc4_set_key key (zlen key) = Some c /\ arc4_ok c.
Proof.
  intros Hl Hk. destruct (schedule_ok 256 (seqZ 0 256) key (zlen key) 0 0 0) as (S1 & E & HS);
    [unfold arc4_perm; reflexivity|lia|lia|lia|lia|done|done|].
  exists (Arc4Ctx S1 1 0). unfold arc4_set_key. rewrite E. split; [done|]. split_and!; [exact HS|by vm_compute..].
Qed.

Global Instance arc4_block_cipher : BlockCipher arc4_alg.
Proof.
  refine (Build_BlockCipher _ arc4_alg arc4_ok 1 _ _ arc4_inverse (fn_inverse_spec _ _ _ _ arc4_inverse) _ _); [done|lia| |done].
  simpl. intros c key flags Hl Hk. destruct (arc4_set_key_ok key Hl Hk) as (c' & E & H). rewrite E. simpl. eauto 6.
Defined.

(** [cipher_null] of [crypto/crypto_null.c]: the identity on one byte. *)
Definition null_setkey (c : unit) (key : bytes) (keylen flags : Z) : option (Z * unit * Z) := Some (0, c, flags).
Definition null_crypt : block_fn unit := fun c b => Some (b, c).
Definition cipher_null : cipher_alg unit :=
  CipherAlg _ 1 0 0 0 0 null_setkey null_crypt null_crypt None None None None.

Global Instance null_block_cipher : BlockCipher cipher_null.
Proof.
  refine (Build_BlockCipher _ _ (fun _ => True) 1 _ _ _ _ _ _); [done|lia| | |simpl; eauto 6|done].
  - intros c b _ Hb. by exists b, c.
  - intros c b _ Hb. by exists b, c.
Defined.

(** ** Transforms *)

Section Contract.
Context {C : Type} (alg : cipher_alg C) `{BC : !BlockCipher alg} (k : scratch).
Implicit Types (s : cstate C) (tfm : cipher_tfm).

Local Abbreviation bs := (bc_bs alg).

(** What the operations of a transform do to the blocks. *)
Definition op_step (op : crypt_op) : @step_fn C :=
  match op with
  | Ecb_encrypt => ecb_step (cia_encrypt alg)
  | Ecb_decrypt => ecb_step (cia_decrypt alg)
  | Cbc_encrypt => cbc_enc_step (cia_encrypt alg)
  | Cbc_decrypt => cbc_dec_step (cia_decrypt alg)
  | Nocrypt => fun _ _ => None
  end.

(** The addresses of the chaining value and of the local block. *)
Definition iv_area tfm : list Z :=
  if decide (cit_mode tfm = CRYPTO_TFM_MODE_CBC) then seqZ (cit_iv tfm) (Z.of_nat bs) else [].
Definition stack_area : list Z := seqZ (stack_buffer k) (Z.of_nat bs).

Definition any_desc tfm : cipher_desc C := desc alg tfm (cia_encrypt alg) 0.

(** All that a caller has to provide: scatterlists with [N] blocks, the bytes [b]
    to read, memory to write, and no overlap other than working in place. *)
Record prepared tfm s (dst src : list scatterlist) (N : nat) (b iv : bytes) : Prop := {
  pr_ctx : bc_ctx_ok alg (cctx s);
  pr_dst : Forall sg_ok dst;
  pr_src : Forall sg_ok src;
  pr_srclen : Z.of_nat (N * bs) <= zlen (sg_addrs src);
  pr_dstlen : Z.of_nat (N * bs) <= zlen (sg_addrs dst);
  pr_max : Z.of_nat (N * bs) < 2^32;
  pr_mem : crypt_ready bs (iv_area tfm) stack_area (any_desc tfm) k (cmem s)
             (take (N * bs) (sg_addrs src)) (take (N * bs) (sg_addrs dst)) b iv
}.

(** A successful call: the bytes [e] and the new chaining value are in memory, and
    nothing but the destination, the chaining value and scratch memory changed. *)
Definition performed tfm s (op : crypt_op) (dst : list scatterlist) (N : nat) (b iv : bytes)
    (o : option (Z * cstate C)) (e iv' : bytes) (s' : cstate C) : Prop :=
  o = Some (0, s') /\ crt_flags s' = crt_flags s /\ bc_ctx_ok alg (cctx s') /\
  run (op_step op) bs N (cctx s, iv) b = Some (e, (cctx s', iv')) /\
  peek (cmem s') (take (N * bs) (sg_addrs dst)) = Some e /\ peek (cmem s') (iv_area tfm) = Some iv' /\
  modifies (take (N * bs) (sg_addrs dst) ++ iv_area tfm ++ work bs stack_area (any_desc tfm) k) (cmem s) (cmem s').

Lemma init_cases mode ctx_addr tfm :
  crypto_init_cipher_ops alg mode ctx_addr = Some (0, tfm) ->
  (mode = CRYPTO_TFM_MODE_ECB /\ cit_mode tfm = CRYPTO_TFM_MODE_ECB /\
     cit_encrypt tfm = Some Ecb_encrypt /\ cit_decrypt tfm = Some Ecb_decrypt) \/
  (mode = CRYPTO_TFM_MODE_CBC /\ cit_mode tfm = CRYPTO_TFM_MODE_CBC /\
     cit_encrypt tfm = Some Cbc_encrypt /\ cit_decrypt tfm = Some Cbc_decrypt /\
     xor_spec bs (xor_of (C := C) (cit_xor_block tfm)) /\ cit_ivsize tfm = Z.of_nat bs) \/
  ((mode = CRYPTO_TFM_MODE_CFB \/ mode = CRYPTO_TFM_MODE_CTR) /\
     cit_encrypt tfm = Some Nocrypt /\ cit_decrypt tfm = Some Nocrypt).
Proof.
  unfold crypto_init_cipher_ops. rewrite !bc_blocksize.
  destruct (decide (mode = CRYPTO_TFM_MODE_ECB)) as [->|]; [intros [= <-]; by left|].
  destruct (decide (mode = CRYPTO_TFM_MODE_CBC)) as [->|].
  - intros H. right. left. destruct (decide (Z.of_nat bs = 8)) as [H8|]; [|destruct (decide (Z.of_nat bs = 16)) as [H16|]];
      [injection H as <-|injection H as <-|discriminate H]; simpl; split_and!; try done.
    + replace bs with 8%nat by lia. apply xor_64_ok.
    + replace bs with 16%nat by lia. apply xor_128_ok.
  - destruct (decide _) as [Hm|]; [|done]. intros [= <-]. right. by right.
Qed.

Lemma bs_range : (0 < bs)%nat /\ Z.of_nat (2 * bs) < 2^32.
Proof. pose proof (bc_range (alg := alg)). lia. Qed.

Lemma crypt_ready_desc I X (d d' : cipher_desc C) m Lin Lout b iv :
  alignmask d = alignmask d' ->
  crypt_ready (C := C) bs I X d k m Lin Lout b iv -> crypt_ready bs I X d' k m Lin Lout b iv.
Proof.
  intros Ha [? ? ? ? ? HW ? ? Hi Ho Hiw Har]. unfold work, slow_area, slow_src in *. rewrite Ha in *.
  split; try done; unfold work, slow_area, slow_src; done.
Qed.

(** One call of [crypt] with a process function that refines a step. *)
Lemma call_ok tfm s op dst src N b iv d prfn :
  prepared tfm s dst src N b iv -> bsize d = Z.of_nat bs -> alignmask d = cra_alignmask alg ->
  step_spec bs (length (iv_area tfm)) (bc_ctx_ok alg) (op_step op) ->
  process_spec (bc_ctx_ok alg) bs (op_step op) (iv_area tfm) stack_area d prfn ->
  exists e iv' s', performed tfm s op dst N b iv (crypt k d prfn dst src (Z.of_nat (N * bs)) s) e iv' s'.
Proof.
  intros [Hc Hdst Hsrc Hzs Hzd Hmax Hr] Hd Ha Hst Hpr. destruct bs_range as [Hb1 Hb2].
  destruct (crypt_ok (bc_ctx_ok alg) bs Hb1 (op_step op) (iv_area tfm) stack_area d prfn k Hst Hpr Hd s dst src N b iv
    Hdst Hsrc Hc) as (e & c' & iv' & m' & E & R & Hc' & P & PI & HI & M); [|done|done|done|done|].
  { eapply crypt_ready_desc; [|exact Hr]. by rewrite Ha. }
  exists e, iv', (CState m' c' (crt_flags s)). split; [done|]. do 5 (split; [done|]).
  eapply modifies_weaken; [exact M|]. unfold work, slow_area, slow_src. rewrite Ha. done.
Qed.

Lemma ecb_call_ok tfm s op dst src N b iv :
  prepared tfm s dst src N b iv -> cit_mode tfm = CRYPTO_TFM_MODE_ECB -> op = Ecb_encrypt \/ op = Ecb_decrypt ->
  exists e iv' s', performed tfm s op dst N b iv (call_op alg k tfm (Some op) dst src (Z.of_nat (N * bs)) s) e iv' s'.
Proof.
  intros Hp Hm Hop. destruct bs_range as [Hb1 _]. destruct bc_generic as (He & Hd & _ & _).
  destruct Hop as [->| ->]; cbn [call_op]; [unfold ecb_encrypt; rewrite He|unfold ecb_decrypt; rewrite Hd];
    cbn [or_else]; eapply call_ok; try done; try apply bc_blocksize.
  - apply ecb_step_ok, (fn_inverse_spec _ _ _ _ bc_inverse).
  - apply ecb_process_ok; [done|apply (fn_inverse_spec _ _ _ _ bc_inverse)|apply bc_blocksize|done].
  - apply ecb_step_ok, bc_decrypts.
  - apply ecb_process_ok; [done|apply bc_decrypts|apply bc_blocksize|done].
Qed.

Lemma cbc_call_ok tfm s op dst src N b iv :
  prepared tfm s dst src N b iv -> cit_mode tfm = CRYPTO_TFM_MODE_CBC ->
  xor_spec bs (xor_of (C := C) (cit_xor_block tfm)) -> op = Cbc_encrypt \/ op = Cbc_decrypt ->
  exists e iv' s', performed tfm s op dst N b iv (call_op alg k tfm (Some op) dst src (Z.of_nat (N * bs)) s) e iv' s'.
Proof.
  intros Hp Hm Hx Hop. destruct bs_range as [Hb1 _]. destruct bc_generic as (_ & _ & He & Hd).
  assert (HI : iv_area tfm = seqZ (cit_iv tfm) (Z.of_nat bs)) by (unfold iv_area; by rewrite decide_True).
  destruct Hop as [->| ->]; cbn [call_op]; [unfold cbc_encrypt; rewrite He|unfold cbc_decrypt; rewrite Hd];
    cbn [or_else]; eapply call_ok; try done; try apply bc_blocksize; rewrite HI.
  - rewrite length_seqZ_nat. apply cbc_enc_step_ok, (fn_inverse_spec _ _ _ _ bc_inverse).
  - eapply cbc_encrypt_ok; [done|apply (fn_inverse_spec _ _ _ _ bc_inverse)|exact Hx|apply bc_blocksize|done..].
  - rewrite length_seqZ_nat. apply cbc_dec_step_ok, bc_decrypts.
  - eapply cbc_decrypt_ok; [done|apply bc_decrypts|exact Hx|apply bc_blocksize|done..].
Qed.

(** Any call of the encryption or decryption operation of a transform. *)
Lemma op_call_ok mode ctx_addr tfm s dst src N b iv (enc : bool) :
  mode = CRYPTO_TFM_MODE_ECB \/ mode = CRYPTO_TFM_MODE_CBC ->
  crypto_init_cipher_ops alg mode ctx_addr = Some (0, tfm) -> prepared tfm s dst src N b iv ->
  let op := if decide (mode = CRYPTO_TFM_MODE_CBC) then if enc then Cbc_encrypt else Cbc_decrypt
            else if enc then Ecb_encrypt else Ecb_decrypt in
  exists e iv' s', performed tfm s op dst N b iv
    (call_op alg k tfm (if enc then cit_encrypt tfm else cit_decrypt tfm) dst src (Z.of_nat (N * bs)) s) e iv' s'.
Proof.
  intros Hmode Hinit Hp op. destruct (init_cases _ _ _ Hinit) as [(-> & Hm & He & Hd)|[(-> & Hm & He & Hd & Hx & _)|([->| ->] & _)]];
    try (by destruct Hmode); unfold op; rewrite He, Hd.
  - destruct enc; (apply ecb_call_ok; [done|done|tauto]).
  - destruct enc; (apply cbc_call_ok; [done|done|done|tauto]).
Qed.

Lemma op_steps_inverse mode : mode = CRYPTO_TFM_MODE_ECB \/ mode = CRYPTO_TFM_MODE_CBC ->
  forall tfm, cit_mode tfm = mode ->
  steps_inverse bs (length (iv_area tfm)) (bc_ctx_ok alg)
    (op_step (if decide (mode = CRYPTO_TFM_MODE_CBC) then Cbc_encrypt else Ecb_encrypt))
    (op_step (if decide (mode = CRYPTO_TFM_MODE_CBC) then Cbc_decrypt else Ecb_decrypt)).
Proof.
  intros [->| ->] tfm Hm; unfold iv_area; rewrite Hm.
  - rewrite !decide_False by done. apply ecb_inverse, bc_inverse.
  - rewrite !decide_True by done. rewrite length_seqZ_nat. apply cbc_inverse, bc_inverse.
Qed.

Lemma init_mode mode ctx_addr tfm :
  mode = CRYPTO_TFM_MODE_ECB \/ mode = CRYPTO_TFM_MODE_CBC ->
  crypto_init_cipher_ops alg mode ctx_addr = Some (0, tfm) -> cit_mode tfm = mode.
Proof.
  intros Hmode Hinit. destruct (init_cases _ _ _ Hinit) as [(-> & Hm & _)|[(-> & Hm & _)|([->| ->] & _)]]; try done;
    by destruct Hmode.
Qed.

(** C19. A call of a transform's encryption or decryption operation does to the
    bytes of its scatterlists what the mode (ECB or CBC over the block cipher)
    does to one byte string: whatever the segments are, wherever pages end inside
    a block, with or without a bounce page, in place or not.  It returns 0, leaves
    the chaining value for the next call, and changes no other memory than the
    destination, the chaining value and its own scratch memory. *)
Theorem cipher_call_refines mode ctx_addr tfm s dst src N b iv enc :
  mode = CRYPTO_TFM_MODE_ECB \/ mode = CRYPTO_TFM_MODE_CBC ->
  crypto_init_cipher_ops alg mode ctx_addr = Some (0, tfm) -> prepared tfm s dst src N b iv ->
  let op := if decide (mode = CRYPTO_TFM_MODE_CBC) then if enc : bool then Cbc_encrypt else Cbc_decrypt
            else if enc then Ecb_encrypt else Ecb_decrypt in
  exists e iv' s', performed tfm s op dst N b iv
    (call_op alg k tfm (if enc then cit_encrypt tfm else cit_decrypt tfm) dst src (Z.of_nat (N * bs)) s) e iv' s'.
Proof. apply op_call_ok. Qed.

(** C20. Decrypting what was encrypted gives the plaintext back: after an encryption
    from [src] to [dst] returned 0, a decryption from [dst] to any scatterlist
    [dst2], with the key context and the chaining value that the encryption began
    with, returns 0 and leaves the original bytes in [dst2]. *)
Theorem cipher_roundtrip mode ctx_addr tfm s dst src N b iv :
  mode = CRYPTO_TFM_MODE_ECB \/ mode = CRYPTO_TFM_MODE_CBC ->
  crypto_init_cipher_ops alg mode ctx_addr = Some (0, tfm) -> prepared tfm s dst src N b iv ->
  exists e s1, call_op alg k tfm (cit_encrypt tfm) dst src (Z.of_nat (N * bs)) s = Some (0, s1) /\
    peek (cmem s1) (take (N * bs) (sg_addrs dst)) = Some e /\
    forall s2 dst2, cctx s2 = cctx s -> prepared tfm s2 dst2 dst N e iv ->
      exists s3, call_op alg k tfm (cit_decrypt tfm) dst2 dst (Z.of_nat (N * bs)) s2 = Some (0, s3) /\
        peek (cmem s3) (take (N * bs) (sg_addrs dst2)) = Some b.
Proof.
  intros Hmode Hinit Hp.
  destruct (op_call_ok _ _ _ _ _ _ _ _ _ true Hmode Hinit Hp) as (e & iv1 & s1 & E1 & _ & _ & R1 & P1 & _).
  exists e, s1. split; [exact E1|]. split; [exact P1|]. intros s2 dst2 Hc2 Hp2.
  destruct (op_call_ok _ _ _ _ _ _ _ _ _ false Hmode Hinit Hp2) as (e2 & iv2 & s3 & E3 & _ & _ & R3 & P3 & _).
  exists s3. split; [exact E3|]. rewrite P3. f_equal. rewrite Hc2 in R3.
  destruct Hp as [Hc _ _ Hzs _ _ Hr].
  destruct (run_inverse bs (length (iv_area tfm)) (bc_ctx_ok alg) _ _ N (cctx s) iv b
    (op_steps_inverse mode Hmode tfm (init_mode _ _ _ Hmode Hinit)) Hc (cr_ivb _ _ _ _ _ _ _ _ _ _ Hr))
    as (e' & c' & iv' & R & _ & _ & _ & D).
  { split; [|apply Hr]. rewrite (peek_length _ _ _ (cr_src _ _ _ _ _ _ _ _ _ _ Hr)), length_take.
    unfold zlen in Hzs. lia. }
  assert (e' = e) as -> by (clear -R R1; destruct (decide _); congruence).
  clear -D R3. destruct (decide _); congruence.
Qed.

(** C21. The error paths of the cipher layer: a byte count that is no multiple of
    the block size is refused with [-EINVAL] and the flag for it, without touching
    memory; a count of 0 does nothing; the CFB and CTR modes answer [-ENOSYS]; a
    key of a length outside the algorithm's range is refused with [-EINVAL] and
    the flag for it; for any other key the answer of the algorithm's own key setup
    is passed on, with its context and flags and without touching memory, and the
    context after an accepted key is one that the calls need. *)
Theorem cipher_error_paths mode ctx_addr tfm s dst src nbytes key enc :
  crypto_init_cipher_ops alg mode ctx_addr = Some (0, tfm) ->
  let call := call_op alg k tfm (if enc : bool then cit_encrypt tfm else cit_decrypt tfm) dst src nbytes s in
  (mode = CRYPTO_TFM_MODE_CFB \/ mode = CRYPTO_TFM_MODE_CTR -> call = Some (- ENOSYS, s)) /\
  (mode = CRYPTO_TFM_MODE_ECB \/ mode = CRYPTO_TFM_MODE_CBC ->
    (nbytes = 0 -> call = Some (0, s)) /\
    (nbytes `mod` Z.of_nat bs <> 0 ->
      call = Some (- EINVAL, CState (cmem s) (cctx s) (Z.lor (crt_flags s) RES_BAD_BLOCK_LEN)))) /\
  (zlen key < cia_min_keysize alg \/ cia_max_keysize alg < zlen key ->
    setkey alg key (zlen key) s =
      Some (- EINVAL, CState (cmem s) (cctx s) (Z.lor (crt_flags s) RES_BAD_KEY_LEN))) /\
  (cia_min_keysize alg <= zlen key <= cia_max_keysize alg -> Forall is_u8 key ->
    exists ret c flags, cia_setkey alg (cctx s) key (zlen key) (crt_flags s) = Some (ret, c, flags) /\
      setkey alg key (zlen key) s = Some (ret, CState (cmem s) c flags) /\ (ret = 0 -> bc_ctx_ok alg c)).
Proof.
  intros Hinit call. split; [|split; [|split]].
  - intros Hm. destruct (init_cases _ _ _ Hinit) as [(-> & _)|[(-> & _)|(_ & He & Hd)]]; [by destruct Hm..|].
    unfold call. rewrite He, Hd. by destruct enc.
  - intros Hm. assert (Hcall : exists d prfn, bsize d = Z.of_nat bs /\ call = crypt k d prfn dst src nbytes s).
    { unfold call. destruct (init_cases _ _ _ Hinit) as [(-> & _ & He & Hd)|[(-> & _ & He & Hd & _)|([->| ->] & _)]];
        try (by destruct Hm); rewrite He, Hd; destruct enc; eexists _, _; (split; [|reflexivity]); apply bc_blocksize. }
    destruct Hcall as (d & prfn & Hd & ->). unfold crypt. rewrite Hd. split.
    + intros ->. done.
    + intros Hne. rewrite decide_False; [by rewrite decide_True|]. intros ->. by rewrite Zmod_0_l in Hne.
  - intros Hl. unfold setkey. repeat case_bool_decide; try done; lia.
  - intros Hl Hk. unfold setkey. rewrite !bool_decide_eq_false_2 by lia. cbn [orb].
    destruct (bc_setkey (cctx s) key (crt_flags s) Hl Hk) as (ret & c & flags & E & Hc).
    exists ret, c, flags. by rewrite E.
Qed.
End Contract.

(** ** Instances *)

(** One TEA block at the end of a page and the start of the next, encrypted in
    place in CBC mode. *)
Definition demo_scratch : scratch := Scratch 200 0 300 0 (fun _ => false).
Definition demo_sg : list scatterlist := [Sg 1 4092 8].
Definition demo_memory (b : bytes) : gmap Z Z :=
  list_to_map (zip (seqZ 8188 8) b ++ zip (seqZ 100 8) (replicate 8 0) ++
               zip (seqZ 200 16) (replicate 16 0) ++ zip (seqZ 300 8) (replicate 8 0)).
Definition demo_state (b : bytes) : cstate tea_ctx := CState (demo_memory b) (TeaCtx [1; 2; 3; 4]) 0.
Definition demo_tfm : cipher_tfm :=
  CipherTfm CRYPTO_TFM_MODE_CBC 8 100 (Some Cbc_encrypt) (Some Cbc_decrypt) (Some Cbc_encrypt) (Some Cbc_decrypt) (Some Xor_64).

Lemma apart_check (A B : list Z) : bool_decide (Forall (fun a => a ∉ B) A) = true -> A ## B.
Proof. intros H%bool_decide_eq_true z Ha Hb. exact (proj1 (Forall_forall _ _) H z Ha Hb). Qed.

Lemma mapped_check m l : bool_decide (is_Some (peek m l)) = true -> mapped m l.
Proof. intros [b Hb]%bool_decide_eq_true. apply peek_mapped. eauto. Qed.

Lemma demo_prepared b :
  b = [1; 2; 3; 4; 5; 6; 7; 8] -> prepared tea_alg demo_scratch demo_tfm (demo_state b) demo_sg demo_sg 1 b (replicate 8 0).
Proof.
  intros ->. assert (Hsg : Forall sg_ok demo_sg) by (constructor; [split; simpl; unfold PAGE_SIZE; lia|constructor]).
  split; [|exact Hsg|exact Hsg|..].
  - split; [done|]. apply (bool_decide_unpack _). vm_compute. done.
  - vm_compute. done.
  - vm_compute. done.
  - vm_compute. done.
  - split; try (apply apart_check; vm_compute; reflexivity); try (apply mapped_check; vm_compute; reflexivity);
      try (vm_compute; reflexivity); try (apply (bool_decide_unpack _); vm_compute; done).
    + by left.
    + split_and!; apply apart_check; vm_compute; reflexivity.
Qed.

Definition demo_plain : bytes := [1; 2; 3; 4; 5; 6; 7; 8].

Lemma cipher_call_refines_witness :
  exists e iv' s', performed tea_alg demo_scratch demo_tfm (demo_state demo_plain) Cbc_encrypt demo_sg 1 demo_plain
    (replicate 8 0)
    (call_op tea_alg demo_scratch demo_tfm (Some Cbc_encrypt) demo_sg demo_sg 8 (demo_state demo_plain)) e iv' s'.
Proof.
  exact (cipher_call_refines tea_alg demo_scratch CRYPTO_TFM_MODE_CBC 84 demo_tfm (demo_state demo_plain)
    demo_sg demo_sg 1 demo_plain (replicate 8 0) true (or_intror eq_refl) eq_refl (demo_prepared demo_plain eq_refl)).
Defined.

Lemma cipher_roundtrip_witness :
  exists e s1, call_op tea_alg demo_scratch demo_tfm (Some Cbc_encrypt) demo_sg demo_sg 8 (demo_state demo_plain) = Some (0, s1) /\
    peek (cmem s1) (take 8 (sg_addrs demo_sg)) = Some e /\
    forall s2 dst2, cctx s2 = TeaCtx [1; 2; 3; 4] -> prepared tea_alg demo_scratch demo_tfm s2 dst2 demo_sg 1 e (replicate 8 0) ->
      exists s3, call_op tea_alg demo_scratch demo_tfm (Some Cbc_decrypt) dst2 demo_sg 8 s2 = Some (0, s3) /\
        peek (cmem s3) (take 8 (sg_addrs dst2)) = Some demo_plain.
Proof.
  exact (cipher_roundtrip tea_alg demo_scratch CRYPTO_TFM_MODE_CBC 84 demo_tfm (demo_state demo_plain)
    demo_sg demo_sg 1 demo_plain (replicate 8 0) (or_intror eq_refl) eq_refl (demo_prepared demo_plain eq_refl)).
Defined.

Lemma cipher_error_paths_witness :
  call_op tea_alg demo_scratch demo_tfm (Some Cbc_encrypt) demo_sg demo_sg 7 (demo_state demo_plain) =
    Some (- EINVAL, CState (demo_memory demo_plain) (TeaCtx [1; 2; 3; 4]) RES_BAD_BLOCK_LEN) /\
  setkey tea_alg [1; 2; 3] 3 (demo_state demo_plain) =
    Some (- EINVAL, CState (demo_memory demo_plain) (TeaCtx [1; 2; 3; 4]) RES_BAD_KEY_LEN) /\
  exists c flags, setkey tea_alg (replicate 16 7) 16 (demo_state demo_plain) =
    Some (0, CState (demo_memory demo_plain) c flags) /\ tea_ctx_ok c.
Proof.
  pose proof (fun key => cipher_error_paths tea_alg demo_scratch CRYPTO_TFM_MODE_CBC 84 demo_tfm (demo_state demo_plain)
    demo_sg demo_sg 7 key true eq_refl) as H.
  destruct (H [1; 2; 3]) as (_ & H1 & H2 & _). destruct (H (replicate 16 7)) as (_ & _ & _ & H3).
  split; [|split].
  - apply (H1 (or_intror eq_refl)). vm_compute. discriminate.
  - apply H2. left. reflexivity.
  - destruct H3 as (ret & c & flags & E & Hs & Hc).
    + by split; vm_compute.
    + repeat constructor; by vm_compute.
    + assert (ret = 0) as -> by (vm_compute in E; congruence). exists c, flags. exact (conj Hs (Hc eq_refl)).
Defined.
