(* ===== verification/Compress.v ===== *)
(** The compression layer of the crypto API, [crypto/compress.c], and the null compressor of
    [crypto/crypto_null.c]. *)
From Stdlib Require Import ZArith Lia.
From stdpp Require Import base numbers list list_numbers option gmap.
From S2P Require Import Prelude Bytes Cipher CipherMem.

Local Open Scope Z_scope.

Module Compress.

(** [struct compress_alg]: [coa_init] and [coa_exit] may be missing; an operation gets the
    source, its length, the destination and the room there, and returns a result and what
    it leaves in [*dlen]. *)
Record compress_alg (C : Type) := CompressAlg {
  coa_init : option (C -> Z * C);
  coa_exit : option (C -> C);
  coa_compress : Z -> Z -> Z -> Z -> CM C (Z * Z);
  coa_decompress : Z -> Z -> Z -> Z -> CM C (Z * Z)
}.
Arguments coa_init {C}.
Arguments coa_exit {C}.
Arguments coa_compress {C}.
Arguments coa_decompress {C}.

Section Code.
Context {C : Type} (alg : compress_alg C).

Definition crypto_compress (src slen dst dlen : Z) : CM C (Z * Z) := coa_compress alg src slen dst dlen.
Definition crypto_decompress (src slen dst dlen : Z) : CM C (Z * Z) := coa_decompress alg src slen dst dlen.
Definition crypto_init_compress_flags (flags : Z) : Z := if decide (flags <> 0) then - EINVAL else 0.

(** The call goes through the pointer, whether there is a function or not. *)
Definition crypto_init_compress_ops : CM C Z := fun s =>
  match coa_init alg with
  | None => None
  | Some f => let '(ret, c) := f (cctx s) in Some (ret, CState (cmem s) c (crt_flags s))
  end.

Definition crypto_exit_compress_ops : CM C unit := fun s =>
  match coa_exit alg with
  | None => None
  | Some f => Some (tt, CState (cmem s) (f (cctx s)) (crt_flags s))
  end.

Definition null_compress (src slen dst dlen : Z) : CM C (Z * Z) :=
  if decide (dlen < slen) then mret (- EINVAL, dlen)
  else _ ← memcpy dst src slen; mret (0, slen).
End Code.

(** The initialiser of [compress_null] names neither [coa_init] nor [coa_exit]. *)
Definition compress_null {C} : compress_alg C := CompressAlg C None None null_compress null_compress.

(** The compression layer with the null compressor: without room in the destination an
    operation is refused with [-EINVAL] and changes nothing; with room, compression and
    decompression restore the data and change only the destinations.  But a transform
    cannot be set up: [crypto_init_compress_ops] calls [coa_init], which the algorithm does
    not have, and so does [crypto_exit_compress_ops] with [coa_exit]. *)
Theorem null_compressor {C} (s : cstate C) src slen mid dst dlen b :
  0 <= slen -> peek (cmem s) (seqZ src slen) = Some b ->
  mapped (cmem s) (seqZ mid slen) -> mapped (cmem s) (seqZ dst slen) ->
  (dlen < slen -> crypto_compress compress_null src slen mid dlen s = Some ((- EINVAL, dlen), s)) /\
  (slen <= dlen -> exists s1 s2,
     crypto_compress compress_null src slen mid dlen s = Some ((0, slen), s1) /\
     crypto_decompress compress_null mid slen dst dlen s1 = Some ((0, slen), s2) /\
     peek (cmem s2) (seqZ dst slen) = Some b /\
     modifies (seqZ mid slen ++ seqZ dst slen) (cmem s) (cmem s2)) /\
  crypto_init_compress_ops compress_null s = None /\ crypto_exit_compress_ops compress_null s = None.
Proof.
  intros Hn Hb Hm Hd. unfold crypto_compress, crypto_decompress. cbn [coa_compress coa_decompress compress_null].
  unfold null_compress. split; [|split; [|done]]; intros Hl; [by rewrite decide_True|]. rewrite !decide_False by lia.
  destruct (memcpy_ok s mid src slen b Hn Hb Hm) as (m1&E1&Hp1&Hmod1). rewrite (CM_bind_eq _ _ _ _ _ E1).
  destruct (memcpy_ok (with_mem s m1) dst mid slen b Hn) as (m2&E2&Hp2&Hmod2); [done|by eapply modifies_mapped|].
  eexists _, _. split; [reflexivity|]. rewrite (CM_bind_eq _ _ _ _ _ E2). split; [reflexivity|]. split; [done|].
  eapply modifies_trans; [exact Hmod1|exact Hmod2|solve_sub..].
Qed.

Definition demo_state : cstate unit := CState (list_to_map (zip (seqZ 0 12) (seqZ 0 12))) tt 0.

Lemma null_compressor_witness :
  exists s1 s2, crypto_compress compress_null 0 4 4 4 demo_state = Some ((0, 4), s1) /\
    crypto_decompress compress_null 4 4 8 4 s1 = Some ((0, 4), s2) /\
    peek (cmem s2) (seqZ 8 4) = Some [0; 1; 2; 3].
Proof.
  destruct (null_compressor demo_state 0 4 4 8 4 [0; 1; 2; 3]) as (_ & H & _).
  - lia.
  - vm_compute. reflexivity.
  - apply peek_mapped. exists [4; 5; 6; 7]. vm_compute. reflexivity.
  - apply peek_mapped. exists [8; 9; 10; 11]. vm_compute. reflexivity.
  - destruct H as (s1 & s2 & E1 & E2 & Hp & _); [lia|]. exists s1, s2. split; [exact E1|]. split; [exact E2|exact Hp].
Defined.
End Compress.
