(* ===== verification/Rwsem.v ===== *)
(** Reader/writer semaphores: [lib/rwsem-spinlock.c], the implementation that the
    target configuration selects ([CONFIG_RWSEM_GENERIC_SPINLOCK]).

    Each function runs with [wait_lock] held from its test to its last change of
    the semaphore, so it is one step; a task that had to queue sleeps until its
    waiter's [task] field is cleared, which is a step of its own.  The machine
    below interleaves the steps of any number of tasks in any order. *)
From Stdlib Require Import ZArith Lia.
From stdpp Require Import base numbers list list_numbers option gmap sets.
From S2P Require Import Prelude.

Local Open Scope Z_scope.

Abbreviation tid := nat.

Inductive wait_flag := RWSEM_WAITING_FOR_READ | RWSEM_WAITING_FOR_WRITE.

Global Instance wait_flag_eq_dec : EqDecision wait_flag.
Proof. solve_decision. Defined.

(** [struct rwsem_waiter]: the task and what it waits for. *)
Record rwsem_waiter := Waiter { waiter_task : tid; waiter_flags : wait_flag }.

(** [activity] is an [__s32] in the source and has no bound here.  It is -1 or counts the
    tasks that read (theorem [rwsem_exclusion]), so it would only wrap with 2^31 tasks. *)
Record rw_semaphore := RwSem { activity : Z; wait_list : list rwsem_waiter }.

Definition init_rwsem : rw_semaphore := RwSem 0 [].

(** ** The functions

    Each returns the semaphore and the tasks whose [waiter->task] it cleared (and
    which it woke). *)

(** The loop of [__rwsem_do_wake] over the readers at the front. *)
Fixpoint wake_readers (l : list rwsem_waiter) : list tid * list rwsem_waiter :=
  match l with
  | [] => ([], [])
  | w :: l' =>
    if decide (waiter_flags w = RWSEM_WAITING_FOR_READ) then
      let '(woken, rest) := wake_readers l' in (waiter_task w :: woken, rest)
    else ([], l)
  end.

(** [__rwsem_do_wake]; it is only called with waiters in the list. *)
Definition __rwsem_do_wake (sem : rw_semaphore) (wakewrite : bool) : option (rw_semaphore * list tid) :=
  match wait_list sem with
  | [] => None
  | w :: l =>
    let dont_wake_writers :=
      let '(woken, rest) := wake_readers (w :: l) in
      Some (RwSem (activity sem + zlen woken) rest, woken) in
    if wakewrite then
      if decide (waiter_flags w = RWSEM_WAITING_FOR_WRITE) then Some (RwSem (-1) l, [waiter_task w])
      else dont_wake_writers
    else if decide (waiter_flags w = RWSEM_WAITING_FOR_WRITE) then Some (sem, [])
    else dont_wake_writers
  end.

(** [__rwsem_wake_one_writer]: whoever is at the front gets the write lock. *)
Definition __rwsem_wake_one_writer (sem : rw_semaphore) : option (rw_semaphore * list tid) :=
  match wait_list sem with
  | [] => None
  | w :: l => Some (RwSem (-1) l, [waiter_task w])
  end.

Definition list_empty (l : list rwsem_waiter) : bool := match l with [] => true | _ => false end.

(** The locked part of [__down_read]: granted or queued. *)
Definition __down_read (sem : rw_semaphore) (t : tid) : rw_semaphore * bool :=
  if bool_decide (0 <= activity sem) && list_empty (wait_list sem)
  then (RwSem (activity sem + 1) (wait_list sem), true)
  else (RwSem (activity sem) (wait_list sem ++ [Waiter t RWSEM_WAITING_FOR_READ]), false).

Definition __down_read_trylock (sem : rw_semaphore) : rw_semaphore * Z :=
  if bool_decide (0 <= activity sem) && list_empty (wait_list sem)
  then (RwSem (activity sem + 1) (wait_list sem), 1) else (sem, 0).

Definition __down_write (sem : rw_semaphore) (t : tid) : rw_semaphore * bool :=
  if bool_decide (activity sem = 0) && list_empty (wait_list sem)
  then (RwSem (-1) (wait_list sem), true)
  else (RwSem (activity sem) (wait_list sem ++ [Waiter t RWSEM_WAITING_FOR_WRITE]), false).

Definition __down_write_trylock (sem : rw_semaphore) : rw_semaphore * Z :=
  if bool_decide (activity sem = 0) && list_empty (wait_list sem)
  then (RwSem (-1) (wait_list sem), 1) else (sem, 0).

Definition __up_read (sem : rw_semaphore) : option (rw_semaphore * list tid) :=
  let sem := RwSem (activity sem - 1) (wait_list sem) in
  if bool_decide (activity sem = 0) && negb (list_empty (wait_list sem))
  then __rwsem_wake_one_writer sem else Some (sem, []).

Definition __up_write (sem : rw_semaphore) : option (rw_semaphore * list tid) :=
  let sem := RwSem 0 (wait_list sem) in
  if negb (list_empty (wait_list sem)) then __rwsem_do_wake sem true else Some (sem, []).

Definition __downgrade_write (sem : rw_semaphore) : option (rw_semaphore * list tid) :=
  let sem := RwSem 1 (wait_list sem) in
  if negb (list_empty (wait_list sem)) then __rwsem_do_wake sem false else Some (sem, []).

(** ** Tasks *)

(** Where a task is: not using the semaphore, holding it, or in the [for (;;)]
    loop of [__down_read] or [__down_write]. *)
Inductive place := Out | Reading | Writing | Sleeping (f : wait_flag).

(** The semaphore, the places of the tasks, and the sleepers whose [waiter.task] was
    cleared but who have not noticed yet. *)
Record world := World {
  sem : rw_semaphore;
  places : gmap tid place;
  cleared : gset tid
}.

Definition place_of (w : world) (t : tid) : place := default Out (places w !! t).
Definition move (w : world) (t : tid) (p : place) : gmap tid place := <[t := p]> (places w).

Inductive rwsem_step : world -> world -> Prop :=
| step_down_read w t s granted :
    place_of w t = Out -> __down_read (sem w) t = (s, granted) ->
    rwsem_step w (World s (move w t (if granted : bool then Reading else Sleeping RWSEM_WAITING_FOR_READ)) (cleared w))
| step_down_read_trylock w t s r :
    place_of w t = Out -> __down_read_trylock (sem w) = (s, r) ->
    rwsem_step w (World s (move w t (if decide (r = 0) then Out else Reading)) (cleared w))
| step_down_write w t s granted :
    place_of w t = Out -> __down_write (sem w) t = (s, granted) ->
    rwsem_step w (World s (move w t (if granted : bool then Writing else Sleeping RWSEM_WAITING_FOR_WRITE)) (cleared w))
| step_down_write_trylock w t s r :
    place_of w t = Out -> __down_write_trylock (sem w) = (s, r) ->
    rwsem_step w (World s (move w t (if decide (r = 0) then Out else Writing)) (cleared w))
| step_up_read w t s woken :
    place_of w t = Reading -> __up_read (sem w) = Some (s, woken) ->
    rwsem_step w (World s (move w t Out) (cleared w ∪ list_to_set woken))
| step_up_write w t s woken :
    place_of w t = Writing -> __up_write (sem w) = Some (s, woken) ->
    rwsem_step w (World s (move w t Out) (cleared w ∪ list_to_set woken))
| step_downgrade w t s woken :
    place_of w t = Writing -> __downgrade_write (sem w) = Some (s, woken) ->
    rwsem_step w (World s (move w t Reading) (cleared w ∪ list_to_set woken))
| step_wake w t f :
    place_of w t = Sleeping f -> t ∈ cleared w ->
    rwsem_step w (World (sem w)
      (move w t (match f with RWSEM_WAITING_FOR_READ => Reading | RWSEM_WAITING_FOR_WRITE => Writing end))
      (cleared w ∖ {[t]})).

Inductive reachable : world -> Prop :=
| reach_init : reachable (World init_rwsem ∅ ∅)
| reach_step w w' : reachable w -> rwsem_step w w' -> reachable w'.

(** A task owns the lock once it is granted, also before it notices. *)
Definition owns (w : world) (t : tid) (f : wait_flag) : Prop :=
  match place_of w t with
  | Out => False
  | Reading => f = RWSEM_WAITING_FOR_READ
  | Writing => f = RWSEM_WAITING_FOR_WRITE
  | Sleeping f' => f = f' /\ t ∈ cleared w
  end.

(** ** The invariant *)

Inductive status := SOut | SOwn (f : wait_flag) | SWait (f : wait_flag).

Definition status_of (w : world) (t : tid) : status :=
  match place_of w t with
  | Out => SOut
  | Reading => SOwn RWSEM_WAITING_FOR_READ
  | Writing => SOwn RWSEM_WAITING_FOR_WRITE
  | Sleeping f => if decide (t ∈ cleared w) then SOwn f else SWait f
  end.

(** The semaphore [s] describes the status [st] of all tasks, with the owners [R]
    and [W]. *)
Record core (s : rw_semaphore) (st : tid -> status) (R W : list tid) : Prop := {
  ds_R : NoDup R /\ forall t, t ∈ R <-> st t = SOwn RWSEM_WAITING_FOR_READ;
  ds_W : NoDup W /\ forall t, t ∈ W <-> st t = SOwn RWSEM_WAITING_FOR_WRITE;
  ds_queue : NoDup (map waiter_task (wait_list s)) /\
             forall t f, Waiter t f ∈ wait_list s <-> st t = SWait f;
  ds_activity : (W = [] /\ activity s = zlen R) \/ (exists t, W = [t] /\ R = [] /\ activity s = -1)
}.

(** Nobody waits for a free lock, and only a writer is kept waiting by readers. *)
Definition front_ok (s : rw_semaphore) : Prop :=
  match wait_list s with
  | [] => True
  | x :: _ => activity s <> 0 /\ (0 < activity s -> waiter_flags x = RWSEM_WAITING_FOR_WRITE)
  end.

Definition describes (s : rw_semaphore) (st : tid -> status) (R W : list tid) : Prop :=
  core s st R W /\ front_ok s.

(** Sleepers that were cleared are asleep. *)
Definition cleared_ok (w : world) : Prop := forall t, t ∈ cleared w -> exists f, place_of w t = Sleeping f.

Definition rwsem_inv (w : world) : Prop :=
  cleared_ok w /\ exists R W, describes (sem w) (status_of w) R W.

(** [upd st t x]: the status [st] with task [t] at [x]. *)
Definition upd (st : tid -> status) (t : tid) (x : status) : tid -> status :=
  fun u => if decide (u = t) then x else st u.

Ltac upd_solve :=
  case_decide; subst;
  repeat match goal with H : ?st ?t = SOut |- context [?st ?t] => rewrite H end;
  repeat match goal with H : forall _, _ |- _ => clear H | H : NoDup _ |- _ => clear H end;
  intuition congruence.

Lemma describes_ext s st st' R W : (forall t, st' t = st t) -> describes s st R W -> describes s st' R W.
Proof.
  intros He [[[HR1 HR2] [HW1 HW2] [HQ1 HQ2] Ha] Hf].
  split; [|done]. split; [split; [done|]|split; [done|]|split; [done|]|done]; intros; rewrite He; auto.
Qed.

Lemma core_activity s st R W : core s st R W -> 0 <= activity s -> W = [] /\ activity s = zlen R.
Proof. intros [_ _ _ Ha] Hp. destruct Ha as [?|(t & _ & _ & ?)]; [done|lia]. Qed.

(** Granting the lock to a task that did not use the semaphore. *)
Lemma grant_read s st R W t :
  describes s st R W -> st t = SOut -> 0 <= activity s -> wait_list s = [] ->
  describes (RwSem (activity s + 1) []) (upd st t (SOwn RWSEM_WAITING_FOR_READ)) (t :: R) W.
Proof.
  intros [Hd _] Ht Ha Hq. destruct (core_activity _ _ _ _ Hd Ha) as [-> Hr].
  destruct Hd as [[HR1 HR2] [HW1 HW2] [HQ1 HQ2] _]. rewrite Hq in *. unfold upd.
  split; [split; simpl|done].
  - split; [constructor; [rewrite HR2, Ht; done|done]|]. intros u. rewrite elem_of_cons, HR2. upd_solve.
  - split; [done|]. intros u. rewrite HW2. upd_solve.
  - split; [done|]. intros u f. rewrite HQ2. upd_solve.
  - left. by rewrite zlen_cons, Hr.
Qed.

Lemma grant_write s st R W t :
  describes s st R W -> st t = SOut -> activity s = 0 -> wait_list s = [] ->
  describes (RwSem (-1) []) (upd st t (SOwn RWSEM_WAITING_FOR_WRITE)) R [t].
Proof.
  intros [Hd _] Ht Ha Hq. destruct (core_activity _ _ _ _ Hd) as [-> Hr]; [lia|].
  destruct Hd as [[HR1 HR2] [HW1 HW2] [HQ1 HQ2] _]. rewrite Hq in *. unfold upd.
  assert (R = []) as -> by (destruct R; [done|rewrite zlen_cons in Hr; pose proof (zlen_nonneg R); lia]).
  split; [split; simpl|done].
  - split; [done|]. intros u. rewrite HR2. upd_solve.
  - split; [apply NoDup_singleton|]. intros u. rewrite list_elem_of_singleton.
    assert (st u <> SOwn RWSEM_WAITING_FOR_WRITE) by (rewrite <- HW2; apply not_elem_of_nil).
    case_decide; intuition congruence.
  - split; [done|]. intros u f. rewrite HQ2. upd_solve.
  - right. by exists t.
Qed.

(** Queueing behind an owner or other waiters. *)
Lemma enqueue s st R W t f :
  describes s st R W -> st t = SOut ->
  (wait_list s = [] -> activity s <> 0 /\ (0 < activity s -> f = RWSEM_WAITING_FOR_WRITE)) ->
  describes (RwSem (activity s) (wait_list s ++ [Waiter t f])) (upd st t (SWait f)) R W.
Proof.
  intros [[[HR1 HR2] [HW1 HW2] [HQ1 HQ2] Ha] Hf] Ht Hempty. unfold upd, front_ok in *.
  split; [split; simpl|].
  - split; [done|]. intros u. rewrite HR2. upd_solve.
  - split; [done|]. intros u. rewrite HW2. upd_solve.
  - split.
    + rewrite map_app. simpl. apply NoDup_app. split; [done|]. split; [|apply NoDup_singleton].
      intros u Hu. rewrite list_elem_of_singleton. intros ->. apply list_elem_of_fmap in Hu as ([t' f'] & Heq & Hin).
      simpl in Heq. subst t'. apply HQ2 in Hin. congruence.
    + intros u g. rewrite elem_of_app, HQ2, list_elem_of_singleton. upd_solve.
  - done.
  - simpl. destruct (wait_list s) as [|x l]; simpl; [by apply Hempty|done].
Qed.

(** *** Release *)

(** The tasks [woken] get what they waited for. *)
Definition wake (st : tid -> status) (woken : list tid) : tid -> status :=
  fun u => if decide (u ∈ woken) then match st u with SWait f => SOwn f | x => x end else st u.

Lemma core_remove_reader s st R t :
  core s st R [] -> st t = SOwn RWSEM_WAITING_FOR_READ ->
  exists R', core (RwSem (activity s - 1) (wait_list s)) (upd st t SOut) R' [].
Proof.
  intros [[HR1 HR2] [HW1 HW2] [HQ1 HQ2] Ha] Ht. unfold upd.
  destruct (elem_of_Permutation R t) as [Hex _]. destruct Hex as (R' & Hperm); [by apply HR2|].
  rewrite Hperm in HR1. apply NoDup_cons in HR1 as [Hnin HR1]. exists R'. split; simpl.
  - split; [done|]. intros u. specialize (HR2 u). rewrite Hperm, elem_of_cons in HR2.
    case_decide as Hu; [subst u; split; [done|discriminate]|]. rewrite <- HR2. tauto.
  - split; [done|]. intros u. rewrite HW2. case_decide; subst; intuition congruence.
  - split; [done|]. intros u f. rewrite HQ2. case_decide; subst; intuition congruence.
  - left. split; [done|]. destruct Ha as [[_ Ha]|(? & ? & _)]; [|done]. rewrite Ha.
    unfold zlen. rewrite (Permutation_length Hperm). simpl. lia.
Qed.

Lemma core_remove_writer s st t st' :
  core s st [] [t] -> (forall u, st' u = upd st t SOut u) -> core (RwSem 0 (wait_list s)) st' [] [].
Proof.
  intros [[HR1 HR2] [HW1 HW2] [HQ1 HQ2] Ha] He.
  assert (Ht : st t = SOwn RWSEM_WAITING_FOR_WRITE) by (apply HW2, list_elem_of_singleton; done).
  split; simpl.
  - split; [done|]. intros u. rewrite HR2, He. unfold upd. case_decide; subst; intuition congruence.
  - split; [constructor|]. intros u. rewrite He. unfold upd. split; [by intros ?%elem_of_nil|].
    case_decide; [done|]. intros Hu%HW2%list_elem_of_singleton. done.
  - split; [done|]. intros u f. rewrite HQ2, He. unfold upd. case_decide; subst; intuition congruence.
  - by left.
Qed.

Lemma core_downgrade s st t :
  core s st [] [t] -> core (RwSem 1 (wait_list s)) (upd st t (SOwn RWSEM_WAITING_FOR_READ)) [t] [].
Proof.
  intros [[HR1 HR2] [HW1 HW2] [HQ1 HQ2] Ha]. unfold upd.
  assert (Ht : st t = SOwn RWSEM_WAITING_FOR_WRITE) by (apply HW2, list_elem_of_singleton; done).
  split; simpl.
  - split; [apply NoDup_singleton|]. intros u. rewrite list_elem_of_singleton. case_decide; [intuition congruence|].
    rewrite <- HR2, elem_of_nil. tauto.
  - split; [constructor|]. intros u. split; [by intros ?%elem_of_nil|].
    case_decide; [done|]. intros Hu%HW2%list_elem_of_singleton. done.
  - split; [done|]. intros u f. rewrite HQ2. case_decide; subst; intuition congruence.
  - by left.
Qed.

(** Granting the lock to the front of the queue. *)
Lemma core_wake_writer x l st :
  core (RwSem 0 (x :: l)) st [] [] -> waiter_flags x = RWSEM_WAITING_FOR_WRITE ->
  core (RwSem (-1) l) (wake st [waiter_task x]) [] [waiter_task x].
Proof.
  destruct x as [t f]. simpl. intros [[HR1 HR2] [HW1 HW2] [HQ1 HQ2] Ha] ->. unfold wake. simpl in *.
  apply NoDup_cons in HQ1 as [Hx Hl].
  assert (Ht : st t = SWait RWSEM_WAITING_FOR_WRITE) by (apply HQ2; left).
  split; simpl.
  - split; [done|]. intros u. rewrite HR2. case_decide as Hu; [apply list_elem_of_singleton in Hu; subst; rewrite Ht|]; intuition congruence.
  - split; [apply NoDup_singleton|]. intros u. case_decide as Hu; rewrite list_elem_of_singleton in *; [subst; by rewrite Ht|].
    rewrite <- HW2, elem_of_nil. tauto.
  - split; [done|]. intros u f. case_decide as Hu; rewrite list_elem_of_singleton in Hu.
    + subst u. rewrite Ht. split; [|done]. intros Hin. exfalso. apply Hx, list_elem_of_fmap. by exists (Waiter t f).
    + rewrite <- HQ2, elem_of_cons. intuition congruence.
  - right. by exists t.
Qed.

Lemma wake_readers_spec q woken rest :
  wake_readers q = (woken, rest) ->
  q = map (fun t => Waiter t RWSEM_WAITING_FOR_READ) woken ++ rest /\
  match rest with [] => True | x :: _ => waiter_flags x = RWSEM_WAITING_FOR_WRITE end.
Proof.
  revert woken rest. induction q as [|[t f] q IH]; intros woken rest; simpl; [by intros [= <- <-]|].
  destruct f; simpl.
  - destruct (wake_readers q) as [wk rs]. intros [= <- <-]. destruct (IH wk rs eq_refl) as [-> H]. done.
  - by intros [= <- <-].
Qed.

Lemma elem_of_readers t f woken :
  Waiter t f ∈ map (fun t => Waiter t RWSEM_WAITING_FOR_READ) woken <-> f = RWSEM_WAITING_FOR_READ /\ t ∈ woken.
Proof.
  rewrite list_elem_of_fmap. split; [by intros (? & [= -> ->] & ?)|]. intros [-> H]. eauto.
Qed.

Lemma core_wake_readers a q st R woken rest :
  core (RwSem a q) st R [] -> wake_readers q = (woken, rest) ->
  core (RwSem (a + zlen woken) rest) (wake st woken) (woken ++ R) [].
Proof.
  intros [[HR1 HR2] [HW1 HW2] [HQ1 HQ2] Ha] [Hq Hrest]%wake_readers_spec. simpl in *. subst q.
  rewrite map_app, map_map in HQ1. simpl in HQ1. rewrite map_id in HQ1. apply NoDup_app in HQ1 as (Hw & Hwr & Hr).
  assert (Hwk : forall t, t ∈ woken -> st t = SWait RWSEM_WAITING_FOR_READ).
  { intros t Hin. apply HQ2, elem_of_app. left. by apply elem_of_readers. }
  unfold wake. split; simpl.
  - split.
    + apply NoDup_app. split; [done|]. split; [|done]. intros t Hin Hin'%HR2. rewrite (Hwk t Hin) in Hin'. done.
    + intros t. rewrite elem_of_app. case_decide as Hin; [rewrite (Hwk t Hin); tauto|]. rewrite HR2. tauto.
  - split; [done|]. intros t. case_decide as Hin; [rewrite (Hwk t Hin)|apply HW2].
    split; [by intros ?%elem_of_nil|done].
  - split; [done|]. intros t f. case_decide as Hin.
    + rewrite (Hwk t Hin). split; [|done]. intros Hin'. exfalso. apply (Hwr t Hin), list_elem_of_fmap. by exists (Waiter t f).
    + rewrite <- HQ2, elem_of_app, elem_of_readers. tauto.
  - left. split; [done|]. destruct Ha as [[_ Ha]|(? & ? & _)]; [|done]. rewrite Ha.
    unfold zlen. rewrite length_app. lia.
Qed.

(** The three releasing functions. *)
Definition released (st : tid -> status) (o : option (rw_semaphore * list tid)) : Prop :=
  exists s' woken R W, o = Some (s', woken) /\ describes s' (wake st woken) R W /\
    (forall u, u ∈ woken -> exists f, st u = SWait f).

Lemma wake_nil st t : wake st [] t = st t.
Proof. unfold wake. case_decide as H; [by apply elem_of_nil in H|done]. Qed.

Lemma released_none s st R W : describes s st R W -> released st (Some (s, [])).
Proof.
  intros H. exists s, [], R, W. split; [done|]. split; [|by intros u ?%elem_of_nil].
  eapply describes_ext; [|exact H]. intros t. apply wake_nil.
Qed.

Lemma core_waits s st R W x : core s st R W -> x ∈ wait_list s -> st (waiter_task x) = SWait (waiter_flags x).
Proof. intros [_ _ [_ HQ] _] Hx. apply HQ. by destruct x. Qed.

Lemma up_read_ok s st R W t :
  describes s st R W -> st t = SOwn RWSEM_WAITING_FOR_READ -> released (upd st t SOut) (__up_read s).
Proof.
  intros [Hc Hf] Ht. unfold __up_read. simpl.
  assert (W = []) as ->.
  { destruct Hc as [[_ HR] _ _ [[? _]|(u & _ & -> & _)]]; [done|]. apply HR in Ht. by apply elem_of_nil in Ht. }
  destruct (core_remove_reader _ _ _ _ Hc Ht) as (R' & Hc').
  destruct (core_activity _ _ _ _ Hc) as [_ Ha].
  { destruct Hc as [_ _ _ [[_ ->]|(u & ? & _)]]; [apply zlen_nonneg|done]. }
  assert (Hpos : 0 < activity s).
  { rewrite Ha. destruct R as [|? R]; [|rewrite zlen_cons; pose proof (zlen_nonneg R); lia].
    exfalso. destruct Hc as [[_ HR] _ _ _]. apply HR in Ht. by apply elem_of_nil in Ht. }
  case_bool_decide as Hz; simpl.
  - destruct (wait_list s) as [|x l] eqn:Hq; simpl.
    + eapply released_none. split; [exact Hc'|done].
    + unfold front_ok in Hf. rewrite Hq in Hf. destruct Hf as [_ Hf]. specialize (Hf Hpos). rewrite Hz in *.
      assert (R' = []) as -> by (destruct (core_activity _ _ _ _ Hc') as [_ Ha']; [simpl; lia|];
        simpl in Ha'; destruct R' as [|? R']; [done|rewrite zlen_cons in Ha'; pose proof (zlen_nonneg R'); lia]).
      eexists _, _, _, _. split; [reflexivity|]. split; [|].
      * split; [by apply core_wake_writer|]. unfold front_ok. simpl. destruct l; [done|]. split; [lia|lia].
      * intros u ->%list_elem_of_singleton. exists (waiter_flags x). eapply core_waits; [exact Hc'|]. left.
  - eapply released_none. split; [exact Hc'|]. unfold front_ok in *. simpl. destruct (wait_list s); [done|].
    split; [done|]. intros _. by apply Hf.
Qed.

Lemma do_wake_ok a x l st R wakewrite :
  core (RwSem a (x :: l)) st R [] -> (if wakewrite : bool then a = 0 /\ R = [] else 0 < a) ->
  released st (__rwsem_do_wake (RwSem a (x :: l)) wakewrite).
Proof.
  intros Hc Ha. assert (Ha0 : 0 <= a) by (destruct wakewrite; lia).
  assert (Hread : waiter_flags x <> RWSEM_WAITING_FOR_WRITE ->
    released st (let '(woken, rest) := wake_readers (x :: l) in Some (RwSem (a + zlen woken) rest, woken))).
  { intros Hx. destruct (wake_readers (x :: l)) as [woken rest] eqn:Hw.
    destruct (wake_readers_spec _ _ _ Hw) as [Hq Hrest].
    assert (0 < zlen woken).
    { cbn [wake_readers] in Hw. rewrite decide_True in Hw by (destruct (waiter_flags x); done).
      destruct (wake_readers l). injection Hw as <- _. rewrite zlen_cons. pose proof (zlen_nonneg l0). lia. }
    eexists _, _, _, _. split; [reflexivity|]. split.
    - split; [by apply (core_wake_readers _ _ _ _ _ _ Hc Hw)|]. unfold front_ok. simpl. destruct rest; [done|].
      split; [lia|done].
    - intros u Hu. exists RWSEM_WAITING_FOR_READ. eapply (core_waits _ _ _ _ (Waiter u RWSEM_WAITING_FOR_READ) Hc).
      simpl. rewrite Hq, elem_of_app. left. by apply elem_of_readers. }
  unfold __rwsem_do_wake. cbn [wait_list activity]. destruct wakewrite.
  - destruct Ha as [-> ->]. destruct (decide (waiter_flags x = RWSEM_WAITING_FOR_WRITE)) as [Hx|Hx]; [|by apply Hread].
    eexists _, _, _, _. split; [reflexivity|]. split.
    + split; [by apply core_wake_writer|]. unfold front_ok. simpl. destruct l; [done|]. lia.
    + intros u ->%list_elem_of_singleton. exists (waiter_flags x). eapply core_waits; [exact Hc|]. left.
  - destruct (decide (waiter_flags x = RWSEM_WAITING_FOR_WRITE)) as [Hx|Hx]; [|by apply Hread].
    eapply released_none. split; [exact Hc|]. unfold front_ok. simpl. split; [lia|done].
Qed.

Lemma writer_alone s st R W t :
  core s st R W -> st t = SOwn RWSEM_WAITING_FOR_WRITE -> R = [] /\ W = [t].
Proof.
  intros [_ [_ HW] _ Ha] Ht. apply HW in Ht. destruct Ha as [[-> _]|(u & -> & -> & _)]; [by apply elem_of_nil in Ht|].
  apply list_elem_of_singleton in Ht. by subst.
Qed.

Lemma up_write_ok s st R W t :
  describes s st R W -> st t = SOwn RWSEM_WAITING_FOR_WRITE -> released (upd st t SOut) (__up_write s).
Proof.
  intros [Hc Hf] Ht. destruct (writer_alone _ _ _ _ _ Hc Ht) as [-> ->].
  pose proof (core_remove_writer _ _ _ _ Hc (fun u => eq_refl)) as Hc'. unfold __up_write. simpl.
  destruct (wait_list s) as [|x l]; simpl; [by eapply released_none; split|].
  by apply (do_wake_ok 0 x l _ [] true).
Qed.

Lemma downgrade_ok s st R W t :
  describes s st R W -> st t = SOwn RWSEM_WAITING_FOR_WRITE ->
  released (upd st t (SOwn RWSEM_WAITING_FOR_READ)) (__downgrade_write s).
Proof.
  intros [Hc Hf] Ht. destruct (writer_alone _ _ _ _ _ Hc Ht) as [-> ->].
  pose proof (core_downgrade _ _ _ Hc) as Hc'. unfold __downgrade_write. simpl.
  destruct (wait_list s) as [|x l]; simpl; [by eapply released_none; split|].
  apply (do_wake_ok 1 x l _ [t] false); [done|lia].
Qed.

(** ** Every step keeps the invariant *)

Lemma place_move w t p u : default Out (move w t p !! u) = if decide (u = t) then p else place_of w u.
Proof.
  unfold move, place_of. case_decide; subst; [by rewrite lookup_insert_eq|by rewrite lookup_insert_ne].
Qed.

Lemma cleared_out w t : cleared_ok w -> place_of w t = Out \/ place_of w t = Reading \/ place_of w t = Writing -> t ∉ cleared w.
Proof. intros Hok Hp Hin. destruct (Hok t Hin) as (f & Hf). rewrite Hf in Hp. naive_solver. Qed.

(** A step of a task that is not asleep, which wakes nobody. *)
Lemma inv_move w t p s' x R W :
  cleared_ok w -> t ∉ cleared w ->
  match p with Out => x = SOut | Reading => x = SOwn RWSEM_WAITING_FOR_READ
             | Writing => x = SOwn RWSEM_WAITING_FOR_WRITE | Sleeping f => x = SWait f end ->
  describes s' (upd (status_of w) t x) R W -> rwsem_inv (World s' (move w t p) (cleared w)).
Proof.
  intros Hok Ht Hx Hd. split.
  - intros u Hu. unfold place_of. simpl in *. rewrite place_move. case_decide; [by subst|by apply Hok].
  - exists R, W. eapply describes_ext; [|exact Hd]. intros u. unfold status_of, upd, place_of. simpl.
    rewrite place_move. case_decide; [|done]. subst u. destruct p; subst; try done. by rewrite decide_False.
Qed.

(** A step that clears the waiters in [woken]. *)
Lemma inv_release w t p x o s' woken :
  cleared_ok w -> t ∉ cleared w -> (p = Out /\ x = SOut) \/ (p = Reading /\ x = SOwn RWSEM_WAITING_FOR_READ) ->
  released (upd (status_of w) t x) o -> o = Some (s', woken) ->
  rwsem_inv (World s' (move w t p) (cleared w ∪ list_to_set woken)).
Proof.
  intros Hok Ht Hp (s1 & wk & R & W & Ho & Hd & Hwait) ->. injection Ho as <- <-.
  assert (Hnt : forall u, u ∈ woken -> u <> t /\ exists f, status_of w u = SWait f).
  { intros u Hu. destruct (Hwait u Hu) as (f & Hf). unfold upd in Hf. case_decide; [|eauto].
    destruct Hp as [[_ ->]|[_ ->]]; done. }
  assert (Hsl : forall u f, status_of w u = SWait f -> place_of w u = Sleeping f /\ u ∉ cleared w).
  { intros u f. unfold status_of. destruct (place_of w u); try done. case_decide; [done|]. by intros [= ->]. }
  split.
  - intros u Hu. unfold place_of. simpl in *. rewrite place_move.
    apply elem_of_union in Hu as [Hu|Hu%elem_of_list_to_set].
    + rewrite decide_False by (intros ->; done). by apply Hok.
    + destruct (Hnt u Hu) as [Hne (f & Hf)]. rewrite decide_False by done. exists f. by apply Hsl.
  - exists R, W. eapply describes_ext; [|exact Hd]. intros u. unfold wake, upd.
    unfold status_of at 1, place_of. simpl. rewrite place_move.
    destruct (decide (u = t)) as [->|Hne].
    + rewrite (decide_False (P := t ∈ woken)) by (intros H; by destruct (Hnt t H)). destruct Hp as [[-> ->]|[-> ->]]; done.
    + fold (place_of w u). destruct (decide (u ∈ woken)) as [Hu|Hu].
      * destruct (Hnt u Hu) as [_ (f & Hf)]. rewrite Hf. destruct (Hsl u f Hf) as [-> _].
        rewrite decide_True; [done|]. rewrite elem_of_union, elem_of_list_to_set. tauto.
      * unfold status_of. destruct (place_of w u); try done.
        destruct (decide (u ∈ cleared w)); [rewrite decide_True by set_solver|rewrite decide_False by set_solver]; done.
Qed.

(** Noticing that the lock was granted changes nobody's status. *)
Lemma inv_notice w t f :
  rwsem_inv w -> place_of w t = Sleeping f -> t ∈ cleared w ->
  let w' := World (sem w)
    (move w t (match f with RWSEM_WAITING_FOR_READ => Reading | RWSEM_WAITING_FOR_WRITE => Writing end))
    (cleared w ∖ {[t]}) in
  rwsem_inv w' /\ forall u, status_of w' u = status_of w u.
Proof.
  intros [Hok (R & W & Hd)] Hp Ht w'.
  assert (Hst : forall u, status_of w' u = status_of w u).
  { intros u. unfold status_of at 1, place_of. simpl. rewrite place_move. case_decide as Hu.
    - subst u. unfold status_of. rewrite Hp, decide_True by done. by destruct f.
    - fold (place_of w u). unfold status_of. destruct (place_of w u); try done.
      destruct (decide (u ∈ cleared w)); [rewrite decide_True by set_solver|rewrite decide_False by set_solver]; done. }
  split; [|done]. split; [|exists R, W; by eapply describes_ext].
  intros u Hu. simpl in Hu. apply elem_of_difference in Hu as [Hu Hne]. unfold place_of. simpl. rewrite place_move.
  rewrite decide_False by set_solver. by apply Hok.
Qed.

Lemma list_empty_true l : list_empty l = true <-> l = [].
Proof. by destruct l. Qed.

Lemma status_place w t : status_of w t = match place_of w t with
  | Out => SOut | Reading => SOwn RWSEM_WAITING_FOR_READ | Writing => SOwn RWSEM_WAITING_FOR_WRITE
  | Sleeping f => if decide (t ∈ cleared w) then SOwn f else SWait f end.
Proof. reflexivity. Qed.

Lemma refused_read s st R W : describes s st R W ->
  bool_decide (0 <= activity s) && list_empty (wait_list s) = false -> wait_list s = [] ->
  activity s <> 0 /\ (0 < activity s -> RWSEM_WAITING_FOR_READ = RWSEM_WAITING_FOR_WRITE).
Proof. intros Hd H Hq. rewrite Hq in H. simpl in H. rewrite andb_true_r in H. apply bool_decide_eq_false in H. lia. Qed.

Lemma refused_write s : bool_decide (activity s = 0) && list_empty (wait_list s) = false -> wait_list s = [] ->
  activity s <> 0 /\ (0 < activity s -> RWSEM_WAITING_FOR_WRITE = RWSEM_WAITING_FOR_WRITE).
Proof. intros H Hq. rewrite Hq in H. simpl in H. rewrite andb_true_r in H. by apply bool_decide_eq_false in H. Qed.

Lemma upd_same st t x u : st t = x -> upd st t x u = st u.
Proof. intros H. unfold upd. case_decide; congruence. Qed.

Lemma inv_step w w' : rwsem_inv w -> rwsem_step w w' -> rwsem_inv w'.
Proof.
  intros [Hok (R & W & Hd)] Hs. destruct Hs as [w t s g Hp E|w t s r Hp E|w t s g Hp E|w t s r Hp E|w t s wk Hp E|w t s wk Hp E|w t s wk Hp E|w t f Hp Hin].
  1-4: assert (Hnc : t ∉ cleared w) by (apply cleared_out; tauto);
       assert (Hst : status_of w t = SOut) by (rewrite status_place, Hp; done);
       unfold __down_read, __down_read_trylock, __down_write, __down_write_trylock in E;
       destruct (_ && _) eqn:Hc in E; injection E as <- <-;
       [apply andb_true_iff in Hc as [Ha%bool_decide_eq_true Hq%list_empty_true]; rewrite Hq|].
  - eapply inv_move; [done|done|reflexivity|]. by eapply grant_read.
  - eapply inv_move; [done|done|reflexivity|]. eapply enqueue; [done|done|by eapply refused_read].
  - eapply inv_move; [done|done|reflexivity|]. by eapply grant_read.
  - eapply inv_move; [done|done|reflexivity|]. eapply describes_ext; [|exact Hd]. intros u. by apply upd_same.
  - eapply inv_move; [done|done|reflexivity|]. by eapply grant_write.
  - eapply inv_move; [done|done|reflexivity|]. eapply enqueue; [done|done|by apply refused_write].
  - eapply inv_move; [done|done|reflexivity|]. by eapply grant_write.
  - eapply inv_move; [done|done|reflexivity|]. eapply describes_ext; [|exact Hd]. intros u. by apply upd_same.
  - eapply inv_release; [done|apply cleared_out; tauto|by left| |exact E]. eapply up_read_ok; [done|by rewrite status_place, Hp].
  - eapply inv_release; [done|apply cleared_out; tauto|by left| |exact E]. eapply up_write_ok; [done|by rewrite status_place, Hp].
  - eapply inv_release; [done|apply cleared_out; tauto|by right| |exact E]. eapply downgrade_ok; [done|by rewrite status_place, Hp].
  - apply (inv_notice w t f); [split; eauto|done|done].
Qed.

Lemma reachable_inv w : reachable w -> rwsem_inv w.
Proof.
  induction 1 as [|w w' _ IH Hs]; [|by eapply inv_step].
  split; [by intros t ?%elem_of_empty|]. exists [], []. split; [|done]. split; simpl.
  - split; [constructor|]. intros t. split; [by intros ?%elem_of_nil|]. unfold status_of, place_of. simpl. by rewrite lookup_empty.
  - split; [constructor|]. intros t. split; [by intros ?%elem_of_nil|]. unfold status_of, place_of. simpl. by rewrite lookup_empty.
  - split; [constructor|]. intros t f. split; [by intros ?%elem_of_nil|]. unfold status_of, place_of. simpl. by rewrite lookup_empty.
  - by left.
Qed.

Lemma owns_status w t f : owns w t f <-> status_of w t = SOwn f.
Proof.
  unfold owns, status_of. destruct (place_of w t) as [| | |g]; try (split; intros; congruence || done).
  case_decide as H; (split; [|]); [intros [-> _]; done|intros [= ->]; done|tauto|done].
Qed.

(** ** Progress *)

Definition reaches := rtc rwsem_step.

(** What a release does to the queue: it takes some waiters off the front, and at
    least one when the lock becomes free. *)
Definition pops (s s' : rw_semaphore) (woken : list tid) : Prop :=
  exists pre, wait_list s = pre ++ wait_list s' /\ woken = map waiter_task pre /\
    (pre = [] -> activity s' = activity s - 1 /\ activity s' <> 0).

Lemma up_read_pops s s' woken : wait_list s <> [] -> __up_read s = Some (s', woken) -> pops s s' woken.
Proof.
  intros Hq. unfold __up_read. simpl. case_bool_decide as Ha; simpl.
  - unfold __rwsem_wake_one_writer. simpl. destruct (wait_list s) as [|x l] eqn:Hl; [done|]. simpl.
    intros [= <- <-]. exists [x]. by rewrite Hl.
  - intros [= <- <-]. by exists [].
Qed.

Lemma up_write_pops s s' woken : wait_list s <> [] -> __up_write s = Some (s', woken) -> pops s s' woken.
Proof.
  intros Hq. unfold __up_write, __rwsem_do_wake. cbn [wait_list activity]. destruct (wait_list s) as [|x l] eqn:Hl; [done|]. cbn [list_empty negb].
  case_decide as Hx.
  - intros [= <- <-]. exists [x]. by rewrite Hl.
  - destruct (wake_readers (x :: l)) as [wk rest] eqn:Hw. intros [= <- <-].
    destruct (wake_readers_spec _ _ _ Hw) as [Hsp _].
    exists (map (fun t => Waiter t RWSEM_WAITING_FOR_READ) wk). rewrite Hl. split; [exact Hsp|].
    split; [rewrite map_map; simpl; by rewrite map_id|]. intros Hnil. exfalso.
    cbn [wake_readers] in Hw. rewrite decide_True in Hw by (destruct (waiter_flags x); done).
    destruct (wake_readers l). by injection Hw as <- _.
Qed.

(** An owner can always release, and then the waiters in front are owners. *)
Lemma owner_releases w u g :
  rwsem_inv w -> owns w u g -> wait_list (sem w) <> [] ->
  exists w' woken, reaches w w' /\ rwsem_inv w' /\ pops (sem w) (sem w') woken /\
    forall t f, status_of w t = SWait f -> status_of w' t = if decide (t ∈ woken) then SOwn f else SWait f.
Proof.
  intros Hinv Hown Hq.
  (* first the owner notices that it has the lock *)
  assert (exists w1, reaches w w1 /\ rwsem_inv w1 /\ sem w1 = sem w /\ (forall t, status_of w1 t = status_of w t) /\
    place_of w1 u = match g with RWSEM_WAITING_FOR_READ => Reading | RWSEM_WAITING_FOR_WRITE => Writing end)
    as (w1 & Hr1 & Hinv1 & Hs1 & Hst1 & Hp1).
  { unfold owns in Hown. destruct (place_of w u) as [| | |h] eqn:Hp; [done| | |].
    - exists w. subst g. by split_and!.
    - exists w. subst g. by split_and!.
    - destruct Hown as [-> Hin]. pose proof (inv_notice w u h Hinv Hp Hin) as Hn. cbv zeta in Hn. destruct Hn as [Hi Hst].
      eexists. split; [apply rtc_once; by apply step_wake|]. split; [exact Hi|]. split; [done|]. split; [exact Hst|].
      unfold place_of. simpl. rewrite place_move, decide_True by done. by destruct h. }
  destruct Hinv1 as [Hok1 (R & W & Hd1)].
  assert (Hsu : status_of w1 u = SOwn g) by (rewrite Hst1; by apply owns_status).
  assert (Hrel : released (upd (status_of w1) u SOut) (match g with RWSEM_WAITING_FOR_READ => __up_read (sem w1)
    | RWSEM_WAITING_FOR_WRITE => __up_write (sem w1) end)) by (destruct g; [by eapply up_read_ok|by eapply up_write_ok]).
  assert (Hnc : u ∉ cleared w1) by (apply cleared_out; [done|]; rewrite Hp1; destruct g; tauto).
  pose proof Hrel as (s' & woken & R' & W' & E & Hd' & Hwait).
  exists (World s' (move w1 u Out) (cleared w1 ∪ list_to_set woken)), woken.
  assert (Hinv' : rwsem_inv (World s' (move w1 u Out) (cleared w1 ∪ list_to_set woken)))
    by (eapply inv_release; [done|done|by left|exact Hrel|exact E]).
  split; [eapply rtc_r; [exact Hr1|]; destruct g; [by eapply step_up_read|by eapply step_up_write]|].
  split; [done|]. split; [simpl; rewrite <- Hs1; destruct g; [eapply up_read_pops|eapply up_write_pops]; try done; by rewrite Hs1|].
  intros t f Hw. rewrite <- Hst1 in Hw.
  assert (Htu : t <> u) by (intros ->; congruence).
  unfold status_of, place_of. simpl. rewrite place_move, decide_False by done. fold (place_of w1 t).
  unfold status_of in Hw. destruct (place_of w1 t); try done. case_decide as Hc; [done|]. injection Hw as ->.
  destruct (decide (t ∈ woken)); [rewrite decide_True by set_solver|rewrite decide_False by set_solver]; done.
Qed.

Lemma queue_owner s st R W : describes s st R W -> wait_list s <> [] -> exists u g, st u = SOwn g.
Proof.
  intros [[[_ HR] [_ HW] _ Ha] Hf] Hq. unfold front_ok in Hf. destruct (wait_list s); [done|]. destruct Hf as [Hne _].
  destruct Ha as [[-> Ha]|(t & -> & _)].
  - destruct R as [|x R]; [simpl in Ha; unfold zlen in Ha; simpl in Ha; lia|]. exists x, RWSEM_WAITING_FOR_READ. apply HR. left.
  - exists t, RWSEM_WAITING_FOR_WRITE. apply HW. left.
Qed.

(** The waiter moves up: lexicographic induction on the waiters before it and the
    number of readers that still hold the lock. *)
Lemma waiter_progress (n m : nat) w t f pre post :
  rwsem_inv w -> wait_list (sem w) = pre ++ Waiter t f :: post ->
  (length pre <= n)%nat -> activity (sem w) <= Z.of_nat m -> exists w', reaches w w' /\ owns w' t f.
Proof.
  revert m w pre. induction n as [n IHn] using lt_wf_ind. induction m as [m IHm] using lt_wf_ind.
  intros w pre Hinv Hq Hn Hm. pose proof Hinv as [_ (R & W & Hd)].
  assert (Hne : wait_list (sem w) <> []) by (rewrite Hq; by destruct pre).
  assert (Hact0 : activity (sem w) <> 0).
  { destruct Hd as [_ Hf]. unfold front_ok in Hf. destruct (wait_list (sem w)); [done|]. by destruct Hf. }
  destruct (queue_owner _ _ _ _ Hd Hne) as (u & g & Hu%owns_status).
  destruct (owner_releases w u g Hinv Hu Hne) as (w1 & woken & Hr & Hinv1 & (pre1 & Hq1 & -> & Hact) & Hst).
  assert (Hw : status_of w t = SWait f).
  { apply (proj2 (ds_queue _ _ _ _ (proj1 Hd))). rewrite Hq, elem_of_app. right. left. }
  specialize (Hst t f Hw). destruct (decide (t ∈ map waiter_task pre1)) as [Hin|Hnin].
  { exists w1. split; [done|]. by apply owns_status. }
  assert (exists pre', wait_list (sem w1) = pre' ++ Waiter t f :: post /\ pre = pre1 ++ pre') as (pre' & Hq' & Hpre).
  { rewrite Hq in Hq1. apply app_eq_app in Hq1 as (l & [[H1 H2]|[H1 H2]]).
    - eauto.
    - destruct l as [|x l]; [exists []; rewrite app_nil_r in H1; subst; by rewrite app_nil_r|].
      injection H2 as <- _. exfalso. apply Hnin, list_elem_of_fmap. exists (Waiter t f). split; [done|].
      rewrite H1, elem_of_app. right. left. }
  destruct pre1 as [|x pre1].
  - destruct (Hact eq_refl) as [Ha1 Ha2]. simpl in Hpre. subst pre'.
    destruct (IHm (Z.to_nat (activity (sem w1)))) with (w := w1) (pre := pre) as (w2 & Hr2 & Ho); try done.
    + assert (0 < activity (sem w1)); [|lia]. destruct Hinv1 as [_ (R1 & W1 & [[_ _ _ Hb] _])].
      destruct Hd as [[_ _ _ Hb0] _]. pose proof (zlen_nonneg R1). pose proof (zlen_nonneg R).
      destruct Hb as [[_ Hb]|(? & _ & _ & Hb)], Hb0 as [[_ Hb0]|(? & _ & _ & Hb0)]; lia.
    + lia.
    + exists w2. split; [by etrans|done].
  - destruct (IHn (length pre')) with (m := Z.to_nat (activity (sem w1))) (w := w1) (pre := pre') as (w2 & Hr2 & Ho); try done.
    + rewrite Hpre, length_app in Hn. simpl in Hn. lia.
    + lia.
    + exists w2. split; [by etrans|done].
Qed.

(** ** Order *)

(** The queue of [s'] is that of [s] without its first waiters [pre], plus [new]. *)
Definition queue_moves (s s' : rw_semaphore) (pre new : list rwsem_waiter) : Prop :=
  exists rest, wait_list s = pre ++ rest /\ wait_list s' = rest ++ new /\ (length new <= 1)%nat.

Lemma queue_moves_intro s a pre rest : wait_list s = pre ++ rest -> queue_moves s (RwSem a rest) pre [].
Proof. intros H. exists rest. simpl. rewrite app_nil_r. split; [done|]. split; [done|lia]. Qed.

Lemma release_moves s s' woken (o : option (rw_semaphore * list tid)) :
  o = __up_read s \/ o = __up_write s \/ o = __downgrade_write s -> o = Some (s', woken) ->
  exists pre, queue_moves s s' pre [] /\ woken = map waiter_task pre.
Proof.
  assert (Hsame : forall a, queue_moves s (RwSem a (wait_list s)) [] []).
  { intros a. by apply queue_moves_intro. }
  assert (Hone : forall x l a, wait_list s = x :: l -> queue_moves s (RwSem a l) [x] []).
  { intros x l a Hl. by apply queue_moves_intro. }
  assert (Hwake : forall x l a wk rest, wait_list s = x :: l -> wake_readers (x :: l) = (wk, rest) ->
    exists pre, queue_moves s (RwSem a rest) pre [] /\ wk = map waiter_task pre).
  { intros x l a wk rest Hl Hw. destruct (wake_readers_spec _ _ _ Hw) as [Hsp _].
    exists (map (fun t => Waiter t RWSEM_WAITING_FOR_READ) wk).
    split; [apply queue_moves_intro; by rewrite Hl|]. rewrite map_map. simpl. by rewrite map_id. }
  unfold __up_read, __up_write, __downgrade_write, __rwsem_wake_one_writer, __rwsem_do_wake. cbn [wait_list activity].
  intros [->|[->| ->]]; destruct (wait_list s) as [|x l] eqn:Hl; cbn [list_empty negb]; rewrite ?andb_false_r, ?andb_true_r;
    repeat case_bool_decide; repeat case_decide;
    try (destruct (wake_readers (x :: l)) as [wk rest] eqn:Hw); intros [= <- <-];
    first [by exists [] | by exists [x]; auto | by eapply Hwake; eauto].
Qed.

(** Who owns the semaphore after task [t] moved and the waiters [woken] were cleared. *)
Lemma owners_after w s' t p cl (woken : list tid) u f :
  owns (World s' (move w t p) cl) u f -> (forall x, x ∈ cl -> x ∈ cleared w \/ x ∈ woken) ->
  u = t \/ owns w u f \/ u ∈ woken.
Proof.
  intros Ho Hcl. destruct (decide (u = t)) as [->|Hne]; [by left|right].
  unfold owns, place_of in Ho. simpl in Ho. rewrite place_move, decide_False in Ho by done.
  fold (place_of w u) in Ho. unfold owns. destruct (place_of w u); try tauto.
  destruct Ho as [-> Hin]. destruct (Hcl u Hin); tauto.
Qed.

Lemma owns_at w s' t p cl f :
  t ∉ cl -> owns (World s' (move w t p) cl) t f -> p = Reading \/ p = Writing.
Proof.
  intros Hn. unfold owns, place_of. simpl. rewrite place_move, decide_True by done.
  destruct p; [done|tauto|tauto|]. simpl. tauto.
Qed.

(** A step in order: [t] moved, the first waiters were served. *)
Definition in_order (w w' : world) : Prop :=
  exists pre new, queue_moves (sem w) (sem w') pre new /\
    forall t f, owns w' t f ->
      (exists g, owns w t g) \/ t ∈ map waiter_task pre \/ wait_list (sem w) = [].

Lemma in_order_release w s woken t p o :
  place_of w t = Reading \/ place_of w t = Writing ->
  o = __up_read (sem w) \/ o = __up_write (sem w) \/ o = __downgrade_write (sem w) -> o = Some (s, woken) ->
  in_order w (World s (move w t p) (cleared w ∪ list_to_set woken)).
Proof.
  intros Hp Ho E. destruct (release_moves (sem w) s woken o Ho E) as (pre & Hmv & ->). exists pre, [].
  split; [exact Hmv|]. intros u f Hown.
  destruct (owners_after _ _ _ _ _ (map waiter_task pre) _ _ Hown) as [->|[?|?]]; [|left|by eauto|by auto].
  - intros x Hx. apply elem_of_union in Hx as [?|?%elem_of_list_to_set]; tauto.
  - unfold owns. destruct Hp as [-> | ->]; eauto.
Qed.

(** A task that does not get the lock at once. *)
Lemma in_order_refused w s t p new :
  t ∉ cleared w -> p <> Reading -> p <> Writing -> queue_moves (sem w) s [] new ->
  in_order w (World s (move w t p) (cleared w)).
Proof.
  intros Hnc H1 H2 Hmv. exists [], new. split; [exact Hmv|]. intros u f Ho.
  destruct (owners_after _ _ _ _ _ [] _ _ Ho) as [->|[?|?%elem_of_nil]]; [by auto| |by eauto|done].
  by destruct (owns_at _ _ _ _ _ _ Hnc Ho).
Qed.

(** ** The contract *)

(** C23. Mutual exclusion, in every interleaving of any number of tasks: while a
    task owns the semaphore for writing nobody else owns it, and [activity] is
    always -1 for a writer and otherwise the number of readers. *)
Theorem rwsem_exclusion w :
  reachable w ->
  (forall t u f, owns w t RWSEM_WAITING_FOR_WRITE -> owns w u f -> u = t) /\
  exists R, NoDup R /\ (forall t, t ∈ R <-> owns w t RWSEM_WAITING_FOR_READ) /\
    ((activity (sem w) = zlen R /\ forall t, ~ owns w t RWSEM_WAITING_FOR_WRITE) \/
     (activity (sem w) = -1 /\ R = [] /\ exists t, owns w t RWSEM_WAITING_FOR_WRITE)).
Proof.
  intros [_ (R & W & [Hc _])]%reachable_inv. pose proof Hc as [[HR1 HR2] [HW1 HW2] _ Ha]. split.
  - intros t u f Ht%owns_status Hu%owns_status. destruct (writer_alone _ _ _ _ _ Hc Ht) as [-> ->].
    destruct f; [apply HR2 in Hu; by apply elem_of_nil in Hu|]. apply HW2 in Hu. by apply list_elem_of_singleton in Hu.
  - exists R. split; [done|]. split; [intros t; by rewrite HR2, owns_status|].
    destruct Ha as [[-> Ha]|(t & -> & -> & Ha)]; [left|right].
    + split; [done|]. intros t Ht%owns_status%HW2. by apply elem_of_nil in Ht.
    + split; [done|]. split; [done|]. exists t. apply owns_status, HW2. left.
Qed.

(** C24. No wakeup is lost: whenever a task is queued some task owns the semaphore,
    and from every reachable state there is a continuation, in which the owners
    release it (their calls never find the list in a state they do not expect), that
    ends with the queued task owning it in the mode it asked for.  That owners do
    release it in the end is up to them and to the scheduler. *)
Theorem rwsem_progress w t f :
  reachable w -> Waiter t f ∈ wait_list (sem w) ->
  (exists u g, owns w u g) /\ exists w', reaches w w' /\ owns w' t f.
Proof.
  intros Hinv%reachable_inv Hin. pose proof Hinv as [_ (R & W & Hd)]. split.
  - destruct (queue_owner _ _ _ _ Hd) as (u & g & Hu); [intros He; rewrite He in Hin; by apply elem_of_nil in Hin|].
    exists u, g. by apply owns_status.
  - apply list_elem_of_split in Hin as (pre & post & Hq).
    eapply (waiter_progress (length pre) (Z.to_nat (activity (sem w)))); [done|exact Hq|done|lia].
Qed.

(** C25. First come, first served: every step takes waiters off the front of the
    queue only and adds at most one at its end, and a task becomes an owner only
    if it was taken off the front or the queue was empty. *)
Theorem rwsem_fifo w w' :
  reachable w -> rwsem_step w w' ->
  exists pre new, queue_moves (sem w) (sem w') pre new /\
    forall t f, owns w' t f ->
      (exists g, owns w t g) \/ t ∈ map waiter_task pre \/ wait_list (sem w) = [].
Proof.
  intros Hinv%reachable_inv Hs. destruct Hinv as [Hok (R & W & Hd)]. change (in_order w w').
  destruct Hs as [w t s g Hp E|w t s r Hp E|w t s g Hp E|w t s r Hp E|w t s wk Hp E|w t s wk Hp E|w t s wk Hp E|w t f0 Hp Hin].
  1-4: assert (Hnc : t ∉ cleared w) by (apply cleared_out; tauto);
       unfold __down_read, __down_read_trylock, __down_write, __down_write_trylock in E;
       destruct (_ && _) eqn:Hc in E; injection E as <- <-;
       [apply andb_true_iff in Hc as [_ Hq%list_empty_true]; exists [], []; split; [by apply queue_moves_intro|by auto]|].
  - eapply in_order_refused; [done|done|done|]. by exists (wait_list (sem w)).
  - eapply in_order_refused; [done|done|done|]. destruct (sem w). by apply queue_moves_intro.
  - eapply in_order_refused; [done|done|done|]. by exists (wait_list (sem w)).
  - eapply in_order_refused; [done|done|done|]. destruct (sem w). by apply queue_moves_intro.
  - eapply in_order_release; [by left|by left|done].
  - eapply in_order_release; [by right|by right; left|done].
  - eapply in_order_release; [by right|by right; right|done].
  - exists [], []. split; [by destruct (sem w); apply queue_moves_intro|]. intros u f Ho. left.
    destruct (owners_after _ _ _ _ _ [] _ _ Ho) as [->|[?|?%elem_of_nil]]; [intros x Hx; left; set_solver| |by eauto|done].
    exists f0. unfold owns. by rewrite Hp.
Qed.

(** ** Instances *)

(** Task 1 writes, task 2 waits to read. *)
Definition demo_writing : world := World (RwSem (-1) []) {[1%nat := Writing]} ∅.
Definition demo_waiting : world :=
  World (RwSem (-1) [Waiter 2 RWSEM_WAITING_FOR_READ])
    (<[2%nat := Sleeping RWSEM_WAITING_FOR_READ]> {[1%nat := Writing]}) ∅.

Lemma demo_reachable : reachable demo_waiting.
Proof.
  eapply (reach_step demo_writing); [eapply reach_step; [apply reach_init|]|].
  - by apply (step_down_write (World init_rwsem ∅ ∅) 1 (RwSem (-1) []) true).
  - by apply (step_down_read demo_writing 2 (RwSem (-1) [Waiter 2 RWSEM_WAITING_FOR_READ]) false).
Qed.

Lemma rwsem_exclusion_witness :
  reachable demo_waiting /\
  (forall t u f, owns demo_waiting t RWSEM_WAITING_FOR_WRITE -> owns demo_waiting u f -> u = t).
Proof.
  split; [exact demo_reachable|]. exact (proj1 (rwsem_exclusion demo_waiting demo_reachable)).
Defined.

Lemma rwsem_progress_witness : exists w', reaches demo_waiting w' /\ owns w' 2 RWSEM_WAITING_FOR_READ.
Proof.
  apply (rwsem_progress demo_waiting 2 RWSEM_WAITING_FOR_READ demo_reachable). left.
Defined.

Lemma rwsem_fifo_witness :
  exists w' pre new, rwsem_step demo_waiting w' /\ queue_moves (sem demo_waiting) (sem w') pre new.
Proof.
  set (w' := World (RwSem 1 []) (move demo_waiting 1 Out) (∅ ∪ list_to_set [2%nat])).
  assert (Hs : rwsem_step demo_waiting w') by by apply (step_up_write demo_waiting 1 (RwSem 1 []) [2%nat]).
  destruct (rwsem_fifo demo_waiting w' demo_reachable Hs) as (pre & new & H & _). by exists w', pre, new.
Defined.
