(* ===== verification/Resource.v ===== *)
(** The I/O resource tree: [kernel/resource.c].

    The store maps addresses to [struct resource]s with their [parent], [sibling]
    and [child] pointers ([name] is only printed and is left out).  A
    [struct resource **] is the address of a [child] or of a [sibling] field.
    Everything runs under [resource_lock], one call at a time.  Following a null or
    dangling pointer is a failure.  A loop along the pointers takes as fuel one more
    than the number of resources in the store (its square where the loop goes both
    down and along); the proofs show that this never runs out on a well-formed tree. *)
From Stdlib Require Import ZArith Lia.
From stdpp Require Import base numbers list list_numbers option gmap sets functions.
From S2P Require Import Prelude.

Local Open Scope Z_scope.
Local Open Scope kernel_scope.

Abbreviation rloc := positive.

Definition IORESOURCE_BUSY : Z := 0x80000000.

Record resource := Resource {
  start : Z;
  end_ : Z;
  flags : Z;
  parent : option rloc;
  sibling : option rloc;
  child : option rloc
}.

Abbreviation rstore := (gmap rloc resource).

Definition ResM : Type -> Type := SM rstore.
Global Instance ResM_ret : MRet ResM := SM_ret.
Global Instance ResM_bind : MBind ResM := SM_bind.

Definition ldr (x : rloc) : ResM resource := fun st =>
  match st !! x with Some r => Some (r, st) | None => None end.

Definition updr (x : rloc) (f : resource -> resource) : ResM unit := fun st =>
  match st !! x with Some r => Some (tt, <[x := f r]> st) | None => None end.

Definition fuelled {A} (k : nat -> ResM A) : ResM A := fun st => k (S (size st)) st.

Definition deref (p : option rloc) : ResM rloc :=
  match p with Some x => mret x | None => SM_fail end.

Definition set_range (s e : Z) (r : resource) :=
  Resource s e (flags r) (parent r) (sibling r) (child r).
Definition set_parent (p : option rloc) (r : resource) :=
  Resource (start r) (end_ r) (flags r) p (sibling r) (child r).
Definition set_sibling (p : option rloc) (r : resource) :=
  Resource (start r) (end_ r) (flags r) (parent r) p (child r).
Definition set_child (p : option rloc) (r : resource) :=
  Resource (start r) (end_ r) (flags r) (parent r) (sibling r) p.

(** The addresses a [struct resource **] takes. *)
Inductive rptr := Pchild (x : rloc) | Psibling (x : rloc).

Definition ldp (p : rptr) : ResM (option rloc) :=
  match p with
  | Pchild x => r ← ldr x; mret (child r)
  | Psibling x => r ← ldr x; mret (sibling r)
  end.

Definition stp (p : rptr) (v : option rloc) : ResM unit :=
  match p with
  | Pchild x => updr x (set_child v)
  | Psibling x => updr x (set_sibling v)
  end.

(** ** Requesting and releasing *)

Definition request_link (root new : rloc) (p : rptr) (tmp : option rloc) : ResM (option rloc) :=
  _ ← updr new (set_sibling tmp);
  _ ← stp p (Some new);
  _ ← updr new (set_parent (Some root));
  mret None.

Fixpoint request_loop (fuel : nat) (root new : rloc) (s e : Z) (p : rptr) : ResM (option rloc) :=
  match fuel with
  | O => SM_fail
  | S fuel =>
    tmp ← ldp p;
    match tmp with
    | None => request_link root new p tmp
    | Some x =>
      t ← ldr x;
      if decide (e < start t) then request_link root new p tmp
      else if decide (end_ t < s) then request_loop fuel root new s e (Psibling x)
      else mret (Some x)
    end
  end.

(** The conflicting resource, or [None] when [new] was linked. *)
Definition __request_resource (root new : rloc) : ResM (option rloc) :=
  n ← ldr new;
  r ← ldr root;
  if decide (end_ n < start n) then mret (Some root)
  else if decide (start n < start r) then mret (Some root)
  else if decide (end_ r < end_ n) then mret (Some root)
  else fuelled (fun fuel => request_loop fuel root new (start n) (end_ n) (Pchild root)).

Fixpoint release_loop (fuel : nat) (old : rloc) (p : rptr) : ResM Z :=
  match fuel with
  | O => SM_fail
  | S fuel =>
    tmp ← ldp p;
    match tmp with
    | None => mret (- EINVAL)
    | Some x =>
      if decide (x = old) then
        t ← ldr x;
        _ ← stp p (sibling t);
        _ ← updr old (set_parent None);
        mret 0
      else release_loop fuel old (Psibling x)
    end
  end.

Definition __release_resource (old : rloc) : ResM Z :=
  o ← ldr old;
  par ← deref (parent o);
  fuelled (fun fuel => release_loop fuel old (Pchild par)).

Definition request_resource (root new : rloc) : ResM Z :=
  conflict ← __request_resource root new;
  mret (match conflict with Some _ => - EBUSY | None => 0 end).

Definition ____request_resource (root new : rloc) : ResM (option rloc) :=
  conflict ← __request_resource root new;
  mret conflict.

Definition release_resource (old : rloc) : ResM Z :=
  retval ← __release_resource old;
  mret retval.

(** ** Allocation *)

(** [ALIGN(x, a)] on [unsigned long]. *)
Definition align_up (x a : Z) : Z := Z.land (x +u a -u 1) (not32 (a -u 1)).

(** The caller's [alignf] with its data: from [new->start], [new->end], [size] and
    [align] to the [new->start] and [new->end] it leaves. *)
Abbreviation alignfn := (Z -> Z -> Z -> Z -> Z * Z).

(** One candidate gap, from [s] to [e]: the range left in [new] before the test. *)
Definition fit_gap (size min max align : Z) (alignf : option alignfn) (s e : Z) : Z * Z :=
  let s := if decide (s < min) then min else s in
  let e := if decide (max < e) then max else e in
  let s := align_up s align in
  match alignf with Some f => f s e size align | None => (s, e) end.

Fixpoint find_loop (fuel : nat) (root new : rloc) (size min max align : Z) (alignf : option alignfn)
    (this : option rloc) : ResM Z :=
  match fuel with
  | O => SM_fail
  | S fuel =>
    r ← ldr root;
    n ← ldr new;
    e ← (match this with Some x => t ← ldr x; mret (start t -u 1) | None => mret (end_ r) end);
    let '(s, e) := fit_gap size min max align alignf (start n) e in
    if decide (s < e /\ size -u 1 <= e -u s) then
      _ ← updr new (set_range s (s +u size -u 1));
      mret 0
    else
      _ ← updr new (set_range s e);
      match this with
      | None => mret (- EBUSY)
      | Some x =>
        t ← ldr x;
        _ ← updr new (fun n => set_range (end_ t +u 1) (end_ n) n);
        find_loop fuel root new size min max align alignf (sibling t)
      end
  end.

Definition find_resource (root new : rloc) (size min max align : Z) (alignf : option alignfn) : ResM Z :=
  r ← ldr root;
  _ ← updr new (fun n => set_range (start r) (end_ n) n);
  this ← (match child r with
          | Some x =>
            t ← ldr x;
            if decide (start t = 0) then
              _ ← updr new (fun n => set_range (end_ t +u 1) (end_ n) n);
              mret (sibling t)
            else mret (child r)
          | None => mret None
          end);
  fuelled (fun fuel => find_loop fuel root new size min max align alignf this).

Definition allocate_resource (root new : rloc) (size min max align : Z) (alignf : option alignfn) : ResM Z :=
  err ← find_resource root new size min max align alignf;
  if decide (0 <= err) then
    conflict ← __request_resource root new;
    mret (match conflict with Some _ => - EBUSY | None => err end)
  else mret err.

(** ** Insertion of a resource above existing ones *)

(** [for (next = first; ; next = next->sibling)]: the last child that the new
    range covers, or [None] for a partial overlap. *)
Fixpoint covered_loop (fuel : nat) (s e : Z) (next : rloc) : ResM (option rloc) :=
  match fuel with
  | O => SM_fail
  | S fuel =>
    n ← ldr next;
    if decide (start n < s \/ e < end_ n) then mret None
    else
      match sibling n with
      | None => mret (Some next)
      | Some y =>
        sib ← ldr y;
        if decide (e < start sib) then mret (Some next) else covered_loop fuel s e y
      end
  end.

(** [for (next = first; next; next = next->sibling) next->parent = new] *)
Fixpoint adopt_loop (fuel : nat) (new : rloc) (next : option rloc) : ResM unit :=
  match fuel, next with
  | O, _ => SM_fail
  | S fuel, None => mret tt
  | S fuel, Some x =>
    _ ← updr x (set_parent (Some new));
    r ← ldr x;
    adopt_loop fuel new (sibling r)
  end.

(** [while (next->sibling != x) next = next->sibling] *)
Fixpoint before_loop (fuel : nat) (x next : rloc) : ResM rloc :=
  match fuel with
  | O => SM_fail
  | S fuel =>
    n ← ldr next;
    if decide (sibling n = Some x) then mret next
    else next ← deref (sibling n); before_loop fuel x next
  end.

(** What follows the search for the last covered child. *)
Definition insert_above (par new first next : rloc) : ResM Z :=
  x ← ldr next;
  _ ← updr new (set_parent (Some par));
  _ ← updr new (set_sibling (sibling x));
  _ ← updr new (set_child (Some first));
  _ ← updr next (set_sibling None);
  _ ← fuelled (fun fuel => adopt_loop fuel new (Some first));
  p ← ldr par;
  if decide (child p = Some first) then
    _ ← updr par (set_child (Some new));
    mret 0
  else
    next ← deref (child p);
    next ← fuelled (fun fuel => before_loop fuel first next);
    _ ← updr next (set_sibling (Some new));
    mret 0.

(** [insert_resource] from the label [begin] on. *)
Fixpoint insert_begin (fuel : nat) (par new : rloc) : ResM Z :=
  match fuel with
  | O => SM_fail
  | S fuel =>
    first ← __request_resource par new;
    match first with
    | None => mret 0
    | Some first =>
      if decide (first = par) then mret (- EBUSY)
      else
        f ← ldr first;
        n ← ldr new;
        if decide (start f <= start n /\ end_ n <= end_ f) then insert_begin fuel first new
        else
          next ← fuelled (fun fuel => covered_loop fuel (start n) (end_ n) first);
          match next with
          | None => mret (- EBUSY)
          | Some next => insert_above par new first next
          end
    end
  end.

Definition insert_resource (par new : rloc) : ResM Z :=
  fuelled (fun fuel => insert_begin fuel par new).

(** ** Adjusting *)

(** The children of the resource stay inside the new range. *)
Fixpoint inside_loop (fuel : nat) (s e : Z) (tmp : option rloc) : ResM bool :=
  match fuel, tmp with
  | O, _ => SM_fail
  | S fuel, None => mret true
  | S fuel, Some x =>
    t ← ldr x;
    if decide (start t < s \/ e < end_ t) then mret false else inside_loop fuel s e (sibling t)
  end.

Definition adjust_resource (res : rloc) (s size : Z) : ResM Z :=
  let e := s +u size -u 1 in
  r ← ldr res;
  par ← deref (parent r);
  p ← ldr par;
  if decide (s < start p \/ end_ p < e) then mret (- EBUSY)
  else
    inside ← fuelled (fun fuel => inside_loop fuel s e (child r));
    if negb inside then mret (- EBUSY)
    else
      next_clash ← (match sibling r with
                    | Some y => sib ← ldr y; mret (bool_decide (start sib <= e))
                    | None => mret false
                    end);
      if next_clash : bool then mret (- EBUSY)
      else
        prev_clash ← (if decide (child p = Some res) then mret false
                      else
                        tmp ← deref (child p);
                        tmp ← fuelled (fun fuel => before_loop fuel res tmp);
                        t ← ldr tmp;
                        mret (bool_decide (s <= end_ t)));
        if prev_clash : bool then mret (- EBUSY)
        else
          _ ← updr res (set_range s e);
          mret 0.

(** ** Regions *)

Definition BUSY (r : resource) : bool := negb (bool_decide (flags r &u IORESOURCE_BUSY = 0)).

Definition kfree (x : rloc) : ResM unit := fun st => Some (tt, delete x st).

Fixpoint region_loop (fuel : nat) (par res : rloc) : ResM (option rloc) :=
  match fuel with
  | O => SM_fail
  | S fuel =>
    conflict ← __request_resource par res;
    match conflict with
    | None => mret (Some res)
    | Some c =>
      if decide (c <> par) then
        r ← ldr c;
        if BUSY r then _ ← kfree res; mret None
        else region_loop fuel c res
      else _ ← kfree res; mret None
    end
  end.

(** [__request_region]; [res] is what [kzalloc] returns, an address or null. *)
Definition __request_region (res : option rloc) (par : rloc) (s n : Z) : ResM (option rloc) :=
  match res with
  | None => mret None
  | Some res => fun st =>
    let st := <[res := Resource s (s +u n -u 1) IORESOURCE_BUSY None None None]> st in
    fuelled (fun fuel => region_loop fuel par res) st
  end.

Definition __check_region (res : option rloc) (par : rloc) (s n : Z) : ResM Z :=
  res ← __request_region res par s n;
  match res with
  | None => mret (- EBUSY)
  | Some res =>
    _ ← release_resource res;
    _ ← kfree res;
    mret 0
  end.

(** [__release_region]: [true] when the region was found, [false] when the warning
    is printed. *)
Fixpoint unregion_loop (fuel : nat) (s e : Z) (p : rptr) : ResM bool :=
  match fuel with
  | O => SM_fail
  | S fuel =>
    res ← ldp p;
    match res with
    | None => mret false
    | Some x =>
      r ← ldr x;
      if decide (start r <= s /\ e <= end_ r) then
        if BUSY r then
          if decide (start r <> s \/ end_ r <> e) then mret false
          else
            _ ← stp p (sibling r);
            _ ← kfree x;
            mret true
        else unregion_loop fuel s e (Pchild x)
      else unregion_loop fuel s e (Psibling x)
    end
  end.

Definition __release_region (par : rloc) (s n : Z) : ResM bool := fun st =>
  unregion_loop (S (size st) * S (size st)) s (s +u n -u 1) (Pchild par) st.
