(* ===== verification/ResourceTree.v ===== *)
(** The resource tree as a forest of sibling chains: the invariant of
    [kernel/resource.c] and what the pointer loops do on a tree that satisfies it. *)
From Stdlib Require Import ZArith Lia.
From stdpp Require Import base numbers list list_numbers option gmap sets functions sorting.
From S2P Require Import Prelude Resource.

Local Open Scope Z_scope.
Local Open Scope kernel_scope.

(** ** The invariant *)

Implicit Types (st : rstore) (x y p c root new : rloc) (l : list rloc) (K : rloc -> list rloc).

(** One field of a resource. *)
Definition fld {A} (f : resource -> A) st x : option A := f <$> st !! x.

(** The siblings from the pointer [o] up to the pointer [o']. *)
Fixpoint seg st (o : option rloc) l (o' : option rloc) : Prop :=
  match l with
  | [] => o = o'
  | x :: l => o = Some x /\ exists r, st !! x = Some r /\ seg st (sibling r) l o'
  end.

(** The sibling chain that starts at the pointer [o]. *)
Definition chain st (o : option rloc) l : Prop := seg st o l None.

(** A resource with a range inside [lo, hi]. *)
Definition within st (lo hi : Z) x : Prop :=
  exists r, st !! x = Some r /\ lo <= start r /\ start r <= end_ r /\ end_ r <= hi.

Definition before st x y : Prop :=
  exists r r', st !! x = Some r /\ st !! y = Some r' /\ end_ r < start r'.

(** The ranges of a chain lie inside [lo, hi], in order and apart. *)
Definition laid st (lo hi : Z) l : Prop := Forall (within st lo hi) l /\ StronglySorted (before st) l.

(** [l] leads from [x] through the parents to a resource that has none. *)
Inductive anchored st : list rloc -> rloc -> Prop :=
| anchored_top x : fld parent st x = Some None -> anchored st [x] x
| anchored_up x p l : fld parent st x = Some (Some p) -> anchored st l p -> anchored st (x :: l) x.

(** [K] gives the children of each resource, in order. *)
Record wf st K : Prop := {
  wf_chain : forall x r, st !! x = Some r -> chain st (child r) (K x);
  wf_laid : forall x r, st !! x = Some r -> laid st (start r) (end_ r) (K x);
  wf_link : forall p c, c ∈ K p <-> fld parent st c = Some (Some p);
  wf_anch : forall x, is_Some (st !! x) -> exists l, anchored st l x;
  wf_range : forall x r, st !! x = Some r -> is_u32 (start r) /\ is_u32 (end_ r)
}.

(** ** Stores that agree on some fields *)

Lemma fld_insert {A} (f : resource -> A) st x r y :
  fld f (<[x := r]> st) y = if decide (x = y) then Some (f r) else fld f st y.
Proof. unfold fld. rewrite lookup_insert. by case_decide. Qed.

Lemma fld_Some {A} (f : resource -> A) st x r : st !! x = Some r -> fld f st x = Some (f r).
Proof. unfold fld. by intros ->. Qed.

Lemma fld_inv {A} (f : resource -> A) st x a :
  fld f st x = Some a -> exists r, st !! x = Some r /\ f r = a.
Proof. unfold fld. intros (r&->&?)%fmap_Some. eauto. Qed.

(** The two stores hold the same ranges. *)
Definition same_ranges st st' : Prop :=
  forall x, fld start st x = fld start st' x /\ fld end_ st x = fld end_ st' x.

Lemma same_ranges_lookup st st' x r :
  same_ranges st st' -> st !! x = Some r ->
  exists r', st' !! x = Some r' /\ start r' = start r /\ end_ r' = end_ r.
Proof.
  intros Hs Hx. destruct (Hs x) as [H1 H2]. unfold fld in *. rewrite Hx in *. simpl in *.
  destruct (st' !! x) as [r'|]; simplify_eq/=. eauto.
Qed.

Lemma same_ranges_sym st st' : same_ranges st st' -> same_ranges st' st.
Proof. intros Hs x. by destruct (Hs x). Qed.

Lemma same_ranges_trans st1 st2 st3 : same_ranges st1 st2 -> same_ranges st2 st3 -> same_ranges st1 st3.
Proof. intros H1 H2 x. destruct (H1 x), (H2 x). split; congruence. Qed.

Lemma same_ranges_insert st x r r' :
  st !! x = Some r -> start r' = start r -> end_ r' = end_ r -> same_ranges st (<[x := r']> st).
Proof.
  intros Hx H1 H2 y. rewrite !fld_insert. case_decide; [subst y|done].
  rewrite !(fld_Some _ _ _ _ Hx). by rewrite H1, H2.
Qed.

Lemma within_same st st' lo hi x : same_ranges st st' -> within st lo hi x -> within st' lo hi x.
Proof.
  intros Hs (r&Hr&?). destruct (same_ranges_lookup _ _ _ _ Hs Hr) as (r'&?&H1&H2).
  exists r'. rewrite H1, H2. done.
Qed.

Lemma before_same st st' x y : same_ranges st st' -> before st x y -> before st' x y.
Proof.
  intros Hs (r&r'&Hr&Hr'&?).
  destruct (same_ranges_lookup _ _ _ _ Hs Hr) as (q&?&_&E1).
  destruct (same_ranges_lookup _ _ _ _ Hs Hr') as (q'&?&E2&_).
  exists q, q'. rewrite E1, E2. done.
Qed.

Lemma StronglySorted_mono {A} (R S : relation A) (l : list A) :
  (forall a b, a ∈ l -> b ∈ l -> R a b -> S a b) -> StronglySorted R l -> StronglySorted S l.
Proof.
  intros Himp. induction 1 as [|a l Hl IH Ha]; constructor.
  - apply IH. intros b c Hb Hc. apply Himp; by right.
  - rewrite list.Forall_forall in *. intros b Hb. apply Himp; [left|by right|auto].
Qed.

Lemma laid_same st st' lo hi l : same_ranges st st' -> laid st lo hi l -> laid st' lo hi l.
Proof.
  intros Hs [H1 H2]. split.
  - eapply list.Forall_impl; [done|]. intros x. by apply within_same.
  - eapply StronglySorted_mono; [|done]. intros a b _ _. by apply before_same.
Qed.

(** A chain only depends on the sibling pointers of its elements. *)
Lemma seg_agree st st' o l o' :
  (forall x, x ∈ l -> fld sibling st' x = fld sibling st x) -> seg st o l o' -> seg st' o l o'.
Proof.
  revert o. induction l as [|x l IH]; intros o Ha; [done|]. intros (->&r&Hr&Hc).
  split; [done|]. pose proof (Ha x ltac:(left)) as Hx. rewrite (fld_Some _ _ _ _ Hr) in Hx.
  apply fld_inv in Hx as (r'&?&Hs). exists r'. split; [done|].
  rewrite Hs. apply IH; [|done]. intros y Hy. apply Ha. by right.
Qed.

Lemma seg_app st o l1 l2 o' : seg st o (l1 ++ l2) o' <-> exists m, seg st o l1 m /\ seg st m l2 o'.
Proof.
  revert o. induction l1 as [|x l1 IH]; intros o; simpl; [naive_solver|].
  setoid_rewrite IH. naive_solver.
Qed.

Lemma seg_snoc st o l x o' : seg st o (l ++ [x]) o' <-> seg st o l (Some x) /\ fld sibling st x = Some o'.
Proof.
  rewrite seg_app. simpl. split.
  - intros (m&?&->&r&Hr&<-). by rewrite (fld_Some _ _ _ _ Hr).
  - intros [? (r&?&?)%fld_inv]. exists (Some x). split_and!; eauto.
Qed.

Lemma seg_elem st o l o' x : seg st o l o' -> x ∈ l -> is_Some (st !! x).
Proof.
  revert o. induction l as [|y l IH]; intros o; [by intros _ ?%not_elem_of_nil|].
  intros (->&r&Hr&Hc) [->|?]%elem_of_cons; eauto.
Qed.

Lemma chain_head st o l : chain st o l -> o = head l.
Proof. destruct l; unfold chain; simpl; [done|naive_solver]. Qed.

Lemma anchored_agree st st' l x :
  (forall y, y ∈ l -> fld parent st' y = fld parent st y) -> anchored st l x -> anchored st' l x.
Proof.
  intros Ha. induction 1 as [x Hx|x p l Hx Hl IH].
  - constructor. rewrite Ha; [done|left].
  - econstructor; [rewrite Ha; [done|left]|]. apply IH. intros y Hy. apply Ha. by right.
Qed.

(** ** Ancestors *)

Lemma anchored_elem st l x y : anchored st l x -> y ∈ l -> is_Some (st !! y).
Proof.
  assert (Hs : forall z a, fld parent st z = Some a -> is_Some (st !! z))
    by (intros z a (?&->&_)%fld_inv; eauto).
  induction 1 as [x Hx|x p l Hx Hl IH].
  - intros ->%list_elem_of_singleton. eauto.
  - intros [->|?]%elem_of_cons; eauto.
Qed.

Lemma anchored_head st l x : anchored st l x -> x ∈ l.
Proof. destruct 1; left. Qed.

Lemma anchored_det st l x l' : anchored st l x -> anchored st l' x -> l = l'.
Proof.
  intros H. revert l'. induction H as [x Hx|x p l Hx Hl IH]; intros l' H'; inversion H'; subst; try congruence.
  f_equal. apply IH. congruence.
Qed.

(** Each element of the path has the rest of the path as its own. *)
Lemma anchored_suffix st l x y :
  anchored st l x -> y ∈ l -> exists l', anchored st l' y /\ (length l' <= length l)%nat /\
    (y = x \/ (length l' < length l)%nat) /\ l' ⊆ l.
Proof.
  induction 1 as [x Hx|x p l Hx Hl IH].
  - intros ->%list_elem_of_singleton. exists [x]. split_and!; eauto using anchored.
  - intros [->|Hy]%elem_of_cons.
    + exists (x :: l). split_and!; eauto using anchored.
    + destruct (IH Hy) as (l'&?&?&_&?). exists l'. simpl. split_and!; [done|lia|right; lia|].
      intros z Hz. right. auto.
Qed.

Lemma anchored_not_self st l x p : fld parent st x = Some (Some p) -> anchored st l p -> x ∉ l.
Proof.
  intros Hx Hl Hin. destruct (anchored_suffix _ _ _ _ Hl Hin) as (l'&Hl'&?&_).
  assert (l' = x :: l) as -> by (eapply anchored_det; [done|by econstructor]). simpl in *. lia.
Qed.

Lemma anchored_NoDup st l x : anchored st l x -> NoDup l.
Proof.
  induction 1 as [x Hx|x p l Hx Hl IH]; constructor; try done; [apply not_elem_of_nil|constructor|].
  by eapply anchored_not_self.
Qed.

Lemma NoDup_store_length st l :
  NoDup l -> (forall x, x ∈ l -> is_Some (st !! x)) -> (length l <= size st)%nat.
Proof.
  intros Hnd Hin. rewrite <- size_dom, <- (size_list_to_set (C := gset rloc) l Hnd).
  apply subseteq_size. intros x Hx%elem_of_list_to_set. apply elem_of_dom. auto.
Qed.

Lemma anchored_length st l x : anchored st l x -> (length l <= size st)%nat.
Proof.
  intros H. apply NoDup_store_length; [by eapply anchored_NoDup|]. intros y. by eapply anchored_elem.
Qed.

(** ** Chains and the pointers into them *)

(** The address of the pointer that follows the children [pre] of [root]. *)
Definition tailp root (pre : list rloc) : rptr :=
  match list.last pre with Some x => Psibling x | None => Pchild root end.

Lemma tailp_snoc root pre x : tailp root (pre ++ [x]) = Psibling x.
Proof. unfold tailp. by rewrite last_snoc. Qed.

Lemma tailp_cases root pre :
  (pre = [] /\ tailp root pre = Pchild root) \/
  exists pre' x, pre = pre' ++ [x] /\ tailp root pre = Psibling x.
Proof.
  destruct pre as [|x pre' _] using rev_ind; [by left|right].
  exists pre', x. by rewrite tailp_snoc.
Qed.

Lemma laid_app st lo hi l1 l2 : laid st lo hi (l1 ++ l2) -> laid st lo hi l1 /\ laid st lo hi l2.
Proof. intros [[? ?]%Forall_app (?&?&?)%StronglySorted_app]. done. Qed.

Lemma laid_elem st lo hi l x :
  laid st lo hi l -> x ∈ l ->
  exists r, st !! x = Some r /\ lo <= start r /\ start r <= end_ r /\ end_ r <= hi.
Proof. intros [Hf _] Hx. rewrite list.Forall_forall in Hf. by apply Hf. Qed.

Lemma laid_NoDup st lo hi l : laid st lo hi l -> NoDup l.
Proof.
  intros [Hf Hs]. induction Hs as [|x l Hs IH Hx]; constructor.
  - intros Hin. rewrite list.Forall_forall in Hx. destruct (Hx _ Hin) as (r&r'&?&?&?).
    inversion Hf as [|?? (q&?&?&?&?)]. simplify_eq. lia.
  - apply IH. by inversion Hf.
Qed.

(** Two children never share an address of the range. *)
Lemma laid_apart st lo hi l x y r r' :
  laid st lo hi l -> x ∈ l -> y ∈ l -> st !! x = Some r -> st !! y = Some r' ->
  x = y \/ end_ r < start r' \/ end_ r' < start r.
Proof.
  intros [_ Hs] Hx Hy Hr Hr'. induction Hs as [|z l Hs IH Hz]; [by apply not_elem_of_nil in Hx|].
  rewrite list.Forall_forall in Hz.
  apply elem_of_cons in Hx as [->|Hx], Hy as [->|Hy]; auto.
  - destruct (Hz _ Hy) as (?&?&?&?&?). simplify_eq. auto.
  - destruct (Hz _ Hx) as (?&?&?&?&?). simplify_eq. auto.
Qed.

Lemma laid_length st lo hi l : laid st lo hi l -> (length l <= size st)%nat.
Proof.
  intros Hl. apply NoDup_store_length; [by eapply laid_NoDup|].
  intros x Hx. destruct (laid_elem _ _ _ _ _ Hl Hx) as (r&->&_). eauto.
Qed.

(** A range that fits between the children [l1] and [l2] can be added there. *)
Lemma laid_insert st lo hi l1 l2 new r :
  laid st lo hi (l1 ++ l2) -> st !! new = Some r ->
  lo <= start r -> start r <= end_ r -> end_ r <= hi ->
  (forall x, x ∈ l1 -> before st x new) -> (forall x, x ∈ l2 -> before st new x) ->
  laid st lo hi (l1 ++ new :: l2).
Proof.
  intros [[Hf1 Hf2]%Forall_app (Ha&Hs1&Hs2)%StronglySorted_app] Hr ??? Hb1 Hb2. split.
  - apply Forall_app. split; [done|]. constructor; [|done]. exists r. done.
  - apply StronglySorted_app. split_and!; [|done|].
    + intros x y Hx [->|Hy]%elem_of_cons; auto.
    + constructor; [done|]. rewrite list.Forall_forall. auto.
Qed.

Lemma laid_sublist st lo hi l l' : l' `sublist_of` l -> laid st lo hi l -> laid st lo hi l'.
Proof.
  intros Hsub [Hf Hs]. split.
  - rewrite list.Forall_forall in *. intros x Hx. apply Hf. by eapply elem_of_sublist.
  - clear Hf. induction Hsub as [|x l1 l2 Hsub IH|x l1 l2 Hsub IH]; [done| |].
    + inversion Hs as [|?? Hs2 Hx]; subst. constructor; [by apply IH|].
      rewrite list.Forall_forall in *. intros y Hy. apply Hx. by eapply elem_of_sublist.
    + inversion Hs; subst. by apply IH.
Qed.

Section WF.
Context {st : rstore} {K : rloc -> list rloc} (W : wf st K).

Lemma wf_child p c : c ∈ K p ->
  exists rp rc, st !! p = Some rp /\ st !! c = Some rc /\ parent rc = Some p /\
    start rp <= start rc /\ start rc <= end_ rc /\ end_ rc <= end_ rp.
Proof.
  intros Hc. pose proof (proj1 (wf_link _ _ W p c) Hc) as Hp. apply fld_inv in Hp as (rc&Hrc&Hp).
  destruct (wf_anch _ _ W c ltac:(eauto)) as [l Hl].
  inversion Hl as [z Hz|z q l' Hz Hl']; subst; rewrite (fld_Some _ _ _ _ Hrc) in Hz; [congruence|].
  assert (q = p) as -> by congruence.
  destruct (anchored_elem _ _ _ p Hl' (anchored_head _ _ _ Hl')) as [rp Hrp].
  destruct (laid_elem _ _ _ _ _ (wf_laid _ _ W _ _ Hrp) Hc) as (?&?&?). simplify_eq.
  exists rp, rc. done.
Qed.

Lemma wf_kids_disjoint p q c : c ∈ K p -> c ∈ K q -> p = q.
Proof. rewrite !(wf_link _ _ W). congruence. Qed.

Lemma wf_not_own p : p ∉ K p.
Proof.
  intros Hin. destruct (wf_child _ _ Hin) as (r&?&Hr&?&?&_). simplify_eq.
  destruct (wf_anch _ _ W p ltac:(eauto)) as [l Hl].
  eapply (anchored_not_self st l p p); [by rewrite (fld_Some _ _ _ _ Hr); f_equal|done|by eapply anchored_head].
Qed.

Lemma wf_NoDup p : NoDup (K p).
Proof.
  destruct (K p) as [|c l] eqn:E; [constructor|]. rewrite <- E.
  destruct (wf_child p c) as (r&_&Hr&_); [rewrite E; left|].
  eapply laid_NoDup. by eapply wf_laid.
Qed.

(** Loading the pointer after the children [pre]. *)
Lemma ldp_tailp p r pre post :
  st !! p = Some r -> K p = pre ++ post -> ldp (tailp p pre) st = Some (head post, st).
Proof.
  intros Hr HK. pose proof (wf_chain _ _ W _ _ Hr) as Hc. rewrite HK in Hc.
  unfold chain in Hc. rewrite seg_app in Hc. destruct Hc as (m&H1&H2).
  apply chain_head in H2 as ->. unfold ldp, mbind, ResM_bind, SM_bind, ldr.
  destruct (tailp_cases p pre) as [[-> ->]|(pre'&x&->&->)].
  - simpl in H1. rewrite Hr. simpl. by rewrite H1.
  - apply seg_snoc in H1 as [_ (q&Hq&Hs)%fld_inv]. rewrite Hq. simpl. by rewrite Hs.
Qed.
End WF.
