(* ===== verification/ResourceOps.v ===== *)
(** The operations of [kernel/resource.c] on a well-formed tree: what each loop
    computes and how each update changes the tree. *)
From Stdlib Require Import ZArith Lia.
From stdpp Require Import base numbers list list_numbers option gmap sets functions sorting.
From S2P Require Import Prelude Resource ResourceTree.

Local Open Scope Z_scope.
Local Open Scope kernel_scope.

Implicit Types (st : rstore) (x y p c root new : rloc) (l : list rloc) (K : rloc -> list rloc).

(** ** Steps of the monad *)

Lemma ret_bind {A B} (a : A) (k : A -> ResM B) st : (mret a ≫= k) st = k a st.
Proof. done. Qed.

Lemma ldr_bind {B} st x r (k : resource -> ResM B) : st !! x = Some r -> (ldr x ≫= k) st = k r st.
Proof. intros H. unfold ldr, mbind, ResM_bind, SM_bind. by rewrite H. Qed.

Lemma updr_bind {B} st x r f (k : unit -> ResM B) :
  st !! x = Some r -> (updr x f ≫= k) st = k tt (<[x := f r]> st).
Proof. intros H. unfold updr, mbind, ResM_bind, SM_bind. by rewrite H. Qed.

Lemma run_bind {A B} (m : ResM A) (k : A -> ResM B) st a st' :
  m st = Some (a, st') -> (m ≫= k) st = k a st'.
Proof. apply SM_bind_eq. Qed.

Lemma deref_bind {B} x (k : rloc -> ResM B) st : (deref (Some x) ≫= k) st = k x st.
Proof. done. Qed.

Lemma stp_tailp_bind {B} root pre v (k : unit -> ResM B) st x r :
  (pre = [] -> x = root) -> (list.last pre = Some x \/ pre = []) -> st !! x = Some r ->
  (stp (tailp root pre) v ≫= k) st =
  k tt (<[x := if decide (pre = []) then set_child v r else set_sibling v r]> st).
Proof.
  intros Hx Hl Hr. destruct (tailp_cases root pre) as [[-> ->]|(pre'&z&->&->)].
  - rewrite decide_True by done. rewrite <- Hx by done. by apply updr_bind.
  - rewrite decide_False by (by destruct pre'). destruct Hl as [Hl|?]; [|by destruct pre'].
    rewrite last_snoc in Hl. simplify_eq. by apply updr_bind.
Qed.

(** ** Linking and unlinking one child *)

(** [st'] is [st] with the pointer after the children [pre] of [root] set to [v],
    [new]'s sibling and parent set to [sib] and [par]. *)
Record relinked st st' root new (pre : list rloc) (v sib par : option rloc) : Prop := {
  rl_ranges : same_ranges st st';
  rl_flags : forall x, fld flags st' x = fld flags st x;
  rl_parent : forall x, fld parent st' x = if decide (new = x) then Some par else fld parent st x;
  rl_sibling : forall x, fld sibling st' x =
    if decide (new = x) then Some sib
    else if decide (list.last pre = Some x) then Some v else fld sibling st x;
  rl_child : forall x, fld child st' x =
    if decide (root = x /\ pre = []) then Some v else fld child st x
}.

Ltac fields :=
  repeat first [ rewrite fld_insert | rewrite lookup_insert_eq | rewrite lookup_insert_ne by done ];
  repeat case_decide; simplify_eq/=; try done.

Lemma relinked_lookup st st' root new pre v sib par x :
  relinked st st' root new pre v sib par -> is_Some (st' !! x) <-> is_Some (st !! x).
Proof.
  intros R. destruct (rl_ranges _ _ _ _ _ _ _ _ R x) as [H _]. unfold fld in H.
  destruct (st !! x), (st' !! x); simplify_eq/=; split; by intros [? ?].
Qed.

Lemma request_link_run st K root new pre post :
  wf st K -> is_Some (st !! root) -> fld parent st new = Some None -> root <> new -> K root = pre ++ post ->
  exists st', request_link root new (tailp root pre) (head post) st = Some (None, st') /\
    relinked st st' root new pre (Some new) (head post) (Some root).
Proof.
  intros W [rr Hroot] Hnew Hne HK. destruct (fld_inv _ _ _ _ Hnew) as (rn&Hn&Hpn).
  assert (Hx : exists x rx, (pre = [] -> x = root) /\ (list.last pre = Some x \/ pre = []) /\
    st !! x = Some rx /\ new <> x).
  { destruct (tailp_cases root pre) as [[-> _]|(pre'&z&->&_)].
    - exists root, rr. auto.
    - exists z. destruct (wf_child W root z) as (_&rz&_&Hz&Hpz&_).
      { rewrite HK. apply elem_of_app. left. apply elem_of_app. right. by left. }
      exists rz. split_and!; [by destruct pre'|left; by rewrite last_snoc|done|].
      intros ->. congruence. }
  destruct Hx as (x&rx&Hx1&Hx2&Hx3&Hx4).
  unfold request_link.
  rewrite (updr_bind st new rn) by done.
  rewrite (stp_tailp_bind _ _ _ _ _ x rx Hx1 Hx2) by (by rewrite lookup_insert_ne).
  rewrite (updr_bind _ new (set_sibling (head post) rn)) by (by rewrite lookup_insert_ne, lookup_insert_eq).
  eexists. split; [done|]. split.
  - intros y. split; fields; by rewrite ?(fld_Some _ _ _ _ Hn), ?(fld_Some _ _ _ _ Hx3).
  - intros y. fields; by rewrite ?(fld_Some _ _ _ _ Hn), ?(fld_Some _ _ _ _ Hx3).
  - intros y. fields; by rewrite ?(fld_Some _ _ _ _ Hn), ?(fld_Some _ _ _ _ Hx3).
  - intros y. fields; rewrite ?(fld_Some _ _ _ _ Hn), ?(fld_Some _ _ _ _ Hx3); try done; naive_solver.
  - intros y. fields; rewrite ?(fld_Some _ _ _ _ Hn), ?(fld_Some _ _ _ _ Hx3); try done; naive_solver.
Qed.

(** [new] does not lie on the path from [root] to the top of its tree. *)
Definition not_above st new root : Prop := forall l, anchored st l root -> new ∉ l.

Lemma wf_range_same st st' :
  same_ranges st st' ->
  (forall x r, st !! x = Some r -> is_u32 (start r) /\ is_u32 (end_ r)) ->
  forall x r, st' !! x = Some r -> is_u32 (start r) /\ is_u32 (end_ r).
Proof.
  intros Hs H x r Hx. destruct (same_ranges_lookup _ _ _ _ (same_ranges_sym _ _ Hs) Hx) as (q&Hq&<-&<-).
  eauto.
Qed.

Lemma wf_no_parent st K x p : wf st K -> fld parent st x = Some None -> x ∉ K p.
Proof. intros W Hx Hin. apply (wf_link _ _ W) in Hin. congruence. Qed.

Lemma wf_last_in st K root pre post x :
  wf st K -> K root = pre ++ post -> list.last pre = Some x -> x ∈ K root /\ x ∉ post.
Proof.
  intros W HK Hl. pose proof (wf_NoDup W root) as Hnd. rewrite HK in Hnd.
  apply NoDup_app in Hnd as (_&Hnd&_). apply last_Some_elem_of in Hl.
  rewrite HK. split; [apply elem_of_app; by left|by apply Hnd].
Qed.

(** The chain of [root] when a sibling pointer in its middle is redirected. *)
Lemma seg_redirect st st' K root pre post v o o' :
  wf st K -> K root = pre ++ post -> o' = (if decide (pre = []) then v else o) ->
  (forall x, x ∈ pre -> list.last pre <> Some x -> fld sibling st' x = fld sibling st x) ->
  (forall x, list.last pre = Some x -> fld sibling st' x = Some v) ->
  seg st o pre (head post) -> seg st' o' pre v.
Proof.
  intros W HK -> Hag Hlast Hseg. destruct (tailp_cases root pre) as [[-> _]|(pre'&z&->&_)]; [done|].
  rewrite decide_False by (by destruct pre').
  apply seg_snoc in Hseg as [H1 H2]. apply seg_snoc. split; [|apply Hlast; by rewrite last_snoc].
  eapply seg_agree; [|done]. intros x Hx. apply Hag; [apply elem_of_app; by left|].
  rewrite last_snoc. intros [= <-].
  pose proof (wf_NoDup W root) as Hnd. rewrite HK in Hnd.
  apply NoDup_app in Hnd as (Hnd&_&_). apply NoDup_app in Hnd as (_&Hnd&_).
  apply (Hnd _ Hx). by left.
Qed.

(** Every other chain is left alone. *)
Lemma relinked_other_chain st st' K root new pre post v sib par x r r' :
  wf st K -> relinked st st' root new pre v sib par -> K root = pre ++ post -> new ∉ K x ->
  x <> root -> st !! x = Some r -> st' !! x = Some r' -> chain st' (child r') (K x).
Proof.
  intros W R HK Hnew Hne Hr Hr'. pose proof (rl_child _ _ _ _ _ _ _ _ R x) as Hc.
  rewrite decide_False in Hc by (by intros [-> _]).
  rewrite (fld_Some _ _ _ _ Hr), (fld_Some _ _ _ _ Hr') in Hc. simplify_eq. rewrite Hc.
  eapply seg_agree; [|by eapply wf_chain]. intros y Hy. rewrite (rl_sibling _ _ _ _ _ _ _ _ R).
  rewrite decide_False by (by intros ->). rewrite decide_False; [done|]. intros Hl.
  destruct (wf_last_in _ _ _ _ _ _ W HK Hl) as [Hin _].
  destruct (wf_kids_disjoint W _ _ _ Hin Hy). done.
Qed.

Lemma relinked_root_seg st st' K root new pre post v sib par r r' :
  wf st K -> relinked st st' root new pre v sib par -> K root = pre ++ post -> new ∉ pre ->
  st !! root = Some r -> st' !! root = Some r' -> seg st' (child r') pre v.
Proof.
  intros W R HK Hnew Hr Hr'. pose proof (wf_chain _ _ W _ _ Hr) as Hc. rewrite HK in Hc.
  unfold chain in Hc. apply seg_app in Hc as (m&H1&H2). apply chain_head in H2 as ->.
  pose proof (rl_child _ _ _ _ _ _ _ _ R root) as Hch.
  rewrite (fld_Some _ _ _ _ Hr), (fld_Some _ _ _ _ Hr') in Hch.
  eapply (seg_redirect st st' K root pre post v (child r)); [done|done| | | |done].
  - repeat case_decide; naive_solver.
  - intros x Hx Hl. rewrite (rl_sibling _ _ _ _ _ _ _ _ R).
    rewrite decide_False by (by intros ->). by rewrite decide_False.
  - intros x Hl. rewrite (rl_sibling _ _ _ _ _ _ _ _ R).
    rewrite decide_False by (intros ->; by apply last_Some_elem_of in Hl). by rewrite decide_True.
Qed.

Lemma relinked_post_seg st st' K root new pre mid post v sib par o :
  wf st K -> relinked st st' root new pre v sib par -> K root = pre ++ mid ++ post -> new ∉ post ->
  seg st o post None -> seg st' o post None.
Proof.
  intros W R HK Hnew. apply seg_agree. intros y Hy. rewrite (rl_sibling _ _ _ _ _ _ _ _ R).
  rewrite decide_False by (by intros ->). rewrite decide_False; [done|]. intros Hl.
  destruct (wf_last_in _ _ _ _ _ _ W HK Hl) as [_ Hnin]. apply Hnin, elem_of_app. by right.
Qed.

Lemma linked_chain st st' K root new pre post x r' :
  wf st K -> relinked st st' root new pre (Some new) (head post) (Some root) ->
  fld parent st new = Some None -> K root = pre ++ post -> st' !! x = Some r' ->
  chain st' (child r') ((<[root := pre ++ new :: post]> K) x).
Proof.
  intros W R Hnp HK Hx. assert (Hnew : forall x, new ∉ K x) by (intros y; by eapply wf_no_parent).
  pose proof (Hnew root) as Hnr. rewrite HK in Hnr. apply not_elem_of_app in Hnr as [Hn1 Hn2].
  destruct (proj1 (relinked_lookup _ _ _ _ _ _ _ _ x R) ltac:(eauto)) as [r Hr].
  destruct (decide (root = x)) as [<-|Hne].
  - rewrite fn_lookup_insert. unfold chain. apply seg_app. exists (Some new). split.
    { by eapply relinked_root_seg. }
    simpl. split; [done|].
    pose proof (rl_sibling _ _ _ _ _ _ _ _ R new) as Hs. rewrite decide_True in Hs by done.
    apply fld_inv in Hs as (q&Hq&Hs). exists q. split; [done|]. rewrite Hs.
    eapply (relinked_post_seg _ _ _ _ _ _ []); [done..|].
    pose proof (wf_chain _ _ W _ _ Hr) as Hc. rewrite HK in Hc.
    unfold chain in Hc. apply seg_app in Hc as (m&_&H2). by rewrite <- (chain_head _ _ _ H2).
  - rewrite fn_lookup_insert_ne by done. by eapply relinked_other_chain.
Qed.

(** A top resource [new] put under [root]: every path still reaches the top. *)
Lemma anchored_graft st st' root new :
  (forall x, fld parent st' x = if decide (new = x) then Some (Some root) else fld parent st x) ->
  not_above st new root -> (exists l, anchored st l root) -> fld parent st new = Some None ->
  forall x, (exists l, anchored st l x) -> exists l, anchored st' l x.
Proof.
  intros Hp Hab [lr Hlr] Hnp x [l Hl].
  assert (Hr' : anchored st' lr root).
  { eapply anchored_agree; [|done]. intros y Hy. rewrite Hp, decide_False; [done|].
    intros ->. by apply (Hab lr). }
  induction Hl as [x Hx'|x p l Hx' Hl IH].
  - destruct (decide (new = x)) as [<-|Hne].
    + exists (new :: lr). econstructor; [|done]. by rewrite Hp, decide_True.
    + exists [x]. constructor. by rewrite Hp, decide_False.
  - destruct IH as [l' Hl']. exists (x :: l'). econstructor; [|done].
    rewrite Hp, decide_False; [done|congruence].
Qed.

(** Linking [new] between [pre] and [post] keeps the tree well formed. *)
Lemma wf_linked st st' K root new pre post rr rn :
  wf st K -> relinked st st' root new pre (Some new) (head post) (Some root) ->
  st !! root = Some rr -> st !! new = Some rn -> parent rn = None -> not_above st new root ->
  K root = pre ++ post ->
  start rr <= start rn -> start rn <= end_ rn -> end_ rn <= end_ rr ->
  (forall x, x ∈ pre -> before st x new) -> (forall x, x ∈ post -> before st new x) ->
  wf st' (<[root := pre ++ new :: post]> K).
Proof.
  intros W R Hroot Hn Hpar Hab HK ??? Hpre Hpost.
  assert (Hnp : fld parent st new = Some None) by (by rewrite (fld_Some _ _ _ _ Hn), Hpar).
  split.
  - intros x r'. by eapply linked_chain.
  - intros x r' Hx.
    destruct (same_ranges_lookup _ _ _ _ (same_ranges_sym _ _ (rl_ranges _ _ _ _ _ _ _ _ R)) Hx) as (r&Hr&<-&<-).
    apply (laid_same st); [by eapply rl_ranges|].
    destruct (decide (root = x)) as [<-|Hne].
    + rewrite fn_lookup_insert. simplify_eq. eapply laid_insert; eauto. rewrite <- HK. by eapply wf_laid.
    + rewrite fn_lookup_insert_ne by done. by eapply wf_laid.
  - intros p c. rewrite (rl_parent _ _ _ _ _ _ _ _ R). destruct (decide (new = c)) as [<-|Hc].
    + split; [|intros [= <-]; rewrite fn_lookup_insert; apply elem_of_app; right; left].
      intros Hin. destruct (decide (root = p)) as [<-|Hne]; [done|].
      rewrite fn_lookup_insert_ne in Hin by done. by eapply wf_no_parent in Hin.
    + rewrite <- (wf_link _ _ W). destruct (decide (root = p)) as [<-|Hne].
      * rewrite fn_lookup_insert, HK, !elem_of_app, elem_of_cons. naive_solver.
      * by rewrite fn_lookup_insert_ne.
  - intros x Hx. apply (relinked_lookup _ _ _ _ _ _ _ _ x R) in Hx.
    eapply (anchored_graft st st' root new); [apply R|done|apply (wf_anch _ _ W); eauto|done|by apply (wf_anch _ _ W)].
  - eapply wf_range_same; [by eapply rl_ranges|apply W].
Qed.

(** ** Requesting *)

(** The range of [x] meets [s, e]. *)
Definition clash st (s e : Z) x : Prop :=
  exists r, st !! x = Some r /\ start r <= e /\ s <= end_ r.

Lemma request_loop_run st K fuel root new s e pre post :
  wf st K -> is_Some (st !! root) -> K root = pre ++ post -> (length post < fuel)%nat ->
  (forall x, x ∈ pre -> exists r, st !! x = Some r /\ end_ r < s) ->
  exists pre' post', K root = pre' ++ post' /\
    (forall x, x ∈ pre' -> exists r, st !! x = Some r /\ end_ r < s) /\
    ((forall x, x ∈ post' -> exists r, st !! x = Some r /\ e < start r) /\
     request_loop fuel root new s e (tailp root pre) st = request_link root new (tailp root pre') (head post') st \/
     exists x post'', post' = x :: post'' /\ clash st s e x /\
       request_loop fuel root new s e (tailp root pre) st = Some (Some x, st)).
Proof.
  intros W [rr Hroot]. revert pre fuel. induction post as [|x post IH]; intros pre [|fuel] HK Hf Hpre;
    try (simpl in Hf; lia); simpl.
  - exists pre, []. split_and!; [done|done|left]. split; [by intros ? ?%not_elem_of_nil|].
    by rewrite (run_bind _ _ _ _ _ (ldp_tailp W _ _ _ _ Hroot HK)).
  - rewrite (run_bind _ _ _ _ _ (ldp_tailp W _ _ _ _ Hroot HK)). simpl.
    pose proof (wf_laid _ _ W _ _ Hroot) as Hlaid. rewrite HK in Hlaid.
    destruct (laid_elem _ _ _ _ x Hlaid) as (r&Hr&?&?&?); [apply elem_of_app; right; left|].
    rewrite (ldr_bind _ _ _ _ Hr). case_decide as He; [|case_decide as Hs].
    + exists pre, (x :: post). split_and!; [done|done|left]. split; [|done].
      intros y [->|Hy]%elem_of_cons; [eauto|].
      destruct Hlaid as [Hf1 (_&_&Hss)%StronglySorted_app]. inversion Hss as [|?? _ Hb]; subst.
      rewrite list.Forall_forall in Hb. destruct (Hb _ Hy) as (?&q&?&?&?). simplify_eq.
      destruct (laid_elem st (start rr) (end_ rr) (K root) x) as (?&?&?&?&?).
      { by eapply wf_laid. } { rewrite HK. apply elem_of_app; right; left. }
      simplify_eq. exists q. split; [done|lia].
    + rewrite <- (tailp_snoc root pre x). apply IH; [by rewrite <- app_assoc|simpl in Hf; lia|].
      intros y [Hy| ->%list_elem_of_singleton]%elem_of_app; [by apply Hpre|]. eauto.
    + exists pre, (x :: post). split_and!; [done|done|right]. exists x, post. split_and!; [done| |done].
      exists r. split_and!; [done|lia|lia].
Qed.

(** The range of [rn] is one that fits into the range of [rr]. *)
Definition fits (rr rn : resource) : Prop :=
  start rr <= start rn /\ start rn <= end_ rn /\ end_ rn <= end_ rr.

(** The three ways [__request_resource] ends. *)
Inductive request_case st K root new (rr rn : resource) : option (option rloc * rstore) -> Prop :=
| req_bad_range : ~ fits rr rn -> request_case st K root new rr rn (Some (Some root, st))
| req_conflict pre x post :
    fits rr rn -> K root = pre ++ x :: post ->
    (forall y, y ∈ pre -> before st y new) -> clash st (start rn) (end_ rn) x ->
    request_case st K root new rr rn (Some (Some x, st))
| req_linked pre post st' :
    fits rr rn -> K root = pre ++ post ->
    (forall y, y ∈ pre -> before st y new) -> (forall y, y ∈ post -> before st new y) ->
    relinked st st' root new pre (Some new) (head post) (Some root) ->
    request_case st K root new rr rn (Some (None, st')).

Lemma request_run st K root new rr rn :
  wf st K -> st !! root = Some rr -> st !! new = Some rn -> parent rn = None -> root <> new ->
  request_case st K root new rr rn (__request_resource root new st).
Proof.
  intros W Hroot Hn Hpar Hne. unfold __request_resource.
  rewrite (ldr_bind _ _ _ _ Hn), (ldr_bind _ _ _ _ Hroot).
  assert (Hbad : ~ fits rr rn -> request_case st K root new rr rn (Some (Some root, st))) by by constructor.
  unfold fits in Hbad.
  case_decide; [apply Hbad; lia|]. case_decide; [apply Hbad; lia|]. case_decide; [apply Hbad; lia|].
  clear Hbad. unfold fuelled. change (Pchild root) with (tailp root []).
  destruct (request_loop_run st K (S (size st)) root new (start rn) (end_ rn) [] (K root) W)
    as (pre&post&HK&Hpre&Hcase); [eauto|done| |by intros ? ?%not_elem_of_nil|].
  { pose proof (laid_length _ _ _ _ (wf_laid _ _ W _ _ Hroot)). lia. }
  assert (Hb1 : forall y, y ∈ pre -> before st y new).
  { intros y Hy. destruct (Hpre y Hy) as (r&?&?). exists r, rn. done. }
  destruct Hcase as [[Hpost ->]|(x&post'&->&Hcl&->)].
  - destruct (request_link_run st K root new pre post) as (st'&->&Hrel);
      [done|eauto|by rewrite (fld_Some _ _ _ _ Hn), Hpar|done..|].
    econstructor; [unfold fits; lia|done|done| |done].
    intros y Hy. destruct (Hpost y Hy) as (r&?&?). exists rn, r. done.
  - econstructor; [unfold fits; lia|done..].
Qed.

(** ** Releasing *)

Lemma elem_of_split_first (l : list rloc) x :
  x ∈ l -> exists pre post, (l = pre ++ x :: post) /\ x ∉ pre.
Proof.
  induction l as [|y l IH]; [by intros ?%not_elem_of_nil|]. intros Hx.
  destruct (decide (y = x)) as [->|Hne]; [exists [], l; split; [done|apply not_elem_of_nil]|].
  apply elem_of_cons in Hx as [->|Hx]; [done|]. destruct (IH Hx) as (pre&post&->&Hp).
  exists (y :: pre), post. split; [done|]. by apply not_elem_of_cons.
Qed.

Lemma wf_sibling st K root pre x post r :
  wf st K -> K root = pre ++ x :: post -> st !! x = Some r -> sibling r = head post.
Proof.
  intros W HK Hr. destruct (wf_child W root x) as (rr&_&Hroot&_).
  { rewrite HK. apply elem_of_app. right. left. }
  pose proof (wf_chain _ _ W _ _ Hroot) as Hc. rewrite HK in Hc.
  unfold chain in Hc. apply seg_app in Hc as (m&_&_&q&Hq&Hc). simplify_eq. by apply chain_head in Hc.
Qed.

(** The unlinking done by [__release_resource] and [__release_region]. *)
Lemma unlink_run st K root x pre post r :
  wf st K -> K root = pre ++ x :: post -> st !! x = Some r ->
  exists st', (forall B (k : unit -> ResM B), (stp (tailp root pre) (sibling r) ≫= k) st = k tt st') /\
    relinked st st' root x pre (head post) (head post) (Some root) /\ st' !! x = Some r.
Proof.
  intros W HK Hr. pose proof (wf_sibling _ _ _ _ _ _ _ W HK Hr) as Hsib.
  assert (Hx : x ∈ K root) by (rewrite HK; apply elem_of_app; right; left).
  destruct (wf_child W root x Hx) as (rr&?&Hroot&?&Hp&_). simplify_eq.
  assert (Hq : exists q rq, (pre = [] -> q = root) /\ (list.last pre = Some q \/ pre = []) /\
    st !! q = Some rq /\ x <> q).
  { destruct (tailp_cases root pre) as [[-> _]|(pre'&z&->&_)].
    - exists root, rr. split_and!; auto. intros ->. by apply (wf_not_own W) in Hx.
    - exists z. assert (Hz : z ∈ K root).
      { rewrite HK. apply elem_of_app. left. apply elem_of_app. right. by left. }
      destruct (wf_child W root z Hz) as (_&rz&_&Hrz&_).
      exists rz. split_and!; [by destruct pre'|left; by rewrite last_snoc|done|].
      intros ->. pose proof (wf_NoDup W root) as Hnd. rewrite HK in Hnd.
      apply NoDup_app in Hnd as (_&Hnd&_). apply (Hnd z); [|left].
      apply elem_of_app. right. by left. }
  destruct Hq as (q&rq&H1&H2&H3&H4). eexists. split.
  { intros B k. by apply (stp_tailp_bind _ _ _ _ _ q rq). }
  split; [|by rewrite lookup_insert_ne]. rewrite Hsib.
  pose proof (fld_Some parent _ _ _ Hr) as Hpf. rewrite Hp in Hpf.
  pose proof (fld_Some sibling _ _ _ Hr) as Hsf. rewrite Hsib in Hsf.
  split.
  - intros y. split; fields; by rewrite (fld_Some _ _ _ _ H3).
  - intros y. fields; by rewrite (fld_Some _ _ _ _ H3).
  - intros y. fields; rewrite ?(fld_Some _ _ _ _ H3); done.
  - intros y. fields; rewrite ?(fld_Some _ _ _ _ H3); try done; naive_solver.
  - intros y. fields; rewrite ?(fld_Some _ _ _ _ H3); try done; naive_solver.
Qed.

Lemma relinked_set_parent st st' root x pre v sib par par' r :
  relinked st st' root x pre v sib par -> st' !! x = Some r ->
  relinked st (<[x := set_parent par' r]> st') root x pre v sib par'.
Proof.
  intros [R1 R2 R3 R4 R5] Hr. split.
  - eapply same_ranges_trans; [done|]. by eapply same_ranges_insert.
  - intros y. rewrite <- R2. fields. by rewrite (fld_Some _ _ _ _ Hr).
  - intros y. pose proof (R3 y). fields.
  - intros y. pose proof (R4 y). fields. rewrite <- (fld_Some _ _ _ _ Hr). done.
  - intros y. rewrite <- R5. fields. by rewrite (fld_Some _ _ _ _ Hr).
Qed.

Lemma release_loop_run st K fuel root old pre0 pre post :
  wf st K -> is_Some (st !! root) -> K root = pre0 ++ pre ++ old :: post -> old ∉ pre ->
  (length pre < fuel)%nat ->
  exists st', release_loop fuel old (tailp root pre0) st = Some (0, st') /\
    relinked st st' root old (pre0 ++ pre) (head post) (head post) None.
Proof.
  intros W [rr Hroot]. revert pre0 fuel. induction pre as [|x pre IH]; intros pre0 [|fuel] HK Hin Hf;
    try (simpl in Hf; lia); simpl; rewrite (run_bind _ _ _ _ _ (ldp_tailp W _ _ _ _ Hroot HK)); simpl.
  - rewrite decide_True by done. simpl in HK.
    destruct (wf_child W root old) as (_&r&_&Hr&_); [rewrite HK; apply elem_of_app; right; left|].
    rewrite (ldr_bind _ _ _ _ Hr).
    destruct (unlink_run _ _ _ _ _ _ _ W HK Hr) as (st'&Hrun&Hrel&Hr').
    rewrite Hrun, (updr_bind _ _ _ _ _ Hr'). eexists. split; [done|].
    rewrite app_nil_r. by eapply relinked_set_parent.
  - apply not_elem_of_cons in Hin as [Hne Hin]. rewrite decide_False by done.
    rewrite <- (tailp_snoc root pre0 x).
    destruct (IH (pre0 ++ [x]) fuel) as (st'&->&Hrel); [by rewrite <- app_assoc|done|simpl in Hf; lia|].
    rewrite <- app_assoc in Hrel. eauto.
Qed.

(** Releasing a resource that has a parent always finds it. *)
Lemma release_run st K old r p :
  wf st K -> st !! old = Some r -> parent r = Some p ->
  exists pre post st', K p = pre ++ old :: post /\ __release_resource old st = Some (0, st') /\
    relinked st st' p old pre (head post) (head post) None.
Proof.
  intros W Hr Hp. assert (Hin : old ∈ K p) by (apply (wf_link _ _ W); by rewrite (fld_Some _ _ _ _ Hr), Hp).
  destruct (elem_of_split_first _ _ Hin) as (pre&post&HK&Hnin).
  destruct (wf_child W p old Hin) as (rp&_&Hrp&_).
  destruct (release_loop_run st K (S (size st)) p old [] pre post W) as (st'&Hrun&Hrel); [eauto|done..| |].
  { pose proof (laid_length _ _ _ _ (wf_laid _ _ W _ _ Hrp)) as Hl. rewrite HK, length_app in Hl. lia. }
  exists pre, post, st'. split_and!; [done| |done].
  unfold __release_resource. rewrite (ldr_bind _ _ _ _ Hr), Hp, deref_bind. done.
Qed.

Lemma wf_split_notin st K root pre x post :
  wf st K -> K root = pre ++ x :: post -> (x ∉ pre) /\ (x ∉ post).
Proof.
  intros W HK. pose proof (wf_NoDup W root) as Hnd. rewrite HK in Hnd.
  apply NoDup_app in Hnd as (_&Hd&Hnd). split; [|by inversion Hnd].
  intros Hin. apply (Hd _ Hin). left.
Qed.

Lemma unlinked_chain st st' K root old pre post par x r' :
  wf st K -> relinked st st' root old pre (head post) (head post) par ->
  K root = pre ++ old :: post -> st' !! x = Some r' ->
  chain st' (child r') ((<[root := pre ++ post]> K) x).
Proof.
  intros W R HK Hx. destruct (wf_split_notin _ _ _ _ _ _ W HK) as [Hn1 Hn2].
  destruct (proj1 (relinked_lookup _ _ _ _ _ _ _ _ x R) ltac:(eauto)) as [r Hr].
  destruct (decide (root = x)) as [<-|Hne].
  - rewrite fn_lookup_insert. unfold chain. apply seg_app. exists (head post). split.
    { by eapply relinked_root_seg. }
    pose proof (wf_chain _ _ W _ _ Hr) as Hc. rewrite HK in Hc.
    unfold chain in Hc. apply seg_app in Hc as (m&_&_&q&Hq&Hc).
    rewrite (wf_sibling _ _ _ _ _ _ _ W HK Hq) in Hc.
    by eapply (relinked_post_seg _ _ _ _ _ _ [old]).
  - rewrite fn_lookup_insert_ne by done. eapply relinked_other_chain; [done|done|done| |done|done|done].
    intros Hin. destruct Hne. apply (wf_kids_disjoint W _ _ old); [|done].
    rewrite HK. apply elem_of_app; right; left.
Qed.

(** Unlinking [old] keeps the tree well formed. *)
Lemma wf_unlinked st st' K root old pre post :
  wf st K -> relinked st st' root old pre (head post) (head post) None ->
  K root = pre ++ old :: post -> wf st' (<[root := pre ++ post]> K).
Proof.
  intros W R HK. destruct (wf_split_notin _ _ _ _ _ _ W HK) as [Hn1 Hn2].
  assert (Hold : old ∈ K root) by (rewrite HK; apply elem_of_app; right; left).
  split.
  - intros x r'. by eapply unlinked_chain.
  - intros x r' Hx.
    destruct (same_ranges_lookup _ _ _ _ (same_ranges_sym _ _ (rl_ranges _ _ _ _ _ _ _ _ R)) Hx) as (r&Hr&<-&<-).
    apply (laid_same st); [by eapply rl_ranges|]. pose proof (wf_laid _ _ W _ _ Hr) as Hl.
    destruct (decide (root = x)) as [<-|Hne]; [|by rewrite fn_lookup_insert_ne].
    rewrite fn_lookup_insert. eapply laid_sublist; [|done]. rewrite HK.
    apply sublist_app; [done|]. by apply sublist_cons.
  - intros p c. rewrite (rl_parent _ _ _ _ _ _ _ _ R). destruct (decide (old = c)) as [<-|Hc].
    + split; [|done]. intros Hin. destruct (decide (root = p)) as [<-|Hne].
      * rewrite fn_lookup_insert in Hin. by apply elem_of_app in Hin as [?|?].
      * rewrite fn_lookup_insert_ne in Hin by done. destruct Hne. by eapply (wf_kids_disjoint W).
    + rewrite <- (wf_link _ _ W). destruct (decide (root = p)) as [<-|Hne].
      * rewrite fn_lookup_insert, HK, !elem_of_app, elem_of_cons. naive_solver.
      * by rewrite fn_lookup_insert_ne.
  - intros x Hx. apply (relinked_lookup _ _ _ _ _ _ _ _ x R) in Hx.
    destruct (wf_anch _ _ W x Hx) as [l Hl]. clear Hx. induction Hl as [x Hx|x p l Hx Hl [l' IH]].
    + exists [x]. constructor. rewrite (rl_parent _ _ _ _ _ _ _ _ R). by case_decide.
    + destruct (decide (old = x)) as [<-|Hne].
      * exists [old]. constructor. rewrite (rl_parent _ _ _ _ _ _ _ _ R). by rewrite decide_True.
      * exists (x :: l'). econstructor; [|done]. rewrite (rl_parent _ _ _ _ _ _ _ _ R). by rewrite decide_False.
  - eapply wf_range_same; [by eapply rl_ranges|apply W].
Qed.
