(* ===== verification/ResourceAlloc.v ===== *)
(** The search of [find_resource]: the loop against a pure first-fit search over
    the gaps between the children, and what that search finds. *)
From Stdlib Require Import ZArith Lia.
From stdpp Require Import base numbers list list_numbers option gmap sets functions sorting.
From S2P Require Import Prelude Resource ResourceTree ResourceOps.

Local Open Scope Z_scope.
Local Open Scope kernel_scope.

Implicit Types (st : rstore) (x y p c root new : rloc) (l : list rloc) (K : rloc -> list rloc).

(** ** First fit over the gaps *)

Section FirstFit.
Context (size min max align : Z) (alignf : option alignfn).

Definition gap_ok (g : Z * Z) : Prop := g.1 < g.2 /\ size -u 1 <= g.2 -u g.1.

Global Instance gap_ok_dec g : Decision (gap_ok g).
Proof. unfold gap_ok. apply _. Defined.

(** The gap before a child [a, b] ends at [a - 1], the next one starts at [b + 1]. *)
Fixpoint first_fit (s : Z) (rs : list (Z * Z)) (rend : Z) : bool * (Z * Z) :=
  let g := fit_gap size min max align alignf s (match rs with (a, _) :: _ => a -u 1 | [] => rend end) in
  if decide (gap_ok g) then (true, (g.1, g.1 +u size -u 1))
  else match rs with
       | [] => (false, g)
       | (_, b) :: rs => first_fit (b +u 1) rs rend
       end.

Definition range_of st x : Z * Z :=
  match st !! x with Some r => (start r, end_ r) | None => (0, 0) end.

Lemma set_range_twice s e s' e' r : set_range s' e' (set_range s e r) = set_range s' e' r.
Proof. done. Qed.

Lemma find_loop_run st fuel root new this post rr rn :
  root <> new -> st !! root = Some rr -> st !! new = Some rn -> new ∉ post -> seg st this post None ->
  (length post < fuel)%nat ->
  let '(ok, (s, e)) := first_fit (start rn) (range_of st <$> post) (end_ rr) in
  find_loop fuel root new size min max align alignf this st =
    Some (if ok then 0 else - EBUSY, <[new := set_range s e rn]> st).
Proof.
  intros Hne. revert st this fuel rn. induction post as [|x post IH];
    intros st this [|fuel] rn Hroot Hnew Hnin Hseg Hf; try (simpl in Hf; lia); simpl.
  - simpl in Hseg. subst this. rewrite (ldr_bind _ _ _ _ Hroot), (ldr_bind _ _ _ _ Hnew), ret_bind.
    destruct (fit_gap _ _ _ _ _ _ _) as [s e] eqn:Eg. unfold gap_ok; simpl.
    case_decide; case_decide; try tauto; by rewrite (updr_bind _ _ _ _ _ Hnew).
  - destruct Hseg as (->&r&Hr&Hseg). apply not_elem_of_cons in Hnin as [Hxn Hnin].
    rewrite (ldr_bind _ _ _ _ Hroot), (ldr_bind _ _ _ _ Hnew).
    rewrite (run_bind _ _ st (start r -u 1) st) by (by rewrite (ldr_bind _ _ _ _ Hr)).
    assert (Hrg : range_of st x = (start r, end_ r)) by (unfold range_of; by rewrite Hr).
    rewrite Hrg. simpl. destruct (fit_gap _ _ _ _ _ _ _) as [s e] eqn:Eg. unfold gap_ok at 1; simpl.
    case_decide; case_decide; try tauto; [by rewrite (updr_bind _ _ _ _ _ Hnew)|]. rewrite (updr_bind _ _ _ _ _ Hnew).
    rewrite (ldr_bind _ x r) by (by rewrite lookup_insert_ne).
    rewrite (updr_bind _ new (set_range s e rn)) by (by rewrite lookup_insert_eq).
    rewrite insert_insert_eq.
    specialize (IH (<[new := set_range (end_ r +u 1) e (set_range s e rn)]> st) (sibling r) fuel
      (set_range (end_ r +u 1) e (set_range s e rn))).
    replace (range_of (<[new:=set_range (end_ r +u 1) e (set_range s e rn)]> st) <$> post)
      with (range_of st <$> post) in IH.
    2: { apply list_fmap_ext. intros i y Hy. unfold range_of. rewrite lookup_insert_ne; [done|].
         intros ->. apply Hnin. by eapply list_elem_of_lookup_2. }
    simpl in IH.
    destruct (first_fit _ _ _) as [ok [s' e']]. rewrite insert_insert_eq in IH. apply IH.
    + by rewrite lookup_insert_ne.
    + by rewrite lookup_insert_eq.
    + done.
    + eapply seg_agree; [|done]. intros y Hy. rewrite fld_insert, decide_False; [done|]. by intros ->.
    + simpl in Hf. lia.
Qed.

(** Where the search starts. *)
Definition search_from (rr : resource) (rs : list (Z * Z)) : bool * (Z * Z) :=
  match rs with
  | (a, b) :: rs' =>
    if decide (a = 0) then first_fit (b +u 1) rs' (end_ rr) else first_fit (start rr) rs (end_ rr)
  | [] => first_fit (start rr) [] (end_ rr)
  end.

Lemma find_resource_run st K root new rr rn :
  wf st K -> root <> new -> st !! root = Some rr -> st !! new = Some rn -> parent rn = None ->
  let '(ok, (s, e)) := search_from rr (range_of st <$> K root) in
  find_resource root new size min max align alignf st =
    Some (if ok then 0 else - EBUSY, <[new := set_range s e rn]> st).
Proof.
  intros W Hne Hroot Hn Hpar. unfold find_resource. rewrite (ldr_bind _ _ _ _ Hroot), (updr_bind _ _ _ _ _ Hn).
  assert (Hnin : new ∉ K root) by (eapply wf_no_parent; [done|by rewrite (fld_Some _ _ _ _ Hn), Hpar]).
  pose proof (wf_chain _ _ W _ _ Hroot) as Hc. pose proof (laid_length _ _ _ _ (wf_laid _ _ W _ _ Hroot)) as Hlen.
  assert (Hsz : forall r, base.size (<[new := r]> st) = base.size st).
  { intros r. apply map_size_insert_Some. eauto. }
  assert (Hrun : forall r this post, new ∉ post -> seg st this post None -> (length post <= base.size st)%nat ->
    let '(ok, (s, e)) := first_fit (start r) (range_of st <$> post) (end_ rr) in
    fuelled (fun fuel => find_loop fuel root new size min max align alignf this) (<[new := r]> st) =
      Some (if ok then 0 else - EBUSY, <[new := set_range s e r]> st)).
  { intros r this post Hnp Hseg Hl.
    pose proof (find_loop_run (<[new := r]> st) (S (base.size st)) root new this post rr r Hne) as HF.
    replace (range_of (<[new:=r]> st) <$> post) with (range_of st <$> post) in HF.
    2: { apply list_fmap_ext. intros i y Hy. unfold range_of. rewrite lookup_insert_ne; [done|].
         intros ->. apply Hnp. by eapply list_elem_of_lookup_2. }
    unfold fuelled. rewrite Hsz. destruct (first_fit _ _ _) as [ok [s e]].
    rewrite insert_insert_eq in HF. apply HF; [by rewrite lookup_insert_ne|by rewrite lookup_insert_eq|done| |lia].
    eapply seg_agree; [|done]. intros y Hy. rewrite fld_insert, decide_False; [done|]. by intros ->. }
  destruct (K root) as [|x post] eqn:HK.
  - unfold chain in Hc. simpl in Hc. rewrite Hc, ret_bind. simpl search_from.
    apply (Hrun (set_range (start rr) (end_ rn) rn) None []); [done|done|simpl; lia].
  - unfold chain in Hc. destruct Hc as (->&r&Hr&Hseg). apply not_elem_of_cons in Hnin as [Hxn Hnin].
    simpl in Hlen. simpl search_from. unfold range_of at 1. rewrite Hr. case_decide as Hz.
    + erewrite run_bind.
      2: { rewrite (ldr_bind _ x r) by (by rewrite lookup_insert_ne). rewrite decide_True by done.
           rewrite (updr_bind _ new (set_range (start rr) (end_ rn) rn)) by (by rewrite lookup_insert_eq).
           rewrite insert_insert_eq. done. }
      apply (Hrun (set_range (end_ r +u 1) (end_ rn) rn) (sibling r) post); [done|done|lia].
    + erewrite run_bind.
      2: { rewrite (ldr_bind _ x r) by (by rewrite lookup_insert_ne). rewrite decide_False by done. done. }
      apply (Hrun (set_range (start rr) (end_ rn) rn) (Some x) (x :: post)); [by apply not_elem_of_cons| |simpl; lia].
      simpl. eauto.
Qed.

(** The callback leaves 32-bit values. *)
Definition alignf_u32 : Prop :=
  match alignf with
  | Some f => forall s e, is_u32 s -> is_u32 e -> is_u32 (f s e size align).1 /\ is_u32 (f s e size align).2
  | None => True
  end.

Lemma fit_gap_u32 s e :
  alignf_u32 -> is_u32 max -> is_u32 e ->
  is_u32 (fit_gap size min max align alignf s e).1 /\ is_u32 (fit_gap size min max align alignf s e).2.
Proof.
  intros Ha Hm He. unfold fit_gap, alignf_u32 in *.
  set (x := align_up _ align). set (y := if decide (max < e) then max else e).
  assert (is_u32 x) by (apply is_u32_land_l, u32_range).
  assert (is_u32 y) by (unfold y; by case_decide).
  destruct alignf; [by apply Ha|done].
Qed.

Lemma first_fit_u32 s rs rend :
  alignf_u32 -> is_u32 max -> is_u32 rend ->
  is_u32 (first_fit s rs rend).2.1 /\ is_u32 (first_fit s rs rend).2.2.
Proof.
  intros Ha Hm Hr. revert s. induction rs as [|[a b] rs IH]; intros s; cbn [first_fit].
  - destruct (fit_gap_u32 s rend Ha Hm Hr). case_decide; [|done]. split; [done|apply u32_range].
  - destruct (fit_gap_u32 s (a -u 1) Ha Hm ltac:(apply u32_range)). case_decide; [|done]. split; [done|apply u32_range].
Qed.

Lemma search_from_u32 rr rs :
  alignf_u32 -> is_u32 max -> is_u32 (end_ rr) ->
  is_u32 (search_from rr rs).2.1 /\ is_u32 (search_from rr rs).2.2.
Proof.
  intros Ha Hm Hr. destruct rs as [|[a b] rs]; unfold search_from; [|case_decide]; by apply first_fit_u32.
Qed.
End FirstFit.

(** ** Rounding up *)

Lemma land_not32_mask (y k : Z) : is_u32 y -> 0 <= k <= 32 -> Z.land y (not32 (2^k - 1)) = y - y `mod` 2^k.
Proof.
  intros Hy Hk.
  assert (E : Z.land y (not32 (2^k - 1)) = Z.ldiff y (Z.ones k)).
  { apply Z.bits_inj'. intros i Hi. rewrite Z.land_spec, Z.ldiff_spec.
    destruct (decide (32 <= i)) as [Hh|Hl]; [by rewrite (testbit_high y 32)|]. f_equal.
    replace (not32 (2^k - 1)) with (Z.lnot (Z.ones k) `mod` 2^32).
    - rewrite Z.mod_pow2_bits_low by lia. by rewrite Z.lnot_spec.
    - rewrite Z.ones_equiv. unfold Z.lnot, not32.
      assert (1 <= 2^k <= 2^32) by (split; [apply (Z.pow_le_mono_r 2 0)|apply Z.pow_le_mono_r]; lia).
      symmetry. apply (Z.mod_unique _ _ (-1)); lia. }
  rewrite E, Z.ldiff_ones_r by lia. rewrite Z.shiftl_mul_pow2, Z.shiftr_div_pow2 by lia.
  rewrite Z.mod_eq by (apply Z.pow_nonzero; lia). lia.
Qed.

(** Without a wrap [ALIGN] gives the next multiple; with one it gives zero. *)
Lemma align_up_spec (x k : Z) :
  is_u32 x -> 0 <= k < 32 ->
  let y := align_up x (2^k) in
  is_u32 y /\ (2^k | y) /\
  (x <= y < x + 2^k \/ y = 0 /\ 2^32 - 2^k < x).
Proof.
  intros Hx Hk. simpl. unfold align_up.
  assert (Hp : 1 <= 2^k <= 2^31) by (split; [apply (Z.pow_le_mono_r 2 0)|apply Z.pow_le_mono_r]; lia).
  rewrite u32_sub_l. rewrite (u32_small (2^k - 1)) by (unfold is_u32 in *; lia).
  rewrite land_not32_mask; [|apply u32_range|lia].
  set (z := u32 (x + 2^k - 1)). assert (Hz : is_u32 z) by apply u32_range.
  pose proof (Z.mod_pos_bound z (2^k) ltac:(lia)) as Hm. pose proof (Z.div_mod z (2^k) ltac:(lia)) as Hd.
  assert (0 <= z / 2^k) by (apply Z.div_pos; unfold is_u32 in *; lia).
  split_and!.
  - unfold is_u32 in *. nia.
  - exists (z / 2^k). nia.
  - destruct (decide (x + 2^k - 1 < 2^32)) as [Hs|Hw].
    + left. assert (z = x + 2^k - 1) by (apply u32_small; unfold is_u32 in *; lia). lia.
    + right. assert (z = x + 2^k - 1 - 2^32).
      { unfold z, u32. symmetry. apply (Z.mod_unique _ _ 1); unfold is_u32 in *; lia. }
      rewrite (Z.mod_small z); unfold is_u32 in *; lia.
Qed.

(** ** What the search finds, without a callback *)

(** Ranges in order inside [lo, hi]. *)
Fixpoint ordered (lo hi : Z) (rs : list (Z * Z)) : Prop :=
  match rs with
  | [] => True
  | (a, b) :: rs => lo <= a /\ a <= b /\ b <= hi /\ ordered (b + 1) hi rs
  end.

Definition avoids (s e : Z) (rs : list (Z * Z)) : Prop := Forall (fun r => e < r.1 \/ r.2 < s) rs.

Lemma ordered_lo lo lo' hi rs : lo' <= lo -> ordered lo hi rs -> ordered lo' hi rs.
Proof. destruct rs as [|[a b] rs]; simpl; intros; [done|]. intuition lia. Qed.

Lemma ordered_avoids lo hi rs s e : ordered lo hi rs -> e < lo -> avoids s e rs.
Proof.
  revert lo. induction rs as [|[a b] rs IH]; intros lo; [constructor|]. simpl. intros (?&?&?&H) He.
  constructor; [simpl; lia|]. eapply IH; [done|lia].
Qed.

Lemma laid_ordered st lo hi l : laid st lo hi l -> ordered lo hi (range_of st <$> l).
Proof.
  intros [Hf Hs]. revert lo Hf. induction Hs as [|x l Hs IH Hx]; intros lo Hf; [done|].
  inversion Hf as [|?? (r&Hr&?&?&?) Hf']; subst. simpl. unfold range_of at 1. rewrite Hr.
  split_and!; [done..|]. apply IH. rewrite list.Forall_forall in *. intros y Hy.
  destruct (Hx y Hy) as (r1&r2&?&?&?). destruct (Hf' y Hy) as (r3&?&?&?&?). simplify_eq.
  eexists. split_and!; [done|lia|done|done].
Qed.

Section Plain.
Context (size min max k : Z).
Hypothesis (Hsize : 1 <= size < 2^32) (Hmin : is_u32 min) (Hmax : is_u32 max) (Hk : 0 <= k < 32).

Local Arguments fit_gap : simpl never.
Local Abbreviation fit := (fit_gap size min max (2^k) None).
Local Abbreviation search := (first_fit size min max (2^k) None).

Lemma size_pred : size -u 1 = size - 1.
Proof using Hsize. apply u32_small. unfold is_u32. lia. Qed.

Lemma fit_ok s0 e0 s e :
  is_u32 s0 -> is_u32 e0 -> fit s0 e0 = (s, e) -> gap_ok size (s, e) ->
  is_u32 s /\ s +u size -u 1 = s + size - 1 /\ s + size - 1 <= max /\ s + size - 1 <= e0 /\ (2^k | s) /\
  (min <= s \/ s = 0) /\ (Z.max s0 min <= s \/ 2^32 - 2^k < Z.max s0 min).
Proof using Hsize Hmin Hmax Hk.
  intros Hs0 He0. unfold fit_gap. set (x := if decide (s0 < min) then min else s0).
  set (e' := if decide (max < e0) then max else e0). intros [= <- <-] [H1 H2]. simpl in *.
  assert (Hx : is_u32 x /\ x = Z.max s0 min) by (unfold x; case_decide; split; [done|lia|done|lia]).
  assert (He' : is_u32 e' /\ e' <= max /\ e' <= e0) by (unfold e'; case_decide; split_and!; done || lia).
  destruct Hx as [Hx Ex]. destruct (align_up_spec x k Hx Hk) as (Hy&Hdiv&Hcase).
  set (y := align_up x (2^k)) in *. rewrite size_pred in H2.
  rewrite (u32_small (e' - y)) in H2 by (unfold is_u32 in *; lia).
  assert (y +u size -u 1 = y + size - 1).
  { rewrite u32_sub_l. apply u32_small. unfold is_u32 in *. lia. }
  split_and!; [done|done|lia|lia|done| |]; destruct Hcase; unfold is_u32 in *; lia.
Qed.

(** Whatever the search returns has the size, the alignment and the limits asked
    for; only an [ALIGN] that wraps gets below [min], at zero. *)
Lemma search_sound s0 rs rend s e :
  is_u32 s0 -> is_u32 rend -> search s0 rs rend = (true, (s, e)) ->
  is_u32 s /\ e = s + size - 1 /\ e <= max /\ (2^k | s) /\ (min <= s \/ s = 0).
Proof using Hsize Hmin Hmax Hk.
  revert s0. induction rs as [|[a b] rs IH]; intros s0 Hs0 Hrend; cbn [first_fit].
  all: destruct (fit_gap _ _ _ _ _ _ _) as [s1 e1] eqn:Ef; case_decide as Hok; simpl.
  - intros [= Es Ee]. destruct (fit_ok s0 rend s1 e1) as (?&E&?&?&?&?&?); [done..|].
    subst s. rewrite E in Ee. by subst e.
  - done.
  - intros [= Es Ee]. destruct (fit_ok s0 (a -u 1) s1 e1) as (?&E&?&?&?&?&?); [done|apply u32_range|done..|].
    subst s. rewrite E in Ee. by subst e.
  - apply IH; [apply u32_range|done].
Qed.

Lemma aligned_limit s1 : (2^k | s1) -> s1 < 2^32 -> s1 <= 2^32 - 2^k.
Proof using Hsize Hk.
  intros [q ->] H. assert (Hp : 1 <= 2^k) by (apply (Z.pow_le_mono_r 2 0); lia).
  assert (E : 2^32 = 2^(32-k) * 2^k) by (rewrite <- Z.pow_add_r by lia; f_equal; lia).
  rewrite E in *. assert (q < 2^(32-k)) by (apply (Z.mul_lt_mono_pos_r (2^k)); lia). nia.
Qed.

(** A gap that holds an aligned range passes the test. *)
Lemma fit_exists s0 e0 s1 :
  2 <= size -> is_u32 s0 -> is_u32 e0 -> (2^k | s1) -> min <= s1 -> s0 <= s1 ->
  s1 + size - 1 <= max -> s1 + size - 1 <= e0 ->
  exists s e, fit s0 e0 = (s, e) /\ gap_ok size (s, e) /\ s0 <= s.
Proof using Hsize Hmin Hmax Hk.
  intros Hs2 Hs0 He0 [q ->] Hm Hs Hmx Hre. unfold fit_gap, gap_ok.
  set (x := if decide (s0 < min) then min else s0).
  set (e' := if decide (max < e0) then max else e0).
  assert (Hx : is_u32 x /\ x = Z.max s0 min) by (unfold x; case_decide; split; [done|lia|done|lia]).
  assert (He' : is_u32 e' /\ e' = Z.min max e0) by (unfold e'; case_decide; split; [done|lia|done|lia]).
  destruct Hx as [Hx Ex]. destruct (align_up_spec x k Hx Hk) as (Hy&[q' Hdiv]&Hcase).
  set (y := align_up x (2^k)) in *. exists y, e'. simpl. split; [done|].
  assert (Hp : 1 <= 2^k) by (apply (Z.pow_le_mono_r 2 0); lia).
  pose proof (aligned_limit (q * 2^k) ltac:(by exists q) ltac:(unfold is_u32 in *; lia)) as Hlim.
  destruct Hcase as [Hc|Hc]; [|lia].
  assert (y <= q * 2^k). { assert (q' < q + 1) by (apply (Z.mul_lt_mono_pos_r (2^k)); lia). nia. }
  rewrite size_pred, (u32_small (e' - y)) by (unfold is_u32 in *; lia). lia.
Qed.

(** If some range would do, the search finds one that is free. *)
Lemma search_complete s0 rs rend s1 :
  2 <= size -> is_u32 s0 -> is_u32 rend -> ordered s0 rend rs ->
  match rs with (a, _) :: _ => 0 < a | [] => True end ->
  (2^k | s1) -> min <= s1 -> s0 <= s1 -> s1 + size - 1 <= max -> s1 + size - 1 <= rend ->
  avoids s1 (s1 + size - 1) rs ->
  exists s e, search s0 rs rend = (true, (s, e)) /\ s0 <= s /\ e <= rend /\ avoids s e rs.
Proof using Hsize Hmin Hmax Hk.
  intros Hs2. revert s0. induction rs as [|[a b] rs IH]; intros s0 Hs0 Hrend Hord Ha Hdiv Hm Hs Hmx Hre Hav.
  - destruct (fit_exists s0 rend s1) as (s&e&Ef&Hok&?); [done..|].
    destruct (fit_ok s0 rend s e) as (?&Ee&?&?&?&?&?); [done..|].
    exists s, (s + size - 1). cbn [first_fit]. rewrite Ef, decide_True by done. simpl. rewrite Ee.
    split_and!; [done|lia|lia|constructor].
  - simpl in Hord. destruct Hord as (?&?&?&Hord). inversion Hav as [|?? Hav1 Hav2]; subst. simpl in Hav1.
    assert (Hea : a -u 1 = a - 1) by (apply u32_small; unfold is_u32 in *; lia).
    cbn [first_fit]. rewrite Hea. assert (Hua : is_u32 (a - 1)) by (unfold is_u32 in *; lia).
    destruct Hav1 as [Hb|Hb].
    + destruct (fit_exists s0 (a - 1) s1) as (s&e&Ef&Hok&?); try done; [lia|].
      destruct (fit_ok s0 (a - 1) s e) as (?&Ee&?&?&?&?&?); [done..|].
      exists s, (s + size - 1). rewrite Ef, decide_True by done. simpl. rewrite Ee.
      split_and!; [done|lia|lia|]. constructor; [simpl; lia|]. eapply ordered_avoids; [done|lia].
    + destruct (fit s0 (a - 1)) as [s e] eqn:Ef. case_decide as Hok.
      * destruct (fit_ok s0 (a - 1) s e) as (?&Ee&?&?&?&?&Hw); [done..|].
        exists s, (s + size - 1). simpl. rewrite Ee. split_and!; [done| |lia|].
        -- pose proof (aligned_limit s1 Hdiv ltac:(unfold is_u32 in *; lia)). lia.
        -- constructor; [simpl; lia|]. eapply ordered_avoids; [done|lia].
      * assert (Eb : b +u 1 = b + 1) by (apply u32_small; unfold is_u32 in *; lia). rewrite Eb.
        destruct (IH (b + 1)) as (s'&e'&Hf&?&?&?); try done; try lia.
        -- unfold is_u32 in *; lia.
        -- destruct rs as [|[a' b'] rs]; [done|]. simpl in Hord. unfold is_u32 in *. lia.
        -- exists s', e'. split_and!; [done|lia|lia|]. constructor; [simpl; lia|done].
Qed.
End Plain.
