(* ===== verification/ResourceInsert.v ===== *)
(** [insert_resource]: a resource that adopts the children it covers. *)
From Stdlib Require Import ZArith Lia.
From stdpp Require Import base numbers list list_numbers option gmap sets functions sorting.
From S2P Require Import Prelude Resource ResourceTree ResourceOps.

Local Open Scope Z_scope.
Local Open Scope kernel_scope.

Implicit Types (st : rstore) (x y p c root new par : rloc) (l : list rloc) (K : rloc -> list rloc).

(** ** The loops *)

(** The loops over the children, with the children from [pre0] on still ahead. *)
Lemma covered_loop_run st K fuel par s e pre x l :
  wf st K -> is_Some (st !! par) -> K par = pre ++ x :: l -> (length l < fuel)%nat ->
  (exists mid post, x :: l = mid ++ post /\ Forall (within st s e) mid /\
     (forall y, y ∈ post -> exists r, st !! y = Some r /\ e < start r) /\
     exists next, list.last mid = Some next /\ covered_loop fuel s e x st = Some (Some next, st)) \/
  (exists y r, y ∈ x :: l /\ st !! y = Some r /\ (start r < s \/ e < end_ r) /\
     (y = x \/ start r <= e) /\ covered_loop fuel s e x st = Some (None, st)).
Proof.
  intros W [rp Hpar]. revert pre x fuel. induction l as [|y l IH]; intros pre x [|fuel] HK Hf;
    try (simpl in Hf; lia); pose proof (wf_laid _ _ W _ _ Hpar) as Hlaid; rewrite HK in Hlaid;
    (destruct (laid_elem _ _ _ _ x Hlaid) as (r&Hr&?&?&?); [apply elem_of_app; right; left|]);
    simpl; rewrite (ldr_bind _ _ _ _ Hr).
  all: case_decide as Hpart; [right; exists x, r; split_and!; [left|done|done|by left|done]|].
  all: rewrite (wf_sibling _ _ _ _ _ _ _ W HK Hr); simpl.
  all: assert (Hwx : within st s e x) by (exists r; split_and!; [done|lia..]).
  - left. exists [x], []. split_and!; [done|by constructor|by intros ? ?%not_elem_of_nil|]. by exists x.
  - destruct (laid_elem _ _ _ _ y Hlaid) as (r'&Hr'&?&?&?); [apply elem_of_app; right; right; left|].
    rewrite (ldr_bind _ _ _ _ Hr'). case_decide as Hy.
    + left. exists [x], (y :: l). split_and!; [done|by constructor| |by exists x].
      intros z [->|Hz]%elem_of_cons; [eauto|].
      destruct Hlaid as [_ (_&_&Hss)%StronglySorted_app]. inversion Hss as [|?? Hss' _]; subst.
      inversion Hss' as [|?? _ Hb]; subst. rewrite list.Forall_forall in Hb.
      destruct (Hb _ Hz) as (?&q&?&?&?). simplify_eq. exists q. split; [done|lia].
    + destruct (IH (pre ++ [x]) y fuel) as [(mid&post&E&Hw&Hp&next&Hl&->)|(z&q&Hz&Hq&Hpq&Hor&->)].
      { by rewrite <- app_assoc. } { simpl in Hf; lia. }
      * left. exists (x :: mid), post. split_and!; [simpl; by f_equal|by constructor|done|].
        exists next. split; [|done]. rewrite last_cons, Hl. done.
      * right. exists z, q. split_and!; [by right|done|done| |done]. right.
        destruct Hor as [->|?]; [|done]. simplify_eq. lia.
Qed.

(** [st'] is [st] with the parent of each resource in [l] set to [new]. *)
Record adopted st st' new l : Prop := {
  ad_parent : forall x, fld parent st' x = if decide (x ∈ l) then Some (Some new) else fld parent st x;
  ad_other : forall {A} (f : resource -> A), (forall q r, f (set_parent q r) = f r) ->
    forall x, fld f st' x = fld f st x
}.

Lemma adopt_loop_run st fuel new o l :
  seg st o l None -> NoDup l -> (length l < fuel)%nat ->
  exists st', adopt_loop fuel new o st = Some (tt, st') /\ adopted st st' new l.
Proof.
  revert st fuel o. induction l as [|x l IH]; intros st [|fuel] o Hseg Hnd Hf; try (simpl in Hf; lia).
  - simpl in Hseg. subst o. exists st. split; [done|]. by split.
  - destruct Hseg as (->&r&Hr&Hseg). inversion Hnd as [|?? Hx Hnd']; subst. simpl.
    rewrite (updr_bind _ _ _ _ _ Hr). rewrite (ldr_bind _ x (set_parent (Some new) r)) by (by rewrite lookup_insert_eq).
    simpl. destruct (IH (<[x := set_parent (Some new) r]> st) fuel (sibling r)) as (st'&->&[A1 A2]).
    { eapply seg_agree; [|done]. intros y Hy. rewrite fld_insert, decide_False; [done|]. by intros ->. }
    { done. } { simpl in Hf; lia. }
    exists st'. split; [done|]. split.
    + intros y. rewrite A1, fld_insert. repeat case_decide; set_solver.
    + intros A f Hf' y. rewrite A2 by done. fields. by rewrite Hf', (fld_Some _ _ _ _ Hr).
Qed.

Lemma before_loop_run st fuel x y l z :
  seg st (Some y) (l ++ [z]) (Some x) -> (x ∉ l ++ [z]) -> (length l < fuel)%nat ->
  before_loop fuel x y st = Some (z, st).
Proof.
  revert y fuel. induction l as [|w l IH]; intros y [|fuel] Hseg Hx Hf; try (simpl in Hf; lia); simpl.
  - destruct Hseg as ([= <-]&r&Hr&Hs). simpl in Hs. rewrite (ldr_bind _ _ _ _ Hr). by rewrite decide_True.
  - destruct Hseg as ([= <-]&r&Hr&Hs). rewrite (ldr_bind _ _ _ _ Hr).
    apply not_elem_of_cons in Hx as [_ Hx].
    assert (Hh : exists w', sibling r = Some w' /\ w' ∈ l ++ [z]).
    { destruct l as [|w' l]; destruct Hs as (->&_); eexists; (split; [done|left]). }
    destruct Hh as (w'&Hw&Hin). rewrite Hw. rewrite decide_False by (intros [= ->]; done).
    rewrite deref_bind. apply IH; [by rewrite <- Hw|done|simpl in Hf; lia].
Qed.

(** ** The effect on the store *)

(** [st'] is [st] with [new] between the children [pre] and [post] of [par] and
    [mid], the children that were there, below [new]. *)
Record inserted st st' par new (pre mid post : list rloc) : Prop := {
  in_ranges : same_ranges st st';
  in_flags : forall x, fld flags st' x = fld flags st x;
  in_parent : forall x, fld parent st' x =
    if decide (new = x) then Some (Some par) else if decide (x ∈ mid) then Some (Some new) else fld parent st x;
  in_sibling : forall x, fld sibling st' x =
    if decide (new = x) then Some (head post) else if decide (list.last mid = Some x) then Some None
    else if decide (list.last pre = Some x) then Some (Some new) else fld sibling st x;
  in_child : forall x, fld child st' x =
    if decide (new = x) then Some (head mid) else if decide (par = x /\ pre = []) then Some (Some new)
    else fld child st x
}.

(** The state before the pointer to [new] is stored. *)
Record detached st st' par new (mid post : list rloc) : Prop := {
  de_ranges : same_ranges st st';
  de_flags : forall x, fld flags st' x = fld flags st x;
  de_parent : forall x, fld parent st' x =
    if decide (new = x) then Some (Some par) else if decide (x ∈ mid) then Some (Some new) else fld parent st x;
  de_sibling : forall x, fld sibling st' x =
    if decide (new = x) then Some (head post) else if decide (list.last mid = Some x) then Some None
    else fld sibling st x;
  de_child : forall x, fld child st' x = if decide (new = x) then Some (head mid) else fld child st x
}.

Lemma same_ranges_size st st' : same_ranges st st' -> size st' = size st.
Proof.
  intros H. rewrite <- !size_dom. f_equal. apply set_eq. intros x. rewrite !elem_of_dom.
  destruct (H x) as [Hx _]. unfold fld in Hx. destruct (st !! x), (st' !! x); simplify_eq/=; split; intros [??]; eauto.
Qed.

(** Storing the pointer to [new]. *)
Lemma inserted_from_detached st st2 par new pre mid post q rq :
  detached st st2 par new mid post -> (pre = [] -> q = par) -> (list.last pre = Some q \/ pre = []) ->
  st2 !! q = Some rq -> new <> q -> list.last mid <> Some q \/ pre = [] ->
  inserted st (<[q := if decide (pre = []) then set_child (Some new) rq else set_sibling (Some new) rq]> st2)
    par new pre mid post.
Proof.
  intros [D1 D2 D3 D4 D5] Hq1 Hq2 Hq Hnq Hmq. split.
  - eapply same_ranges_trans; [done|]. eapply same_ranges_insert; [done|by case_decide..].
  - intros y. rewrite <- D2. fields; by rewrite (fld_Some _ _ _ _ Hq).
  - intros y. rewrite <- D3. fields; by rewrite (fld_Some _ _ _ _ Hq).
  - intros y. pose proof (D4 y) as H. rewrite fld_insert. destruct (decide (q = y)) as [<-|Hy].
    + destruct (decide (new = q)) as [|_]; [done|]. rewrite (fld_Some _ _ _ _ Hq) in H.
      destruct (decide (pre = [])) as [Ep|Ep].
      * rewrite Ep. simpl. rewrite H. by case_decide.
      * rewrite decide_False by naive_solver. rewrite decide_True by naive_solver. done.
    + rewrite H. repeat case_decide; try done. destruct Hq2 as [Hq2|Hq2]; [congruence|]. subst. done.
  - intros y. pose proof (D5 y) as H. rewrite fld_insert. destruct (decide (q = y)) as [<-|Hy].
    + destruct (decide (new = q)) as [|_]; [done|]. rewrite (fld_Some _ _ _ _ Hq) in H.
      destruct (decide (pre = [])) as [Ep|Ep].
      * rewrite decide_True by naive_solver. done.
      * rewrite decide_False by naive_solver. done.
    + rewrite H. repeat case_decide; try done. naive_solver.
Qed.

Section Insert.
Context (st : rstore) (K : rloc -> list rloc) (par new first next : rloc) (pre mid post : list rloc) (rn : resource).
Hypothesis (W : wf st K) (Hn : st !! new = Some rn) (Hpar : parent rn = None) (Hne : par <> new).
Hypothesis (HK : K par = pre ++ mid ++ post) (Hfirst : head mid = Some first) (Hnext : list.last mid = Some next).

Lemma in_new_kids x : new ∉ K x.
Proof using W Hn Hpar. eapply wf_no_parent; [done|]. by rewrite (fld_Some _ _ _ _ Hn), Hpar. Qed.

Lemma in_mid x : x ∈ mid -> x ∈ K par /\ new <> x.
Proof using W Hn Hpar HK.
  intros Hx. assert (x ∈ K par) by (rewrite HK; apply elem_of_app; right; apply elem_of_app; by left).
  split; [done|]. intros <-. by apply in_new_kids in H.
Qed.

Lemma in_par : exists rp, st !! par = Some rp.
Proof using W HK Hnext.
  destruct (wf_child W par next) as (rp&_&?&_); [|eauto].
  rewrite HK. apply elem_of_app; right; apply elem_of_app; left. by apply last_Some_elem_of.
Qed.

(** The segments of the chain of [par]. *)
Lemma in_segs rp : st !! par = Some rp ->
  seg st (child rp) pre (Some first) /\ seg st (Some first) mid (head post) /\ seg st (head post) post None.
Proof using W HK Hfirst Hnext.
  intros Hp. pose proof (wf_chain _ _ W _ _ Hp) as Hc. rewrite HK in Hc. unfold chain in Hc.
  apply seg_app in Hc as (m&H1&(m'&H2&H3)%seg_app). pose proof (chain_head _ _ _ H3) as ->.
  assert (m = Some first) as ->; [|done]. destruct mid as [|x l]; [done|]. simpl in Hfirst, H2. destruct H2. congruence.
Qed.

Lemma in_NoDup : NoDup pre /\ NoDup mid /\ (forall x, x ∈ pre -> (x ∉ mid) /\ (x ∉ post)) /\ (forall x, x ∈ mid -> x ∉ post).
Proof using W HK.
  pose proof (wf_NoDup W par) as H. rewrite HK in H. apply NoDup_app in H as (H1&H2&H3).
  apply NoDup_app in H3 as (H3&H4&_). split_and!; [done|done| |done].
  intros x Hx. specialize (H2 x Hx). by apply not_elem_of_app in H2.
Qed.

(** The assignments up to the adoption loop. *)
Lemma insert_detach :
  exists st', detached st st' par new mid post /\ forall B (k : unit -> ResM B),
    (_ ← updr new (set_parent (Some par));
     _ ← updr new (set_sibling (head post));
     _ ← updr new (set_child (Some first));
     _ ← updr next (set_sibling None);
     u ← fuelled (fun fuel => adopt_loop fuel new (Some first));
     k u) st = k tt st'.
Proof using W Hn Hpar Hne HK Hfirst Hnext.
  destruct in_par as [rp Hp]. destruct (in_segs rp Hp) as (_&Hs&_). destruct in_NoDup as (_&Hnd&_).
  destruct (in_mid next) as [Hnk Hnn]; [by apply last_Some_elem_of|].
  assert (Hnm : new ∉ mid) by (intros Hin; by destruct (in_mid new Hin)).
  destruct (wf_child W par next Hnk) as (_&rx&_&Hx&_).
  set (rn' := set_child (Some first) (set_sibling (head post) (set_parent (Some par) rn))).
  set (st2 := <[next := set_sibling None rx]> (<[new := rn']> st)).
  destruct (adopt_loop_run st2 (S (size st2)) new (Some first) mid) as (st'&Hrun&[A1 A2]).
  - assert (Hm : exists mid', mid = mid' ++ [next]).
    { destruct mid as [|z m _] using rev_ind; [done|]. rewrite last_snoc in Hnext. simplify_eq. eauto. }
    destruct Hm as [mid' Em]. rewrite Em in Hs, Hnd |- *. apply seg_snoc in Hs as [Hs _]. apply seg_snoc. split.
    + eapply seg_agree; [|done]. intros y Hy. unfold st2. rewrite !fld_insert.
      rewrite decide_False; [rewrite decide_False; [done|]|].
      * intros <-. apply Hnm. rewrite Em. apply elem_of_app. by left.
      * intros <-. apply NoDup_app in Hnd as (_&Hd&_). apply (Hd _ Hy). by left.
    + unfold st2. by rewrite fld_insert, decide_True.
  - done.
  - apply Nat.lt_succ_r, NoDup_store_length; [done|]. intros y Hy. destruct (in_mid y Hy) as [Hk Hyn].
    destruct (wf_child W par y Hk) as (_&ry&_&Hry&_). unfold st2.
    destruct (decide (next = y)) as [<-|]; [rewrite lookup_insert_eq; eauto|].
    rewrite !lookup_insert_ne by done. eauto.
  - exists st'. split.
    + split.
      * intros y. split; rewrite A2 by done; unfold st2; fields; by rewrite ?(fld_Some _ _ _ _ Hn), ?(fld_Some _ _ _ _ Hx).
      * intros y. rewrite A2 by done. unfold st2. fields; by rewrite ?(fld_Some _ _ _ _ Hn), ?(fld_Some _ _ _ _ Hx).
      * intros y. rewrite A1. unfold st2. fields; by rewrite ?(fld_Some _ _ _ _ Hx).
      * intros y. rewrite A2 by done. unfold st2. fields; congruence.
      * intros y. rewrite A2 by done. unfold st2. fields; rewrite ?(fld_Some _ _ _ _ Hx); congruence.
    + intros B k. rewrite (updr_bind _ _ _ _ _ Hn).
      rewrite (updr_bind _ new (set_parent (Some par) rn)) by (by rewrite lookup_insert_eq). rewrite insert_insert_eq.
      rewrite (updr_bind _ new (set_sibling (head post) (set_parent (Some par) rn))) by (by rewrite lookup_insert_eq).
      rewrite insert_insert_eq. rewrite (updr_bind _ next rx) by (by rewrite lookup_insert_ne).
      by apply run_bind.
Qed.

Lemma in_last_mid : exists mid', mid = mid' ++ [next].
Proof using Hnext.
  clear HK Hfirst. destruct mid as [|z m _] using rev_ind; [done|]. rewrite last_snoc in Hnext. simplify_eq. eauto.
Qed.

Lemma insert_above_run :
  exists st', insert_above par new first next st = Some (0, st') /\ inserted st st' par new pre mid post.
Proof using W Hn Hpar Hne HK Hfirst Hnext.
  destruct in_par as [rp Hp]. destruct (in_segs rp Hp) as (Hs&Hmid&_). destruct in_NoDup as (Hnp&_&Hd&_).
  destruct insert_detach as (st2&Hdet&Hrun). pose proof Hdet as [D1 D2 D3 D4 D5].
  destruct (wf_child W par next) as (_&rx&_&Hx&_).
  { rewrite HK. apply elem_of_app; right; apply elem_of_app; left. by apply last_Some_elem_of. }
  assert (Hsib : sibling rx = head post).
  { destruct in_last_mid as [mid' Em]. rewrite Em in Hmid. apply seg_snoc in Hmid as [_ Hmid].
    rewrite (fld_Some _ _ _ _ Hx) in Hmid. congruence. }
  unfold insert_above. rewrite (ldr_bind _ _ _ _ Hx), Hsib, Hrun. clear Hrun.
  destruct (same_ranges_lookup _ _ _ _ D1 Hp) as (rp'&Hp'&_).
  rewrite (ldr_bind _ _ _ _ Hp').
  assert (Hcp : child rp' = child rp).
  { pose proof (D5 par) as H. rewrite decide_False in H by done.
    rewrite (fld_Some _ _ _ _ Hp), (fld_Some _ _ _ _ Hp') in H. congruence. }
  rewrite Hcp. destruct (tailp_cases par pre) as [[Ep _]|(pre'&z&Ep&_)].
  - rewrite Ep in Hs. simpl in Hs. rewrite decide_True by done. rewrite (updr_bind _ _ _ _ _ Hp').
    eexists. split; [done|]. pose proof (inserted_from_detached _ _ _ _ pre _ _ par rp' Hdet) as H.
    rewrite decide_True in H by done. apply H; auto.
  - rewrite Ep in Hs, Hd. assert (Hin : z ∈ pre' ++ [z]) by (apply elem_of_app; right; by left).
    assert (Hzm : z ∉ mid) by (by apply (Hd z Hin)).
    assert (Hag : forall y, y ∈ pre' ++ [z] -> fld sibling st2 y = fld sibling st y).
    { intros y Hy. rewrite D4. rewrite decide_False.
      - rewrite decide_False; [done|]. intros Hl. apply (proj1 (Hd y Hy)). by apply last_Some_elem_of.
      - intros <-. apply (in_new_kids par). rewrite HK, Ep. apply elem_of_app. by left. }
    assert (Hseg : seg st2 (child rp) (pre' ++ [z]) (Some first)) by (by eapply seg_agree).
    assert (Hfp : first ∉ pre' ++ [z]).
    { intros Hf. apply (proj1 (Hd _ Hf)). by apply head_Some_elem_of. }
    assert (Hc : exists y, child rp = Some y /\ y ∈ pre' ++ [z]).
    { destruct pre'; simpl in Hseg; destruct Hseg as (->&_); eexists; (split; [done|left]). }
    destruct Hc as (y&Hy&Hyin). rewrite Hy in Hseg |- *.
    rewrite decide_False by (by intros [= ->]). rewrite deref_bind.
    rewrite (run_bind _ _ st2 z st2).
    2: { apply (before_loop_run _ _ _ _ pre'); [done|done|]. rewrite (same_ranges_size _ _ D1).
         apply Nat.lt_succ_r. apply NoDup_store_length; [rewrite Ep in Hnp; by apply NoDup_app in Hnp as [? _]|].
         intros w Hw. eapply seg_elem; [exact Hs|]. apply elem_of_app. by left. }
    destruct (seg_elem _ _ _ _ z Hseg Hin) as [rz Hz]. rewrite (updr_bind _ _ _ _ _ Hz).
    eexists. split; [done|]. pose proof (inserted_from_detached _ _ _ _ pre _ _ z rz Hdet) as H.
    rewrite decide_False in H by (rewrite Ep; by destruct pre').
    apply H; [rewrite Ep; by destruct pre'|left; by rewrite Ep, last_snoc|done| |].
    + intros <-. apply (in_new_kids par). rewrite HK, Ep. apply elem_of_app. by left.
    + left. intros Hl. apply Hzm. by apply last_Some_elem_of.
Qed.

(** ** The tree after the insertion *)

Definition insert_kids : rloc -> list rloc := <[new := mid]> (<[par := pre ++ new :: post]> K).

Section Inserted.
Context (st' : rstore) (I : inserted st st' par new pre mid post).

Lemma inserted_lookup x : is_Some (st' !! x) -> is_Some (st !! x).
Proof using Hne I.
  destruct (in_ranges _ _ _ _ _ _ _ I x) as [H _]. unfold fld in H.
  destruct (st !! x), (st' !! x); simplify_eq/=; by intros [? ?].
Qed.

(** Sibling pointers outside the three places that were written. *)
Lemma inserted_sibling x :
  new <> x -> (list.last mid <> Some x) -> (list.last pre <> Some x) -> fld sibling st' x = fld sibling st x.
Proof using Hne I. intros ???. rewrite (in_sibling _ _ _ _ _ _ _ I). by rewrite !decide_False. Qed.

Lemma inserted_chain_new r' : st' !! new = Some r' -> chain st' (child r') mid.
Proof using W Hn Hpar Hne HK Hfirst Hnext I.
  intros Hr'. pose proof (in_child _ _ _ _ _ _ _ I new) as Hc. rewrite decide_True in Hc by done.
  rewrite (fld_Some _ _ _ _ Hr') in Hc. assert (child r' = Some first) as -> by congruence.
  destruct in_par as [rp Hp]. destruct (in_segs rp Hp) as (_&Hs&_). destruct in_NoDup as (_&Hnd&Hd&_).
  destruct in_last_mid as [mid' Em]. unfold chain. rewrite Em in Hs, Hnd |- *.
  apply seg_snoc in Hs as [Hs _]. apply seg_snoc. split.
  - eapply seg_agree; [|done]. intros y Hy.
    assert (Hym : y ∈ mid) by (rewrite Em; apply elem_of_app; by left).
    apply inserted_sibling; [by apply in_mid| |].
    + rewrite Em, last_snoc. intros [= ->]. apply NoDup_app in Hnd as (_&Hnd&_). apply (Hnd _ Hy). by left.
    + intros Hl%last_Some_elem_of. by apply (proj1 (Hd y Hl)).
  - rewrite (in_sibling _ _ _ _ _ _ _ I). rewrite decide_False, decide_True; [done|done|].
    apply in_mid. rewrite Em. apply elem_of_app. right. by left.
Qed.

Lemma inserted_chain_par r' : st' !! par = Some r' -> chain st' (child r') (pre ++ new :: post).
Proof using W Hn Hpar Hne HK Hfirst Hnext I.
  intros Hr'. destruct in_par as [rp Hp]. destruct (in_segs rp Hp) as (Hs1&_&Hs3).
  destruct in_NoDup as (Hnp&_&Hd&Hd'). pose proof (in_child _ _ _ _ _ _ _ I par) as Hc.
  rewrite decide_False in Hc by done. rewrite (fld_Some _ _ _ _ Hr') in Hc.
  unfold chain. apply seg_app. exists (Some new). split.
  - destruct (tailp_cases par pre) as [[Ep _]|(pre'&z&Ep&_)].
    + rewrite Ep in Hc |- *. rewrite decide_True in Hc by done. simpl. congruence.
    + rewrite decide_False in Hc by (rewrite Ep; intros [_ ?]; by destruct pre').
      rewrite (fld_Some _ _ _ _ Hp) in Hc. injection Hc as Hc. rewrite Hc. rewrite Ep in Hs1, Hnp, Hd |- *.
      apply seg_snoc in Hs1 as [Hs1 _]. apply seg_snoc. split.
      * eapply seg_agree; [|done]. intros y Hy. assert (Hyp : y ∈ pre' ++ [z]) by (apply elem_of_app; by left).
        apply inserted_sibling.
        -- intros <-. apply (in_new_kids par). rewrite HK, Ep. apply elem_of_app. by left.
        -- intros Hl%last_Some_elem_of. by apply (proj1 (Hd y Hyp)).
        -- rewrite Ep, last_snoc. intros [= ->]. apply NoDup_app in Hnp as (_&Hnp&_). apply (Hnp _ Hy). by left.
      * assert (Hz : z ∈ pre' ++ [z]) by (apply elem_of_app; right; by left).
        rewrite (in_sibling _ _ _ _ _ _ _ I). rewrite decide_False, decide_False, decide_True; [done| | |].
        -- by rewrite Ep, last_snoc.
        -- intros Hl%last_Some_elem_of. by apply (proj1 (Hd z Hz)).
        -- intros <-. apply (in_new_kids par). rewrite HK, Ep. apply elem_of_app. by left.
  - simpl. split; [done|]. pose proof (in_sibling _ _ _ _ _ _ _ I new) as Hs. rewrite decide_True in Hs by done.
    apply fld_inv in Hs as (q&Hq&Hs). exists q. split; [done|]. rewrite Hs.
    eapply seg_agree; [|done]. intros y Hy. apply inserted_sibling.
    + intros <-. apply (in_new_kids par). rewrite HK. apply elem_of_app; right; apply elem_of_app; by right.
    + intros Hl%last_Some_elem_of. by apply (Hd' y).
    + intros Hl%last_Some_elem_of. by apply (proj2 (Hd y Hl)).
Qed.

Lemma inserted_chain_other x r' :
  x <> new -> x <> par -> st' !! x = Some r' -> chain st' (child r') (K x).
Proof using W Hn Hpar Hne HK Hnext I.
  intros Hxn Hxp Hr'. destruct (inserted_lookup x ltac:(eauto)) as [r Hr].
  pose proof (in_child _ _ _ _ _ _ _ I x) as Hc.
  rewrite decide_False, decide_False in Hc by (naive_solver congruence).
  rewrite (fld_Some _ _ _ _ Hr), (fld_Some _ _ _ _ Hr') in Hc. simplify_eq. rewrite Hc.
  eapply seg_agree; [|by eapply wf_chain].
  assert (Hother : forall y, y ∈ K x -> y ∈ K par -> False).
  { intros y H1 H2. by destruct (wf_kids_disjoint W _ _ _ H1 H2). }
  intros y Hy. apply inserted_sibling.
  - intros <-. by apply in_new_kids in Hy.
  - intros Hl%last_Some_elem_of. apply (Hother y Hy). rewrite HK. apply elem_of_app; right; apply elem_of_app; by left.
  - intros Hl%last_Some_elem_of. apply (Hother y Hy). rewrite HK. apply elem_of_app; by left.
Qed.

(** Every path still reaches the top. *)
Lemma inserted_anch : not_above st new par -> forall x, is_Some (st' !! x) -> exists l, anchored st' l x.
Proof using W Hn Hpar Hne HK Hfirst Hnext I.
  intros Hab x Hx. apply inserted_lookup in Hx. destruct in_par as [rp Hp].
  destruct (wf_anch _ _ W par ltac:(eauto)) as [lp Hlp].
  assert (Hp' : anchored st' lp par).
  { eapply anchored_agree; [|done]. intros y Hy. rewrite (in_parent _ _ _ _ _ _ _ I).
    rewrite decide_False by (intros <-; by apply (Hab lp)). rewrite decide_False; [done|].
    intros Hm. apply (anchored_not_self st lp y par); [|done|done]. apply (wf_link _ _ W). by apply in_mid. }
  assert (Hn' : anchored st' (new :: lp) new).
  { econstructor; [|done]. rewrite (in_parent _ _ _ _ _ _ _ I). by rewrite decide_True. }
  destruct (wf_anch _ _ W x Hx) as [l Hl]. clear Hx. induction Hl as [x Hx|x p l Hx Hl [l' IH]].
  all: destruct (decide (new = x)) as [<-|Hnx]; [by eexists|].
  all: destruct (decide (x ∈ mid)) as [Hm|Hm].
  1,3: exists (x :: new :: lp); econstructor; [|done]; rewrite (in_parent _ _ _ _ _ _ _ I);
    by rewrite decide_False, decide_True.
  - exists [x]. constructor. rewrite (in_parent _ _ _ _ _ _ _ I). by rewrite !decide_False.
  - exists (x :: l'). econstructor; [|done]. rewrite (in_parent _ _ _ _ _ _ _ I). by rewrite !decide_False.
Qed.

Lemma inserted_link : K new = [] -> forall p c, c ∈ insert_kids p <-> fld parent st' c = Some (Some p).
Proof using W Hn Hpar Hne HK I.
  intros Hkn p c. rewrite (in_parent _ _ _ _ _ _ _ I). unfold insert_kids.
  destruct in_NoDup as (_&_&Hd&Hd'). pose proof (in_new_kids p) as Hnp.
  assert (Hnm : new ∉ mid) by (intros Hin; by destruct (in_mid new Hin)).
  assert (Hmp : forall y, y ∈ mid -> y ∈ K par) by (intros y Hy; by apply in_mid).
  destruct (decide (new = c)) as [<-|Hc]; [|destruct (decide (c ∈ mid)) as [Hm|Hm]].
  all: destruct (decide (new = p)) as [<-|Hp]; [rewrite fn_lookup_insert|rewrite fn_lookup_insert_ne by done].
  all: try (destruct (decide (par = p)) as [<-|Hpp]; [rewrite fn_lookup_insert|rewrite fn_lookup_insert_ne by done]).
  - split; [done|congruence].
  - split; [done|]. intros _. apply elem_of_app. right. left.
  - split; [done|congruence].
  - done.
  - split; [|congruence]. rewrite elem_of_app, elem_of_cons. intros [Hx|[->|Hx]]; [|done|].
    + by destruct (Hd _ Hx).
    + by destruct (Hd' _ Hm).
  - split; [|congruence]. intros Hx. destruct Hpp. eapply (wf_kids_disjoint W); [|done]. by apply Hmp.
  - rewrite <- (wf_link _ _ W), Hkn. split; [done|]. by intros ?%not_elem_of_nil.
  - rewrite <- (wf_link _ _ W), HK, !elem_of_app, elem_of_cons. clear - Hc Hm. intuition congruence.
  - by rewrite <- (wf_link _ _ W).
Qed.

Lemma inserted_laid rp :
  st !! par = Some rp -> fits rp rn -> Forall (within st (start rn) (end_ rn)) mid ->
  (forall x, x ∈ pre -> before st x new) -> (forall x, x ∈ post -> before st new x) ->
  forall x r', st' !! x = Some r' -> laid st' (start r') (end_ r') (insert_kids x).
Proof using W Hn Hne HK I.
  intros Hp (?&?&?) Hmid Hpre Hpost x r' Hx.
  destruct (same_ranges_lookup _ _ _ _ (same_ranges_sym _ _ (in_ranges _ _ _ _ _ _ _ I)) Hx) as (r&Hr&<-&<-).
  apply (laid_same st); [by eapply in_ranges|]. pose proof (wf_laid _ _ W _ _ Hp) as Hlp. rewrite HK in Hlp.
  unfold insert_kids. destruct (decide (new = x)) as [<-|Hnx]; [rewrite fn_lookup_insert|rewrite fn_lookup_insert_ne by done].
  - assert (r = rn) as -> by congruence. split; [done|]. apply laid_app in Hlp as [_ [[_ Hs] _]%laid_app]. done.
  - destruct (decide (par = x)) as [<-|Hpx]; [rewrite fn_lookup_insert|rewrite fn_lookup_insert_ne by done; by eapply wf_laid].
    assert (r = rp) as -> by congruence. eapply laid_insert; [|done..].
    eapply laid_sublist; [|done]. apply sublist_app; [done|]. by apply sublist_inserts_l.
Qed.

Lemma wf_inserted rp :
  st !! par = Some rp -> not_above st new par -> K new = [] -> fits rp rn ->
  Forall (within st (start rn) (end_ rn)) mid ->
  (forall x, x ∈ pre -> before st x new) -> (forall x, x ∈ post -> before st new x) ->
  wf st' insert_kids.
Proof using W Hn Hpar Hne HK Hfirst Hnext I.
  intros Hp Hab Hkn Hfit Hmid Hpre Hpost. split.
  - intros x r' Hx. unfold insert_kids.
    destruct (decide (new = x)) as [<-|Hnx]; [rewrite fn_lookup_insert; by apply inserted_chain_new|].
    rewrite fn_lookup_insert_ne by done.
    destruct (decide (par = x)) as [<-|Hpx]; [rewrite fn_lookup_insert; by apply inserted_chain_par|].
    rewrite fn_lookup_insert_ne by done. by apply inserted_chain_other.
  - by eapply inserted_laid.
  - by apply inserted_link.
  - by apply inserted_anch.
  - eapply wf_range_same; [by eapply in_ranges|apply W].
Qed.
End Inserted.
End Insert.

(** ** The descent *)

(** From [p] to [q] through children that contain the range of [rn]. *)
Inductive descends st K (rn : resource) : rloc -> rloc -> Prop :=
| desc_here p : descends st K rn p p
| desc_down p c rc q : c ∈ K p -> st !! c = Some rc -> fits rc rn -> descends st K rn c q -> descends st K rn p q.

(** Why an insertion below [q] is refused: the range is not one or sticks out of [q],
    or it overlaps a child without containing it or being contained. *)
Definition refused st K (rn : resource) (q : rloc) : Prop :=
  (exists rq, st !! q = Some rq /\ ~ fits rq rn) \/
  exists c rc, c ∈ K q /\ st !! c = Some rc /\ clash st (start rn) (end_ rn) c /\ ~ fits rc rn /\ ~ fits rn rc.

Inductive insert_case st K par new (rn : resource) : option (Z * rstore) -> Prop :=
| ins_refused q : descends st K rn par q -> refused st K rn q -> insert_case st K par new rn (Some (- EBUSY, st))
| ins_done q pre mid post st' :
    descends st K rn par q -> K q = pre ++ mid ++ post ->
    Forall (within st (start rn) (end_ rn)) mid -> same_ranges st st' ->
    wf st' (insert_kids K q new pre mid post) ->
    insert_case st K par new rn (Some (0, st')).

Lemma wf_ext st K K' : (forall x, K x = K' x) -> wf st K -> wf st K'.
Proof. intros E [????]. split; intros *; rewrite <- ?E; eauto. Qed.

Lemma not_above_child st K new p c :
  wf st K -> fld parent st new = Some None -> c ∈ K p -> not_above st new p -> not_above st new c.
Proof.
  intros W Hnp Hc Hab l Hl Hin. apply (wf_link _ _ W) in Hc.
  inversion Hl as [z Hz|z q l' Hz Hl']; subst; [congruence|].
  assert (q = p) as -> by congruence. apply elem_of_cons in Hin as [->|Hin]; [congruence|]. by apply (Hab l').
Qed.

(** The partial overlap that makes the covering loop give up. *)
Lemma covered_refused st K par new rn pre first l y r f :
  wf st K -> st !! new = Some rn -> K par = pre ++ first :: l -> st !! first = Some f ->
  clash st (start rn) (end_ rn) first -> ~ fits f rn -> start rn <= end_ rn ->
  y ∈ first :: l -> st !! y = Some r -> start r < start rn \/ end_ rn < end_ r ->
  y = first \/ start r <= end_ rn -> refused st K rn par.
Proof.
  intros W Hn HK Hf Hcl Hnf Hrn Hy Hr Hpart Hor. right. exists y, r.
  assert (Hin : y ∈ K par) by (rewrite HK; apply elem_of_app; by right).
  destruct (decide (y = first)) as [->|Hne].
  - simplify_eq. split_and!; [done|done|done|done|]. unfold fits. lia.
  - apply elem_of_cons in Hy as [->|Hy]; [done|]. destruct Hor as [->|Hor]; [done|].
    destruct (wf_child W par y Hin) as (rp&?&Hp&?&_&?&?&?). simplify_eq.
    pose proof (wf_laid _ _ W _ _ Hp) as [_ Hs]. rewrite HK in Hs. apply StronglySorted_app in Hs as (_&_&Hs).
    inversion Hs as [|?? _ Hb]; subst. rewrite list.Forall_forall in Hb. destruct (Hb _ Hy) as (?&?&?&?&?).
    destruct Hcl as (?&?&?&?). simplify_eq.
    split_and!; [done|done|exists r; split_and!; [done|lia..]|unfold fits; lia|unfold fits; lia].
Qed.

Lemma insert_begin_run st K fuel par new rn l :
  wf st K -> st !! new = Some rn -> parent rn = None -> K new = [] -> par <> new -> not_above st new par ->
  anchored st l par -> (size st < length l + fuel)%nat ->
  insert_case st K par new rn (insert_begin fuel par new st).
Proof.
  intros W Hn Hpn Hkn. revert par l.
  assert (Hnp : fld parent st new = Some None) by (by rewrite (fld_Some _ _ _ _ Hn), Hpn).
  induction fuel as [|fuel IH]; intros par l Hne Hab Hl Hfuel.
  { pose proof (anchored_length _ _ _ Hl). lia. }
  destruct (anchored_elem _ _ _ par Hl (anchored_head _ _ _ Hl)) as [rp Hp]. simpl.
  unfold mbind at 1, ResM_bind at 1, SM_bind at 1.
  destruct (request_run st K par new rp rn W Hp Hn Hpn Hne) as [Hbad|pre x post Hfit HK Hpre Hcl|pre post st' Hfit HK Hpre Hpost Hrel].
  - rewrite decide_True by done.
    eapply (ins_refused _ _ _ _ _ par); [constructor|]. left. eauto.
  - assert (Hx : x ∈ K par) by (rewrite HK; apply elem_of_app; right; left).
    destruct (wf_child W par x Hx) as (_&f&_&Hf&Hpf&_).
    rewrite decide_False by (intros ->; by apply (wf_not_own W) in Hx).
    rewrite (ldr_bind _ _ _ _ Hf), (ldr_bind _ _ _ _ Hn). case_decide as Hin.
    + assert (Hff : fits f rn) by (destruct Hfit as (?&?&?); unfold fits; lia).
      assert (Hxn : x <> new) by (intros ->; by eapply wf_no_parent in Hx).
      destruct (IH x (x :: l)) as [q Hd Hr|q pre' mid post' st' Hd HK' Hm Hsr Hwf];
        [done|by eapply not_above_child| |simpl; lia| |].
      * econstructor; [by rewrite (fld_Some _ _ _ _ Hf), Hpf|done].
      * eapply ins_refused; [by eapply desc_down|done].
      * eapply ins_done; [by eapply desc_down|done..].
    + assert (Hnf : ~ fits f rn) by (intros (?&?&?); lia).
      destruct (covered_loop_run st K (S (size st)) par (start rn) (end_ rn) pre x post W)
        as [(mid&post'&E&Hmid&Hpost&next&Hlast&Hrun)|(y&r&Hy&Hr&Hpart&Hor&Hrun)]; [eauto|done| | |].
      { pose proof (laid_length _ _ _ _ (wf_laid _ _ W _ _ Hp)) as Hlen. rewrite HK, length_app in Hlen. simpl in Hlen. lia. }
      * rewrite (run_bind _ _ st (Some next) st) by done.
        assert (HK' : K par = pre ++ mid ++ post') by (by rewrite HK, E).
        assert (Hhd : head mid = Some x) by (destruct mid; simpl in *; congruence).
        destruct (insert_above_run st K par new x next pre mid post' rn) as (st'&->&Hins); [done..|].
        eapply (ins_done _ _ _ _ _ par pre mid post'); [constructor|done|done|by eapply in_ranges|].
        eapply wf_inserted; try done.
        intros y Hy. destruct (Hpost y Hy) as (r&?&?). exists rn, r. done.
      * rewrite (run_bind _ _ st None st) by done. apply (ins_refused _ _ _ _ _ par); [constructor|].
        destruct Hfit as (?&?&?). by eapply (covered_refused st K par new rn pre x post y r f).
  - eapply (ins_done _ _ _ _ _ par pre [] post); [constructor|done|constructor|by eapply rl_ranges|].
    destruct Hfit as (?&?&?). eapply wf_ext; [|by eapply wf_linked].
    intros y. unfold insert_kids. simpl. destruct (decide (new = y)) as [<-|Hy].
    + rewrite fn_lookup_insert, fn_lookup_insert_ne by done. done.
    + by rewrite (fn_lookup_insert_ne _ new).
Qed.
