(* ===== verification/ResourceRegion.v ===== *)
(** [adjust_resource] and the region functions [__request_region],
    [__check_region] and [__release_region]. *)
From Stdlib Require Import ZArith Lia.
From stdpp Require Import base numbers list list_numbers option gmap sets functions sorting.
From S2P Require Import Prelude Resource ResourceTree ResourceOps ResourceInsert.

Local Open Scope Z_scope.
Local Open Scope kernel_scope.

Implicit Types (st : rstore) (x y p c root new par res : rloc) (l : list rloc) (K : rloc -> list rloc).

(** ** Changing a range *)

Lemma laid_agree st st' lo hi l :
  (forall x, x ∈ l -> st' !! x = st !! x) -> laid st lo hi l -> laid st' lo hi l.
Proof.
  intros Ha [Hf Hs]. split.
  - rewrite list.Forall_forall in *. intros x Hx. destruct (Hf x Hx) as (r&?&?). exists r. by rewrite Ha.
  - eapply StronglySorted_mono; [|done]. intros a b Hin1 Hin2 (r&r'&?&?&?). exists r, r'. by rewrite !Ha.
Qed.

(** A resource that moves to [s, e], clear of its siblings and around its children. *)
Lemma wf_adjusted st K res r par rp pre post s e :
  wf st K -> st !! res = Some r -> st !! par = Some rp -> K par = pre ++ res :: post ->
  is_u32 s -> is_u32 e -> start rp <= s -> s <= e -> e <= end_ rp ->
  Forall (within st s e) (K res) ->
  (forall x, x ∈ pre -> exists q, st !! x = Some q /\ end_ q < s) ->
  (forall x, x ∈ post -> exists q, st !! x = Some q /\ e < start q) ->
  wf (<[res := set_range s e r]> st) K.
Proof.
  intros W Hr Hp HK ????? Hkids Hpre Hpost. destruct (wf_split_notin _ _ _ _ _ _ W HK) as [Hn1 Hn2].
  set (st' := <[res := set_range s e r]> st).
  assert (Hfld : forall A (f : resource -> A), (forall a b q, f (set_range a b q) = f q) ->
    forall x, fld f st' x = fld f st x).
  { intros A f Hf x. unfold st'. fields. by rewrite Hf, (fld_Some _ _ _ _ Hr). }
  assert (Hag : forall l, res ∉ l -> forall x, x ∈ l -> st' !! x = st !! x).
  { intros l Hl x Hx. unfold st'. rewrite lookup_insert_ne; [done|]. by intros ->. }
  assert (Hres : res ∈ K par) by (rewrite HK; apply elem_of_app; right; left).
  split.
  - intros x r' Hx. unfold st' in Hx. destruct (decide (res = x)) as [<-|Hne].
    + rewrite lookup_insert_eq in Hx. simplify_eq. simpl. eapply seg_agree; [|by eapply wf_chain]. intros; by apply Hfld.
    + rewrite lookup_insert_ne in Hx by done. eapply seg_agree; [|by eapply wf_chain]. intros; by apply Hfld.
  - intros x r' Hx. unfold st' in Hx. destruct (decide (res = x)) as [<-|Hne].
    + rewrite lookup_insert_eq in Hx. simplify_eq. simpl. eapply laid_agree; [apply Hag, (wf_not_own W)|].
      split; [done|]. by apply (wf_laid _ _ W _ _ Hr).
    + rewrite lookup_insert_ne in Hx by done. pose proof (wf_laid _ _ W _ _ Hx) as Hlx.
      destruct (decide (par = x)) as [<-|Hpx].
      * simplify_eq. rewrite HK in Hlx |- *.
        eapply (laid_insert _ _ _ _ _ _ (set_range s e r)); [|by unfold st'; rewrite lookup_insert_eq|done..| |].
        -- eapply laid_agree; [apply Hag; by rewrite not_elem_of_app|]. eapply laid_sublist; [|done].
           apply sublist_app; [done|]. by apply sublist_cons.
        -- intros y Hy. destruct (Hpre y Hy) as (q&?&?). exists q, (set_range s e r).
           split_and!; [by rewrite (Hag pre)|unfold st'; by rewrite lookup_insert_eq|done].
        -- intros y Hy. destruct (Hpost y Hy) as (q&?&?). exists (set_range s e r), q.
           split_and!; [unfold st'; by rewrite lookup_insert_eq|by rewrite (Hag post)|done].
      * eapply laid_agree; [|done]. apply Hag. intros Hin. destruct Hpx. by eapply (wf_kids_disjoint W).
  - intros p c. rewrite Hfld by done. apply W.
  - intros x Hx. destruct (wf_anch _ _ W x) as [l Hl].
    { unfold st' in Hx. destruct (decide (res = x)) as [<-|?]; [eauto|]. by rewrite lookup_insert_ne in Hx. }
    exists l. eapply anchored_agree; [|done]. intros; by apply Hfld.
  - intros x r' Hx. unfold st' in Hx. destruct (decide (res = x)) as [<-|Hne].
    + rewrite lookup_insert_eq in Hx. by simplify_eq.
    + rewrite lookup_insert_ne in Hx by done. by eapply wf_range.
Qed.

Lemma inside_loop_run st fuel s e o l :
  seg st o l None -> (length l < fuel)%nat ->
  exists b, inside_loop fuel s e o st = Some (b, st) /\
    if b : bool then forall x, x ∈ l -> exists r, st !! x = Some r /\ s <= start r /\ end_ r <= e
    else exists x r, x ∈ l /\ st !! x = Some r /\ ~ (s <= start r /\ end_ r <= e).
Proof.
  revert o fuel. induction l as [|x l IH]; intros o [|fuel] Hseg Hf; try (simpl in Hf; lia); simpl.
  - simpl in Hseg. subst o. exists true. split; [done|]. by intros ? ?%not_elem_of_nil.
  - destruct Hseg as (->&r&Hr&Hseg). rewrite (ldr_bind _ _ _ _ Hr). case_decide as Hc.
    + exists false. split; [done|]. exists x, r. split_and!; [left|done|lia].
    + destruct (IH (sibling r) fuel Hseg) as (b&->&Hb); [simpl in Hf; lia|]. exists b. split; [done|].
      destruct b.
      * intros y [->|Hy]%elem_of_cons; [|by apply Hb]. exists r. split_and!; [done|lia|lia].
      * destruct Hb as (y&q&?&?&?). exists y, q. split_and!; [by right|done|done].
Qed.

(** Children that come after one whose start is past [e] start past [e] too. *)
Lemma laid_after st lo hi l e :
  laid st lo hi l -> (forall y r, head l = Some y -> st !! y = Some r -> e < start r) ->
  forall x, x ∈ l -> exists r, st !! x = Some r /\ e < start r.
Proof.
  intros [Hf Hs] Hh x Hx. destruct l as [|y l]; [by apply not_elem_of_nil in Hx|].
  inversion Hf as [|?? (ry&Hy&?&?&?) Hf']; subst. specialize (Hh y ry eq_refl Hy).
  apply elem_of_cons in Hx as [->|Hx]; [eauto|].
  inversion Hs as [|?? _ Hb]; subst. rewrite list.Forall_forall in Hb.
  destruct (Hb _ Hx) as (?&q&?&?&?). simplify_eq. exists q. split; [done|lia].
Qed.

Lemma laid_ahead st lo hi l s :
  laid st lo hi l -> (forall y r, list.last l = Some y -> st !! y = Some r -> end_ r < s) ->
  forall x, x ∈ l -> exists r, st !! x = Some r /\ end_ r < s.
Proof.
  intros [Hf Hs] Hh x Hx. destruct l as [|y l _] using rev_ind; [by apply not_elem_of_nil in Hx|].
  rewrite last_snoc in Hh. apply StronglySorted_app in Hs as (Hb&_&_).
  apply Forall_app in Hf as [_ Hf]. inversion Hf as [|?? (ry&Hy&?&?&?) _]; subst. specialize (Hh y ry eq_refl Hy).
  apply elem_of_app in Hx as [Hx| ->%list_elem_of_singleton]; [|eauto].
  destruct (Hb x y Hx ltac:(by left)) as (q&?&?&?&?). simplify_eq. exists q. split; [done|lia].
Qed.

(** What stands in the way of [s, e] as the range of [res]: the parent, a child, or
    one of the two neighbours. *)
Definition adjust_blocked st K (rp : resource) res pre post (s e : Z) : Prop :=
  ~ (start rp <= s /\ e <= end_ rp) \/
  (exists c rc, c ∈ K res /\ st !! c = Some rc /\ ~ (s <= start rc /\ end_ rc <= e)) \/
  (exists c rc, head post = Some c /\ st !! c = Some rc /\ start rc <= e) \/
  (exists c rc, list.last pre = Some c /\ st !! c = Some rc /\ s <= end_ rc).

Inductive adjust_case st K (rp : resource) res (r : resource) pre post (s e : Z) : option (Z * rstore) -> Prop :=
| adj_busy : adjust_blocked st K rp res pre post s e -> adjust_case st K rp res r pre post s e (Some (- EBUSY, st))
| adj_ok : ~ adjust_blocked st K rp res pre post s e ->
    adjust_case st K rp res r pre post s e (Some (0, <[res := set_range s e r]> st)).

(** The scan for the previous sibling. *)
Lemma previous_run st K par rp res pre post s :
  wf st K -> st !! par = Some rp -> K par = pre ++ res :: post ->
  exists b, (if decide (child rp = Some res) then mret false
             else
               tmp ← deref (child rp);
               tmp ← fuelled (fun fuel => before_loop fuel res tmp);
               t ← ldr tmp;
               mret (bool_decide (s <= end_ t)) : ResM bool) st = Some (b, st) /\
    (b = true <-> exists c rc, list.last pre = Some c /\ st !! c = Some rc /\ s <= end_ rc).
Proof.
  intros W Hp HK. pose proof (wf_chain _ _ W _ _ Hp) as Hc. rewrite HK in Hc. unfold chain in Hc.
  apply seg_app in Hc as (m&Hs&Hs2). simpl in Hs2. destruct Hs2 as (->&_).
  destruct (wf_split_notin _ _ _ _ _ _ W HK) as [Hn1 _].
  destruct (tailp_cases par pre) as [[-> _]|(pre'&z&->&_)].
  - simpl in Hs. rewrite decide_True by done. exists false. split; [done|].
    split; [done|]. by intros (?&?&?&_).
  - assert (Hh : exists y, child rp = Some y /\ y <> res).
    { destruct pre' as [|y pre']; simpl in Hs; destruct Hs as (->&_); eexists; (split; [done|]);
        intros ->; apply Hn1; left. }
    destruct Hh as (y&Hy&Hyr). rewrite Hy in Hs |- *. case_decide as Hd; [congruence|]. rewrite deref_bind.
    destruct (seg_elem _ _ _ _ z Hs) as [rz Hz]; [apply elem_of_app; right; by left|].
    exists (bool_decide (s <= end_ rz)). split.
    + rewrite (run_bind _ _ st z st).
      2: { apply (before_loop_run _ _ _ _ pre'); [done|done|].
           pose proof (laid_length _ _ _ _ (wf_laid _ _ W _ _ Hp)) as Hlen.
           rewrite HK, !length_app in Hlen. lia. }
      by rewrite (ldr_bind _ _ _ _ Hz).
    + rewrite bool_decide_eq_true, last_snoc. split; [eauto 10|]. intros (?&?&?&?&?). by simplify_eq.
Qed.

Lemma adjust_run st K par rp res r pre post s size :
  wf st K -> st !! res = Some r -> parent r = Some par -> st !! par = Some rp -> K par = pre ++ res :: post ->
  adjust_case st K rp res r pre post s (s +u size -u 1) (adjust_resource res s size st).
Proof.
  intros W Hr Hpar Hp HK. unfold adjust_resource. set (e := s +u size -u 1).
  rewrite (ldr_bind _ _ _ _ Hr), Hpar, deref_bind, (ldr_bind _ _ _ _ Hp).
  case_decide as Hout; [apply adj_busy; left; lia|].
  destruct (inside_loop_run st (S (base.size st)) s e (child r) (K res)) as (b&Hin&Hb).
  { by eapply wf_chain. } { pose proof (laid_length _ _ _ _ (wf_laid _ _ W _ _ Hr)). lia. }
  rewrite (run_bind _ _ st b st) by done.
  destruct b; simpl; [|by apply adj_busy; right; left].
  rewrite (wf_sibling _ _ _ _ _ _ _ W HK Hr).
  assert (Hnext : exists b, (match head post with
                             | Some y => sib ← ldr y; mret (bool_decide (start sib <= e))
                             | None => mret false end : ResM bool) st = Some (b, st) /\
    (b = true <-> exists c rc, head post = Some c /\ st !! c = Some rc /\ start rc <= e)).
  { destruct post as [|y post]; simpl.
    - exists false. split; [done|]. split; [done|]. by intros (?&?&?&_).
    - destruct (wf_child W par y) as (_&ry&_&Hy&_); [rewrite HK; apply elem_of_app; right; right; left|].
      exists (bool_decide (start ry <= e)). rewrite (ldr_bind _ _ _ _ Hy). split; [done|].
      rewrite bool_decide_eq_true. split; [eauto 10|]. intros (?&?&?&?&?). by simplify_eq. }
  destruct Hnext as (b&Hrun&Hn). rewrite (run_bind _ _ st b st) by done.
  destruct b; [apply adj_busy; do 2 right; left; by apply Hn|].
  destruct (previous_run st K par rp res pre post s W Hp HK) as (b&Hrun'&Hpv).
  rewrite (run_bind _ _ st b st) by done.
  destruct b; [apply adj_busy; do 3 right; by apply Hpv|].
  rewrite (updr_bind _ _ _ _ _ Hr). apply adj_ok. intros [H|[(c&rc&Hc&Hrc&H)|[H|H]]].
  - lia.
  - destruct (Hb c Hc) as (?&?&?). simplify_eq. tauto.
  - by apply Hn in H.
  - by apply Hpv in H.
Qed.

(** ** Adding and removing a detached resource *)

Lemma wf_absent st K x : wf st K -> st !! x = None -> K x = [].
Proof.
  intros W Hx. destruct (K x) as [|c l] eqn:E; [done|].
  destruct (wf_child W x c) as (?&_&?&_); [rewrite E; left|congruence].
Qed.

Lemma anchored_add st res r l x : st !! res = None -> anchored st l x -> anchored (<[res := r]> st) l x.
Proof.
  intros Hn Hl. eapply anchored_agree; [|done]. intros y Hy.
  destruct (anchored_elem _ _ _ _ Hl Hy) as [ry Hry]. rewrite fld_insert, decide_False; [done|]. congruence.
Qed.

Lemma wf_add st K res r :
  wf st K -> st !! res = None -> parent r = None -> child r = None ->
  is_u32 (start r) -> is_u32 (end_ r) -> wf (<[res := r]> st) K.
Proof.
  intros W Hn Hpr Hch Hs He. pose proof (wf_absent _ _ _ W Hn) as Hk.
  assert (Hin : forall x y, y ∈ K x -> res <> y).
  { intros x y Hy <-. destruct (wf_child W _ _ Hy) as (_&?&_&?&_). congruence. }
  split.
  - intros x r' Hx. destruct (decide (res = x)) as [<-|Hne].
    + rewrite lookup_insert_eq in Hx. simplify_eq. rewrite Hk. done.
    + rewrite lookup_insert_ne in Hx by done. eapply seg_agree; [|by eapply wf_chain].
      intros y Hy. rewrite fld_insert, decide_False; [done|by eapply Hin].
  - intros x r' Hx. destruct (decide (res = x)) as [<-|Hne].
    + rewrite Hk. split; constructor.
    + rewrite lookup_insert_ne in Hx by done. eapply laid_agree; [|by eapply wf_laid].
      intros y Hy. rewrite lookup_insert_ne; [done|by eapply Hin].
  - intros p c. rewrite fld_insert. case_decide as Hc; [subst c|apply W].
    split; [|congruence]. intros Hc. by apply Hin in Hc.
  - intros x Hx. destruct (decide (res = x)) as [<-|Hne].
    + exists [res]. constructor. rewrite fld_insert, decide_True by done. by rewrite Hpr.
    + rewrite lookup_insert_ne in Hx by done. destruct (wf_anch _ _ W x Hx) as [l Hl].
      exists l. by apply anchored_add.
  - intros x r' Hx. destruct (decide (res = x)) as [<-|Hne].
    + rewrite lookup_insert_eq in Hx. by simplify_eq.
    + rewrite lookup_insert_ne in Hx by done. by eapply wf_range.
Qed.

Lemma wf_delete st K res :
  wf st K -> fld parent st res = Some None -> K res = [] -> wf (delete res st) K.
Proof.
  intros W Hp Hk.
  assert (Hfld : forall A (f : resource -> A) x, res <> x -> fld f (delete res st) x = fld f st x).
  { intros A f x Hx. unfold fld. by rewrite lookup_delete_ne. }
  assert (Hin : forall x y, y ∈ K x -> res <> y) by (intros x y Hy <-; by eapply wf_no_parent in Hy).
  assert (Hlk : forall x r, delete res st !! x = Some r -> st !! x = Some r /\ res <> x).
  { intros x r [? ?]%lookup_delete_Some. done. }
  split.
  - intros x r [Hx Hne]%Hlk. eapply seg_agree; [|by eapply wf_chain]. intros y Hy. apply Hfld. by eapply Hin.
  - intros x r [Hx Hne]%Hlk. eapply laid_agree; [|by eapply wf_laid].
    intros y Hy. rewrite lookup_delete_ne; [done|by eapply Hin].
  - intros p c. destruct (decide (res = c)) as [<-|Hc]; [|rewrite Hfld by done; apply W].
    unfold fld. rewrite lookup_delete_eq. split; [|done]. intros Hc. by apply Hin in Hc.
  - intros x [r [Hx Hne]%Hlk]. destruct (wf_anch _ _ W x ltac:(eauto)) as [l Hl]. exists l.
    eapply anchored_agree; [|done]. intros y Hy. apply Hfld. intros <-.
    clear Hx. induction Hl as [x Hx|x p l Hx Hl IH].
    + by apply list_elem_of_singleton in Hy.
    + apply elem_of_cons in Hy as [->|Hy]; [congruence|]. apply IH; [|done]. intros <-.
      apply (wf_link _ _ W) in Hx. rewrite Hk in Hx. by apply not_elem_of_nil in Hx.
  - intros x r [Hx _]%Hlk. by eapply wf_range.
Qed.

(** ** Undoing a link *)

Lemma store_ext st st' :
  (forall x, fld start st x = fld start st' x) -> (forall x, fld end_ st x = fld end_ st' x) ->
  (forall x, fld flags st x = fld flags st' x) -> (forall x, fld parent st x = fld parent st' x) ->
  (forall x, fld sibling st x = fld sibling st' x) -> (forall x, fld child st x = fld child st' x) -> st = st'.
Proof.
  unfold fld. intros H1 H2 H3 H4 H5 H6. apply map_eq. intros x.
  specialize (H1 x). specialize (H2 x). specialize (H3 x). specialize (H4 x). specialize (H5 x). specialize (H6 x).
  destruct (st !! x) as [[]|], (st' !! x) as [[]|]; simplify_eq/=; done.
Qed.

(** The pointer after [pre] in the tree. *)
Lemma wf_tail_pointer st K root pre post :
  wf st K -> K root = pre ++ post ->
  (forall x, list.last pre = Some x -> fld sibling st x = Some (head post)) /\
  (pre = [] -> is_Some (st !! root) -> fld child st root = Some (head post)).
Proof.
  intros W HK. split.
  - intros x Hl. destruct (tailp_cases root pre) as [[-> _]|(pre'&z&->&_)]; [done|].
    rewrite last_snoc in Hl. simplify_eq. rewrite <- app_assoc in HK. simpl in HK.
    destruct (wf_child W root x) as (_&r&_&Hr&_); [rewrite HK; apply elem_of_app; right; left|].
    by rewrite (fld_Some _ _ _ _ Hr), (wf_sibling _ _ _ _ _ _ _ W HK Hr).
  - intros -> [r Hr]. pose proof (wf_chain _ _ W _ _ Hr) as Hc. rewrite HK in Hc.
    apply chain_head in Hc. by rewrite (fld_Some _ _ _ _ Hr), Hc.
Qed.

(** Linking a fresh resource, unlinking it and freeing it gives the old store. *)
Lemma relink_undo st K res r0 q pre post st' st'' sib op :
  wf st K -> st !! res = None -> is_Some (st !! q) -> K q = pre ++ post ->
  relinked (<[res := r0]> st) st' q res pre (Some res) (head post) (Some q) ->
  relinked st' st'' q res pre (head post) sib op -> delete res st'' = st.
Proof.
  intros W Hn Hq HK R1 R2. destruct (wf_tail_pointer _ _ _ _ _ W HK) as [Ht1 Ht2].
  assert (Hd : forall A (f : resource -> A) x, fld f (delete res st'') x = if decide (res = x) then None else fld f st'' x).
  { intros A f x. unfold fld. destruct (decide (res = x)) as [<-|]; [by rewrite lookup_delete_eq|by rewrite lookup_delete_ne]. }
  assert (Hi : forall A (f : resource -> A) x, res <> x -> fld f (<[res := r0]> st) x = fld f st x).
  { intros A f x Hx. by rewrite fld_insert, decide_False. }
  assert (Hnone : forall A (f : resource -> A), None = fld f st res) by (intros; unfold fld; by rewrite Hn).
  apply store_ext; intros x; rewrite Hd; (destruct (decide (res = x)) as [<-|Hx]; [apply Hnone|]).
  - rewrite <- (proj1 (rl_ranges _ _ _ _ _ _ _ _ R2 x)), <- (proj1 (rl_ranges _ _ _ _ _ _ _ _ R1 x)). by apply Hi.
  - rewrite <- (proj2 (rl_ranges _ _ _ _ _ _ _ _ R2 x)), <- (proj2 (rl_ranges _ _ _ _ _ _ _ _ R1 x)). by apply Hi.
  - rewrite (rl_flags _ _ _ _ _ _ _ _ R2), (rl_flags _ _ _ _ _ _ _ _ R1). by apply Hi.
  - rewrite (rl_parent _ _ _ _ _ _ _ _ R2), (rl_parent _ _ _ _ _ _ _ _ R1). rewrite !decide_False by done. by apply Hi.
  - rewrite (rl_sibling _ _ _ _ _ _ _ _ R2), (rl_sibling _ _ _ _ _ _ _ _ R1).
    destruct (decide (res = x)) as [|_]; [done|]. destruct (decide (list.last pre = Some x)) as [Hl|Hl]; [|by apply Hi].
    by rewrite Ht1.
  - rewrite (rl_child _ _ _ _ _ _ _ _ R2), (rl_child _ _ _ _ _ _ _ _ R1).
    destruct (decide (q = x /\ pre = [])) as [[<- Hl]|Hl]; [|by apply Hi]. by rewrite Ht2.
Qed.

(** ** Regions *)

(** From [p] to [q] through the children that contain [s, e] and are not busy. *)
Inductive walks st K (s e : Z) : rloc -> rloc -> Prop :=
| walk_here p : walks st K s e p p
| walk_down p c rc q : c ∈ K p -> st !! c = Some rc -> BUSY rc = false ->
    start rc <= s -> e <= end_ rc -> walks st K s e c q -> walks st K s e p q.

Lemma walks_contains st K s e p q rp rq :
  wf st K -> walks st K s e p q -> st !! p = Some rp -> st !! q = Some rq ->
  start rq <= s -> e <= end_ rq -> start rp <= s /\ e <= end_ rp.
Proof.
  intros W Hw Hp Hq ??. destruct Hw as [p|p c rc q Hc Hrc _ ?? _]; [by simplify_eq|].
  destruct (wf_child W p c Hc) as (?&?&?&?&_&?&?&?). simplify_eq. lia.
Qed.

(** The store with the region that [kzalloc] and the assignments to it give. *)
Definition with_region (st : rstore) (res : rloc) (s e : Z) : rstore :=
  <[res := Resource s e IORESOURCE_BUSY None None None]> st.

(** [x] is a descendant of [p]. *)
Inductive below K : rloc -> rloc -> Prop :=
| below_child p c : c ∈ K p -> below K p c
| below_step p c x : c ∈ K p -> below K c x -> below K p x.

(** Why a region cannot be had below [p]: it is not a range inside [p], or it meets
    a descendant that is busy or does not contain it. *)
Definition region_blocked st K (p : rloc) (s e : Z) : Prop :=
  (exists r, st !! p = Some r /\ ~ (start r <= s /\ s <= e /\ e <= end_ r)) \/
  exists x r, below K p x /\ st !! x = Some r /\ clash st s e x /\
    (BUSY r = true \/ ~ (start r <= s /\ e <= end_ r)).

Inductive region_case st K par res (s e : Z) : option (option rloc * rstore) -> Prop :=
| reg_none : region_blocked st K par s e -> region_case st K par res s e (Some (None, st))
| reg_some q pre post st' rq :
    walks st K s e par q -> st !! q = Some rq -> start rq <= s -> s <= e -> e <= end_ rq ->
    K q = pre ++ post ->
    relinked (with_region st res s e) st' q res pre (Some res) (head post) (Some q) ->
    wf st' (<[q := pre ++ res :: post]> K) ->
    region_case st K par res s e (Some (Some res, st')).

Lemma region_loop_run st K fuel par res s e l :
  wf st K -> st !! res = None -> is_u32 s -> is_u32 e -> anchored st l par -> (size st < length l + fuel)%nat ->
  region_case st K par res s e (region_loop fuel par res (with_region st res s e)).
Proof.
  intros W Hn Hs He. revert par l. set (rn := Resource s e IORESOURCE_BUSY None None None).
  assert (W1 : wf (with_region st res s e) K) by (by apply wf_add).
  assert (Hfree : (_ ← kfree res; mret None) (with_region st res s e) = Some (@None rloc, st)).
  { unfold kfree, mbind, ResM_bind, SM_bind, with_region. simpl. by rewrite delete_insert_id. }
  induction fuel as [|fuel IH]; intros par l Hl Hfuel.
  { pose proof (anchored_length _ _ _ Hl). lia. }
  destruct (anchored_elem _ _ _ par Hl (anchored_head _ _ _ Hl)) as [rp Hp].
  assert (Hne : par <> res) by congruence.
  assert (Hp1 : with_region st res s e !! par = Some rp) by (unfold with_region; by rewrite lookup_insert_ne).
  assert (Hn1 : with_region st res s e !! res = Some rn) by (unfold with_region; by rewrite lookup_insert_eq).
  simpl. unfold mbind at 1, ResM_bind at 1, SM_bind at 1.
  destruct (request_run _ K par res rp rn W1 Hp1 Hn1 eq_refl Hne)
    as [Hbad|pre x post Hfit HK Hpre Hcl|pre post st' Hfit HK Hpre Hpost Hrel].
  - rewrite decide_False by tauto. rewrite Hfree. constructor. left. exists rp. done.
  - assert (Hx : x ∈ K par) by (rewrite HK; apply elem_of_app; right; left).
    rewrite decide_True by (intros ->; by apply (wf_not_own W) in Hx).
    destruct (wf_child W par x Hx) as (_&f&_&Hf&Hpf&_).
    rewrite (ldr_bind _ x f) by (unfold with_region; rewrite lookup_insert_ne; [done|congruence]).
    assert (Hcl' : clash st s e x).
    { destruct Hcl as (f'&Hf'&?). unfold with_region in Hf'. rewrite lookup_insert_ne in Hf' by congruence. by exists f'. }
    destruct (BUSY f) eqn:Hb.
    { rewrite Hfree. constructor. right. exists x, f. split_and!; [by constructor|done|done|by left]. }
    assert (Hlx : anchored st (x :: l) x) by (econstructor; [by rewrite (fld_Some _ _ _ _ Hf), Hpf|done]).
    destruct (IH x (x :: l) Hlx) as [Hbl|q pre' post' st' rq Hw Hq ??? HK' Hrel Hwf]; [simpl; lia| |].
    { constructor. right. destruct Hbl as [(r&Hr&Hnf)|(y&r&Hy&?&?&?)].
      - exists x, r. split_and!; [by constructor|done|done|]. right. destruct Hfit as (_&?&_).
        simpl in *. tauto.
      - exists y, r. split_and!; [by eapply below_step|done..]. }
    eapply (reg_some _ _ _ _ _ _ q pre' post' st' rq); try done.
    destruct (walks_contains _ _ _ _ _ _ _ _ W Hw Hf Hq) as [? ?]; [done..|]. by eapply walk_down.
  - destruct Hfit as (?&?&?). eapply (reg_some _ _ _ _ _ _ par pre post st' rp); try done; [constructor|].
    eapply (wf_linked (with_region st res s e) st' K par res pre post rp rn); try done.
    intros l' Hl'. intros Hin.
    assert (l' = l) as -> by (eapply anchored_det; [done|by apply anchored_add]).
    destruct (anchored_elem _ _ _ res Hl Hin). congruence.
Qed.

(** ** Releasing a region *)

Inductive unregion_case st K par (s e : Z) : option (bool * rstore) -> Prop :=
| unreg_false q : walks st K s e par q ->
    (forall c rc, c ∈ K q -> st !! c = Some rc -> start rc <= s -> e <= end_ rc ->
       exists x rx, x ∈ K q /\ st !! x = Some rx /\ start rx <= s /\ e <= end_ rx /\ BUSY rx = true /\
         ~ (start rx = s /\ end_ rx = e)) ->
    unregion_case st K par s e (Some (false, st))
| unreg_true q pre x post rx st' :
    walks st K s e par q -> K q = pre ++ x :: post -> st !! x = Some rx -> BUSY rx = true ->
    start rx = s -> end_ rx = e ->
    relinked st st' q x pre (head post) (head post) (Some q) -> st' !! x = Some rx ->
    unregion_case st K par s e (Some (true, delete x st')).

(** The scan along the children of [p], from the ones after [pre0] on. *)
Lemma unregion_scan st K fuel s e p pre0 l :
  wf st K -> is_Some (st !! p) -> K p = pre0 ++ l -> (length l < fuel)%nat ->
  ((forall x r, x ∈ l -> st !! x = Some r -> ~ (start r <= s /\ e <= end_ r)) /\
    unregion_loop fuel s e (tailp p pre0) st = Some (false, st)) \/
  exists mid x post r, l = mid ++ x :: post /\ st !! x = Some r /\ start r <= s /\ e <= end_ r /\
    unregion_loop fuel s e (tailp p pre0) st =
      (if BUSY r then
         if decide (start r <> s \/ end_ r <> e) then mret false
         else _ ← stp (tailp p (pre0 ++ mid)) (sibling r); _ ← kfree x; mret true
       else unregion_loop (fuel - S (length mid)) s e (Pchild x)) st.
Proof.
  intros W [rp Hp]. revert pre0 fuel. induction l as [|x l IH]; intros pre0 [|fuel] HK Hf;
    try (simpl in Hf; lia); cbn [unregion_loop]; rewrite (run_bind _ _ _ _ _ (ldp_tailp W _ _ _ _ Hp HK)); simpl.
  - left. split; [|done]. by intros ?? ?%not_elem_of_nil.
  - destruct (wf_child W p x) as (_&r&_&Hr&_); [rewrite HK; apply elem_of_app; right; left|].
    rewrite (ldr_bind _ _ _ _ Hr). destruct (decide (start r <= s /\ e <= end_ r)) as [[? ?]|Hno].
    + right. exists [], x, l, r. split_and!; [done..|]. rewrite app_nil_r. simpl. by rewrite Nat.sub_0_r.
    + rewrite <- (tailp_snoc p pre0 x).
      destruct (IH (pre0 ++ [x]) fuel) as [[Hall ->]|(mid&y&post&ry&->&?&?&?&->)];
        [by rewrite <- app_assoc|simpl in Hf; lia| |].
      * left. split; [|done]. intros y ry [->|Hy]%elem_of_cons; [by intros; simplify_eq|by apply Hall].
      * right. exists (x :: mid), y, post, ry. split_and!; [done..|]. by rewrite <- app_assoc.
Qed.

Lemma unregion_run st K fuel par s e l :
  wf st K -> anchored st l par -> ((S (size st) - length l) * S (size st) <= fuel)%nat ->
  unregion_case st K par s e (unregion_loop fuel s e (Pchild par) st).
Proof.
  intros W. remember (S (size st) - length l)%nat as d eqn:Ed. revert par l fuel Ed.
  induction d as [|d IH]; intros par l fuel Ed Hl Hf.
  { pose proof (anchored_length _ _ _ Hl). lia. }
  destruct (anchored_elem _ _ _ par Hl (anchored_head _ _ _ Hl)) as [rp Hp].
  pose proof (laid_length _ _ _ _ (wf_laid _ _ W _ _ Hp)) as Hlen.
  change (Pchild par) with (tailp par []).
  destruct (unregion_scan st K fuel s e par [] (K par) W) as [[Hall ->]|(mid&x&post&r&HK&Hr&?&?&->)]; [eauto|done|lia| |].
  - apply (unreg_false _ _ _ _ _ par); [constructor|]. intros c rc Hc Hrc ??. by destruct (Hall c rc Hc Hrc).
  - simpl app. assert (Hx : x ∈ K par) by (rewrite HK; apply elem_of_app; right; left).
    destruct (BUSY r) eqn:Hb; [case_decide as Hd|].
    + apply (unreg_false _ _ _ _ _ par); [constructor|]. intros. exists x, r. split_and!; [done..|lia].
    + destruct (unlink_run _ _ _ _ _ _ _ W HK Hr) as (st'&->&Hrel&Hr').
      eapply (unreg_true _ _ _ _ _ par mid x post r st'); [constructor|done..|lia|lia|done|done].
    + destruct (wf_child W par x Hx) as (_&?&_&?&Hpx&_). simplify_eq.
      assert (Hlx : anchored st (x :: l) x) by (econstructor; [by rewrite (fld_Some _ _ _ _ Hr), Hpx|done]).
      rewrite HK, length_app in Hlen. simpl in Hlen.
      destruct (IH x (x :: l) (fuel - S (length mid))%nat) as [q ? ?|q]; [simpl; lia|done|nia| |].
      * eapply unreg_false; [by eapply walk_down|done].
      * eapply (unreg_true _ _ _ _ _ q); [by eapply walk_down|done..].
Qed.
