(* ===== verification/ResourceSpec.v ===== *)
(** What the functions of [kernel/resource.c] promise. *)
From Stdlib Require Import ZArith Lia.
From stdpp Require Import base numbers list list_numbers option gmap sets functions sorting.
From S2P Require Import Prelude Resource ResourceTree ResourceOps ResourceAlloc ResourceInsert ResourceRegion.

Local Open Scope Z_scope.
Local Open Scope kernel_scope.

Implicit Types (st : rstore) (x y p c root new par res : rloc) (l : list rloc) (K : rloc -> list rloc).

(** [new] is a resource outside the tree of [root], as a caller passes it. *)
Definition detached_for st root new : Prop :=
  is_Some (st !! root) /\ fld parent st new = Some None /\ not_above st new root.

(** [s, e] is a range inside [root] that no child of [root] meets. *)
Definition free_in st K root (s e : Z) : Prop :=
  (exists r, st !! root = Some r /\ start r <= s /\ s <= e /\ e <= end_ r) /\
  forall c, c ∈ K root -> ~ clash st s e c.

Section Detached.
Context (st : rstore) (K : rloc -> list rloc) (root new : rloc) (rn : resource).
Hypothesis (W : wf st K) (D : detached_for st root new) (Hn : st !! new = Some rn).

Lemma detached_parent : parent rn = None.
Proof using D Hn. destruct D as (_&H&_). rewrite (fld_Some _ _ _ _ Hn) in H. congruence. Qed.

Lemma detached_ne : root <> new.
Proof using W D.
  destruct D as (H1&_&H2). intros E. destruct (wf_anch _ _ W root H1) as [l Hl].
  apply (H2 l Hl). rewrite <- E. by eapply anchored_head.
Qed.

(** The two outcomes of [__request_resource]. *)
Lemma request_outcome :
  (free_in st K root (start rn) (end_ rn) /\ exists pre post st', K root = pre ++ post /\
     __request_resource root new st = Some (None, st') /\
     relinked st st' root new pre (Some new) (head post) (Some root) /\
     wf st' (<[root := pre ++ new :: post]> K)) \/
  (~ free_in st K root (start rn) (end_ rn) /\ exists c, __request_resource root new st = Some (Some c, st) /\
     (c = root \/ exists pre post, K root = pre ++ c :: post /\ clash st (start rn) (end_ rn) c /\
        forall y, y ∈ pre -> before st y new)).
Proof using W D Hn.
  pose proof detached_parent as Hpar. pose proof detached_ne as Hne. destruct D as ([rr Hr]&_&Hab).
  destruct (request_run st K root new rr rn W Hr Hn Hpar Hne)
    as [Hbad|pre x post Hfit HK Hpre Hcl|pre post st' Hfit HK Hpre Hpost Hrel].
  - right. split; [intros [(r&?&?) _]; simplify_eq; by apply Hbad|]. exists root. eauto.
  - right. split; [intros [_ Hf]; apply (Hf x); [rewrite HK; apply elem_of_app; right; left|done]|].
    exists x. split; [done|]. right. eauto.
  - left. destruct Hfit as (?&?&?). split.
    + split; [exists rr; done|]. intros c Hc (r&Hrc&?&?). rewrite HK in Hc.
      apply elem_of_app in Hc as [Hc|Hc]; [destruct (Hpre c Hc) as (?&?&?&?&?)|destruct (Hpost c Hc) as (?&?&?&?&?)];
        simplify_eq; lia.
    + exists pre, post, st'. split_and!; [done..|]. by eapply wf_linked.
Qed.
End Detached.

(** [request_resource] and [____request_resource] on a well-formed tree: exactly
    when the range of [new] is a range inside [root] that meets no child of [root],
    [new] is linked among the children in order and the call returns 0 (no conflict);
    otherwise nothing changes, the call returns [-EBUSY] and the conflict reported is
    [root] itself or the first child that the range meets.  The tree stays well formed
    and the loop ends within its fuel. *)
Theorem request_resource_correct st K root new rn :
  wf st K -> detached_for st root new -> st !! new = Some rn ->
  (free_in st K root (start rn) (end_ rn) /\ exists pre post st',
     K root = pre ++ post /\
     request_resource root new st = Some (0, st') /\ ____request_resource root new st = Some (None, st') /\
     wf st' (<[root := pre ++ new :: post]> K)) \/
  (~ free_in st K root (start rn) (end_ rn) /\ exists c,
     request_resource root new st = Some (- EBUSY, st) /\ ____request_resource root new st = Some (Some c, st) /\
     (c = root \/ exists pre post, K root = pre ++ c :: post /\ clash st (start rn) (end_ rn) c /\
        forall y, y ∈ pre -> before st y new)).
Proof.
  intros W D Hn. unfold request_resource, ____request_resource.
  destruct (request_outcome st K root new rn W D Hn) as [(Hf&pre&post&st'&HK&Hrun&_&Hwf)|(Hf&c&Hrun&Hc)].
  - left. split; [done|]. exists pre, post, st'. rewrite !(run_bind _ _ _ _ _ Hrun). done.
  - right. split; [done|]. exists c. rewrite !(run_bind _ _ _ _ _ Hrun). done.
Qed.

(** [release_resource] of any resource that has a parent finds it, returns 0,
    takes exactly it (with its subtree) out of its parent's children and leaves it
    detached; the tree stays well formed.  Releasing what was just requested gives the
    children of every resource back. *)
Theorem release_resource_correct st K old r p :
  wf st K -> st !! old = Some r -> parent r = Some p ->
  exists pre post st', K p = pre ++ old :: post /\
    release_resource old st = Some (0, st') /\ wf st' (<[p := pre ++ post]> K) /\
    fld parent st' old = Some None /\ same_ranges st st'.
Proof.
  intros W Hr Hp. destruct (release_run st K old r p W Hr Hp) as (pre&post&st'&HK&Hrun&Hrel).
  exists pre, post, st'. unfold release_resource. rewrite (run_bind _ _ _ _ _ Hrun).
  split_and!; [done|done|by eapply wf_unlinked| |by eapply rl_ranges].
  rewrite (rl_parent _ _ _ _ _ _ _ _ Hrel). by rewrite decide_True.
Qed.

(** ** Allocation *)

Lemma range_of_elem st K root s e :
  wf st K -> (forall c, c ∈ K root -> ~ clash st s e c) <-> avoids s e (range_of st <$> K root).
Proof.
  intros W. unfold avoids. rewrite Forall_fmap, list.Forall_forall. split.
  - intros H c Hc. destruct (wf_child W root c Hc) as (_&r&_&Hr&_). simpl. unfold range_of. rewrite Hr. simpl.
    destruct (decide (e < start r \/ end_ r < s)) as [|Hno]; [done|]. exfalso. apply (H c Hc).
    exists r. split_and!; [done|lia|lia].
  - intros H c Hc (r&Hr&?&?). specialize (H c Hc). simpl in H. unfold range_of in H. rewrite Hr in H. simpl in H. lia.
Qed.

(** Changing the range of a detached resource without children. *)
Lemma wf_set_range st K new rn s e :
  wf st K -> st !! new = Some rn -> parent rn = None -> K new = [] -> is_u32 s -> is_u32 e ->
  wf (<[new := set_range s e rn]> st) K.
Proof.
  intros W Hn Hp Hk Hs He.
  assert (Hnp : fld parent st new = Some None) by (by rewrite (fld_Some _ _ _ _ Hn), Hp).
  assert (Hin : forall x y, y ∈ K x -> new <> y) by (intros x y Hy <-; by eapply wf_no_parent in Hy).
  pose proof (wf_delete _ _ _ W Hnp Hk) as Wd. rewrite <- insert_delete_eq.
  apply wf_add; [done|by rewrite lookup_delete_eq|done| |done|done].
  pose proof (wf_chain _ _ W _ _ Hn) as Hc. rewrite Hk in Hc. done.
Qed.

Lemma anchored_set_range st new rn s e l x :
  st !! new = Some rn -> anchored (<[new := set_range s e rn]> st) l x <-> anchored st l x.
Proof.
  intros Hn. assert (H : forall y, fld parent (<[new := set_range s e rn]> st) y = fld parent st y).
  { intros y. fields. by rewrite (fld_Some _ _ _ _ Hn). }
  split; intros Hl; (eapply anchored_agree; [|done]); intros y _; by rewrite H.
Qed.

Lemma detached_set_range st K root new rn s e :
  wf st K -> detached_for st root new -> st !! new = Some rn ->
  detached_for (<[new := set_range s e rn]> st) root new.
Proof.
  intros W D Hn. pose proof (detached_ne st K root new W D). pose proof (detached_parent st root new rn D Hn).
  destruct D as (H1&H2&H3). split_and!.
  - by rewrite lookup_insert_ne.
  - fields. congruence.
  - intros l Hl. apply anchored_set_range in Hl; [|done]. by apply H3.
Qed.

(** What a caller may ask of [allocate_resource]. *)
Record alloc_args (size min max align : Z) : Prop := {
  arg_size : 1 <= size < 2^32;
  arg_min : is_u32 min;
  arg_max : is_u32 max;
  arg_align : exists k, 0 <= k < 32 /\ align = 2^k
}.

(** [s] as the start of a range of [size] that meets the request. *)
Definition suits (size min max align s : Z) : Prop := (align | s) /\ min <= s /\ s + size - 1 <= max.

Section Search.
Context (size min max k : Z).
Hypothesis (Hsize : 1 <= size < 2^32) (Hmin : is_u32 min) (Hmax : is_u32 max) (Hk : 0 <= k < 32).

Local Abbreviation search_from := (search_from size min max (2^k) None).

Lemma search_from_sound rr rs s e :
  is_u32 (start rr) -> is_u32 (end_ rr) -> search_from rr rs = (true, (s, e)) ->
  is_u32 s /\ e = s + size - 1 /\ e <= max /\ (2^k | s) /\ (min <= s \/ s = 0).
Proof using Hsize Hmin Hmax Hk.
  intros Hs He. destruct rs as [|[a b] rs]; unfold search_from; [by apply search_sound|].
  case_decide; apply search_sound; try done. apply u32_range.
Qed.

Lemma search_from_complete rr rs s1 :
  2 <= size -> is_u32 (start rr) -> is_u32 (end_ rr) -> ordered (start rr) (end_ rr) rs ->
  suits size min max (2^k) s1 -> start rr <= s1 -> s1 + size - 1 <= end_ rr -> avoids s1 (s1 + size - 1) rs ->
  exists s e, search_from rr rs = (true, (s, e)) /\ start rr <= s /\ e <= end_ rr /\ avoids s e rs.
Proof using Hsize Hmin Hmax Hk.
  intros H2 Hs He Hord (Hd&Hmn&Hmx) Hlo Hhi Hav. destruct rs as [|[a b] rs]; unfold search_from.
  - by eapply search_complete.
  - case_decide as Ha; [subst a|].
    + simpl in Hord. destruct Hord as (?&?&?&Hord). inversion Hav as [|?? Hav1 Hav2]; subst. simpl in Hav1.
      assert (Eb : b +u 1 = b + 1) by (apply u32_small; unfold is_u32 in *; lia). rewrite Eb.
      destruct (search_complete size min max k Hsize Hmin Hmax Hk (b + 1) rs (end_ rr) s1)
        as (s&e&?&?&?&?); try done; try (unfold is_u32 in *; lia).
      { destruct rs as [|[a' b'] rs]; [done|]. simpl in Hord. unfold is_u32 in *. lia. }
      exists s, e. split_and!; [done|lia|lia|]. constructor; [simpl; lia|done].
    + eapply search_complete; try done. simpl in Hord. unfold is_u32 in *. lia.
Qed.
End Search.

Lemma free_in_set_range st K root new rn s e a b :
  wf st K -> root <> new -> st !! new = Some rn -> fld parent st new = Some None ->
  free_in (<[new := set_range s e rn]> st) K root a b <-> free_in st K root a b.
Proof.
  intros W Hne Hn Hnp. unfold free_in, clash. rewrite lookup_insert_ne by done.
  assert (Hk : forall c, c ∈ K root -> <[new := set_range s e rn]> st !! c = st !! c).
  { intros c Hc. rewrite lookup_insert_ne; [done|]. intros <-. by eapply wf_no_parent in Hc. }
  split; intros [H1 H2]; (split; [done|]); intros c Hc (r&Hr&?); apply (H2 c Hc); exists r;
    [rewrite Hk by done|rewrite Hk in Hr by done]; done.
Qed.

(** Nothing that suits is free when the search or the request fails. *)
Lemma alloc_complete st K root rr size min max k s1 :
  wf st K -> st !! root = Some rr -> 2 <= size < 2^32 -> is_u32 min -> is_u32 max -> 0 <= k < 32 ->
  suits size min max (2^k) s1 -> free_in st K root s1 (s1 + size - 1) ->
  exists s e, search_from size min max (2^k) None rr (range_of st <$> K root) = (true, (s, e)) /\
    (e = s + size - 1 -> free_in st K root s e).
Proof.
  intros W Hr Hsz Hmn Hmx Hk Hsu [(r&?&?&?&?) Hfree]. simplify_eq.
  destruct (wf_range _ _ W _ _ Hr) as [Hs He].
  destruct (search_from_complete size min max k ltac:(lia) Hmn Hmx Hk rr (range_of st <$> K root) s1)
    as (s&e&Hse&?&?&Hav); try done; [lia| |by apply range_of_elem|].
  { apply laid_ordered. by eapply wf_laid. }
  exists s, e. split; [done|]. intros ->. split; [exists rr; split_and!; done || lia|]. by apply range_of_elem.
Qed.

(** C27. [allocate_resource] without a callback, for a power-of-two alignment: the call
    either links [new] with a free range of the requested size, alignment and upper
    limit inside [root] (not below [min] unless [ALIGN] wrapped to 0), or it returns
    [-EBUSY] with the tree unchanged and, for sizes above 1, there was no free range
    that suits the request. *)
Theorem allocate_resource_correct st K root new rn size min max align :
  wf st K -> detached_for st root new -> st !! new = Some rn -> K new = [] -> alloc_args size min max align ->
  (exists s pre post st', K root = pre ++ post /\
     allocate_resource root new size min max align None st = Some (0, st') /\
     fld start st' new = Some s /\ fld end_ st' new = Some (s + size - 1) /\
     free_in st K root s (s + size - 1) /\ (align | s) /\ s + size - 1 <= max /\ (min <= s \/ s = 0) /\
     wf st' (<[root := pre ++ new :: post]> K)) \/
  (exists s e, allocate_resource root new size min max align None st =
       Some (- EBUSY, <[new := set_range s e rn]> st) /\
     wf (<[new := set_range s e rn]> st) K /\
     (2 <= size -> forall s1, suits size min max align s1 -> ~ free_in st K root s1 (s1 + size - 1))).
Proof.
  intros W D Hn Hkn [Hsz Hmn Hmx (k&Hk&->)].
  pose proof (detached_ne _ _ _ _ W D) as Hne. pose proof (detached_parent _ _ _ _ D Hn) as Hpar.
  pose proof D as ([rr Hr]&Hnp&_). destruct (wf_range _ _ W _ _ Hr) as [Hs He].
  pose proof (find_resource_run size min max (2^k) None st K root new rr rn W Hne Hr Hn Hpar) as Hfind.
  pose proof (fun s1 H2 => alloc_complete st K root rr size min max k s1 W Hr (conj H2 (proj2 Hsz)) Hmn Hmx Hk) as Hcomp.
  destruct (search_from size min max (2^k) None rr (range_of st <$> K root)) as [ok [s e]] eqn:Es.
  unfold allocate_resource. rewrite (run_bind _ _ _ _ _ Hfind).
  assert (Hwf1 : wf (<[new := set_range s e rn]> st) K).
  { pose proof (search_from_u32 size min max (2^k) None rr (range_of st <$> K root) I Hmx He) as Hu.
    rewrite Es in Hu. destruct Hu. by apply wf_set_range. }
  destruct ok; cycle 1.
  - right. exists s, e. split_and!; [done|done|]. intros H2 s1 Hsu Hfr.
    destruct (Hcomp s1 H2 Hsu Hfr) as (?&?&?&?). congruence.
  - destruct (search_from_sound size min max k Hsz Hmn Hmx Hk _ _ _ _ Hs He Es) as (Hus&->&Hle&Hdv&Hmin).
    rewrite decide_True by done. set (st1 := <[new := set_range s (s + size - 1) rn]> st) in *.
    destruct (request_outcome st1 K root new (set_range s (s + size - 1) rn) Hwf1)
      as [(Hf&pre&post&st'&HK&Hrun&Hrel&Hwf)|(Hf&c&Hrun&_)];
      [by eapply detached_set_range|unfold st1; by rewrite lookup_insert_eq| |].
    + left. exists s, pre, post, st'. rewrite (run_bind _ _ _ _ _ Hrun). simpl in Hf.
      destruct (rl_ranges _ _ _ _ _ _ _ _ Hrel new) as [<- <-]. unfold st1 in *. rewrite !fld_insert, !decide_True by done.
      split_and!; try done. by apply (free_in_set_range st K root new rn s (s + size - 1)).
    + right. exists s, (s + size - 1). rewrite (run_bind _ _ _ _ _ Hrun). split_and!; [done|done|].
      intros H2 s1 Hsu Hfr. destruct (Hcomp s1 H2 Hsu Hfr) as (s'&e'&[= <- <-]&Hfr'). apply Hf.
      apply (free_in_set_range st K root new rn); try done. by apply Hfr'.
Qed.

(** ** Insertion above existing resources *)

(** C28. [insert_resource] goes down to the innermost resource that contains the range
    of [new]; there it links [new] among the children and the children that the range
    covers become its own children, in order.  It is refused with [-EBUSY] and no
    change exactly when the range sticks out of that resource or overlaps a child
    partially.  The tree stays well formed and the descent ends. *)
Theorem insert_resource_correct st K par new rn :
  wf st K -> detached_for st par new -> st !! new = Some rn -> K new = [] ->
  (exists q pre mid post st', descends st K rn par q /\ K q = pre ++ mid ++ post /\
     Forall (within st (start rn) (end_ rn)) mid /\
     insert_resource par new st = Some (0, st') /\ same_ranges st st' /\
     wf st' (insert_kids K q new pre mid post)) \/
  (exists q, descends st K rn par q /\ refused st K rn q /\ insert_resource par new st = Some (- EBUSY, st)).
Proof.
  intros W D Hn Hk. pose proof (detached_ne _ _ _ _ W D). pose proof (detached_parent _ _ _ _ D Hn).
  destruct D as (H1&H2&H3). destruct (wf_anch _ _ W par H1) as [l Hl]. unfold insert_resource, fuelled.
  destruct (insert_begin_run st K (S (size st)) par new rn l W) as [q|q pre mid post st']; [done..|lia| |].
  - right. exists q. done.
  - left. exists q, pre, mid, post, st'. done.
Qed.

Lemma adjust_outcome st K res r par rp s size :
  wf st K -> st !! res = Some r -> parent r = Some par -> st !! par = Some rp ->
  is_u32 s -> 1 <= size -> s + size <= 2^32 ->
  exists pre post, K par = pre ++ res :: post /\
    ((~ adjust_blocked st K rp res pre post s (s + size - 1) /\
      adjust_resource res s size st = Some (0, <[res := set_range s (s + size - 1) r]> st) /\
      wf (<[res := set_range s (s + size - 1) r]> st) K) \/
     (adjust_blocked st K rp res pre post s (s + size - 1) /\ adjust_resource res s size st = Some (- EBUSY, st))).
Proof.
  intros W Hr Hpar Hp Hs H1 Hsz.
  assert (Hin : res ∈ K par) by (apply (wf_link _ _ W); by rewrite (fld_Some _ _ _ _ Hr), Hpar).
  destruct (elem_of_split_first _ _ Hin) as (pre&post&HK&_). exists pre, post. split; [done|].
  pose proof (adjust_run st K par rp res r pre post s size W Hr Hpar Hp HK) as Hrun.
  assert (E : s +u size -u 1 = s + size - 1) by (rewrite u32_sub_l; apply u32_small; unfold is_u32 in *; lia).
  rewrite E in Hrun. destruct Hrun as [Hb|Hb]; [by right|left]. split_and!; [done|done|].
  pose proof (wf_laid _ _ W _ _ Hp) as Hlaid. rewrite HK in Hlaid. apply laid_app in Hlaid as [Hl1 Hl2].
  apply (laid_sublist _ _ _ _ post) in Hl2; [|by apply sublist_cons].
  assert (Hkids : Forall (within st s (s + size - 1)) (K res)).
  { rewrite list.Forall_forall. intros c Hc. destruct (wf_child W res c Hc) as (_&rc&_&Hrc&_&_&?&_). exists rc.
    destruct (decide (s <= start rc /\ end_ rc <= s + size - 1)); [split_and!; [done|lia..]|].
    destruct Hb. right; left. eauto. }
  eapply (wf_adjusted st K res r par rp pre post); try done; try (unfold is_u32 in *; lia).
  - destruct (decide (start rp <= s)); [done|]. destruct Hb. left. lia.
  - destruct (decide (s + size - 1 <= end_ rp)); [done|]. destruct Hb. left. lia.
  - eapply laid_ahead; [done|]. intros y q Hy Hq. destruct (decide (end_ q < s)); [done|].
    destruct Hb. do 3 right. exists y, q. split_and!; [done..|lia].
  - eapply laid_after; [done|]. intros y q Hy Hq. destruct (decide (s + size - 1 < start q)); [done|].
    destruct Hb. do 2 right; left. exists y, q. split_and!; [done..|lia].
Qed.

(** [adjust_resource] of a resource in the tree, to a range that does not wrap:
    it gets the new range exactly when the range stays inside the parent, around its
    children and clear of its neighbours, and the tree stays well formed with the same
    children; otherwise [-EBUSY] and no change. *)
Theorem adjust_resource_correct st K res r par rp s size :
  wf st K -> st !! res = Some r -> parent r = Some par -> st !! par = Some rp ->
  is_u32 s -> 1 <= size -> s + size <= 2^32 ->
  exists pre post, K par = pre ++ res :: post /\
    ((~ adjust_blocked st K rp res pre post s (s + size - 1) /\
      adjust_resource res s size st = Some (0, <[res := set_range s (s + size - 1) r]> st) /\
      wf (<[res := set_range s (s + size - 1) r]> st) K) \/
     (adjust_blocked st K rp res pre post s (s + size - 1) /\ adjust_resource res s size st = Some (- EBUSY, st))).
Proof. apply adjust_outcome. Qed.

(** ** Regions *)

(** No child of [p] that contains [s, e] lets the walk go on. *)
Definition stops st K (s e : Z) (p : rloc) : Prop :=
  forall c rc, c ∈ K p -> st !! c = Some rc -> start rc <= s -> e <= end_ rc -> BUSY rc = true.

Lemma container_unique st K s e p x y rx ry :
  wf st K -> s <= e -> x ∈ K p -> y ∈ K p -> st !! x = Some rx -> st !! y = Some ry ->
  start rx <= s -> e <= end_ rx -> start ry <= s -> e <= end_ ry -> x = y.
Proof.
  intros W Hse Hx Hy Hrx Hry ????. destruct (wf_child W p x Hx) as (rp&_&Hp&_).
  destruct (laid_apart _ _ _ _ x y rx ry (wf_laid _ _ W _ _ Hp) Hx Hy Hrx Hry) as [->|[?|?]]; [done|lia|lia].
Qed.

Lemma walks_det st K s e p q q' :
  wf st K -> s <= e -> walks st K s e p q -> walks st K s e p q' -> stops st K s e q -> stops st K s e q' -> q = q'.
Proof.
  intros W Hse Hw. induction Hw as [p|p c rc q Hc Hrc Hb ?? Hw IH]; intros Hw' Hst Hst'.
  - destruct Hw' as [|p c rc q' Hc Hrc Hb]; [done|]. by rewrite (Hst c rc) in Hb.
  - inversion Hw' as [|? c' rc' ? Hc' Hrc' Hb' ?? Hw'']; subst.
    + by rewrite (Hst' c rc) in Hb.
    + assert (c' = c) as -> by (by eapply (container_unique st K s e p)). by apply IH.
Qed.

Lemma split_unique (x : rloc) pre post pre' post' :
  pre ++ x :: post = pre' ++ x :: post' -> x ∉ pre -> x ∉ pre' -> pre' = pre /\ post' = post.
Proof.
  revert pre'. induction pre as [|a pre IH]; intros [|b pre'] E H1 H2; simpl in E.
  - by injection E as ->.
  - injection E as -> _. by destruct H2; left.
  - injection E as -> _. by destruct H1; left.
  - injection E as -> E. apply not_elem_of_cons in H1 as [_ H1], H2 as [_ H2]. by destruct (IH pre' E H1 H2) as [-> ->].
Qed.

(** A busy child with exactly the range is what [__release_region] removes. *)
Lemma release_region_finds st K par q x pre post rx s n :
  wf st K -> is_Some (st !! par) -> s <= s +u n -u 1 ->
  walks st K s (s +u n -u 1) par q -> K q = pre ++ x :: post ->
  st !! x = Some rx -> BUSY rx = true -> start rx = s -> end_ rx = s +u n -u 1 ->
  exists st', __release_region par s n st = Some (true, delete x st') /\
    relinked st st' q x pre (head post) (head post) (Some q).
Proof.
  intros W Hp Hse Hw HK Hx Hb Hs He. set (e := s +u n -u 1) in *.
  assert (Hin : x ∈ K q) by (rewrite HK; apply elem_of_app; right; left).
  assert (Hst : stops st K s e q).
  { intros c rc Hc Hrc ??. assert (c = x) as -> by (eapply (container_unique st K s e q); try done; lia). congruence. }
  destruct (wf_anch _ _ W par Hp) as [l Hl].
  assert (Hlen : (1 <= length l)%nat) by (destruct Hl; simpl; lia).
  unfold __release_region. fold e.
  destruct (unregion_run st K (S (size st) * S (size st)) par s e l W Hl) as [q' Hw' Hno|q' pre' y post' ry st' Hw' HK' Hy Hby Hys Hye Hrel _].
  - nia.
  - assert (Hst' : stops st K s e q').
    { intros c rc Hc Hrc ??. destruct (Hno c rc Hc Hrc) as (z&rz&Hz&Hrz&?&?&Hbz&_); [done..|].
      assert (c = z) as -> by (by eapply (container_unique st K s e q')). congruence. }
    assert (q' = q) as -> by (eapply walks_det; done).
    destruct (Hno x rx Hin Hx) as (z&rz&Hz&Hrz&?&?&Hbz&Hex); [lia..|].
    assert (z = x) as -> by (eapply (container_unique st K s e q); try done; lia). simplify_eq. tauto.
  - assert (Hyin : y ∈ K q') by (rewrite HK'; apply elem_of_app; right; left).
    assert (Hst' : stops st K s e q').
    { intros c rc Hc Hrc ??. assert (c = y) as -> by (eapply (container_unique st K s e q'); try done; lia). congruence. }
    assert (q' = q) as -> by (eapply walks_det; done).
    assert (y = x) as -> by (eapply (container_unique st K s e q); try done; lia).
    destruct (wf_split_notin _ _ _ _ _ _ W HK). destruct (wf_split_notin _ _ _ _ _ _ W HK').
    rewrite HK in HK'. destruct (split_unique x pre post pre' post') as [-> ->]; [done..|]. eauto.
Qed.

(** The walk to [q] is still there after a resource was linked below [q]. *)
Lemma walks_relinked st K res q pre post st' r0 s e p :
  wf st K -> st !! res = None -> K q = pre ++ post ->
  relinked (<[res := r0]> st) st' q res pre (Some res) (head post) (Some q) ->
  walks st K s e p q -> walks st' (<[q := pre ++ res :: post]> K) s e p q.
Proof.
  intros W Hn HK R Hw. revert HK R. induction Hw as [p|p c rc q Hc Hrc Hb ?? Hw IH]; intros HK R; [constructor|].
  assert (Hc' : <[res := r0]> st !! c = Some rc) by (rewrite lookup_insert_ne; [done|congruence]).
  destruct (same_ranges_lookup _ _ _ _ (rl_ranges _ _ _ _ _ _ _ _ R) Hc') as (rc'&Hrc'&E1&E2).
  assert (E3 : flags rc' = flags rc).
  { pose proof (rl_flags _ _ _ _ _ _ _ _ R c) as Hf. rewrite (fld_Some _ _ _ _ Hc'), (fld_Some _ _ _ _ Hrc') in Hf. congruence. }
  eapply (walk_down _ _ _ _ p c rc'); [|done| |lia|lia|by apply IH].
  - destruct (decide (q = p)) as [->|Hne]; [|by rewrite fn_lookup_insert_ne].
    rewrite fn_lookup_insert. rewrite HK in Hc. apply elem_of_app in Hc as [Hc|Hc]; apply elem_of_app; [by left|right; by right].
  - unfold BUSY in *. by rewrite E3.
Qed.

(** The freshly linked region in the store after [__request_region]. *)
Lemma region_linked st st' res q pre v sib s e :
  relinked (with_region st res s e) st' q res pre v sib (Some q) ->
  exists r, st' !! res = Some r /\ start r = s /\ end_ r = e /\ flags r = IORESOURCE_BUSY /\ parent r = Some q.
Proof.
  intros R. assert (Hn : with_region st res s e !! res = Some (Resource s e IORESOURCE_BUSY None None None)).
  { unfold with_region. by rewrite lookup_insert_eq. }
  destruct (same_ranges_lookup _ _ _ _ (rl_ranges _ _ _ _ _ _ _ _ R) Hn) as (r&Hr&?&?). exists r.
  pose proof (rl_flags _ _ _ _ _ _ _ _ R res) as Hf. pose proof (rl_parent _ _ _ _ _ _ _ _ R res) as Hp.
  rewrite decide_True in Hp by done. rewrite (fld_Some _ _ _ _ Hr) in Hf. rewrite (fld_Some _ _ _ _ Hr) in Hp. rewrite (fld_Some _ _ _ _ Hn) in Hf.
  simpl in *. split_and!; [done..|congruence|congruence].
Qed.

Lemma region_outcome st K par res s n :
  wf st K -> is_Some (st !! par) -> st !! res = None -> is_u32 s ->
  let e := s +u n -u 1 in
  __request_region None par s n st = Some (None, st) /\
  ((exists q pre post st', K q = pre ++ post /\
      __request_region (Some res) par s n st = Some (Some res, st') /\
      wf st' (<[q := pre ++ res :: post]> K) /\
      (exists r, st' !! res = Some r /\ start r = s /\ end_ r = e /\ BUSY r = true /\ s <= e) /\
      __release_region par s n st' = Some (true, st) /\
      __check_region (Some res) par s n st = Some (0, st)) \/
   (region_blocked st K par s e /\
      __request_region (Some res) par s n st = Some (None, st) /\
      __check_region (Some res) par s n st = Some (- EBUSY, st))).
Proof.
  intros W Hp Hn Hs e. split; [done|]. destruct (wf_anch _ _ W par Hp) as [l Hl].
  pose proof (region_loop_run st K (S (S (size st))) par res s e l W Hn Hs ltac:(apply u32_range) Hl ltac:(lia)) as Hrun.
  assert (Hreq : __request_region (Some res) par s n st = region_loop (S (S (size st))) par res (with_region st res s e)).
  { unfold __request_region, fuelled, with_region. rewrite map_size_insert_None by done. done. }
  rewrite <- Hreq in Hrun. clear Hreq. remember (__request_region (Some res) par s n st) as o eqn:Ho.
  destruct Hrun as [Hbl|q pre post st' rq Hw Hq ??? HK Hrel Hwf];
    unfold __check_region; rewrite (run_bind _ _ _ _ _ (eq_sym Ho)); [by right|left].
  exists q, pre, post, st'. destruct (region_linked _ _ _ _ _ _ _ _ _ Hrel) as (r&Hr&Hrs&Hre&Hrf&Hrp).
  assert (Hb : BUSY r = true) by (unfold BUSY; by rewrite Hrf).
  assert (HK' : (<[q := pre ++ res :: post]> K) q = pre ++ res :: post) by (by rewrite fn_lookup_insert).
  split_and!; [done|done|done|by exists r| |].
  - destruct (release_region_finds st' _ par q res pre post r s n Hwf) as (st2&->&Hrel2); try done.
    { apply (relinked_lookup _ _ _ _ _ _ _ _ par Hrel). unfold with_region. by apply lookup_insert_is_Some; right; split; [intros ->; destruct Hp; congruence|]. }
    { by eapply walks_relinked. }
    by rewrite (relink_undo st K res _ q pre post st' st2 _ _ W Hn ltac:(eauto) HK Hrel Hrel2).
  - destruct (release_run st' _ res r q Hwf Hr Hrp) as (pre'&post'&st2&HK2&Hrun2&Hrel2).
    destruct (wf_split_notin _ _ _ _ _ _ Hwf HK'), (wf_split_notin _ _ _ _ _ _ Hwf HK2). rewrite HK' in HK2.
    unfold release_resource. rewrite (run_bind _ _ st' 0 st2) by (by rewrite (run_bind _ _ _ _ _ Hrun2)).
    destruct (split_unique res pre post pre' post') as [-> ->]; [done..|]. unfold kfree, mbind, ResM_bind, SM_bind. simpl.
    by rewrite (relink_undo st K res _ q pre post st' st2 _ _ W Hn ltac:(eauto) HK Hrel Hrel2).
Qed.

(** C29. [__request_region] with a fresh resource either links a busy resource with
    exactly the range [start, start + n - 1] below [parent], keeping the tree well
    formed, and then [__release_region] with the same arguments finds it, frees it and
    gives the very same store back, and [__check_region] answers 0; or the range is
    not one inside [parent] or meets a busy or partially overlapping resource, and
    both leave the store alone, with a null pointer and [-EBUSY].  Without memory
    nothing happens. *)
Theorem region_roundtrip st K par res s n :
  wf st K -> is_Some (st !! par) -> st !! res = None -> is_u32 s ->
  let e := s +u n -u 1 in
  __request_region None par s n st = Some (None, st) /\
  ((exists q pre post st', K q = pre ++ post /\
      __request_region (Some res) par s n st = Some (Some res, st') /\
      wf st' (<[q := pre ++ res :: post]> K) /\
      (exists r, st' !! res = Some r /\ start r = s /\ end_ r = e /\ BUSY r = true /\ s <= e) /\
      __release_region par s n st' = Some (true, st) /\
      __check_region (Some res) par s n st = Some (0, st)) \/
   (region_blocked st K par s e /\
      __request_region (Some res) par s n st = Some (None, st) /\
      __check_region (Some res) par s n st = Some (- EBUSY, st))).
Proof. apply region_outcome. Qed.

(** ** Every operation keeps the tree *)







(** ** Concrete trees *)

(** Resources that are not linked yet form a well-formed tree without children. *)
Lemma wf_unlinked_all st :
  map_Forall (fun _ r => parent r = None /\ child r = None /\ is_u32 (start r) /\ is_u32 (end_ r)) st ->
  wf st (fun _ => []).
Proof.
  intros H. split.
  - intros x r (_&->&_)%H. done.
  - intros x r _. split; constructor.
  - intros p c. split; [by intros ?%not_elem_of_nil|]. intros (r&(Hr&_)%H&?)%fld_inv. congruence.
  - intros x [r Hr]. exists [x]. constructor. destruct (H _ _ Hr) as (E&_). by rewrite (fld_Some _ _ _ _ Hr), E.
  - intros x r (_&_&?)%H. done.
Qed.

(** Above a resource without a parent there is nothing. *)
Lemma detached_top st root new :
  fld parent st root = Some None -> fld parent st new = Some None -> root <> new -> detached_for st root new.
Proof.
  intros Hr Hn Hne. split_and!; [destruct (fld_inv _ _ _ _ Hr) as (?&->&_); eauto|done|].
  intros l Hl Hin. inversion Hl; subst; [|congruence]. by apply list_elem_of_singleton in Hin.
Qed.

(** [iomem_resource] (1), a device window (2) and a larger window (3). *)
Definition w_new : resource := Resource 0x1000 0x1fff 0 None None None.
Definition w_big : resource := Resource 0x0 0xffff 0 None None None.
Definition w0 : rstore :=
  {[ 1%positive := Resource 0 0xffffffff 0 None None None; 2%positive := w_new; 3%positive := w_big ]}.

(** [w0] with 2 below 1. *)
Definition w1 : rstore :=
  {[ 1%positive := Resource 0 0xffffffff 0 None None (Some 2%positive);
     2%positive := set_parent (Some 1%positive) w_new; 3%positive := w_big ]}.

Lemma w0_wf : wf w0 (fun _ => []).
Proof. apply wf_unlinked_all. apply (bool_decide_unpack _). vm_compute. reflexivity. Qed.

Lemma w0_detached : detached_for w0 1 2.
Proof. by apply detached_top. Qed.

Lemma w1_wf : wf w1 (<[1%positive := [2%positive]]> (fun _ => [])).
Proof.
  destruct (request_outcome w0 (fun _ => []) 1 2 w_new w0_wf w0_detached eq_refl)
    as [(_&pre&post&st'&HK&Hrun&_&Hwf)|(_&c&Hrun&_)].
  - destruct pre; [|done]. destruct post; [|done]. vm_compute in Hrun. injection Hrun as <-. exact Hwf.
  - vm_compute in Hrun. discriminate Hrun.
Qed.

Lemma w1_detached : detached_for w1 1 3.
Proof. by apply detached_top. Qed.

Lemma request_resource_witness : exists pre post st',
  [] = pre ++ post /\ request_resource 1 2 w0 = Some (0, st') /\ ____request_resource 1 2 w0 = Some (None, st') /\
  wf st' (<[1%positive := pre ++ 2%positive :: post]> (fun _ => [])).
Proof.
  destruct (request_resource_correct w0 (fun _ => []) 1 2 w_new w0_wf w0_detached eq_refl) as [[_ H]|[_ (c&H&_)]].
  - exact H.
  - vm_compute in H. discriminate H.
Defined.

Lemma release_resource_witness : exists st', release_resource 2 w1 = Some (0, st') /\ fld parent st' 2 = Some None.
Proof.
  destruct (release_resource_correct w1 _ 2 (set_parent (Some 1%positive) w_new) 1 w1_wf eq_refl eq_refl)
    as (pre&post&st'&_&H&_&Hp&_). exists st'. exact (conj H Hp).
Defined.

Lemma w_args : alloc_args 0x100 0x1000 0xffff 0x10.
Proof. split; [lia|unfold is_u32; lia..|]. exists 4. split; [lia|reflexivity]. Qed.

Lemma allocate_resource_witness : exists st' s,
  allocate_resource 1 3 0x100 0x1000 0xffff 0x10 None w1 = Some (0, st') /\ fld start st' 3 = Some s /\
  fld end_ st' 3 = Some (s + 0x100 - 1) /\ (0x10 | s).
Proof.
  destruct (allocate_resource_correct w1 _ 1 3 w_big 0x100 0x1000 0xffff 0x10 w1_wf w1_detached eq_refl eq_refl w_args)
    as [(s&pre&post&st'&_&H&Hs&He&_&Ha&_)|(s&e&H&_)].
  - exists st', s. exact (conj H (conj Hs (conj He Ha))).
  - vm_compute in H. discriminate H.
Defined.

Lemma insert_resource_witness : exists q pre mid post st',
  (<[1%positive := [2%positive]]> (fun _ => [])) q = pre ++ mid ++ post /\
  insert_resource 1 3 w1 = Some (0, st') /\
  wf st' (insert_kids (<[1%positive := [2%positive]]> (fun _ => [])) q 3 pre mid post).
Proof.
  destruct (insert_resource_correct w1 _ 1 3 w_big w1_wf w1_detached eq_refl eq_refl)
    as [(q&pre&mid&post&st'&_&H1&_&H2&_&H3)|(q&_&_&H)].
  - exists q, pre, mid, post, st'. exact (conj H1 (conj H2 H3)).
  - vm_compute in H. discriminate H.
Defined.

Lemma adjust_resource_witness :
  adjust_resource 2 0x800 0x1000 w1 = Some (0, <[2%positive := set_range 0x800 0x17ff (set_parent (Some 1%positive) w_new)]> w1) /\
  wf (<[2%positive := set_range 0x800 0x17ff (set_parent (Some 1%positive) w_new)]> w1)
    (<[1%positive := [2%positive]]> (fun _ => [])).
Proof.
  destruct (adjust_resource_correct w1 _ 2 (set_parent (Some 1%positive) w_new) 1
    (Resource 0 0xffffffff 0 None None (Some 2%positive)) 0x800 0x1000 w1_wf eq_refl eq_refl eq_refl)
    as (pre&post&_&[(_&H1&H2)|[_ H]]); [unfold is_u32; lia|lia|lia|exact (conj H1 H2)|].
  vm_compute in H. discriminate H.
Defined.

Lemma region_roundtrip_witness : exists st',
  __request_region (Some 4%positive) 1 0x1200 0x100 w1 = Some (Some 4%positive, st') /\
  __release_region 1 0x1200 0x100 st' = Some (true, w1) /\
  __check_region (Some 4%positive) 1 0x1200 0x100 w1 = Some (0, w1).
Proof.
  destruct (region_roundtrip w1 _ 1 4 0x1200 0x100 w1_wf ltac:(by eexists) eq_refl ltac:(unfold is_u32; lia))
    as [_ [(q&pre&post&st'&_&H1&_&_&H2&H3)|(_&H&_)]].
  - exists st'. exact (conj H1 (conj H2 H3)).
  - vm_compute in H. discriminate H.
Defined.


(** ** Corner cases *)

(** ** Where the code falls short *)

(** What the search finds is linked when it is free. *)
Lemma alloc_found st K root new rn rr size min max align s e :
  wf st K -> detached_for st root new -> st !! new = Some rn -> K new = [] -> st !! root = Some rr ->
  search_from size min max align None rr (range_of st <$> K root) = (true, (s, e)) ->
  is_u32 s -> is_u32 e -> free_in st K root s e ->
  exists st', allocate_resource root new size min max align None st = Some (0, st') /\
    fld start st' new = Some s /\ fld end_ st' new = Some e.
Proof.
  intros W D Hn Hkn Hr Es Hus Hue Hfree.
  pose proof (detached_ne _ _ _ _ W D) as Hne. pose proof (detached_parent _ _ _ _ D Hn) as Hpar.
  pose proof (find_resource_run size min max align None st K root new rr rn W Hne Hr Hn Hpar) as Hfind.
  rewrite Es in Hfind. unfold allocate_resource. rewrite (run_bind _ _ _ _ _ Hfind). rewrite decide_True by done.
  set (st1 := <[new := set_range s e rn]> st) in *.
  destruct (request_outcome st1 K root new (set_range s e rn)) as [(_&pre&post&st'&_&Hrun&Hrel&_)|(Hf&_)].
  - by apply wf_set_range.
  - by eapply detached_set_range.
  - unfold st1. by rewrite lookup_insert_eq.
  - exists st'. rewrite (run_bind _ _ _ _ _ Hrun). split; [done|].
    destruct (rl_ranges _ _ _ _ _ _ _ _ Hrel new) as [<- <-]. unfold st1. by rewrite !fld_insert, !decide_True by done.
  - destruct Hf. apply (free_in_set_range st K root new rn); try done. apply D.
Qed.

(** [ALIGN] of a start in the last [2^k - 1] addresses is zero. *)
Lemma fit_wraps size min max k e0 :
  1 <= size < 2^32 -> is_u32 min -> is_u32 max -> 0 <= k < 32 -> is_u32 e0 -> 2^32 - 2^k < min ->
  Z.max 1 (size - 1) <= max -> Z.max 1 (size - 1) <= e0 ->
  exists e, fit_gap size min max (2^k) None 0 e0 = (0, e) /\ gap_ok size (0, e).
Proof.
  intros Hsz Hmn Hmx Hk He0 Hw H1 H2. unfold fit_gap, gap_ok.
  assert (Hp : 1 <= 2^k) by (apply (Z.pow_le_mono_r 2 0); lia).
  assert (2^k <= 2^31) by (apply Z.pow_le_mono_r; lia).
  rewrite (decide_True (P := 0 < min)) by lia. destruct (align_up_spec min k Hmn Hk) as (Hy&[q Hq]&[Hc|[-> _]]).
  { exfalso. unfold is_u32 in *. pose proof (aligned_limit size k Hsz Hk (align_up min (2^k)) ltac:(by exists q)). lia. }
  eexists. split; [done|]. simpl. rewrite (u32_small (size - 1)) by (unfold is_u32; lia).
  case_decide; rewrite u32_small by (unfold is_u32 in *; lia); lia.
Qed.

Lemma search_wraps st K root rr size min max k :
  wf st K -> st !! root = Some rr -> 1 <= size < 2^32 -> is_u32 min -> is_u32 max -> 0 <= k < 32 ->
  2^32 - 2^k < min -> Z.max 1 (size - 1) <= max -> free_in st K root 0 (Z.max 1 (size - 1)) ->
  search_from size min max (2^k) None rr (range_of st <$> K root) = (true, (0, size - 1)).
Proof.
  intros W Hr Hsz Hmn Hmx Hk Hw H1 [(r&?&H0&_&He) Hfree]. simplify_eq.
  destruct (wf_range _ _ W _ _ Hr) as [Hs Hend]. assert (start rr = 0) as Hz by (unfold is_u32 in *; lia).
  apply (range_of_elem st K root _ _ W) in Hfree. pose proof (laid_ordered _ _ _ _ (wf_laid _ _ W _ _ Hr)) as Hord.
  assert (Hwrap : u32 (u32 (0 + size) - 1) = size - 1).
  { rewrite u32_sub_l. apply u32_small. unfold is_u32. lia. }
  destruct (range_of st <$> K root) as [|[a b] rs]; unfold search_from; rewrite Hz in *.
  - destruct (fit_wraps size min max k (end_ rr)) as (e&Ef&Hok); [done..|]. cbn [first_fit].
    rewrite Ef, decide_True by done. simpl. by rewrite Hwrap.
  - inversion Hfree as [|?? Ha _]; subst. simpl in Ha, Hord. rewrite decide_False by lia.
    unfold is_u32 in *. assert (Ea : a -u 1 = a - 1) by (apply u32_small; unfold is_u32; lia).
    destruct (fit_wraps size min max k (a - 1)) as (e&Ef&Hok); [done..|unfold is_u32; lia|done|done|lia|]. cbn [first_fit].
    rewrite Ea, Ef, decide_True by done. simpl. by rewrite Hwrap.
Qed.

(** For one address the test of a gap asks for two. *)
Lemma one_fit min max s0 e0 s e :
  is_u32 min -> is_u32 s0 -> fit_gap 1 min max 1 None s0 e0 = (s, e) -> gap_ok 1 (s, e) ->
  is_u32 s /\ s0 <= s /\ s + 1 <= e0.
Proof.
  intros Hmn Hs0 Hf [Hlt _]. simpl in Hlt. unfold fit_gap in Hf. injection Hf as Hs He.
  assert (Hx : is_u32 (if decide (s0 < min) then min else s0)) by (by destruct (decide (s0 < min))).
  pose proof (align_up_spec _ 0 Hx ltac:(lia)) as (Hu&_&Hc). change (2^0) with 1 in *. rewrite Hs in *.
  split; [done|]. unfold is_u32 in *. repeat case_decide; lia.
Qed.

Lemma one_search min max rend rs : forall s0 s e,
  is_u32 min -> is_u32 s0 -> 0 <= rend < 2^32 - 1 -> ordered s0 rend rs ->
  match rs with (a, _) :: _ => 0 < a | [] => True end ->
  first_fit 1 min max 1 None s0 rs rend = (true, (s, e)) ->
  is_u32 s /\ s0 <= s /\ s + 1 <= rend /\ avoids s (s + 1) rs.
Proof.
  induction rs as [|[a b] rs IH]; intros s0 s e Hmn Hs0 Hrend Hord Ha; cbn [first_fit].
  - destruct (fit_gap _ _ _ _ _ _ _) as [s1 e1] eqn:Ef. case_decide as Hok; [|done]. intros [= -> _].
    destruct (one_fit _ _ _ _ _ _ Hmn Hs0 Ef Hok) as (?&?&?). split_and!; [done|done|done|constructor].
  - simpl in Hord. destruct Hord as (?&?&?&Hord). unfold is_u32 in Hs0.
    assert (Ea : a -u 1 = a - 1) by (apply u32_small; unfold is_u32; lia).
    assert (Eb : b +u 1 = b + 1) by (apply u32_small; unfold is_u32; lia). rewrite Ea, Eb.
    destruct (fit_gap _ _ _ _ _ _ _) as [s1 e1] eqn:Ef. case_decide as Hok.
    + intros [= -> _]. destruct (one_fit _ _ _ _ _ _ Hmn Hs0 Ef Hok) as (?&?&?).
      split_and!; [done|done|lia|]. constructor; [simpl; lia|]. eapply ordered_avoids; [done|lia].
    + intros Hrun. apply IH in Hrun as (?&?&?&?); [|done|unfold is_u32; lia|done|done|].
      * split_and!; [done|lia|done|]. constructor; [simpl; lia|done].
      * destruct rs as [|[a' b'] rs]; [done|]. simpl in Hord. lia.
Qed.

(** A single free address is never handed out when no two adjacent ones are free. *)
Lemma one_refused st K root new rr min max :
  wf st K -> detached_for st root new -> st !! root = Some rr -> end_ rr < 2^32 - 1 -> is_u32 min ->
  (forall s, ~ free_in st K root s (s + 1)) ->
  exists st', allocate_resource root new 1 min max 1 None st = Some (- EBUSY, st').
Proof.
  intros W D Hr Hend Hmn Hno. pose proof (detached_ne _ _ _ _ W D) as Hne.
  pose proof D as (_&Hnp&_). unfold fld in Hnp. destruct (st !! new) as [rn|] eqn:Hn; [|done].
  pose proof (detached_parent _ _ _ _ D Hn) as Hpar. destruct (wf_range _ _ W _ _ Hr) as [Hs He].
  pose proof (find_resource_run 1 min max 1 None st K root new rr rn W Hne Hr Hn Hpar) as Hfind.
  pose proof (laid_ordered _ _ _ _ (wf_laid _ _ W _ _ Hr)) as Hord.
  destruct (search_from 1 min max 1 None rr (range_of st <$> K root)) as [ok [s e]] eqn:Es.
  unfold allocate_resource. rewrite (run_bind _ _ _ _ _ Hfind). destruct ok; [exfalso|by eexists].
  assert (Hfound : start rr <= s /\ s + 1 <= end_ rr /\ avoids s (s + 1) (range_of st <$> K root)).
  { unfold search_from in Es. unfold is_u32 in He. destruct (range_of st <$> K root) as [|[a b] rs]; [|case_decide as Ha].
    - apply one_search in Es as (_&?&?&?); [done|done|done|lia|done|done].
    - subst a. simpl in Hord. destruct Hord as (?&?&?&Hord).
      assert (Eb : b +u 1 = b + 1) by (apply u32_small; unfold is_u32; lia). rewrite Eb in Es.
      apply one_search in Es as (_&?&?&?); [|done|unfold is_u32; lia|lia|done|].
      + split_and!; [lia|done|]. constructor; [simpl; lia|done].
      + destruct rs as [|[a' b'] rs]; [done|]. simpl in Hord. lia.
    - apply one_search in Es as (_&?&?&?); [done|done|done|lia|done|].
      simpl in Hord. unfold is_u32 in Hs. lia. }
  destruct Hfound as (?&?&Hav). apply (Hno s). split; [exists rr; split_and!; done || lia|]. by apply range_of_elem.
Qed.

(** Size zero at the start of a resource without children. *)
Lemma adjust_zero st K res r par :
  wf st K -> st !! res = Some r -> parent r = Some par -> K res = [] -> 1 <= start r ->
  adjust_resource res (start r) 0 st = Some (0, <[res := set_range (start r) (start r - 1) r]> st) /\
  forall K', ~ wf (<[res := set_range (start r) (start r - 1) r]> st) K'.
Proof.
  intros W Hr Hpar Hkids H1. destruct (wf_range _ _ W _ _ Hr) as [Hs He].
  assert (Hin : res ∈ K par) by (apply (wf_link _ _ W); by rewrite (fld_Some _ _ _ _ Hr), Hpar).
  destruct (wf_child W par res Hin) as (rp&r0&Hp&Hr0&_&Hlo&Hle&Hhi). simplify_eq.
  destruct (elem_of_split_first _ _ Hin) as (pre&post&HK&_). split.
  - pose proof (adjust_run st K par rp res r pre post (start r) 0 W Hr Hpar Hp HK) as Hrun.
    assert (E : start r +u 0 -u 1 = start r - 1).
    { rewrite u32_sub_l, Z.add_0_r. apply u32_small. unfold is_u32 in *. lia. }
    rewrite E in Hrun. destruct Hrun as [Hb|Hb]; [exfalso|done].
    pose proof (wf_laid _ _ W _ _ Hp) as [_ Hsort]. rewrite HK in Hsort.
    apply StronglySorted_app in Hsort as (Hpre&_&Hpost). inversion Hpost as [|?? _ Hafter]; subst.
    rewrite list.Forall_forall in Hafter.
    destruct Hb as [Hb|[(c&rc&Hc&_)|[(c&rc&Hc&Hrc&Hlt)|(c&rc&Hc&Hrc&Hlt)]]].
    + lia.
    + rewrite Hkids in Hc. by apply not_elem_of_nil in Hc.
    + destruct post as [|y post]; [done|]. injection Hc as ->.
      destruct (Hafter c ltac:(by left)) as (q&q'&?&?&?). simplify_eq. lia.
    + apply last_Some in Hc as [pre' ->].
      destruct (Hpre c res) as (q&q'&?&?&?); [apply elem_of_app; right; by left|by left|]. simplify_eq. lia.
  - intros K' W'. set (r' := set_range (start r) (start r - 1) r) in *.
    assert (Hr' : <[res := r']> st !! res = Some r') by (by rewrite lookup_insert_eq).
    assert (Hin' : res ∈ K' par) by (apply (wf_link _ _ W'); rewrite (fld_Some _ _ _ _ Hr'); simpl; congruence).
    destruct (wf_child W' par res Hin') as (_&q&_&Hq&_&_&Hle'&_). simplify_eq. simpl in Hle'. lia.
Qed.

(** C30. Where the code does not do what its parameters ask for.
    - [ALIGN] wraps in [find_resource]: with [min] among the last [align - 1] addresses, a
      request is answered with the range from address 0, below [min], in every tree where
      the first [max 1 (size - 1) + 1] addresses are free.
    - A gap is only taken when [new->start < new->end]: in a root that ends below the last
      address, where no two adjacent addresses are free, every request for one address fails,
      although single addresses may be free.
    - [adjust_resource] takes a size of 0, for every resource of a tree that has no children
      and does not start at address 0: it succeeds and leaves an inverted range behind, which
      no well-formed tree has. *)
Theorem resource_edge_cases st K :
  wf st K ->
  (forall root new rn size min max align, detached_for st root new -> st !! new = Some rn -> K new = [] ->
     alloc_args size min max align -> 2^32 - align < min -> Z.max 1 (size - 1) <= max ->
     free_in st K root 0 (Z.max 1 (size - 1)) ->
     exists st', allocate_resource root new size min max align None st = Some (0, st') /\
       fld start st' new = Some 0 /\ fld end_ st' new = Some (size - 1) /\ 0 < min) /\
  (forall root new rr min max, detached_for st root new -> st !! root = Some rr -> end_ rr < 2^32 - 1 ->
     is_u32 min -> (forall s, ~ free_in st K root s (s + 1)) ->
     exists st', allocate_resource root new 1 min max 1 None st = Some (- EBUSY, st')) /\
  (forall res r par, st !! res = Some r -> parent r = Some par -> K res = [] -> 1 <= start r ->
     adjust_resource res (start r) 0 st = Some (0, <[res := set_range (start r) (start r - 1) r]> st) /\
     forall K', ~ wf (<[res := set_range (start r) (start r - 1) r]> st) K').
Proof.
  intros W. split_and!.
  - intros root new rn size min max align D Hn Hkn [Hsz Hmn Hmx (k&Hk&->)] Hw H1 Hfree.
    pose proof Hfree as [(rr&Hr&?&_&?) Hclash].
    pose proof (search_wraps st K root rr size min max k W Hr Hsz Hmn Hmx Hk Hw H1 Hfree) as Es.
    destruct (alloc_found st K root new rn rr size min max (2^k) 0 (size - 1)) as (st'&?&?&?); try done.
    + unfold is_u32. lia.
    + split; [exists rr; split_and!; done || lia|]. intros c Hc (q&?&?&?). apply (Hclash c Hc). exists q. split_and!; done || lia.
    + exists st'. assert (2^k <= 2^31) by (apply Z.pow_le_mono_r; lia). split_and!; [done..|lia].
  - intros. by eapply one_refused.
  - intros. by eapply adjust_zero.
Qed.

(** A root of one address. *)
Definition w_narrow : rstore :=
  {[ 1%positive := Resource 0x10 0x10 0 None None None; 2%positive := w_new ]}.

Lemma resource_edge_cases_witness :
  (exists st', allocate_resource 1 3 0x100 0xfffff001 0xffffffff 0x1000 None w1 = Some (0, st') /\
     fld start st' 3 = Some 0 /\ fld end_ st' 3 = Some 0xff) /\
  (free_in w_narrow (fun _ => []) 1 0x10 0x10 /\
   exists st', allocate_resource 1 2 1 0 0xffff 1 None w_narrow = Some (- EBUSY, st')) /\
  (exists st', adjust_resource 2 0x1000 0 w1 = Some (0, st') /\ fld end_ st' 2 = Some 0xfff).
Proof.
  split_and!.
  - destruct (proj1 (resource_edge_cases w1 _ w1_wf) 1%positive 3%positive w_big 0x100 0xfffff001 0xffffffff 0x1000) as (st'&H&Hs&He&_);
      [exact w1_detached|done|done| |lia|lia| |exists st'; exact (conj H (conj Hs He))].
    + split; [lia|unfold is_u32; lia..|]. exists 12. split; [lia|done].
    + split; [eexists; split_and!; [done|simpl; lia..]|]. intros c Hc (q&Hq&H1&H2).
      apply list_elem_of_singleton in Hc as ->. injection Hq as <-. by vm_compute in H1.
  - split; [eexists; split_and!; [done|simpl; lia..]|by intros c ?%not_elem_of_nil].
  - assert (W : wf w_narrow (fun _ => [])) by (apply wf_unlinked_all; apply (bool_decide_unpack _); vm_compute; reflexivity).
    apply (proj1 (proj2 (resource_edge_cases w_narrow _ W)) 1%positive 2%positive (Resource 0x10 0x10 0 None None None)).
    + by apply detached_top.
    + done.
    + simpl. lia.
    + unfold is_u32. lia.
    + intros s [(r&Hr&H1&_&H2) _]. vm_compute in Hr. injection Hr as <-. cbn in H1, H2. lia.
  - destruct (proj2 (proj2 (resource_edge_cases w1 _ w1_wf)) 2%positive (set_parent (Some 1%positive) w_new) 1%positive) as [H _];
      [done|done|done|simpl; lia|]. eexists. split; [exact H|]. reflexivity.
Defined.
