(* ===== verification/Digest.v ===== *)
(** Block digests: what the [update] functions of [crypto/sha1.c],
    [crypto/sha256.c], [crypto/md5.c] and [crypto/md4.c] have in common.

    A message is hashed block by block; a context that has absorbed a message holds
    the hash of its complete blocks and buffers the rest.  This file has the big-endian
    words of the SHA family, the hash over the blocks as a reference definition, and
    the lemmas on how a message splits into blocks that each [update] needs. *)
From Stdlib Require Import ZArith Lia.
From stdpp Require Import base numbers list list_numbers option.
From S2P Require Import Prelude Bytes.

Local Open Scope Z_scope.
Local Open Scope kernel_scope.

(** ** Words *)

(** [be32_to_cpu] of the word at byte [off]. *)
Definition be32_in (b : bytes) (off : nat) : Z := le_word (rev (take 4 (drop off b))).

(** A [let] that reduction keeps shared, for the long unrolled block functions. *)
Definition Let_In {A B : Type} (v : A) (f : A -> B) : B := let x := v in f x.
Notation "'dlet' x := v 'in' y" := (Let_In v (fun x => y)) (at level 10, x name, y at level 200).

(** The bytes of a word, the high one first. *)
Definition be_bytes (n : nat) (x : Z) : bytes := rev (le_bytes n x).

Definition be32_out (x : Z) : bytes := be_bytes 4 x.

(** An element of an array of words. *)
Definition word (w : list Z) (i : nat) : Z := nth i w 0.

(** The words of [n] * 4 bytes. *)
Definition le_words (n : nat) (b : bytes) : list Z := (fun i => u32_in b (4 * i)) <$> seq 0 n.
Definition be_words (n : nat) (b : bytes) : list Z := (fun i => be32_in b (4 * i)) <$> seq 0 n.

(** Addition word by word, [hash[i] += x[i]]. *)
Definition add_words : list Z -> list Z -> list Z := zip_with (fun x y => x +u y).


(** ** Buffering *)

(** [memcpy(buf + j, data + i, n)] after the first [j] bytes of a buffer. *)
Lemma memcpy_buffer (buf data : bytes) (j i n : nat) :
  (i + n <= length data)%nat -> (j + n <= length buf)%nat ->
  exists buf', memcpy buf (Z.of_nat j) data (Z.of_nat i) (Z.of_nat n) = Some buf' /\
    length buf' = length buf /\ take (j + n) buf' = take j buf ++ take n (drop i data).
Proof.
  intros Hd Hb. unfold memcpy. rewrite mem_read_Some by (unfold zlen; lia). simpl. rewrite !Nat2Z.id.
  assert (Hl : length (take n (drop i data)) = n) by (rewrite length_take, length_drop; lia).
  rewrite mem_write_Some by (unfold zlen; rewrite ?Hl; lia). rewrite Hl, Nat2Z.id.
  eexists. split; [done|]. split.
  - rewrite !length_app, Hl, length_take, length_drop. lia.
  - rewrite app_assoc, take_app_le by (rewrite length_app, Hl, length_take; lia).
    apply take_ge. rewrite length_app, Hl, length_take. lia.
Qed.

Lemma memcpy_Forall (P : Z -> Prop) buf data j i n buf' :
  memcpy buf j data i n = Some buf' -> Forall P buf -> Forall P data -> Forall P buf'.
Proof.
  unfold memcpy, mem_read, mem_write. case_decide; [|done]. cbn [mbind option_bind]. case_decide; [|done].
  intros [= <-] Hb Hd. rewrite !Forall_app.
  split_and!; [by apply Forall_take|by apply Forall_take, Forall_drop|by apply Forall_drop].
Qed.

(** A store of the bytes [d] right after the first [j] bytes. *)
Lemma mem_write_buffer (buf d : bytes) (j : nat) :
  (j + length d <= length buf)%nat ->
  exists buf', mem_write buf (Z.of_nat j) d = Some buf' /\
    length buf' = length buf /\ take (j + length d) buf' = take j buf ++ d.
Proof.
  intros Hb. destruct (memcpy_buffer buf d j 0 (length d)) as (buf'&E&Hl&Ht); [lia|lia|].
  rewrite drop_0, (take_ge d) in Ht by lia. exists buf'. split_and!; [|done|done].
  unfold memcpy in E. rewrite mem_read_Some in E by (unfold zlen; lia). simpl in E.
  rewrite drop_0, Nat2Z.id, (take_ge d) in E by lia. done.
Qed.

(** ** Hashing the blocks of a message *)

Section Blocks.
Context (transform : list Z -> bytes -> list Z).

(** The hash after the first [n] blocks of 64 bytes of [m]. *)
Fixpoint blocks (n : nat) (h : list Z) (m : bytes) : list Z :=
  match n with
  | O => h
  | S n => blocks n (transform h (take 64 m)) (drop 64 m)
  end.

(** All complete blocks of a message, and what is left over. *)
Definition nblocks (m : bytes) : nat := length m / 64.
Definition hash_blocks (h : list Z) (m : bytes) : list Z := blocks (nblocks m) h m.
Definition leftover (m : bytes) : bytes := drop (64 * nblocks m) m.

Lemma blocks_add n k h m : blocks (n + k) h m = blocks k (blocks n h m) (drop (64 * n) m).
Proof.
  revert h m. induction n as [|n IH]; intros h m; simpl; [by rewrite drop_0|].
  rewrite IH, drop_drop. do 2 f_equal. lia.
Qed.

(** Only the hashed bytes matter. *)
Lemma blocks_app n h m m' : (64 * n <= length m)%nat -> blocks n h (m ++ m') = blocks n h m.
Proof.
  revert h m. induction n as [|n IH]; intros h m Hl; simpl; [done|].
  rewrite take_app_le, drop_app_le by lia. apply IH. rewrite length_drop. lia.
Qed.

Lemma nblocks_bound m : (64 * nblocks m <= length m < 64 * nblocks m + 64)%nat.
Proof.
  unfold nblocks. pose proof (Nat.div_mod_eq (length m) 64) as H.
  pose proof (Nat.mod_upper_bound (length m) 64 ltac:(lia)). lia.
Qed.

Lemma nblocks_unique m n : (64 * n <= length m < 64 * n + 64)%nat -> nblocks m = n.
Proof. intros H. pose proof (nblocks_bound m). lia. Qed.

Lemma length_leftover m : length (leftover m) = (length m mod 64)%nat.
Proof.
  unfold leftover, nblocks. rewrite length_drop. pose proof (Nat.div_mod_eq (length m) 64). lia.
Qed.

Lemma leftover_lt m : (length (leftover m) < 64)%nat.
Proof. rewrite length_leftover. by apply Nat.mod_upper_bound. Qed.

Lemma hash_blocks_nil h : hash_blocks h [] = h.
Proof. done. Qed.

Lemma hash_blocks_one h b : length b = 64%nat -> hash_blocks h b = transform h b.
Proof.
  intros Hb. unfold hash_blocks. rewrite (nblocks_unique b 1) by lia. simpl. by rewrite take_ge by lia.
Qed.

(** [d] does not fill the block that is being buffered. *)
Lemma absorb_short h m d : (length (leftover m) + length d < 64)%nat ->
  hash_blocks h (m ++ d) = hash_blocks h m /\ leftover (m ++ d) = leftover m ++ d.
Proof.
  intros Hd. pose proof (nblocks_bound m) as Hb. unfold leftover in Hd. rewrite length_drop in Hd.
  assert (E : nblocks (m ++ d) = nblocks m) by (apply nblocks_unique; rewrite length_app; lia).
  unfold hash_blocks, leftover. rewrite E. split; [apply blocks_app; lia|].
  by rewrite drop_app_le by lia.
Qed.

(** [d] fills it, and [k] more blocks. *)
Lemma absorb_long h m d : (64 <= length (leftover m) + length d)%nat ->
  let i := (64 - length (leftover m))%nat in
  hash_blocks h (m ++ d) =
    hash_blocks (transform (hash_blocks h m) (leftover m ++ take i d)) (drop i d) /\
  leftover (m ++ d) = leftover (drop i d).
Proof.
  intros Hd i. pose proof (nblocks_bound m) as Hb. pose proof (leftover_lt m) as Hl.
  assert (El : length (leftover m) = (length m - 64 * nblocks m)%nat) by (unfold leftover; by rewrite length_drop).
  pose proof (nblocks_bound (drop i d)) as Hr. rewrite length_drop in Hr.
  assert (E : nblocks (m ++ d) = (nblocks m + S (nblocks (drop i d)))%nat).
  { apply nblocks_unique. rewrite length_app. unfold i in *. lia. }
  assert (Em : drop (64 * nblocks m) (m ++ d) = leftover m ++ d) by (by rewrite drop_app_le by lia).
  assert (Et : take 64 (leftover m ++ d) = leftover m ++ take i d) by (rewrite take_app_ge by lia; done).
  assert (Ed : drop 64 (leftover m ++ d) = drop i d) by (rewrite drop_app_ge by lia; done).
  split.
  - unfold hash_blocks at 1. rewrite E, blocks_add, Em. simpl. rewrite Et, Ed, blocks_app by lia. done.
  - unfold leftover at 1. rewrite E. replace (64 * (nblocks m + S (nblocks (drop i d))))%nat
      with (64 * nblocks m + (64 + 64 * nblocks (drop i d)))%nat by lia.
    rewrite <- drop_drop, Em, <- drop_drop, Ed. done.
Qed.

(** [for (; i + 63 < len; i += 64) transform(state, &data[i])], with the last [i]. *)
Fixpoint hash_loop (fuel : nat) (h : list Z) (data : bytes) (i len : Z) : option (list Z * Z) :=
  match fuel with
  | O => None
  | S fuel =>
    if decide (i +u 63 < len) then
      b ← mem_read data i 64;
      hash_loop fuel (transform h b) data (i +u 64) len
    else Some (h, i)
  end.

Lemma hash_loop_run fuel h data (i n : nat) :
  (i + n <= length data)%nat -> Z.of_nat (i + n) + 64 < 2^32 -> (n < fuel)%nat ->
  let rest := take n (drop i data) in
  hash_loop fuel h data (Z.of_nat i) (Z.of_nat (i + n)) =
    Some (hash_blocks h rest, Z.of_nat (i + 64 * nblocks rest)).
Proof.
  revert h i n. induction fuel as [|fuel IH]; intros h i n Hd Hlen Hf rest; [lia|]. simpl.
  assert (Hr : length rest = n) by (unfold rest; rewrite length_take, length_drop; lia).
  rewrite u32_small by (unfold is_u32; lia). case_decide as Hc.
  - rewrite mem_read_Some by (unfold zlen; lia). simpl. rewrite !Nat2Z.id.
    rewrite u32_small by (unfold is_u32; lia).
    replace (Z.of_nat i + 64) with (Z.of_nat (i + 64)) by lia.
    replace (i + n)%nat with ((i + 64) + (n - 64))%nat by lia.
    specialize (IH (transform h (take 64 (drop i data))) (i + 64)%nat (n - 64)%nat ltac:(lia) ltac:(lia) ltac:(lia)).
    cbv zeta in IH. change (Z.to_nat 64) with 64%nat. rewrite IH. clear IH.
    assert (E : nblocks rest = S (nblocks (take (n - 64) (drop (i + 64) data)))).
    { apply nblocks_unique. pose proof (nblocks_bound (take (n - 64) (drop (i + 64) data))) as Hb.
      rewrite length_take, length_drop in Hb. lia. }
    assert (Ed : drop 64 rest = take (n - 64) (drop (i + 64) data)).
    { unfold rest. rewrite skipn_firstn_comm, drop_drop. done. }
    unfold hash_blocks at 2. rewrite E. simpl. rewrite Ed. unfold rest. rewrite take_take, Nat.min_l by lia.
    unfold hash_blocks. do 2 f_equal. lia.
  - assert (E : nblocks rest = 0%nat) by (apply nblocks_unique; lia).
    unfold hash_blocks. rewrite E. simpl. do 2 f_equal. lia.
Qed.

(** The common part of the SHA updates when the buffer fills: complete the buffered
    block and hash it, hash the blocks in [data], buffer what remains. *)
Definition absorb_full (h : list Z) (buf : bytes) (j : Z) (data : bytes) (len : Z) : option (list Z * bytes) :=
  let i := 64 - j in
  buf ← memcpy buf j data 0 i;
  '(h, i) ← hash_loop (S (Z.to_nat len)) (transform h (take 64 buf)) data i len;
  buf ← memcpy buf 0 data i (len -u i);
  Some (h, buf).

(** A buffer that holds what is left of the message [m]. *)
Definition holds (buf m : bytes) : Prop := (64 <= length buf)%nat /\ take (length (leftover m)) buf = leftover m.

Lemma absorb_full_run iv m buf data (len : nat) :
  holds buf m -> (len <= length data)%nat -> (64 <= length (leftover m) + len)%nat -> Z.of_nat len + 64 < 2^32 ->
  exists buf', absorb_full (hash_blocks iv m) buf (Z.of_nat (length (leftover m))) data (Z.of_nat len) =
      Some (hash_blocks iv (m ++ take len data), buf') /\
    length buf' = length buf /\ holds buf' (m ++ take len data).
Proof.
  intros [Hb Ht] Hd Hl Hlen. pose proof (leftover_lt m) as Hlt. set (j := length (leftover m)) in *.
  set (d := take len data). assert (Ed : length d = len) by (unfold d; rewrite length_take; lia).
  destruct (absorb_long iv m d) as [Hh Hr]; [rewrite Ed; lia|]. fold j in Hh, Hr. unfold absorb_full.
  replace (64 - Z.of_nat j) with (Z.of_nat (64 - j)) by lia.
  destruct (memcpy_buffer buf data j 0 (64 - j)) as (buf1&E1&Hl1&Ht1); [lia|lia|].
  change (Z.of_nat 0) with 0 in E1. rewrite E1. cbn [mbind option_bind].
  replace (j + (64 - j))%nat with 64%nat in Ht1 by lia. rewrite Ht1, Ht, drop_0.
  assert (Etk : take (64 - j) data = take (64 - j) d) by (unfold d; rewrite take_take; f_equal; lia). rewrite Etk.
  set (h1 := transform (hash_blocks iv m) (leftover m ++ take (64 - j) d)) in *.
  rewrite Nat2Z.id.
  pose proof (hash_loop_run (S len) h1 data (64 - j) (len - (64 - j)) ltac:(lia) ltac:(lia) ltac:(lia)) as Hloop.
  replace (64 - j + (len - (64 - j)))%nat with len in Hloop by lia. cbv zeta in Hloop.
  assert (Erest : take (len - (64 - j)) (drop (64 - j) data) = drop (64 - j) d).
  { unfold d. by rewrite skipn_firstn_comm. }
  rewrite Erest in Hloop. cbn [hash_loop] in Hloop |- *. rewrite Hloop. clear Hloop. cbn [mbind option_bind].
  set (rest := drop (64 - j) d) in *. pose proof (nblocks_bound rest) as Hnb.
  assert (Elr : length rest = (len - (64 - j))%nat) by (unfold rest; rewrite length_drop; lia).
  rewrite u32_small by (unfold is_u32; lia).
  replace (Z.of_nat len - Z.of_nat (64 - j + 64 * nblocks rest)) with (Z.of_nat (length (leftover rest))).
  2: { unfold leftover. rewrite length_drop. lia. }
  destruct (memcpy_buffer buf1 data 0 (64 - j + 64 * nblocks rest) (length (leftover rest))) as (buf2&E2&Hl2&Ht2).
  { unfold leftover. rewrite length_drop. lia. } { pose proof (leftover_lt rest). lia. }
  change (Z.of_nat 0) with 0 in E2. rewrite E2. cbn [mbind option_bind].
  exists buf2. split_and!; [by rewrite Hh|lia|]. split; [lia|]. rewrite Hr. simpl in Ht2. rewrite Ht2.
  assert (El : length (leftover rest) = (len - (64 - j + 64 * nblocks rest))%nat).
  { unfold leftover. rewrite length_drop. lia. }
  rewrite El. unfold leftover. generalize (nblocks rest). intros nb. unfold rest, d.
  by rewrite drop_drop, skipn_firstn_comm.
Qed.

Lemma absorb_part_run (iv : list Z) m buf data (len : nat) :
  holds buf m -> (len <= length data)%nat -> (length (leftover m) + len < 64)%nat ->
  exists buf', memcpy buf (Z.of_nat (length (leftover m))) data 0 (Z.of_nat len) = Some buf' /\
    length buf' = length buf /\ holds buf' (m ++ take len data) /\
    hash_blocks iv (m ++ take len data) = hash_blocks iv m.
Proof.
  intros [Hb Ht] Hd Hl. assert (Ed : length (take len data) = len) by (rewrite length_take; lia).
  destruct (absorb_short iv m (take len data)) as [Hh Hr]; [lia|].
  destruct (memcpy_buffer buf data (length (leftover m)) 0 len) as (buf'&E&Hl'&Ht'); [lia|lia|].
  exists buf'. split_and!; [done|done| |done]. split; [lia|]. rewrite Hr, length_app, Ed, Ht', Ht. by rewrite drop_0.
Qed.
End Blocks.

(** ** Padding *)

(** The zeros that bring the message, a byte and eight bytes of length to whole blocks. *)
Definition pad_zeros (m : bytes) : nat := Z.to_nat ((55 - zlen m) `mod` 64).

(** The padded message: a one bit, zeros, and the length in bits. *)
Definition md_pad (len_bytes : Z -> bytes) (m : bytes) : bytes :=
  m ++ 0x80 :: replicate (pad_zeros m) 0 ++ len_bytes (8 * zlen m).

Lemma pad_zeros_spec m : exists q, (length m + 1 + pad_zeros m + 8 = 64 * q)%nat.
Proof.
  unfold pad_zeros, zlen. pose proof (Z.mod_pos_bound (55 - Z.of_nat (length m)) 64 ltac:(lia)).
  pose proof (Z.div_mod (55 - Z.of_nat (length m)) 64 ltac:(lia)).
  exists (Z.to_nat (1 - (55 - Z.of_nat (length m)) / 64)). lia.
Qed.

(** In terms of the bytes that are buffered. *)
Lemma pad_zeros_index m :
  pad_zeros m = (if decide (length (leftover m) < 56) then 55 - length (leftover m) else 119 - length (leftover m))%nat.
Proof.
  rewrite length_leftover. destruct (pad_zeros_spec m) as [q Hq].
  assert (pad_zeros m < 64)%nat.
  { unfold pad_zeros, zlen. pose proof (Z.mod_pos_bound (55 - Z.of_nat (length m)) 64 ltac:(lia)). lia. }
  pose proof (Nat.div_mod_eq (length m) 64). pose proof (Nat.mod_upper_bound (length m) 64 ltac:(lia)).
  case_decide; lia.
Qed.

(** [(count >> 3) & 0x3f] on a 64-bit count of bits. *)
Lemma index_of_bits x : 0 <= x -> (u64 (8 * x) >>u 3) &u 0x3f = x `mod` 64.
Proof.
  intros Hx. change 0x3f with (2^6 - 1). rewrite land_mask by lia. rewrite Z.shiftr_div_pow2 by lia.
  unfold u64. change (2^64) with (8 * 2^61). rewrite Z.mul_mod_distr_l by lia. change (2^3) with 8.
  rewrite (Z.mul_comm 8), Z.div_mul by lia. change (2^6) with 64.
  apply Z.mod_mod_divide. exists (2^55). reflexivity.
Qed.

Lemma u64_add_l x y : u64 (u64 x + y) = u64 (x + y).
Proof. apply Zplus_mod_idemp_l. Qed.

(** The message after the padding bytes and after the length. *)
Lemma md_pad_steps len_bytes m :
  let padlen := if decide (length (leftover m) < 56)%nat then (56 - length (leftover m))%nat
                else (120 - length (leftover m))%nat in
  (m ++ take padlen (0x80 :: replicate 63 0)) ++ len_bytes (8 * zlen m) = md_pad len_bytes m /\
  (1 <= padlen <= 64)%nat.
Proof.
  intros padlen. pose proof (leftover_lt m) as Hlt.
  assert (E : padlen = S (pad_zeros m)) by (rewrite pad_zeros_index; unfold padlen; case_decide; lia).
  assert (Hp : (1 <= padlen <= 64)%nat) by (unfold padlen; case_decide; lia).
  split; [|done]. unfold md_pad. rewrite <- app_assoc. f_equal. rewrite E.
  change (take (S (pad_zeros m)) (0x80 :: replicate 63 0)) with (0x80 :: take (pad_zeros m) (replicate 63 0)).
  rewrite take_replicate. rewrite <- app_comm_cons. do 2 f_equal. f_equal. lia.
Qed.

Lemma le_bytes_mod n x : le_bytes n (x `mod` 2^(8 * Z.of_nat n)) = le_bytes n x.
Proof.
  revert x. induction n as [|n IH]; intros x; [done|]. cbn [le_bytes].
  assert (E : 2^(8 * Z.of_nat (S n)) = 2^8 * 2^(8 * Z.of_nat n)) by (rewrite <- Z.pow_add_r by lia; f_equal; lia).
  rewrite E. assert (0 < 2^(8 * Z.of_nat n)) by (apply Z.pow_pos_nonneg; lia). f_equal.
  - unfold u8. apply Z.mod_mod_divide. by exists (2^(8 * Z.of_nat n)); rewrite Z.mul_comm.
  - rewrite Z.rem_mul_r by lia. rewrite Z.mul_comm, Z.div_add by lia.
    rewrite (Z.div_small (x `mod` 2^8)) by (apply Z.mod_pos_bound; lia). apply IH.
Qed.

(** The bytes of a number from those of its low and high parts. *)
Lemma le_bytes_app n k a y : 0 <= a < 2^(8 * Z.of_nat n) ->
  le_bytes n a ++ le_bytes k y = le_bytes (n + k) (a + 2^(8 * Z.of_nat n) * y).
Proof.
  revert k a. induction n as [|n IH]; intros k a Ha.
  - simpl in Ha. assert (a = 0) as -> by lia. simpl. f_equal. lia.
  - assert (E : 2^(8 * Z.of_nat (S n)) = 2^8 * 2^(8 * Z.of_nat n)) by (rewrite <- Z.pow_add_r by lia; f_equal; lia).
    cbn [le_bytes app Nat.add]. rewrite E in *. rewrite <- Z.mul_assoc. f_equal.
    + unfold u8. rewrite (Z.mul_comm (2^8)), Z.mod_add by lia. done.
    + rewrite (Z.mul_comm (2^8) (_ * _)), Z.div_add by lia. apply IH.
      split; [apply Z.div_pos; lia|apply Z.div_lt_upper_bound; lia].
Qed.

Lemma be_bytes_u64 x : be_bytes 8 (u64 x) = be_bytes 8 x.
Proof. unfold be_bytes. f_equal. apply (le_bytes_mod 8). Qed.

Lemma length_be_bytes n x : length (be_bytes n x) = n.
Proof. unfold be_bytes. by rewrite length_rev, length_le_bytes. Qed.

(** Two block functions that agree on blocks and well-formed hashes hash alike. *)
Lemma hash_blocks_agree (P : list Z -> Prop) (t1 t2 : list Z -> bytes -> list Z) h m :
  (forall h b, P h -> length b = 64%nat -> t1 h b = t2 h b /\ P (t1 h b)) -> P h ->
  hash_blocks t1 h m = hash_blocks t2 h m.
Proof.
  intros Ht. unfold hash_blocks. pose proof (nblocks_bound m) as [Hn _]. revert Hn. generalize (nblocks m).
  intros n. revert h m. induction n as [|n IH]; intros h m Hn Hh; [done|]. simpl.
  destruct (Ht h (take 64 m) Hh) as [E HP]; [rewrite length_take; lia|].
  rewrite (IH _ (drop 64 m)); [by rewrite E|rewrite length_drop; lia|done].
Qed.

Lemma add_words_u32 h x : Forall is_u32 (add_words h x).
Proof.
  revert x. induction h as [|a h IH]; intros [|b x]; simpl; constructor; [apply u32_range|apply IH].
Qed.

Lemma word_u32 h i : Forall is_u32 h -> is_u32 (word h i).
Proof.
  intros Hh. unfold word. destruct (nth_in_or_default i h 0) as [Hin|Hz]; [|rewrite Hz; unfold is_u32; lia].
  rewrite List.Forall_forall in Hh. by apply Hh.
Qed.
