(* ===== verification/Fips.v ===== *)
(** SHA-1 and SHA-256 as FIPS 180-1 and FIPS 180-2 define them.

    Everything that the standards fix is defined here in their own terms, and nothing
    of it is taken from the definitions that model the code: the words of a block, the
    operations on words, the message schedules, the constants, the rounds, the initial
    hash values and the bytes of the digest.  [Sha1.v] and [Sha256.v] prove the code
    equal to it.  Only the hash over the blocks of a padded message, which no code is
    modelled by, comes from [Digest.v]. *)
From Stdlib Require Import ZArith Lia.
From stdpp Require Import base numbers list list_numbers option.
From S2P Require Import Prelude Bytes Digest.

Local Open Scope Z_scope.

Module Fips.

(** ** Words *)

(** Word [t] of a block, the high byte first. *)
Definition block_word (b : bytes) (t : nat) : Z :=
  2^24 * nth (4 * t) b 0 + 2^16 * nth (4 * t + 1) b 0 + 2^8 * nth (4 * t + 2) b 0 + nth (4 * t + 3) b 0.

(** The [n] bytes of a number, the high one first. *)
Definition big_endian (n : nat) (x : Z) : bytes :=
  (fun i => x / 2^(8 * Z.of_nat (n - 1 - i)) mod 2^8) <$> seq 0 n.

Definition complement (x : Z) : Z := 2^32 - 1 - x.
Definition ROTL (n x : Z) : Z := Z.lor (x * 2^n mod 2^32) (x / 2^(32 - n)).
Definition ROTR (n x : Z) : Z := Z.lor (x / 2^n) (x * 2^(32 - n) mod 2^32).
Definition SHR (n x : Z) : Z := x / 2^n.

Definition Ch (x y z : Z) : Z := Z.lxor (Z.land x y) (Z.land (complement x) z).
Definition Parity (x y z : Z) : Z := Z.lxor (Z.lxor x y) z.
Definition Maj (x y z : Z) : Z := Z.lxor (Z.lxor (Z.land x y) (Z.land x z)) (Z.land y z).

Definition at_ (W : list Z) (t : nat) : Z := nth t W 0.

(** The first [n] words of a message schedule: the words of the block, then each word
    from earlier ones. *)
Fixpoint schedule (next : list Z -> nat -> Z) (b : bytes) (n : nat) : list Z :=
  match n with
  | O => []
  | S t =>
    let W := schedule next b t in
    W ++ [if (t <? 16)%nat then block_word b t else next W t]
  end.

(** ** SHA-1 *)

Definition sha1_next (W : list Z) (t : nat) : Z :=
  ROTL 1 (Z.lxor (Z.lxor (Z.lxor (at_ W (t - 3)) (at_ W (t - 8))) (at_ W (t - 14))) (at_ W (t - 16))).

Definition sha1_f (t : nat) : Z -> Z -> Z -> Z :=
  if (t <? 20)%nat then Ch else if (t <? 40)%nat then Parity else if (t <? 60)%nat then Maj else Parity.
Definition sha1_K (t : nat) : Z :=
  if (t <? 20)%nat then 0x5a827999 else if (t <? 40)%nat then 0x6ed9eba1
  else if (t <? 60)%nat then 0x8f1bbcdc else 0xca62c1d6.

Definition sha1_regs : Type := Z * Z * Z * Z * Z.

Definition sha1_round (W : list Z) (r : sha1_regs) (t : nat) : sha1_regs :=
  let '(a, b, c, d, e) := r in
  ((ROTL 5 a + sha1_f t b c d + e + sha1_K t + at_ W t) mod 2^32, a, ROTL 30 b, c, d).

Definition sha1_compress (H : list Z) (b : bytes) : list Z :=
  let W := schedule sha1_next b 80 in
  let '(a, b, c, d, e) :=
    fold_left (sha1_round W) (seq 0 80) (at_ H 0, at_ H 1, at_ H 2, at_ H 3, at_ H 4) in
  [(at_ H 0 + a) mod 2^32; (at_ H 1 + b) mod 2^32; (at_ H 2 + c) mod 2^32; (at_ H 3 + d) mod 2^32;
   (at_ H 4 + e) mod 2^32].

Definition sha1_H0 : list Z := [0x67452301; 0xefcdab89; 0x98badcfe; 0x10325476; 0xc3d2e1f0].

(** ** SHA-256 *)

Definition Sigma0 (x : Z) : Z := Z.lxor (Z.lxor (ROTR 2 x) (ROTR 13 x)) (ROTR 22 x).
Definition Sigma1 (x : Z) : Z := Z.lxor (Z.lxor (ROTR 6 x) (ROTR 11 x)) (ROTR 25 x).
Definition sigma0 (x : Z) : Z := Z.lxor (Z.lxor (ROTR 7 x) (ROTR 18 x)) (SHR 3 x).
Definition sigma1 (x : Z) : Z := Z.lxor (Z.lxor (ROTR 17 x) (ROTR 19 x)) (SHR 10 x).

Definition sha256_next (W : list Z) (t : nat) : Z :=
  (sigma1 (at_ W (t - 2)) + at_ W (t - 7) + sigma0 (at_ W (t - 15)) + at_ W (t - 16)) mod 2^32.

Definition is_prime (p : Z) : bool := forallb (fun d => bool_decide (p mod d <> 0)) (seqZ 2 (p - 2)).

(** The largest number whose cube is at most [x], bit by bit from bit [n - 1]. *)
Fixpoint cube_root (n : nat) (x r : Z) : Z :=
  match n with
  | O => r
  | S n => let r' := r + 2 ^ Z.of_nat n in cube_root n x (if decide (r' ^ 3 <= x) then r' else r)
  end.

(** The first 32 bits of the fractional parts of the cube roots of the first 64 primes,
    and of the square roots of the first 8. *)
Definition K256 : list Z :=
  Eval vm_compute in (fun p => cube_root 36 (p * 2^96) 0 mod 2^32) <$> List.filter is_prime (seqZ 2 310).
Definition sha256_H0 : list Z :=
  Eval vm_compute in (fun p => Z.sqrt (p * 2^64) mod 2^32) <$> List.filter is_prime (seqZ 2 18).

Definition sha256_regs : Type := Z * Z * Z * Z * Z * Z * Z * Z.

Definition sha256_round (k w : Z) (r : sha256_regs) : sha256_regs :=
  let '(a, b, c, d, e, f, g, h) := r in
  let T1 := (h + Sigma1 e + Ch e f g + k + w) mod 2^32 in
  let T2 := (Sigma0 a + Maj a b c) mod 2^32 in
  ((T1 + T2) mod 2^32, a, b, c, (d + T1) mod 2^32, e, f, g).

Definition sha256_compress (H : list Z) (b : bytes) : list Z :=
  let W := schedule sha256_next b 64 in
  let '(a, b, c, d, e, f, g, h) :=
    fold_left (fun r t => sha256_round (at_ K256 t) (at_ W t) r) (seq 0 64)
      (at_ H 0, at_ H 1, at_ H 2, at_ H 3, at_ H 4, at_ H 5, at_ H 6, at_ H 7) in
  [(at_ H 0 + a) mod 2^32; (at_ H 1 + b) mod 2^32; (at_ H 2 + c) mod 2^32; (at_ H 3 + d) mod 2^32;
   (at_ H 4 + e) mod 2^32; (at_ H 5 + f) mod 2^32; (at_ H 6 + g) mod 2^32; (at_ H 7 + h) mod 2^32].

(** ** The digests *)

Definition digest (compress : list Z -> bytes -> list Z) (H0 : list Z) (m : bytes) : bytes :=
  mjoin (big_endian 4 <$> hash_blocks compress H0 (md_pad (big_endian 8) m)).

Definition sha1 : bytes -> bytes := digest sha1_compress sha1_H0.
Definition sha256 : bytes -> bytes := digest sha256_compress sha256_H0.

(** The examples of the standards: "abc", and 56 characters, which need two blocks. *)
Example sha1_abc : sha1 [97; 98; 99] =
  [0xa9; 0x99; 0x3e; 0x36; 0x47; 0x06; 0x81; 0x6a; 0xba; 0x3e;
   0x25; 0x71; 0x78; 0x50; 0xc2; 0x6c; 0x9c; 0xd0; 0xd8; 0x9d].
Proof. vm_compute. reflexivity. Qed.

Example sha256_abc : sha256 [97; 98; 99] =
  [0xba; 0x78; 0x16; 0xbf; 0x8f; 0x01; 0xcf; 0xea; 0x41; 0x41; 0x40; 0xde; 0x5d; 0xae; 0x22; 0x23;
   0xb0; 0x03; 0x61; 0xa3; 0x96; 0x17; 0x7a; 0x9c; 0xb4; 0x10; 0xff; 0x61; 0xf2; 0x00; 0x15; 0xad].
Proof. vm_compute. reflexivity. Qed.

Definition two_blocks : bytes := mjoin ((fun i => [97 + i; 98 + i; 99 + i; 100 + i]) <$> seqZ 0 14).

Example sha1_two_blocks : sha1 two_blocks =
  [0x84; 0x98; 0x3e; 0x44; 0x1c; 0x3b; 0xd2; 0x6e; 0xba; 0xae;
   0x4a; 0xa1; 0xf9; 0x51; 0x29; 0xe5; 0xe5; 0x46; 0x70; 0xf1].
Proof. vm_compute. reflexivity. Qed.

Example sha256_two_blocks : sha256 two_blocks =
  [0x24; 0x8d; 0x6a; 0x61; 0xd2; 0x06; 0x38; 0xb8; 0xe5; 0xc0; 0x26; 0x93; 0x0c; 0x3e; 0x60; 0x39;
   0xa3; 0x3c; 0xe4; 0x59; 0x64; 0xff; 0x21; 0x67; 0xf6; 0xec; 0xed; 0xd4; 0x19; 0xdb; 0x06; 0xc1].
Proof. vm_compute. reflexivity. Qed.

(** ** Facts for the comparison with the code *)

Lemma length_schedule next b n : length (schedule next b n) = n.
Proof. induction n as [|n IH]; [done|]. cbn [schedule]. rewrite length_app, IH. simpl. lia. Qed.

Lemma schedule_next next b t :
  (16 <= t)%nat -> schedule next b (S t) = schedule next b t ++ [next (schedule next b t) t].
Proof. intros Ht. cbn [schedule]. by rewrite (proj2 (Nat.ltb_ge t 16)). Qed.

Lemma schedule_head next b n : (n <= 16)%nat -> schedule next b n = block_word b <$> seq 0 n.
Proof.
  induction n as [|n IH]; intros Hn; [done|]. cbn [schedule]. rewrite IH by lia.
  rewrite seq_S, fmap_app. do 2 f_equal. by rewrite (proj2 (Nat.ltb_lt n 16)) by lia.
Qed.

(** The words of a block as the code reads them. *)
Lemma be32_in_block b t : (4 * t + 4 <= length b)%nat -> be32_in b (4 * t) = block_word b t.
Proof.
  intros Hl. unfold be32_in, block_word.
  assert (Hn : forall i, nth (4 * t + i) b 0 = nth i (drop (4 * t) b) 0) by (intros; symmetry; apply nth_skipn).
  pose proof (Hn 0%nat) as H0. rewrite Nat.add_0_r in H0. rewrite H0, !Hn.
  assert (Hd : (4 <= length (drop (4 * t) b))%nat) by (rewrite length_drop; lia).
  destruct (drop (4 * t) b) as [|b0 [|b1 [|b2 [|b3 l]]]]; simpl in Hd; try lia.
  unfold le_word. simpl take. simpl rev. cbn [nth]. lia.
Qed.

Lemma be_words_schedule next b : length b = 64%nat -> be_words 16 b = schedule next b 16.
Proof.
  intros Hb. rewrite schedule_head by lia. unfold be_words. apply list_fmap_ext.
  intros i t Ht. apply lookup_seq in Ht as [-> Ht]. apply be32_in_block. lia.
Qed.

(** The bytes that the code stores. *)
Lemma le_bytes_digits n x : le_bytes n x = (fun i => x / 2^(8 * Z.of_nat i) mod 2^8) <$> seq 0 n.
Proof.
  revert x. induction n as [|n IH]; intros x; [done|]. cbn [le_bytes seq fmap list_fmap].
  f_equal; [by rewrite Z.div_1_r|]. rewrite IH, <- fmap_S_seq, <- list_fmap_compose. apply list_fmap_ext.
  intros i t _. simpl. rewrite Z.div_div by (lia || (apply Z.pow_pos_nonneg; lia)). rewrite <- Z.pow_add_r by lia.
  do 3 f_equal. lia.
Qed.

Lemma be_bytes_digits n x : be_bytes n x = big_endian n x.
Proof.
  unfold be_bytes, big_endian. rewrite le_bytes_digits. apply list_eq. intros i.
  rewrite rev_alt. fold (reverse ((fun i : nat => x / 2^(8 * Z.of_nat i) mod 2^8) <$> seq 0 n)). destruct (decide (i < n)%nat) as [Hi|Hi].
  - rewrite reverse_lookup by (rewrite length_fmap, length_seq; lia). rewrite length_fmap, length_seq.
    rewrite !list_lookup_fmap, !lookup_seq_lt by lia. simpl. do 5 f_equal. lia.
  - rewrite !lookup_ge_None_2; [done|rewrite length_fmap, length_seq; lia|].
    rewrite length_reverse, length_fmap, length_seq. lia.
Qed.

Lemma md_pad_digits m : md_pad (be_bytes 8) m = md_pad (big_endian 8) m.
Proof. unfold md_pad. by rewrite be_bytes_digits. Qed.

Lemma mjoin_digits h : mjoin (be32_out <$> h) = mjoin (big_endian 4 <$> h).
Proof. f_equal. apply list_fmap_ext. intros i x _. apply be_bytes_digits. Qed.
End Fips.
