(* ===== verification/Sha1.v ===== *)
(** SHA-1: [lib/sha1.c] and [crypto/sha1.c], against the definition of [Fips.v]. *)
From Stdlib Require Import ZArith Lia.
From stdpp Require Import base numbers list list_numbers option.
From S2P Require Import Prelude Bitops Bytes Digest Fips.

Local Open Scope Z_scope.
Local Open Scope kernel_scope.

(** ** The block function *)

Definition f1 (x y z : Z) : Z := z ^u (x &u (y ^u z)).
Definition f2 (x y z : Z) : Z := (x ^u y) ^u z.
Definition f3 (x y z : Z) : Z := (x &u y) +u (z &u (x ^u y)).

Definition K1 : Z := 0x5A827999.
Definition K2 : Z := 0x6ED9EBA1.
Definition K3 : Z := 0x8F1BBCDC.
Definition K4 : Z := 0xCA62C1D6.

(** [W[i+16] = rol32(W[i+13] ^ W[i+8] ^ W[i+2] ^ W[i], 1)], [n] times. *)
Fixpoint sha_expand (n i : nat) (w : list Z) : list Z :=
  match n with
  | O => w
  | S n =>
    sha_expand n (S i) (w ++ [rol32 (((word w (i + 13) ^u word w (i + 8)) ^u word w (i + 2)) ^u word w i) 1])
  end.

(** The body of the four round loops. *)
Definition sha_round (f : Z -> Z -> Z -> Z) (k : Z) (r : Z * Z * Z * Z * Z) (w : Z) : Z * Z * Z * Z * Z :=
  let '(a, b, c, d, e) := r in
  let t := f b c d +u k +u rol32 a 5 +u e +u w in
  (t, a, rol32 b 30, c, d).

Definition sha_transform (digest : list Z) (data : bytes) : list Z :=
  let w := sha_expand 64 0 (be_words 16 data) in
  let r := (word digest 0, word digest 1, word digest 2, word digest 3, word digest 4) in
  let r := fold_left (sha_round f1 K1) (take 20 w) r in
  let r := fold_left (sha_round f2 K2) (take 20 (drop 20 w)) r in
  let r := fold_left (sha_round f3 K3) (take 20 (drop 40 w)) r in
  let r := fold_left (sha_round f2 K4) (take 20 (drop 60 w)) r in
  let '(a, b, c, d, e) := r in
  add_words digest [a; b; c; d; e].

Definition sha_init : list Z := [0x67452301; 0xefcdab89; 0x98badcfe; 0x10325476; 0xc3d2e1f0].

(** ** The context *)

Record sha1_ctx := Sha1Ctx { count : Z; state : list Z; buffer : bytes }.

Definition sha1_init : sha1_ctx :=
  Sha1Ctx 0 [0x67452301; 0xEFCDAB89; 0x98BADCFE; 0x10325476; 0xC3D2E1F0] (replicate 64 0).

(** The buffer position, [(sctx->count >> 3) & 0x3f]. *)
Definition sha1_index (c : sha1_ctx) : Z := (count c >>u 3) &u 0x3f.

Definition sha1_update (c : sha1_ctx) (data : bytes) (len : Z) : option sha1_ctx :=
  let j := sha1_index c in
  let cnt := u64 (count c + (len <<u 3)) in
  if decide (63 < j +u len) then
    '(st, buf) ← absorb_full sha_transform (state c) (buffer c) j data len;
    Some (Sha1Ctx cnt st buf)
  else
    buf ← memcpy (buffer c) j data 0 len;
    Some (Sha1Ctx cnt (state c) buf).

Definition sha1_padding : bytes := 0x80 :: replicate 63 0.

(** [sha1_final]: the digest and the wiped context. *)
Definition sha1_final (c : sha1_ctx) : option (bytes * sha1_ctx) :=
  let bits := be_bytes 8 (count c) in
  let index := sha1_index c in
  let padlen := if decide (index < 56) then 56 - index else 64 + 56 - index in
  c ← sha1_update c sha1_padding padlen;
  c ← sha1_update c bits 8;
  Some (mjoin (be32_out <$> state c), Sha1Ctx 0 (replicate 5 0) (replicate 64 0)).

(** ** Absorbing a message *)

(** [c] has absorbed the message [m]. *)
Record sha1_absorbed (c : sha1_ctx) (m : bytes) : Prop := {
  s1_state : state c = hash_blocks sha_transform sha_init m;
  s1_count : count c = u64 (8 * zlen m);
  s1_length : length (buffer c) = 64%nat;
  s1_buffer : holds (buffer c) m
}.

Lemma sha1_init_absorbed : sha1_absorbed sha1_init [].
Proof. split; [done|done|done|]. split; [simpl; lia|done]. Qed.

Lemma sha1_index_eq c m : sha1_absorbed c m -> sha1_index c = Z.of_nat (length (leftover m)).
Proof.
  intros A. unfold sha1_index. rewrite (s1_count _ _ A), index_of_bits by (unfold zlen; lia).
  rewrite length_leftover. unfold zlen. rewrite Nat2Z.inj_mod. done.
Qed.

Lemma sha1_update_absorbs c m data (len : nat) :
  sha1_absorbed c m -> (len <= length data)%nat -> Z.of_nat len < 2^29 ->
  exists c', sha1_update c data (Z.of_nat len) = Some c' /\ sha1_absorbed c' (m ++ take len data).
Proof.
  intros A Hd Hlen. unfold sha1_update. rewrite (sha1_index_eq _ _ A). pose proof (leftover_lt m) as Hlt.
  destruct A as [Hs Hc Hl Hb].
  assert (Ec : u64 (count c + (Z.of_nat len <<u 3)) = u64 (8 * zlen (m ++ take len data))).
  { rewrite Hc, Z.shiftl_mul_pow2, u32_small, u64_add_l by (unfold is_u32; lia). f_equal. unfold zlen.
    rewrite length_app, length_take. lia. }
  rewrite u32_small by (unfold is_u32; lia). rewrite Ec. case_decide as Hf.
  - destruct (absorb_full_run sha_transform sha_init m (buffer c) data len) as (buf&E&Hl'&Hb'); [done|lia|lia|lia|].
    rewrite Hs, E. eexists. split; [done|]. split; [done|done|simpl; lia|done].
  - destruct (absorb_part_run sha_transform sha_init m (buffer c) data len) as (buf&E&Hl'&Hb'&Hh); [done|lia|lia|].
    rewrite E. eexists. split; [done|]. split; [by rewrite Hh|done|simpl; lia|done].
Qed.

(** ** The block function against FIPS 180-1 *)

Lemma f1_ch x y z : is_u32 x -> is_u32 z -> f1 x y z = Fips.Ch x y z.
Proof.
  intros Hx Hz. change (Fips.Ch x y z) with ((x &u y) ^u (not32 x &u z)).
  apply Z.bits_inj'. intros i Hi. unfold f1. rewrite !Z.lxor_spec, !Z.land_spec, !Z.lxor_spec.
  destruct (decide (32 <= i)) as [Hh|Hl].
  - rewrite (testbit_high x 32), (testbit_high z 32) by done. by rewrite andb_false_r.
  - rewrite testbit_not32 by (done || lia). by destruct (Z.testbit x i), (Z.testbit y i), (Z.testbit z i).
Qed.

(** The two terms of [f3] have no bit in common, so the sum does not carry. *)
Lemma f3_maj x y z : is_u32 x -> is_u32 y -> is_u32 z -> f3 x y z = Fips.Maj x y z.
Proof.
  intros Hx Hy Hz. unfold f3, Fips.Maj. rewrite Z.add_nocarry_lxor.
  - rewrite u32_small by (apply is_u32_lxor; apply is_u32_land_l; auto with kern).
    apply Z.bits_inj'. intros i Hi. rewrite !Z.lxor_spec, !Z.land_spec, !Z.lxor_spec.
    by destruct (Z.testbit x i), (Z.testbit y i), (Z.testbit z i).
  - apply Z.bits_inj'. intros i Hi. rewrite !Z.land_spec, Z.lxor_spec, Z.testbit_0_l.
    by destruct (Z.testbit x i), (Z.testbit y i), (Z.testbit z i).
Qed.

Lemma rol32_rotl x s : 0 <= s <= 32 -> rol32 x s = Fips.ROTL s x.
Proof. intros Hs. unfold rol32, Fips.ROTL. by rewrite Z.shiftl_mul_pow2, Z.shiftr_div_pow2 by lia. Qed.

Lemma rol32_u32 x s : 0 <= s <= 32 -> is_u32 x -> is_u32 (rol32 x s).
Proof. intros Hs Hx. apply is_u32_lor; [apply u32_range|apply is_u32_shiftr; [lia|done]]. Qed.

(** The words that the loop adds are those of the message schedule. *)
Lemma sha_expand_schedule b n i t :
  (t = i + 16)%nat ->
  sha_expand n i (Fips.schedule Fips.sha1_next b t) = Fips.schedule Fips.sha1_next b (t + n).
Proof.
  revert i t. induction n as [|n IH]; intros i t Ht; [by rewrite Nat.add_0_r|]. cbn [sha_expand].
  replace (t + S n)%nat with (S t + n)%nat by lia. rewrite <- (IH (S i) (S t)) by lia. f_equal. rewrite Fips.schedule_next by lia.
  generalize (Fips.schedule Fips.sha1_next b t). intros W. unfold Fips.sha1_next. rewrite rol32_rotl by lia.
  replace (t - 3)%nat with (i + 13)%nat by lia. replace (t - 8)%nat with (i + 8)%nat by lia.
  replace (t - 14)%nat with (i + 2)%nat by lia. by replace (t - 16)%nat with i by lia.
Qed.

Definition regs_u32 (r : Z * Z * Z * Z * Z) : Prop :=
  let '(a, b, c, d, e) := r in is_u32 a /\ is_u32 b /\ is_u32 c /\ is_u32 d /\ is_u32 e.

(** One of the four loops. *)
Lemma rounds_agree f k w n t r :
  (forall s, (t <= s < t + n)%nat -> Fips.sha1_K s = k /\
     forall x y z, is_u32 x -> is_u32 y -> is_u32 z -> Fips.sha1_f s x y z = f x y z) ->
  (t + n <= length w)%nat -> regs_u32 r ->
  fold_left (sha_round f k) (take n (drop t w)) r = fold_left (Fips.sha1_round w) (seq t n) r /\
  regs_u32 (fold_left (Fips.sha1_round w) (seq t n) r).
Proof.
  revert t r. induction n as [|n IH]; intros t r Hf Hw Hr; [done|].
  destruct r as [[[[a b] c] d] e]. destruct Hr as (Ha&Hb&Hc&Hd&He).
  destruct (lookup_lt_is_Some_2 w t ltac:(lia)) as [x Hx].
  assert (Ex : Fips.at_ w t = x) by (unfold Fips.at_; by apply nth_lookup_Some).
  rewrite (drop_S w x t Hx). cbn [take fold_left seq]. unfold sha_round at 2, Fips.sha1_round at 2 4.
  destruct (Hf t ltac:(lia)) as [-> Hft]. rewrite Hft by done. rewrite Ex, <- !rol32_rotl by lia.
  replace (f b c d +u k +u rol32 a 5 +u e +u x) with (u32 (rol32 a 5 + f b c d + e + k + x)).
  2: { rewrite (u32_add_l (f b c d + k)), (u32_add_l (f b c d + k + _)), u32_add_l. f_equal. lia. }
  apply IH; [intros s Hs; apply Hf; lia|lia|].
  split_and!; [apply u32_range|done|apply rol32_u32; [lia|done]|done|done].
Qed.

Lemma length_sha_expand n i w : length (sha_expand n i w) = (n + length w)%nat.
Proof. revert i w. induction n as [|n IH]; intros i w; simpl; [done|]. rewrite IH, length_app. simpl. lia. Qed.

Lemma sha_transform_fips h data :
  Forall is_u32 h -> length h = 5%nat -> length data = 64%nat -> sha_transform h data = Fips.sha1_compress h data.
Proof.
  intros Hh Hlen Hd. unfold sha_transform, Fips.sha1_compress.
  rewrite (Fips.be_words_schedule Fips.sha1_next) by done.
  rewrite (sha_expand_schedule data 64 0 16) by done. change (16 + 64)%nat with 80%nat.
  set (w := Fips.schedule Fips.sha1_next data 80).
  assert (Hw : length w = 80%nat) by apply Fips.length_schedule.
  change Fips.at_ with word. set (r := (word h 0, word h 1, word h 2, word h 3, word h 4)).
  assert (Hr : regs_u32 r) by (split_and!; by apply word_u32). clearbody w r.
  change (seq 0 80) with (((seq 0 20 ++ seq 20 20) ++ seq 40 20) ++ seq 60 20). rewrite !fold_left_app.
  destruct (rounds_agree f1 K1 w 20 0 r) as [E1 Hr1]; [|lia|done|].
  { intros s Hs. do 20 (destruct s as [|s]; [split; [done|]; intros; by rewrite f1_ch|]). lia. }
  rewrite drop_0 in E1. rewrite E1. clear E1. set (r1 := fold_left (Fips.sha1_round w) (seq 0 20) r) in *. clearbody r1.
  destruct (rounds_agree f2 K2 w 20 20 r1) as [-> Hr2]; [|lia|done|].
  { intros s Hs. do 20 (destruct s as [|s]; [lia|]). do 20 (destruct s as [|s]; [done|]). lia. }
  set (r2 := fold_left (Fips.sha1_round w) (seq 20 20) r1) in *. clearbody r2.
  destruct (rounds_agree f3 K3 w 20 40 r2) as [-> Hr3]; [|lia|done|].
  { intros s Hs. do 40 (destruct s as [|s]; [lia|]).
    do 20 (destruct s as [|s]; [split; [done|]; intros; by rewrite f3_maj|]). lia. }
  set (r3 := fold_left (Fips.sha1_round w) (seq 40 20) r2) in *. clearbody r3.
  destruct (rounds_agree f2 K4 w 20 60 r3) as [-> _]; [|lia|done|].
  { intros s Hs. do 60 (destruct s as [|s]; [lia|]). do 20 (destruct s as [|s]; [done|]). lia. }
  destruct (fold_left (Fips.sha1_round w) (seq 60 20) r3) as [[[[a b] c] d] e].
  by destruct h as [|h0 [|h1 [|h2 [|h3 [|h4 [|]]]]]].
Qed.

Lemma sha_hash_fips m : hash_blocks sha_transform sha_init m = hash_blocks Fips.sha1_compress Fips.sha1_H0 m.
Proof.
  change Fips.sha1_H0 with sha_init. apply (hash_blocks_agree (fun h => Forall is_u32 h /\ length h = 5%nat)).
  - intros h b [Hh Hl] Hb. split; [by apply sha_transform_fips|]. unfold sha_transform.
    destruct (fold_left _ _ _) as [[[[a b'] c] d] e]. split; [apply add_words_u32|].
    unfold add_words. rewrite length_zip_with, Hl. done.
  - split; [|done]. repeat constructor; unfold is_u32; lia.
Qed.

(** ** The digest *)

Lemma sha1_final_absorbed c m :
  sha1_absorbed c m -> sha1_final c = Some (Fips.sha1 m, Sha1Ctx 0 (replicate 5 0) (replicate 64 0)).
Proof.
  intros A. unfold sha1_final. rewrite (sha1_index_eq _ _ A). pose proof (leftover_lt m) as Hlt.
  destruct (md_pad_steps (be_bytes 8) m) as [Hpad Hlen].
  set (padlen := if decide (length (leftover m) < 56)%nat then (56 - length (leftover m))%nat
                 else (120 - length (leftover m))%nat) in *.
  replace (if decide (Z.of_nat (length (leftover m)) < 56) then 56 - Z.of_nat (length (leftover m))
           else 64 + 56 - Z.of_nat (length (leftover m))) with (Z.of_nat padlen)
    by (unfold padlen; do 2 case_decide; lia).
  destruct (sha1_update_absorbs c m sha1_padding padlen A) as (c1&->&A1); [simpl; lia|lia|]. simpl.
  rewrite (s1_count _ _ A), be_bytes_u64.
  destruct (sha1_update_absorbs c1 _ (be_bytes 8 (8 * zlen m)) 8 A1) as (c2&E2&A2);
    [by rewrite length_be_bytes|lia|].
  change (Z.of_nat 8) with 8 in E2. rewrite E2. simpl. rewrite (s1_state _ _ A2).
  rewrite (take_ge (be_bytes 8 _)) by (by rewrite length_be_bytes). unfold sha1_padding.
  rewrite Hpad, sha_hash_fips, Fips.md_pad_digits, Fips.mjoin_digits. done.
Qed.

