(* ===== verification/Sha256.v ===== *)
(** SHA-256: [crypto/sha256.c], against the definition of [Fips.v]. *)
From Stdlib Require Import ZArith Lia.
From stdpp Require Import base numbers list list_numbers option.
From S2P Require Import Prelude Bitops Bytes Digest Fips Sha1.

Local Open Scope Z_scope.
Local Open Scope kernel_scope.

Module Sha256.

(** ** The block function *)

Definition Ch (x y z : Z) : Z := z ^u (x &u (y ^u z)).
Definition Maj (x y z : Z) : Z := (x &u y) |u (z &u (x |u y)).

Definition e0 (x : Z) : Z := (ror32 x 2 ^u ror32 x 13) ^u ror32 x 22.
Definition e1 (x : Z) : Z := (ror32 x 6 ^u ror32 x 11) ^u ror32 x 25.
Definition s0 (x : Z) : Z := (ror32 x 7 ^u ror32 x 18) ^u (x >>u 3).
Definition s1 (x : Z) : Z := (ror32 x 17 ^u ror32 x 19) ^u (x >>u 10).

(** [LOAD_OP] for the first 16 words. *)
Definition load (input : bytes) : list Z := be_words 16 input.

(** [BLEND_OP(I, W)], the next word of the schedule. *)
Definition BLEND_OP (i : nat) (w : list Z) : Z :=
  s1 (word w (i - 2)) +u word w (i - 7) +u s0 (word w (i - 15)) +u word w (i - 16).

Fixpoint blend (n i : nat) (w : list Z) : list Z :=
  match n with O => w | S n => blend n (S i) (w ++ [BLEND_OP i w]) end.

(** One of the 64 unrolled steps: [t1] and [t2], and the two registers that change. *)
Definition sha256_step (k w a b c d e f g h : Z) : Z * Z :=
  let t1 := h +u e1 e +u Ch e f g +u k +u w in
  let t2 := e0 a +u Maj a b c in
  (d +u t1, t1 +u t2).

Definition regs : Type := Z * Z * Z * Z * Z * Z * Z * Z.

(** Steps 0 to 31. *)
Definition sha256_steps_lo (w : list Z) (r : regs) : regs :=
  let '(a, b, c, d, e, f, g, h) := r in
  let '(d, h) := sha256_step 0x428a2f98 (word w 0) a b c d e f g h in
  let '(c, g) := sha256_step 0x71374491 (word w 1) h a b c d e f g in
  let '(b, f) := sha256_step 0xb5c0fbcf (word w 2) g h a b c d e f in
  let '(a, e) := sha256_step 0xe9b5dba5 (word w 3) f g h a b c d e in
  let '(h, d) := sha256_step 0x3956c25b (word w 4) e f g h a b c d in
  let '(g, c) := sha256_step 0x59f111f1 (word w 5) d e f g h a b c in
  let '(f, b) := sha256_step 0x923f82a4 (word w 6) c d e f g h a b in
  let '(e, a) := sha256_step 0xab1c5ed5 (word w 7) b c d e f g h a in
  let '(d, h) := sha256_step 0xd807aa98 (word w 8) a b c d e f g h in
  let '(c, g) := sha256_step 0x12835b01 (word w 9) h a b c d e f g in
  let '(b, f) := sha256_step 0x243185be (word w 10) g h a b c d e f in
  let '(a, e) := sha256_step 0x550c7dc3 (word w 11) f g h a b c d e in
  let '(h, d) := sha256_step 0x72be5d74 (word w 12) e f g h a b c d in
  let '(g, c) := sha256_step 0x80deb1fe (word w 13) d e f g h a b c in
  let '(f, b) := sha256_step 0x9bdc06a7 (word w 14) c d e f g h a b in
  let '(e, a) := sha256_step 0xc19bf174 (word w 15) b c d e f g h a in
  let '(d, h) := sha256_step 0xe49b69c1 (word w 16) a b c d e f g h in
  let '(c, g) := sha256_step 0xefbe4786 (word w 17) h a b c d e f g in
  let '(b, f) := sha256_step 0x0fc19dc6 (word w 18) g h a b c d e f in
  let '(a, e) := sha256_step 0x240ca1cc (word w 19) f g h a b c d e in
  let '(h, d) := sha256_step 0x2de92c6f (word w 20) e f g h a b c d in
  let '(g, c) := sha256_step 0x4a7484aa (word w 21) d e f g h a b c in
  let '(f, b) := sha256_step 0x5cb0a9dc (word w 22) c d e f g h a b in
  let '(e, a) := sha256_step 0x76f988da (word w 23) b c d e f g h a in
  let '(d, h) := sha256_step 0x983e5152 (word w 24) a b c d e f g h in
  let '(c, g) := sha256_step 0xa831c66d (word w 25) h a b c d e f g in
  let '(b, f) := sha256_step 0xb00327c8 (word w 26) g h a b c d e f in
  let '(a, e) := sha256_step 0xbf597fc7 (word w 27) f g h a b c d e in
  let '(h, d) := sha256_step 0xc6e00bf3 (word w 28) e f g h a b c d in
  let '(g, c) := sha256_step 0xd5a79147 (word w 29) d e f g h a b c in
  let '(f, b) := sha256_step 0x06ca6351 (word w 30) c d e f g h a b in
  let '(e, a) := sha256_step 0x14292967 (word w 31) b c d e f g h a in
  (a, b, c, d, e, f, g, h).

(** Steps 32 to 63. *)
Definition sha256_steps_hi (w : list Z) (r : regs) : regs :=
  let '(a, b, c, d, e, f, g, h) := r in
  let '(d, h) := sha256_step 0x27b70a85 (word w 32) a b c d e f g h in
  let '(c, g) := sha256_step 0x2e1b2138 (word w 33) h a b c d e f g in
  let '(b, f) := sha256_step 0x4d2c6dfc (word w 34) g h a b c d e f in
  let '(a, e) := sha256_step 0x53380d13 (word w 35) f g h a b c d e in
  let '(h, d) := sha256_step 0x650a7354 (word w 36) e f g h a b c d in
  let '(g, c) := sha256_step 0x766a0abb (word w 37) d e f g h a b c in
  let '(f, b) := sha256_step 0x81c2c92e (word w 38) c d e f g h a b in
  let '(e, a) := sha256_step 0x92722c85 (word w 39) b c d e f g h a in
  let '(d, h) := sha256_step 0xa2bfe8a1 (word w 40) a b c d e f g h in
  let '(c, g) := sha256_step 0xa81a664b (word w 41) h a b c d e f g in
  let '(b, f) := sha256_step 0xc24b8b70 (word w 42) g h a b c d e f in
  let '(a, e) := sha256_step 0xc76c51a3 (word w 43) f g h a b c d e in
  let '(h, d) := sha256_step 0xd192e819 (word w 44) e f g h a b c d in
  let '(g, c) := sha256_step 0xd6990624 (word w 45) d e f g h a b c in
  let '(f, b) := sha256_step 0xf40e3585 (word w 46) c d e f g h a b in
  let '(e, a) := sha256_step 0x106aa070 (word w 47) b c d e f g h a in
  let '(d, h) := sha256_step 0x19a4c116 (word w 48) a b c d e f g h in
  let '(c, g) := sha256_step 0x1e376c08 (word w 49) h a b c d e f g in
  let '(b, f) := sha256_step 0x2748774c (word w 50) g h a b c d e f in
  let '(a, e) := sha256_step 0x34b0bcb5 (word w 51) f g h a b c d e in
  let '(h, d) := sha256_step 0x391c0cb3 (word w 52) e f g h a b c d in
  let '(g, c) := sha256_step 0x4ed8aa4a (word w 53) d e f g h a b c in
  let '(f, b) := sha256_step 0x5b9cca4f (word w 54) c d e f g h a b in
  let '(e, a) := sha256_step 0x682e6ff3 (word w 55) b c d e f g h a in
  let '(d, h) := sha256_step 0x748f82ee (word w 56) a b c d e f g h in
  let '(c, g) := sha256_step 0x78a5636f (word w 57) h a b c d e f g in
  let '(b, f) := sha256_step 0x84c87814 (word w 58) g h a b c d e f in
  let '(a, e) := sha256_step 0x8cc70208 (word w 59) f g h a b c d e in
  let '(h, d) := sha256_step 0x90befffa (word w 60) e f g h a b c d in
  let '(g, c) := sha256_step 0xa4506ceb (word w 61) d e f g h a b c in
  let '(f, b) := sha256_step 0xbef9a3f7 (word w 62) c d e f g h a b in
  let '(e, a) := sha256_step 0xc67178f2 (word w 63) b c d e f g h a in
  (a, b, c, d, e, f, g, h).

Definition words8 (h : list Z) : regs :=
  (word h 0, word h 1, word h 2, word h 3, word h 4, word h 5, word h 6, word h 7).

Definition sha256_transform (state : list Z) (input : bytes) : list Z :=
  let w := blend 48 16 (load input) in
  let '(a, b, c, d, e, f, g, h) := sha256_steps_hi w (sha256_steps_lo w (words8 state)) in
  add_words state [a; b; c; d; e; f; g; h].

(** ** The context *)

Record sha256_ctx := Sha256Ctx { count0 : Z; count1 : Z; state : list Z; buf : bytes }.

Definition H_init : list Z :=
  [0x6a09e667; 0xbb67ae85; 0x3c6ef372; 0xa54ff53a; 0x510e527f; 0x9b05688c; 0x1f83d9ab; 0x5be0cd19].

Definition sha256_init : sha256_ctx := Sha256Ctx 0 0 H_init (replicate 128 0).

Definition sha256_index (c : sha256_ctx) : Z := (count0 c >>u 3) &u 0x3f.

(** The two words of the bit count after [len] more bytes; the high word only changes
    inside the branch for a carry. *)
Definition sha256_count (c : sha256_ctx) (len : Z) : Z * Z :=
  let c0 := count0 c +u (len <<u 3) in
  if decide (c0 < (len <<u 3)) then (c0, count1 c +u 1 +u (len >>u 29)) else (c0, count1 c).

Definition sha256_update (c : sha256_ctx) (data : bytes) (len : Z) : option sha256_ctx :=
  let index := sha256_index c in
  let '(c0, c1) := sha256_count c len in
  let part_len := 64 - index in
  if decide (part_len <= len) then
    '(st, b) ← absorb_full sha256_transform (state c) (buf c) index data len;
    Some (Sha256Ctx c0 c1 st b)
  else
    b ← memcpy (buf c) index data 0 len;
    Some (Sha256Ctx c0 c1 (state c) b).

Definition sha256_padding : bytes := 0x80 :: replicate 63 0.

Definition sha256_final (c : sha256_ctx) : option (bytes * sha256_ctx) :=
  let bits := be_bytes 4 (count1 c) ++ be_bytes 4 (count0 c) in
  let index := sha256_index c in
  let pad_len := if decide (index < 56) then 56 - index else 64 + 56 - index in
  c ← sha256_update c sha256_padding pad_len;
  c ← sha256_update c bits 8;
  Some (mjoin (be32_out <$> state c), Sha256Ctx 0 0 (replicate 8 0) (replicate 128 0)).

(** ** The block function against FIPS 180-2 *)

(** A step written as a round on all registers. *)
Definition step_round (k w : Z) (r : regs) : regs :=
  let '(a, b, c, d, e, f, g, h) := r in
  let '(d', h') := sha256_step k w a b c d e f g h in
  (h', a, b, c, d', e, f, g).

Ltac step_once :=
  match goal with
  | |- context [sha256_step ?k ?w ?a ?b ?c ?d ?e ?f ?g ?h] =>
    destruct (sha256_step k w a b c d e f g h) as [? ?]
  end.

Lemma steps_lo_fold w r :
  sha256_steps_lo w r = fold_left (fun r t => step_round (word Fips.K256 t) (word w t) r) (seq 0 32) r.
Proof.
  destruct r as [[[[[[[a b] c] d] e] f] g] h]. unfold sha256_steps_lo.
  cbn [seq fold_left]. unfold step_round. cbn [word nth Fips.K256].
  do 32 (step_once; cbv beta iota). reflexivity.
Qed.

Lemma steps_hi_fold w r :
  sha256_steps_hi w r = fold_left (fun r t => step_round (word Fips.K256 t) (word w t) r) (seq 32 32) r.
Proof.
  destruct r as [[[[[[[a b] c] d] e] f] g] h]. unfold sha256_steps_hi.
  cbn [seq fold_left]. unfold step_round. cbn [word nth Fips.K256].
  do 32 (step_once; cbv beta iota). reflexivity.
Qed.

Lemma Ch_fips x y z : is_u32 x -> is_u32 z -> Ch x y z = Fips.Ch x y z.
Proof. apply f1_ch. Qed.

Lemma Maj_fips x y z : Maj x y z = Fips.Maj x y z.
Proof.
  unfold Maj, Fips.Maj. apply Z.bits_inj'. intros i Hi.
  rewrite Z.lor_spec, !Z.lxor_spec, !Z.land_spec, Z.lor_spec.
  by destruct (Z.testbit x i), (Z.testbit y i), (Z.testbit z i).
Qed.

Lemma ror32_rotr x s : 0 <= s <= 32 -> ror32 x s = Fips.ROTR s x.
Proof. intros Hs. unfold ror32, Fips.ROTR. by rewrite Z.shiftl_mul_pow2, Z.shiftr_div_pow2 by lia. Qed.

Lemma e0_fips x : e0 x = Fips.Sigma0 x.
Proof. unfold e0, Fips.Sigma0. by rewrite !ror32_rotr by lia. Qed.
Lemma e1_fips x : e1 x = Fips.Sigma1 x.
Proof. unfold e1, Fips.Sigma1. by rewrite !ror32_rotr by lia. Qed.
Lemma s0_fips x : s0 x = Fips.sigma0 x.
Proof. unfold s0, Fips.sigma0, Fips.SHR. by rewrite !ror32_rotr, Z.shiftr_div_pow2 by lia. Qed.
Lemma s1_fips x : s1 x = Fips.sigma1 x.
Proof. unfold s1, Fips.sigma1, Fips.SHR. by rewrite !ror32_rotr, Z.shiftr_div_pow2 by lia. Qed.

(** The words that the code blends are those of the message schedule. *)
Lemma blend_schedule b n t :
  (16 <= t)%nat -> blend n t (Fips.schedule Fips.sha256_next b t) = Fips.schedule Fips.sha256_next b (t + n).
Proof.
  revert t. induction n as [|n IH]; intros t Ht; [by rewrite Nat.add_0_r|]. cbn [blend].
  replace (t + S n)%nat with (S t + n)%nat by lia. rewrite <- (IH (S t)) by lia. f_equal.
  rewrite Fips.schedule_next by done. do 2 f_equal.
  generalize (Fips.schedule Fips.sha256_next b t). intros W. unfold BLEND_OP, Fips.sha256_next.
  rewrite s0_fips, s1_fips, (u32_add_l (Fips.sigma1 _ + _)), u32_add_l. reflexivity.
Qed.

Definition regs_ok (r : regs) : Prop :=
  let '(a, b, c, d, e, f, g, h) := r in
  is_u32 a /\ is_u32 b /\ is_u32 c /\ is_u32 d /\ is_u32 e /\ is_u32 f /\ is_u32 g /\ is_u32 h.

Lemma step_round_fips k w r :
  regs_ok r -> step_round k w r = Fips.sha256_round k w r /\ regs_ok (step_round k w r).
Proof.
  destruct r as [[[[[[[a b] c] d] e] f] g] h]. intros (?&?&?&?&?&?&?&?).
  unfold step_round, Fips.sha256_round, sha256_step. rewrite Ch_fips, Maj_fips, e0_fips, e1_fips by done.
  assert (E : h +u Fips.Sigma1 e +u Fips.Ch e f g +u k +u w = u32 (h + Fips.Sigma1 e + Fips.Ch e f g + k + w)).
  { by rewrite (u32_add_l (h + Fips.Sigma1 e)), (u32_add_l (h + Fips.Sigma1 e + _)), u32_add_l. }
  rewrite E. split; [done|]. split_and!; done || apply u32_range.
Qed.

Lemma fold_rounds_fips w l r : regs_ok r ->
  fold_left (fun r t => step_round (word Fips.K256 t) (word w t) r) l r =
    fold_left (fun r t => Fips.sha256_round (word Fips.K256 t) (word w t) r) l r.
Proof.
  revert r. induction l as [|t l IH]; intros r Hr; [done|]. simpl.
  destruct (step_round_fips (word Fips.K256 t) (word w t) r Hr) as [E Hr']. rewrite IH by done. by rewrite E.
Qed.

Lemma sha256_transform_fips h input :
  Forall is_u32 h -> length h = 8%nat -> length input = 64%nat ->
  sha256_transform h input = Fips.sha256_compress h input.
Proof.
  intros Hh Hl Hi. unfold sha256_transform, Fips.sha256_compress, load.
  rewrite (Fips.be_words_schedule Fips.sha256_next) by done. rewrite blend_schedule by lia.
  change (16 + 48)%nat with 64%nat. generalize (Fips.schedule Fips.sha256_next input 64). intros w.
  rewrite steps_hi_fold, steps_lo_fold, <- fold_left_app.
  change (seq 0 32 ++ seq 32 32) with (seq 0 64).
  rewrite fold_rounds_fips by (split_and!; by apply word_u32). change Fips.at_ with word. unfold words8.
  destruct (fold_left _ (seq 0 64) _) as [[[[[[[a b] c] d] e] f] g] k].
  by destruct h as [|h0 [|h1 [|h2 [|h3 [|h4 [|h5 [|h6 [|h7 [|]]]]]]]]].
Qed.

Lemma sha256_hash_fips m : hash_blocks sha256_transform H_init m = hash_blocks Fips.sha256_compress Fips.sha256_H0 m.
Proof.
  change Fips.sha256_H0 with H_init. apply (hash_blocks_agree (fun h => Forall is_u32 h /\ length h = 8%nat)).
  - intros h b [Hh Hl] Hb. split; [by apply sha256_transform_fips|]. unfold sha256_transform.
    destruct (sha256_steps_hi _ _) as [[[[[[[? ?] ?] ?] ?] ?] ?] ?]. split; [apply add_words_u32|].
    unfold add_words. rewrite length_zip_with, Hl. done.
  - split; [|done]. repeat constructor; unfold is_u32; lia.
Qed.

(** ** Absorbing a message *)

Record sha256_absorbed (c : sha256_ctx) (m : bytes) : Prop := {
  s256_state : state c = hash_blocks sha256_transform H_init m;
  s256_count0 : is_u32 (count0 c);
  s256_count1 : is_u32 (count1 c);
  s256_count : count0 c + 2^32 * count1 c = u64 (8 * zlen m);
  s256_length : length (buf c) = 128%nat;
  s256_buffer : holds (buf c) m
}.

Lemma sha256_init_absorbed : sha256_absorbed sha256_init [].
Proof. split; try done. split; [simpl; lia|done]. Qed.

Lemma sha256_count_add c m d :
  sha256_absorbed c m -> zlen d < 2^29 ->
  let '(c0, c1) := sha256_count c (zlen d) in
  is_u32 c0 /\ is_u32 c1 /\ c0 + 2^32 * c1 = u64 (8 * zlen (m ++ d)).
Proof.
  intros [_ H0 H1 Hc _ _] Hd. unfold sha256_count.
  assert (Hz : 0 <= zlen d) by (unfold zlen; lia).
  rewrite (Z.shiftl_mul_pow2 (zlen d)) by lia. rewrite (u32_small (zlen d * 2^3)) by (unfold is_u32; lia).
  assert (E29 : Z.shiftr (zlen d) 29 = 0) by (rewrite Z.shiftr_div_pow2 by lia; apply Z.div_small; lia).
  assert (El : 8 * zlen (m ++ d) = 8 * zlen m + 8 * zlen d) by (unfold zlen; rewrite length_app; lia).
  rewrite El, <- u64_add_l, <- Hc, E29. unfold is_u32 in *.
  set (n := zlen d * 2^3) in *. replace (8 * zlen d) with n by (unfold n; lia).
  destruct (decide (count0 c + n < 2^32)) as [Hlt|Hge].
  - rewrite (u32_small (count0 c + n)) by (unfold is_u32; lia). rewrite decide_False by lia.
    split_and!; try lia. unfold u64. rewrite Z.mod_small; lia.
  - assert (Ec : count0 c +u n = count0 c + n - 2^32).
    { unfold u32. symmetry. apply (Z.mod_unique _ _ 1); lia. }
    rewrite Ec, decide_True by lia. rewrite Z.add_0_r, u32_u32. split_and!; try lia; [apply u32_range..|].
    unfold u32, u64. destruct (decide (count1 c + 1 < 2^32)) as [Ho|Ho].
    + rewrite (Z.mod_small (count1 c + 1)), Z.mod_small; lia.
    + assert (count1 c = 2^32 - 1) as -> by lia. rewrite Z.sub_add, Z.mod_same by lia.
      apply (Z.mod_unique _ _ 1); lia.
Qed.

Lemma sha256_index_eq c m : sha256_absorbed c m -> sha256_index c = Z.of_nat (length (leftover m)).
Proof.
  intros [_ H0 H1 Hc _ _]. unfold sha256_index.
  assert (E0 : count0 c = u64 (8 * zlen m) `mod` 2^32).
  { rewrite <- Hc, Z.mul_comm, Z.mod_add, Z.mod_small by (unfold is_u32 in *; lia). done. }
  assert (E : (count0 c >>u 3) &u 0x3f = (u64 (8 * zlen m) >>u 3) &u 0x3f).
  { change 0x3f with (2^6 - 1). rewrite !land_mask, !Z.shiftr_div_pow2 by lia. rewrite E0.
    apply Z.bits_inj'. intros i Hi. destruct (decide (i < 6)).
    - rewrite !Z.mod_pow2_bits_low, !Z.div_pow2_bits, Z.mod_pow2_bits_low by lia. done.
    - rewrite !Z.mod_pow2_bits_high by lia. done. }
  rewrite E, index_of_bits by (unfold zlen; lia). rewrite length_leftover. unfold zlen. by rewrite Nat2Z.inj_mod.
Qed.

Lemma sha256_update_absorbs c m data (len : nat) :
  sha256_absorbed c m -> (len <= length data)%nat -> Z.of_nat len < 2^29 ->
  exists c', sha256_update c data (Z.of_nat len) = Some c' /\ sha256_absorbed c' (m ++ take len data).
Proof.
  intros A Hd Hlen. unfold sha256_update. rewrite (sha256_index_eq _ _ A). pose proof (leftover_lt m) as Hlt.
  assert (El : zlen (take len data) = Z.of_nat len) by (unfold zlen; rewrite length_take; lia).
  pose proof (sha256_count_add c m (take len data) A ltac:(lia)) as Hc. rewrite El in Hc.
  destruct (sha256_count c (Z.of_nat len)) as [c0 c1]. destruct Hc as (Hc0&Hc1&Hcc).
  destruct A as [Hs _ _ _ Hl Hb]. case_decide as Hf.
  - destruct (absorb_full_run sha256_transform H_init m (buf c) data len) as (b&E&Hl'&Hb'); [done|lia|lia|lia|].
    rewrite Hs, E. eexists. split; [done|]. split; try done. simpl. lia.
  - destruct (absorb_part_run sha256_transform H_init m (buf c) data len) as (b&E&Hl'&Hb'&Hh); [done|lia|lia|].
    rewrite E. eexists. split; [done|]. split; try done; [by rewrite Hh|simpl; lia].
Qed.

Lemma be_bytes_split x y : is_u32 x -> be_bytes 4 y ++ be_bytes 4 x = be_bytes 8 (x + 2^32 * y).
Proof.
  intros Hx. unfold be_bytes. rewrite <- rev_app_distr. f_equal.
  by apply (le_bytes_app 4 4).
Qed.

Lemma sha256_final_absorbed c m :
  sha256_absorbed c m -> sha256_final c = Some (Fips.sha256 m, Sha256Ctx 0 0 (replicate 8 0) (replicate 128 0)).
Proof.
  intros A. unfold sha256_final. rewrite (sha256_index_eq _ _ A). pose proof (leftover_lt m) as Hlt.
  destruct (md_pad_steps (be_bytes 8) m) as [Hpad Hlen].
  set (padlen := if decide (length (leftover m) < 56)%nat then (56 - length (leftover m))%nat
                 else (120 - length (leftover m))%nat) in *.
  replace (if decide (Z.of_nat (length (leftover m)) < 56) then 56 - Z.of_nat (length (leftover m))
           else 64 + 56 - Z.of_nat (length (leftover m))) with (Z.of_nat padlen)
    by (unfold padlen; do 2 case_decide; lia).
  destruct (sha256_update_absorbs c m sha256_padding padlen A) as (c1&->&A1); [simpl; lia|lia|].
  cbn [mbind option_bind]. rewrite be_bytes_split, (s256_count _ _ A), be_bytes_u64 by apply A.
  destruct (sha256_update_absorbs c1 _ (be_bytes 8 (8 * zlen m)) 8 A1) as (c2&E2&A2);
    [by rewrite length_be_bytes|lia|].
  change (Z.of_nat 8) with 8 in E2. rewrite E2. cbn [mbind option_bind]. rewrite (s256_state _ _ A2).
  rewrite (take_ge (be_bytes 8 _)) by (by rewrite length_be_bytes). unfold sha256_padding.
  by rewrite Hpad, sha256_hash_fips, Fips.md_pad_digits, Fips.mjoin_digits.
Qed.
End Sha256.
