(* ===== verification/Md.v ===== *)
(** MD5 and MD4: [crypto/md5.c] and [crypto/md4.c].

    The two files have the same [update], [final] and helpers around different block
    functions, so these are written once over the block function.  The target is
    little-endian, where [le32_to_cpu_array] and [cpu_to_le32_array] change nothing
    and the block of 16 words is the 64 bytes that were copied into it. *)
From Stdlib Require Import ZArith Lia.
From stdpp Require Import base numbers list list_numbers option.
From S2P Require Import Prelude Bitops Bytes Digest Sha1.

Local Open Scope Z_scope.
Local Open Scope kernel_scope.

Module Md.

(** ** MD5 *)

Definition F1 (x y z : Z) : Z := z ^u (x &u (y ^u z)).
Definition F2 (x y z : Z) : Z := F1 z x y.
Definition F3 (x y z : Z) : Z := (x ^u y) ^u z.
Definition F4 (x y z : Z) : Z := y ^u (x |u not32 z).

(** [w += f(x, y, z) + in, w = (w<<s | w>>(32-s)) + x] *)
Definition MD5STEP (f : Z -> Z -> Z -> Z) (w x y z w_in s : Z) : Z :=
  let w := w +u (f x y z +u w_in) in
  ((w <<u s) |u (w >>u (32 - s))) +u x.

Definition md5_transform (hash w_in : list Z) : list Z :=
  let a := word hash 0 in
  let b := word hash 1 in
  let c := word hash 2 in
  let d := word hash 3 in
  dlet a := MD5STEP F1 a b c d (word w_in 0 +u 0xd76aa478) 7 in
  dlet d := MD5STEP F1 d a b c (word w_in 1 +u 0xe8c7b756) 12 in
  dlet c := MD5STEP F1 c d a b (word w_in 2 +u 0x242070db) 17 in
  dlet b := MD5STEP F1 b c d a (word w_in 3 +u 0xc1bdceee) 22 in
  dlet a := MD5STEP F1 a b c d (word w_in 4 +u 0xf57c0faf) 7 in
  dlet d := MD5STEP F1 d a b c (word w_in 5 +u 0x4787c62a) 12 in
  dlet c := MD5STEP F1 c d a b (word w_in 6 +u 0xa8304613) 17 in
  dlet b := MD5STEP F1 b c d a (word w_in 7 +u 0xfd469501) 22 in
  dlet a := MD5STEP F1 a b c d (word w_in 8 +u 0x698098d8) 7 in
  dlet d := MD5STEP F1 d a b c (word w_in 9 +u 0x8b44f7af) 12 in
  dlet c := MD5STEP F1 c d a b (word w_in 10 +u 0xffff5bb1) 17 in
  dlet b := MD5STEP F1 b c d a (word w_in 11 +u 0x895cd7be) 22 in
  dlet a := MD5STEP F1 a b c d (word w_in 12 +u 0x6b901122) 7 in
  dlet d := MD5STEP F1 d a b c (word w_in 13 +u 0xfd987193) 12 in
  dlet c := MD5STEP F1 c d a b (word w_in 14 +u 0xa679438e) 17 in
  dlet b := MD5STEP F1 b c d a (word w_in 15 +u 0x49b40821) 22 in
  dlet a := MD5STEP F2 a b c d (word w_in 1 +u 0xf61e2562) 5 in
  dlet d := MD5STEP F2 d a b c (word w_in 6 +u 0xc040b340) 9 in
  dlet c := MD5STEP F2 c d a b (word w_in 11 +u 0x265e5a51) 14 in
  dlet b := MD5STEP F2 b c d a (word w_in 0 +u 0xe9b6c7aa) 20 in
  dlet a := MD5STEP F2 a b c d (word w_in 5 +u 0xd62f105d) 5 in
  dlet d := MD5STEP F2 d a b c (word w_in 10 +u 0x02441453) 9 in
  dlet c := MD5STEP F2 c d a b (word w_in 15 +u 0xd8a1e681) 14 in
  dlet b := MD5STEP F2 b c d a (word w_in 4 +u 0xe7d3fbc8) 20 in
  dlet a := MD5STEP F2 a b c d (word w_in 9 +u 0x21e1cde6) 5 in
  dlet d := MD5STEP F2 d a b c (word w_in 14 +u 0xc33707d6) 9 in
  dlet c := MD5STEP F2 c d a b (word w_in 3 +u 0xf4d50d87) 14 in
  dlet b := MD5STEP F2 b c d a (word w_in 8 +u 0x455a14ed) 20 in
  dlet a := MD5STEP F2 a b c d (word w_in 13 +u 0xa9e3e905) 5 in
  dlet d := MD5STEP F2 d a b c (word w_in 2 +u 0xfcefa3f8) 9 in
  dlet c := MD5STEP F2 c d a b (word w_in 7 +u 0x676f02d9) 14 in
  dlet b := MD5STEP F2 b c d a (word w_in 12 +u 0x8d2a4c8a) 20 in
  dlet a := MD5STEP F3 a b c d (word w_in 5 +u 0xfffa3942) 4 in
  dlet d := MD5STEP F3 d a b c (word w_in 8 +u 0x8771f681) 11 in
  dlet c := MD5STEP F3 c d a b (word w_in 11 +u 0x6d9d6122) 16 in
  dlet b := MD5STEP F3 b c d a (word w_in 14 +u 0xfde5380c) 23 in
  dlet a := MD5STEP F3 a b c d (word w_in 1 +u 0xa4beea44) 4 in
  dlet d := MD5STEP F3 d a b c (word w_in 4 +u 0x4bdecfa9) 11 in
  dlet c := MD5STEP F3 c d a b (word w_in 7 +u 0xf6bb4b60) 16 in
  dlet b := MD5STEP F3 b c d a (word w_in 10 +u 0xbebfbc70) 23 in
  dlet a := MD5STEP F3 a b c d (word w_in 13 +u 0x289b7ec6) 4 in
  dlet d := MD5STEP F3 d a b c (word w_in 0 +u 0xeaa127fa) 11 in
  dlet c := MD5STEP F3 c d a b (word w_in 3 +u 0xd4ef3085) 16 in
  dlet b := MD5STEP F3 b c d a (word w_in 6 +u 0x04881d05) 23 in
  dlet a := MD5STEP F3 a b c d (word w_in 9 +u 0xd9d4d039) 4 in
  dlet d := MD5STEP F3 d a b c (word w_in 12 +u 0xe6db99e5) 11 in
  dlet c := MD5STEP F3 c d a b (word w_in 15 +u 0x1fa27cf8) 16 in
  dlet b := MD5STEP F3 b c d a (word w_in 2 +u 0xc4ac5665) 23 in
  dlet a := MD5STEP F4 a b c d (word w_in 0 +u 0xf4292244) 6 in
  dlet d := MD5STEP F4 d a b c (word w_in 7 +u 0x432aff97) 10 in
  dlet c := MD5STEP F4 c d a b (word w_in 14 +u 0xab9423a7) 15 in
  dlet b := MD5STEP F4 b c d a (word w_in 5 +u 0xfc93a039) 21 in
  dlet a := MD5STEP F4 a b c d (word w_in 12 +u 0x655b59c3) 6 in
  dlet d := MD5STEP F4 d a b c (word w_in 3 +u 0x8f0ccc92) 10 in
  dlet c := MD5STEP F4 c d a b (word w_in 10 +u 0xffeff47d) 15 in
  dlet b := MD5STEP F4 b c d a (word w_in 1 +u 0x85845dd1) 21 in
  dlet a := MD5STEP F4 a b c d (word w_in 8 +u 0x6fa87e4f) 6 in
  dlet d := MD5STEP F4 d a b c (word w_in 15 +u 0xfe2ce6e0) 10 in
  dlet c := MD5STEP F4 c d a b (word w_in 6 +u 0xa3014314) 15 in
  dlet b := MD5STEP F4 b c d a (word w_in 13 +u 0x4e0811a1) 21 in
  dlet a := MD5STEP F4 a b c d (word w_in 4 +u 0xf7537e82) 6 in
  dlet d := MD5STEP F4 d a b c (word w_in 11 +u 0xbd3af235) 10 in
  dlet c := MD5STEP F4 c d a b (word w_in 2 +u 0x2ad7d2bb) 15 in
  dlet b := MD5STEP F4 b c d a (word w_in 9 +u 0xeb86d391) 21 in
  add_words hash [a; b; c; d].

(** ** MD4 *)

Definition lshift (x s : Z) : Z :=
  let x := x &u 0xFFFFFFFF in
  ((x <<u s) &u 0xFFFFFFFF) |u (x >>u (32 - s)).

Definition F (x y z : Z) : Z := (x &u y) |u (not32 x &u z).
Definition G (x y z : Z) : Z := ((x &u y) |u (x &u z)) |u (y &u z).
Definition H (x y z : Z) : Z := (x ^u y) ^u z.

Definition ROUND1 (a b c d k s : Z) : Z := lshift (a +u F b c d +u k) s.
Definition ROUND2 (a b c d k s : Z) : Z := lshift (a +u G b c d +u k +u 0x5A827999) s.
Definition ROUND3 (a b c d k s : Z) : Z := lshift (a +u H b c d +u k +u 0x6ED9EBA1) s.

Definition md4_transform (hash w_in : list Z) : list Z :=
  let a := word hash 0 in
  let b := word hash 1 in
  let c := word hash 2 in
  let d := word hash 3 in
  dlet a := ROUND1 a b c d (word w_in 0) 3 in
  dlet d := ROUND1 d a b c (word w_in 1) 7 in
  dlet c := ROUND1 c d a b (word w_in 2) 11 in
  dlet b := ROUND1 b c d a (word w_in 3) 19 in
  dlet a := ROUND1 a b c d (word w_in 4) 3 in
  dlet d := ROUND1 d a b c (word w_in 5) 7 in
  dlet c := ROUND1 c d a b (word w_in 6) 11 in
  dlet b := ROUND1 b c d a (word w_in 7) 19 in
  dlet a := ROUND1 a b c d (word w_in 8) 3 in
  dlet d := ROUND1 d a b c (word w_in 9) 7 in
  dlet c := ROUND1 c d a b (word w_in 10) 11 in
  dlet b := ROUND1 b c d a (word w_in 11) 19 in
  dlet a := ROUND1 a b c d (word w_in 12) 3 in
  dlet d := ROUND1 d a b c (word w_in 13) 7 in
  dlet c := ROUND1 c d a b (word w_in 14) 11 in
  dlet b := ROUND1 b c d a (word w_in 15) 19 in
  dlet a := ROUND2 a b c d (word w_in 0) 3 in
  dlet d := ROUND2 d a b c (word w_in 4) 5 in
  dlet c := ROUND2 c d a b (word w_in 8) 9 in
  dlet b := ROUND2 b c d a (word w_in 12) 13 in
  dlet a := ROUND2 a b c d (word w_in 1) 3 in
  dlet d := ROUND2 d a b c (word w_in 5) 5 in
  dlet c := ROUND2 c d a b (word w_in 9) 9 in
  dlet b := ROUND2 b c d a (word w_in 13) 13 in
  dlet a := ROUND2 a b c d (word w_in 2) 3 in
  dlet d := ROUND2 d a b c (word w_in 6) 5 in
  dlet c := ROUND2 c d a b (word w_in 10) 9 in
  dlet b := ROUND2 b c d a (word w_in 14) 13 in
  dlet a := ROUND2 a b c d (word w_in 3) 3 in
  dlet d := ROUND2 d a b c (word w_in 7) 5 in
  dlet c := ROUND2 c d a b (word w_in 11) 9 in
  dlet b := ROUND2 b c d a (word w_in 15) 13 in
  dlet a := ROUND3 a b c d (word w_in 0) 3 in
  dlet d := ROUND3 d a b c (word w_in 8) 9 in
  dlet c := ROUND3 c d a b (word w_in 4) 11 in
  dlet b := ROUND3 b c d a (word w_in 12) 15 in
  dlet a := ROUND3 a b c d (word w_in 2) 3 in
  dlet d := ROUND3 d a b c (word w_in 10) 9 in
  dlet c := ROUND3 c d a b (word w_in 6) 11 in
  dlet b := ROUND3 b c d a (word w_in 14) 15 in
  dlet a := ROUND3 a b c d (word w_in 1) 3 in
  dlet d := ROUND3 d a b c (word w_in 9) 9 in
  dlet c := ROUND3 c d a b (word w_in 5) 11 in
  dlet b := ROUND3 b c d a (word w_in 13) 15 in
  dlet a := ROUND3 a b c d (word w_in 3) 3 in
  dlet d := ROUND3 d a b c (word w_in 11) 9 in
  dlet c := ROUND3 c d a b (word w_in 7) 11 in
  dlet b := ROUND3 b c d a (word w_in 15) 15 in
  add_words hash [a; b; c; d].

(** ** The context *)

Record md_ctx := MdCtx { hash : list Z; block : bytes; byte_count : Z }.

Definition md_init : list Z := [0x67452301; 0xefcdab89; 0x98badcfe; 0x10325476].

(** [md5_init] leaves the block alone; [b] is what memory held. *)
Definition md5_init (b : bytes) : md_ctx := MdCtx md_init b 0.
Definition md4_init (b : bytes) : md_ctx := MdCtx md_init b 0.

Section Md.
Context (transform : list Z -> list Z -> list Z).

(** [md5_transform_helper] *)
Definition transform_helper (h : list Z) (b : bytes) : list Z := transform h (le_words 16 b).

(** [while (len >= sizeof(mctx->block))], with [data] advanced to [off]. *)
Fixpoint md_loop (fuel : nat) (h : list Z) (b data : bytes) (off len : Z) : option (list Z * bytes * Z * Z) :=
  match fuel with
  | O => None
  | S fuel =>
    if decide (64 <= len) then
      b ← memcpy b 0 data off 64;
      md_loop fuel (transform_helper h b) b data (off + 64) (len - 64)
    else Some (h, b, off, len)
  end.

Definition md_update (c : md_ctx) (data : bytes) (len : Z) : option md_ctx :=
  let avail := 64 - (byte_count c &u 0x3f) in
  let bc := u64 (byte_count c + len) in
  if decide (len < avail) then
    b ← memcpy (block c) (64 - avail) data 0 len;
    Some (MdCtx (hash c) b bc)
  else
    b ← memcpy (block c) (64 - avail) data 0 avail;
    '(h, b, off, len) ← md_loop (S (Z.to_nat len)) (transform_helper (hash c) b) b data avail (len - avail);
    b ← memcpy b 0 data off len;
    Some (MdCtx h b bc).

(** The block with the words 14 and 15 set to the bit count. *)
Definition set_length (b : bytes) (bc : Z) : option bytes :=
  b ← mem_write b 56 (le_bytes 4 (u32 (Z.shiftl bc 3)));
  mem_write b 60 (le_bytes 4 (u32 (bc >>u 29))).

Definition md_final (c : md_ctx) : option (bytes * md_ctx) :=
  let offset := byte_count c &u 0x3f in
  let padding := 56 - (offset + 1) in
  b ← mem_write (block c) offset [0x80];
  let p := offset + 1 in
  '(h, b, p, padding) ←
    (if decide (padding < 0) then
       b ← mem_write b p (replicate (Z.to_nat (padding + 8)) 0);
       Some (transform_helper (hash c) b, b, 0, 56)
     else Some (hash c, b, p, padding));
  b ← mem_write b p (replicate (Z.to_nat padding) 0);
  b ← set_length b (byte_count c);
  let h := transform_helper h b in
  Some (mjoin (u32_out <$> h), MdCtx (replicate 4 0) (replicate 64 0) 0).

(** The digest over the padded message, RFC 1320 and 1321. *)
Definition md_digest (m : bytes) : bytes :=
  mjoin (u32_out <$> hash_blocks transform_helper md_init (md_pad (le_bytes 8) m)).

(** ** Absorbing a message *)

Record md_absorbed (c : md_ctx) (m : bytes) : Prop := {
  md_state : hash c = hash_blocks transform_helper md_init m;
  md_count : byte_count c = u64 (zlen m);
  md_length : length (block c) = 64%nat;
  md_buffer : holds (block c) m
}.

Lemma md_init_absorbed b : length b = 64%nat -> md_absorbed (MdCtx md_init b 0) [].
Proof. intros Hb. split; [done|done|done|]. split; [simpl; lia|]. done. Qed.

Lemma md_loop_run fuel h b data (off n : nat) :
  length b = 64%nat -> (off + n <= length data)%nat -> (n < fuel)%nat ->
  let rest := take n (drop off data) in
  exists b', md_loop fuel h b data (Z.of_nat off) (Z.of_nat n) =
      Some (hash_blocks transform_helper h rest, b', Z.of_nat (off + 64 * nblocks rest),
            Z.of_nat (length (leftover rest))) /\ length b' = 64%nat.
Proof.
  revert h b off n. induction fuel as [|fuel IH]; intros h b off n Hb Hd Hf rest; [lia|]. cbn [md_loop].
  assert (Hr : length rest = n) by (unfold rest; rewrite length_take, length_drop; lia).
  case_decide as Hc.
  - destruct (memcpy_buffer b data 0 off 64) as (b1&E1&Hl1&Ht1); [lia|lia|].
    change (Z.of_nat 0) with 0 in E1. change (Z.of_nat 64) with 64 in E1. rewrite E1. cbn [mbind option_bind].
    simpl in Ht1. rewrite take_ge in Ht1 by lia.
    replace (Z.of_nat off + 64) with (Z.of_nat (off + 64)) by lia.
    replace (Z.of_nat n - 64) with (Z.of_nat (n - 64)) by lia.
    destruct (IH (transform_helper h b1) b1 (off + 64)%nat (n - 64)%nat) as (b'&E&Hl'); [lia|lia|lia|].
    rewrite E. clear E. exists b'. split; [|done].
    assert (Ed : drop 64 rest = take (n - 64) (drop (off + 64) data)).
    { unfold rest. rewrite skipn_firstn_comm, drop_drop. done. }
    rewrite <- Ed. pose proof (nblocks_bound (drop 64 rest)) as Hbd. rewrite length_drop, Hr in Hbd.
    assert (E : nblocks rest = S (nblocks (drop 64 rest))) by (apply nblocks_unique; lia).
    assert (Eb : b1 = take 64 rest) by (rewrite Ht1; unfold rest; rewrite take_take; f_equal; lia).
    unfold hash_blocks, leftover. rewrite E. cbn [blocks]. rewrite Eb.
    do 2 f_equal; [f_equal; lia|]. f_equal. rewrite drop_drop. rewrite !length_drop. lia.
  - assert (E : nblocks rest = 0%nat) by (apply nblocks_unique; lia). exists b. split; [|done].
    unfold hash_blocks, leftover. rewrite E, length_drop, Hr. cbn [blocks]. do 2 f_equal; [f_equal|]; lia.
Qed.

Lemma md_index_eq c m : md_absorbed c m -> byte_count c &u 0x3f = Z.of_nat (length (leftover m)).
Proof.
  intros A. rewrite (md_count _ _ A). change 0x3f with (2^6 - 1). rewrite land_mask by lia. unfold u64.
  rewrite Z.mod_mod_divide by (exists (2^58); reflexivity). rewrite length_leftover. unfold zlen.
  by rewrite Nat2Z.inj_mod.
Qed.

Lemma md_update_absorbs c m data (len : nat) :
  md_absorbed c m -> (len <= length data)%nat ->
  exists c', md_update c data (Z.of_nat len) = Some c' /\ md_absorbed c' (m ++ take len data).
Proof.
  intros A Hd. unfold md_update. rewrite (md_index_eq _ _ A). pose proof (leftover_lt m) as Hlt.
  destruct A as [Hs Hc Hl Hb]. set (d := take len data).
  assert (Ed : length d = len) by (unfold d; rewrite length_take; lia).
  assert (Ec : u64 (byte_count c + Z.of_nat len) = u64 (zlen (m ++ d))).
  { rewrite Hc, u64_add_l. f_equal. unfold zlen. rewrite length_app. lia. }
  rewrite Ec. set (j := length (leftover m)) in *.
  replace (64 - (64 - Z.of_nat j)) with (Z.of_nat j) by lia. case_decide as Hf.
  - destruct (absorb_part_run transform_helper md_init m (block c) data len) as (b&E&Hl'&Hb'&Hh); [done|lia|fold j; lia|].
    fold j in E. fold d in Hh, Hb'. rewrite E. eexists. split; [done|]. split; [by rewrite Hh|done|simpl; lia|done].
  - destruct (absorb_long transform_helper md_init m d) as [Hh Hr]; [fold j; lia|]. fold j in Hh, Hr.
    replace (64 - Z.of_nat j) with (Z.of_nat (64 - j)) by lia.
    destruct (memcpy_buffer (block c) data j 0 (64 - j)) as (b1&E1&Hl1&Ht1); [lia|lia|].
    change (Z.of_nat 0) with 0 in E1. rewrite E1. cbn [mbind option_bind].
    replace (j + (64 - j))%nat with 64%nat in Ht1 by lia. rewrite take_ge in Ht1 by lia.
    destruct Hb as [_ Hb]. fold j in Hb. rewrite Hb, drop_0 in Ht1.
    assert (Etk : take (64 - j) data = take (64 - j) d) by (unfold d; rewrite take_take; f_equal; lia).
    rewrite Etk in Ht1. replace (Z.of_nat len - Z.of_nat (64 - j)) with (Z.of_nat (len - (64 - j))) by lia.
    rewrite Nat2Z.id, Hs. rewrite <- Ht1 in Hh.
    destruct (md_loop_run (S len) (transform_helper (hash_blocks transform_helper md_init m) b1) b1 data
      (64 - j) (len - (64 - j))) as (b2&E2&Hl2); [lia|lia|lia|].
    rewrite E2. clear E2. cbn [mbind option_bind].
    assert (Erest : take (len - (64 - j)) (drop (64 - j) data) = drop (64 - j) d) by (unfold d; by rewrite skipn_firstn_comm).
    rewrite Erest. set (rest := drop (64 - j) d) in *. pose proof (nblocks_bound rest) as Hnb.
    assert (Elr : length rest = (len - (64 - j))%nat) by (unfold rest; rewrite length_drop; lia).
    assert (El : length (leftover rest) = (len - (64 - j + 64 * nblocks rest))%nat).
    { unfold leftover. rewrite length_drop. lia. }
    destruct (memcpy_buffer b2 data 0 (64 - j + 64 * nblocks rest) (length (leftover rest))) as (b3&E3&Hl3&Ht3); [lia| |].
    { pose proof (leftover_lt rest). lia. }
    change (Z.of_nat 0) with 0 in E3. rewrite E3. eexists. split; [done|].
    split; [by rewrite Hh|done|simpl; lia|]. split; [simpl; lia|]. simpl. rewrite Hr. simpl in Ht3. rewrite Ht3, El.
    unfold leftover. generalize (nblocks rest). intros nb. unfold rest, d. by rewrite drop_drop, skipn_firstn_comm.
Qed.

(** The words 14 and 15 get the length in bits, modulo 2^64. *)
Lemma set_length_run b (m : bytes) :
  length b = 64%nat ->
  exists b', set_length b (u64 (zlen m)) = Some b' /\ b' = take 56 b ++ le_bytes 8 (8 * zlen m).
Proof.
  intros Hb. unfold set_length. set (n := u64 (zlen m)).
  assert (Hn : 0 <= n < 2^64) by (apply Z.mod_pos_bound; lia).
  set (lo := le_bytes 4 (u32 (Z.shiftl n 3))). set (hi := le_bytes 4 (u32 (n >>u 29))).
  assert (Hlo : length lo = 4%nat) by apply length_le_bytes. assert (Hhi : length hi = 4%nat) by apply length_le_bytes.
  destruct (mem_write_buffer b lo 56) as (b1&E1&Hl1&Ht1); [lia|]. change (Z.of_nat 56) with 56 in E1.
  destruct (mem_write_buffer b1 hi 60) as (b2&E2&Hl2&Ht2); [lia|]. change (Z.of_nat 60) with 60 in E2.
  rewrite E1. cbn [mbind option_bind]. rewrite E2. exists b2. split; [done|].
  rewrite Hlo in Ht1. rewrite Hhi, take_ge in Ht2 by lia. change (56 + 4)%nat with 60%nat in Ht1.
  rewrite Ht2, Ht1, <- app_assoc. f_equal. unfold lo, hi.
  rewrite <- (le_bytes_mod 8 (8 * zlen m)). change (2^(8 * Z.of_nat 8)) with (2^64).
  assert (E : (8 * zlen m) `mod` 2^64 = u32 (Z.shiftl n 3) + 2^32 * u32 (n >>u 29)).
  { rewrite <- (Z.mul_mod_idemp_r 8 (zlen m)) by lia. fold (u64 (zlen m)). fold n.
    rewrite Z.shiftl_mul_pow2, Z.shiftr_div_pow2 by lia. unfold u32. change (2^64) with (2^32 * 2^32).
    rewrite Z.rem_mul_r by lia. rewrite (Z.mul_comm 8). change (2^3) with 8. do 3 f_equal.
    change (2^32) with (2^29 * 8) at 1. by rewrite Z.div_mul_cancel_r by lia. }
  rewrite E. apply (le_bytes_app 4 4). apply u32_range.
Qed.

Lemma md_pad_split m :
  md_pad (le_bytes 8) m = m ++ 0x80 :: replicate (pad_zeros m) 0 ++ le_bytes 8 (8 * zlen m).
Proof. done. Qed.

(** The last one or two blocks. *)
Lemma md_final_absorbed c m :
  md_absorbed c m -> md_final c = Some (md_digest m, MdCtx (replicate 4 0) (replicate 64 0) 0).
Proof.
  intros A. unfold md_final. rewrite (md_index_eq _ _ A). pose proof (leftover_lt m) as Hlt.
  destruct A as [Hs Hc Hl [_ Hb]]. rewrite Hc, Hs. unfold md_digest. rewrite md_pad_split.
  pose proof (pad_zeros_index m) as Hz. set (j := length (leftover m)) in *.
  set (d := 0x80 :: replicate (pad_zeros m) 0 ++ le_bytes 8 (8 * zlen m)).
  assert (Ed : length d = (9 + pad_zeros m)%nat).
  { unfold d. cbn [length]. rewrite length_app, length_replicate, length_le_bytes. lia. }
  destruct (mem_write_buffer (block c) [0x80] j) as (b1&E1&Hl1&Ht1); [simpl; lia|]. simpl in Ht1.
  rewrite E1. cbn [mbind option_bind]. rewrite Hb in Ht1.
  destruct (absorb_long transform_helper md_init m d) as [Hh _]; [fold j; rewrite Ed; case_decide; lia|].
  fold j in Hh. rewrite Hh. clear Hh.
  destruct (decide (56 - (Z.of_nat j + 1) < 0)) as [Hp|Hp].
  - rewrite decide_False in Hz by lia. replace (56 - (Z.of_nat j + 1) + 8) with (Z.of_nat (63 - j)) by lia.
    rewrite Nat2Z.id. replace (Z.of_nat j + 1) with (Z.of_nat (j + 1)) by lia.
    destruct (mem_write_buffer b1 (replicate (63 - j) 0) (j + 1)) as (b2&E2&Hl2&Ht2); [rewrite length_replicate; lia|].
    rewrite E2. cbn [mbind option_bind]. rewrite length_replicate, take_ge, Ht1 in Ht2 by lia.
    destruct (mem_write_buffer b2 (replicate 56 0) 0) as (b3&E3&Hl3&Ht3); [rewrite length_replicate; lia|].
    change (Z.of_nat 0) with 0 in E3. change (Z.to_nat 56) with 56%nat. rewrite E3. cbn [mbind option_bind].
    destruct (set_length_run b3 m) as (b4&E4&Hb4); [lia|]. rewrite E4. cbn [mbind option_bind].
    rewrite length_replicate in Ht3. cbn [Nat.add] in Ht3. rewrite Ht3 in Hb4.
    assert (Esp : d = (0x80 :: replicate (63 - j) 0) ++ replicate 56 0 ++ le_bytes 8 (8 * zlen m)).
    { unfold d. rewrite Hz. replace (119 - j)%nat with (63 - j + 56)%nat by lia.
      by rewrite replicate_add, <- app_comm_cons, <- app_assoc. }
    assert (El : length (0x80 :: replicate (63 - j) 0) = (64 - j)%nat) by (cbn [length]; rewrite length_replicate; lia).
    rewrite Esp, take_app_length', drop_app_length' by done. rewrite (hash_blocks_one _ _ (replicate 56 0 ++ _)).
    2: { rewrite length_app, length_replicate, length_le_bytes. done. }
    rewrite <- app_assoc in Ht2. by rewrite Ht2, Hb4.
  - rewrite decide_True in Hz by lia. replace (56 - (Z.of_nat j + 1)) with (Z.of_nat (55 - j)) by lia.
    cbn [mbind option_bind]. rewrite Nat2Z.id. replace (Z.of_nat j + 1) with (Z.of_nat (j + 1)) by lia.
    destruct (mem_write_buffer b1 (replicate (55 - j) 0) (j + 1)) as (b2&E2&Hl2&Ht2); [rewrite length_replicate; lia|].
    cbn [mbind option_bind]. rewrite E2. cbn [mbind option_bind].
    rewrite length_replicate, Ht1 in Ht2. replace (j + 1 + (55 - j))%nat with 56%nat in Ht2 by lia.
    destruct (set_length_run b2 m) as (b4&E4&Hb4); [lia|]. rewrite E4. cbn [mbind option_bind].
    rewrite (take_ge d), (drop_ge d), hash_blocks_nil by lia. rewrite Hb4, Ht2. unfold d. rewrite Hz.
    by rewrite <- !app_assoc.
Qed.
End Md.

Definition md5_transform_helper := transform_helper md5_transform.
Definition md4_transform_helper := transform_helper md4_transform.
Definition md5_update := md_update md5_transform.
Definition md4_update := md_update md4_transform.
Definition md5_final := md_final md5_transform.
Definition md4_final := md_final md4_transform.
Definition md5 := md_digest md5_transform.
Definition md4 := md_digest md4_transform.

Example md5_abc : (c ← md5_update (md5_init (replicate 64 7)) [97; 98; 99] 3; '(d, _) ← md5_final c; Some d) =
  Some [0x90; 0x01; 0x50; 0x98; 0x3c; 0xd2; 0x4f; 0xb0; 0xd6; 0x96; 0x3f; 0x7d; 0x28; 0xe1; 0x7f; 0x72].
Proof. vm_compute. reflexivity. Qed.

Example md4_abc : (c ← md4_update (md4_init (replicate 64 7)) [97; 98; 99] 3; '(d, _) ← md4_final c; Some d) =
  Some [0xa4; 0x48; 0x01; 0x7a; 0xaf; 0x21; 0xd8; 0x52; 0x5f; 0xc1; 0x0a; 0xe8; 0x7a; 0xa6; 0x72; 0x9d].
Proof. vm_compute. reflexivity. Qed.
End Md.
