(* ===== verification/MdRfc.v ===== *)
(** MD5 and MD4 as RFC 1321 and RFC 1320 define them, and the proof that the unrolled
    block functions of [crypto/md5.c] and [crypto/md4.c] compute them. *)
From Stdlib Require Import ZArith Lia.
From stdpp Require Import base numbers list list_numbers option.
From S2P Require Import Prelude Bitops Bytes Digest Sha1 Md.
Import Md.

Local Open Scope Z_scope.
Local Open Scope kernel_scope.

Module MdRfc.

Definition regs : Type := Z * Z * Z * Z.
Definition regs_u32 (r : regs) : Prop := let '(a, b, c, d) := r in is_u32 a /\ is_u32 b /\ is_u32 c /\ is_u32 d.

(** ** RFC 1321 *)

Definition rfcF (x y z : Z) : Z := (x &u y) |u (not32 x &u z).
Definition rfcG (x y z : Z) : Z := (x &u z) |u (y &u not32 z).
Definition rfcH (x y z : Z) : Z := x ^u y ^u z.
Definition rfcI (x y z : Z) : Z := y ^u (x |u not32 z).

Definition md5_f (t : nat) : Z -> Z -> Z -> Z := nth (t / 16) [rfcF; rfcG; rfcH; rfcI] rfcF.

(** The word of the block that step [t] takes. *)
Definition md5_k (t : nat) : nat :=
  nth (t / 16) [t; 5 * t + 1; 3 * t + 5; 7 * t]%nat 0%nat mod 16.

Definition md5_s (t : nat) : Z :=
  nth (t mod 4) (nth (t / 16) [[7; 12; 17; 22]; [5; 9; 14; 20]; [4; 11; 16; 23]; [6; 10; 15; 21]] []) 0.

(** The integer part of 4294967296 times abs(sin(t + 1)). *)
Definition md5_T : list Z :=
  [0xd76aa478; 0xe8c7b756; 0x242070db; 0xc1bdceee; 0xf57c0faf; 0x4787c62a; 0xa8304613; 0xfd469501;
   0x698098d8; 0x8b44f7af; 0xffff5bb1; 0x895cd7be; 0x6b901122; 0xfd987193; 0xa679438e; 0x49b40821;
   0xf61e2562; 0xc040b340; 0x265e5a51; 0xe9b6c7aa; 0xd62f105d; 0x02441453; 0xd8a1e681; 0xe7d3fbc8;
   0x21e1cde6; 0xc33707d6; 0xf4d50d87; 0x455a14ed; 0xa9e3e905; 0xfcefa3f8; 0x676f02d9; 0x8d2a4c8a;
   0xfffa3942; 0x8771f681; 0x6d9d6122; 0xfde5380c; 0xa4beea44; 0x4bdecfa9; 0xf6bb4b60; 0xbebfbc70;
   0x289b7ec6; 0xeaa127fa; 0xd4ef3085; 0x04881d05; 0xd9d4d039; 0xe6db99e5; 0x1fa27cf8; 0xc4ac5665;
   0xf4292244; 0x432aff97; 0xab9423a7; 0xfc93a039; 0x655b59c3; 0x8f0ccc92; 0xffeff47d; 0x85845dd1;
   0x6fa87e4f; 0xfe2ce6e0; 0xa3014314; 0x4e0811a1; 0xf7537e82; 0xbd3af235; 0x2ad7d2bb; 0xeb86d391].

(** Step [t]: [a = b + ((a + f(b,c,d) + X[k] + T[i]) <<< s)], and the registers take
    over each other's roles. *)
Definition md5_round (w : list Z) (t : nat) (r : regs) : regs :=
  let '(a, b, c, d) := r in
  (d, u32 (b + rol32 (u32 (a + md5_f t b c d + word w (md5_k t) + word md5_T t)) (md5_s t)), b, c).

(** ** RFC 1320 *)

Definition md4_f (t : nat) : Z -> Z -> Z -> Z :=
  nth (t / 16) [rfcF; fun x y z => (x &u y) |u (x &u z) |u (y &u z); rfcH] rfcF.

(** Round 2 takes the words by columns of four, round 3 in bit-reversed order. *)
Definition md4_k (t : nat) : nat :=
  nth (t / 16) [t; 4 * (t mod 4) + (t / 4) mod 4;
    8 * (t mod 2) + 4 * ((t / 2) mod 2) + 2 * ((t / 4) mod 2) + (t / 8) mod 2]%nat 0%nat.

Definition md4_s (t : nat) : Z :=
  nth (t mod 4) (nth (t / 16) [[3; 7; 11; 19]; [3; 5; 9; 13]; [3; 9; 11; 15]] []) 0.

Definition md4_C (t : nat) : Z := nth (t / 16) [0; 0x5a827999; 0x6ed9eba1] 0.

Definition md4_round (w : list Z) (t : nat) (r : regs) : regs :=
  let '(a, b, c, d) := r in
  (d, rol32 (u32 (a + md4_f t b c d + word w (md4_k t) + md4_C t)) (md4_s t), b, c).

(** ** The digests *)

Fixpoint rounds (round : nat -> regs -> regs) (n t : nat) (r : regs) : regs :=
  match n with O => r | S n => rounds round n (S t) (round t r) end.

Definition add_regs (h : list Z) (r : regs) : list Z := let '(a, b, c, d) := r in add_words h [a; b; c; d].

Definition rfc_compress (round : list Z -> nat -> regs -> regs) (n : nat) (h : list Z) (b : bytes) : list Z :=
  add_regs h (rounds (round (le_words 16 b)) n 0 (word h 0, word h 1, word h 2, word h 3)).

(** The initial words A, B, C, D, given by their bytes, the low one first. *)
Definition rfc_init : list Z :=
  le_words 4 [0x01; 0x23; 0x45; 0x67; 0x89; 0xab; 0xcd; 0xef; 0xfe; 0xdc; 0xba; 0x98; 0x76; 0x54; 0x32; 0x10].

Definition rfc_digest (round : list Z -> nat -> regs -> regs) (n : nat) (m : bytes) : bytes :=
  mjoin (u32_out <$> hash_blocks (rfc_compress round n) rfc_init (md_pad (le_bytes 8) m)).

Definition rfc_md5 : bytes -> bytes := rfc_digest md5_round 64.
Definition rfc_md4 : bytes -> bytes := rfc_digest md4_round 48.

(** ** The boolean functions *)

Ltac bitwise :=
  let i := fresh "i" in
  apply Z.bits_inj'; intros i ?; rewrite ?Z.lxor_spec, ?Z.lor_spec, ?Z.land_spec, ?Z.lxor_spec;
  destruct (decide (32 <= i));
  [repeat match goal with H : is_u32 ?x |- context [Z.testbit ?x i] => rewrite (testbit_high x 32 i) by done end;
   rewrite ?andb_false_r; try done
  |rewrite ?testbit_not32 by (done || lia)];
  repeat match goal with |- context [Z.testbit ?x i] => destruct (Z.testbit x i) end; try done.

Lemma F1_rfc x y z : is_u32 x -> is_u32 y -> is_u32 z -> F1 x y z = rfcF x y z.
Proof. intros. unfold F1, rfcF. bitwise. Qed.

Lemma F2_rfc x y z : is_u32 x -> is_u32 y -> is_u32 z -> F2 x y z = rfcG x y z.
Proof. intros. unfold F2, F1, rfcG. bitwise. Qed.

(** ** One step of a transform *)

(** The function, word, constant and shift of a line are those of step [t]. *)
Definition md5_line (f : Z -> Z -> Z -> Z) (i : nat) (K s : Z) (t : nat) : Prop :=
  (forall x y z, is_u32 x -> is_u32 y -> is_u32 z -> f x y z = md5_f t x y z) /\
  md5_k t = i /\ word md5_T t = K /\ md5_s t = s.

Lemma md5_step_intro f (i : nat) K s t n w h a b c d (body : Z -> list Z) :
  md5_line f i K s t -> regs_u32 (a, b, c, d) ->
  (forall x, regs_u32 (d, x, b, c) -> body x = add_regs h (rounds (md5_round w) n (S t) (d, x, b, c))) ->
  Let_In (MD5STEP f a b c d (word w i +u K) s) body = add_regs h (rounds (md5_round w) (S n) t (a, b, c, d)).
Proof.
  intros (Hf&Hk&HK&Hs) (Ha&Hb&Hc&Hd) Hbody. unfold Let_In. rewrite Hbody.
  2: { split_and!; [done| |done|done]. unfold MD5STEP. apply u32_range. }
  cbn [rounds md5_round]. rewrite Hk, HK, Hs, <- Hf by done. do 3 f_equal. unfold MD5STEP, rol32.
  replace (a +u (f b c d +u (word w i +u K))) with (u32 (a + f b c d + word w i + K)).
  2: { rewrite (u32_add_r (f b c d)), u32_add_r. f_equal. lia. }
  rewrite Z.add_comm. done.
Qed.

Definition md4_line (f : Z -> Z -> Z -> Z) (i : nat) (K s : Z) (t : nat) : Prop :=
  (forall x y z, f x y z = md4_f t x y z) /\ md4_k t = i /\ md4_C t = K /\ md4_s t = s /\ 0 <= s <= 32.

Lemma lshift_rol32 x s : is_u32 x -> lshift x s = rol32 x s.
Proof.
  intros Hx. unfold lshift, rol32. change 0xFFFFFFFF with (2^32 - 1). rewrite !land_mask by lia.
  rewrite (Z.mod_small x) by done. rewrite Z.mod_small by apply u32_range. done.
Qed.

Lemma u32_sum4 a f k C : a +u f +u k +u C = u32 (a + f + k + C).
Proof. rewrite u32_add_l, <- (Z.add_assoc (a +u f)), u32_add_l. f_equal. lia. Qed.

Lemma md4_step_intro f (i : nat) K s t n w h a b c d v (body : Z -> list Z) :
  v = lshift (u32 (a + f b c d + word w i + K)) s -> md4_line f i K s t -> regs_u32 (a, b, c, d) ->
  (forall x, regs_u32 (d, x, b, c) -> body x = add_regs h (rounds (md4_round w) n (S t) (d, x, b, c))) ->
  Let_In v body = add_regs h (rounds (md4_round w) (S n) t (a, b, c, d)).
Proof.
  intros Hv (Hf&Hk&HK&Hs&Hr) (Ha&Hb&Hc&Hd) Hbody. unfold Let_In. rewrite lshift_rol32 in Hv by apply u32_range.
  assert (is_u32 v) by (rewrite Hv; apply rol32_u32; [done|apply u32_range]). rewrite Hbody by by split_and!.
  cbn [rounds md4_round]. rewrite Hk, HK, Hs, <- Hf. by rewrite Hv.
Qed.

(** ** The transforms *)

Lemma md5_transform_rfc h w : Forall is_u32 h ->
  md5_transform h w = add_regs h (rounds (md5_round w) 64 0 (word h 0, word h 1, word h 2, word h 3)).
Proof.
  intros Hh. unfold md5_transform. cbv zeta.
  assert (Hr : regs_u32 (word h 0, word h 1, word h 2, word h 3)) by (split_and!; by apply word_u32).
  revert Hr. generalize (word h 0), (word h 1), (word h 2), (word h 3). intros a b c d Hr.
  do 64 (eapply md5_step_intro;
    [split; [first [exact F1_rfc|exact F2_rfc|reflexivity]|split_and!; reflexivity]|exact Hr|clear Hr; intros ? Hr]).
  reflexivity.
Qed.

Lemma md4_transform_rfc h w : Forall is_u32 h ->
  md4_transform h w = add_regs h (rounds (md4_round w) 48 0 (word h 0, word h 1, word h 2, word h 3)).
Proof.
  intros Hh. unfold md4_transform. cbv zeta.
  assert (Hr : regs_u32 (word h 0, word h 1, word h 2, word h 3)) by (split_and!; by apply word_u32).
  revert Hr. generalize (word h 0), (word h 1), (word h 2), (word h 3). intros a b c d Hr.
  do 16 (eapply (md4_step_intro F _ 0); [unfold ROUND1; rewrite !u32_add_l, Z.add_0_r; reflexivity
    |split; [reflexivity|split_and!; [reflexivity..|lia|lia]]|exact Hr|clear Hr; intros ? Hr]).
  do 16 (eapply (md4_step_intro G _ 0x5a827999); [unfold ROUND2; rewrite u32_sum4; reflexivity
    |split; [reflexivity|split_and!; [reflexivity..|lia|lia]]|exact Hr|clear Hr; intros ? Hr]).
  do 16 (eapply (md4_step_intro H _ 0x6ed9eba1); [unfold ROUND3; rewrite u32_sum4; reflexivity
    |split; [reflexivity|split_and!; [reflexivity..|lia|lia]]|exact Hr|clear Hr; intros ? Hr]).
  reflexivity.
Qed.

(** ** The digests *)

Lemma rfc_digest_agree t round n m :
  (forall h w, Forall is_u32 h ->
     t h w = add_regs h (rounds (round w) n 0 (word h 0, word h 1, word h 2, word h 3))) ->
  md_digest t m = rfc_digest round n m.
Proof.
  intros Ht. unfold md_digest, rfc_digest. change rfc_init with md_init. do 2 f_equal.
  apply (hash_blocks_agree (Forall is_u32)).
  - intros h b Hh _. unfold transform_helper, rfc_compress. rewrite Ht by done. split; [done|].
    unfold add_regs. destruct (rounds _ _ _ _) as [[[? ?] ?] ?]. apply add_words_u32.
  - repeat constructor; unfold is_u32; lia.
Qed.

Lemma md5_rfc m : md5 m = rfc_md5 m.
Proof. apply rfc_digest_agree. intros. by apply md5_transform_rfc. Qed.

Lemma md4_rfc m : md4 m = rfc_md4 m.
Proof. apply rfc_digest_agree. intros. by apply md4_transform_rfc. Qed.
End MdRfc.
