(* ===== verification/Michael.v ===== *)
(** The Michael message integrity code of TKIP: [crypto/michael_mic.c]. *)
From Stdlib Require Import ZArith Lia.
From stdpp Require Import base numbers list list_numbers option.
From S2P Require Import Prelude Bitops Bytes Digest.

Local Open Scope Z_scope.
Local Open Scope kernel_scope.

Module Michael.

(** ** The code *)

Definition xswap (val : Z) : Z := ((val &u 0x00ff00ff) <<u 8) |u ((val &u 0xff00ff00) >>u 8).

Definition michael_block (lr : Z * Z) : Z * Z :=
  let '(l, r) := lr in
  let r := r ^u rol32 l 17 in
  let l := l +u r in
  let r := r ^u xswap l in
  let l := l +u r in
  let r := r ^u rol32 l 3 in
  let l := l +u r in
  let r := r ^u ror32 l 2 in
  let l := l +u r in
  (l, r).

Definition byte (b : bytes) (i : nat) : Z := nth i b 0.

Definition get_le32 (p : bytes) : Z :=
  ((byte p 0 |u (byte p 1 <<u 8)) |u (byte p 2 <<u 16)) |u (byte p 3 <<u 24).

Definition put_le32 (v : Z) : bytes := [u8 v; u8 (v >>u 8); u8 (v >>u 16); u8 (v >>u 24)].

Record michael_mic_ctx := MichaelCtx { pending : bytes; pending_len : Z; mic_l : Z; mic_r : Z }.

Definition michael_init (c : michael_mic_ctx) : michael_mic_ctx := MichaelCtx (pending c) 0 (mic_l c) (mic_r c).

(** [mctx->l ^= w; michael_block(mctx->l, mctx->r)] *)
Definition mic_word (lr : Z * Z) (w : Z) : Z * Z := michael_block (lr.1 ^u w, lr.2).

(** [while (len >= 4)], with [data] advanced to [off]. *)
Fixpoint michael_loop (fuel : nat) (lr : Z * Z) (data : bytes) (off len : Z) : option (Z * Z * Z * Z) :=
  match fuel with
  | O => None
  | S fuel =>
    if decide (4 <= len) then
      w ← mem_read data off 4;
      michael_loop fuel (mic_word lr (get_le32 w)) data (off + 4) (len - 4)
    else Some (lr.1, lr.2, off, len)
  end.

(** From [while (len >= 4)] to the end, with nothing pending. *)
Definition michael_rest (pend : bytes) (lr : Z * Z) (data : bytes) (off len : Z) : option michael_mic_ctx :=
  '(l, r, off, len) ← michael_loop (S (Z.to_nat len)) lr data off len;
  if decide (0 < len) then
    pend ← memcpy pend 0 data off len;
    Some (MichaelCtx pend len l r)
  else Some (MichaelCtx pend 0 l r).

Definition michael_update (c : michael_mic_ctx) (data : bytes) (len : Z) : option michael_mic_ctx :=
  if decide (pending_len c <> 0) then
    let flen := 4 - pending_len c in
    let flen := if decide (len < flen) then len else flen in
    pend ← memcpy (pending c) (pending_len c) data 0 flen;
    let plen := pending_len c + flen in
    if decide (plen < 4) then Some (MichaelCtx pend plen (mic_l c) (mic_r c))
    else michael_rest pend (mic_word (mic_l c, mic_r c) (get_le32 pend)) data flen (len - flen)
  else michael_rest (pending c) (mic_l c, mic_r c) data 0 len.

Definition michael_final (c : michael_mic_ctx) : bytes * michael_mic_ctx :=
  let data := pending c in
  let l :=
    if decide (pending_len c = 0) then mic_l c ^u 0x5a
    else if decide (pending_len c = 1) then mic_l c ^u (byte data 0 |u 0x5a00)
    else if decide (pending_len c = 2) then mic_l c ^u ((byte data 0 |u (byte data 1 <<u 8)) |u 0x5a0000)
    else if decide (pending_len c = 3) then
      mic_l c ^u (((byte data 0 |u (byte data 1 <<u 8)) |u (byte data 2 <<u 16)) |u 0x5a000000)
    else mic_l c in
  let '(l, r) := michael_block (michael_block (l, mic_r c)) in
  (put_le32 l ++ put_le32 r, MichaelCtx (pending c) (pending_len c) l r).

(** The result and the flags that [*flags] gets. *)
Definition michael_setkey (c : michael_mic_ctx) (key : bytes) (keylen : Z) : Z * option Z * michael_mic_ctx :=
  if decide (keylen <> 8) then (- EINVAL, Some 0x00200000, c)
  else (0, None, MichaelCtx (pending c) (pending_len c) (get_le32 key) (get_le32 (drop 4 key))).

(** ** Michael over a whole message, for reference *)

(** The complete 32-bit words of a message, and the bytes left over. *)
Fixpoint mic_words (lr : Z * Z) (m : bytes) : (Z * Z) * bytes :=
  match m with
  | b0 :: b1 :: b2 :: b3 :: m => mic_words (mic_word lr (le_word [b0; b1; b2; b3])) m
  | _ => (lr, m)
  end.

(** The message, the byte 0x5a, four to seven zeros to a multiple of four bytes. *)
Definition mic_pad (m : bytes) : bytes := m ++ 0x5a :: replicate (7 - length m mod 4) 0.

Definition mic_key (key : bytes) : Z * Z := (le_word (take 4 key), le_word (drop 4 key)).

Definition michael (key m : bytes) : bytes :=
  let '(l, r) := (mic_words (mic_key key) (mic_pad m)).1 in le_bytes 4 l ++ le_bytes 4 r.

(** Test vectors of IEEE 802.11i: the empty message under the zero key, and "M" under
    the key that it gives. *)
Example michael_vectors :
  michael (replicate 8 0) [] = [0x82; 0x92; 0x5c; 0x1c; 0xa1; 0xd1; 0x30; 0xb8] /\
  michael [0x82; 0x92; 0x5c; 0x1c; 0xa1; 0xd1; 0x30; 0xb8] [0x4d] = [0x43; 0x47; 0x21; 0xca; 0x40; 0x63; 0x9b; 0x3f].
Proof. vm_compute. done. Qed.

(** ** Words *)

Lemma lor_shift_add a b k : 0 <= k -> 0 <= a < 2^k -> a |u (Z.shiftl b k) = a + 2^k * b.
Proof.
  intros Hk Ha. assert (Hd : Z.land a (Z.shiftl b k) = 0).
  { apply Z.bits_inj'. intros i Hi. rewrite Z.land_spec, Z.testbit_0_l. destruct (decide (k <= i)).
    - by rewrite (testbit_high a k).
    - rewrite Z.shiftl_spec_low by lia. apply andb_false_r. }
  rewrite <- Z.lxor_lor, <- Z.add_nocarry_lxor by done. rewrite Z.shiftl_mul_pow2 by lia. lia.
Qed.

(** A byte shifted into its place does not leave 32 bits. *)
Lemma byte_shift b k : is_u8 b -> 0 <= k <= 24 -> b <<u k = Z.shiftl b k.
Proof.
  intros Hb Hk. apply u32_small. unfold is_u8, is_u32 in *. rewrite Z.shiftl_mul_pow2 by lia.
  assert (2^k <= 2^24) by (apply Z.pow_le_mono_r; lia). assert (0 < 2^k) by (apply Z.pow_pos_nonneg; lia). nia.
Qed.

Lemma or2 a b : is_u8 a -> is_u8 b -> a |u (b <<u 8) = le_word [a; b].
Proof. intros Ha Hb. rewrite byte_shift, lor_shift_add by (done || lia). simpl. lia. Qed.

Lemma le_word_u (b : bytes) (n : Z) : Forall is_u8 b -> n = 8 * Z.of_nat (length b) -> 0 <= le_word b < 2^n.
Proof. intros Hb ->. by apply le_word_range. Qed.

Lemma or3 a b c : is_u8 a -> is_u8 b -> is_u8 c -> (a |u (b <<u 8)) |u (c <<u 16) = le_word [a; b; c].
Proof.
  intros Ha Hb Hc. rewrite or2, byte_shift, lor_shift_add by (done || lia || (apply le_word_u; [repeat (apply Forall_cons; [done|]); apply Forall_nil|done])).
  simpl. lia.
Qed.

Lemma or4 a b c d : is_u8 a -> is_u8 b -> is_u8 c -> is_u8 d ->
  ((a |u (b <<u 8)) |u (c <<u 16)) |u (d <<u 24) = le_word [a; b; c; d].
Proof.
  intros Ha Hb Hc Hd. rewrite or3, byte_shift, lor_shift_add by (done || lia || (apply le_word_u; [repeat (apply Forall_cons; [done|]); apply Forall_nil|done])).
  simpl. lia.
Qed.

Lemma get_le32_word p : is_bytes 4 p -> get_le32 p = le_word p.
Proof.
  intros [Hl Hb]. destruct p as [|b0 [|b1 [|b2 [|b3 [|? ?]]]]]; try done.
  apply Forall_cons_1 in Hb as [H0 Hb]. apply Forall_cons_1 in Hb as [H1 Hb].
  apply Forall_cons_1 in Hb as [H2 Hb]. apply Forall_cons_1 in Hb as [H3 _].
  by apply or4.
Qed.

Lemma put_le32_bytes v : put_le32 v = le_bytes 4 v.
Proof.
  unfold put_le32. cbn [le_bytes]. rewrite !Z.shiftr_div_pow2 by lia.
  rewrite !Z.div_div by lia. done.
Qed.

(** ** Splitting a message *)

Lemma mic_words_app lr a b :
  mic_words lr (a ++ b) = mic_words (mic_words lr a).1 ((mic_words lr a).2 ++ b).
Proof.
  remember (length a) as n eqn:Hn. revert lr a Hn. induction n as [n IH] using lt_wf_ind. intros lr a Hn.
  destruct a as [|a0 [|a1 [|a2 [|a3 a]]]]; try done. simpl. eapply IH; [|done]. simpl in Hn. lia.
Qed.

Lemma mic_words_rest lr m : (length (mic_words lr m).2 < 4)%nat /\ length (mic_words lr m).2 = (length m mod 4)%nat.
Proof.
  remember (length m) as n eqn:Hn. revert lr m Hn. induction n as [n IH] using lt_wf_ind. intros lr m Hn.
  destruct m as [|a0 [|a1 [|a2 [|a3 m]]]]; try (simpl in *; subst; split; [lia|done]).
  cbn [mic_words]. destruct (IH (length m) ltac:(simpl in Hn; lia) (mic_word lr (le_word [a0; a1; a2; a3])) m eq_refl) as [H1 H2].
  split; [done|]. rewrite H2, Hn. simpl length. replace (S (S (S (S (length m))))) with (length m + 1 * 4)%nat by lia.
  by rewrite Nat.Div0.mod_add.
Qed.

Lemma mic_words_short lr m : (length m < 4)%nat -> mic_words lr m = (lr, m).
Proof. destruct m as [|? [|? [|? [|? ?]]]]; simpl; try done. lia. Qed.

Lemma mic_words_four lr w m : length w = 4%nat -> mic_words lr (w ++ m) = mic_words (mic_word lr (le_word w)) m.
Proof. destruct w as [|? [|? [|? [|? [|? ?]]]]]; try done. Qed.

(** The loop takes the complete words. *)
Lemma michael_loop_run fuel lr data (off n : nat) :
  Forall is_u8 data -> (off + n <= length data)%nat -> (n < fuel)%nat ->
  let '(lr', rest) := mic_words lr (take n (drop off data)) in
  michael_loop fuel lr data (Z.of_nat off) (Z.of_nat n) =
    Some (lr'.1, lr'.2, Z.of_nat (off + n - length rest), Z.of_nat (length rest)) /\
  rest = take (length rest) (drop (off + n - length rest) data) /\ (length rest < 4)%nat /\ (length rest <= n)%nat.
Proof.
  intros Hb. revert lr off n. induction fuel as [|fuel IH]; intros lr off n Hd Hf; [lia|]. cbn [michael_loop].
  assert (Hl : length (take n (drop off data)) = n) by (rewrite length_take, length_drop; lia).
  case_decide as Hc.
  - rewrite mem_read_Some by (unfold zlen; lia). cbn [mbind option_bind]. rewrite Nat2Z.id.
    change (Z.to_nat 4) with 4%nat.
    assert (Hw : is_bytes 4 (take 4 (drop off data))).
    { split; [rewrite length_take, length_drop; lia|]. by apply Forall_take, Forall_drop. }
    rewrite get_le32_word by done.
    assert (E : take n (drop off data) = take 4 (drop off data) ++ take (n - 4) (drop (off + 4) data)).
    { rewrite <- (take_drop 4 (take n (drop off data))) at 1. rewrite take_take, Nat.min_l by lia.
      f_equal. by rewrite skipn_firstn_comm, drop_drop. }
    rewrite E, mic_words_four by apply Hw.
    replace (Z.of_nat off + 4) with (Z.of_nat (off + 4)) by lia. replace (Z.of_nat n - 4) with (Z.of_nat (n - 4)) by lia.
    specialize (IH (mic_word lr (le_word (take 4 (drop off data)))) (off + 4)%nat (n - 4)%nat ltac:(lia) ltac:(lia)).
    replace (off + 4 + (n - 4))%nat with (off + n)%nat in IH by lia.
    destruct (mic_words _ _) as [lr' rest]. destruct IH as (IH1&IH2&IH3&IH4). split_and!; [done|done|done|lia].
  - rewrite mic_words_short by lia. rewrite Hl. replace (off + n - n)%nat with off by lia.
    split_and!; [done|done|lia|lia].
Qed.

(** ** Absorbing a message *)

(** [c], set up with the words [k] of a key, has absorbed [m]. *)
Record mic_absorbed (k : Z * Z) (c : michael_mic_ctx) (m : bytes) : Prop := {
  mic_state : mic_words k m = ((mic_l c, mic_r c), take (Z.to_nat (pending_len c)) (pending c));
  mic_plen : 0 <= pending_len c < 4;
  mic_pending : is_bytes 4 (pending c)
}.

Lemma michael_init_absorbed c key :
  is_bytes 4 (pending c) -> is_bytes 8 key ->
  exists c', michael_setkey (michael_init c) key 8 = (0, None, c') /\ mic_absorbed (mic_key key) c' [].
Proof.
  intros Hp Hk. eexists. split; [done|]. destruct (is_bytes_split 4 4 key Hk) as [Hk1 Hk2].
  split; [|simpl; lia|done]. simpl. unfold mic_key. rewrite <- get_le32_word by done. rewrite <- (get_le32_word (drop 4 key)) by done.
  f_equal. f_equal. unfold get_le32, byte. destruct key as [|? [|? [|? [|? ?]]]]; done.
Qed.

Lemma michael_rest_run k pend lr data (off n : nat) m :
  Forall is_u8 data -> is_bytes 4 pend -> (off + n <= length data)%nat -> mic_words k m = (lr, []) ->
  exists c', michael_rest pend lr data (Z.of_nat off) (Z.of_nat n) = Some c' /\
    mic_absorbed k c' (m ++ take n (drop off data)).
Proof.
  intros Hb Hp Hd Hm. unfold michael_rest. rewrite Nat2Z.id.
  pose proof (michael_loop_run (S n) lr data off n Hb Hd ltac:(lia)) as Hloop.
  pose proof (mic_words_app k m (take n (drop off data))) as Happ. rewrite Hm in Happ. simpl in Happ.
  destruct (mic_words lr (take n (drop off data))) as [lr' rest]. destruct Hloop as (->&Er&Hl&Hln).
  cbn [mbind option_bind]. case_decide as Hr.
  - destruct (memcpy_buffer pend data 0 (off + n - length rest) (length rest)) as (p'&E&Hl'&Ht); [lia|rewrite (proj1 Hp); lia|].
    change (Z.of_nat 0) with 0 in E. rewrite E. eexists. split; [done|]. rewrite <- Er in Ht. simpl in Ht.
    split; simpl; [|lia|].
    + rewrite Happ, Nat2Z.id, Ht. by destruct lr'.
    + split; [by rewrite Hl'; apply Hp|]. eapply memcpy_Forall; [done|apply Hp|done].
  - assert (rest = []) as -> by (destruct rest; [done|simpl in Hr; lia]). eexists. split; [done|].
    split; simpl; [|lia|done]. rewrite Happ. by destruct lr'.
Qed.

Lemma michael_update_absorbs k c m data (len : nat) :
  mic_absorbed k c m -> Forall is_u8 data -> (len <= length data)%nat ->
  exists c', michael_update c data (Z.of_nat len) = Some c' /\ mic_absorbed k c' (m ++ take len data).
Proof.
  intros [Hs Hpl Hp] Hb Hd. unfold michael_update. case_decide as Hz.
  - set (j := Z.to_nat (pending_len c)) in *. replace (pending_len c) with (Z.of_nat j) by lia.
    set (f := Nat.min (4 - j) len). replace (if decide (Z.of_nat len < 4 - Z.of_nat j) then Z.of_nat len else 4 - Z.of_nat j)
      with (Z.of_nat f) by (unfold f; case_decide; lia).
    destruct (memcpy_buffer (pending c) data j 0 f) as (p'&E&Hl'&Ht); [lia|rewrite (proj1 Hp); lia|].
    change (Z.of_nat 0) with 0 in E. rewrite E. cbn [mbind option_bind]. rewrite drop_0 in Ht.
    assert (Hp' : is_bytes 4 p').
    { split; [by rewrite Hl'; apply Hp|]. eapply memcpy_Forall; [done|apply Hp|done]. }
    assert (Hsp : take len data = take f data ++ drop f (take len data)).
    { rewrite <- (take_drop f (take len data)) at 1. f_equal. rewrite take_take. f_equal. lia. }
    pose proof (mic_words_app k m (take f data)) as Happ. rewrite Hs in Happ. cbn [fst snd] in Happ. rewrite <- Ht in Happ.
    case_decide as Hfull.
    + eexists. split; [done|]. assert (f = len) by lia. split; simpl; [|lia|done].
      replace (take len data) with (take f data) by (f_equal; lia). rewrite Happ, mic_words_short by (rewrite length_take; lia).
      do 2 f_equal. lia.
    + assert (Hjf : (j + f = 4)%nat) by lia. rewrite Hjf, (take_ge p') in Happ by (rewrite (proj1 Hp'); lia).
      replace (Z.of_nat len - Z.of_nat f) with (Z.of_nat (len - f)) by lia.
      destruct (michael_rest_run k p' (mic_word (mic_l c, mic_r c) (get_le32 p')) data f (len - f) (m ++ take f data))
        as (c'&E'&A'); [done|done|lia| |].
      { rewrite Happ. rewrite <- (app_nil_r p') at 1. rewrite mic_words_four by apply Hp'. by rewrite get_le32_word. }
      exists c'. split; [done|]. rewrite Hsp, skipn_firstn_comm. by rewrite app_assoc.
  - change 0 with (Z.of_nat 0). assert (Ez : pending_len c = 0) by lia. rewrite Ez in Hs. simpl in Hs.
    destruct (michael_rest_run k (pending c) (mic_l c, mic_r c) data 0 len m) as (c'&E'&A'); [done..|]. eauto.
Qed.

Lemma mic_word_zero lr : mic_word lr 0 = michael_block lr.
Proof. destruct lr as [l r]. unfold mic_word. simpl. by rewrite Z.lxor_0_r. Qed.

Lemma mic_pad_words lr rest : (length rest < 4)%nat ->
  mic_words lr (rest ++ 0x5a :: replicate (7 - length rest) 0) =
    (michael_block (mic_word lr (le_word (rest ++ 0x5a :: replicate (3 - length rest) 0))), []).
Proof.
  intros Hl. replace (7 - length rest)%nat with ((3 - length rest) + 4)%nat by lia.
  rewrite replicate_add, app_comm_cons, app_assoc, mic_words_four.
  2: { rewrite length_app. cbn [length]. rewrite length_replicate. lia. }
  rewrite <- (app_nil_r (replicate 4 0)), mic_words_four by done.
  cbn [mic_words]. by rewrite <- mic_word_zero.
Qed.

(** What [michael_final] adds for the pending bytes is the padded last word. *)
Lemma michael_last_word p (j : nat) : is_bytes 4 p -> (j < 4)%nat ->
  le_word (take j p ++ 0x5a :: replicate (3 - j) 0) =
    (if decide (Z.of_nat j = 0) then 0x5a
     else if decide (Z.of_nat j = 1) then byte p 0 |u 0x5a00
     else if decide (Z.of_nat j = 2) then (byte p 0 |u (byte p 1 <<u 8)) |u 0x5a0000
     else ((byte p 0 |u (byte p 1 <<u 8)) |u (byte p 2 <<u 16)) |u 0x5a000000).
Proof.
  intros [Hl Hb] Hj. destruct p as [|b0 [|b1 [|b2 [|b3 [|? ?]]]]]; try done.
  apply Forall_cons_1 in Hb as [H0 Hb]. apply Forall_cons_1 in Hb as [H1 Hb].
  apply Forall_cons_1 in Hb as [H2 Hb]. assert (H5 : is_u8 0x5a) by (unfold is_u8; lia).
  destruct j as [|[|[|[|j]]]]; [..|lia]; unfold byte; cbn [take app replicate nth Nat.sub];
    repeat (rewrite decide_False by done); repeat (rewrite decide_True by done).
  - done.
  - change 0x5a00 with (0x5a <<u 8). rewrite or2 by done. cbn [le_word]. lia.
  - change 0x5a0000 with (0x5a <<u 16). rewrite or3 by done. cbn [le_word]. lia.
  - change 0x5a000000 with (0x5a <<u 24). rewrite or4 by done. done.
Qed.

Lemma michael_final_absorbed key c m :
  mic_absorbed (mic_key key) c m -> (michael_final c).1 = michael key m.
Proof.
  intros [Hs Hpl Hp]. set (j := Z.to_nat (pending_len c)) in *.
  assert (Hj : pending_len c = Z.of_nat j) by lia.
  assert (Hlen : length (take j (pending c)) = j) by (rewrite length_take, (proj1 Hp); lia).
  destruct (mic_words_rest (mic_key key) m) as [_ Hm]. rewrite Hs in Hm. cbn [snd] in Hm. rewrite Hlen in Hm.
  unfold michael, mic_pad. rewrite mic_words_app, Hs, <- Hm. cbn [fst snd].
  rewrite <- Hlen at 2. rewrite mic_pad_words by lia. rewrite Hlen, michael_last_word by (done || lia). cbn [fst].
  unfold michael_final. rewrite Hj. unfold mic_word. cbn [fst snd].
  set (l := if decide (Z.of_nat j = 0) then _ else _).
  set (w := if decide (Z.of_nat j = 0) then 0x5a else _).
  assert (El : l = mic_l c ^u w) by (unfold l, w; repeat case_decide; done || lia). rewrite El.
  destruct (michael_block (michael_block _)) as [l' r']. cbn [fst]. by rewrite !put_le32_bytes.
Qed.
End Michael.
