(* ===== verification/DigestApi.v ===== *)
(** The digest operations of the crypto API and HMAC: [crypto/digest.c] and
    [crypto/hmac.c], over any digest algorithm.

    Memory and scatterlists are those of [Cipher.v].  What a digest algorithm promises
    is the class [DigestLaws]; the theorems about scatterlists and HMAC are proved
    against it, and the algorithms are its instances. *)
From Stdlib Require Import ZArith Lia.
From stdpp Require Import base numbers list list_numbers option gmap.
From S2P Require Import Prelude Bytes Cipher CipherMem.

Local Open Scope Z_scope.
Local Open Scope kernel_scope.

Module DigestApi.

(** ** The code *)

(** [struct digest_alg] with the block size of the algorithm; [dia_update] gets the
    bytes it is called with, [dia_setkey] returns the result and the new context. *)
Record digest_alg (C : Type) := DigestAlg {
  cra_blocksize : Z;
  dia_digestsize : Z;
  dia_init : C -> C;
  dia_update : C -> bytes -> option C;
  dia_final : C -> option (bytes * C);
  dia_setkey : option (C -> bytes -> Z -> Z * C)
}.
Arguments cra_blocksize {C}.
Arguments dia_digestsize {C}.
Arguments dia_init {C}.
Arguments dia_update {C}.
Arguments dia_final {C}.
Arguments dia_setkey {C}.

Section Code.
Context {C : Type} (alg : digest_alg C).

Definition call_init : CM C unit := fun s =>
  Some (tt, CState (cmem s) (dia_init alg (cctx s)) (crt_flags s)).

Definition absorb (b : bytes) : CM C unit := fun s =>
  match dia_update alg (cctx s) b with
  | Some c => Some (tt, CState (cmem s) c (crt_flags s))
  | None => None
  end.

(** [dia_update(ctx, p, n)] *)
Definition call_update (p n : Z) : CM C unit := b ← rd p n; absorb b.

Definition init : CM C unit := call_init.

(** [do ... while (l > 0)] over the pages of a segment. *)
Fixpoint update_pages (fuel : nat) (pg offset l : Z) : CM C unit :=
  match fuel with
  | O => SM_fail
  | S fuel =>
    let bytes_from_page := Z.min l (PAGE_SIZE -u offset) in
    _ ← call_update (pg * PAGE_SIZE + offset) bytes_from_page;
    let l := l -u bytes_from_page in
    if decide (0 < l) then update_pages fuel (pg + 1) 0 l else mret tt
  end.

Fixpoint update (sgs : list scatterlist) : CM C unit :=
  match sgs with
  | [] => mret tt
  | g :: sgs =>
    _ ← update_pages (S (Z.to_nat (sg_length g))) (sg_page g) (sg_offset g) (sg_length g);
    update sgs
  end.

Definition final (out : Z) : CM C unit := fun s =>
  match dia_final alg (cctx s) with
  | Some (d, c) => wr out d (CState (cmem s) c (crt_flags s))
  | None => None
  end.

Definition set_ctx_key (f : C -> bytes -> Z -> Z * C) (k : bytes) (keylen : Z) : CM C Z := fun s =>
  let '(ret, c) := f (cctx s) k keylen in Some (ret, CState (cmem s) c (crt_flags s)).

Definition setkey (key keylen : Z) : CM C Z :=
  match dia_setkey alg with
  | None => mret (- ENOSYS)
  | Some f => k ← rd key keylen; set_ctx_key f k keylen
  end.

Fixpoint digest_segments (sgs : list scatterlist) : CM C unit :=
  match sgs with
  | [] => mret tt
  | g :: sgs =>
    _ ← call_update (sg_page g * PAGE_SIZE + sg_offset g) (sg_length g);
    digest_segments sgs
  end.

Definition digest (sgs : list scatterlist) (out : Z) : CM C unit :=
  _ ← init;
  _ ← digest_segments sgs;
  final out.

Definition crypto_init_digest_flags (flags : Z) : Z := if decide (flags <> 0) then - EINVAL else 0.

(** ** HMAC *)

Definition sg_set_buf (buf buflen : Z) : scatterlist :=
  Sg (buf `div` PAGE_SIZE) (buf `mod` PAGE_SIZE) buflen.

Definition hash_key (key keylen : Z) : CM C unit := digest [sg_set_buf key keylen] key.

(** The result and [dit_hmac_block]; [blk] is what [kmalloc] returns.  An algorithm with
    blocks of no bytes is a [BUG].  This is [hmac.c], which is built with
    [CONFIG_CRYPTO_HMAC]; without it, as in the [.config] of the repository,
    [crypto/internal.h] has a function in its place that returns 0. *)
Definition crypto_alloc_hmac_block (blk : Z) : option (Z * Z) :=
  if decide (cra_blocksize alg = 0) then None
  else Some (if decide (blk = 0) then - ENOMEM else 0, blk).

(** [kfree]: the block is no longer mapped. *)
Definition crypto_free_hmac_block (blk : Z) : CM C unit := fun s =>
  if decide (blk = 0) then Some (tt, s)
  else Some (tt, CState (foldr delete (cmem s) (seqZ blk (cra_blocksize alg))) (cctx s) (crt_flags s)).

(** The operations of the transform are those of this section; what is left to set up is
    the block. *)
Definition crypto_init_digest_ops (blk : Z) : option (Z * Z) := crypto_alloc_hmac_block blk.
Definition crypto_exit_digest_ops (blk : Z) : CM C unit := crypto_free_hmac_block blk.

(** [for (i = 0; i < n; i++) pad[i] ^= v] *)
Fixpoint xor_pad (n : nat) (pad v : Z) : CM C unit :=
  match n with
  | O => mret tt
  | S n =>
    b ← rd pad 1;
    _ ← wr pad ((fun x => x ^u v) <$> b);
    xor_pad n (pad + 1) v
  end.

(** The key, hashed in place when it is longer than a block; the new length. *)
Definition shorten_key (key keylen : Z) : CM C Z :=
  if decide (cra_blocksize alg < keylen) then
    _ ← hash_key key keylen;
    mret (dia_digestsize alg)
  else mret keylen.

(** The pad block at [blk]: the key, zeros, and [v] exclusive-ored in. *)
Definition fill_pad (blk key keylen v : Z) : CM C unit :=
  _ ← wr blk (replicate (Z.to_nat (cra_blocksize alg)) 0);
  _ ← memcpy blk key keylen;
  xor_pad (Z.to_nat (cra_blocksize alg)) blk v.

Definition crypto_hmac_init (blk key keylen : Z) : CM C Z :=
  keylen ← shorten_key key keylen;
  _ ← fill_pad blk key keylen 0x36;
  _ ← init;
  _ ← update [sg_set_buf blk (cra_blocksize alg)];
  mret keylen.

Definition crypto_hmac_update (sgs : list scatterlist) : CM C unit := update sgs.

Definition crypto_hmac_final (blk key keylen out : Z) : CM C Z :=
  keylen ← shorten_key key keylen;
  _ ← final out;
  _ ← fill_pad blk key keylen 0x5c;
  _ ← init;
  _ ← update [sg_set_buf blk (cra_blocksize alg)];
  _ ← update [sg_set_buf out (dia_digestsize alg)];
  _ ← final out;
  mret keylen.

Definition crypto_hmac (blk key keylen : Z) (sgs : list scatterlist) (out : Z) : CM C Z :=
  keylen ← crypto_hmac_init blk key keylen;
  _ ← crypto_hmac_update sgs;
  crypto_hmac_final blk key keylen out.
End Code.

(** ** What an algorithm promises *)

(** [H] is the digest function; a call of [dia_update] takes less than [limit] bytes. *)
Class DigestLaws {C : Type} (alg : digest_alg C) (H : bytes -> bytes) (limit : Z) := {
  ctx_ok : C -> Prop;
  absorbed : C -> bytes -> Prop;
  init_law : forall c, ctx_ok c -> absorbed (dia_init alg c) [];
  update_law : forall c m d, absorbed c m -> Forall is_u8 d -> zlen d < limit ->
    exists c', dia_update alg c d = Some c' /\ absorbed c' (m ++ d);
  final_law : forall c m, absorbed c m -> exists c', dia_final alg c = Some (H m, c') /\ ctx_ok c';
  absorbed_ok : forall c m, absorbed c m -> ctx_ok c;
  digest_length : forall m, zlen (H m) = dia_digestsize alg;
  digest_bytes : forall m, Forall is_u8 (H m);
  limit_page : PAGE_SIZE < limit;
  sizes : 0 <= dia_digestsize alg <= cra_blocksize alg /\ cra_blocksize alg < limit
}.

(** ** Scatterlists *)

Section Spec.
Context {C : Type} (alg : digest_alg C) {H : bytes -> bytes} {limit : Z} {L : DigestLaws alg H limit}.
Implicit Types (s : cstate C).

(** The addresses of a segment and of a scatterlist. *)
Definition seg_addrs (g : scatterlist) : list Z := seqZ (sg_page g * PAGE_SIZE + sg_offset g) (sg_length g).
Definition all_addrs (sgs : list scatterlist) : list Z := mjoin (seg_addrs <$> sgs).

Definition seg_ok (g : scatterlist) : Prop :=
  0 <= sg_offset g < PAGE_SIZE /\ 0 <= sg_length g < 2^32.

Lemma peek_app_split m l1 l2 b :
  peek m (l1 ++ l2) = Some b -> exists b1 b2, b = b1 ++ b2 /\ peek m l1 = Some b1 /\ peek m l2 = Some b2.
Proof. intros [H1 H2]%peek_app_inv. eexists _, _. split; [symmetry; apply (take_drop (length l1))|done]. Qed.

(** A state that has absorbed [m], over the memory [mem]. *)
Definition hashing s (mem : gmap Z Z) (m : bytes) : Prop := cmem s = mem /\ absorbed (cctx s) m.

Lemma call_update_run s mem m p n b :
  hashing s mem m -> peek mem (seqZ p n) = Some b -> Forall is_u8 b -> zlen b < limit ->
  exists s', call_update alg p n s = Some (tt, s') /\ hashing s' mem (m ++ b) /\ crt_flags s' = crt_flags s.
Proof.
  intros [Hm Ha] Hb Hu Hl. unfold call_update. rewrite (CM_bind_eq _ _ _ _ _ (rd_ok s p n b ltac:(by rewrite Hm))).
  unfold absorb.
  destruct (update_law _ _ _ Ha Hu Hl) as (c'&->&Ha'). eexists. split; [done|]. split; [|done]. by split.
Qed.

Lemma update_pages_run fuel s mem m pg off l b :
  hashing s mem m -> 0 <= off < PAGE_SIZE -> 0 <= l < 2^32 -> (Z.to_nat l < fuel)%nat ->
  peek mem (seqZ (pg * PAGE_SIZE + off) l) = Some b -> Forall is_u8 b ->
  exists s', update_pages alg fuel pg off l s = Some (tt, s') /\ hashing s' mem (m ++ b) /\ crt_flags s' = crt_flags s.
Proof.
  revert s m pg off l b. induction fuel as [|fuel IH]; intros s m pg off l b Hh Ho Hl Hf Hb Hu; [lia|].
  cbn [update_pages]. rewrite (u32_small (PAGE_SIZE - off)) by (unfold is_u32, PAGE_SIZE in *; lia).
  set (n := Z.min l (PAGE_SIZE - off)). assert (Hn : 0 <= n <= l /\ n <= PAGE_SIZE) by (unfold n; lia).
  rewrite u32_small by (unfold is_u32; lia).
  replace l with (n + (l - n)) in Hb by lia. rewrite seqZ_split in Hb by lia.
  destruct (peek_app_split _ _ _ _ Hb) as (b1&b2&->&Hb1&Hb2). apply Forall_app in Hu as [Hu1 Hu2].
  destruct (call_update_run s mem m (pg * PAGE_SIZE + off) n b1) as (s1&E1&Hh1&Hf1); [done..| |].
  { unfold zlen. rewrite (peek_length _ _ _ Hb1), length_seqZ. pose proof limit_page. lia. }
  rewrite (CM_bind_eq _ _ _ _ _ E1). case_decide as Hmore.
  - destruct (IH s1 (m ++ b1) (pg + 1) 0 (l - n) b2) as (s2&E2&Hh2&Hf2);
      [done|unfold PAGE_SIZE; lia|lia| | |done|].
    + unfold n in *. unfold PAGE_SIZE in *. lia.
    + rewrite <- Hb2. do 2 f_equal. unfold n in *. unfold PAGE_SIZE in *. lia.
    + exists s2. rewrite app_assoc. split_and!; [done|done|congruence].
  - assert (b2 = []) as ->.
    { apply length_zero_iff_nil. rewrite (peek_length _ _ _ Hb2), length_seqZ. lia. }
    exists s1. rewrite app_nil_r. done.
Qed.

(** [update] hashes the bytes of the segments, in order. *)
Lemma update_run s mem m sgs b :
  hashing s mem m -> Forall seg_ok sgs -> peek mem (all_addrs sgs) = Some b -> Forall is_u8 b ->
  exists s', update alg sgs s = Some (tt, s') /\ hashing s' mem (m ++ b) /\ crt_flags s' = crt_flags s.
Proof.
  revert s m b. induction sgs as [|g sgs IH]; intros s m b Hh Hok Hb Hu.
  - injection Hb as <-. exists s. by rewrite app_nil_r.
  - apply Forall_cons_1 in Hok as [[Ho Hl] Hok]. unfold all_addrs in Hb. simpl in Hb.
    destruct (peek_app_split _ _ _ _ Hb) as (b1&b2&->&Hb1&Hb2). apply Forall_app in Hu as [Hu1 Hu2].
    destruct (update_pages_run (S (Z.to_nat (sg_length g))) s mem m (sg_page g) (sg_offset g) (sg_length g) b1)
      as (s1&E1&Hh1&Hf1); [done|done|lia|lia|done|done|].
    cbn [update]. rewrite (CM_bind_eq _ _ _ _ _ E1).
    destruct (IH s1 (m ++ b1) b2) as (s2&E2&Hh2&Hf2); [done..|]. exists s2.
    rewrite app_assoc. split_and!; [done|done|congruence].
Qed.

(** ** Finishing and one-shot digests *)

Definition out_addrs (out : Z) : list Z := seqZ out (dia_digestsize alg).

(** [s'] has the digest of [m] at [out] and differs from [s] there only. *)
Definition digested s s' (out : Z) (m : bytes) : Prop :=
  peek (cmem s') (out_addrs out) = Some (H m) /\ modifies (out_addrs out) (cmem s) (cmem s') /\
  ctx_ok (cctx s') /\ crt_flags s' = crt_flags s.

Lemma final_run s m out :
  absorbed (cctx s) m -> mapped (cmem s) (out_addrs out) ->
  exists s', final alg out s = Some (tt, s') /\ digested s s' out m.
Proof.
  intros Ha Hm. unfold final. destruct (final_law _ _ Ha) as (c'&->&Hc).
  destruct (wr_ok (CState (cmem s) c' (crt_flags s)) out (H m)) as (m'&E&Hp&Hmod).
  { rewrite digest_length. exact Hm. }
  rewrite digest_length in *. eexists. split; [exact E|]. by split_and!.
Qed.

Lemma digest_segments_run s mem m sgs b :
  hashing s mem m -> Forall (fun g => 0 <= sg_length g < limit) sgs ->
  peek mem (all_addrs sgs) = Some b -> Forall is_u8 b ->
  exists s', digest_segments alg sgs s = Some (tt, s') /\ hashing s' mem (m ++ b) /\ crt_flags s' = crt_flags s.
Proof.
  revert s m b. induction sgs as [|g sgs IH]; intros s m b Hh Hok Hb Hu.
  - injection Hb as <-. exists s. by rewrite app_nil_r.
  - apply Forall_cons_1 in Hok as [Hl Hok]. unfold all_addrs in Hb. simpl in Hb.
    destruct (peek_app_split _ _ _ _ Hb) as (b1&b2&->&Hb1&Hb2). apply Forall_app in Hu as [Hu1 Hu2].
    destruct (call_update_run s mem m (sg_page g * PAGE_SIZE + sg_offset g) (sg_length g) b1)
      as (s1&E1&Hh1&Hf1); [done..| |].
    { unfold zlen. rewrite (peek_length _ _ _ Hb1). unfold seg_addrs. rewrite length_seqZ. lia. }
    cbn [digest_segments]. rewrite (CM_bind_eq _ _ _ _ _ E1).
    destruct (IH s1 (m ++ b1) b2) as (s2&E2&Hh2&Hf2); [done..|]. exists s2.
    rewrite app_assoc. split_and!; [done|done|congruence].
Qed.

Lemma init_run s : ctx_ok (cctx s) ->
  exists s', init alg s = Some (tt, s') /\ hashing s' (cmem s) [] /\ crt_flags s' = crt_flags s.
Proof. intros Hc. eexists. split; [done|]. split; [split; [done|]|done]. by apply init_law. Qed.

Lemma digest_run s sgs out b :
  ctx_ok (cctx s) -> Forall (fun g => 0 <= sg_length g < limit) sgs ->
  peek (cmem s) (all_addrs sgs) = Some b -> Forall is_u8 b -> mapped (cmem s) (out_addrs out) ->
  exists s', digest alg sgs out s = Some (tt, s') /\ digested s s' out b.
Proof.
  intros Hc Hok Hb Hu Hm. unfold digest. destruct (init_run s Hc) as (s1&E1&Hh1&Hf1).
  rewrite (CM_bind_eq _ _ _ _ _ E1).
  destruct (digest_segments_run s1 (cmem s) [] sgs b) as (s2&E2&[Hm2 Ha2]&Hf2); [done..|].
  rewrite (CM_bind_eq _ _ _ _ _ E2). destruct (final_run s2 b out) as (s3&E3&Hp&Hmod&Hc3&Hf3);
    [done|by rewrite Hm2|]. exists s3. split; [done|]. rewrite Hm2 in Hmod. split_and!; [done..|congruence].
Qed.

(** ** HMAC *)

(** The key of RFC 2104: a key that is longer than a block is hashed. *)
Definition hmac_key (k : bytes) : bytes := if decide (cra_blocksize alg < zlen k) then H k else k.

(** The key padded with zeros to a block, exclusive-ored with [v]. *)
Definition hmac_pad (v : Z) (k : bytes) : bytes :=
  (fun x => x ^u v) <$> (k ++ replicate (Z.to_nat (cra_blocksize alg) - length k) 0).

(** HMAC as RFC 2104 defines it. *)
Definition hmac (k text : bytes) : bytes :=
  H (hmac_pad 0x5c (hmac_key k) ++ H (hmac_pad 0x36 (hmac_key k) ++ text)).

Lemma sg_set_buf_addrs buf n : all_addrs [sg_set_buf buf n] = seqZ buf n.
Proof.
  unfold all_addrs, seg_addrs, sg_set_buf. simpl. rewrite app_nil_r. f_equal.
  pose proof (Z.div_mod buf PAGE_SIZE). unfold PAGE_SIZE in *. lia.
Qed.

Lemma sg_set_buf_ok buf n : 0 <= n < 2^32 -> seg_ok (sg_set_buf buf n).
Proof. intros Hn. split; [|done]. apply Z.mod_pos_bound. unfold PAGE_SIZE. lia. Qed.

Lemma xor_pad_run n s p v b :
  peek (cmem s) (seqZ p (Z.of_nat n)) = Some b ->
  exists m', xor_pad n p v s = Some (tt, with_mem s m') /\
    peek m' (seqZ p (Z.of_nat n)) = Some ((fun x => x ^u v) <$> b) /\
    modifies (seqZ p (Z.of_nat n)) (cmem s) m'.
Proof.
  revert s p b. induction n as [|n IH]; intros s p b Hb.
  - injection Hb as <-. exists (cmem s). split; [by destruct s|]. split; [done|apply modifies_refl].
  - assert (Hs : seqZ p (Z.of_nat (S n)) = seqZ p 1 ++ seqZ (p + 1) (Z.of_nat n)) by
      (rewrite <- seqZ_split by lia; f_equal; lia).
    rewrite Hs in *. destruct (peek_app_split _ _ _ _ Hb) as (b1&b2&->&Hb1&Hb2).
    pose proof (peek_length _ _ _ Hb1) as Hl. rewrite length_seqZ in Hl.
    cbn [xor_pad]. rewrite (CM_bind_eq _ _ _ _ _ (rd_ok s p 1 b1 Hb1)).
    assert (Hz : zlen ((fun x => x ^u v) <$> b1) = 1) by (unfold zlen; rewrite length_fmap; lia).
    destruct (wr_ok s p ((fun x => x ^u v) <$> b1)) as (m1&E1&Hp1&Hmod1); rewrite Hz in *.
    { apply peek_mapped. eauto. }
    rewrite (CM_bind_eq _ _ _ _ _ E1).
    assert (Hd : seqZ p 1 ## seqZ (p + 1) (Z.of_nat n)) by (intros z; rewrite !elem_of_seqZ; lia).
    destruct (IH (with_mem s m1) (p + 1) b2) as (m2&E2&Hp2&Hmod2).
    { simpl. rewrite (modifies_peek _ _ _ _ Hmod1); [done|]. intros z Hz1 Hz2. by apply (Hd z). }
    exists m2. split; [exact E2|]. rewrite fmap_app. split.
    + apply peek_app_Some; [|done]. by rewrite (modifies_peek _ _ _ _ Hmod2).
    + eapply modifies_trans; [exact Hmod1|exact Hmod2|solve_sub..].
Qed.

(** *** The steps of HMAC *)

Definition blk_addrs (blk : Z) : list Z := seqZ blk (cra_blocksize alg).

Lemma blocksize_range : 0 <= cra_blocksize alg.
Proof. pose proof sizes. lia. Qed.

Lemma fill_pad_run s blk key keylen v k :
  peek (cmem s) (seqZ key keylen) = Some k -> 0 <= keylen <= cra_blocksize alg ->
  mapped (cmem s) (blk_addrs blk) -> seqZ key keylen ## blk_addrs blk ->
  exists m', fill_pad alg blk key keylen v s = Some (tt, with_mem s m') /\
    peek m' (blk_addrs blk) = Some (hmac_pad v k) /\ modifies (blk_addrs blk) (cmem s) m'.
Proof.
  intros Hk Hn Hm Hd. unfold fill_pad, blk_addrs in *. set (bs := cra_blocksize alg) in *.
  assert (Hz : zlen (replicate (Z.to_nat bs) 0) = bs) by (unfold zlen; rewrite length_replicate; lia).
  destruct (wr_ok s blk (replicate (Z.to_nat bs) 0)) as (m1&E1&Hp1&Hmod1); rewrite Hz in *; [done|].
  rewrite (CM_bind_eq _ _ _ _ _ E1).
  assert (Hs : seqZ blk bs = seqZ blk keylen ++ seqZ (blk + keylen) (bs - keylen)) by
    (rewrite <- seqZ_split by lia; f_equal; lia).
  destruct (memcpy_ok (with_mem s m1) blk key keylen k) as (m2&E2&Hp2&Hmod2); [lia| | |]; simpl.
  { by rewrite (modifies_peek _ _ _ _ Hmod1). }
  { intros a Ha. apply (mod_dom _ _ _ Hmod1), Hm. rewrite Hs. set_solver. }
  rewrite (CM_bind_eq _ _ _ _ _ E2).
  assert (Hlk : length k = Z.to_nat keylen) by (rewrite (peek_length _ _ _ Hk); apply length_seqZ).
  destruct (xor_pad_run (Z.to_nat bs) (with_mem s m2) blk v (k ++ replicate (Z.to_nat bs - length k) 0))
    as (m3&E3&Hp3&Hmod3); simpl in *.
  { rewrite Z2Nat.id, Hs by lia. apply peek_app_Some; [done|]. rewrite (modifies_peek _ _ _ _ Hmod2).
    - rewrite Hs in Hp1. apply peek_app_inv in Hp1 as [_ Hp1]. rewrite Hp1, length_seqZ, drop_replicate, Hlk. done.
    - intros z. rewrite !elem_of_seqZ. lia. }
  rewrite Z2Nat.id in * by lia. exists m3. split; [exact E3|]. split; [done|].
  eapply modifies_trans; [|exact Hmod3| |done]; [|done].
  eapply modifies_trans; [exact Hmod1|exact Hmod2|done|]. rewrite Hs. set_solver.
Qed.

Lemma hmac_pad_bytes v k : is_u8 v -> Forall is_u8 k -> Forall is_u8 (hmac_pad v k).
Proof.
  intros Hv Hk. unfold hmac_pad. apply Forall_fmap, Forall_app. split; eapply Forall_impl.
  - exact Hk.
  - intros x Hx. simpl. auto with kern.
  - apply Forall_replicate. by apply (bool_decide_unpack (is_u8 0)).
  - intros x Hx. simpl. auto with kern.
Qed.

(** Initialise, absorb the pad block: what the two halves of HMAC begin with. *)
Lemma start_pad_run s blk v k :
  ctx_ok (cctx s) -> peek (cmem s) (blk_addrs blk) = Some (hmac_pad v k) -> is_u8 v -> Forall is_u8 k ->
  cra_blocksize alg < 2^32 ->
  exists s1 s', init alg s = Some (tt, s1) /\ update alg [sg_set_buf blk (cra_blocksize alg)] s1 = Some (tt, s') /\
    hashing s' (cmem s) (hmac_pad v k) /\ crt_flags s' = crt_flags s.
Proof.
  intros Hc Hp Hv Hk Hbs. destruct (init_run s Hc) as (s1&E1&Hh1&Hf1).
  destruct (update_run s1 (cmem s) [] [sg_set_buf blk (cra_blocksize alg)] (hmac_pad v k)) as (s2&E2&Hh2&Hf2);
    [done| | |by apply hmac_pad_bytes|].
  - constructor; [|done]. apply sg_set_buf_ok. pose proof blocksize_range. lia.
  - by rewrite sg_set_buf_addrs.
  - exists s1, s2. split_and!; [done..|congruence].
Qed.

(** The key after [shorten_key]. *)
Lemma shorten_key_run s key keylen k :
  ctx_ok (cctx s) -> 0 <= keylen < limit -> peek (cmem s) (seqZ key keylen) = Some k -> Forall is_u8 k ->
  exists s', shorten_key alg key keylen s = Some (zlen (hmac_key k), s') /\
    peek (cmem s') (seqZ key (zlen (hmac_key k))) = Some (hmac_key k) /\
    modifies (seqZ key keylen) (cmem s) (cmem s') /\ ctx_ok (cctx s') /\ crt_flags s' = crt_flags s.
Proof.
  intros Hc Hl Hk Hu. unfold shorten_key, hmac_key.
  assert (zlen k = keylen) as Hlk by (unfold zlen; rewrite (peek_length _ _ _ Hk), length_seqZ; lia).
  rewrite Hlk. pose proof sizes as [Hds Hbs]. case_decide as Hlong.
  - assert (Hsub : seqZ key (dia_digestsize alg) ⊆ seqZ key keylen) by (intros z; rewrite !elem_of_seqZ; lia).
    destruct (digest_run s [sg_set_buf key keylen] key k) as (s1&E1&Hp1&Hmod1&Hc1&Hf1); [done| | |done| |].
    + by constructor.
    + by rewrite sg_set_buf_addrs.
    + intros a Ha. assert (mapped (cmem s) (seqZ key keylen)) as Hm by (apply peek_mapped; eauto). apply Hm, Hsub, Ha.
    + unfold hash_key. rewrite (CM_bind_eq _ _ _ _ _ E1). exists s1. rewrite digest_length.
      split_and!; [done|done| |done|done]. by eapply modifies_weaken.
  - exists s. rewrite Hlk. split_and!; [done|done|apply modifies_refl|done|done].
Qed.

Lemma hmac_key_short k : 0 <= zlen (hmac_key k) <= cra_blocksize alg.
Proof. unfold hmac_key. pose proof sizes. case_decide; [rewrite digest_length|]; unfold zlen in *; lia. Qed.

Lemma hmac_key_bytes k : Forall is_u8 k -> Forall is_u8 (hmac_key k).
Proof. intros. unfold hmac_key. case_decide; [apply digest_bytes|done]. Qed.

(** [fill_pad], then a digest that has absorbed the pad. *)
Lemma pad_and_start s blk key K v :
  ctx_ok (cctx s) -> peek (cmem s) (seqZ key (zlen K)) = Some K -> Forall is_u8 K -> is_u8 v ->
  zlen K <= cra_blocksize alg < 2^32 -> mapped (cmem s) (blk_addrs blk) -> seqZ key (zlen K) ## blk_addrs blk ->
  exists s1 s2 s3, fill_pad alg blk key (zlen K) v s = Some (tt, s1) /\ init alg s1 = Some (tt, s2) /\
    update alg [sg_set_buf blk (cra_blocksize alg)] s2 = Some (tt, s3) /\
    absorbed (cctx s3) (hmac_pad v K) /\ modifies (blk_addrs blk) (cmem s) (cmem s3) /\ crt_flags s3 = crt_flags s.
Proof.
  intros Hc Hk Hu Hv Hl Hm Hd.
  destruct (fill_pad_run s blk key (zlen K) v K) as (m1&E1&Hp1&Hmod1); [done|unfold zlen in *; lia|done..|].
  destruct (start_pad_run (with_mem s m1) blk v K) as (s2&s3&E2&E3&[Hm3 Ha3]&Hf3); [done..|lia|].
  exists (with_mem s m1), s2, s3. rewrite Hm3. by split_and!.
Qed.

Lemma crypto_hmac_init_run s blk key keylen k :
  ctx_ok (cctx s) -> 0 <= keylen < limit -> peek (cmem s) (seqZ key keylen) = Some k -> Forall is_u8 k ->
  cra_blocksize alg < 2^32 -> mapped (cmem s) (blk_addrs blk) -> seqZ key keylen ## blk_addrs blk ->
  exists s', crypto_hmac_init alg blk key keylen s = Some (zlen (hmac_key k), s') /\
    peek (cmem s') (seqZ key (zlen (hmac_key k))) = Some (hmac_key k) /\
    absorbed (cctx s') (hmac_pad 0x36 (hmac_key k)) /\
    modifies (seqZ key keylen ++ blk_addrs blk) (cmem s) (cmem s') /\ crt_flags s' = crt_flags s.
Proof.
  intros Hc Hl Hk Hu Hbs Hm Hd. set (K := hmac_key k).
  assert (Hlk : zlen K <= keylen).
  { pose proof sizes. subst K. unfold hmac_key. assert (zlen k = keylen) as ->
      by (unfold zlen; rewrite (peek_length _ _ _ Hk), length_seqZ; lia).
    case_decide; [rewrite digest_length; lia|]. unfold zlen. rewrite (peek_length _ _ _ Hk), length_seqZ. lia. }
  destruct (shorten_key_run s key keylen k) as (s1&E1&Hp1&Hmod1&Hc1&Hf1); [done..|]. fold K in E1, Hp1.
  assert (Hd1 : seqZ key (zlen K) ## blk_addrs blk).
  { intros z Hz. apply Hd. rewrite elem_of_seqZ in *. lia. }
  unfold crypto_hmac_init. rewrite (CM_bind_eq _ _ _ _ _ E1).
  destruct (pad_and_start s1 blk key K 0x36) as (s2&s3&s4&E2&E3&E4&Ha4&Hmod4&Hf4);
    [done|done|by apply hmac_key_bytes|by apply (bool_decide_unpack (is_u8 0x36))
    |pose proof (hmac_key_short k); unfold K; lia|by eapply modifies_mapped|done|].
  rewrite (CM_bind_eq _ _ _ _ _ E2), (CM_bind_eq _ _ _ _ _ E3), (CM_bind_eq _ _ _ _ _ E4).
  exists s4. split; [done|]. split_and!; [|done| |congruence].
  - by rewrite (modifies_peek _ _ _ _ Hmod4).
  - eapply modifies_trans; [exact Hmod1|exact Hmod4|solve_sub..].
Qed.

Lemma crypto_hmac_final_run s blk key K out m :
  absorbed (cctx s) m -> peek (cmem s) (seqZ key (zlen K)) = Some K -> Forall is_u8 K ->
  zlen K <= cra_blocksize alg < 2^32 -> mapped (cmem s) (blk_addrs blk) -> mapped (cmem s) (out_addrs out) ->
  seqZ key (zlen K) ## blk_addrs blk -> seqZ key (zlen K) ## out_addrs out -> out_addrs out ## blk_addrs blk ->
  exists s', crypto_hmac_final alg blk key (zlen K) out s = Some (zlen K, s') /\
    peek (cmem s') (out_addrs out) = Some (H (hmac_pad 0x5c K ++ H m)) /\
    modifies (blk_addrs blk ++ out_addrs out) (cmem s) (cmem s') /\
    ctx_ok (cctx s') /\ crt_flags s' = crt_flags s.
Proof.
  intros Ha Hk Hu Hl Hm Hmo Hd1 Hd2 Hd3. unfold crypto_hmac_final, shorten_key. rewrite decide_False by lia.
  rewrite (CM_bind_eq (mret (zlen K)) _ s (zlen K) s eq_refl).
  destruct (final_run s m out) as (s1&E1&Hp1&Hmod1&Hc1&Hf1); [done..|]. rewrite (CM_bind_eq _ _ _ _ _ E1).
  destruct (pad_and_start s1 blk key K 0x5c) as (s2&s3&s4&E2&E3&E4&Ha4&Hmod4&Hf4);
    [done|by rewrite (modifies_peek _ _ _ _ Hmod1)|done|by apply (bool_decide_unpack (is_u8 0x5c))|done
    |by eapply modifies_mapped|done|].
  rewrite (CM_bind_eq _ _ _ _ _ E2), (CM_bind_eq _ _ _ _ _ E3), (CM_bind_eq _ _ _ _ _ E4).
  pose proof sizes as [Hds _].
  destruct (update_run s4 (cmem s4) (hmac_pad 0x5c K) [sg_set_buf out (dia_digestsize alg)] (H m))
    as (s5&E5&[Hm5 Ha5]&Hf5); [done| | |apply digest_bytes|].
  { constructor; [|done]. apply sg_set_buf_ok. lia. }
  { rewrite sg_set_buf_addrs. fold (out_addrs out). by rewrite (modifies_peek _ _ _ _ Hmod4). }
  rewrite (CM_bind_eq _ _ _ _ _ E5). destruct (final_run s5 _ out Ha5) as (s6&E6&Hp6&Hmod6&Hc6&Hf6).
  { rewrite Hm5. do 2 (eapply modifies_mapped; [eassumption|]). done. }
  rewrite (CM_bind_eq _ _ _ _ _ E6). exists s6. split; [done|]. split_and!; [done| |done|congruence].
  rewrite Hm5 in Hmod6. eapply modifies_trans; [|exact Hmod6| |]; [|reflexivity|solve_sub].
  eapply modifies_trans; [exact Hmod1|exact Hmod4|solve_sub..].
Qed.

(** The buffers of an HMAC computation are apart from each other. *)
Record hmac_apart (blk key keylen out : Z) (sgs : list scatterlist) : Prop := {
  key_blk : seqZ key keylen ## blk_addrs blk;
  key_out : seqZ key keylen ## out_addrs out;
  out_blk : out_addrs out ## blk_addrs blk;
  text_key : all_addrs sgs ## seqZ key keylen;
  text_blk : all_addrs sgs ## blk_addrs blk
}.

Lemma crypto_hmac_run s blk key keylen sgs out k text :
  ctx_ok (cctx s) -> 0 <= keylen < limit -> cra_blocksize alg < 2^32 -> Forall seg_ok sgs ->
  peek (cmem s) (seqZ key keylen) = Some k -> Forall is_u8 k ->
  peek (cmem s) (all_addrs sgs) = Some text -> Forall is_u8 text ->
  mapped (cmem s) (blk_addrs blk) -> mapped (cmem s) (out_addrs out) -> hmac_apart blk key keylen out sgs ->
  exists s', crypto_hmac alg blk key keylen sgs out s = Some (zlen (hmac_key k), s') /\
    peek (cmem s') (out_addrs out) = Some (hmac k text) /\
    modifies (seqZ key keylen ++ blk_addrs blk ++ out_addrs out) (cmem s) (cmem s').
Proof.
  intros Hc Hl Hbs Hok Hk Hu Ht Hut Hm Hmo [Hkb Hko Hob Htk Htb]. unfold crypto_hmac.
  destruct (crypto_hmac_init_run s blk key keylen k) as (s1&E1&Hp1&Ha1&Hmod1&Hf1); [done..|].
  rewrite (CM_bind_eq _ _ _ _ _ E1).
  assert (Hlk : seqZ key (zlen (hmac_key k)) ⊆ seqZ key keylen).
  { assert (zlen k = keylen) as Hz by (unfold zlen; rewrite (peek_length _ _ _ Hk), length_seqZ; lia).
    intros z. rewrite !elem_of_seqZ. pose proof sizes. unfold hmac_key. case_decide; [rewrite digest_length|]; lia. }
  destruct (update_run s1 (cmem s1) _ sgs text (conj eq_refl Ha1)) as (s2&E2&[Hm2 Ha2]&Hf2); [done| |done|].
  { rewrite (modifies_peek _ _ _ _ Hmod1); [done|]. apply disjoint_app. done. }
  unfold crypto_hmac_update. rewrite (CM_bind_eq _ _ _ _ _ E2).
  destruct (crypto_hmac_final_run s2 blk key (hmac_key k) out _ Ha2) as (s3&E3&Hp3&Hmod3&_&_);
    [by rewrite Hm2|by apply hmac_key_bytes|pose proof (hmac_key_short k); lia
    |rewrite Hm2; by eapply modifies_mapped|rewrite Hm2; by eapply modifies_mapped|solve_apart|solve_apart|done|].
  exists s3. split; [done|]. split; [done|]. rewrite Hm2 in Hmod3.
  eapply modifies_trans; [exact Hmod1|exact Hmod3|solve_sub..].
Qed.
End Spec.
End DigestApi.
