(* ===== verification/DigestSpec.v ===== *)
(** What the digests compute: SHA-1, SHA-256, MD5, MD4 and Michael against their
    references, the digest layer over scatterlists, and HMAC against RFC 2104. *)
From Stdlib Require Import ZArith Lia.
From stdpp Require Import base numbers list list_numbers option gmap.
From S2P Require Import Prelude Bytes Cipher CipherMem Digest Fips Sha1 Sha256 Md MdRfc Michael DigestApi.
Import DigestApi.

Local Open Scope Z_scope.
Local Open Scope kernel_scope.

(** ** The algorithms *)

(** [struct crypto_alg] of each digest. *)
Definition sha1_alg : digest_alg sha1_ctx :=
  DigestAlg _ 64 20 (fun _ => sha1_init) (fun c d => sha1_update c d (zlen d)) sha1_final None.

Definition sha256_alg : digest_alg Sha256.sha256_ctx :=
  DigestAlg _ 64 32 (fun _ => Sha256.sha256_init) (fun c d => Sha256.sha256_update c d (zlen d)) Sha256.sha256_final None.

Definition md5_alg : digest_alg Md.md_ctx :=
  DigestAlg _ 64 16 (fun c => Md.md5_init (Md.block c)) (fun c d => Md.md5_update c d (zlen d)) Md.md5_final None.

Definition md4_alg : digest_alg Md.md_ctx :=
  DigestAlg _ 64 16 (fun c => Md.md4_init (Md.block c)) (fun c d => Md.md4_update c d (zlen d)) Md.md4_final None.

(** The flags that [michael_setkey] sets are those of a local variable of [setkey]. *)
Definition michael_mic_alg : digest_alg Michael.michael_mic_ctx :=
  DigestAlg _ 8 8 Michael.michael_init (fun c d => Michael.michael_update c d (zlen d))
    (fun c => Some (Michael.michael_final c))
    (Some (fun c k n => let '(ret, _, c) := Michael.michael_setkey c k n in (ret, c))).

(** ** Digests are strings of bytes of the announced length *)

Lemma hash_blocks_inv (P : list Z -> Prop) t h m :
  (forall h b, P h -> P (t h b)) -> P h -> P (hash_blocks t h m).
Proof.
  intros Ht. unfold hash_blocks. generalize (nblocks m). intros n. revert h m.
  induction n as [|n IH]; intros h m Hh; [done|]. simpl. by apply IH, Ht.
Qed.

Lemma length_add_words h x : length h = length x -> length (add_words h x) = length h.
Proof. intros E. unfold add_words. rewrite length_zip_with. lia. Qed.

Lemma words_out_length (f : Z -> bytes) h :
  (forall x, is_bytes 4 (f x)) -> zlen (mjoin (f <$> h)) = 4 * zlen h /\ Forall is_u8 (mjoin (f <$> h)).
Proof.
  intros Hf. induction h as [|x h [IH1 IH2]]; [done|]. change (mjoin (f <$> x :: h)) with (f x ++ mjoin (f <$> h)). destruct (Hf x) as [H1 H2].
  split; [|by apply Forall_app]. unfold zlen in *. rewrite length_app, H1. simpl length. lia.
Qed.

Lemma be32_out_bytes x : is_bytes 4 (be32_out x).
Proof.
  unfold be32_out, be_bytes. destruct (le_bytes_ok 4 x) as [H1 H2]. split; [by rewrite length_rev|].
  by apply Forall_rev.
Qed.

Lemma u32_out_bytes x : is_bytes 4 (u32_out x).
Proof. apply le_bytes_ok. Qed.

Lemma big_endian_bytes n x : is_bytes n (Fips.big_endian n x).
Proof. rewrite <- Fips.be_bytes_digits. unfold be_bytes. destruct (le_bytes_ok n x) as [H1 H2].
  split; [by rewrite length_rev|by apply Forall_rev]. Qed.

(** Each has as many words as its block function leaves. *)
Lemma fips_bytes compress H0 k m :
  (forall h b, length h = k -> length (compress h b) = k) -> length H0 = k ->
  zlen (Fips.digest compress H0 m) = 4 * Z.of_nat k /\ Forall is_u8 (Fips.digest compress H0 m).
Proof.
  intros Hc H0k. unfold Fips.digest.
  destruct (words_out_length (Fips.big_endian 4) (hash_blocks compress H0 (md_pad (Fips.big_endian 8) m)))
    as [-> Hb]; [apply big_endian_bytes|]. split; [|done]. unfold zlen.
  by rewrite (hash_blocks_inv (fun h => length h = k)).
Qed.

Lemma sha1_bytes m : zlen (Fips.sha1 m) = 20 /\ Forall is_u8 (Fips.sha1 m).
Proof.
  apply (fips_bytes _ _ 5); [|done]. intros h b _. unfold Fips.sha1_compress.
  by destruct (fold_left _ _ _) as [[[[? ?] ?] ?] ?].
Qed.

Lemma sha256_bytes m : zlen (Fips.sha256 m) = 32 /\ Forall is_u8 (Fips.sha256 m).
Proof.
  apply (fips_bytes _ _ 8); [|done]. intros h b _. unfold Fips.sha256_compress.
  by destruct (fold_left _ _ _) as [[[[[[[? ?] ?] ?] ?] ?] ?] ?].
Qed.

Lemma md_bytes t m :
  (forall h w, length h = 4%nat -> length (t h w) = 4%nat) ->
  zlen (Md.md_digest t m) = 16 /\ Forall is_u8 (Md.md_digest t m).
Proof.
  intros Ht. unfold Md.md_digest.
  destruct (words_out_length u32_out (hash_blocks (Md.transform_helper t) Md.md_init (md_pad (le_bytes 8) m)) u32_out_bytes)
    as [-> Hb]. split; [|done]. unfold zlen.
  rewrite (hash_blocks_inv (fun h => length h = 4%nat)); [done| |done]. intros h b Hh. by apply Ht.
Qed.

Lemma md5_transform_length h w : length h = 4%nat -> length (Md.md5_transform h w) = 4%nat.
Proof. destruct h as [|? [|? [|? [|? [|? ?]]]]]; intros Hh; try discriminate Hh. reflexivity. Qed.

Lemma md4_transform_length h w : length h = 4%nat -> length (Md.md4_transform h w) = 4%nat.
Proof. destruct h as [|? [|? [|? [|? [|? ?]]]]]; intros Hh; try discriminate Hh. reflexivity. Qed.

(** ** The algorithms keep the promises of a digest *)

Lemma zlen_nat {A} (l : list A) : zlen l = Z.of_nat (length l).
Proof. done. Qed.

Global Program Instance sha1_laws : DigestLaws sha1_alg Fips.sha1 (2^29) :=
  {| ctx_ok := fun _ => True; absorbed := sha1_absorbed |}.
Next Obligation. intros. apply sha1_init_absorbed. Qed.
Next Obligation.
  intros c m d Ha _ Hl. destruct (sha1_update_absorbs c m d (length d) Ha) as (c'&E&A); [done|done|].
  rewrite firstn_all in A. eauto.
Qed.
Next Obligation. intros c m Ha. eexists. split; [by apply sha1_final_absorbed|done]. Qed.
Next Obligation. done. Qed.
Next Obligation. intros m. apply sha1_bytes. Qed.
Next Obligation. intros m. apply sha1_bytes. Qed.
Next Obligation. done. Qed.
Next Obligation. by simpl. Qed.

Global Program Instance sha256_laws : DigestLaws sha256_alg Fips.sha256 (2^29) :=
  {| ctx_ok := fun _ => True; absorbed := Sha256.sha256_absorbed |}.
Next Obligation. intros. apply Sha256.sha256_init_absorbed. Qed.
Next Obligation.
  intros c m d Ha _ Hl. destruct (Sha256.sha256_update_absorbs c m d (length d) Ha) as (c'&E&A); [done|done|].
  rewrite firstn_all in A. eauto.
Qed.
Next Obligation. intros c m Ha. eexists. split; [by apply Sha256.sha256_final_absorbed|done]. Qed.
Next Obligation. done. Qed.
Next Obligation. intros m. apply sha256_bytes. Qed.
Next Obligation. intros m. apply sha256_bytes. Qed.
Next Obligation. done. Qed.
Next Obligation. by simpl. Qed.

Global Program Instance md5_laws : DigestLaws md5_alg Md.md5 (2^32) :=
  {| ctx_ok := fun c => length (Md.block c) = 64%nat; absorbed := Md.md_absorbed Md.md5_transform |}.
Next Obligation. intros c Hc. by apply Md.md_init_absorbed. Qed.
Next Obligation.
  intros c m d Ha _ Hl. destruct (Md.md_update_absorbs Md.md5_transform c m d (length d) Ha) as (c'&E&A); [done|].
  rewrite firstn_all in A. eauto.
Qed.
Next Obligation. intros c m Ha. eexists. split; [by apply Md.md_final_absorbed|done]. Qed.
Next Obligation. intros c m Ha. apply Ha. Qed.
Next Obligation. intros m. apply md_bytes, md5_transform_length. Qed.
Next Obligation. intros m. apply md_bytes, md5_transform_length. Qed.
Next Obligation. done. Qed.
Next Obligation. by simpl. Qed.

Global Program Instance md4_laws : DigestLaws md4_alg Md.md4 (2^32) :=
  {| ctx_ok := fun c => length (Md.block c) = 64%nat; absorbed := Md.md_absorbed Md.md4_transform |}.
Next Obligation. intros c Hc. by apply Md.md_init_absorbed. Qed.
Next Obligation.
  intros c m d Ha _ Hl. destruct (Md.md_update_absorbs Md.md4_transform c m d (length d) Ha) as (c'&E&A); [done|].
  rewrite firstn_all in A. eauto.
Qed.
Next Obligation. intros c m Ha. eexists. split; [by apply Md.md_final_absorbed|done]. Qed.
Next Obligation. intros c m Ha. apply Ha. Qed.
Next Obligation. intros m. apply md_bytes, md4_transform_length. Qed.
Next Obligation. intros m. apply md_bytes, md4_transform_length. Qed.
Next Obligation. done. Qed.
Next Obligation. by simpl. Qed.

(** [digest_null] of [crypto/crypto_null.c]: no bytes come out. *)
Definition null_init (c : unit) : unit := c.
Definition null_update (c : unit) (data : bytes) : option unit := Some c.
Definition null_final (c : unit) : option (bytes * unit) := Some ([], c).
Definition digest_null : digest_alg unit := DigestAlg _ 1 0 null_init null_update null_final None.

Global Program Instance null_laws : DigestLaws digest_null (fun _ => []) (2^32) :=
  {| ctx_ok := fun _ => True; absorbed := fun _ _ => True |}.
Next Obligation. done. Qed.
Next Obligation. intros. by eexists. Qed.
Next Obligation. intros. by eexists. Qed.
Next Obligation. done. Qed.
Next Obligation. done. Qed.
Next Obligation. constructor. Qed.
Next Obligation. done. Qed.
Next Obligation. by simpl. Qed.

(** ** A message in pieces *)

Section Feed.
Context {C : Type} (alg : digest_alg C).

Fixpoint feed (c : C) (pieces : list bytes) : option C :=
  match pieces with
  | [] => Some c
  | d :: pieces => c ← dia_update alg c d; feed c pieces
  end.

(** Initialise, update with each piece, finish. *)
Definition digest_pieces (c : C) (pieces : list bytes) : option bytes :=
  c ← feed (dia_init alg c) pieces;
  '(d, _) ← dia_final alg c;
  Some d.

Lemma feed_absorbs {H limit} {L : DigestLaws alg H limit} c m pieces :
  absorbed c m -> Forall (fun d => Forall is_u8 d /\ zlen d < limit) pieces ->
  exists c', feed c pieces = Some c' /\ absorbed c' (m ++ mjoin pieces).
Proof.
  intros Ha Hp. revert c m Ha. induction Hp as [|d pieces [Hu Hl] Hp IH]; intros c m Ha.
  - exists c. by rewrite app_nil_r.
  - cbn [feed]. destruct (update_law c m d Ha Hu Hl) as (c1&->&Ha1). cbn [mbind option_bind].
    destruct (IH _ _ Ha1) as (c2&E2&Ha2). exists c2. split; [done|]. rewrite <- app_assoc in Ha2. exact Ha2.
Qed.

Lemma digest_pieces_run {H limit} {L : DigestLaws alg H limit} c pieces :
  ctx_ok c -> Forall (fun d => Forall is_u8 d /\ zlen d < limit) pieces ->
  digest_pieces c pieces = Some (H (mjoin pieces)).
Proof.
  intros Hc Hp. unfold digest_pieces. destruct (feed_absorbs _ _ _ (init_law c Hc) Hp) as (c1&->&Ha).
  cbn [mbind option_bind]. destruct (final_law _ _ Ha) as (c2&->&_). done.
Qed.
End Feed.

(** C31. SHA-1: whatever the split of a message into updates of less than 2^29 bytes
    each, [sha1_init], [sha1_update] and [sha1_final] give the SHA-1 digest of the whole
    message as FIPS 180-1 defines it (padding, big-endian words, 80 rounds). *)
Theorem sha1_correct c pieces :
  Forall (fun d => Forall is_u8 d /\ zlen d < 2^29) pieces ->
  digest_pieces sha1_alg c pieces = Some (Fips.sha1 (mjoin pieces)).
Proof. intros Hp. by apply (digest_pieces_run sha1_alg). Qed.

Lemma sha1_correct_witness :
  digest_pieces sha1_alg sha1_init [[97]; []; [98; 99]] =
  Some [0xa9; 0x99; 0x3e; 0x36; 0x47; 0x06; 0x81; 0x6a; 0xba; 0x3e;
        0x25; 0x71; 0x78; 0x50; 0xc2; 0x6c; 0x9c; 0xd0; 0xd8; 0x9d].
Proof.
  rewrite (sha1_correct sha1_init [[97]; []; [98; 99]]); [vm_compute; reflexivity|].
  apply (bool_decide_unpack _). vm_compute. exact I.
Defined.

(** C32. SHA-256: whatever the split of a message into updates of less than 2^29 bytes
    each, the code gives the SHA-256 digest of the whole message as FIPS 180-2 defines
    it; the unrolled steps of [sha256_transform], which rotate the roles of the registers,
    are its 64 rounds. *)
Theorem sha256_correct c pieces :
  Forall (fun d => Forall is_u8 d /\ zlen d < 2^29) pieces ->
  digest_pieces sha256_alg c pieces = Some (Fips.sha256 (mjoin pieces)).
Proof. intros Hp. by apply (digest_pieces_run sha256_alg). Qed.

Lemma sha256_correct_witness :
  digest_pieces sha256_alg Sha256.sha256_init [[97]; []; [98; 99]] =
  Some [0xba; 0x78; 0x16; 0xbf; 0x8f; 0x01; 0xcf; 0xea; 0x41; 0x41; 0x40; 0xde; 0x5d; 0xae; 0x22; 0x23;
        0xb0; 0x03; 0x61; 0xa3; 0x96; 0x17; 0x7a; 0x9c; 0xb4; 0x10; 0xff; 0x61; 0xf2; 0x00; 0x15; 0xad].
Proof.
  rewrite (sha256_correct Sha256.sha256_init [[97]; []; [98; 99]]); [vm_compute; reflexivity|].
  apply (bool_decide_unpack _). vm_compute. exact I.
Defined.

(** C33. MD5 and MD4: whatever the split of a message into updates, the code gives the
    digests of RFC 1321 and RFC 1320 of the whole message, in a context whose block
    buffer held any bytes before; the unrolled transforms are the steps of the RFCs. *)
Theorem md_correct c pieces :
  length (Md.block c) = 64%nat -> Forall (fun d => Forall is_u8 d /\ zlen d < 2^32) pieces ->
  digest_pieces md5_alg c pieces = Some (MdRfc.rfc_md5 (mjoin pieces)) /\
  digest_pieces md4_alg c pieces = Some (MdRfc.rfc_md4 (mjoin pieces)).
Proof.
  intros Hc Hp. rewrite <- MdRfc.md5_rfc, <- MdRfc.md4_rfc.
  split; [by apply (digest_pieces_run md5_alg)|by apply (digest_pieces_run md4_alg)].
Qed.

Lemma md_correct_witness :
  digest_pieces md5_alg (Md.MdCtx [] (replicate 64 7) 0) [[97]; []; [98; 99]] =
    Some [0x90; 0x01; 0x50; 0x98; 0x3c; 0xd2; 0x4f; 0xb0; 0xd6; 0x96; 0x3f; 0x7d; 0x28; 0xe1; 0x7f; 0x72].
Proof.
  rewrite (proj1 (md_correct (Md.MdCtx [] (replicate 64 7) 0) [[97]; []; [98; 99]] eq_refl
    ltac:(apply (bool_decide_unpack _); vm_compute; exact I))).
  vm_compute. reflexivity.
Defined.

Lemma michael_feed k c m pieces :
  Michael.mic_absorbed k c m -> Forall (Forall is_u8) pieces ->
  exists c', feed michael_mic_alg c pieces = Some c' /\ Michael.mic_absorbed k c' (m ++ mjoin pieces).
Proof.
  intros A Hp. revert c m A. induction Hp as [|d pieces Hd Hp IH]; intros c m A.
  - exists c. by rewrite app_nil_r.
  - destruct (Michael.michael_update_absorbs _ _ _ d (length d) A) as (c1&E1&A1); [done|done|].
    rewrite firstn_all in A1. cbn [feed dia_update michael_mic_alg]. unfold zlen. rewrite E1. cbn [mbind option_bind].
    destruct (IH _ _ A1) as (c2&E2&A2). exists c2. split; [done|]. by rewrite <- app_assoc in A2.
Qed.

(** Michael: [michael_init], [michael_setkey] with a key of eight bytes, updates with
    any pieces and [michael_final] give the message integrity code of IEEE 802.11i of the
    whole message. *)
Theorem michael_correct c key pieces :
  is_bytes 4 (Michael.pending c) -> is_bytes 8 key -> Forall (Forall is_u8) pieces ->
  exists c1 c2, Michael.michael_setkey (Michael.michael_init c) key 8 = (0, None, c1) /\
    feed michael_mic_alg c1 pieces = Some c2 /\
    (Michael.michael_final c2).1 = Michael.michael key (mjoin pieces).
Proof.
  intros Hc Hk Hp. destruct (Michael.michael_init_absorbed c key Hc Hk) as (c1&E1&A1).
  destruct (michael_feed _ _ _ _ A1 Hp) as (c2&E2&A2). exists c1, c2. split_and!; [done|done|].
  by apply Michael.michael_final_absorbed.
Qed.

Lemma michael_correct_witness :
  exists c1 c2, Michael.michael_setkey (Michael.michael_init (Michael.MichaelCtx [0; 0; 0; 0] 3 1 2))
      [0x82; 0x92; 0x5c; 0x1c; 0xa1; 0xd1; 0x30; 0xb8] 8 = (0, None, c1) /\
    feed michael_mic_alg c1 [[]; [0x4d]] = Some c2 /\
    (Michael.michael_final c2).1 = [0x43; 0x47; 0x21; 0xca; 0x40; 0x63; 0x9b; 0x3f].
Proof.
  destruct (michael_correct (Michael.MichaelCtx [0; 0; 0; 0] 3 1 2) [0x82; 0x92; 0x5c; 0x1c; 0xa1; 0xd1; 0x30; 0xb8]
    [[]; [0x4d]]) as (c1 & c2 & E1 & E2 & E3).
  - split; [reflexivity|]. apply (bool_decide_unpack _). vm_compute. exact I.
  - split; [reflexivity|]. apply (bool_decide_unpack _). vm_compute. exact I.
  - apply (bool_decide_unpack _). vm_compute. exact I.
  - exists c1, c2. split; [exact E1|]. split; [exact E2|]. rewrite E3. vm_compute. reflexivity.
Defined.

(** ** The digest layer *)

(** C34. The digest layer hashes the bytes that a scatterlist describes: [digest] and the
    sequence [init], [update], [final] (which splits every segment at the page
    boundaries) both leave the digest of the concatenated segments at [out], and change
    no other memory. *)
Theorem digest_layer_correct {C} (alg : digest_alg C) {H limit} {L : DigestLaws alg H limit} s sgs out b :
  ctx_ok (cctx s) -> Forall seg_ok sgs -> Forall (fun g => sg_length g < limit) sgs ->
  peek (cmem s) (all_addrs sgs) = Some b -> Forall is_u8 b -> mapped (cmem s) (out_addrs alg out) ->
  (exists s', digest alg sgs out s = Some (tt, s') /\ digested alg (L := L) s s' out b) /\
  (exists s', (_ ← init alg; _ ← update alg sgs; final alg out) s = Some (tt, s') /\ digested alg (L := L) s s' out b).
Proof.
  intros Hc Hok Hlim Hb Hu Hm. split.
  - apply digest_run; try done. apply (Forall_impl (fun g => seg_ok g /\ sg_length g < limit)); [by apply Forall_and|]. intros g [[_ ?] ?]. lia.
  - destruct (init_run alg s Hc) as (s1&E1&Hh1&Hf1). rewrite (CM_bind_eq _ _ _ _ _ E1).
    destruct (update_run alg s1 (cmem s) [] sgs b) as (s2&E2&[Hm2 Ha2]&Hf2); [done..|].
    rewrite (CM_bind_eq _ _ _ _ _ E2). destruct (final_run alg s2 b out) as (s3&E3&Hp&Hmod&Hc3&Hf3);
      [done|by rewrite Hm2|]. exists s3. split; [done|]. rewrite Hm2 in Hmod. split_and!; [done..|congruence].
Qed.

(** Memory for the witnesses: 64 bytes for the block at 4096, a key at 4200, a text across
    the end of the page at 8190 and room for a digest at 9000. *)
Definition demo_mem : gmap Z Z :=
  list_to_map (zip (seqZ 4096 64) (replicate 64 1) ++ zip (seqZ 4200 16) (replicate 16 0x0b) ++
    zip (seqZ 8188 8) [72; 105; 32; 84; 104; 101; 114; 101] ++ zip (seqZ 9000 16) (replicate 16 2)).

Definition demo_state : cstate Md.md_ctx := CState demo_mem (Md.MdCtx [] (replicate 64 7) 0) 0.

Lemma demo_mapped l b : peek demo_mem l = Some b -> mapped demo_mem l.
Proof. intros E. apply peek_mapped. eauto. Defined.

Lemma digest_layer_correct_witness :
  exists s', digest md5_alg [Sg 1 4092 8] 9000 demo_state = Some (tt, s') /\
    peek (cmem s') (seqZ 9000 16) = Some (Md.md5 [72; 105; 32; 84; 104; 101; 114; 101]).
Proof.
  destruct (digest_layer_correct md5_alg demo_state [Sg 1 4092 8] 9000 [72; 105; 32; 84; 104; 101; 114; 101])
    as [(s' & E & Hp & _) _].
  - reflexivity.
  - apply (bool_decide_unpack (Forall (fun g => (0 <= sg_offset g < 4096) /\ 0 <= sg_length g < 2^32) _)). vm_compute. exact I.
  - apply (bool_decide_unpack _). vm_compute. exact I.
  - vm_compute. reflexivity.
  - apply (bool_decide_unpack _). vm_compute. exact I.
  - apply (demo_mapped _ (replicate 16 2)). vm_compute. reflexivity.
  - exists s'. split; [exact E|exact Hp].
Defined.

(** ** HMAC *)

(** C35. [crypto_hmac] computes HMAC as RFC 2104 defines it, over any digest: with a key of
    any length below the limit of the digest (a key that is longer than a block is
    replaced by its digest, in the caller's buffer and length) and a text in any
    scatterlist, it leaves H(K xor opad, H(K xor ipad, text)) at [out], changes no
    memory but the key, the block and the output, and returns the length of the key
    that is now in the buffer. *)
Theorem crypto_hmac_correct {C} (alg : digest_alg C) {H limit} {L : DigestLaws alg H limit}
    s blk key keylen sgs out k text :
  ctx_ok (cctx s) -> 0 <= keylen < limit -> cra_blocksize alg < 2^32 -> Forall seg_ok sgs ->
  peek (cmem s) (seqZ key keylen) = Some k -> Forall is_u8 k ->
  peek (cmem s) (all_addrs sgs) = Some text -> Forall is_u8 text ->
  mapped (cmem s) (blk_addrs alg blk) -> mapped (cmem s) (out_addrs alg out) ->
  hmac_apart alg blk key keylen out sgs ->
  exists s', crypto_hmac alg blk key keylen sgs out s = Some (zlen (hmac_key alg (H := H) k), s') /\
    peek (cmem s') (out_addrs alg out) = Some (hmac alg (H := H) k text) /\
    modifies (seqZ key keylen ++ blk_addrs alg blk ++ out_addrs alg out) (cmem s) (cmem s').
Proof. intros. by apply (crypto_hmac_run alg). Qed.

(** The first test case of RFC 2202: a key of 16 bytes 0x0b, the text "Hi There". *)
Lemma crypto_hmac_correct_witness :
  exists s', crypto_hmac md5_alg 4096 4200 16 [Sg 1 4092 8] 9000 demo_state = Some (16, s') /\
    peek (cmem s') (seqZ 9000 16) =
      Some [0x92; 0x94; 0x72; 0x7a; 0x36; 0x38; 0xbb; 0x1c; 0x13; 0xf4; 0x8e; 0xf8; 0x15; 0x8b; 0xfc; 0x9d].
Proof.
  destruct (crypto_hmac_correct md5_alg demo_state 4096 4200 16 [Sg 1 4092 8] 9000 (replicate 16 0x0b)
    [72; 105; 32; 84; 104; 101; 114; 101]) as (s' & E & Hp & _).
  - reflexivity.
  - lia.
  - simpl. lia.
  - apply (bool_decide_unpack (Forall (fun g => (0 <= sg_offset g < 4096) /\ 0 <= sg_length g < 2^32) _)). vm_compute. exact I.
  - vm_compute. reflexivity.
  - apply (bool_decide_unpack _). vm_compute. exact I.
  - vm_compute. reflexivity.
  - apply (bool_decide_unpack _). vm_compute. exact I.
  - apply (demo_mapped _ (replicate 64 1)). vm_compute. reflexivity.
  - apply (demo_mapped _ (replicate 16 2)). vm_compute. reflexivity.
  - assert (Ht : all_addrs [Sg 1 4092 8] = seqZ 8188 8) by reflexivity.
    split; rewrite ?Ht; unfold blk_addrs, out_addrs; simpl cra_blocksize; simpl dia_digestsize; intros z;
      rewrite !elem_of_seqZ; lia.
  - exists s'. split; [exact E|]. refine (eq_trans Hp _). vm_compute. reflexivity.
Defined.

(** ** Errors and limits *)

(** A message of 2^29 bytes more adds 2^32 to the bit count. *)
Lemma bit_count_moves x y : 0 <= x -> y = 2^29 -> u64 (8 * x) <> u64 (8 * (x + y)).
Proof.
  intros Hx ->. unfold u64. intros E. pose proof (Z.div_mod (8 * x) (2^64)). pose proof (Z.div_mod (8 * (x + 2^29)) (2^64)). lia.
Qed.

(** C37. The limits of the digests.  [sha1_update] and [sha256_update] keep the message
    length in bits, but compute what they add to it in 32 bits: an update of exactly 2^29
    bytes leaves the count where it was, so the padding ends with a wrong length.
    [crypto_hmac_final] called with a key that is longer than a block (the length that
    the caller passed to [crypto_hmac_init], before the latter replaced it) hashes the key
    with the transform that holds the inner digest: for every digest whose [dia_init] sets
    the whole context, as those of SHA-1 and SHA-256 do (that of Michael does not), the
    result and the memory afterwards do not depend on the text that was hashed. *)
Theorem digest_edge_cases {C} (alg : digest_alg C) c1 m1 c2 m2 d :
  sha1_absorbed c1 m1 -> Sha256.sha256_absorbed c2 m2 -> zlen d = 2^29 ->
  (exists c, sha1_update c1 d (zlen d) = Some c /\ count c = count c1 /\ count c <> u64 (8 * zlen (m1 ++ d))) /\
  (exists c, Sha256.sha256_update c2 d (zlen d) = Some c /\
     Sha256.count0 c = Sha256.count0 c2 /\ Sha256.count1 c = Sha256.count1 c2 /\
     Sha256.count0 c + 2^32 * Sha256.count1 c <> u64 (8 * zlen (m2 ++ d))) /\
  ((forall ctx ctx', dia_init alg ctx = dia_init alg ctx') ->
   forall mem fl blk key keylen out ctx ctx', cra_blocksize alg < keylen ->
     crypto_hmac_final alg blk key keylen out (CState mem ctx fl) =
     crypto_hmac_final alg blk key keylen out (CState mem ctx' fl)).
Proof.
  intros A1 A2 Hd. assert (Happ : forall m : bytes, zlen (m ++ d) = zlen m + zlen d) by
    (intros m; unfold zlen; rewrite length_app; lia).
  assert (Hz : forall m : bytes, 0 <= zlen m) by (intros; unfold zlen; lia).
  assert (Hs3 : zlen d <<u 3 = 0) by (rewrite Hd; reflexivity).
  split_and!.
  - unfold sha1_update. rewrite (sha1_index_eq _ _ A1), Hs3, Z.add_0_r. pose proof (leftover_lt m1).
    destruct A1 as [Hs Hc Hl Hb]. rewrite u32_small by (unfold is_u32; lia). rewrite decide_True by lia.
    destruct (absorb_full_run sha_transform sha_init m1 (buffer c1) d (length d)) as (buf&E&_&_);
      [done|lia|unfold zlen in Hd; lia|unfold zlen in Hd; lia|].
    rewrite Hs. unfold zlen at 1. rewrite E. eexists. split; [reflexivity|].
    assert (E64 : u64 (count c1) = count c1) by (rewrite Hc; apply Z.mod_mod; lia).
    cbn [count]. split; [exact E64|]. rewrite E64, Hc, Happ. by apply bit_count_moves.
  - unfold Sha256.sha256_update, Sha256.sha256_count. rewrite (Sha256.sha256_index_eq _ _ A2), Hs3, Z.add_0_r.
    pose proof (leftover_lt m2). destruct A2 as [Hs H0 H1 Hc Hl Hb]. rewrite (u32_small (Sha256.count0 c2)) by done.
    rewrite (decide_False (P := Sha256.count0 c2 < 0)) by (unfold is_u32 in H0; lia). rewrite decide_True by lia.
    destruct (absorb_full_run Sha256.sha256_transform Sha256.H_init m2 (Sha256.buf c2) d (length d)) as (buf&E&_&_);
      [done|lia|unfold zlen in Hd; lia|unfold zlen in Hd; lia|].
    rewrite Hs. unfold zlen at 1. rewrite E. eexists. split; [reflexivity|]. split; [done|]. split; [done|].
    cbn [Sha256.count0 Sha256.count1]. rewrite Hc, Happ. by apply bit_count_moves.
  - intros Hinit mem fl blk key keylen out ctx ctx' Hk. unfold crypto_hmac_final.
    assert (Hsame : forall f : Z -> CM C Z,
      (x ← shorten_key alg key keylen; f x) (CState mem ctx fl) = (x ← shorten_key alg key keylen; f x) (CState mem ctx' fl)).
    { intros f. unfold shorten_key. rewrite decide_True by done. unfold hash_key, digest, init, call_init.
      unfold mbind, CM_bind, SM_bind. cbn [cmem cctx crt_flags]. by rewrite (Hinit ctx ctx'). }
    apply Hsame.
Qed.

(** An update of 2^29 bytes, and two inner digests with a key of 65 bytes. *)
Lemma digest_edge_cases_witness :
  exists d, zlen d = 2^29 /\ (exists c, sha1_update sha1_init d (zlen d) = Some c /\ count c = 0) /\
    forall ctx ctx', crypto_hmac_final sha1_alg 4096 4200 65 4400 (CState demo_mem ctx 0) =
      crypto_hmac_final sha1_alg 4096 4200 65 4400 (CState demo_mem ctx' 0).
Proof.
  assert (Hd : zlen (replicate (Z.to_nat (2^29)) 0) = 2^29) by (unfold zlen; rewrite length_replicate; lia).
  exists (replicate (Z.to_nat (2^29)) 0). split; [exact Hd|].
  destruct (digest_edge_cases sha1_alg sha1_init [] Sha256.sha256_init [] _ sha1_init_absorbed
    Sha256.sha256_init_absorbed Hd) as [(c & E & Hc & _) [_ H]].
  split; [exists c; split; [exact E|exact Hc]|]. intros ctx ctx'. apply H; [done|by vm_compute].
Defined.
