(* ===== verification/Timer.v ===== *)
(** The timer wheel: [kernel/timer.c] and [include/linux/timer.h].

    A timer is known by its address; the lists of the wheel are lists of timers.  There
    is one processor, so there is one [tvec_base_t], and no running timer is recorded; a
    section under its lock is one step.  The two values of [base] tell a timer from
    [TIMER_INITIALIZER], which still points to [__init_timer_base], from one that belongs to
    the wheel. *)
From Stdlib Require Import ZArith Lia.
From stdpp Require Import base numbers list list_numbers option gmap.
From S2P Require Import Prelude.

Local Open Scope Z_scope.
Local Open Scope kernel_scope.

Module Timer.

Definition TVN_BITS : Z := 6.
Definition TVR_BITS : Z := 8.
Definition TVN_SIZE : Z := Z.shiftl 1 TVN_BITS.
Definition TVR_SIZE : Z := Z.shiftl 1 TVR_BITS.
Definition TVN_MASK : Z := TVN_SIZE - 1.
Definition TVR_MASK : Z := TVR_SIZE - 1.

Definition tid : Type := Z.

Inductive timer_base := Init_timer_base | Tvec_base.
Global Instance timer_base_dec : EqDecision timer_base.
Proof. solve_decision. Defined.

(** [struct timer_list]; [entry.next] is not [NULL] exactly when [linked] holds, and
    [function] tells whether there is one. *)
Record timer_list := TimerList {
  linked : bool;
  expires : Z;
  function : bool;
  base : timer_base
}.

(** The five vectors; [work_list] is the local variable of [__run_timers]. *)
Record tvec_base := TvecBase {
  timer_jiffies : Z;
  tv1 : list (list tid);
  tv2 : list (list tid);
  tv3 : list (list tid);
  tv4 : list (list tid);
  tv5 : list (list tid);
  work_list : list tid;
  timers : gmap tid timer_list
}.

Inductive vec := TV1 | TV2 | TV3 | TV4 | TV5.
Global Instance vec_dec : EqDecision vec.
Proof. solve_decision. Defined.

Definition get_vec (b : tvec_base) (v : vec) : list (list tid) :=
  match v with TV1 => tv1 b | TV2 => tv2 b | TV3 => tv3 b | TV4 => tv4 b | TV5 => tv5 b end.

Definition set_vec (b : tvec_base) (v : vec) (l : list (list tid)) : tvec_base :=
  match b with
  | TvecBase j v1 v2 v3 v4 v5 w ts =>
    match v with
    | TV1 => TvecBase j l v2 v3 v4 v5 w ts
    | TV2 => TvecBase j v1 l v3 v4 v5 w ts
    | TV3 => TvecBase j v1 v2 l v4 v5 w ts
    | TV4 => TvecBase j v1 v2 v3 l v5 w ts
    | TV5 => TvecBase j v1 v2 v3 v4 l w ts
    end
  end.

Definition set_jiffies (b : tvec_base) (j : Z) : tvec_base :=
  TvecBase j (tv1 b) (tv2 b) (tv3 b) (tv4 b) (tv5 b) (work_list b) (timers b).
Definition set_work (b : tvec_base) (w : list tid) : tvec_base :=
  TvecBase (timer_jiffies b) (tv1 b) (tv2 b) (tv3 b) (tv4 b) (tv5 b) w (timers b).
Definition set_timer (b : tvec_base) (t : tid) (tm : timer_list) : tvec_base :=
  TvecBase (timer_jiffies b) (tv1 b) (tv2 b) (tv3 b) (tv4 b) (tv5 b) (work_list b) (<[t := tm]> (timers b)).

Definition set_linked (tm : timer_list) (x : bool) : timer_list := TimerList x (expires tm) (function tm) (base tm).
Definition set_expires (tm : timer_list) (x : Z) : timer_list := TimerList (linked tm) x (function tm) (base tm).
Definition set_base (tm : timer_list) (x : timer_base) : timer_list := TimerList (linked tm) (expires tm) (function tm) x.

(** ** Lists *)

(** [list_add_tail(&timer->entry, vec)] *)
Definition list_add_tail (b : tvec_base) (t : tid) (v : vec) (i : Z) : option tvec_base :=
  tm ← timers b !! t;
  l ← get_vec b v !! Z.to_nat i;
  Some (set_timer (set_vec b v (<[Z.to_nat i := l ++ [t]]> (get_vec b v))) t (set_linked tm true)).

Definition without (t : tid) (l : list tid) : list tid := List.filter (fun x => bool_decide (x <> t)) l.

(** [__list_del]: the timer leaves the list that it is on. *)
Definition list_del (b : tvec_base) (t : tid) : tvec_base :=
  let rm := fmap (without t) in
  TvecBase (timer_jiffies b) (rm (tv1 b)) (rm (tv2 b)) (rm (tv3 b)) (rm (tv4 b)) (rm (tv5 b))
    (without t (work_list b)) (timers b).

Definition timer_pending (b : tvec_base) (t : tid) : option bool := tm ← timers b !! t; Some (linked tm).

(** ** Timers *)

Definition timer_slot (j expires : Z) : vec * Z :=
  let idx := expires -u j in
  if decide (idx < TVR_SIZE) then (TV1, expires &u TVR_MASK)
  else if decide (idx < Z.shiftl 1 (TVR_BITS + TVN_BITS)) then (TV2, (expires >>u TVR_BITS) &u TVN_MASK)
  else if decide (idx < Z.shiftl 1 (TVR_BITS + 2 * TVN_BITS)) then
    (TV3, (expires >>u (TVR_BITS + TVN_BITS)) &u TVN_MASK)
  else if decide (idx < Z.shiftl 1 (TVR_BITS + 3 * TVN_BITS)) then
    (TV4, (expires >>u (TVR_BITS + 2 * TVN_BITS)) &u TVN_MASK)
  else if decide (s32 idx < 0) then (TV1, j &u TVR_MASK)
  else
    let expires := if decide (0xffffffff < idx) then 0xffffffff +u j else expires in
    (TV5, (expires >>u (TVR_BITS + 3 * TVN_BITS)) &u TVN_MASK).

Definition internal_add_timer (b : tvec_base) (t : tid) : option tvec_base :=
  tm ← timers b !! t;
  let '(v, i) := timer_slot (timer_jiffies b) (expires tm) in
  list_add_tail b t v i.

Definition init_timer (b : tvec_base) (t : tid) : option tvec_base :=
  tm ← timers b !! t;
  Some (set_timer b t (set_base (set_linked tm false) Tvec_base)).

Definition detach_timer (b : tvec_base) (t : tid) (clear_pending : bool) : option tvec_base :=
  tm ← timers b !! t;
  let b := list_del b t in
  Some (if clear_pending then set_timer b t (set_linked tm false) else b).

Definition __mod_timer (b : tvec_base) (t : tid) (e : Z) : option (Z * tvec_base) :=
  tm ← timers b !! t;
  if function tm then
    '(ret, b) ← (if linked tm then b ← detach_timer b t false; Some (1, b) else Some (0, b));
    let tm := if decide (base tm <> Tvec_base) then set_base tm Tvec_base else tm in
    b ← internal_add_timer (set_timer b t (set_expires tm e)) t;
    Some (ret, b)
  else None.

Definition add_timer_on (b : tvec_base) (t : tid) : option tvec_base :=
  tm ← timers b !! t;
  if linked tm || negb (function tm) then None
  else internal_add_timer (set_timer b t (set_base tm Tvec_base)) t.

Definition mod_timer (b : tvec_base) (t : tid) (e : Z) : option (Z * tvec_base) :=
  tm ← timers b !! t;
  if function tm then
    if bool_decide (expires tm = e) && linked tm then Some (1, b) else __mod_timer b t e
  else None.

Definition del_timer (b : tvec_base) (t : tid) : option (Z * tvec_base) :=
  tm ← timers b !! t;
  if linked tm then b ← detach_timer b t true; Some (1, b) else Some (0, b).

Definition add_timer (b : tvec_base) (t : tid) : option (Z * tvec_base) :=
  tm ← timers b !! t;
  if linked tm then None else __mod_timer b t (expires tm).

(** ** Expiry *)

Fixpoint cascade_loop (b : tvec_base) (l : list tid) : option tvec_base :=
  match l with
  | [] => Some b
  | t :: l =>
    tm ← timers b !! t;
    if decide (base tm <> Tvec_base) then None
    else b ← internal_add_timer b t; cascade_loop b l
  end.

Definition cascade (b : tvec_base) (v : vec) (index : Z) : option (Z * tvec_base) :=
  l ← get_vec b v !! Z.to_nat index;
  b ← cascade_loop b l;
  Some (index, set_vec b v (<[Z.to_nat index := []]> (get_vec b v))).

Definition INDEX (b : tvec_base) (n : Z) : Z := (timer_jiffies b >>u (TVR_BITS + n * TVN_BITS)) &u TVN_MASK.

(** The cascades of a tick: the next vector is only looked at when this one is at 0. *)
Definition run_cascades (b : tvec_base) (index : Z) : option tvec_base :=
  if decide (index <> 0) then Some b
  else
    '(i, b) ← cascade b TV2 (INDEX b 0);
    if decide (i <> 0) then Some b
    else
      '(i, b) ← cascade b TV3 (INDEX b 1);
      if decide (i <> 0) then Some b
      else
        '(i, b) ← cascade b TV4 (INDEX b 2);
        if decide (i <> 0) then Some b
        else '(_, b) ← cascade b TV5 (INDEX b 3); Some b.

(** The part of a tick before the timers are run. *)
Definition run_tick (b : tvec_base) : option tvec_base :=
  let index := timer_jiffies b &u TVR_MASK in
  b ← run_cascades b index;
  let b := set_jiffies b (timer_jiffies b +u 1) in
  l ← tv1 b !! Z.to_nat index;
  Some (set_work (set_vec b TV1 (<[Z.to_nat index := []]> (tv1 b))) l).

Definition time_after_eq (a b : Z) : bool := bool_decide (0 <= s32 (a - b)).

(** What a handler does to timers. *)
Inductive call := Add (t : tid) | Mod (t : tid) (e : Z) | Mod' (t : tid) (e : Z) | Del (t : tid).

Definition do_call (b : tvec_base) (c : call) : option (Z * tvec_base) :=
  match c with
  | Add t => add_timer b t
  | Mod t e => mod_timer b t e
  | Mod' t e => __mod_timer b t e
  | Del t => del_timer b t
  end.

Fixpoint do_calls (b : tvec_base) (cs : list call) : option tvec_base :=
  match cs with
  | [] => Some b
  | c :: cs => '(_, b) ← do_call b c; do_calls b cs
  end.

Section Run.
(** The calls that the handler of a timer, and whatever interrupts it, makes. *)
Context (handler : tid -> tvec_base -> list call).

(** [while (!list_empty(head))]; the timers whose handlers were called. *)
Fixpoint run_work (fuel : nat) (b : tvec_base) : option (list tid * tvec_base) :=
  match work_list b with
  | [] => Some ([], b)
  | t :: _ =>
    match fuel with
    | O => None
    | S fuel =>
      b ← detach_timer b t true;
      b ← do_calls b (handler t b);
      '(log, b) ← run_work fuel b;
      Some (t :: log, b)
    end
  end.

(** The loop of [__run_timers] while [jiffies] stands still: when it advances meanwhile,
    the loop goes on as if it were called again.  The log has, for each tick, the timers
    that were run. *)
Fixpoint run_ticks (fuel : nat) (jiffies : Z) (b : tvec_base) : option (list (list tid) * tvec_base) :=
  if time_after_eq jiffies (timer_jiffies b) then
    match fuel with
    | O => None
    | S fuel =>
      b ← run_tick b;
      '(l, b) ← run_work (length (work_list b)) b;
      '(log, b) ← run_ticks fuel jiffies b;
      Some (l :: log, b)
    end
  else Some ([], b).

Definition __run_timers (jiffies : Z) (b : tvec_base) : option (list (list tid) * tvec_base) :=
  run_ticks (Z.to_nat (s32 (jiffies - timer_jiffies b) + 1)) jiffies b.

Definition run_timer_softirq (jiffies : Z) (b : tvec_base) : option (list (list tid) * tvec_base) :=
  if time_after_eq jiffies (timer_jiffies b) then __run_timers jiffies b else Some ([], b).
End Run.

Definition init_timers_cpu (b : tvec_base) (jiffies : Z) : tvec_base :=
  let v := replicate (Z.to_nat TVN_SIZE) [] in
  TvecBase jiffies (replicate (Z.to_nat TVR_SIZE) []) v v v v (work_list b) (timers b).
End Timer.
