(* ===== verification/TimerSpec.v ===== *)
(** The timer wheel fires every timer in the tick of its deadline.

    [J] is the number of the next tick, not reduced to 32 bits.  Every waiting timer
    has a deadline [d], the number of the tick in which it will run, and a place on
    the wheel from which the cascades will have brought it to the first vector by then
    ([fits]).  [Timers J P b] says that the lists of [b] hold the timers of [P] at their
    places. *)
From Stdlib Require Import ZArith Lia.
From stdpp Require Import base numbers list list_numbers option gmap.
From S2P Require Import Prelude Timer.
Import Timer.

Local Open Scope Z_scope.
Local Open Scope kernel_scope.

Module TimerSpec.

(** ** Places *)

(** The bits of the deadline below a vector's index, and the number of bits of the index. *)
Definition shift (v : vec) : Z := match v with TV1 => 0 | TV2 => 8 | TV3 => 14 | TV4 => 20 | TV5 => 26 end.
Definition width (v : vec) : Z := match v with TV1 => 8 | _ => 6 end.

(** The tick in which a timer with deadline [d] leaves the vector [v]. *)
Definition leaves (v : vec) (d : Z) : Z := d / 2 ^ shift v * 2 ^ shift v.

Definition index (v : vec) (d : Z) : Z := (d / 2 ^ shift v) `mod` 2 ^ width v.

Inductive loc := Work | Slot (v : vec) (i : nat).
Global Instance loc_dec : EqDecision loc.
Proof. solve_decision. Defined.

Definition fits (J : Z) (v : vec) (i : nat) (d : Z) : Prop :=
  J <= leaves v d < J + 2 ^ (shift v + width v) /\ i = Z.to_nat (index v d).

(** A timer with deadline [d] and the field [expires] equal to [e] may be at [lc]: on the
    list of timers that are being run, or on the wheel; a timer that was set to the past is
    due in the next tick. *)
Definition placed (J : Z) (lc : loc) (d e : Z) : Prop :=
  match lc with
  | Work => d = J - 1
  | Slot v i => fits J v i d /\ J <= d < J + 2^31 /\ (e = u32 d \/ v = TV1 /\ d = J /\ 2^31 <= u32 (e - J))
  end.

(** The tick in which a timer that is set to [e] before tick [J] runs. *)
Definition deadline (J e : Z) : Z := let idx := e -u J in if decide (idx < 2^31) then J + idx else J.

Definition vec_of (n : Z) : vec :=
  if decide (n < 2^8) then TV1 else if decide (n < 2^14) then TV2 else if decide (n < 2^20) then TV3
  else if decide (n < 2^26) then TV4 else TV5.

Definition slot_of (J d : Z) : loc := let v := vec_of (d - J) in Slot v (Z.to_nat (index v d)).

Lemma shift_width v : 0 <= shift v /\ 0 <= width v /\ shift v + width v <= 32.
Proof. destruct v; simpl; lia. Qed.

Lemma index_range v d : 0 <= index v d < 2 ^ width v.
Proof. apply Z.mod_pos_bound. pose proof (shift_width v). apply Z.pow_pos_nonneg; lia. Qed.

(** The index is computed from the low 32 bits. *)
Lemma index_u32 v d : index v (u32 d) = index v d.
Proof.
  unfold index, u32. pose proof (shift_width v). set (s := shift v) in *. set (w := width v) in *.
  assert (Hs : 0 < 2 ^ s) by (apply Z.pow_pos_nonneg; lia). assert (Hw : 0 < 2 ^ w) by (apply Z.pow_pos_nonneg; lia).
  rewrite (Z.div_mod d (2^32)) at 2 by lia. set (q := d / 2^32). set (r := d `mod` 2^32).
  replace (2^32 * q + r) with (r + (2^(32 - s - w) * q * 2^w) * 2^s).
  2: { replace (2^32) with (2^(32 - s - w) * 2^w * 2^s) by (rewrite <- !Z.pow_add_r by lia; f_equal; lia). ring. }
  rewrite Z.div_add, Z.mod_add by lia. done.
Qed.

Lemma index_shiftr v e : index v e = (e >>u shift v) &u (2 ^ width v - 1).
Proof.
  pose proof (shift_width v). unfold index. rewrite land_mask by lia. by rewrite Z.shiftr_div_pow2 by lia.
Qed.

Lemma deadline_range J e : J <= deadline J e < J + 2^31.
Proof.
  unfold deadline. pose proof (u32_range (e - J)) as Hr. unfold is_u32 in Hr. case_decide; lia.
Qed.

Lemma deadline_u32 J e : is_u32 e -> e -u J < 2^31 -> u32 (deadline J e) = e.
Proof.
  intros He Hi. unfold deadline. rewrite decide_True by done. rewrite u32_add_r. rewrite <- (u32_small e) at 2 by done.
  f_equal. lia.
Qed.

Lemma u32_sub_u32 e J : u32 (e - u32 J) = u32 (e - J).
Proof. apply u32_sub_r. Qed.

(** [internal_add_timer] chooses the place of the deadline. *)
Lemma timer_slot_eq J e : is_u32 e ->
  let d := deadline J e in let v := vec_of (d - J) in
  timer_slot (u32 J) e = (v, index v d).
Proof.
  intros He d v. unfold timer_slot. rewrite u32_sub_u32. set (idx := e -u J).
  pose proof (u32_range (e - J)) as Hr. fold idx in Hr. unfold is_u32 in Hr.
  change TVR_SIZE with (2^8). change (Z.shiftl 1 (TVR_BITS + TVN_BITS)) with (2^14).
  change (Z.shiftl 1 (TVR_BITS + 2 * TVN_BITS)) with (2^20). change (Z.shiftl 1 (TVR_BITS + 3 * TVN_BITS)) with (2^26).
  assert (Hd : d = if decide (idx < 2^31) then J + idx else J) by done.
  destruct (decide (idx < 2^31)) as [Hlt|Hge].
  - assert (Hn : d - J = idx) by lia. assert (Hx : u32 d = e) by (by apply deadline_u32).
    unfold v, vec_of. rewrite Hn. rewrite <- Hx.
    repeat case_decide; try lia; rewrite <- index_u32, index_shiftr; try done.
    exfalso. rewrite s32_small in H3 by lia. lia.
  - assert (v = TV1) as Ev by (unfold v, vec_of; rewrite decide_True by lia; done). rewrite Ev, Hd.
    repeat (rewrite decide_False by lia).
    rewrite decide_True.
    + by rewrite <- index_u32, index_shiftr.
    + unfold s32. replace (idx + 2^31) with ((idx - 2^31) + 1 * 2^32) by lia. rewrite Z.mod_add, Z.mod_small by lia. lia.
Qed.

Lemma leaves_bounds v d : d - 2 ^ shift v < leaves v d <= d.
Proof.
  unfold leaves. pose proof (shift_width v). assert (Hs : 0 < 2 ^ shift v) by (apply Z.pow_pos_nonneg; lia).
  pose proof (Z.div_mod d (2 ^ shift v)). pose proof (Z.mod_pos_bound d (2 ^ shift v) Hs). lia.
Qed.

Lemma leaves_first d : leaves TV1 d = d.
Proof. unfold leaves. simpl. rewrite Z.div_1_r. lia. Qed.

(** The vector for a delay: it is below the reach of the vector and, but for the first,
    not below one slot. *)
Lemma vec_of_range n : 0 <= n < 2^31 ->
  n < 2 ^ (shift (vec_of n) + width (vec_of n)) /\ (vec_of n = TV1 \/ 2 ^ shift (vec_of n) <= n).
Proof. intros Hn. unfold vec_of. repeat case_decide; simpl; split; lia || (left; reflexivity) || (right; lia). Qed.

Lemma slot_of_fits J d : J <= d < J + 2^31 ->
  exists v i, slot_of J d = Slot v i /\ fits J v i d /\ (v = TV1 \/ J < leaves v d) /\ (v = TV1 \/ 2 ^ shift v <= d - J).
Proof.
  intros Hd. destruct (vec_of_range (d - J)) as [Hu Hl]; [lia|]. eexists _, _. split; [reflexivity|].
  pose proof (leaves_bounds (vec_of (d - J)) d) as Hb. split_and!; [|destruct Hl as [Hl|Hl]; [by left|right; lia]|done].
  split; [|done]. destruct Hl as [Hl|Hl]; [rewrite Hl in *; rewrite leaves_first; simpl in *; lia|lia].
Qed.

Lemma slot_of_placed J e : is_u32 e -> placed J (slot_of J (deadline J e)) (deadline J e) e.
Proof.
  intros He. pose proof (deadline_range J e) as Hd.
  destruct (slot_of_fits J (deadline J e) Hd) as (v&i&E&Hf&_&_). rewrite E. split_and!; [done|lia|lia|].
  destruct (decide (e -u J < 2^31)) as [Hi|Hi]; [left; by rewrite deadline_u32|].
  right. assert (deadline J e = J) as Ed by (unfold deadline; by rewrite decide_False). rewrite Ed in *.
  split_and!; [|done|lia]. unfold slot_of in E. rewrite Z.sub_diag in E. by injection E.
Qed.

(** Passing time: a timer that does not leave its place in tick [J] is well placed after it. *)
Lemma placed_next J v i d e :
  placed J (Slot v i) d e -> leaves v d <> J -> placed (J + 1) (Slot v i) d e.
Proof.
  intros ((Hl&Hi)&Hd&He) Hne. pose proof (leaves_bounds v d). split_and!; [|lia|lia|].
  - split; [lia|done].
  - destruct He as [He|(->&->&_)]; [by left|]. by rewrite leaves_first in Hne.
Qed.

(** The slot that a tick empties holds exactly the timers that leave the vector then. *)
Lemma fits_due J v i d : fits J v i d -> J `mod` 2 ^ shift v = 0 ->
  i = Z.to_nat (index v J) <-> leaves v d = J.
Proof.
  intros [Hl ->] HJ. pose proof (shift_width v) as Hw.
  assert (Hs : 0 < 2 ^ shift v) by (apply Z.pow_pos_nonneg; lia).
  assert (Hp : 0 < 2 ^ width v) by (apply Z.pow_pos_nonneg; lia).
  pose proof (index_range v d). pose proof (index_range v J).
  assert (EJ : J = J / 2 ^ shift v * 2 ^ shift v) by (pose proof (Z.div_mod J (2 ^ shift v)); lia).
  unfold leaves, index in *. set (q := d / 2 ^ shift v) in *. set (k := J / 2 ^ shift v) in *.
  rewrite Z.pow_add_r in Hl by lia. split.
  - intros E. apply Z2Nat.inj in E; [|lia..]. rewrite EJ in Hl |- *. f_equal.
    assert (Hk : 0 <= q - k < 2 ^ width v) by nia.
    assert (Hm : (q - k) `mod` 2 ^ width v = 0) by (rewrite Zminus_mod, E, Z.sub_diag; by apply Z.mod_0_l; lia).
    rewrite Z.mod_small in Hm by done. lia.
  - intros E. assert (q = k) as -> by nia. done.
Qed.

(** Between the multiples of its slots nothing leaves a vector. *)
Lemma leaves_multiple v d J : leaves v d = J -> J `mod` 2 ^ shift v = 0.
Proof. intros <-. unfold leaves. apply Z.mod_mul. pose proof (shift_width v). apply Z.pow_nonzero; lia. Qed.

(** ** The invariant *)

Definition at_loc (b : tvec_base) (lc : loc) : list tid :=
  match lc with Work => work_list b | Slot v i => default [] (get_vec b v !! i) end.

Definition armed (tm : timer_list) : Prop := linked tm = true /\ function tm = true /\ base tm = Tvec_base.

(** The timers on the lists are those of [P], at their places. *)
Record Placed (J : Z) (P : gmap tid (loc * Z)) (b : tvec_base) : Prop := {
  pl_jiffies : timer_jiffies b = u32 J;
  pl_len v : length (get_vec b v) = Z.to_nat (2 ^ width v);
  pl_in lc t : t ∈ at_loc b lc <-> exists d, P !! t = Some (lc, d);
  pl_nodup lc : NoDup (at_loc b lc);
  pl_timer t lc d : P !! t = Some (lc, d) ->
    exists tm, timers b !! t = Some tm /\ armed tm /\ placed J lc d (expires tm);
  pl_u32 t tm : timers b !! t = Some tm -> is_u32 (expires tm)
}.

(** And no other timer is linked. *)
Definition Timers (J : Z) (P : gmap tid (loc * Z)) (b : tvec_base) : Prop :=
  Placed J P b /\ forall t tm, timers b !! t = Some tm -> linked tm = true -> is_Some (P !! t).

(** ** Lists *)

Lemma get_set_vec b v l v' : get_vec (set_vec b v l) v' = if decide (v' = v) then l else get_vec b v'.
Proof. by destruct b, v, v'. Qed.

Lemma set_vec_fields b v l : timer_jiffies (set_vec b v l) = timer_jiffies b /\
  work_list (set_vec b v l) = work_list b /\ timers (set_vec b v l) = timers b.
Proof. by destruct b, v. Qed.

(** Changing one list of a vector. *)
Lemma at_loc_set b v i l lc : (i < length (get_vec b v))%nat ->
  at_loc (set_vec b v (<[i := l]> (get_vec b v))) lc = if decide (lc = Slot v i) then l else at_loc b lc.
Proof.
  intros Hi. destruct lc as [|v' i']; cbn [at_loc].
  - rewrite decide_False by done. by destruct (set_vec_fields b v (<[i:=l]> (get_vec b v))) as (_&->&_).
  - rewrite get_set_vec. destruct (decide (v' = v)) as [->|Hv].
    + destruct (decide (i' = i)) as [->|Hn].
      * rewrite decide_True by done. by rewrite list_lookup_insert_eq by done.
      * rewrite decide_False by congruence. by rewrite list_lookup_insert_ne by congruence.
    + rewrite decide_False by congruence. done.
Qed.

Lemma at_loc_lookup b v i : (i < length (get_vec b v))%nat -> get_vec b v !! i = Some (at_loc b (Slot v i)).
Proof. intros Hi. simpl. destruct (lookup_lt_is_Some_2 (get_vec b v) i Hi) as [l ->]. done. Qed.

Lemma at_loc_timer b t tm lc : at_loc (set_timer b t tm) lc = at_loc b lc.
Proof. by destruct lc as [|[]]. Qed.

Lemma get_vec_timer b t tm v : get_vec (set_timer b t tm) v = get_vec b v.
Proof. by destruct v. Qed.

Lemma elem_without t x l : x ∈ without t l <-> x ∈ l /\ x <> t.
Proof.
  unfold without. rewrite !list_elem_of_In, List.filter_In, bool_decide_eq_true. done.
Qed.

Lemma NoDup_without t l : NoDup l -> NoDup (without t l).
Proof. rewrite !NoDup_ListNoDup. apply List.NoDup_filter. Qed.

Lemma at_loc_del b t lc : at_loc (list_del b t) lc = without t (at_loc b lc).
Proof.
  destruct lc as [|v i]; [done|]. simpl.
  assert (get_vec (list_del b t) v = without t <$> get_vec b v) as -> by by destruct v.
  rewrite list_lookup_fmap. by destruct (get_vec b v !! i).
Qed.

Lemma get_vec_del b t v : length (get_vec (list_del b t) v) = length (get_vec b v).
Proof. destruct v; simpl; by rewrite length_fmap. Qed.

Lemma list_add_tail_run b t v i tm :
  timers b !! t = Some tm -> (Z.to_nat i < length (get_vec b v))%nat ->
  exists b', list_add_tail b t v i = Some b' /\ timer_jiffies b' = timer_jiffies b /\
    timers b' = <[t := set_linked tm true]> (timers b) /\
    (forall v', length (get_vec b' v') = length (get_vec b v')) /\
    forall lc, at_loc b' lc = if decide (lc = Slot v (Z.to_nat i)) then at_loc b lc ++ [t] else at_loc b lc.
Proof.
  intros Ht Hi. unfold list_add_tail. rewrite Ht, (at_loc_lookup b v) by done. cbn [mbind option_bind].
  destruct (set_vec_fields b v (<[Z.to_nat i:=at_loc b (Slot v (Z.to_nat i)) ++ [t]]> (get_vec b v))) as (E1&E2&E3).
  eexists. split; [reflexivity|]. split_and!.
  - exact E1.
  - cbn [timers set_timer]. by rewrite E3.
  - intros v'. rewrite get_vec_timer, get_set_vec. case_decide; [subst; by rewrite length_insert|done].
  - intros lc. rewrite at_loc_timer, at_loc_set by done. by case_decide; subst.
Qed.

(** ** Arming and disarming *)

Lemma Placed_range J P b t v i d : Placed J P b -> P !! t = Some (Slot v i, d) -> (i < length (get_vec b v))%nat.
Proof.
  intros HP E. destruct (pl_timer _ _ _ HP _ _ _ E) as (tm&_&_&[[_ ->] _]). rewrite (pl_len _ _ _ HP).
  pose proof (index_range v d). lia.
Qed.

Lemma Placed_set_timer J P b t tm :
  Placed J P b -> P !! t = None -> is_u32 (expires tm) -> Placed J P (set_timer b t tm).
Proof.
  intros [Hj Hl Hi Hn Ht Hu] Hp He. split.
  - done.
  - intros v. by rewrite get_vec_timer.
  - intros lc x. rewrite at_loc_timer. apply Hi.
  - intros lc. rewrite at_loc_timer. apply Hn.
  - intros x lc d E. destruct (Ht x lc d E) as (tm'&Hx&?). exists tm'. cbn [timers set_timer].
    rewrite lookup_insert_ne by congruence. done.
  - intros x tm'. cbn [timers set_timer]. intros [[<- <-]|[_ Hx]]%lookup_insert_Some; [done|by eapply Hu].
Qed.

Lemma Placed_del J P b t : Placed J P b -> Placed J (delete t P) (list_del b t).
Proof.
  intros [Hj Hl Hi Hn Ht Hu]. split.
  - done.
  - intros v. rewrite get_vec_del. apply Hl.
  - intros lc x. rewrite at_loc_del, elem_without, Hi. split.
    + intros [[d Hd] Hne]. exists d. by rewrite lookup_delete_ne by congruence.
    + intros [d [Hne Hd]%lookup_delete_Some]. split; [eauto|congruence].
  - intros lc. rewrite at_loc_del. apply NoDup_without, Hn.
  - intros x lc d [_ E]%lookup_delete_Some. by apply Ht.
  - exact Hu.
Qed.

Lemma Placed_add J P b t tm :
  let d := deadline J (expires tm) in
  Placed J P b -> timers b !! t = Some tm -> function tm = true -> base tm = Tvec_base -> P !! t = None ->
  exists b', internal_add_timer b t = Some b' /\ Placed J (<[t := (slot_of J d, d)]> P) b' /\
    timers b' = <[t := set_linked tm true]> (timers b).
Proof.
  intros d HP Htm Hf Hb Hp. pose proof (pl_u32 _ _ _ HP t tm Htm) as He.
  unfold internal_add_timer. rewrite Htm. cbn [mbind option_bind]. rewrite (pl_jiffies _ _ _ HP).
  rewrite timer_slot_eq by done. fold d. set (v := vec_of (d - J)). pose proof (index_range v d) as Hr.
  destruct (list_add_tail_run b t v (index v d) tm) as (b'&E&Ej&Et&El&Eat); [done|rewrite (pl_len _ _ _ HP); lia|].
  exists b'. split; [done|]. split; [|done]. change (Slot v (Z.to_nat (index v d))) with (slot_of J d) in Eat.
  destruct HP as [Hj Hl Hi Hn Ht Hu]. split.
  - congruence.
  - intros v'. rewrite El. apply Hl.
  - intros lc x. rewrite Eat. destruct (decide (x = t)) as [->|Hx].
    + rewrite lookup_insert_eq. split.
      * case_decide as Hlc; [intros _; subst; eauto|]. intros [d' E']%Hi. congruence.
      * intros [d' [= <- <-]]. rewrite decide_True by done. set_solver.
    + rewrite lookup_insert_ne by congruence. rewrite <- Hi. case_decide; [|done]. rewrite elem_of_app, list_elem_of_singleton. tauto.
  - intros lc. rewrite Eat. case_decide; [|apply Hn]. apply NoDup_app. split_and!; [apply Hn| |apply NoDup_singleton].
    intros x [d' E']%Hi ->%list_elem_of_singleton. congruence.
  - intros x lc d'. rewrite Et. intros [[<- [= <- <-]]|[Hx E']]%lookup_insert_Some.
    + exists (set_linked tm true). rewrite lookup_insert_eq. split_and!; [done|done|by apply slot_of_placed].
    + rewrite lookup_insert_ne by done. by apply Ht.
  - intros x tm'. rewrite Et. intros [[<- <-]|[_ Hx]]%lookup_insert_Some; [done|by eapply Hu].
Qed.

(** ** What the wheel implements: alarms with deadlines *)

(** The next tick, the deadlines of the waiting timers, the timers that are due in the tick
    being run, and for every timer its field [expires] and whether it has a function. *)
Record alarms := Alarms {
  tick : Z;
  waiting : gmap tid Z;
  due : gset tid;
  fields : gmap tid (Z * bool)
}.

Definition pending (a : alarms) (t : tid) : bool :=
  bool_decide (is_Some (waiting a !! t)) || bool_decide (t ∈ due a).

Definition arm (a : alarms) (t : tid) (e : Z) : alarms :=
  Alarms (tick a) (<[t := deadline (tick a) e]> (waiting a)) (due a ∖ {[t]}) (<[t := (e, true)]> (fields a)).

Definition disarm (a : alarms) (t : tid) : alarms :=
  Alarms (tick a) (delete t (waiting a)) (due a ∖ {[t]}) (fields a).

(** The timers whose deadline has come are due. *)
Definition next_tick (a : alarms) : alarms :=
  Alarms (tick a + 1) (filter (fun td => td.2 <> tick a) (waiting a))
    (dom (filter (fun td => td.2 = tick a) (waiting a))) (fields a).

(** The calls and their results; [None] is a [BUG_ON]. *)
Definition alarm_call (a : alarms) (c : call) : option (Z * alarms) :=
  match c with
  | Add t =>
    '(e, f) ← fields a !! t;
    if negb (pending a t) && f then Some (0, arm a t e) else None
  | Mod t e =>
    '(e0, f) ← fields a !! t;
    if f : bool then
      if bool_decide (e0 = e) && pending a t then Some (1, a)
      else Some (if pending a t then 1 else 0, arm a t e)
    else None
  | Mod' t e =>
    '(_, f) ← fields a !! t;
    if f : bool then Some (if pending a t then 1 else 0, arm a t e) else None
  | Del t =>
    _ ← fields a !! t;
    if pending a t then Some (1, disarm a t) else Some (0, a)
  end.

Definition call_ok (c : call) : Prop := match c with Mod _ e | Mod' _ e => is_u32 e | _ => True end.

(** The wheel [b] implements the alarms [a]. *)
Definition implements (b : tvec_base) (a : alarms) : Prop :=
  exists P, Timers (tick a) P b /\
    (forall t d, waiting a !! t = Some d <-> exists v i, P !! t = Some (Slot v i, d)) /\
    (forall t, t ∈ due a <-> exists d, P !! t = Some (Work, d)) /\
    fields a = (fun tm => (expires tm, function tm)) <$> timers b.

Lemma implements_pending J P b a t tm :
  Timers J P b -> (forall t d, waiting a !! t = Some d <-> exists v i, P !! t = Some (Slot v i, d)) ->
  (forall t, t ∈ due a <-> exists d, P !! t = Some (Work, d)) -> timers b !! t = Some tm ->
  pending a t = linked tm /\ (linked tm = true <-> is_Some (P !! t)).
Proof.
  intros [HP Hlk] Hw Hd Ht.
  assert (Hl : linked tm = true <-> is_Some (P !! t)).
  { split; [by apply Hlk|]. intros [[lc d] E]. destruct (pl_timer _ _ _ HP _ _ _ E) as (tm'&E'&(?&?&?)&_). congruence. }
  split; [|done]. unfold pending. destruct (linked tm) eqn:El.
  - destruct (proj1 Hl eq_refl) as [[[|v i] d] E].
    + rewrite (bool_decide_true (t ∈ due a)) by (apply Hd; eauto). apply orb_true_r.
    + rewrite bool_decide_true; [done|]. exists d. apply Hw. eauto.
  - assert (P !! t = None) as E by (apply eq_None_not_Some; intros ?%Hl; done).
    rewrite !bool_decide_false; [done| |].
    + intros [d Hx]%Hd. congruence.
    + intros [d (v&i&Hx)%Hw]. congruence.
Qed.

(** Arming a timer that is on no list. *)
Lemma implements_arm b P a t tm e :
  Placed (tick a) P b -> P !! t = None ->
  (forall x tmx, x <> t -> timers b !! x = Some tmx -> linked tmx = true -> is_Some (P !! x)) ->
  (forall x d, x <> t -> waiting a !! x = Some d <-> exists v i, P !! x = Some (Slot v i, d)) ->
  (forall x, x <> t -> x ∈ due a <-> exists d, P !! x = Some (Work, d)) ->
  fields a = (fun tm => (expires tm, function tm)) <$> timers b ->
  is_u32 e -> function tm = true -> base tm = Tvec_base ->
  exists b', internal_add_timer (set_timer b t (set_expires tm e)) t = Some b' /\ implements b' (arm a t e) /\
    timers b' = <[t := set_linked (set_expires tm e) true]> (timers b).
Proof.
  intros HP Hp Hlk Hw Hd Hfl He Hf Hb.
  pose proof (Placed_set_timer _ _ _ t (set_expires tm e) HP Hp He) as HP1.
  destruct (Placed_add (tick a) P (set_timer b t (set_expires tm e)) t (set_expires tm e)) as (b'&E&HP'&Et);
    [done|apply lookup_insert_eq|done|done|done|]. cbn [expires set_expires] in *.
  cbn [timers set_timer] in Et. rewrite insert_insert_eq in Et.
  exists b'. split; [done|]. split; [|done]. eexists. split; [split; [exact HP'|]|].
  - intros x tmx. rewrite Et. intros [[<- <-]|[Hx Ex]]%lookup_insert_Some Hl; [by rewrite lookup_insert_eq|].
    rewrite lookup_insert_ne by done. by eapply Hlk.
  - split_and!; cbn [waiting due fields arm].
    + intros x d. destruct (decide (x = t)) as [->|Hx].
      * rewrite !lookup_insert_eq. unfold slot_of. split; [intros [= <-]; eauto|]. by intros (v&i&[= _ _ <-]).
      * rewrite !lookup_insert_ne by done. by apply Hw.
    + intros x. rewrite elem_of_difference, elem_of_singleton. destruct (decide (x = t)) as [->|Hx].
      * rewrite lookup_insert_eq. split; [tauto|]. by intros [d [=]].
      * rewrite lookup_insert_ne by done. rewrite <- Hd by done. tauto.
    + rewrite Et, fmap_insert, Hfl. cbn [expires function set_linked set_expires]. by rewrite Hf.
Qed.

Lemma mod_timer_arms b a t tm e :
  implements b a -> timers b !! t = Some tm -> function tm = true -> is_u32 e ->
  exists b', __mod_timer b t e = Some (if linked tm then 1 else 0, b') /\ implements b' (arm a t e).
Proof.
  intros (P&HT&Hw&Hd&Hfl) Ht Hf He. destruct (implements_pending _ _ _ _ _ _ HT Hw Hd Ht) as [_ Hlk].
  destruct HT as [HP Hall]. unfold __mod_timer. rewrite Ht. cbn [mbind option_bind]. rewrite Hf.
  set (tm' := if decide (base tm <> Tvec_base) then set_base tm Tvec_base else tm).
  assert (Hf' : function tm' = true) by (unfold tm'; by case_decide).
  assert (Hb' : base tm' = Tvec_base) by (unfold tm'; case_decide; [done|by destruct (base tm)]).
  destruct (linked tm) eqn:El.
  - unfold detach_timer. rewrite Ht. cbn [mbind option_bind].
    destruct (implements_arm (list_del b t) (delete t P) a t tm' e) as (b'&E&Hi&_);
      [by apply Placed_del|by rewrite lookup_delete_eq| | | |done|done|done|done|].
    + intros x tmx Hx Ex Elx. rewrite lookup_delete_ne by done. by eapply Hall.
    + intros x d Hx. rewrite lookup_delete_ne by done. apply Hw.
    + intros x Hx. rewrite lookup_delete_ne by done. apply Hd.
    + rewrite E. cbn [mbind option_bind]. eauto.
  - assert (Hp : P !! t = None) by (apply eq_None_not_Some; intros ?%Hlk; done). cbn [mbind option_bind].
    destruct (implements_arm b P a t tm' e) as (b'&E&Hi&_); [done|done| |by intros|by intros|done|done|done|done|].
    + intros x tmx Hx Ex Elx. by eapply Hall.
    + rewrite E. cbn [mbind option_bind]. eauto.
Qed.

(** Taking a timer off its list. *)
Lemma detach_disarms b a t tm :
  implements b a -> timers b !! t = Some tm ->
  exists b', detach_timer b t true = Some b' /\ implements b' (disarm a t) /\ work_list b' = without t (work_list b).
Proof.
  intros (P&[HP Hall]&Hw&Hd&Hfl) Ht. unfold detach_timer. rewrite Ht. cbn [mbind option_bind].
  eexists. split; [done|]. split; [|done]. exists (delete t P). split; [split|].
  - apply Placed_set_timer; [by apply Placed_del|by rewrite lookup_delete_eq|exact (pl_u32 _ _ _ HP t tm Ht)].
  - intros x tmx. cbn [timers set_timer]. intros [[<- <-]|[Hx Ex]]%lookup_insert_Some Hl; [done|].
    rewrite lookup_delete_ne by done. by eapply Hall.
  - split_and!; cbn [waiting due fields disarm].
    + intros x d. rewrite lookup_delete_Some, Hw. split.
      * intros (Hx&v&i&E). exists v, i. by rewrite lookup_delete_ne.
      * intros (v&i&[Hx E]%lookup_delete_Some). eauto.
    + intros x. rewrite elem_of_difference, elem_of_singleton, Hd. split.
      * intros ((d&E)&Hx). exists d. by rewrite lookup_delete_ne by done.
      * intros (d&[Hx E]%lookup_delete_Some). split; [eauto|congruence].
    + cbn [timers set_timer list_del]. rewrite fmap_insert. cbn [expires function set_linked]. rewrite Hfl.
      symmetry. apply insert_id. rewrite lookup_fmap, Ht. done.
Qed.

Lemma implements_fields b a t : implements b a ->
  fields a !! t = (fun tm => (expires tm, function tm)) <$> timers b !! t.
Proof. intros (P&_&_&_&->). apply lookup_fmap. Qed.

Lemma implements_linked b a t tm : implements b a -> timers b !! t = Some tm -> pending a t = linked tm.
Proof. intros (P&HT&Hw&Hd&_) Ht. by destruct (implements_pending _ _ _ _ _ _ HT Hw Hd Ht). Qed.

(** Every call does to the wheel what it does to the alarms, and returns the same. *)
Lemma do_call_refines b a c :
  implements b a -> call_ok c ->
  match alarm_call a c with
  | Some (r, a') => exists b', do_call b c = Some (r, b') /\ implements b' a'
  | None => do_call b c = None
  end.
Proof.
  intros Hi Hc. destruct c as [t|t e|t e|t]; cbn [alarm_call do_call];
    unfold add_timer, mod_timer, del_timer; rewrite (implements_fields b a t Hi).
  all: destruct (timers b !! t) as [tm|] eqn:Ht; cbn [fmap option_fmap option_map mbind option_bind];
    [|by unfold __mod_timer; rewrite ?Ht].
  all: rewrite ?(implements_linked b a t tm Hi Ht).
  - assert (He : is_u32 (expires tm)) by (destruct Hi as (P&[HP _]&_); by eapply (pl_u32 _ _ _ HP)).
    destruct (linked tm) eqn:El; [done|]. simpl. destruct (function tm) eqn:Hf.
    + destruct (mod_timer_arms b a t tm (expires tm) Hi Ht Hf He) as (b'&E&Hi'). rewrite El in E. eauto.
    + unfold __mod_timer. by rewrite Ht; simpl; rewrite Hf.
  - destruct (function tm) eqn:Hf; [|done]. destruct (bool_decide (expires tm = e) && linked tm); [by exists b|].
    destruct (mod_timer_arms b a t tm e Hi Ht Hf Hc) as (b'&E&Hi'). eauto.
  - destruct (function tm) eqn:Hf.
    + destruct (mod_timer_arms b a t tm e Hi Ht Hf Hc) as (b'&E&Hi'). eauto.
    + unfold __mod_timer. by rewrite Ht; simpl; rewrite Hf.
  - destruct (linked tm) eqn:El; [|by exists b].
    destruct (detach_disarms b a t tm Hi Ht) as (b'&->&Hi'&_). eauto.
Qed.

(** ** Cascades *)

Lemma deadline_of J d : J <= d < J + 2^31 -> deadline J (u32 d) = d.
Proof.
  intros Hd. unfold deadline. rewrite u32_sub_l, u32_small by (unfold is_u32; lia). rewrite decide_True by lia. lia.
Qed.

Definition on (f : tid -> loc) (lc : loc) (l : list tid) : list tid := List.filter (fun t => bool_decide (f t = lc)) l.

Lemma elem_on f lc l t : t ∈ on f lc l <-> t ∈ l /\ f t = lc.
Proof. unfold on. rewrite !list_elem_of_In, List.filter_In, bool_decide_eq_true. done. Qed.

(** Each timer of the list goes to the end of the list of its deadline. *)
Lemma cascade_loop_run J (dl : tid -> Z) l b :
  timer_jiffies b = u32 J -> (forall v, length (get_vec b v) = Z.to_nat (2 ^ width v)) ->
  (forall t, t ∈ l -> exists tm, timers b !! t = Some tm /\ armed tm /\ is_u32 (expires tm) /\ deadline J (expires tm) = dl t) ->
  exists b', cascade_loop b l = Some b' /\ timers b' = timers b /\ timer_jiffies b' = u32 J /\
    (forall v, length (get_vec b' v) = Z.to_nat (2 ^ width v)) /\
    forall lc, at_loc b' lc = at_loc b lc ++ on (fun t => slot_of J (dl t)) lc l.
Proof.
  revert b. induction l as [|t l IH]; intros b Hj Hl Ht.
  - exists b. split_and!; [done..|]. intros lc. by rewrite app_nil_r.
  - destruct (Ht t) as (tm&Et&(Hlk&Hf&Hb)&Hu&Hd); [left|]. cbn [cascade_loop]. rewrite Et. cbn [mbind option_bind].
    rewrite decide_False by (intros H; by apply H). unfold internal_add_timer. rewrite Et. cbn [mbind option_bind].
    rewrite Hj, timer_slot_eq, Hd by done. set (v := vec_of (dl t - J)). pose proof (index_range v (dl t)) as Hr.
    destruct (list_add_tail_run b t v (index v (dl t)) tm Et) as (b1&E1&Ej1&Et1&El1&Ea1); [rewrite Hl; lia|].
    rewrite E1. cbn [mbind option_bind].
    assert (Et1' : timers b1 = timers b).
    { rewrite Et1. apply insert_id. rewrite Et. destruct tm; simpl in *. by rewrite Hlk. }
    destruct (IH b1) as (b2&E2&Et2&Ej2&El2&Ea2).
    + congruence.
    + intros v'. by rewrite El1.
    + intros x Hx. rewrite Et1'. apply Ht. by right.
    + exists b2. split_and!; [done|congruence|done|done|]. intros lc. rewrite Ea2, Ea1. unfold on. simpl.
      change (Slot v (Z.to_nat (index v (dl t)))) with (slot_of J (dl t)).
      destruct (decide (lc = slot_of J (dl t))) as [->|Hne].
      * rewrite bool_decide_true by done. by rewrite <- app_assoc.
      * rewrite bool_decide_false by congruence. done.
Qed.

(** The deadlines, and which timers are being run, without the places. *)
Definition strip (x : loc * Z) : bool * Z := (bool_decide (x.1 = Work), x.2).
Definition same_deadlines (P P' : gmap tid (loc * Z)) : Prop := strip <$> P = strip <$> P'.

(** No timer has to leave the vector in tick [J]. *)
Definition settled (J : Z) (P : gmap tid (loc * Z)) (v : vec) : Prop :=
  forall t i d, P !! t = Some (Slot v i, d) -> leaves v d <> J.

Definition move (J : Z) (v : vec) (x : loc * Z) : loc * Z :=
  if decide (x.1 = Slot v (Z.to_nat (index v J))) then (slot_of J x.2, x.2) else x.

Lemma move_slot J v P b t d :
  Placed J P b -> v <> TV1 -> J `mod` 2 ^ shift v = 0 -> P !! t = Some (Slot v (Z.to_nat (index v J)), d) ->
  (J <= d < J + 2^31) /\ slot_of J d <> Slot v (Z.to_nat (index v J)) /\
  exists tm, timers b !! t = Some tm /\ armed tm /\ is_u32 (expires tm) /\ expires tm = u32 d.
Proof.
  intros HP Hv HJ E. destruct (pl_timer _ _ _ HP _ _ _ E) as (tm&Et&Har&Hf&Hd&He).
  assert (Hleave : leaves v d = J) by (by apply (fits_due J v (Z.to_nat (index v J)) d Hf HJ)).
  pose proof (leaves_bounds v d). split; [done|]. split.
  - destruct (slot_of_fits J d Hd) as (v'&i'&->&_&_&Hl). intros [= -> ->]. destruct Hl as [|Hl]; [done|lia].
  - exists tm. split_and!; [done|apply Har..|by eapply (pl_u32 _ _ _ HP)|]. destruct He as [?|(->&_)]; done.
Qed.

Lemma move_same J v P : same_deadlines P (move J v <$> P).
Proof.
  unfold same_deadlines. rewrite <- map_fmap_compose. apply map_fmap_ext. intros t [lc d] _. unfold move, strip. simpl.
  case_decide as E; [|done]. simpl. by rewrite E, !bool_decide_false by done.
Qed.

Lemma move_settled J v P b :
  Placed J P b -> J `mod` 2 ^ shift v = 0 -> v <> TV1 ->
  settled J (move J v <$> P) v /\
  forall v', v' <> TV1 -> settled J P v' -> settled J (move J v <$> P) v'.
Proof.
  intros HP HJ Hv.
  assert (Hmoved : forall v' t i d, v' <> TV1 -> (move J v <$> P) !! t = Some (Slot v' i, d) -> leaves v' d = J ->
    P !! t = Some (Slot v' i, d) /\ Slot v' i <> Slot v (Z.to_nat (index v J))).
  { intros v' t i d Hv' E Hl. rewrite lookup_fmap in E. destruct (P !! t) as [[lc d']|] eqn:Ep; [|done].
    cbn [fmap option_fmap option_map] in E. unfold move in E. cbn [fst snd] in E. case_decide as Hlc.
    - apply (inj Some), pair_equal_spec in E as [E1 ->]. subst lc. destruct (move_slot J v P b t d HP Hv HJ Ep) as (Hd&_).
      destruct (slot_of_fits J d Hd) as (v''&i''&E2&_&Hs&_). rewrite E2 in E1. injection E1 as -> ->.
      destruct Hs as [|Hs]; [done|lia].
    - by injection E as -> ->. }
  split.
  - intros t i d E Hl. destruct (Hmoved v t i d Hv E Hl) as [Ep Hne]. apply Hne. f_equal.
    destruct (pl_timer _ _ _ HP _ _ _ Ep) as (tm&_&_&Hf&_). by apply (fits_due J v i d Hf HJ).
  - intros v' Hv' Hs t i d E Hl. destruct (Hmoved v' t i d Hv' E Hl) as [Ep _]. by apply (Hs t i d Ep).
Qed.

Definition deadline_in (P : gmap tid (loc * Z)) (t : tid) : Z := default 0 (snd <$> P !! t).

(** The lists after a cascade of the slot of tick [J]. *)
Definition cascaded_lists (J : Z) (P : gmap tid (loc * Z)) (b : tvec_base) (v : vec) (lc : loc) : list tid :=
  let src := Slot v (Z.to_nat (index v J)) in
  if decide (lc = src) then [] else at_loc b lc ++ on (fun t => slot_of J (deadline_in P t)) lc (at_loc b src).

Lemma source_timers J P b src t : Placed J P b -> t ∈ at_loc b src -> exists d, P !! t = Some (src, d) /\ deadline_in P t = d.
Proof. intros HP [d E]%(pl_in _ _ _ HP). exists d. split; [done|]. unfold deadline_in. by rewrite E. Qed.

Lemma cascade_lists J P b v :
  Placed J P b -> v <> TV1 -> J `mod` 2 ^ shift v = 0 ->
  exists b', cascade b v (index v J) = Some (index v J, b') /\ timers b' = timers b /\ timer_jiffies b' = u32 J /\
    (forall v', length (get_vec b' v') = Z.to_nat (2 ^ width v')) /\
    forall lc, at_loc b' lc = cascaded_lists J P b v lc.
Proof.
  intros HP Hv HJ. set (i := Z.to_nat (index v J)). set (l := at_loc b (Slot v i)).
  pose proof (index_range v J) as Hr. pose proof (pl_len _ _ _ HP) as Hlen.
  assert (Hi : (i < length (get_vec b v))%nat) by (rewrite Hlen; unfold i; lia).
  destruct (cascade_loop_run J (deadline_in P) l b) as (b1&E1&Et1&Ej1&El1&Ea1); [apply HP|done| |].
  { intros t Ht. destruct (source_timers J P b _ t HP Ht) as (d&E&->).
    destruct (move_slot J v P b t d HP Hv HJ E) as (Hd&_&tm&?&?&?&He).
    exists tm. split_and!; [done..|]. rewrite He. by apply deadline_of. }
  unfold cascade. fold i. rewrite (at_loc_lookup b v i Hi). cbn [mbind option_bind]. fold l. rewrite E1.
  cbn [mbind option_bind]. eexists. split; [reflexivity|].
  destruct (set_vec_fields b1 v (<[i := []]> (get_vec b1 v))) as (F1&_&F3). split_and!; [congruence|congruence| |].
  - intros v'. rewrite get_set_vec. case_decide; [subst; by rewrite length_insert, El1|apply El1].
  - intros lc. rewrite at_loc_set by (rewrite El1, <- Hlen; done). rewrite Ea1. done.
Qed.

Lemma cascade_members J P b v lc t :
  Placed J P b -> v <> TV1 -> J `mod` 2 ^ shift v = 0 ->
  t ∈ cascaded_lists J P b v lc <-> exists d, (move J v <$> P) !! t = Some (lc, d).
Proof.
  intros HP Hv HJ. unfold cascaded_lists. set (src := Slot v (Z.to_nat (index v J))). rewrite lookup_fmap.
  destruct (P !! t) as [[lc0 d0]|] eqn:Ep; cbn [fmap option_fmap option_map].
  - unfold move. cbn [fst snd]. fold src. destruct (decide (lc0 = src)) as [->|Hne].
    + destruct (move_slot J v P b t d0 HP Hv HJ Ep) as (_&Hslot&_). fold src in Hslot.
      assert (Htl : t ∈ at_loc b src) by (apply (pl_in _ _ _ HP); eauto).
      assert (deadline_in P t = d0) as Hdl by (unfold deadline_in; by rewrite Ep).
      destruct (decide (lc = src)) as [->|Hlc].
      * rewrite elem_of_nil. split; [done|]. intros [d E]. by apply (inj Some), pair_equal_spec in E as [E _].
      * rewrite elem_of_app, elem_on, Hdl, (pl_in _ _ _ HP), Ep. split.
        -- intros [[d E]|[_ <-]]; [|eauto]. apply (inj Some), pair_equal_spec in E as [E _]. congruence.
        -- intros [d E]. apply (inj Some), pair_equal_spec in E as [E _]. auto.
    + destruct (decide (lc = src)) as [->|Hlc].
      * rewrite elem_of_nil. split; [done|]. intros [d E]. congruence.
      * rewrite elem_of_app, elem_on, (pl_in _ _ _ HP), Ep. split; [|auto].
        intros [?|[(d&E&_)%(source_timers J P b) _]]; [done|congruence|done].
  - split; [|by intros [? ?]]. case_decide; [by rewrite elem_of_nil|]. rewrite elem_of_app, elem_on, (pl_in _ _ _ HP), Ep.
    intros [[? ?]|[(d&E&_)%(source_timers J P b) _]]; [done|congruence|done].
Qed.

Lemma cascade_run J P b v :
  Placed J P b -> v <> TV1 -> J `mod` 2 ^ shift v = 0 ->
  exists b', cascade b v (index v J) = Some (index v J, b') /\ Placed J (move J v <$> P) b' /\ timers b' = timers b.
Proof.
  intros HP Hv HJ. destruct (cascade_lists J P b v HP Hv HJ) as (b'&E&Et&Ej&El&Eat).
  exists b'. split; [done|]. split; [|done]. split.
  - done.
  - done.
  - intros lc t. rewrite Eat. by apply cascade_members.
  - intros lc. rewrite Eat. unfold cascaded_lists. case_decide as Hlc; [constructor|]. apply NoDup_app. split_and!.
    + apply (pl_nodup _ _ _ HP).
    + intros t [d Ep]%(pl_in _ _ _ HP) [(d'&E'&_)%(source_timers J P b) _]%elem_on; [congruence|done].
    + unfold on. apply NoDup_ListNoDup, List.NoDup_filter, NoDup_ListNoDup, (pl_nodup _ _ _ HP).
  - intros t lc d Em. rewrite lookup_fmap in Em. destruct (P !! t) as [[lc0 d0]|] eqn:Ep; [|done].
    cbn [fmap option_fmap option_map] in Em. unfold move in Em. cbn [fst snd] in Em. rewrite Et. case_decide as Hlc0.
    + apply (inj Some), pair_equal_spec in Em as [<- ->]. subst lc0.
      destruct (move_slot J v P b t d HP Hv HJ Ep) as (Hd&_&tm&Etm&Har&Hu&He). exists tm. split_and!; [done|apply Har..|].
      rewrite <- (deadline_of J d Hd), He. apply slot_of_placed, u32_range.
    + injection Em as -> ->. by apply (pl_timer _ _ _ HP).
  - rewrite Et. apply HP.
Qed.

(** ** A tick *)

Lemma INDEX_eq J P b v n :
  Placed J P b -> v <> TV1 -> shift v = TVR_BITS + n * TVN_BITS -> INDEX b n = index v J.
Proof.
  intros HP Hv Hs. unfold INDEX. rewrite (pl_jiffies _ _ _ HP), <- index_u32, index_shiftr, Hs. by destruct v.
Qed.

Lemma mod_step J s w : 0 <= s -> 0 <= w -> J `mod` 2^s = 0 -> (J / 2^s) `mod` 2^w = 0 <-> J `mod` 2^(s + w) = 0.
Proof.
  intros Hs Hw HJ. assert (H1 : 0 < 2^s) by (apply Z.pow_pos_nonneg; lia). assert (H2 : 0 < 2^w) by (apply Z.pow_pos_nonneg; lia).
  rewrite Z.pow_add_r, Z.rem_mul_r, HJ by lia. nia.
Qed.

Lemma settled_between J P v : J `mod` 2 ^ shift v <> 0 -> settled J P v.
Proof. intros HJ t i d _ E. by apply HJ, (leaves_multiple v d). Qed.

(** A multiple of a larger power is one of a smaller one. *)
Lemma mod_pow_weaken J s s' : 0 <= s <= s' -> J `mod` 2^s' = 0 -> J `mod` 2^s = 0.
Proof.
  intros Hs HJ. apply Z.mod_divide in HJ; [|apply Z.pow_nonzero; lia]. apply Z.mod_divide; [apply Z.pow_nonzero; lia|].
  destruct HJ as [q ->]. exists (q * 2^(s' - s)). rewrite <- Z.mul_assoc, <- Z.pow_add_r by lia. do 2 f_equal. lia.
Qed.

(** The vectors below [v] are settled. *)
Definition settled_to (J : Z) (P : gmap tid (loc * Z)) (n : Z) : Prop :=
  forall v, v <> TV1 -> shift v <= n -> settled J P v.

(** The state between two cascades of a tick. *)
Definition cascaded (J : Z) (P : gmap tid (loc * Z)) (b : tvec_base) (n : Z) (P' : gmap tid (loc * Z)) (b' : tvec_base) : Prop :=
  Placed J P' b' /\ timers b' = timers b /\ same_deadlines P P' /\ settled_to J P' n.

Lemma cascade_next J P b P' b' v n v0 :
  cascaded J P b v0 P' b' -> v <> TV1 -> shift v = TVR_BITS + n * TVN_BITS -> J `mod` 2 ^ shift v = 0 ->
  (forall v', v' <> TV1 -> shift v' <= shift v -> v' = v \/ shift v' <= v0) ->
  exists b'', cascade b' v (INDEX b' n) = Some (index v J, b'') /\ cascaded J P b (shift v) (move J v <$> P') b'' /\
    (index v J <> 0 -> settled_to J (move J v <$> P') 32) /\
    (index v J = 0 -> J `mod` 2 ^ (shift v + 6) = 0).
Proof.
  intros (HP&Et&Hs&Hst) Hv Hn HJ Hlow. rewrite (INDEX_eq J P' b' v n HP Hv Hn).
  destruct (cascade_run J P' b' v HP Hv HJ) as (b''&E&HP'&Et'). destruct (move_settled J v P' b' HP HJ Hv) as [Hm1 Hm2].
  assert (Hst' : settled_to J (move J v <$> P') (shift v)).
  { intros v' Hv' Hle. destruct (Hlow v' Hv' Hle) as [->|Hle']; [done|]. by apply Hm2, Hst. }
  assert (Hidx : index v J = 0 <-> J `mod` 2 ^ (shift v + 6) = 0).
  { unfold index. replace (width v) with 6 by by destruct v. apply mod_step; [apply (shift_width v)|lia|done]. }
  exists b''. split; [done|]. split_and!; [|intros Hne v' Hv' _|apply Hidx].
  - split_and!; [done|congruence| |done]. unfold same_deadlines in *. rewrite Hs. apply move_same.
  - destruct (decide (shift v' <= shift v)) as [Hle|Hgt]; [by apply Hst'|]. apply settled_between. intros HJ'.
    apply Hne, Hidx. apply (mod_pow_weaken J _ (shift v')); [|done]. destruct v, v'; simpl in *; lia.
Qed.

Lemma run_cascades_run J P b :
  Placed J P b ->
  exists P' b', run_cascades b (timer_jiffies b &u TVR_MASK) = Some b' /\ cascaded J P b 32 P' b'.
Proof.
  intros HP. assert (E0 : timer_jiffies b &u TVR_MASK = index TV1 J).
  { rewrite (pl_jiffies _ _ _ HP), <- index_u32, index_shiftr. done. }
  assert (Hz : index TV1 J = 0 <-> J `mod` 2^8 = 0) by (unfold index; simpl; by rewrite Z.div_1_r).
  unfold run_cascades. rewrite E0. case_decide as H0.
  { exists P, b. split; [done|]. split_and!; [done..|]. intros v Hv _. apply settled_between. intros HJ. apply H0, Hz.
    apply (mod_pow_weaken J 8 (shift v)); [by destruct v|done]. }
  assert (HJ0 : J `mod` 2^8 = 0) by (apply Hz; lia).
  destruct (cascade_next J P b P b TV2 0 0) as (b1&E1&C1&S1&Z1); [|done|done|done| |].
  { split_and!; [done..|]. intros v Hv Hle. by destruct v; simpl in Hle; try lia. }
  { intros v Hv Hle. destruct v; simpl in *; [done|by left|lia..]. }
  rewrite E1. cbn [mbind option_bind]. case_decide as H1.
  { eexists _, b1. split; [done|]. destruct C1 as (?&?&?&_). split_and!; [done..|by apply S1]. }
  destruct (cascade_next J P b _ b1 TV3 1 8 C1) as (b2&E2&C2&S2&Z2); [done|done|apply Z1; lia| |].
  { intros v Hv Hle. destruct v; simpl in *; [done|right; lia|by left|lia..]. }
  rewrite E2. cbn [mbind option_bind]. case_decide as H2.
  { eexists _, b2. split; [done|]. destruct C2 as (?&?&?&_). split_and!; [done..|by apply S2]. }
  destruct (cascade_next J P b _ b2 TV4 2 14 C2) as (b3&E3&C3&S3&Z3); [done|done|apply Z2; lia| |].
  { intros v Hv Hle. destruct v; simpl in *; [done|right; lia|right; lia|by left|lia]. }
  rewrite E3. cbn [mbind option_bind]. case_decide as H3.
  { eexists _, b3. split; [done|]. destruct C3 as (?&?&?&_). split_and!; [done..|by apply S3]. }
  destruct (cascade_next J P b _ b3 TV5 3 20 C3) as (b4&E4&C4&S4&Z4); [done|done|apply Z3; lia| |].
  { intros v Hv Hle. destruct v; simpl in *; [done|right; lia..|by left]. }
  rewrite E4. cbn [mbind option_bind]. eexists _, b4. split; [done|]. destruct C4 as (?&?&?&Hst). split_and!; [done..|].
  intros v Hv _. apply Hst; [done|]. destruct v; simpl; lia.
Qed.

Definition mark (J : Z) (x : loc * Z) : loc * Z :=
  if decide (x.1 = Slot TV1 (Z.to_nat (index TV1 J))) then (Work, x.2) else x.

(** After the cascades, the list of this tick is moved to the work list. *)
Lemma tick_placed J P b :
  Placed J P b -> settled_to J P 32 -> work_list b = [] ->
  let i := Z.to_nat (index TV1 J) in
  let b1 := set_jiffies b (timer_jiffies b +u 1) in
  tv1 b1 !! i = Some (at_loc b (Slot TV1 i)) /\
  Placed (J + 1) (mark J <$> P) (set_work (set_vec b1 TV1 (<[i := []]> (tv1 b1))) (at_loc b (Slot TV1 i))).
Proof.
  intros HP Hst Hwk i b1. pose proof (index_range TV1 J) as Hr. pose proof (pl_len _ _ _ HP) as Hlen.
  assert (Hi : (i < length (get_vec b TV1))%nat) by (rewrite Hlen; unfold i; lia).
  split; [by apply (at_loc_lookup b TV1)|].
  set (b2 := set_work _ _). assert (Eat : forall lc, at_loc b2 lc =
    match lc with Work => at_loc b (Slot TV1 i) | _ => if decide (lc = Slot TV1 i) then [] else at_loc b lc end).
  { intros [|v j]; [done|]. rewrite <- (at_loc_set b TV1 i [] (Slot v j) Hi). unfold b2, b1. by destruct b, v. }
  assert (HnoW : forall t d, P !! t <> Some (Work, d)).
  { intros t d E. assert (t ∈ at_loc b Work) as Hin by (apply (pl_in _ _ _ HP); eauto). simpl in Hin. rewrite Hwk in Hin. by apply elem_of_nil in Hin. }
  assert (Hmark : forall t lc d, (mark J <$> P) !! t = Some (lc, d) <->
    (lc = Work /\ P !! t = Some (Slot TV1 i, d)) \/ (lc <> Work /\ lc <> Slot TV1 i /\ P !! t = Some (lc, d))).
  { intros t lc d. rewrite lookup_fmap. destruct (P !! t) as [[lc0 d0]|] eqn:Ep; cbn [fmap option_fmap option_map].
    - unfold mark. cbn [fst snd]. fold i. case_decide as Hlc; split.
      + intros [= <- <-]. left. subst. done.
      + intros [[-> E]|(_&Hne&E)]; injection E as E1 E2; congruence.
      + intros [= -> ->]. right. split; [|done]. intros ->. by apply (HnoW t d).
      + intros [[-> E]|(_&_&E)]; injection E as E1 E2; congruence.
    - split; [done|]. intros [[_ ?]|(_&_&?)]; done. }
  split.
  - unfold b2, b1. simpl. rewrite (pl_jiffies _ _ _ HP), u32_add_l. done.
  - intros v. replace (length (get_vec b2 v)) with (length (get_vec b v)); [apply Hlen|]. unfold b2, b1.
    destruct b, v; simpl; by rewrite ?length_insert.
  - intros lc t. rewrite Eat. setoid_rewrite Hmark. destruct lc as [|v j].
    + rewrite (pl_in _ _ _ HP). split; [intros [d E]; exists d; by left|]. intros [d [[_ E]|(?&_)]]; [eauto|done].
    + case_decide as Hlc.
      * rewrite elem_of_nil. split; [done|]. by intros [d [[? _]|(_&?&_)]].
      * rewrite (pl_in _ _ _ HP). split; [intros [d E]; exists d; by right|]. intros [d [[? _]|(_&_&E)]]; [done|eauto].
  - intros lc. rewrite Eat. destruct lc; [apply HP|]. case_decide; [constructor|apply HP].
  - intros t lc d [[-> E]|(Hw&Hne&E)]%Hmark; destruct (pl_timer _ _ _ HP _ _ _ E) as (tm&Et&Har&Hpl); exists tm.
    + split_and!; [done|apply Har..|]. destruct Hpl as (Hf&_). apply (fits_due J TV1 i d) in Hf; [|by rewrite Z.mod_1_r].
      simpl. rewrite <- (leaves_first d). rewrite (proj1 Hf eq_refl). lia.
    + split_and!; [done|apply Har..|]. destruct lc as [|v j]; [done|]. apply placed_next; [done|].
      destruct (decide (v = TV1)) as [->|Hv].
      * destruct Hpl as (Hf&_). intros Hl. apply Hne. f_equal. apply (fits_due J TV1 j d) in Hf; [|by rewrite Z.mod_1_r].
        by apply Hf.
      * apply (Hst v Hv) with t j; [|done]. destruct v; simpl; lia.
  - apply HP.
Qed.

(** After the cascades, the list of this tick has exactly the timers with this deadline. *)
Lemma due_slot J P b t v i d :
  Placed J P b -> settled_to J P 32 -> P !! t = Some (Slot v i, d) ->
  Slot v i = Slot TV1 (Z.to_nat (index TV1 J)) <-> d = J.
Proof.
  intros HP Hst E. destruct (pl_timer _ _ _ HP _ _ _ E) as (tm&_&_&Hf&Hd&_). split.
  - intros [= -> ->]. rewrite <- (leaves_first d). apply (fits_due J TV1 _ d Hf); [by rewrite Z.mod_1_r|done].
  - intros ->. destruct (decide (v = TV1)) as [->|Hv]; [by destruct Hf as [_ ->]|]. exfalso.
    apply (Hst v Hv) with t i J; [destruct v; simpl; lia|done|]. pose proof (leaves_bounds v J). destruct Hf. lia.
Qed.

(** What the tick does to the deadlines. *)
Lemma mark_lookup J P b t b' d :
  Placed J P b -> settled_to J P 32 -> (forall t d, P !! t <> Some (Work, d)) ->
  strip <$> (mark J <$> P) !! t = Some (b', d) <-> strip <$> P !! t = Some (false, d) /\ b' = bool_decide (d = J).
Proof.
  intros HP Hst HnoW. rewrite lookup_fmap. destruct (P !! t) as [[[|v i] d']|] eqn:E.
  - by destruct (HnoW t d').
  - pose proof (due_slot J P b t v i d' HP Hst E) as Hdue. cbn [fmap option_fmap option_map]. unfold mark, strip. cbn [fst snd].
    case_decide as Hs; cbn [fst snd]; rewrite (bool_decide_false (Slot v i = Work)) by done.
    + rewrite (bool_decide_true (Work = Work)) by done. split; [intros [= <- <-]|intros [[= <-] ->]]; rewrite (bool_decide_true (d' = J)) by tauto; done.
    + split; [intros [= <- <-]|intros [[= <-] ->]]; rewrite (bool_decide_false (d' = J)) by tauto; done.
  - split; [done|]. by intros [? _].
Qed.

(** The places, in terms of the deadlines. *)
Lemma strip_waits (P : gmap tid (loc * Z)) t d : (exists v i, P !! t = Some (Slot v i, d)) <-> strip <$> P !! t = Some (false, d).
Proof.
  split; [by intros (v&i&->)|]. destruct (P !! t) as [[[|v i] d']|]; [done| |done]. intros [= ->]. eauto.
Qed.

Lemma strip_due (P : gmap tid (loc * Z)) t : (exists d, P !! t = Some (Work, d)) <-> exists d, strip <$> P !! t = Some (true, d).
Proof.
  split; [intros [d ->]; by exists d|]. intros [d E]. destruct (P !! t) as [[[|v i] d']|]; [eauto|done|done].
Qed.

Lemma run_tick_refines b a :
  implements b a -> due a = ∅ -> exists b', run_tick b = Some b' /\ implements b' (next_tick a).
Proof.
  intros (P&[HP Hall]&Hw&Hd&Hfl) Hdue. unfold run_tick.
  destruct (run_cascades_run (tick a) P b HP) as (P1&b1&E1&HP1&Et1&Hs1&Hst1). rewrite E1. cbn [mbind option_bind].
  assert (E0 : timer_jiffies b &u TVR_MASK = index TV1 (tick a)).
  { rewrite (pl_jiffies _ _ _ HP), <- index_u32, index_shiftr. done. }
  assert (Hst : forall t, strip <$> P !! t = strip <$> P1 !! t) by (intros t; by rewrite <- !lookup_fmap, Hs1).
  assert (HnoW : forall t d, P1 !! t <> Some (Work, d)).
  { intros t d E. specialize (Hst t). rewrite E in Hst. destruct (P !! t) as [[lc d']|] eqn:Ep; [|done].
    injection Hst as Hx _. apply bool_decide_eq_true in Hx as ->. assert (t ∈ due a) by (apply Hd; eauto). set_solver. }
  assert (Hwk : work_list b1 = []).
  { destruct (work_list b1) as [|t l] eqn:El; [done|]. assert (t ∈ at_loc b1 Work) as [d E]%(pl_in _ _ _ HP1).
    - simpl. rewrite El. left. - by destruct (HnoW t d). }
  destruct (tick_placed (tick a) P1 b1 HP1 Hst1 Hwk) as [El HP2]. rewrite E0, El. cbn [mbind option_bind].
  eexists. split; [reflexivity|].
  set (b2 := set_work _ _) in *. assert (Et2 : timers b2 = timers b) by (unfold b2; simpl; by rewrite Et1).
  exists (mark (tick a) <$> P1). split; [split; [exact HP2|]|].
  - intros t tm. rewrite Et2. intros Ht Hl. destruct (Hall t tm Ht Hl) as [x Hx]. specialize (Hst t). rewrite Hx in Hst.
    rewrite lookup_fmap. destruct (P1 !! t); [by eexists|done].
  - split_and!; cbn [waiting due fields next_tick].
    + intros t d. rewrite map_lookup_filter_Some, Hw, !strip_waits, (mark_lookup _ _ _ _ _ _ HP1 Hst1 HnoW), Hst.
      cbn [snd]. split; [intros [? ?]; by rewrite bool_decide_false|]. intros [? Hx]. split; [done|]. symmetry in Hx.
      by apply bool_decide_eq_false in Hx.
    + intros t. rewrite elem_of_dom, strip_due. split.
      * intros [d Hx]. apply map_lookup_filter_Some in Hx as [Hx Hd']. simpl in Hd'. exists d.
        rewrite (mark_lookup _ _ _ _ _ _ HP1 Hst1 HnoW), <- Hst, <- strip_waits, <- Hw. by rewrite bool_decide_true.
      * intros [d Hx]. rewrite (mark_lookup _ _ _ _ _ _ HP1 Hst1 HnoW), <- Hst, <- strip_waits, <- Hw in Hx.
        destruct Hx as [Hx Hd']. symmetry in Hd'. apply bool_decide_eq_true in Hd'. exists d.
        by apply map_lookup_filter_Some.
    + by rewrite Et2.
Qed.

(** ** Running timers *)

Fixpoint alarm_calls (a : alarms) (cs : list call) : option alarms :=
  match cs with
  | [] => Some a
  | c :: cs => '(_, a) ← alarm_call a c; alarm_calls a cs
  end.

Definition touched (c : call) : tid := match c with Add t | Mod t _ | Mod' t _ | Del t => t end.

Section Runs.
(** What is known of the calls that handlers make. *)
Context (Q : call -> Prop).

(** The timers that are due are run, in some order, unless the handler of one of them
    stops or moves another. *)
Inductive fires : alarms -> list tid -> alarms -> Prop :=
| fires_none a : due a = ∅ -> fires a [] a
| fires_one a t cs a1 l a2 :
    t ∈ due a -> Forall Q cs -> alarm_calls (disarm a t) cs = Some a1 -> fires a1 l a2 -> fires a (t :: l) a2.

(** All ticks up to [N]. *)
Inductive runs (N : Z) : alarms -> list (list tid) -> alarms -> Prop :=
| runs_done a : N < tick a -> runs N a [] a
| runs_tick a l a1 log a2 :
    tick a <= N -> fires (next_tick a) l a1 -> runs N a1 log a2 -> runs N a (l :: log) a2.
End Runs.

Lemma alarm_call_due a c r a' : alarm_call a c = Some (r, a') -> tick a' = tick a /\ due a' ⊆ due a.
Proof.
  destruct c as [t|t e|t e|t]; cbn [alarm_call]; destruct (fields a !! t) as [[e0 f]|]; try done;
    cbn [mbind option_bind]; repeat case_match; intros [= <- <-]; cbn [tick due arm disarm]; split; set_solver.
Qed.

Lemma alarm_calls_due a cs a' : alarm_calls a cs = Some a' -> tick a' = tick a /\ due a' ⊆ due a.
Proof.
  revert a. induction cs as [|c cs IH]; intros a; cbn [alarm_calls]; [intros [= <-]; done|].
  destruct (alarm_call a c) as [[r a1]|] eqn:E; [|done]. cbn [mbind option_bind]. intros [Hj Hd]%IH.
  apply alarm_call_due in E as [Hj1 Hd1]. split; [congruence|set_solver].
Qed.

Lemma do_calls_refines b a cs b' :
  implements b a -> Forall call_ok cs -> do_calls b cs = Some b' ->
  exists a', alarm_calls a cs = Some a' /\ implements b' a'.
Proof.
  intros Hi Hok. revert b a Hi. induction Hok as [|c cs Hc Hok IH]; intros b a Hi; cbn [do_calls alarm_calls].
  - intros [= <-]. eauto.
  - pose proof (do_call_refines b a c Hi Hc) as Href. destruct (alarm_call a c) as [[r a1]|].
    + destruct Href as (b1&->&Hi1). cbn [mbind option_bind]. by apply IH.
    + by rewrite Href.
Qed.

Lemma implements_work b a t : implements b a -> t ∈ work_list b <-> t ∈ due a.
Proof. intros (P&[HP _]&_&Hd&_). by rewrite (pl_in _ _ _ HP Work t), Hd. Qed.

Lemma work_size b a : implements b a -> length (work_list b) = size (due a).
Proof.
  intros Hi. assert (due a = list_to_set (work_list b)) as ->.
  { apply set_eq. intros t. by rewrite elem_of_list_to_set, implements_work. }
  destruct Hi as (P&[HP _]&_). symmetry. apply size_list_to_set, (pl_nodup _ _ _ HP Work).
Qed.

(** The handlers make calls that are allowed, and of the kind [Q]. *)
Definition handlers_ok (Q : call -> Prop) (handler : tid -> tvec_base -> list call) : Prop :=
  forall t b a, implements b a ->
    Forall call_ok (handler t b) /\ Forall Q (handler t b) /\ is_Some (do_calls b (handler t b)).

Lemma run_work_refines Q handler fuel b a :
  handlers_ok Q handler -> implements b a -> (size (due a) <= fuel)%nat ->
  exists l b' a', run_work handler fuel b = Some (l, b') /\ fires Q a l a' /\ implements b' a'.
Proof.
  intros Hh. revert b a. induction fuel as [|fuel IH]; intros b a Hi Hf; pose proof (work_size b a Hi) as Hsz;
    destruct (work_list b) as [|t w] eqn:Ew; cbn [run_work]; rewrite Ew.
  1,3: exists [], b, a; split_and!; [done| |done]; constructor; apply leibniz_equiv, size_empty_iff; simpl in Hsz; lia.
  - simpl in Hsz. lia.
  - assert (Ht : t ∈ due a) by (apply (implements_work b a t Hi); rewrite Ew; left).
    assert (exists tm, timers b !! t = Some tm) as [tm Etm].
    { destruct Hi as (P&[HP _]&_&Hd&_). apply Hd in Ht as [d E]. destruct (pl_timer _ _ _ HP _ _ _ E) as (tm&?&_). eauto. }
    destruct (detach_disarms b a t tm Hi Etm) as (b1&->&Hi1&_). cbn [mbind option_bind].
    destruct (Hh t b1 _ Hi1) as (Hok&HQ&[b2 E2]). rewrite E2. cbn [mbind option_bind].
    destruct (do_calls_refines _ _ _ _ Hi1 Hok E2) as (a2&Ea2&Hi2).
    destruct (IH b2 a2 Hi2) as (l&b3&a3&E3&Hfi&Hi3).
    { apply alarm_calls_due in Ea2 as [_ Hsub]. apply subseteq_size in Hsub. cbn [due disarm] in Hsub.
      rewrite size_difference in Hsub by set_solver. rewrite size_singleton in Hsub. simpl in Hsz. lia. }
    rewrite E3. cbn [mbind option_bind]. exists (t :: l), b3, a3. split_and!; [done| |done]. by econstructor.
Qed.

Lemma fires_tick Q a l a' : fires Q a l a' -> tick a' = tick a /\ due a' = ∅.
Proof.
  induction 1 as [a Hd|a t cs a1 l a2 Ht HQ Hcs Hf [IH1 IH2]]; [done|].
  apply alarm_calls_due in Hcs as [Hj _]. split; [|done]. rewrite IH1, Hj. done.
Qed.

Lemma s32_ticks N J : - 2^31 <= N - J < 2^31 -> s32 (u32 N - u32 J) = N - J.
Proof.
  intros Hd. rewrite <- (s32_u32 (u32 N - u32 J)), u32_sub_l, u32_sub_r, s32_u32. by apply s32_small.
Qed.

Lemma time_after_eq_spec N J : - 2^31 <= N - J < 2^31 -> time_after_eq (u32 N) (u32 J) = bool_decide (J <= N).
Proof.
  intros Hd. unfold time_after_eq. apply bool_decide_ext.
  rewrite s32_ticks by done. lia.
Qed.

Lemma run_ticks_refines Q handler fuel N b a :
  handlers_ok Q handler -> implements b a -> due a = ∅ -> - 2^31 <= N - tick a < 2^31 ->
  (Z.to_nat (N - tick a + 1) <= fuel)%nat ->
  exists log b' a', run_ticks handler fuel (u32 N) b = Some (log, b') /\ runs Q N a log a' /\ implements b' a'.
Proof.
  intros Hh. revert b a. induction fuel as [|fuel IH]; intros b a Hi Hd HN Hf;
    assert (Ej : timer_jiffies b = u32 (tick a)) by (by destruct Hi as (P&[HP _]&_); apply HP);
    cbn [run_ticks]; rewrite Ej, time_after_eq_spec by done.
  - rewrite bool_decide_false by lia. exists [], b, a. split_and!; [done|constructor; lia|done].
  - destruct (decide (tick a <= N)) as [Hle|Hgt].
    + rewrite bool_decide_true by done. destruct (run_tick_refines b a Hi Hd) as (b1&->&Hi1). cbn [mbind option_bind].
      destruct (run_work_refines Q handler (length (work_list b1)) b1 _ Hh Hi1) as (l&b2&a2&E2&Hfi&Hi2).
      { by rewrite (work_size _ _ Hi1). }
      rewrite E2. cbn [mbind option_bind]. destruct (fires_tick _ _ _ _ Hfi) as [Hj2 Hd2]. cbn [tick next_tick] in Hj2.
      destruct (IH b2 a2 Hi2 Hd2) as (log&b3&a3&E3&Hr&Hi3); [lia|lia|].
      rewrite E3. cbn [mbind option_bind]. exists (l :: log), b3, a3. split_and!; [done| |done]. by econstructor.
    + rewrite bool_decide_false by lia. exists [], b, a. split_and!; [done|constructor; lia|done].
Qed.

(** A timer that no handler touches: it stays where it is or is run. *)
Lemma alarm_calls_untouched t a cs a' :
  Forall (fun c => touched c <> t) cs -> alarm_calls a cs = Some a' ->
  waiting a' !! t = waiting a !! t /\ (t ∈ due a' <-> t ∈ due a).
Proof.
  intros HQ. revert a. induction HQ as [|c cs Hc HQ IH]; intros a; cbn [alarm_calls]; [intros [= <-]; done|].
  destruct (alarm_call a c) as [[r a1]|] eqn:E; [|done]. cbn [mbind option_bind]. intros [Hw Hd]%IH.
  assert (waiting a1 !! t = waiting a !! t /\ (t ∈ due a1 <-> t ∈ due a)) as [Hw1 Hd1].
  { destruct c as [x|x e|x e|x]; cbn [alarm_call touched] in *; destruct (fields a !! x) as [[e0 f]|]; try done;
      cbn [mbind option_bind] in E; repeat case_match; simplify_eq; cbn [waiting due arm disarm];
      rewrite ?lookup_insert_ne, ?lookup_delete_ne by done; split; set_solver. }
  split; [congruence|tauto].
Qed.

Lemma fires_untouched t a l a' :
  fires (fun c => touched c <> t) a l a' -> waiting a !! t = None \/ t ∉ due a ->
  (t ∈ l <-> t ∈ due a) /\ NoDup l /\ waiting a' !! t = waiting a !! t.
Proof.
  intros Hf Hex. assert (Hl : forall Q a l a', fires Q a l a' -> NoDup l /\ forall x, x ∈ l -> x ∈ due a).
  { clear. induction 1 as [a Hd|a x cs a1 l a2 Hx HQ Hcs Hf [IH1 IH2]]; [by split; [constructor|set_solver]|].
    apply alarm_calls_due in Hcs as [_ Hsub]. cbn [due disarm] in Hsub. split; [constructor; [|done]|set_solver].
    intros Hin%IH2. set_solver. }
  split; [|split; [by apply (Hl _ _ _ _ Hf)|]].
  - split; [apply (Hl _ _ _ _ Hf)|]. clear Hex. induction Hf as [a Hd|a x cs a1 l a2 Hx HQ Hcs Hf IH]; [set_solver|].
    intros Ht. destruct (decide (x = t)) as [->|Hne]; [left|]. right. apply IH.
    destruct (alarm_calls_untouched t _ _ _ HQ Hcs) as [_ Hd]. rewrite Hd. cbn [due disarm]. set_solver.
  - induction Hf as [a Hd|a x cs a1 l a2 Hx HQ Hcs Hf IH]; [done|].
    destruct (alarm_calls_untouched t _ _ _ HQ Hcs) as [Hw Hd]. cbn [waiting due disarm] in Hw, Hd.
    assert (Hw1 : waiting a1 !! t = waiting a !! t).
    { rewrite Hw. destruct (decide (x = t)) as [->|Hne]; [|by rewrite lookup_delete_ne].
      rewrite lookup_delete_eq. by destruct Hex as [->|?]. }
    rewrite IH; [done|]. rewrite Hw1, Hd. destruct Hex; [by left|right; set_solver].
Qed.

Lemma runs_ends Q N a log a' : runs Q N a log a' -> tick a <= N + 1 -> due a = ∅ ->
  tick a' = N + 1 /\ due a' = ∅ /\ zlen log = N + 1 - tick a.
Proof.
  induction 1 as [a HN|a l a1 log a2 HN Hf Hr IH]; intros Hle Hd; [split_and!; [lia|done|unfold zlen; simpl; lia]|].
  destruct (fires_tick _ _ _ _ Hf) as [Hj1 Hd1]. cbn [tick next_tick] in Hj1. destruct IH as (?&?&Hl); [lia|done|].
  split_and!; [done|done|]. unfold zlen in *. simpl length. lia.
Qed.

Lemma next_tick_due a t : t ∈ due (next_tick a) <-> waiting a !! t = Some (tick a).
Proof.
  cbn [due next_tick]. rewrite elem_of_dom. split.
  - intros [d [E Hd]%map_lookup_filter_Some]. simpl in Hd. by subst.
  - intros E. exists (tick a). by apply map_lookup_filter_Some.
Qed.

Lemma next_tick_waiting a t d : waiting (next_tick a) !! t = Some d <-> waiting a !! t = Some d /\ d <> tick a.
Proof. cbn [waiting next_tick]. by rewrite map_lookup_filter_Some. Qed.

(** A timer that no handler touches is run in the tick of its deadline and in no other. *)
Lemma runs_on_time t N a log a' :
  runs (fun c => touched c <> t) N a log a' ->
  forall k l, log !! k = Some l -> NoDup l /\ (t ∈ l <-> waiting a !! t = Some (tick a + Z.of_nat k)).
Proof.
  induction 1 as [a HN|a l a1 log a2 HN Hf Hr IH]; intros k l' Hk; [done|].
  destruct (fires_tick _ _ _ _ Hf) as [Hj1 _]. cbn [tick next_tick] in Hj1.
  assert (Hex : waiting (next_tick a) !! t = None \/ t ∉ due (next_tick a)).
  { destruct (waiting (next_tick a) !! t) as [d|] eqn:E; [|by left]. right. rewrite next_tick_due.
    apply next_tick_waiting in E as [-> Hd]. congruence. }
  destruct (fires_untouched t _ _ _ Hf Hex) as (Hl&Hn&Hw). destruct k as [|k].
  - injection Hk as <-. split; [done|]. rewrite Hl, next_tick_due. by rewrite Z.add_0_r.
  - destruct (IH k l' Hk) as [Hn' Hl']. split; [done|]. rewrite Hl', Hw, Hj1, next_tick_waiting.
    replace (tick a + 1 + Z.of_nat k) with (tick a + Z.of_nat (S k)) by lia. split; [tauto|]. intros E. split; [done|lia].
Qed.

(** And before it, it keeps waiting. *)
Lemma runs_keeps t N a log a' d :
  runs (fun c => touched c <> t) N a log a' -> waiting a !! t = Some d -> N < d -> waiting a' !! t = Some d.
Proof.
  induction 1 as [a HN|a l a1 log a2 HN Hf Hr IH]; intros Hw Hd; [done|]. apply IH; [|done].
  assert (Hn : waiting (next_tick a) !! t = Some d) by (apply next_tick_waiting; split; [done|lia]).
  destruct (fires_untouched t _ _ _ Hf) as (_&_&->); [|done]. right. rewrite next_tick_due, Hw. intros [= ->]. lia.
Qed.

Lemma runs_weaken (Q Q' : call -> Prop) N a log a' : (forall c, Q c -> Q' c) -> runs Q N a log a' -> runs Q' N a log a'.
Proof.
  intros HQ. assert (Hf : forall a l a', fires Q a l a' -> fires Q' a l a').
  { induction 1; [by constructor|]. econstructor; [done| |done|done]. by eapply Forall_impl. }
  induction 1; [by constructor|]. econstructor; eauto.
Qed.

Lemma implements_waiting b a t d : implements b a -> waiting a !! t = Some d -> tick a <= d < tick a + 2^31.
Proof.
  intros (P&[HP _]&Hw&_) E. apply Hw in E as (v&i&E). destruct (pl_timer _ _ _ HP _ _ _ E) as (tm&_&_&_&Hd&_). done.
Qed.

(** The deadline of a waiting timer is still the one that setting it again would give. *)
Lemma implements_deadline b a t d e f :
  implements b a -> waiting a !! t = Some d -> fields a !! t = Some (e, f) -> deadline (tick a) e = d.
Proof.
  intros Hi E Hf. rewrite (implements_fields b a t Hi) in Hf. destruct Hi as (P&[HP _]&Hw&_).
  apply Hw in E as (v&i&E). destruct (pl_timer _ _ _ HP _ _ _ E) as (tm&Et&_&_&Hd&He). rewrite Et in Hf.
  injection Hf as <- _. destruct He as [->|(_&->&He)]; [by apply deadline_of|].
  unfold deadline. by rewrite decide_False by lia.
Qed.

Lemma init_implements b j :
  is_u32 j -> work_list b = [] -> (forall t tm, timers b !! t = Some tm -> linked tm = false /\ is_u32 (expires tm)) ->
  implements (init_timers_cpu b j) (Alarms j ∅ ∅ ((fun tm => (expires tm, function tm)) <$> timers b)).
Proof.
  intros Hj Hw Ht. exists ∅. split; [split|].
  - assert (Eat : forall lc, at_loc (init_timers_cpu b j) lc = []).
    { intros [|v i]; [exact Hw|]. cbn [at_loc].
      assert (get_vec (init_timers_cpu b j) v = replicate (Z.to_nat (2 ^ width v)) []) as -> by by destruct v.
      destruct (replicate _ _ !! i) as [l|] eqn:E; [|done]. by apply lookup_replicate in E as [-> _]. }
    split; cbn [tick].
    + by rewrite u32_small.
    + intros v. destruct v; cbn [get_vec init_timers_cpu tv1 tv2 tv3 tv4 tv5]; by rewrite length_replicate.
    + intros lc t. rewrite Eat, elem_of_nil. split; [done|]. by intros [d E].
    + intros lc. rewrite Eat. constructor.
    + done.
    + intros t tm E. by apply (Ht t tm).
  - intros t tm E Hl. destruct (Ht t tm E) as [Hl' _]. congruence.
  - split_and!; [|set_solver|done]. intros t d. split; [done|]. by intros (v&i&E).
Qed.

(** ** The theorems *)

(** C5. The timer wheel implements alarms with deadlines, for the whole range of the 32-bit
    tick counter: a wheel set up by [init_timers_cpu] has no alarm; every call of
    [add_timer], [mod_timer], [__mod_timer] and [del_timer] on a wheel that implements some
    alarms returns what it returns for the alarms (whether the timer was pending, or a
    [BUG]) and implements the changed alarms; the first half of a tick (cascades, and the
    splice of one list) makes exactly the timers due whose deadline it is; and the
    shortcut of [mod_timer] for an unchanged time leaves a waiting timer with the deadline
    that setting it would give. *)
Theorem timer_wheel_refines :
  (forall b j, is_u32 j -> work_list b = [] ->
     (forall t tm, timers b !! t = Some tm -> linked tm = false /\ is_u32 (expires tm)) ->
     implements (init_timers_cpu b j) (Alarms j ∅ ∅ ((fun tm => (expires tm, function tm)) <$> timers b))) /\
  (forall b a, implements b a ->
     (forall c, call_ok c ->
        match alarm_call a c with
        | Some (r, a') => exists b', do_call b c = Some (r, b') /\ implements b' a'
        | None => do_call b c = None
        end) /\
     (due a = ∅ -> exists b', run_tick b = Some b' /\ implements b' (next_tick a)) /\
     (forall t d e f, waiting a !! t = Some d -> fields a !! t = Some (e, f) -> deadline (tick a) e = d)).
Proof.
  split; [exact init_implements|]. intros b a Hi. split_and!.
  - intros c Hc. by apply do_call_refines.
  - by apply run_tick_refines.
  - intros t d e f. by apply (implements_deadline b a).
Qed.

(** C4. Timers run on time: when [jiffies] stands at [N], less than 2^31 ticks ahead of the
    wheel, [__run_timers] ends with all ticks up to [N] run, whatever (allowed) calls the
    handlers make to start, move and stop timers.  A timer that they do not touch is run
    exactly once, in the tick of its deadline, when that is not after [N], and otherwise
    keeps waiting; no timer whose deadline has passed is left waiting. *)
Theorem timers_run_on_time Q handler N b a :
  handlers_ok Q handler -> implements b a -> due a = ∅ -> tick a - 1 <= N < tick a + 2^31 ->
  exists log b' a', __run_timers handler (u32 N) b = Some (log, b') /\ implements b' a' /\
    tick a' = N + 1 /\ due a' = ∅ /\ zlen log = N + 1 - tick a /\
    (forall t d, waiting a' !! t = Some d -> N < d) /\
    (forall t, (forall c, Q c -> touched c <> t) ->
       (forall k l, log !! k = Some l -> NoDup l /\ (t ∈ l <-> waiting a !! t = Some (tick a + Z.of_nat k))) /\
       (forall d, waiting a !! t = Some d -> N < d -> waiting a' !! t = Some d)).
Proof.
  intros Hh Hi Hd HN. assert (Ej : timer_jiffies b = u32 (tick a)) by (by destruct Hi as (P&[HP _]&_); apply HP).
  destruct (run_ticks_refines Q handler (Z.to_nat (s32 (u32 N - timer_jiffies b) + 1)) N b a Hh Hi Hd) as (log&b'&a'&E&Hr&Hi').
  - lia.
  - rewrite Ej, s32_ticks by lia. lia.
  - destruct (runs_ends _ _ _ _ _ Hr) as (Hj&Hd'&Hl); [lia|done|]. exists log, b', a'. split_and!; try done.
    + intros t d Ht. apply (implements_waiting b' a' t d Hi') in Ht. lia.
    + intros t Ht. pose proof (runs_weaken _ _ _ _ _ _ Ht Hr) as Hr'.
      split; [by apply (runs_on_time t N a log a')|]. intros d Hw HNd. by apply (runs_keeps t N a log a').
Qed.

(** ** Witnesses *)

(** Two timers: one is armed for a tick before the counter wraps and sets itself again three
    ticks later each time, the other is armed for tick 300 after the wrap. *)
Definition demo_timers : gmap tid timer_list :=
  <[1 := TimerList false (2^32 - 1) true Tvec_base]> {[2 := TimerList false 300 true Init_timer_base]}.
Definition demo_base : tvec_base := init_timers_cpu (TvecBase 0 [] [] [] [] [] [] demo_timers) (2^32 - 2).
Definition demo_alarms : alarms := Alarms (2^32 - 2) ∅ ∅ ((fun tm => (expires tm, function tm)) <$> demo_timers).
Definition demo_handler (t : tid) (b : tvec_base) : list call :=
  match timers b !! t with
  | Some tm => if bool_decide (t = 1) && function tm then [Mod' 1 (expires tm +u 3)] else []
  | None => []
  end.

Lemma demo_handler_ok : handlers_ok (fun c => touched c = 1) demo_handler.
Proof.
  intros t b a Hi. unfold demo_handler. destruct (timers b !! t) as [tm|] eqn:E; [|split_and!; [constructor..|done]].
  case_bool_decide as Ht; [|split_and!; [constructor..|done]]. subst t.
  destruct (function tm) eqn:Hf; [|split_and!; [constructor..|done]]. simpl.
  split_and!; [constructor; [apply u32_range|constructor]|constructor; [done|constructor]|].
  destruct (mod_timer_arms b a 1 tm (expires tm +u 3) Hi E Hf (u32_range _)) as (b'&->&_). done.
Qed.

Lemma demo_fresh t tm : demo_timers !! t = Some tm -> linked tm = false /\ is_u32 (expires tm).
Proof.
  unfold demo_timers. intros [[<- <-]|[_ [<- <-]%lookup_singleton_Some]]%lookup_insert_Some; split; try done;
    unfold is_u32; simpl; lia.
Qed.

Lemma demo_implements : implements demo_base demo_alarms.
Proof. apply init_implements; [unfold is_u32; lia|done|exact demo_fresh]. Qed.

Lemma timer_wheel_refines_witness :
  implements demo_base demo_alarms /\
  exists b', do_call demo_base (Add 2) = Some (0, b') /\ implements b' (arm demo_alarms 2 300).
Proof.
  destruct timer_wheel_refines as [Hinit Hstep].
  assert (Hi : implements demo_base demo_alarms) by (apply Hinit; [unfold is_u32; lia|reflexivity|exact demo_fresh]).
  split; [exact Hi|]. exact (proj1 (Hstep demo_base demo_alarms Hi) (Add 2) I).
Defined.

(** Both are armed; the wheel is then run over the wrap of the counter to tick 310. *)
Lemma timers_run_on_time_witness :
  exists b log b' l, do_calls demo_base [Add 1; Add 2] = Some b /\
    __run_timers demo_handler (u32 (2^32 + 310)) b = Some (log, b') /\ log !! 302%nat = Some l /\ 2 ∈ l.
Proof.
  pose (a := arm (arm demo_alarms 1 (2^32 - 1)) 2 300).
  assert (exists b, do_calls demo_base [Add 1; Add 2] = Some b /\ implements b a) as (b & Eb & Hb).
  { cbn [do_calls]. destruct (do_call_refines demo_base demo_alarms (Add 1) demo_implements I) as (b1 & -> & H1).
    cbn [mbind option_bind]. destruct (do_call_refines b1 _ (Add 2) H1 I) as (b2 & -> & H2). eauto. }
  destruct (timers_run_on_time (fun c => touched c = 1) demo_handler (2^32 + 310) b a demo_handler_ok Hb)
    as (log & b' & a' & E & _ & _ & _ & Hlen & _ & Hrun).
  - apply leibniz_equiv. vm_compute. set_solver.
  - simpl. lia.
  - destruct (lookup_lt_is_Some_2 log 302%nat) as [l Hl].
    { unfold zlen in Hlen. simpl in Hlen. lia. }
    exists b, log, b', l. split; [exact Eb|]. split; [exact E|]. split; [exact Hl|].
    destruct (Hrun 2) as [Ht _]; [intros c Hc; rewrite Hc; discriminate|].
    destruct (Ht 302%nat l Hl) as [_ Hin]. apply Hin. vm_compute. reflexivity.
Defined.
End TimerSpec.
