(* ===== verification/Radix.v ===== *)
(** The radix tree: [lib/radix-tree.c] and [include/linux/radix-tree.h].

    A pointer, to a node or to an item, is [None] for [NULL] or the address of an object.
    The nodes live in a store.  [kmem_cache_alloc] takes the next answer from a list of
    answers of the slab allocator: an object that was never handed out before has just been
    set up by the constructor of the cache, and one that was freed has the contents that it
    was freed with, since the constructor does not run again.  A loop over the height of
    the tree is a recursion on it; the height is a [nat] as it counts these rounds.  An
    access through [NULL], outside an array, or a [BUG_ON] that fires gives [None]. *)
From Stdlib Require Import ZArith Lia.
From stdpp Require Import base numbers list list_numbers option gmap.
From S2P Require Import Prelude Bitops.

Local Open Scope Z_scope.
Local Open Scope kernel_scope.

Module Radix.

Definition RADIX_TREE_MAP_SHIFT : Z := 6.
Definition RADIX_TREE_TAGS : Z := 2.
Definition RADIX_TREE_MAP_SIZE : Z := 64.
Definition RADIX_TREE_MAP_MASK : Z := RADIX_TREE_MAP_SIZE - 1.
Definition RADIX_TREE_TAG_LONGS : Z := 2.
Definition RADIX_TREE_INDEX_BITS : Z := 32.
Definition RADIX_TREE_MAX_PATH : nat := 7.
Definition __GFP_WAIT : Z := 0x10.

Abbreviation loc := positive.
Abbreviation ptr := (option positive).

Record radix_tree_node := Node {
  count : Z;
  slots : list ptr;
  tags : list (list Z)
}.

(** What [radix_tree_node_ctor] leaves. *)
Definition radix_tree_node_ctor : radix_tree_node :=
  Node 0 (replicate (Z.to_nat RADIX_TREE_MAP_SIZE) None)
    (replicate (Z.to_nat RADIX_TREE_TAGS) (replicate (Z.to_nat RADIX_TREE_TAG_LONGS) 0)).

(** [struct radix_tree_root] ([height], [gfp_mask], [rnode]), the store of nodes, the
    preloaded nodes of the processor (the head is [nodes[nr - 1]]), the preemption
    counter, what the slab allocator will answer, and the objects given back to it. *)
Record rstate := RState {
  height : nat;
  gfp_mask : Z;
  rnode : ptr;
  nodes : gmap loc radix_tree_node;
  preloads : list loc;
  preempt_count : Z;
  kmem : list ptr;
  freed : list loc
}.

Definition INIT_RADIX_TREE (mask : Z) (σ : rstate) : rstate :=
  RState 0 mask None (nodes σ) (preloads σ) (preempt_count σ) (kmem σ) (freed σ).

(** ** Access to the state *)

Definition RM : Type -> Type := SM rstate.

Definition gets {A} (f : rstate -> A) : RM A := fun σ => Some (f σ, σ).
Definition modify (f : rstate -> rstate) : RM unit := fun σ => Some (tt, f σ).
Definition lift {A} (x : option A) : RM A := fun σ => match x with Some a => Some (a, σ) | None => None end.
Definition BUG_ON (b : bool) : RM unit := if b then SM_fail else mret tt.

Definition set_height (h : nat) (σ : rstate) : rstate :=
  RState h (gfp_mask σ) (rnode σ) (nodes σ) (preloads σ) (preempt_count σ) (kmem σ) (freed σ).
Definition set_rnode (p : ptr) (σ : rstate) : rstate :=
  RState (height σ) (gfp_mask σ) p (nodes σ) (preloads σ) (preempt_count σ) (kmem σ) (freed σ).
Definition set_nodes (ns : gmap loc radix_tree_node) (σ : rstate) : rstate :=
  RState (height σ) (gfp_mask σ) (rnode σ) ns (preloads σ) (preempt_count σ) (kmem σ) (freed σ).
Definition set_preloads (l : list loc) (σ : rstate) : rstate :=
  RState (height σ) (gfp_mask σ) (rnode σ) (nodes σ) l (preempt_count σ) (kmem σ) (freed σ).
Definition add_preempt (d : Z) (σ : rstate) : rstate :=
  RState (height σ) (gfp_mask σ) (rnode σ) (nodes σ) (preloads σ) (preempt_count σ + d) (kmem σ) (freed σ).
Definition set_kmem (l : list ptr) (σ : rstate) : rstate :=
  RState (height σ) (gfp_mask σ) (rnode σ) (nodes σ) (preloads σ) (preempt_count σ) l (freed σ).
Definition add_freed (p : loc) (σ : rstate) : rstate :=
  RState (height σ) (gfp_mask σ) (rnode σ) (nodes σ) (preloads σ) (preempt_count σ) (kmem σ) (p :: freed σ).

Definition get_node (p : ptr) : RM radix_tree_node :=
  fun σ => match p with
           | Some a => match nodes σ !! a with Some nd => Some (nd, σ) | None => None end
           | None => None
           end.
Definition put_node (p : ptr) (nd : radix_tree_node) : RM unit :=
  fun σ => match p with
           | Some a => match nodes σ !! a with Some _ => Some (tt, set_nodes (<[a := nd]> (nodes σ)) σ) | None => None end
           | None => None
           end.

Definition get_slot (p : ptr) (i : Z) : RM ptr := nd ← get_node p; lift (mem_get (slots nd) i).
Definition set_slot (p : ptr) (i : Z) (x : ptr) : RM unit :=
  nd ← get_node p; ss ← lift (mem_set (slots nd) i x); put_node p (Node (count nd) ss (tags nd)).
Definition get_count (p : ptr) : RM Z := nd ← get_node p; mret (count nd).
Definition set_count (p : ptr) (c : Z) : RM unit :=
  nd ← get_node p; put_node p (Node c (slots nd) (tags nd)).
Definition get_tags (p : ptr) (tag : Z) : RM (list Z) := nd ← get_node p; lift (mem_get (tags nd) tag).
Definition set_tags (p : ptr) (tag : Z) (ws : list Z) : RM unit :=
  nd ← get_node p; ts ← lift (mem_set (tags nd) tag ws); put_node p (Node (count nd) (slots nd) ts).

(** ** Allocation *)

Definition kmem_cache_alloc : RM ptr := fun σ =>
  match kmem σ with
  | Some p :: k =>
    let ns := match nodes σ !! p with Some _ => nodes σ | None => <[p := radix_tree_node_ctor]> (nodes σ) end in
    Some (Some p, set_kmem k (set_nodes ns σ))
  | None :: k => Some (None, set_kmem k σ)
  | [] => Some (None, σ)
  end.

Definition radix_tree_node_free (p : ptr) : RM unit :=
  match p with Some a => modify (add_freed a) | None => SM_fail end.

Definition radix_tree_node_alloc : RM ptr :=
  ret ← kmem_cache_alloc;
  mask ← gets gfp_mask;
  rtp ← gets preloads;
  match ret with
  | Some _ => mret ret
  | None =>
    if decide (mask &u __GFP_WAIT = 0) then
      match rtp with
      | a :: rest => modify (set_preloads rest);; mret (Some a)
      | [] => mret None
      end
    else mret None
  end.

(** The [while] loop of [radix_tree_preload]; a round adds one node to the pool. *)
Fixpoint preload_loop (fuel : nat) : RM Z :=
  match fuel with
  | O => SM_fail
  | S fuel =>
    rtp ← gets preloads;
    if decide (length rtp < RADIX_TREE_MAX_PATH)%nat then
      modify (add_preempt (-1));;
      node ← kmem_cache_alloc;
      match node with
      | None => mret (- ENOMEM)
      | Some a =>
        modify (add_preempt 1);;
        rtp ← gets preloads;
        (if decide (length rtp < RADIX_TREE_MAX_PATH)%nat
         then modify (set_preloads (a :: rtp)) else modify (add_freed a));;
        preload_loop fuel
      end
    else mret 0
  end.

Definition radix_tree_preload : RM Z :=
  modify (add_preempt 1);; preload_loop (S RADIX_TREE_MAX_PATH).

Definition radix_tree_preload_end : RM unit := modify (add_preempt (-1)).

(** ** Tags *)

Definition tag_set (p : ptr) (tag offset : Z) : RM unit :=
  ws ← get_tags p tag;
  b ← lift (test_bit offset ws);
  if decide (b = 0) then ws' ← lift (__set_bit offset ws); set_tags p tag ws' else mret tt.

Definition tag_clear (p : ptr) (tag offset : Z) : RM unit :=
  ws ← get_tags p tag;
  ws' ← lift (__clear_bit offset ws);
  set_tags p tag ws'.

Definition tag_get (p : ptr) (tag offset : Z) : RM bool :=
  ws ← get_tags p tag;
  b ← lift (test_bit offset ws);
  mret (bool_decide (b <> 0)).

(** [for (idx = 0; idx < RADIX_TREE_TAG_LONGS; idx++) if (node->tags[tag][idx]) ...] *)
Definition any_tag (p : ptr) (tag : Z) : RM bool :=
  ws ← get_tags p tag;
  mret (existsb (fun w => bool_decide (w <> 0)) ws).

(** ** Heights *)

Definition __maxindex (height : nat) : Z :=
  let tmp := Z.of_nat height *u RADIX_TREE_MAP_SHIFT in
  if decide (RADIX_TREE_INDEX_BITS <= tmp) then ULONG_ONES
  else (ULONG_ONES >>u (RADIX_TREE_INDEX_BITS - tmp - 1)) >>u 1.

(** [radix_tree_init_maxindex] *)
Definition height_to_maxindex : list Z := __maxindex <$> seq 0 RADIX_TREE_MAX_PATH.

Definition radix_tree_maxindex (height : nat) : option Z := height_to_maxindex !! height.

Definition top_shift (height : nat) : Z := (Z.of_nat height -u 1) *u RADIX_TREE_MAP_SHIFT.
Definition offset_at (index shift : Z) : Z := (index >>u shift) &u RADIX_TREE_MAP_MASK.

(** [while (index > radix_tree_maxindex(height)) height++]; the table ends the search. *)
Fixpoint extend_height (fuel : nat) (index : Z) (height : nat) : option nat :=
  match fuel with
  | O => None
  | S fuel =>
    max ← radix_tree_maxindex height;
    if decide (max < index) then extend_height fuel index (S height) else Some height
  end.

Definition propagate_tag (p : ptr) (tag : Z) (b : bool) : RM unit :=
  if b then tag_set p tag 0 else mret tt.

(** The [do ... while (height > root->height)] loop of [radix_tree_extend]. *)
Fixpoint extend_loop (fuel h : nat) (t0 t1 : bool) : RM Z :=
  match fuel with
  | O => SM_fail
  | S fuel =>
    node ← radix_tree_node_alloc;
    match node with
    | None => mret (- ENOMEM)
    | Some _ =>
      r ← gets rnode;
      set_slot node 0 r;;
      propagate_tag node 0 t0;;
      propagate_tag node 1 t1;;
      set_count node 1;;
      modify (set_rnode node);;
      h' ← gets height;
      modify (set_height (S h'));;
      if decide (S h' < h)%nat then extend_loop fuel h t0 t1 else mret 0
    end
  end.

Definition radix_tree_extend (index : Z) : RM Z :=
  h' ← gets height;
  h ← lift (extend_height (S RADIX_TREE_MAX_PATH) index (S h'));
  r ← gets rnode;
  match r with
  | None => modify (set_height h);; mret 0
  | Some _ =>
    t0 ← any_tag r 0;
    t1 ← any_tag r 1;
    extend_loop RADIX_TREE_MAX_PATH h t0 t1
  end.

(** ** Insertion *)

(** The [while (height > 0)] loop: the error, or [node], [offset] and [slot] at the end. *)
Fixpoint insert_loop (height : nat) (index shift : Z) (node : ptr) (offset : Z) (slot : ptr)
    : RM (Z + ptr * Z * ptr) :=
  match height with
  | O => mret (inr (node, offset, slot))
  | S height =>
    slot ← match slot with
           | Some _ => mret slot
           | None =>
             new ← radix_tree_node_alloc;
             match new with
             | None => mret None
             | Some _ =>
               match node with
               | Some _ =>
                 set_slot node offset new;;
                 c ← get_count node;
                 set_count node (c +u 1)
               | None => modify (set_rnode new)
               end;;
               mret new
             end
           end;
    match slot with
    | None => mret (inl (- ENOMEM))
    | Some _ =>
      let offset := offset_at index shift in
      next ← get_slot slot offset;
      insert_loop height index (shift -u RADIX_TREE_MAP_SHIFT) slot offset next
    end
  end.

Definition radix_tree_insert (index : Z) (item : ptr) : RM Z :=
  h ← gets height;
  r ← gets rnode;
  max ← lift (radix_tree_maxindex h);
  error ← (if bool_decide (index = 0) && bool_decide (r = None) || bool_decide (max < index)
           then radix_tree_extend index else mret 0);
  if decide (error <> 0) then mret error else
  slot ← gets rnode;
  h ← gets height;
  res ← insert_loop h index (top_shift h) None 0 slot;
  match res with
  | inl error => mret error
  | inr (node, offset, Some _) => mret (- EEXIST)
  | inr (node, offset, None) =>
    match node with
    | Some _ =>
      c ← get_count node;
      set_count node (c +u 1);;
      set_slot node offset item;;
      b ← tag_get node 0 offset; BUG_ON b;;
      b ← tag_get node 1 offset; BUG_ON b;;
      mret 0
    | None => modify (set_rnode item);; mret 0
    end
  end.

(** ** Lookup *)

(** The address of a slot: [&root->rnode] or [node->slots + i]. *)
Inductive slot_addr := RootSlot | NodeSlot (p : loc) (i : Z).

(** [*slot] *)
Definition read_slot (a : slot_addr) : RM ptr :=
  match a with RootSlot => gets rnode | NodeSlot p i => get_slot (Some p) i end.

Fixpoint lookup_slot_loop (height : nat) (index shift : Z) (slot : slot_addr) : RM (option slot_addr) :=
  match height with
  | O => mret (Some slot)
  | S height =>
    v ← read_slot slot;
    match v with
    | None => mret None
    | Some p =>
      lookup_slot_loop height index (shift -u RADIX_TREE_MAP_SHIFT) (NodeSlot p (offset_at index shift))
    end
  end.

Definition __lookup_slot (index : Z) : RM (option slot_addr) :=
  h ← gets height;
  max ← lift (radix_tree_maxindex h);
  if decide (max < index) then mret None
  else lookup_slot_loop h index (top_shift h) RootSlot.

Definition radix_tree_lookup_slot (index : Z) : RM (option slot_addr) := __lookup_slot index.

Definition radix_tree_lookup (index : Z) : RM ptr :=
  slot ← __lookup_slot index;
  match slot with Some a => read_slot a | None => mret None end.

(** ** Tagging *)

Fixpoint tag_set_loop (height : nat) (index shift tag : Z) (slot : ptr) : RM ptr :=
  match height with
  | O => mret slot
  | S height =>
    let offset := offset_at index shift in
    tag_set slot tag offset;;
    slot ← get_slot slot offset;
    BUG_ON (bool_decide (slot = None));;
    tag_set_loop height index (shift -u RADIX_TREE_MAP_SHIFT) tag slot
  end.

Definition radix_tree_tag_set (index tag : Z) : RM ptr :=
  h ← gets height;
  max ← lift (radix_tree_maxindex h);
  if decide (max < index) then mret None
  else slot ← gets rnode; tag_set_loop h index (top_shift h) tag slot.

(** [path]: the entries after [path[0]], whose [node] is [NULL], the last one first.  The
    array has [RADIX_TREE_MAX_PATH] entries. *)
Definition rpath : Type := list (ptr * Z).

Definition push_path (p : ptr) (offset : Z) (path : rpath) : option rpath :=
  if decide (length path + 1 < RADIX_TREE_MAX_PATH)%nat then Some ((p, offset) :: path) else None.

(** The walk from the root down: [None] when a node on the way is missing. *)
Fixpoint walk_path (height : nat) (index shift : Z) (slot : ptr) (path : rpath) : RM (option (rpath * ptr)) :=
  match height with
  | O => mret (Some (path, slot))
  | S height =>
    match slot with
    | None => mret None
    | Some _ =>
      let offset := offset_at index shift in
      path ← lift (push_path slot offset path);
      next ← get_slot slot offset;
      walk_path height index (shift -u RADIX_TREE_MAP_SHIFT) next path
    end
  end.

Fixpoint tag_clear_loop (tag : Z) (path : rpath) : RM unit :=
  match path with
  | [] => SM_fail
  | (p, offset) :: rest =>
    tag_clear p tag offset;;
    b ← any_tag p tag;
    if b : bool then mret tt else
    match rest with [] => mret tt | _ => tag_clear_loop tag rest end
  end.

Definition radix_tree_tag_clear (index tag : Z) : RM ptr :=
  h ← gets height;
  max ← lift (radix_tree_maxindex h);
  if decide (max < index) then mret None
  else
    slot ← gets rnode;
    w ← walk_path h index (top_shift h) slot [];
    match w with
    | None | Some (_, None) => mret None
    | Some (path, Some ret) => tag_clear_loop tag path;; mret (Some ret)
    end.

Definition radix_tree_tagged (tag : Z) : RM Z :=
  r ← gets rnode;
  match r with
  | None => mret 0
  | Some _ => b ← any_tag r tag; mret (Z.b2z b)
  end.

(** ** Deletion *)

(** One tag in one round: [tags[tag]] and [nr_cleared_tags]. *)
Definition delete_tag (p : ptr) (offset tag : Z) (kept : bool) (nr : Z) : RM (bool * Z) :=
  if kept then mret (kept, nr) else
  tag_clear p tag offset;;
  b ← any_tag p tag;
  mret (if b : bool then (true, nr - 1) else (false, nr)).

Fixpoint delete_tags_loop (path : rpath) (t0 t1 : bool) : RM unit :=
  match path with
  | [] => SM_fail
  | (p, offset) :: rest =>
    '(t0, nr) ← delete_tag p offset 0 t0 RADIX_TREE_TAGS;
    '(t1, nr) ← delete_tag p offset 1 t1 nr;
    match rest with
    | [] => mret tt
    | _ => if decide (nr <> 0) then delete_tags_loop rest t0 t1 else mret tt
    end
  end.

Fixpoint delete_free_loop (path : rpath) : RM unit :=
  match path with
  | [] => modify (set_rnode None);; modify (set_height 0)
  | (p, offset) :: rest =>
    set_slot p offset None;;
    c ← get_count p;
    set_count p (c -u 1);;
    if decide (c -u 1 <> 0) then mret tt
    else radix_tree_node_free p;; delete_free_loop rest
  end.

Definition radix_tree_delete (index : Z) : RM ptr :=
  h ← gets height;
  max ← lift (radix_tree_maxindex h);
  if decide (max < index) then mret None
  else
    slot ← gets rnode;
    w ← walk_path h index (top_shift h) slot [];
    match w with
    | None | Some (_, None) => mret None
    | Some (path, Some ret) =>
      delete_tags_loop path false false;;
      delete_free_loop path;;
      mret (Some ret)
    end.

(** ** Gang lookup *)

(** [index &= ~((1UL << shift) - 1); index += 1UL << shift] *)
Definition next_chunk (index shift : Z) : Z := (index &u not32 ((1 <<u shift) -u 1)) +u (1 <<u shift).

(** The search of a level for a slot that [hit] accepts, from [i] on, with [n] slots left:
    the slot, or [None] for the jump to [out], and [index]. *)
Fixpoint scan_level (hit : Z -> RM bool) (n : nat) (i index shift : Z) : RM (option Z * Z) :=
  match n with
  | O => mret (None, index)
  | S n =>
    b ← hit i;
    if b : bool then mret (Some i, index) else
    let index := next_chunk index shift in
    if decide (index = 0) then mret (None, index)
    else scan_level hit n (i + 1) index shift
  end.

(** The bottom level: [results] so far and the new [index]. *)
Fixpoint grab_items (hit : Z -> RM bool) (slot : ptr) (n : nat) (i index max_items : Z) (results : list ptr)
    : RM (list ptr * Z) :=
  match n with
  | O => mret (results, index)
  | S n =>
    let index := index +u 1 in
    b ← hit i;
    if b : bool then
      x ← get_slot slot i;
      let results := results ++ [x] in
      if decide (zlen results = max_items) then mret (results, index)
      else grab_items hit slot n (i + 1) index max_items results
    else grab_items hit slot n (i + 1) index max_items results
  end.

Definition left_from (i : Z) : nat := Z.to_nat (RADIX_TREE_MAP_SIZE - i).

(** [slot->slots[i] != NULL] *)
Definition slot_used (slot : ptr) (i : Z) : RM bool := x ← get_slot slot i; mret (bool_decide (x <> None)).

(** [tag_get(slot, tag, i)] with the [BUG_ON] that follows when it is set. *)
Definition slot_tagged (tag : Z) (slot : ptr) (i : Z) : RM bool :=
  b ← tag_get slot tag i;
  if b : bool then x ← get_slot slot i; BUG_ON (bool_decide (x = None));; mret true else mret false.

(** The [for ( ; height > 1; height--)] loop and what follows it. *)
Fixpoint __lookup_loop (height : nat) (index shift max_items : Z) (slot : ptr) : RM (list ptr * Z) :=
  match height with
  | S (S _ as height) =>
    let i := offset_at index shift in
    '(found, index) ← scan_level (slot_used slot) (left_from i) i index shift;
    match found with
    | None => mret ([], index)
    | Some i =>
      next ← get_slot slot i;
      __lookup_loop height index (shift -u RADIX_TREE_MAP_SHIFT) max_items next
    end
  | _ =>
    let i := index &u RADIX_TREE_MAP_MASK in
    grab_items (slot_used slot) slot (left_from i) i index max_items []
  end.

Definition __lookup (index max_items : Z) : RM (list ptr * Z) :=
  h ← gets height;
  if decide (h = O) then mret ([], index)
  else slot ← gets rnode; __lookup_loop h index (top_shift h) max_items slot.

(** The [while (height > 0)] loop of [__lookup_tag]. *)
Fixpoint __lookup_tag_loop (height : nat) (index shift max_items tag : Z) (slot : ptr) : RM (list ptr * Z) :=
  match height with
  | O => mret ([], index)
  | S height =>
    let i := offset_at index shift in
    '(found, index) ← scan_level (slot_tagged tag slot) (left_from i) i index shift;
    match found with
    | None => mret ([], index)
    | Some i =>
      if decide (height = O) then
        let j := index &u RADIX_TREE_MAP_MASK in
        grab_items (slot_tagged tag slot) slot (left_from j) j index max_items []
      else
        next ← get_slot slot i;
        __lookup_tag_loop height index (shift -u RADIX_TREE_MAP_SHIFT) max_items tag next
    end
  end.

Definition __lookup_tag (tag index max_items : Z) : RM (list ptr * Z) :=
  h ← gets height;
  slot ← gets rnode;
  __lookup_tag_loop h index (top_shift h) max_items tag slot.

(** The [while (ret < max_items)] loop of the two gang lookups; [ret] is the number of
    [results].  Every round that does not end the loop leaves at least one more node behind
    it, so that one round per node and a last one are enough. *)
Fixpoint gang_loop (look : Z -> Z -> RM (list ptr * Z)) (fuel : nat) (max_index cur_index max_items : Z)
    (results : list ptr) : RM (list ptr) :=
  if decide (zlen results < max_items) then
    if decide (max_index < cur_index) then mret results else
    match fuel with
    | O => SM_fail
    | S fuel =>
      '(found, next_index) ← look cur_index (max_items - zlen results);
      let results := results ++ found in
      if decide (next_index = 0) then mret results
      else gang_loop look fuel max_index next_index max_items results
    end
  else mret results.

Definition radix_tree_gang_lookup (first_index max_items : Z) : RM (list ptr) :=
  h ← gets height;
  max_index ← lift (radix_tree_maxindex h);
  ns ← gets nodes;
  gang_loop __lookup (S (size ns)) max_index first_index max_items [].

Definition radix_tree_gang_lookup_tag (first_index max_items tag : Z) : RM (list ptr) :=
  h ← gets height;
  max_index ← lift (radix_tree_maxindex h);
  ns ← gets nodes;
  gang_loop (__lookup_tag tag) (S (size ns)) max_index first_index max_items [].

End Radix.
