(* ===== verification/RadixTree.v ===== *)
(** The shape of the radix tree.

    A ghost map [E] names what is at each position of the tree: position [(l, q)] stands
    for the keys [k] with [k / 64^l = q], so that [(0, k)] is the item of key [k], and
    [(l, q)] for [l > 0] is the node of level [l] for those keys; the slots of that node
    are the positions [(l - 1, 64 q + i)].  Levels count from the leaves, and therefore a
    tree that grows keeps all its positions. *)
From Stdlib Require Import ZArith Lia.
From stdpp Require Import base numbers list list_numbers option gmap.
From S2P Require Import Prelude Bitops Radix.

Local Open Scope Z_scope.
Local Open Scope kernel_scope.

Import Radix.

(** * Keys and levels *)

(** The number of keys below a slot of a node of level [l + 1]. *)
Definition span (l : nat) : Z := 64 ^ Z.of_nat l.

(** The position of key [k] at level [l]. *)
Definition at_level (k : Z) (l : nat) : nat * Z := (l, k / span l).

(** The slot of key [k] in its node of level [l + 1]. *)
Definition digit (k : Z) (l : nat) : Z := (k / span l) `mod` 64.

Lemma span_pos l : 0 < span l.
Proof. apply Z.pow_pos_nonneg; lia. Qed.
Lemma span_S l : span (S l) = 64 * span l.
Proof. unfold span. rewrite Nat2Z.inj_succ, Z.pow_succ_r by lia. done. Qed.
Lemma span_0 : span 0 = 1.
Proof. done. Qed.
Lemma span_shift l : span l = 2 ^ (6 * Z.of_nat l).
Proof. unfold span. rewrite Z.pow_mul_r by lia. done. Qed.

Lemma div_span_S k l : k / span (S l) = k / span l / 64.
Proof. pose proof (span_pos l). rewrite span_S, Z.mul_comm, Z.div_div by lia. done. Qed.

Lemma digit_range k l : 0 <= digit k l < 64.
Proof. apply Z.mod_pos_bound. lia. Qed.

Lemma digit_child k l : 64 * (k / span (S l)) + digit k l = k / span l.
Proof. rewrite div_span_S. unfold digit. symmetry. apply Z.div_mod. lia. Qed.

Lemma div_span_0 k : k / span 0 = k.
Proof. rewrite span_0. apply Z.div_1_r. Qed.

Lemma child_eq q i q' i' :
  0 <= i < 64 -> 0 <= i' < 64 -> 64 * q + i = 64 * q' + i' -> q = q' /\ i = i'.
Proof. lia. Qed.

Lemma child_split q : q = 64 * (q / 64) + q `mod` 64.
Proof. apply Z.div_mod. lia. Qed.

Lemma kid_div q i : 0 <= i < 64 -> (64 * q + i) / 64 = q /\ (64 * q + i) `mod` 64 = i.
Proof.
  intros. split.
  - symmetry. apply (Z.div_unique _ _ _ i); lia.
  - symmetry. apply (Z.mod_unique _ _ q); lia.
Qed.

Lemma offset_at_digit k l : 0 <= k -> offset_at k (6 * Z.of_nat l) = digit k l.
Proof.
  intros. unfold offset_at, digit. change RADIX_TREE_MAP_MASK with (2^6 - 1).
  rewrite land_mask by lia. rewrite Z.shiftr_div_pow2, span_shift by lia. done.
Qed.

(** The variable [shift] when [h] levels are left. *)
Definition shift_ok (h : nat) (s : Z) : Prop := forall l, h = S l -> s = 6 * Z.of_nat l.

Lemma top_shift_ok h : (h <= 6)%nat -> shift_ok h (top_shift h).
Proof.
  intros Hh l ->. unfold top_shift, RADIX_TREE_MAP_SHIFT.
  rewrite (u32_small (_ - 1)), u32_small; unfold is_u32; lia.
Qed.

Lemma shift_ok_next l s : (l <= 5)%nat -> shift_ok (S l) s -> shift_ok l (s -u RADIX_TREE_MAP_SHIFT).
Proof.
  intros Hl Hs l' ->. rewrite (Hs _ eq_refl). unfold RADIX_TREE_MAP_SHIFT.
  rewrite u32_small; unfold is_u32; lia.
Qed.

Lemma maxindex_lookup h :
  (h <= 6)%nat -> exists m, radix_tree_maxindex h = Some m /\ 0 <= m < 2^32 /\
    forall k, is_u32 k -> (m < k <-> span h <= k).
Proof.
  intros Hh. unfold is_u32.
  do 7 (destruct h as [|h]; [eexists; split; [reflexivity|]; split; [vm_compute; intuition congruence|];
    intros k Hk; unfold span; vm_compute (64 ^ _); simpl (__maxindex _);
    match goal with |- context[__maxindex ?n] =>
      let v := eval vm_compute in (__maxindex n) in change (__maxindex n) with v end; lia |]).
  lia.
Qed.

Lemma maxindex_none h : (6 < h)%nat -> radix_tree_maxindex h = None.
Proof. intros Hh. apply lookup_ge_None. change (7 <= h)%nat. lia. Qed.

Lemma span_u32 k h : is_u32 k -> k < span h -> k / span h = 0.
Proof. intros [? ?] ?. apply Z.div_small. lia. Qed.

(** * Nodes *)

Definition used (x : ptr) : Z := match x with Some _ => 1 | None => 0 end.

Definition nslots (ss : list ptr) : Z := foldr (fun x a => used x + a) 0 ss.

Lemma nslots_cons x ss : nslots (x :: ss) = used x + nslots ss.
Proof. done. Qed.

Lemma nslots_bounds ss : 0 <= nslots ss <= zlen ss.
Proof.
  induction ss as [|[p|] ss IH]; rewrite ?nslots_cons; unfold zlen, used in *; simpl length; [done|lia..].
Qed.

Lemma nslots_insert ss i x y :
  ss !! i = Some y -> nslots (<[i := x]> ss) = nslots ss - used y + used x.
Proof.
  revert i. induction ss as [|z ss IH]; intros [|i] Hi; [done|done| |]; cbn in Hi.
  - simplify_eq. change (<[0%nat := x]> (y :: ss)) with (x :: ss). rewrite !nslots_cons. lia.
  - change (<[S i := x]> (z :: ss)) with (z :: <[i := x]> ss). rewrite !nslots_cons, (IH _ Hi). lia.
Qed.

Lemma nslots_zero ss : nslots ss = 0 -> Forall (fun x => x = None) ss.
Proof.
  induction ss as [|x ss IH]; rewrite ?nslots_cons; [constructor|]. pose proof (nslots_bounds ss).
  destruct x as [p|]; unfold used; [lia|]. intros. constructor; [done|]. apply IH. lia.
Qed.

(** The words of a tag hold the bits [B]. *)
Definition words_rep (B : Z -> Prop) (ws : list Z) : Prop :=
  bitmap_wf ws /\ length ws = 2%nat /\ forall i, 0 <= i < 64 -> bit_of ws i = true <-> B i.

(** The slots of a node hold the children [c] and its words the tag bits [b]; in a node at
    rest the count is the number of slots in use. *)
Record node_core (c : Z -> ptr) (b : Z -> Z -> Prop) (nd : radix_tree_node) : Prop := {
  nr_len : length (slots nd) = 64%nat;
  nr_slots : forall i, 0 <= i < 64 -> mem_get (slots nd) i = Some (c i);
  nr_ntags : length (tags nd) = 2%nat;
  nr_tags : forall t, 0 <= t < 2 -> exists ws, mem_get (tags nd) t = Some ws /\ words_rep (b t) ws
}.

Record node_rep (c : Z -> ptr) (b : Z -> Z -> Prop) (nd : radix_tree_node) : Prop := {
  nr_core : node_core c b nd;
  nr_count : count nd = nslots (slots nd)
}.

Lemma words_rep_ext B B' ws :
  (forall i, 0 <= i < 64 -> B i <-> B' i) -> words_rep B ws -> words_rep B' ws.
Proof. intros HB (? & ? & H). do 2 (split; [done|]). intros i Hi. rewrite H, HB by done. done. Qed.

Lemma node_core_ext c c' b b' nd :
  (forall i, 0 <= i < 64 -> c i = c' i) ->
  (forall t i, 0 <= t < 2 -> 0 <= i < 64 -> b t i <-> b' t i) ->
  node_core c b nd -> node_core c' b' nd.
Proof.
  intros Hc Hb [? Hs ? Ht]. split; [done| |done|].
  - intros i Hi. rewrite <- Hc by done. auto.
  - intros t Ht'. destruct (Ht t Ht') as (ws & ? & ?). exists ws. split; [done|].
    eapply words_rep_ext; [|done]. auto.
Qed.

Lemma node_rep_ext c c' b b' nd :
  (forall i, 0 <= i < 64 -> c i = c' i) ->
  (forall t i, 0 <= t < 2 -> 0 <= i < 64 -> b t i <-> b' t i) ->
  node_rep c b nd -> node_rep c' b' nd.
Proof. intros Hc Hb [? ?]. split; [|done]. by eapply node_core_ext. Qed.

(** The words of a node change, but not its slots. *)
Lemma node_rep_words c b b' nd nd' :
  node_rep c b nd -> node_core c b' nd' -> slots nd' = slots nd -> count nd' = count nd -> node_rep c b' nd'.
Proof. intros [_ Hc] ? Hs Hn. split; [done|]. by rewrite Hn, Hs. Qed.

(** A slot gets a new value. *)
Lemma node_core_set c b nd i x n :
  node_core c b nd -> 0 <= i < 64 ->
  node_core (fun j => if decide (j = i) then x else c j) b (Node n (<[Z.to_nat i := x]> (slots nd)) (tags nd)).
Proof.
  intros [Hl Hs Hn Ht] Hi. split; cbn [slots tags]; [|idtac|done|done].
  - by rewrite length_insert.
  - intros j Hj. unfold mem_get. rewrite decide_True by lia. case_decide.
    + subst j. rewrite list_lookup_insert_eq by lia. done.
    + rewrite list_lookup_insert_ne by lia. rewrite <- Hs by done. unfold mem_get. rewrite decide_True by lia. done.
Qed.

Lemma node_core_slot c b nd i : node_core c b nd -> 0 <= i < 64 -> slots nd !! Z.to_nat i = Some (c i).
Proof.
  intros Hc Hi. rewrite <- (nr_slots _ _ _ Hc i Hi). unfold mem_get. by rewrite decide_True by lia.
Qed.

Lemma words_bound B ws i : words_rep B ws -> 0 <= i < 64 -> 0 <= i < 32 * zlen ws.
Proof. intros (_ & Hl & _). unfold zlen. lia. Qed.

Lemma words_set B ws i :
  words_rep B ws -> 0 <= i < 64 ->
  exists ws', __set_bit i ws = Some ws' /\ words_rep (fun j => j = i \/ B j) ws'.
Proof.
  intros Hw Hi. pose proof (words_bound _ _ _ Hw Hi) as Hr. destruct Hw as (Hwf & Hl & Hb).
  destruct (__set_bit_spec ws i Hwf Hr) as (ws' & -> & ? & ? & H). exists ws'. split; [done|].
  split; [done|]. split; [lia|]. intros j Hj. rewrite H by lia. case_decide; [naive_solver|].
  rewrite Hb by done. naive_solver.
Qed.

Lemma words_clear B ws i :
  words_rep B ws -> 0 <= i < 64 ->
  exists ws', __clear_bit i ws = Some ws' /\ words_rep (fun j => j <> i /\ B j) ws'.
Proof.
  intros Hw Hi. pose proof (words_bound _ _ _ Hw Hi) as Hr. destruct Hw as (Hwf & Hl & Hb).
  destruct (__clear_bit_spec ws i Hwf Hr) as (ws' & -> & ? & ? & H). exists ws'. split; [done|].
  split; [done|]. split; [lia|]. intros j Hj. rewrite H by lia. case_decide; [naive_solver|].
  rewrite Hb by done. naive_solver.
Qed.

Lemma words_test B ws i :
  words_rep B ws -> 0 <= i < 64 ->
  exists x, test_bit i ws = Some (Z.b2z x) /\ (x = true <-> B i).
Proof.
  intros Hw Hi. pose proof (words_bound _ _ _ Hw Hi) as Hr. destruct Hw as (Hwf & Hl & Hb).
  exists (bit_of ws i). rewrite test_bit_spec by done. split; [done|]. by apply Hb.
Qed.

Lemma bit_of_two w0 w1 i :
  0 <= i < 64 -> bit_of [w0; w1] i = Z.testbit (if decide (i < 32) then w0 else w1) (i `mod` 32).
Proof.
  intros Hi. unfold bit_of. rewrite decide_False by lia. f_equal. case_decide.
  - rewrite Z.div_small by lia. done.
  - replace (i `div` 32) with 1 by (apply (Z.div_unique _ _ _ (i - 32)); lia). done.
Qed.

Lemma words_any B ws :
  words_rep B ws -> existsb (fun w => bool_decide (w <> 0)) ws = true <-> exists i, 0 <= i < 64 /\ B i.
Proof.
  intros (Hwf & Hl & Hb). destruct ws as [|w0 [|w1 [|]]]; try done. clear Hl.
  apply Forall_cons in Hwf as [H0 Hwf]. apply Forall_cons in Hwf as [H1 _].
  cbn [existsb]. rewrite orb_false_r, orb_true_iff, !bool_decide_eq_true. split.
  - intros [Hne|Hne].
    + destruct (nonzero_bit w0 32) as (i & Hi & Hbit); [lia|done..|]. exists i. split; [lia|].
      apply Hb; [lia|]. rewrite bit_of_two, decide_True, Z.mod_small by lia. done.
    + destruct (nonzero_bit w1 32) as (i & Hi & Hbit); [lia|done..|]. exists (32 + i). split; [lia|].
      apply Hb; [lia|]. rewrite bit_of_two, decide_False by lia.
      replace ((32 + i) `mod` 32) with i by (apply (Z.mod_unique _ _ 1); lia). done.
  - intros (i & Hi & HB%Hb); [|done]. rewrite bit_of_two in HB by done.
    case_decide; [left|right]; intros ->; rewrite Z.testbit_0_l in HB; done.
Qed.

(** The words of a tag without any bit are zero. *)
Lemma words_none B ws : words_rep B ws -> (forall i, 0 <= i < 64 -> ~ B i) -> ws = [0; 0].
Proof.
  intros Hw HB. pose proof (words_any _ _ Hw) as Ha. destruct Hw as (_ & Hl & _).
  destruct ws as [|w0 [|w1 [|]]]; try done. cbn [existsb] in Ha.
  assert (Hf : bool_decide (w0 <> 0) || (bool_decide (w1 <> 0) || false) = false).
  { apply not_true_iff_false. rewrite Ha. intros (i & ? & ?). by eapply HB. }
  rewrite orb_false_r, orb_false_iff, !bool_decide_eq_false in Hf.
  destruct Hf as [H0 H1]. f_equal; [lia|]. f_equal. lia.
Qed.

Lemma ctor_rep : node_rep (fun _ => None) (fun _ _ => False) radix_tree_node_ctor.
Proof.
  split; [|done]. split; [done| |done|].
  - intros i Hi. unfold mem_get. rewrite decide_True by lia. apply lookup_replicate_2. change (Z.to_nat RADIX_TREE_MAP_SIZE) with 64%nat. lia.
  - intros t Ht. exists [0; 0]. split.
    + unfold mem_get. rewrite decide_True by lia. apply lookup_replicate_2. change (Z.to_nat RADIX_TREE_TAGS) with 2%nat. lia.
    + split; [repeat constructor; lia|]. split; [done|]. intros i Hi. rewrite bit_of_two by done.
      case_decide; by rewrite Z.testbit_0_l.
Qed.

(** A node without children and tags is as the constructor left it. *)
Lemma ctor_unique c b nd :
  node_rep c b nd -> count nd = 0 -> (forall t i, 0 <= t < 2 -> 0 <= i < 64 -> ~ b t i) ->
  nd = radix_tree_node_ctor.
Proof.
  intros [[Hl _ Hn Ht] Hc] H0 Hb. destruct nd as [cn ss ts]. cbn [count slots tags] in *. rewrite H0 in Hc |- *.
  unfold radix_tree_node_ctor. f_equal.
  - symmetry in Hc. apply nslots_zero in Hc. change (Z.to_nat RADIX_TREE_MAP_SIZE) with 64%nat.
    rewrite <- Hl. clear - Hc. induction Hc as [|x ss -> _ IH]; [done|]. cbn [length replicate]. by f_equal.
  - destruct ts as [|w0 [|w1 [|]]]; try done.
    destruct (Ht 0) as (x0 & E0 & H0'); [lia|]. destruct (Ht 1) as (x1 & E1 & H1'); [lia|].
    assert (x0 = w0) as -> by (change (Some w0 = Some x0) in E0; congruence).
    assert (x1 = w1) as -> by (change (Some w1 = Some x1) in E1; congruence).
    rewrite (words_none _ w0 H0') by (intros; apply Hb; lia).
    rewrite (words_none _ w1 H1') by (intros; apply Hb; lia). done.
Qed.

(** * The tree *)

Abbreviation emap := (gmap (nat * Z) loc).

(** The tagged keys, as the nodes of each level see them: [TT l] is what the nodes of
    level [l + 1] record.  Outside an operation all levels agree. *)
Definition tmap : Type := nat -> Z -> gset Z.

Definition kids (E : emap) (l : nat) (q i : Z) : ptr := E !! (l, 64 * q + i).
Definition tag_bits (TT : tmap) (l : nat) (q t i : Z) : Prop :=
  exists k, k ∈ TT l t /\ k / span l = 64 * q + i.
Definition node_ok (E : emap) (TT : tmap) (l : nat) (q : Z) : radix_tree_node -> Prop :=
  node_rep (kids E l q) (tag_bits TT l q).

Definition is_node (E : emap) (p : loc) : Prop := exists l q, E !! (S l, q) = Some p.

Global Instance is_node_dec (E : emap) p : Decision (is_node E p).
Proof.
  refine (cast_if (decide (Exists (fun x => x.1.1 <> O /\ x.2 = p) (map_to_list E)))).
  - abstract (apply Exists_exists in e as ([[[|l] q] y] & Hin & Hne & Hy); [done|];
      cbn in Hy; subst y; apply elem_of_map_to_list in Hin; by exists l, q).
  - abstract (intros (l & q & Hp); apply n, Exists_exists; exists ((S l, q), p); split; [|done];
      by apply elem_of_map_to_list).
Defined.

Record rt_inv (h : nat) (r : ptr) (ns : gmap loc radix_tree_node) (E : emap) (TT : tmap) : Prop := {
  ri_height : (h <= 6)%nat;
  ri_root : r = E !! (h, 0);
  ri_zero : h = O -> r = None;
  ri_range : forall l q p, E !! (l, q) = Some p ->
    (l <= h)%nat /\ 0 <= q /\ q * span l < 2^32 /\ (l = h -> q = 0);
  ri_parent : forall l q p, E !! (l, q) = Some p -> (l < h)%nat -> is_Some (E !! (S l, q / 64));
  ri_node : forall l q p, E !! (S l, q) = Some p -> exists nd, ns !! p = Some nd /\ node_ok E TT l q nd;
  ri_inj : forall l q l' q' p, E !! (S l, q) = Some p -> E !! (S l', q') = Some p -> l = l' /\ q = q';
  ri_tags : forall l t k, 0 <= t < 2 -> k ∈ TT l t -> is_Some (E !! (0%nat, k))
}.

Lemma at_level_0 k : at_level k 0 = (0%nat, k).
Proof. unfold at_level. by rewrite div_span_0. Qed.

Lemma at_level_mul l q : at_level (q * span l) l = (l, q).
Proof. unfold at_level. rewrite Z.div_mul; [done|]. pose proof (span_pos l). lia. Qed.

Section Inv.
Context {h : nat} {r : ptr} {ns : gmap loc radix_tree_node} {E : emap} {TT : tmap}.
Context (HI : rt_inv h r ns E TT).

(** What is at a position has all its ancestors. *)
Lemma ancestor k l l' :
  is_Some (E !! at_level k l) -> (l <= l' <= h)%nat -> is_Some (E !! at_level k l').
Proof.
  intros Hl [Hle Hh]. revert Hh. induction Hle as [|l' Hle IH]; [done|]. intros Hh.
  destruct IH as [p Hp]; [lia|]. unfold at_level in *. rewrite div_span_S.
  eapply ri_parent; [exact HI|exact Hp|lia].
Qed.

Lemma below_none k l l' : E !! at_level k l' = None -> (l <= l' <= h)%nat -> E !! at_level k l = None.
Proof.
  intros Hn Hle. apply eq_None_not_Some. intros Hs. apply (ancestor k l l') in Hs; [|done].
  rewrite Hn in Hs. by destruct Hs.
Qed.

Lemma key_range k : is_Some (E !! (0%nat, k)) -> is_u32 k /\ k < span h.
Proof.
  intros Hs. rewrite <- at_level_0 in Hs. pose proof Hs as [p Hp].
  rewrite at_level_0 in Hp. apply (ri_range _ _ _ _ _ HI) in Hp as (_ & ? & Hlt & _).
  rewrite span_0 in Hlt. split; [unfold is_u32; lia|].
  apply (ancestor k 0 h) in Hs as [r' Hr]; [|lia]. apply (ri_range _ _ _ _ _ HI) in Hr as (_ & _ & _ & Hz).
  specialize (Hz eq_refl). pose proof (span_pos h). apply Z.div_small_iff in Hz; lia.
Qed.

Lemma key_high k : span h <= k -> E !! (0%nat, k) = None.
Proof. intros Hk. apply eq_None_not_Some. intros Hs. apply key_range in Hs as [_ ?]. lia. Qed.

Lemma root_none_empty : r = None -> E = ∅.
Proof.
  intros Hr. apply map_empty. intros [l q]. apply eq_None_not_Some. intros Hs.
  rewrite <- at_level_mul in Hs. pose proof Hs as [p Hp]. rewrite at_level_mul in Hp.
  apply (ri_range _ _ _ _ _ HI) in Hp as (Hl & _).
  apply (ancestor _ l h) in Hs as [p' Hp']; [|lia].
  pose proof (ri_range _ _ _ _ _ HI _ _ _ Hp') as (_ & _ & _ & Hz). specialize (Hz eq_refl).
  unfold at_level in Hp'. rewrite Hz, <- (ri_root _ _ _ _ _ HI), Hr in Hp'. done.
Qed.

Lemma node_at l q p : E !! (S l, q) = Some p -> exists nd, ns !! p = Some nd /\ node_ok E TT l q nd.
Proof. apply (ri_node _ _ _ _ _ HI). Qed.

(** A tagged key below a position has something at that position. *)
Lemma tagged_above l0 t k l :
  0 <= t < 2 -> k ∈ TT l0 t -> (l <= h)%nat -> is_Some (E !! at_level k l).
Proof.
  intros Ht Hk Hl. apply (ri_tags _ _ _ _ _ HI) in Hk; [|done]. rewrite <- at_level_0 in Hk.
  apply (ancestor k 0 l); [done|lia].
Qed.

(** A position that is free has neither children nor tags. *)
Lemma free_kids l q i : (l < h)%nat -> E !! (S l, q) = None -> 0 <= i < 64 -> kids E l q i = None.
Proof.
  intros Hl Hn Hi. apply eq_None_not_Some. intros [p Hp].
  apply (ri_parent _ _ _ _ _ HI) in Hp; [|done]. rewrite (proj1 (kid_div q i Hi)), Hn in Hp. by destruct Hp.
Qed.

Lemma free_bits l q t i :
  (l < h)%nat -> E !! (S l, q) = None -> 0 <= t < 2 -> 0 <= i < 64 -> ~ tag_bits TT l q t i.
Proof.
  intros Hl Hn Ht Hi (k & Hk & Hq). apply (tagged_above _ _ _ (S l) Ht) in Hk; [|lia].
  unfold at_level in Hk. rewrite div_span_S, Hq, (proj1 (kid_div q i Hi)), Hn in Hk. by destruct Hk.
Qed.
End Inv.

(** The invariant does not look at tag sets that give the same bits. *)
Lemma rt_inv_tags h r ns E TT TT' :
  rt_inv h r ns E TT ->
  (forall l q p, E !! (S l, q) = Some p ->
     forall t i, 0 <= t < 2 -> 0 <= i < 64 -> tag_bits TT l q t i <-> tag_bits TT' l q t i) ->
  (forall l t k, 0 <= t < 2 -> k ∈ TT' l t -> is_Some (E !! (0%nat, k))) ->
  rt_inv h r ns E TT'.
Proof.
  intros HI Hb Ht. destruct HI. split; try done.
  intros l q p Hp. destruct (ri_node0 _ _ _ Hp) as (nd & ? & Hok). exists nd. split; [done|].
  eapply node_rep_ext; [reflexivity| |exact Hok]. eauto.
Qed.

(** The node [nd] with a new slot in use, or one less. *)
Definition with_slot (nd : radix_tree_node) (i : Z) (x : ptr) (d : Z) : radix_tree_node :=
  Node (count nd + d) (<[Z.to_nat i := x]> (slots nd)) (tags nd).

Lemma node_rep_with c b nd i x d :
  node_rep c b nd -> 0 <= i < 64 -> d = used x - used (c i) ->
  node_rep (fun j => if decide (j = i) then x else c j) b (with_slot nd i x d).
Proof.
  intros [Hr Hc] Hi ->. split; [by apply node_core_set|]. cbn [count slots with_slot].
  rewrite (nslots_insert _ _ _ _ (node_core_slot _ _ _ _ Hr Hi)), Hc. lia.
Qed.

(** The slots of the other nodes do not see a position. *)
Lemma kids_insert_ne (E : emap) l q x l' q' :
  (l', q') <> (l, q / 64) -> forall i, 0 <= i < 64 -> kids E l' q' i = kids (<[(l, q) := x]> E) l' q' i.
Proof.
  intros Hne i Hi. unfold kids. rewrite lookup_insert_ne; [done|]. intros [= <- ->].
  apply Hne. f_equal. symmetry. by apply kid_div.
Qed.
Lemma kids_delete_ne (E : emap) l q l' q' :
  (l', q') <> (l, q / 64) -> forall i, 0 <= i < 64 -> kids E l' q' i = kids (delete (l, q) E) l' q' i.
Proof.
  intros Hne i Hi. unfold kids. rewrite lookup_delete_ne; [done|]. intros [= <- ->].
  apply Hne. f_equal. symmetry. by apply kid_div.
Qed.

(** Something new is put at a free position: a fresh node, or an item.  Its parent gets it
    in a slot, and at the top it becomes the root. *)
Section Add.
Context {h : nat} {r : ptr} {ns : gmap loc radix_tree_node} {E : emap} {TT : tmap}.
Context (HI : rt_inv h r ns E TT) (l : nat) (q : Z) (x : loc) (ns' : gmap loc radix_tree_node).
Context (Hfree : E !! (l, q) = None) (Hl : (l <= h)%nat) (Hh : h <> O).
Context (Hq : 0 <= q /\ q * span l < 2^32 /\ (l = h -> q = 0)).
Context (Hpar : (l < h)%nat -> exists p nd, E !! (S l, q / 64) = Some p /\ ns !! p = Some nd /\
          ns' !! p = Some (with_slot nd (q `mod` 64) (Some x) 1)).
Context (Hnew : l <> O -> ~ is_node E x /\ ns' !! x = Some radix_tree_node_ctor).
Context (Hrest : forall l' q' p, E !! (S l', q') = Some p -> (l', q') <> (l, q / 64) -> ns' !! p = ns !! p).

#[local] Abbreviation E' := (<[(l, q) := x]> E).

Lemma add_parent_node p nd :
  E !! (S l, q / 64) = Some p -> ns !! p = Some nd -> node_ok E TT l (q / 64) nd ->
  node_ok E' TT l (q / 64) (with_slot nd (q `mod` 64) (Some x) 1).
Proof.
  intros Hp Hnd Hok. pose proof (Z.mod_pos_bound q 64 ltac:(lia)) as Hm.
  eapply node_rep_ext; [| |apply (node_rep_with _ _ _ _ _ _ Hok Hm)]; [|done|].
  - intros i Hi. simpl. unfold kids. case_decide as Hc.
    + subst i. rewrite <- child_split, lookup_insert_eq. done.
    + rewrite lookup_insert_ne; [done|]. intros [= Hx]. apply Hc. rewrite Hx. symmetry. by apply kid_div.
  - unfold kids. rewrite <- child_split, Hfree. done.
Qed.

Lemma add_new_node l0 : l = S l0 -> node_ok E' TT l0 q radix_tree_node_ctor.
Proof.
  intros ->. eapply node_rep_ext; [| |apply ctor_rep].
  - intros i Hi. rewrite <- (kids_insert_ne E) by (done || (intros [=]; lia)).
    symmetry. eapply free_kids; [exact HI|lia|done|done].
  - intros t i Ht Hi. split; [done|]. intros Hb.
    eapply free_bits; [exact HI| |exact Hfree|exact Ht|exact Hi|exact Hb]. lia.
Qed.

Lemma rt_inv_add : rt_inv h (if decide (l = h) then Some x else r) ns' E' TT.
Proof.
  assert (Hnode : forall l1 q1 p, E' !! (S l1, q1) = Some p ->
    (l = S l1 /\ q1 = q /\ p = x) \/ ((l, q) <> (S l1, q1) /\ E !! (S l1, q1) = Some p)).
  { intros l1 q1 p. destruct (decide ((l, q) = (S l1, q1))) as [Heq|Hne].
    - rewrite Heq, lookup_insert_eq. intros [= ->]. injection Heq. auto.
    - rewrite lookup_insert_ne by done. auto. }
  split; [apply HI| |done|..].
  - case_decide as Hc.
    + destruct Hq as (_ & _ & Hz). rewrite (Hz Hc), Hc, lookup_insert_eq. done.
    + rewrite lookup_insert_ne by congruence. apply (ri_root _ _ _ _ _ HI).
  - intros l1 q1 p. destruct (decide ((l, q) = (l1, q1))) as [[= <- <-]|Hne].
    + intros _. naive_solver.
    + rewrite lookup_insert_ne by done. apply (ri_range _ _ _ _ _ HI).
  - intros l1 q1 p Hp Hlt.
    enough (is_Some (E !! (S l1, q1 / 64))) as Hs.
    { destruct (decide ((l, q) = (S l1, q1 / 64))) as [->|?];
        [rewrite lookup_insert_eq; eauto|by rewrite lookup_insert_ne]. }
    revert Hp. destruct (decide ((l, q) = (l1, q1))) as [[= <- <-]|Hne].
    + intros _. destruct (Hpar Hlt) as (p' & _ & -> & _). eauto.
    + rewrite lookup_insert_ne by done. intros Hp. by eapply (ri_parent _ _ _ _ _ HI).
  - intros l1 q1 p Hp. destruct (Hnode _ _ _ Hp) as [(Heq & -> & ->)|[Hne Hp']].
    + exists radix_tree_node_ctor. split; [apply Hnew; lia|]. by apply add_new_node.
    + destruct (decide ((l1, q1) = (l, q / 64))) as [[= -> ->]|Hne'].
      * assert (Hlt : (l < h)%nat) by (apply (ri_range _ _ _ _ _ HI) in Hp'; lia).
        destruct (Hpar Hlt) as (p' & nd & Hp'' & Hnd & Hnd'). simplify_eq.
        destruct (node_at HI _ _ _ Hp') as (nd' & ? & Hok). simplify_eq.
        eexists. split; [done|]. by eapply add_parent_node.
      * destruct (node_at HI _ _ _ Hp') as (nd & Hnd & Hok). exists nd.
        rewrite (Hrest _ _ _ Hp' Hne'). split; [done|].
        eapply node_rep_ext; [apply kids_insert_ne; exact Hne'|done|exact Hok].
  - intros l1 q1 l2 q2 p H1 H2.
    destruct (Hnode _ _ _ H1) as [(? & -> & ->)|[_ H1']], (Hnode _ _ _ H2) as [(? & -> & ?)|[_ H2']].
    + split; congruence.
    + exfalso. apply (proj1 (Hnew ltac:(lia))). by exists l2, q2.
    + subst. exfalso. apply (proj1 (Hnew ltac:(lia))). by exists l1, q1.
    + by apply (ri_inj _ _ _ _ _ HI _ _ _ _ p).
  - intros l1 t k Ht Hk. apply (ri_tags _ _ _ _ _ HI) in Hk as [p Hp]; [|done].
    destruct (decide ((l, q) = (0%nat, k))) as [->|?];
      [rewrite lookup_insert_eq; eauto|rewrite lookup_insert_ne by done; eauto].
Qed.
End Add.

(** What is at a position without children and tagged keys is taken away from its parent. *)
Section Remove.
Context {h : nat} {r : ptr} {ns : gmap loc radix_tree_node} {E : emap} {TT : tmap}.
Context (HI : rt_inv h r ns E TT) (l : nat) (q : Z) (x : loc) (ns' : gmap loc radix_tree_node).
Context (Hx : E !! (l, q) = Some x) (Hl : (l < h)%nat).
Context (Hkids : forall l0 i, l = S l0 -> 0 <= i < 64 -> kids E l0 q i = None).
Context (Htags : forall l0 t k, 0 <= t < 2 -> k ∈ TT l0 t -> k / span l <> q).
Context (Hpar : exists p nd, E !! (S l, q / 64) = Some p /\ ns !! p = Some nd /\
          ns' !! p = Some (with_slot nd (q `mod` 64) None (-1))).
Context (Hrest : forall l' q' p, E !! (S l', q') = Some p -> (l', q') <> (l, q / 64) -> ns' !! p = ns !! p).

#[local] Abbreviation E' := (delete (l, q) E).

Lemma rt_inv_remove : rt_inv h r ns' E' TT.
Proof.
  assert (Hsub : forall l1 q1 p, E' !! (l1, q1) = Some p -> (l, q) <> (l1, q1) /\ E !! (l1, q1) = Some p).
  { intros l1 q1 p. rewrite lookup_delete_Some. done. }
  split; [apply HI| |apply HI|..].
  - rewrite lookup_delete_ne by (intros [= -> ->]; lia). apply (ri_root _ _ _ _ _ HI).
  - intros l1 q1 p [_ Hp]%Hsub. by apply (ri_range _ _ _ _ _ HI) in Hp.
  - intros l1 q1 p [Hne Hp]%Hsub Hlt. rewrite lookup_delete_ne.
    + by eapply (ri_parent _ _ _ _ _ HI).
    + intros [= Hl1 Hq1]. pose proof (Hkids l1 _ Hl1 (Z.mod_pos_bound q1 64 ltac:(lia))) as Hk.
      unfold kids in Hk. rewrite Hq1, <- child_split in Hk. congruence.
  - intros l1 q1 p [Hne Hp]%Hsub. destruct (decide ((l1, q1) = (l, q / 64))) as [[= -> ->]|Hne'].
    + destruct Hpar as (p' & nd & Hp' & Hnd & Hnd'). assert (p' = p) as -> by congruence.
      destruct (node_at HI _ _ _ Hp) as (nd' & Hnd0 & Hok). assert (nd' = nd) as -> by congruence.
      eexists. split; [done|]. pose proof (Z.mod_pos_bound q 64 ltac:(lia)) as Hm.
      eapply node_rep_ext; [| |apply (node_rep_with _ _ _ _ _ _ Hok Hm)]; [|done|].
      * intros i Hi. simpl. unfold kids. case_decide as Hc.
        -- subst i. rewrite <- child_split, lookup_delete_eq. done.
        -- rewrite lookup_delete_ne; [done|]. intros [= Hz]. apply Hc. rewrite Hz. symmetry. by apply kid_div.
      * unfold kids. rewrite <- child_split, Hx. done.
    + destruct (node_at HI _ _ _ Hp) as (nd & Hnd & Hok). exists nd.
      rewrite (Hrest _ _ _ Hp Hne'). split; [done|].
      eapply node_rep_ext; [apply kids_delete_ne; exact Hne'|done|exact Hok].
  - intros l1 q1 l2 q2 p [_ H1]%Hsub [_ H2]%Hsub. by apply (ri_inj _ _ _ _ _ HI _ _ _ _ p).
  - intros l1 t k Ht Hk. rewrite lookup_delete_ne.
    + by eapply (ri_tags _ _ _ _ _ HI).
    + intros [= Hl0 Hk0]. eapply Htags; [done|done|]. by rewrite Hl0, Hk0, div_span_0.
Qed.
End Remove.

(** The bits of one node, that at [(S l, q)], change to those of other tag sets at level [l]. *)
Lemma rt_inv_retag h r ns E TT TT' l q p nd' :
  rt_inv h r ns E TT -> E !! (S l, q) = Some p -> node_ok E TT' l q nd' ->
  (forall l' q' p', E !! (S l', q') = Some p' -> (l', q') <> (l, q) ->
     forall t i, 0 <= t < 2 -> 0 <= i < 64 -> tag_bits TT l' q' t i <-> tag_bits TT' l' q' t i) ->
  (forall l0 t k, 0 <= t < 2 -> k ∈ TT' l0 t -> is_Some (E !! (0%nat, k))) ->
  rt_inv h r (<[p := nd']> ns) E TT'.
Proof.
  intros HI Hp Hok Hb Ht. split; try apply HI; [|done].
  intros l1 q1 p1 H1. destruct (decide ((l1, q1) = (l, q))) as [[= -> ->]|Hne].
  - rewrite Hp in H1. injection H1 as <-. exists nd'. rewrite lookup_insert_eq. done.
  - assert (p <> p1).
    { intros <-. apply Hne. destruct (ri_inj _ _ _ _ _ HI _ _ _ _ _ Hp H1) as [-> ->]. done. }
    rewrite lookup_insert_ne by done. destruct (node_at HI _ _ _ H1) as (nd & ? & Hok1).
    exists nd. split; [done|]. eapply node_rep_ext; [reflexivity| |exact Hok1]. eauto.
Qed.

(** A tree gets a new root above the old one. *)
Lemma rt_inv_grow h a ns E TT x nd :
  rt_inv h (Some a) ns E TT -> (h < 6)%nat -> ~ is_node E x ->
  node_rep (fun i => if decide (i = 0) then Some a else None)
    (fun t i => i = 0 /\ exists k, k ∈ TT h t) nd ->
  rt_inv (S h) (Some x) (<[x := nd]> ns) (<[(S h, 0) := x]> E) TT.
Proof.
  intros HI Hh Hx Hnd. pose proof (ri_root _ _ _ _ _ HI) as Ha.
  assert (Htop : forall l q p, E !! (l, q) = Some p -> (l, q) <> (S h, 0)).
  { intros l q p Hp [= -> ->]. apply (ri_range _ _ _ _ _ HI) in Hp. lia. }
  assert (Hlow : forall l q p, E !! (l, q) = Some p -> <[(S h, 0) := x]> E !! (l, q) = Some p).
  { intros l q p Hp. rewrite lookup_insert_ne; [done|]. intros Heq. by apply (Htop _ _ _ Hp). }
  assert (Hinv : forall l q p, <[(S h, 0) := x]> E !! (l, q) = Some p ->
    (l = S h /\ q = 0 /\ p = x) \/ E !! (l, q) = Some p).
  { intros l q p. destruct (decide ((S h, 0) = (l, q))) as [[= <- <-]|?].
    - rewrite lookup_insert_eq. intros [= ->]. auto.
    - rewrite lookup_insert_ne by done. auto. }
  split; [lia|by rewrite lookup_insert_eq|done|..].
  - intros l q p [(-> & -> & ->)|Hp]%Hinv; [lia|].
    apply (ri_range _ _ _ _ _ HI) in Hp as (? & ? & ? & ?). repeat split; lia.
  - intros l q p [(-> & -> & ->)|Hp]%Hinv Hlt; [lia|]. destruct (decide (l = h)) as [->|Hne].
    + pose proof (ri_range _ _ _ _ _ HI _ _ _ Hp) as (_ & _ & _ & Hz). rewrite (Hz eq_refl).
      change (0 / 64) with 0. rewrite lookup_insert_eq. eauto.
    + apply (ri_range _ _ _ _ _ HI) in Hp as Hr. apply (ri_parent _ _ _ _ _ HI) in Hp as [p' Hp']; [|lia].
      apply Hlow in Hp'. eauto.
  - intros l q p Hp. apply Hinv in Hp as [([= ->] & -> & ->)|Hp].
    + exists nd. rewrite lookup_insert_eq. split; [done|]. eapply node_rep_ext; [| |exact Hnd].
      * intros i Hi. simpl. unfold kids. rewrite lookup_insert_ne by (intros [=]; lia).
        case_decide as Hi0; [by subst i|]. symmetry. apply eq_None_not_Some. intros [p Hp].
        apply (ri_range _ _ _ _ _ HI) in Hp as (_ & _ & _ & Hz). specialize (Hz eq_refl). lia.
      * intros t i Ht Hi. split.
        -- intros [-> [k Hk]]. exists k. split; [done|].
           apply (ri_tags _ _ _ _ _ HI) in Hk; [|done]. apply (key_range HI) in Hk as [Hu Hlt].
           rewrite span_u32 by done. lia.
        -- intros (k & Hk & Hq). split; [|by exists k].
           apply (ri_tags _ _ _ _ _ HI) in Hk; [|done]. apply (key_range HI) in Hk as [Hu Hlt].
           rewrite span_u32 in Hq by done. lia.
    + assert (x <> p) by (intros ->; apply Hx; by exists l, q).
      rewrite lookup_insert_ne by done. destruct (node_at HI _ _ _ Hp) as (nd' & ? & Hok).
      exists nd'. split; [done|]. eapply node_rep_ext; [|done|exact Hok].
      intros i Hi. unfold kids. rewrite lookup_insert_ne; [done|].
      intros [= <- _]. apply (ri_range _ _ _ _ _ HI) in Hp. lia.
  - intros l1 q1 l2 q2 p H1 H2.
    destruct (Hinv _ _ _ H1) as [(? & -> & ->)|H1'], (Hinv _ _ _ H2) as [(? & -> & ?)|H2'].
    + split; [lia|done].
    + exfalso. apply Hx. by exists l2, q2.
    + subst. exfalso. apply Hx. by exists l1, q1.
    + by apply (ri_inj _ _ _ _ _ HI _ _ _ _ p).
  - intros l t k Ht Hk. apply (ri_tags _ _ _ _ _ HI) in Hk as [p Hp]; [|done].
    apply Hlow in Hp. eauto.
Qed.
