(* ===== verification/RadixOps.v ===== *)
(** The operations of the radix tree on one node, allocation, growth and insertion. *)
From Stdlib Require Import ZArith Lia.
From stdpp Require Import base numbers list list_numbers option gmap.
From S2P Require Import Prelude Bitops Radix RadixTree.

Local Open Scope Z_scope.
Local Open Scope kernel_scope.

Import Radix.

(** * The monad *)

Section Bind.
Context {A B : Type}.
Lemma bind_gets (f : rstate -> A) (k : A -> RM B) σ : (gets f ≫= k) σ = k (f σ) σ.
Proof. done. Qed.
Lemma bind_modify (f : rstate -> rstate) (k : unit -> RM B) σ : (modify f ≫= k) σ = k tt (f σ).
Proof. done. Qed.
Lemma bind_mret (x : A) (k : A -> RM B) σ : (mret x ≫= k) σ = k x σ.
Proof. done. Qed.
Lemma bind_lift (x : A) (k : A -> RM B) σ : (lift (Some x) ≫= k) σ = k x σ.
Proof. done. Qed.
Lemma bind_assoc {C} (m : RM A) (k : A -> RM B) (k' : B -> RM C) σ :
  ((m ≫= k) ≫= k') σ = (m ≫= fun x => k x ≫= k') σ.
Proof. unfold mbind, SM_bind. destruct (m σ) as [[x σ']|]; done. Qed.
End Bind.

Create Rewrite HintDb sm.
#[export] Hint Rewrite @bind_gets @bind_modify @bind_mret @bind_lift @bind_assoc : sm.

(** Runs the next call of a program, whose outcome is [H]. *)
Ltac sm_step H := rewrite (SM_bind_eq _ _ _ _ _ H).
Ltac sm := autorewrite with sm.

(** * One node *)

Definition upd (p : loc) (nd : radix_tree_node) (σ : rstate) : rstate := set_nodes (<[p := nd]> (nodes σ)) σ.

Lemma upd_upd p nd nd' σ : upd p nd' (upd p nd σ) = upd p nd' σ.
Proof. unfold upd, set_nodes. simpl. by rewrite insert_insert_eq. Qed.

Lemma upd_id p nd σ : nodes σ !! p = Some nd -> upd p nd σ = σ.
Proof. intros H. unfold upd, set_nodes. rewrite insert_id by done. by destruct σ. Qed.

Section Node.
Context (σ : rstate) (p : loc) (nd : radix_tree_node) (c : Z -> ptr) (b : Z -> Z -> Prop).
Context (Hnd : nodes σ !! p = Some nd) (Hrep : node_core c b nd).

Lemma get_node_eq : get_node (Some p) σ = Some (nd, σ).
Proof. unfold get_node. by rewrite Hnd. Qed.

Lemma put_node_eq nd' : put_node (Some p) nd' σ = Some (tt, upd p nd' σ).
Proof. unfold put_node. by rewrite Hnd. Qed.

Lemma get_slot_eq i : 0 <= i < 64 -> get_slot (Some p) i σ = Some (c i, σ).
Proof.
  intros Hi. unfold get_slot. sm_step get_node_eq. unfold lift. by rewrite (nr_slots _ _ _ Hrep).
Qed.

Lemma get_count_eq : get_count (Some p) σ = Some (count nd, σ).
Proof. unfold get_count. by sm_step get_node_eq. Qed.

Lemma set_count_eq x : set_count (Some p) x σ = Some (tt, upd p (Node x (slots nd) (tags nd)) σ).
Proof. unfold set_count. sm_step get_node_eq. apply put_node_eq. Qed.

Lemma set_slot_eq i x :
  0 <= i < 64 ->
  set_slot (Some p) i x σ = Some (tt, upd p (Node (count nd) (<[Z.to_nat i := x]> (slots nd)) (tags nd)) σ).
Proof.
  intros Hi. unfold set_slot. sm_step get_node_eq.
  assert (Hm : mem_set (slots nd) i x = Some (<[Z.to_nat i := x]> (slots nd))).
  { unfold mem_set, zlen. rewrite (nr_len _ _ _ Hrep), decide_True by lia. done. }
  rewrite Hm, bind_lift. apply put_node_eq.
Qed.

Lemma get_tags_eq t : 0 <= t < 2 -> exists ws, get_tags (Some p) t σ = Some (ws, σ) /\ words_rep (b t) ws.
Proof.
  intros Ht. destruct (nr_tags _ _ _ Hrep t Ht) as (ws & Hg & Hw). exists ws. split; [|done].
  unfold get_tags. sm_step get_node_eq. unfold lift. by rewrite Hg.
Qed.

Lemma set_tags_eq t ws (b' : Z -> Prop) :
  0 <= t < 2 -> words_rep b' ws ->
  exists nd', set_tags (Some p) t ws σ = Some (tt, upd p nd' σ) /\ count nd' = count nd /\ slots nd' = slots nd /\
    node_core c (fun t' i => if decide (t' = t) then b' i else b t' i) nd'.
Proof.
  intros Ht Hw. pose proof (nr_ntags _ _ _ Hrep) as Hn.
  assert (Hm : mem_set (tags nd) t ws = Some (<[Z.to_nat t := ws]> (tags nd))).
  { unfold mem_set, zlen. rewrite Hn, decide_True by lia. done. }
  exists (Node (count nd) (slots nd) (<[Z.to_nat t := ws]> (tags nd))). split; [|do 2 (split; [done|])].
  - unfold set_tags. sm_step get_node_eq. rewrite Hm, bind_lift. apply put_node_eq.
  - destruct Hrep as [? ? ? Hts]. split; cbn [slots count tags]; try done.
    + by rewrite length_insert.
    + intros t' Ht'. unfold mem_get. rewrite decide_True by lia. case_decide as Hc.
      * subst t'. exists ws. rewrite list_lookup_insert_eq by lia. done.
      * rewrite list_lookup_insert_ne by lia. destruct (Hts t' Ht') as (ws' & Hg & ?). exists ws'.
        unfold mem_get in Hg. rewrite decide_True in Hg by lia. done.
Qed.

Lemma tag_set_eq t i :
  0 <= t < 2 -> 0 <= i < 64 ->
  exists nd', tag_set (Some p) t i σ = Some (tt, upd p nd' σ) /\ count nd' = count nd /\ slots nd' = slots nd /\
    node_core c (fun t' j => t' = t /\ j = i \/ b t' j) nd'.
Proof.
  intros Ht Hi. destruct (get_tags_eq t Ht) as (ws & Hg & Hw). unfold tag_set. sm_step Hg.
  destruct (words_test _ _ i Hw Hi) as (x & Hx & Hb). rewrite Hx, bind_lift.
  destruct x; cbn [Z.b2z]; case_decide; try done.
  - exists nd. rewrite upd_id by done. do 3 (split; [done|]).
    eapply node_core_ext; [reflexivity| |exact Hrep]. intros t' j _ _. split; [by right|].
    intros [[-> ->]|?]; [by apply Hb|done].
  - destruct (words_set _ _ i Hw Hi) as (ws' & Hs & Hw'). rewrite Hs, bind_lift.
    destruct (set_tags_eq t ws' _ Ht Hw') as (nd' & Hst & Hcn & Hsl & Hr). exists nd'. do 3 (split; [done|]).
    eapply node_core_ext; [reflexivity| |exact Hr]. intros t' j _ _. simpl. case_decide; naive_solver.
Qed.

Lemma tag_clear_eq t i :
  0 <= t < 2 -> 0 <= i < 64 ->
  exists nd', tag_clear (Some p) t i σ = Some (tt, upd p nd' σ) /\ count nd' = count nd /\ slots nd' = slots nd /\
    node_core c (fun t' j => ~ (t' = t /\ j = i) /\ b t' j) nd'.
Proof.
  intros Ht Hi. destruct (get_tags_eq t Ht) as (ws & Hg & Hw). unfold tag_clear. sm_step Hg.
  destruct (words_clear _ _ i Hw Hi) as (ws' & Hs & Hw'). rewrite Hs, bind_lift.
  destruct (set_tags_eq t ws' _ Ht Hw') as (nd' & Hst & Hcn & Hsl & Hr). exists nd'. do 3 (split; [done|]).
  eapply node_core_ext; [reflexivity| |exact Hr]. intros t' j _ _. simpl. case_decide; naive_solver.
Qed.

Lemma tag_get_eq t i :
  0 <= t < 2 -> 0 <= i < 64 -> exists x, tag_get (Some p) t i σ = Some (x, σ) /\ (x = true <-> b t i).
Proof.
  intros Ht Hi. destruct (get_tags_eq t Ht) as (ws & Hg & Hw). unfold tag_get. sm_step Hg.
  destruct (words_test _ _ i Hw Hi) as (x & -> & Hb). exists x. split; [|done]. by destruct x.
Qed.

Lemma any_tag_eq t :
  0 <= t < 2 -> exists x, any_tag (Some p) t σ = Some (x, σ) /\ (x = true <-> exists i, 0 <= i < 64 /\ b t i).
Proof.
  intros Ht. destruct (get_tags_eq t Ht) as (ws & Hg & Hw). unfold any_tag. sm_step Hg.
  eexists. split; [reflexivity|]. by apply words_any.
Qed.
End Node.

Lemma count_range c b nd : node_rep c b nd -> 0 <= count nd <= 64.
Proof.
  intros [Hrep ->]. pose proof (nslots_bounds (slots nd)) as Hb.
  unfold zlen in Hb. rewrite (nr_len _ _ _ Hrep) in Hb. lia.
Qed.

Lemma upd_lookup p nd σ : nodes (upd p nd σ) !! p = Some nd.
Proof. apply lookup_insert_eq. Qed.

Section Slots.
Context (σ : rstate) (p : loc) (nd : radix_tree_node) (c : Z -> ptr) (b : Z -> Z -> Prop).
Context (Hnd : nodes σ !! p = Some nd) (Hrep : node_rep c b nd).
Context (i : Z) (Hi : 0 <= i < 64).

(** [node->slots[offset] = slot; node->count++] *)
Lemma add_slot_eq x :
  c i = None ->
  (set_slot (Some p) i (Some x);; cn ← get_count (Some p); set_count (Some p) (cn +u 1)) σ =
  Some (tt, upd p (with_slot nd i (Some x) 1) σ).
Proof.
  intros Hc. rewrite (SM_bind_eq _ _ _ _ _ (set_slot_eq _ _ _ _ _ Hnd (nr_core _ _ _ Hrep) i (Some x) Hi)).
  rewrite (SM_bind_eq _ _ _ _ _ (get_count_eq _ _ _ (upd_lookup _ _ _))).
  rewrite (set_count_eq _ _ _ (upd_lookup _ _ _)), upd_upd. cbn [count slots tags].
  pose proof (count_range _ _ _ Hrep). rewrite u32_small by (unfold is_u32; lia). done.
Qed.

(** [node->count++; node->slots[offset] = item] *)
Lemma add_item_eq {A} x (k : RM A) :
  c i = None ->
  (cn ← get_count (Some p); set_count (Some p) (cn +u 1);; set_slot (Some p) i (Some x);; k) σ =
  k (upd p (with_slot nd i (Some x) 1) σ).
Proof.
  intros Hc. rewrite (SM_bind_eq _ _ _ _ _ (get_count_eq _ _ _ Hnd)).
  rewrite (SM_bind_eq _ _ _ _ _ (set_count_eq _ _ _ Hnd _)).
  set (nd1 := Node _ _ _). pose proof (count_range _ _ _ Hrep).
  assert (Hs : set_slot (Some p) i (Some x) (upd p nd1 σ) =
    Some (tt, upd p (with_slot nd i (Some x) 1) σ)).
  { unfold set_slot. rewrite (SM_bind_eq _ _ _ _ _ (get_node_eq _ _ _ (upd_lookup _ _ _))).
    unfold mem_set, zlen. cbn [slots nd1]. rewrite (nr_len _ _ _ (nr_core _ _ _ Hrep)), decide_True by lia.
    rewrite bind_lift, (put_node_eq _ _ _ (upd_lookup _ _ _)), upd_upd. unfold nd1, with_slot. cbn [count tags].
    rewrite u32_small by (unfold is_u32; lia). done. }
  by rewrite (SM_bind_eq _ _ _ _ _ Hs).
Qed.

(** [node->slots[offset] = NULL; if (--node->count) ...] *)
Lemma drop_slot_eq {A} x (k : Z -> RM A) :
  c i = Some x ->
  (set_slot (Some p) i None;; cn ← get_count (Some p); set_count (Some p) (cn -u 1);; k (cn -u 1)) σ =
  k (count nd - 1) (upd p (with_slot nd i None (-1)) σ).
Proof.
  intros Hc. rewrite (SM_bind_eq _ _ _ _ _ (set_slot_eq _ _ _ _ _ Hnd (nr_core _ _ _ Hrep) i None Hi)).
  rewrite (SM_bind_eq _ _ _ _ _ (get_count_eq _ _ _ (upd_lookup _ _ _))).
  rewrite (SM_bind_eq _ _ _ _ _ (set_count_eq _ _ _ (upd_lookup _ _ _) _)), upd_upd. cbn [count slots tags].
  assert (0 < count nd).
  { rewrite (nr_count _ _ _ Hrep). pose proof (node_core_slot _ _ _ _ (nr_core _ _ _ Hrep) Hi) as Hs. rewrite Hc in Hs.
    pose proof (nslots_insert (slots nd) (Z.to_nat i) None _ Hs) as Hins. unfold used in Hins.
    pose proof (nslots_bounds (<[Z.to_nat i := None]> (slots nd))). lia. }
  pose proof (count_range _ _ _ Hrep). rewrite u32_small by (unfold is_u32; lia). done.
Qed.
End Slots.

(** * Allocation *)

(** The objects that an allocation can return: the preloaded ones and those that the slab
    allocator is going to hand out.  They are distinct, outside the tree, and in the state
    that the constructor leaves. *)
Definition avail (σ : rstate) : list loc := preloads σ ++ omap id (kmem σ).

Record slab_ok (σ : rstate) (E : emap) : Prop := {
  sl_nodup : NoDup (avail σ);
  sl_free : forall p, p ∈ avail σ -> ~ is_node E p;
  sl_ctor : forall p, p ∈ avail σ -> nodes σ !! p = None \/ nodes σ !! p = Some radix_tree_node_ctor;
  sl_pre : forall p, p ∈ preloads σ -> is_Some (nodes σ !! p)
}.

(** What may change between two states of a tree: the nodes of the tree and the available
    ones, and nothing else in the store. *)
Record evolves (σ : rstate) (E : emap) (σ' : rstate) (E' : emap) : Prop := {
  ev_node : forall p, is_node E' p -> is_node E p \/ p ∈ avail σ;
  ev_avail : forall p, p ∈ avail σ' -> p ∈ avail σ;
  ev_frame : forall p, ~ is_node E p -> p ∉ avail σ -> nodes σ' !! p = nodes σ !! p;
  ev_gfp : gfp_mask σ' = gfp_mask σ;
  ev_freed : freed σ' = freed σ
}.

Lemma evolves_refl σ E : evolves σ E σ E.
Proof. split; auto. Qed.

Lemma evolves_trans σ E σ1 E1 σ2 E2 : evolves σ E σ1 E1 -> evolves σ1 E1 σ2 E2 -> evolves σ E σ2 E2.
Proof.
  intros [n1 a1 f1 g1 e1] [n2 a2 f2 g2 e2]. split; [| | |congruence..].
  - intros p [Hp|Hp]%n2; auto.
  - auto.
  - intros p Hp Ha. rewrite f2; [by apply f1| |by intros ?%a1]. by intros [?|?]%n1.
Qed.

Definition nowait (σ : rstate) : Prop := gfp_mask σ &u __GFP_WAIT = 0.

Lemma node_alloc_spec σ E :
  slab_ok σ E ->
  exists x σ', radix_tree_node_alloc σ = Some (x, σ') /\
    height σ' = height σ /\ rnode σ' = rnode σ /\ slab_ok σ' E /\ evolves σ E σ' E /\
    (length (preloads σ) <= S (length (preloads σ')))%nat /\
    match x with
    | None => nodes σ' = nodes σ /\ (nowait σ -> preloads σ = []) /\ preloads σ' = preloads σ
    | Some p => nodes σ' = <[p := radix_tree_node_ctor]> (nodes σ) /\ p ∈ avail σ /\ p ∉ avail σ'
    end.
Proof.
  intros [Hnd Hfree Hct Hpre]. unfold radix_tree_node_alloc, mbind, SM_bind, kmem_cache_alloc.
  destruct σ as [h g r ns pre pc km fr]. unfold avail, nowait in *. cbn in *.
  assert (Hnone : forall km', (forall p, p ∈ omap id km' -> p ∈ omap id km) -> NoDup (pre ++ omap id km') ->
    exists x σ', (if decide (Z.land g __GFP_WAIT = 0)
      then match pre with a :: rest => modify (set_preloads rest);; mret (Some a) | [] => mret None end
      else mret None) (RState h g r ns pre pc km' fr) = Some (x, σ') /\
    height σ' = h /\ rnode σ' = r /\ slab_ok σ' E /\ evolves (RState h g r ns pre pc km fr) E σ' E /\
    (length pre <= S (length (preloads σ')))%nat /\
    match x with
    | None => nodes σ' = ns /\ (Z.land g __GFP_WAIT = 0 -> pre = []) /\ preloads σ' = pre
    | Some p => nodes σ' = <[p := radix_tree_node_ctor]> ns /\ p ∈ pre ++ omap id km /\ p ∉ avail σ'
    end).
  { intros km' Hsub Hnd'.
    assert (Hsame : slab_ok (RState h g r ns pre pc km' fr) E /\
      evolves (RState h g r ns pre pc km fr) E (RState h g r ns pre pc km' fr) E).
    { split; (split; unfold avail; cbn; [..|done]); set_solver. }
    case_decide; [destruct pre as [|a rest]|].
    - eexists None, _. split; [reflexivity|]. cbn. destruct Hsame. naive_solver lia.
    - destruct (Hct a) as [Hn|Ha]; [set_solver|destruct (Hpre a) as [? ?]; [set_solver|congruence]|].
      apply NoDup_cons in Hnd' as [Hni Hnd'].
      eexists (Some a), _. split; [reflexivity|]. cbn. do 2 (split; [done|]). split; [|split; [|split; [lia|]]].
      + split; unfold avail; cbn; [done|set_solver..].
      + split; unfold avail; cbn; [set_solver..|done|done].
      + rewrite insert_id by done. split; [done|]. split; [set_solver|done].
    - eexists None, _. split; [reflexivity|]. cbn. destruct Hsame. naive_solver lia. }
  destruct km as [|[p|] km]; cbn in *.
  - apply Hnone; done.
  - assert (Hns : (match ns !! p with Some _ => ns | None => <[p := radix_tree_node_ctor]> ns end) =
      <[p := radix_tree_node_ctor]> ns).
    { destruct (Hct p) as [Hn|Hn]; [set_solver|by rewrite Hn|by rewrite Hn, insert_id]. }
    rewrite Hns. eexists (Some p), _. split; [reflexivity|]. cbn. do 2 (split; [done|]).
    assert (Hni : (p ∉ (pre ++ omap id km)) /\ NoDup (pre ++ omap id km)).
    { apply NoDup_cons. by rewrite Permutation_middle. }
    destruct Hni as [Hni Hnd']. split; [|split; [|split; [lia|]]].
    + split; unfold avail; cbn; [done|set_solver| |].
      * intros x Hx. rewrite lookup_insert_ne by (intros ->; done). set_solver.
      * intros x Hx. rewrite lookup_insert_ne by (intros ->; set_solver). set_solver.
    + split; unfold avail; cbn; [set_solver..| |done|done].
      intros x Hx Hx'. rewrite lookup_insert_ne by set_solver. done.
    + split; [done|]. split; [set_solver|done].
  - apply Hnone; done.
Qed.

(** * Growth *)

Definition rt (σ : rstate) (E : emap) (TT : tmap) : Prop := rt_inv (height σ) (rnode σ) (nodes σ) E TT.

(** A tree at rest has a root, or it is empty and of height zero. *)
Definition settled (σ : rstate) : Prop := rnode σ = None -> height σ = O.

Lemma settled_some σ E TT pos p : rt σ E TT -> E !! pos = Some p -> settled σ.
Proof. intros HI Hp Hr. rewrite (root_none_empty HI Hr) in Hp. by rewrite lookup_empty in Hp. Qed.

(** Two trees that hold the same items. *)
Definition same_items (E E' : emap) : Prop := forall k, E' !! (0%nat, k) = E !! (0%nat, k).

Lemma is_node_insert (E : emap) l q x p : is_node (<[(S l, q) := x]> E) p -> is_node E p \/ p = x.
Proof.
  intros (l' & q' & Hp). destruct (decide ((S l, q) = (S l', q'))) as [Heq|Hne].
  - rewrite Heq, lookup_insert_eq in Hp. injection Hp. auto.
  - rewrite lookup_insert_ne in Hp by done. left. by exists l', q'.
Qed.

Lemma is_node_insert_item (E : emap) k x p : is_node (<[(0%nat, k) := x]> E) p -> is_node E p.
Proof.
  intros (l' & q' & Hp). rewrite lookup_insert_ne in Hp by done. by exists l', q'.
Qed.

(** The availability of objects survives changes to the nodes of the tree. *)
Lemma slab_ok_step σ σ' E E' :
  slab_ok σ E -> preloads σ' = preloads σ -> kmem σ' = kmem σ ->
  (forall p, is_node E' p -> p ∉ avail σ) ->
  (forall p, p ∈ avail σ -> nodes σ' !! p = nodes σ !! p) ->
  slab_ok σ' E'.
Proof.
  intros [Hnd Hf Hc Hp] Hpre Hkm Hn Hs.
  assert (Ha : avail σ' = avail σ) by (unfold avail; congruence).
  split; rewrite ?Ha, ?Hpre; [done| | |].
  - intros p Hi Hnode. by apply (Hn p).
  - intros p Hi. rewrite Hs by done. auto.
  - intros p Hi. rewrite Hs by (apply elem_of_app; auto). auto.
Qed.

(** The new root: [slots[0]] is the old one, the tags of the tree are passed on. *)
Lemma new_root_node σ x a t0 t1 :
  nodes σ !! x = Some radix_tree_node_ctor ->
  exists nd, node_rep (fun i => if decide (i = 0) then Some a else None)
      (fun t i => i = 0 /\ (t = 0 /\ t0 = true \/ t = 1 /\ t1 = true)) nd /\
    forall A (k : RM A), (set_slot (Some x) 0 (Some a);; propagate_tag (Some x) 0 t0;;
      propagate_tag (Some x) 1 t1;; set_count (Some x) 1;; k) σ = k (upd x nd σ).
Proof.
  intros Hx. pose proof (nr_core _ _ _ ctor_rep) as Hc0.
  pose proof (set_slot_eq _ _ _ _ _ Hx Hc0 0 (Some a) ltac:(lia)) as E0.
  pose proof (node_core_set _ _ _ 0 (Some a) 0 Hc0 ltac:(lia)) as Hc1. set (nd1 := Node 0 _ _) in Hc1.
  change (Node (count radix_tree_node_ctor) _ _) with nd1 in E0.
  assert (Hprop : forall t (tb : bool) b nd, 0 <= t < 2 ->
    node_core (fun i => if decide (i = 0) then Some a else None) b nd ->
    exists nd', propagate_tag (Some x) t tb (upd x nd σ) = Some (tt, upd x nd' σ) /\
      slots nd' = slots nd /\
      node_core (fun i => if decide (i = 0) then Some a else None)
        (fun t' i => tb = true /\ t' = t /\ i = 0 \/ b t' i) nd').
  { intros t tb b nd Ht Hnd. destruct tb; unfold propagate_tag.
    - destruct (tag_set_eq _ _ _ _ _ (upd_lookup x nd σ) Hnd t 0) as (nd' & H1 & _ & Hs & H2); [done|lia|].
      exists nd'. rewrite H1, upd_upd. do 2 (split; [done|]).
      eapply node_core_ext; [reflexivity| |exact H2]. naive_solver.
    - exists nd. do 2 (split; [done|]). eapply node_core_ext; [reflexivity| |exact Hnd]. naive_solver. }
  destruct (Hprop 0 t0 _ nd1 ltac:(lia) Hc1) as (nd2 & E2 & Hs2 & Hc2).
  destruct (Hprop 1 t1 _ nd2 ltac:(lia) Hc2) as (nd3 & E3 & Hs3 & Hc3).
  exists (Node 1 (slots nd3) (tags nd3)). split.
  - split; [|by rewrite Hs3, Hs2]. eapply node_core_ext with (b := fun t' i => _); [reflexivity| |].
    2: { destruct Hc3. split; eassumption. }
    intros t i Ht Hi. simpl. naive_solver.
  - intros A k. sm_step E0. sm_step E2. sm_step E3.
    rewrite (SM_bind_eq _ _ _ _ _ (set_count_eq _ _ _ (upd_lookup _ _ _) _)), upd_upd. done.
Qed.

Definition flags_ok (T : Z -> gset Z) (t0 t1 : bool) : Prop :=
  (t0 = true <-> exists k, k ∈ T 0) /\ (t1 = true <-> exists k, k ∈ T 1).

Lemma extend_loop_spec fuel h t0 t1 σ E T a :
  rt σ E (fun _ => T) -> slab_ok σ E -> rnode σ = Some a -> flags_ok T t0 t1 ->
  (height σ < h <= 6)%nat -> (h <= height σ + fuel)%nat ->
  exists e σ' E', extend_loop fuel h t0 t1 σ = Some (e, σ') /\
    rt σ' E' (fun _ => T) /\ slab_ok σ' E' /\ evolves σ E σ' E' /\ same_items E E' /\ is_Some (rnode σ') /\
    ((e = 0 /\ height σ' = h /\ (length (preloads σ) <= length (preloads σ') + (h - height σ))%nat) \/
     (e = - ENOMEM /\ (nowait σ -> length (preloads σ) < h - height σ)%nat)).
Proof.
  revert σ E a. induction fuel as [|fuel IH]; intros σ E a HI Hsl Hr Hfl Hh Hf; [lia|].
  cbn [extend_loop].
  destruct (node_alloc_spec σ E Hsl) as (x & σ1 & E1 & Hht & Hrn & Hsl1 & Hev & Hlen & Hx).
  sm_step E1. destruct x as [x|].
  2: { destruct Hx as (Hns & Hw & Hpre). exists (- ENOMEM), σ1, E. split; [done|].
    split; [unfold rt; rewrite Hht, Hrn, Hns; done|]. do 3 (split; [done|]).
    split; [rewrite Hrn, Hr; eauto|]. right. split; [done|]. intros Hnw. rewrite Hw by done. cbn. lia. }
  destruct Hx as (Hns & Hav & Hnav). sm. rewrite Hrn, Hr.
  destruct (new_root_node σ1 x a t0 t1) as (nd & Hnd & Hk); [by rewrite Hns, lookup_insert_eq|].
  rewrite Hk. sm. change (height (set_rnode (Some x) (upd x nd σ1))) with (height σ1). rewrite Hht.
  set (σ2 := set_height _ _). set (E2 := <[(S (height σ), 0) := x]> E).
  assert (Hxn : ~ is_node E x) by (by apply (sl_free _ _ Hsl)).
  assert (HI2 : rt σ2 E2 (fun _ => T)).
  { unfold rt. cbn [σ2 height rnode nodes set_height set_rnode upd set_nodes].
    rewrite Hns, insert_insert_eq. apply (rt_inv_grow _ a); [unfold rt in HI; by rewrite Hr in HI|lia|done|].
    eapply node_rep_ext; [reflexivity| |exact Hnd]. intros t i Ht Hi. destruct Hfl as [H0 H1]. simpl.
    rewrite H0, H1. split; [intros [? [[-> ?]|[-> ?]]]; done|]. intros [? ?]. split; [done|].
    assert (t = 0 \/ t = 1) as [-> | ->] by lia; auto. }
  assert (Hitems : same_items E E2) by (intros k; unfold E2; by rewrite lookup_insert_ne).
  assert (Hsl2 : slab_ok σ2 E2).
  { apply (slab_ok_step σ1 _ E); [done..| |].
    - intros p [Hp | ->]%is_node_insert; [|done]. intros Hi. by apply (sl_free _ _ Hsl1 _ Hi).
    - intros p Hp. cbn. rewrite lookup_insert_ne by (intros ->; done). done. }
  assert (Hev2 : evolves σ E σ2 E2).
  { destruct Hev as [? ? Hfr ? ?]. split; try done.
    - intros p [Hp | ->]%is_node_insert; auto.
    - intros p Hp Hp'. cbn. rewrite lookup_insert_ne by (intros ->; done). auto. }
  case_decide as Hlt.
  - destruct (IH σ2 E2 x HI2 Hsl2 eq_refl Hfl) as (e & σ' & E' & -> & HI' & Hsl' & Hev' & Hit' & Hrn' & Hres);
      [cbn; lia..|].
    exists e, σ', E'. split; [done|]. do 2 (split; [done|]). split; [by eapply evolves_trans|].
    split; [intros k; by rewrite Hit'|]. split; [done|]. cbn in Hres.
    assert (nowait σ -> nowait σ2).
    { unfold nowait. cbn. by rewrite (ev_gfp _ _ _ _ Hev). }
    destruct Hres as [(? & ? & ?)|[? Hw]]; [left|right]; (split; [done|]).
    + split; [done|]. lia.
    + intros Hnw. specialize (Hw ltac:(auto)). lia.
  - exists 0, σ2, E2. split; [done|]. do 4 (split; [done|]). split; [by eexists|].
    left. split; [done|]. cbn. split; lia.
Qed.

Lemma extend_height_spec fuel k h :
  is_u32 k -> (h <= 6)%nat -> (7 <= h + fuel)%nat ->
  exists h', extend_height fuel k h = Some h' /\ (h <= h' <= 6)%nat /\ k < span h'.
Proof.
  intros Hk. revert h. induction fuel as [|fuel IH]; intros h Hh Hf; [lia|]. cbn [extend_height].
  destruct (maxindex_lookup h Hh) as (m & -> & _ & Hm). cbn [mbind option_bind]. case_decide as Hlt.
  - destruct (decide (h = 6%nat)) as [->|?].
    { exfalso. apply Hm in Hlt; [|done]. change (span 6) with (2^36) in Hlt. destruct Hk. lia. }
    destruct (IH (S h)) as (h' & -> & ? & ?); [lia..|]. exists h'. split; [done|]. split; [lia|done].
  - exists h. split; [done|]. split; [lia|]. rewrite Hm in Hlt by done. lia.
Qed.

Lemma rt_inv_empty h h' r ns TT :
  rt_inv h r ns ∅ TT -> (h' <= 6)%nat -> rt_inv h' None ns ∅ TT.
Proof.
  intros HI Hh. split; [done|by rewrite lookup_empty|done|..|apply (ri_tags _ _ _ _ _ HI)].
  all: intros l q ? **; simplify_map_eq.
Qed.

(** A tree tells by the bits of its root whether a key is tagged. *)
Lemma root_any_tag σ E T a t :
  rt σ E (fun _ => T) -> rnode σ = Some a -> 0 <= t < 2 ->
  exists x, any_tag (Some a) t σ = Some (x, σ) /\ (x = true <-> exists k, k ∈ T t).
Proof.
  intros HI Hr Ht. pose proof (ri_root _ _ _ _ _ HI) as Hroot. rewrite Hr in Hroot.
  destruct (height σ) as [|l] eqn:Hh.
  { pose proof (ri_zero _ _ _ _ _ HI Hh). congruence. }
  destruct (node_at HI _ _ _ (eq_sym Hroot)) as (nd & Hnd & Hok).
  destruct (any_tag_eq _ _ _ _ _ Hnd (nr_core _ _ _ Hok) t Ht) as (x & -> & Hx). exists x. split; [done|].
  rewrite Hx. split; [intros (i & _ & k & Hk & _); eauto|]. intros [k Hk]. exists (digit k l).
  split; [apply digit_range|]. exists k. split; [done|]. rewrite <- digit_child. f_equal.
  assert (Hs : is_Some (E !! (0%nat, k))) by (by eapply (ri_tags _ _ _ _ _ HI l)).
  apply (key_range HI) in Hs as [Hu Hlt]. rewrite Hh in Hlt. rewrite span_u32 by done. lia.
Qed.

Lemma extend_spec σ E T k :
  rt σ E (fun _ => T) -> slab_ok σ E -> is_u32 k -> (height σ < 6)%nat ->
  exists e σ' E', radix_tree_extend k σ = Some (e, σ') /\
    rt σ' E' (fun _ => T) /\ slab_ok σ' E' /\ evolves σ E σ' E' /\ same_items E E' /\
    ((e = 0 /\ k < span (height σ') /\ height σ' <> O /\ (is_Some (rnode σ) -> is_Some (rnode σ')) /\
      (length (preloads σ) <= length (preloads σ') + (if rnode σ is Some _ then height σ' - height σ else 0))%nat) \/
     (e = - ENOMEM /\ is_Some (rnode σ) /\ (nowait σ -> length (preloads σ) < 6 - height σ)%nat)).
Proof.
  intros HI Hsl Hk Hh. unfold radix_tree_extend. sm.
  destruct (extend_height_spec (S RADIX_TREE_MAX_PATH) k (S (height σ)) Hk) as (h & -> & Hhr & Hlt);
    [lia|unfold RADIX_TREE_MAX_PATH; lia|].
  sm. destruct (rnode σ) as [a|] eqn:Hr.
  - destruct (root_any_tag σ E T a 0 HI Hr ltac:(lia)) as (t0 & E0 & H0).
    destruct (root_any_tag σ E T a 1 HI Hr ltac:(lia)) as (t1 & E1 & H1).
    sm_step E0. sm_step E1.
    destruct (extend_loop_spec RADIX_TREE_MAX_PATH h t0 t1 σ E T a HI Hsl Hr (conj H0 H1))
      as (e & σ' & E' & -> & HI' & Hsl' & Hev & Hit & Hrn & Hres); [lia|unfold RADIX_TREE_MAX_PATH; lia|].
    exists e, σ', E'. split; [done|]. do 4 (split; [done|]).
    destruct Hres as [(-> & Hh' & Hlen)|[-> Hw]]; [left|right].
    + split; [done|]. rewrite Hh'. split; [done|]. split; [lia|]. split; [done|lia].
    + split; [done|]. split; [by eexists|]. intros Hnw. specialize (Hw Hnw). lia.
  - pose proof (root_none_empty HI Hr) as ->.
    exists 0, (set_height h σ), ∅. split; [done|]. split; [|split; [|split; [|split; [done|]]]].
    + unfold rt. cbn. rewrite Hr. eapply rt_inv_empty; [exact HI|lia].
    + apply (slab_ok_step σ _ ∅); [done..| |done]. intros p Hn Ha. by apply (sl_free _ _ Hsl p).
    + by split; auto.
    + left. split; [done|]. split; [done|]. cbn. split; [lia|]. split; [by rewrite Hr|lia].
Qed.

(** * Insertion *)

(** The slot of key [k] in its node of level [l + 1]. *)
Lemma get_child σ E TT k l p :
  rt σ E TT -> E !! at_level k (S l) = Some p -> get_slot (Some p) (digit k l) σ = Some (E !! at_level k l, σ).
Proof.
  intros HI Hp. destruct (node_at HI _ _ _ Hp) as (nd & Hnd & Hok).
  rewrite (get_slot_eq _ _ _ _ _ Hnd (nr_core _ _ _ Hok)) by apply digit_range.
  unfold kids, at_level. by rewrite digit_child.
Qed.

(** The parent of position [k] at level [l] for a new entry there. *)
Definition parent_at (σ : rstate) (E : emap) (k : Z) (l : nat) (node : ptr) (offset : Z) : Prop :=
  (l = height σ /\ node = None) \/
  exists p, node = Some p /\ (l < height σ)%nat /\ E !! at_level k (S l) = Some p /\ offset = digit k l.

(** A free position gets [x], in the slot of the parent or as the root. *)
Lemma link_spec σ E T k l node offset x :
  rt σ E (fun _ => T) -> is_u32 k -> k < span (height σ) -> (l <= height σ)%nat -> height σ <> O ->
  parent_at σ E k l node offset -> E !! at_level k l = None ->
  (l <> O -> ~ is_node E x /\ nodes σ !! x = Some radix_tree_node_ctor) ->
  exists σ', (match node with
     | Some _ => set_slot node offset (Some x);; c ← get_count node; set_count node (c +u 1)
     | None => modify (set_rnode (Some x))
     end) σ = Some (tt, σ') /\
    rt σ' (<[at_level k l := x]> E) (fun _ => T) /\
    height σ' = height σ /\ gfp_mask σ' = gfp_mask σ /\ freed σ' = freed σ /\
    preloads σ' = preloads σ /\ kmem σ' = kmem σ /\
    forall p, ~ is_node E p -> nodes σ' !! p = nodes σ !! p.
Proof.
  intros HI Hk Hlt Hl Hh0 Hpar Hfree Hnew.
  assert (Hq : 0 <= k / span l /\ k / span l * span l < 2^32 /\ (l = height σ -> k / span l = 0)).
  { pose proof (span_pos l). destruct Hk. split; [apply Z.div_pos; lia|]. split; [|intros ->; by apply span_u32].
    pose proof (Z.mul_div_le k (span l)). lia. }
  destruct Hpar as [[-> ->]|(pn & -> & Hlh & Hpn & ->)].
  - eexists. split; [reflexivity|]. split; [|done].
    pose proof (rt_inv_add HI (height σ) (k / span (height σ)) x (nodes σ)) as Hadd.
    rewrite decide_True in Hadd by done. apply Hadd; try done; intros; lia.
  - destruct (node_at HI _ _ _ Hpn) as (nd & Hnd & Hok).
    assert (Hkid : kids E l (k / span (S l)) (digit k l) = None).
    { unfold kids. by rewrite digit_child. }
    rewrite (add_slot_eq _ _ _ _ _ Hnd Hok _ (digit_range k l) x Hkid).
    eexists. split; [reflexivity|]. split; [|split; [done|]].
    + pose proof (rt_inv_add HI l (k / span l) x (<[pn := with_slot nd (digit k l) (Some x) 1]> (nodes σ))) as Hadd.
      rewrite decide_False in Hadd by lia. apply Hadd; try done.
      * intros _. exists pn, nd. rewrite <- div_span_S. split; [done|]. split; [done|]. by rewrite lookup_insert_eq.
      * intros Hl0. destruct (Hnew Hl0) as [Hn Hc]. split; [done|]. rewrite lookup_insert_ne; [done|].
        intros ->. apply Hn. by eexists _, _.
      * intros l' q' p Hp Hne. rewrite lookup_insert_ne; [done|]. intros <-. apply Hne.
        destruct (ri_inj _ _ _ _ _ HI _ _ _ _ _ Hpn Hp) as [<- <-]. by rewrite div_span_S.
    + do 4 (split; [done|]). intros p Hp. cbn. rewrite lookup_insert_ne; [done|]. intros <-. apply Hp. by eexists _, _.
Qed.

Lemma evolves_link σ E σ1 σ2 k l x :
  evolves σ E σ1 E -> x ∈ avail σ -> gfp_mask σ2 = gfp_mask σ1 -> freed σ2 = freed σ1 ->
  preloads σ2 = preloads σ1 -> kmem σ2 = kmem σ1 ->
  (forall p, ~ is_node E p -> nodes σ2 !! p = nodes σ1 !! p) ->
  evolves σ E σ2 (<[at_level k (S l) := x]> E).
Proof.
  intros [? Ha Hfr ? ?] Hx Hg Hf Hp Hk Hn. split; [| | |congruence..].
  - intros p [Hp' | ->]%is_node_insert; auto.
  - intros p. unfold avail. rewrite Hp, Hk. apply Ha.
  - intros p Hp' Hp''. rewrite Hn by done. auto.
Qed.

(** The part of a round that makes sure that there is a node at level [l + 1]. *)
Lemma insert_round_spec σ E T k l node offset slot :
  rt σ E (fun _ => T) -> slab_ok σ E -> is_u32 k -> k < span (height σ) -> (S l <= height σ)%nat ->
  parent_at σ E k (S l) node offset -> slot = E !! at_level k (S l) ->
  exists x σ' E', (match slot with
           | Some _ => mret slot
           | None =>
             new ← radix_tree_node_alloc;
             match new with
             | None => mret None
             | Some _ =>
               match node with
               | Some _ =>
                 set_slot node offset new;;
                 c ← get_count node;
                 set_count node (c +u 1)
               | None => modify (set_rnode new)
               end;;
               mret new
             end
           end) σ = Some (x, σ') /\
    rt σ' E' (fun _ => T) /\ slab_ok σ' E' /\ evolves σ E σ' E' /\ same_items E E' /\ height σ' = height σ /\
    (length (preloads σ) <= length (preloads σ') + (if slot is Some _ then 0 else 1))%nat /\
    match x with
    | Some p => E' !! at_level k (S l) = Some p
    | None => E !! (0%nat, k) = None /\ (nowait σ -> preloads σ = [])
    end.
Proof.
  intros HI Hsl Hk Hlt Hl Hpar ->. destruct (E !! at_level k (S l)) as [p|] eqn:Hp.
  { exists (Some p), σ, E. split; [done|]. do 2 (split; [done|]). split; [apply evolves_refl|].
    split; [done|]. split; [done|]. split; [lia|done]. }
  destruct (node_alloc_spec σ E Hsl) as (x & σ1 & E1 & Hht & Hrn & Hsl1 & Hev & Hlen & Hx).
  sm_step E1. destruct x as [x|].
  2: { destruct Hx as (Hns & Hw & Hpre). exists None, σ1, E. split; [done|].
    split; [unfold rt; rewrite Hht, Hrn, Hns; done|]. do 4 (split; [done|]). split; [lia|]. split; [|done].
    rewrite <- at_level_0. apply (below_none HI k 0 (S l)); [done|lia]. }
  destruct Hx as (Hns & Hav & Hnav). assert (Hxn : ~ is_node E x) by (by apply (sl_free _ _ Hsl)).
  assert (HI1 : rt σ1 E (fun _ => T)).
  { unfold rt. rewrite Hht, Hrn, Hns. split; try apply HI.
    intros l' q' p' Hp'. destruct (node_at HI _ _ _ Hp') as (nd & ? & ?). exists nd.
    rewrite lookup_insert_ne; [done|]. intros <-. apply Hxn. by exists l', q'. }
  destruct (link_spec σ1 E T k (S l) node offset x HI1 Hk) as (σ2 & Hlink & HI2 & Hh2 & Hg2 & Hf2 & Hp2 & Hk2 & Hn2).
  { by rewrite Hht. } { by rewrite Hht. } { rewrite Hht. lia. }
  { unfold parent_at in *. by rewrite Hht. } { done. }
  { intros _. split; [done|]. by rewrite Hns, lookup_insert_eq. }
  sm_step Hlink. exists (Some x), σ2, (<[at_level k (S l) := x]> E). split; [done|]. split; [done|].
  split; [|split; [|split; [|split; [|split]]]].
  - apply (slab_ok_step σ1 _ E); [done..| |].
    + intros p [Hp' | ->]%is_node_insert; [|done]. intros Hi. by apply (sl_free _ _ Hsl1 _ Hi).
    + intros p Hp'. apply Hn2. by apply (sl_free _ _ Hsl1).
  - by apply (evolves_link σ E σ1).
  - intros k'. by rewrite lookup_insert_ne.
  - congruence.
  - rewrite Hp2. lia.
  - by rewrite lookup_insert_eq.
Qed.

Lemma insert_loop_spec l k : is_u32 k -> forall σ E T node offset slot s,
  rt σ E (fun _ => T) -> slab_ok σ E -> k < span (height σ) -> (l <= height σ)%nat -> height σ <> O ->
  shift_ok l s -> parent_at σ E k l node offset -> slot = E !! at_level k l ->
  exists res σ' E', insert_loop l k s node offset slot σ = Some (res, σ') /\
    rt σ' E' (fun _ => T) /\ slab_ok σ' E' /\ evolves σ E σ' E' /\ same_items E E' /\ height σ' = height σ /\
    match res with
    | inl e => e = - ENOMEM /\ E !! (0%nat, k) = None /\
        (nowait σ -> length (preloads σ) < if slot is Some _ then l - 1 else l)%nat
    | inr (node', offset', slot') => slot' = E' !! (0%nat, k) /\ parent_at σ' E' k 0 node' offset'
    end.
Proof.
  intros Hk. induction l as [|l IH]; intros σ E T node offset slot s HI Hsl Hlt Hl Hh0 Hs Hpar Hslot.
  - exists (inr (node, offset, slot)), σ, E. split; [done|]. do 2 (split; [done|]).
    split; [apply evolves_refl|]. do 2 (split; [done|]). rewrite <- at_level_0. done.
  - cbn [insert_loop].
    destruct (insert_round_spec σ E T k l node offset slot HI Hsl Hk Hlt Hl Hpar Hslot)
      as (x & σ1 & E1 & Hr & HI1 & Hsl1 & Hev1 & Hit1 & Hht1 & Hlen & Hx).
    rewrite (SM_bind_eq _ _ _ _ _ Hr). destruct x as [p|].
    2: { destruct Hx as [Hn Hw]. exists (inl (- ENOMEM)), σ1, E1. do 6 (split; [done|]). split; [done|].
      split; [done|]. intros Hnw. rewrite Hw by done. destruct slot as [p|]; [discriminate Hr|]. cbn. lia. }
    rewrite (Hs _ eq_refl), offset_at_digit by apply Hk. sm_step (get_child _ _ _ _ _ _ HI1 Hx).
    assert (Hh6 : (height σ <= 6)%nat) by apply HI.
    destruct (IH σ1 E1 T (Some p) (digit k l) (E1 !! at_level k l) (6 * Z.of_nat l -u RADIX_TREE_MAP_SHIFT) HI1 Hsl1)
      as (res & σ' & E' & -> & HI' & Hsl' & Hev' & Hit' & Hht' & Hres).
    + by rewrite Hht1.
    + lia.
    + by rewrite Hht1.
    + rewrite <- (Hs _ eq_refl). apply shift_ok_next; [lia|done].
    + right. exists p. split; [done|]. split; [lia|done].
    + done.
    + exists res, σ', E'. split; [done|]. do 2 (split; [done|]). split; [by eapply evolves_trans|].
      split; [intros k'; by rewrite Hit'|]. split; [congruence|]. destruct res as [e|[[? ?] ?]]; [|done].
      destruct Hres as (-> & Hn & Hw). split; [done|]. split; [by rewrite <- Hit1|]. intros Hnw.
      assert (nowait σ1) as Hnw1 by (unfold nowait; by rewrite (ev_gfp _ _ _ _ Hev1)).
      specialize (Hw Hnw1). destruct slot, (E1 !! at_level k l); lia.
Qed.

(** How many allocations an insertion of [k] can need. *)
Definition nodes_needed (σ : rstate) (k : Z) : nat :=
  if decide (rnode σ = None \/ k < span (height σ)) then 6 else 11 - height σ.

(** The item goes into its free slot of a leaf. *)
Lemma insert_item_spec σ E T k x node offset :
  rt σ E (fun _ => T) -> slab_ok σ E -> is_u32 k -> k < span (height σ) -> height σ <> O ->
  parent_at σ E k 0 node offset -> E !! (0%nat, k) = None ->
  exists σ', (match node with
    | Some _ =>
      c ← get_count node;
      set_count node (c +u 1);;
      set_slot node offset (Some x);;
      b ← tag_get node 0 offset; BUG_ON b;;
      b ← tag_get node 1 offset; BUG_ON b;;
      mret 0
    | None => modify (set_rnode (Some x));; mret 0
    end) σ = Some (0, σ') /\
    rt σ' (<[(0%nat, k) := x]> E) (fun _ => T) /\ slab_ok σ' (<[(0%nat, k) := x]> E) /\
    evolves σ E σ' (<[(0%nat, k) := x]> E).
Proof.
  intros HI Hsl Hk Hlt Hh0 Hpar Hfree.
  destruct (link_spec σ E T k 0 node offset x HI Hk Hlt ltac:(lia) Hh0 Hpar)
    as (σ' & Hlink & HI' & Hht & Hg & Hf & Hp & Hkm & Hn); [by rewrite at_level_0|done|].
  rewrite at_level_0 in HI'.
  destruct Hpar as [[? _]|(p & -> & _ & Hpn & ->)]; [lia|].
  exists σ'. split; [|split; [done|split]].
  - destruct (node_at HI _ _ _ Hpn) as (nd & Hnd & Hok).
    assert (Hkid : kids E 0 (k / span 1) (digit k 0) = None).
    { unfold kids. rewrite digit_child, div_span_0. done. }
    rewrite (add_slot_eq _ _ _ _ _ Hnd Hok _ (digit_range k 0) x Hkid) in Hlink. injection Hlink as <-.
    rewrite (add_item_eq _ _ _ _ _ Hnd Hok _ (digit_range k 0) x _ Hkid).
    assert (Hpn' : <[(0%nat, k) := x]> E !! at_level k 1 = Some p) by (by rewrite lookup_insert_ne).
    destruct (node_at HI' _ _ _ Hpn') as (nd' & Hnd' & Hok').
    assert (Htag : forall t, 0 <= t < 2 ->
      tag_get (Some p) t (digit k 0) (upd p (with_slot nd (digit k 0) (Some x) 1) σ) =
      Some (false, upd p (with_slot nd (digit k 0) (Some x) 1) σ)).
    { intros t Ht. destruct (tag_get_eq _ _ _ _ _ Hnd' (nr_core _ _ _ Hok') t _ Ht (digit_range k 0)) as (b & -> & Hb).
      destruct b; [|done]. exfalso. destruct (proj1 Hb eq_refl) as (k' & Hk' & Hq).
      rewrite digit_child, !div_span_0 in Hq. subst k'.
      apply (ri_tags _ _ _ _ _ HI 0%nat) in Hk' as [? ?]; [congruence|done]. }
    sm_step (Htag 0 ltac:(lia)). cbn [BUG_ON]. sm. sm_step (Htag 1 ltac:(lia)). done.
  - apply (slab_ok_step σ _ E); [done..| |].
    + intros q Hq%is_node_insert_item Hi. by apply (sl_free _ _ Hsl _ Hi).
    + intros q Hq. apply Hn. by apply (sl_free _ _ Hsl).
  - split; [| |auto|done|done].
    + intros q Hq%is_node_insert_item. auto.
    + intros q. unfold avail. by rewrite Hp, Hkm.
Qed.

(** The test at the start of [radix_tree_insert]: the tree is high enough afterwards. *)
Lemma insert_grow_spec σ E T k m (cond := bool_decide (k = 0) && bool_decide (rnode σ = None) || bool_decide (m < k)) :
  rt σ E (fun _ => T) -> slab_ok σ E -> is_u32 k ->
  ~ (rnode σ = None /\ k = 0 /\ height σ = 6%nat) ->
  (forall k', is_u32 k' -> m < k' <-> span (height σ) <= k') ->
  exists e σ1 E1, (if cond then radix_tree_extend k else mret 0) σ = Some (e, σ1) /\
    rt σ1 E1 (fun _ => T) /\ slab_ok σ1 E1 /\ evolves σ E σ1 E1 /\ same_items E E1 /\
    ((e = 0 /\ k < span (height σ1) /\ height σ1 <> O /\
      (nowait σ -> length (preloads σ1) < (if rnode σ1 is Some _ then height σ1 - 1 else height σ1) ->
        length (preloads σ) < nodes_needed σ k)%nat) \/
     (e = - ENOMEM /\ span (height σ) <= k /\ (nowait σ -> length (preloads σ) < nodes_needed σ k)%nat)).
Proof.
  intros HI Hsl Hk Hbad Hm. destruct cond eqn:Hcond.
  - assert (Hh : (height σ < 6)%nat).
    { destruct (decide (height σ = 6%nat)) as [H6|?]; [|pose proof (ri_height _ _ _ _ _ HI); lia]. exfalso.
      unfold cond in Hcond. rewrite orb_true_iff, andb_true_iff, !bool_decide_eq_true, Hm in Hcond by done.
      rewrite H6 in Hcond. destruct Hcond as [[-> ?]|Hlt]; [by apply Hbad|].
      change (span 6) with (2^36) in Hlt. destruct Hk. lia. }
    destruct (extend_spec σ E T k HI Hsl Hk Hh) as (e & σ1 & E1 & -> & HI1 & ? & ? & ? & Hres).
    exists e, σ1, E1. split; [done|]. do 4 (split; [done|]). pose proof (ri_height _ _ _ _ _ HI1) as Hh1.
    assert (Hge : is_Some (rnode σ) -> span (height σ) <= k).
    { intros [a Ha]. apply Hm; [done|]. unfold cond in Hcond. rewrite Ha in Hcond.
      rewrite (bool_decide_eq_false_2 (Some a = None)), andb_false_r in Hcond by done.
      by apply bool_decide_eq_true in Hcond. }
    destruct Hres as [(-> & Hlt & Hne & Hrs & Hlen)|(-> & Hsome & Hw)]; [left|right].
    + do 3 (split; [done|]). intros _ Hl. unfold nodes_needed. destruct (rnode σ) as [a|] eqn:Hr.
      * specialize (Hge ltac:(by eexists)). destruct (Hrs ltac:(by eexists)) as [a' Ha']. rewrite Ha' in Hl.
        rewrite decide_False; [lia|]. intros [?|?]; [done|lia].
      * rewrite decide_True by auto. destruct (rnode σ1); lia.
    + split; [done|]. specialize (Hge Hsome). split; [done|]. unfold nodes_needed. intros Hnw. specialize (Hw Hnw). case_decide; lia.
  - exists 0, σ, E. split; [done|]. do 2 (split; [done|]). split; [apply evolves_refl|]. split; [done|].
    left. split; [done|]. unfold cond in Hcond.
    rewrite orb_false_iff, andb_false_iff, !bool_decide_eq_false, Hm in Hcond by done.
    destruct Hcond as [Hc Hlt]. split; [lia|].
    assert (Hh0 : height σ <> O).
    { intros Hz. rewrite Hz, span_0 in Hlt. pose proof (ri_zero _ _ _ _ _ HI Hz). destruct Hk.
      destruct Hc as [Hc|Hc]; [apply Hc; lia|done]. }
    split; [done|]. intros _ Hl. unfold nodes_needed. rewrite decide_True by (right; lia).
    pose proof (ri_height _ _ _ _ _ HI). destruct (rnode σ); lia.
Qed.

Lemma insert_spec σ E T k x :
  rt σ E (fun _ => T) -> slab_ok σ E -> is_u32 k ->
  ~ (rnode σ = None /\ k = 0 /\ height σ = 6%nat) ->
  exists e σ' E', radix_tree_insert k (Some x) σ = Some (e, σ') /\
    rt σ' E' (fun _ => T) /\ slab_ok σ' E' /\ evolves σ E σ' E' /\
    ((e = 0 /\ E !! (0%nat, k) = None /\
        forall k', E' !! (0%nat, k') = if decide (k' = k) then Some x else E !! (0%nat, k')) \/
     (e = - EEXIST /\ is_Some (E !! (0%nat, k)) /\ same_items E E') \/
     (e = - ENOMEM /\ E !! (0%nat, k) = None /\ same_items E E' /\
        (nowait σ -> length (preloads σ) < nodes_needed σ k)%nat)).
Proof.
  intros HI Hsl Hk Hbad. unfold radix_tree_insert. sm.
  destruct (maxindex_lookup (height σ) ltac:(apply HI)) as (m & -> & _ & Hm). sm.
  destruct (insert_grow_spec σ E T k m HI Hsl Hk Hbad Hm) as (e & σ1 & E1 & Hg & HI1 & Hsl1 & Hev1 & Hit1 & Hres). sm_step Hg.
  destruct Hres as [(-> & Hlt & Hh0 & Hneed)|(-> & Hge & Hneed)]; [|].
  2: { rewrite decide_True by done. exists (- ENOMEM), σ1, E1. split; [done|]. do 3 (split; [done|]).
    right; right. split; [done|]. split; [by apply (key_high HI)|]. done. }
  rewrite decide_False by (intros H; by apply H). sm.
  pose proof (ri_root _ _ _ _ _ HI1) as Hroot.
  destruct (insert_loop_spec (height σ1) k Hk σ1 E1 T None 0 (rnode σ1) (top_shift (height σ1)) HI1 Hsl1 Hlt)
    as (res & σ2 & E2 & Hloop & HI2 & Hsl2 & Hev2 & Hit2 & Hht2 & Hres).
  { lia. } { done. } { apply top_shift_ok. apply HI1. } { by left. }
  { rewrite Hroot. unfold at_level. by rewrite span_u32. }
  sm_step Hloop. assert (Hev : evolves σ E σ2 E2) by (by eapply evolves_trans).
  assert (Hit : same_items E E2) by (intros k'; by rewrite Hit2).
  destruct res as [e|[[node offset] [p|]]].
  - destruct Hres as (-> & Hn & Hw). exists (- ENOMEM), σ2, E2. split; [done|]. do 3 (split; [done|]).
    right; right. split; [done|]. split; [by rewrite <- Hit1|]. split; [done|]. intros Hnw. apply Hneed; [done|].
    apply Hw. unfold nowait. by rewrite (ev_gfp _ _ _ _ Hev1).
  - destruct Hres as [Hs _]. exists (- EEXIST), σ2, E2. split; [done|]. do 3 (split; [done|]).
    right; left. split; [done|]. split; [|done]. rewrite <- Hit, <- Hs. by eexists.
  - destruct Hres as [Hs Hpar].
    destruct (insert_item_spec σ2 E2 T k x node offset HI2 Hsl2 Hk) as (σ3 & E3 & HI3 & Hsl3 & Hev3);
      [by rewrite Hht2|by rewrite Hht2|done|done|].
    eexists 0, σ3, _. split; [exact E3|]. split; [exact HI3|]. split; [exact Hsl3|]. split; [by eapply evolves_trans|].
    left. split; [done|]. split; [by rewrite <- Hit|]. intros k'. clear Hg. case_decide as Hc.
    + by rewrite Hc, lookup_insert_eq.
    + rewrite lookup_insert_ne by congruence. apply Hit.
Qed.
