(* ===== verification/RadixTags.v ===== *)
(** Lookup, tagging and deletion in the radix tree. *)
From Stdlib Require Import ZArith Lia.
From stdpp Require Import base numbers list list_numbers option gmap.
From S2P Require Import Prelude Bitops Radix RadixTree RadixOps.

Local Open Scope Z_scope.
Local Open Scope kernel_scope.

Import Radix.

(** * Lookup *)

Lemma lookup_slot_loop_spec σ E TT k l a s :
  rt σ E TT -> is_u32 k -> (l <= height σ)%nat -> shift_ok l s ->
  read_slot a σ = Some (E !! at_level k l, σ) ->
  exists res, lookup_slot_loop l k s a σ = Some (res, σ) /\
    match res with
    | None => E !! (0%nat, k) = None
    | Some a' => read_slot a' σ = Some (E !! (0%nat, k), σ)
    end.
Proof.
  intros HI Hk. revert a s. induction l as [|l IH]; intros a s Hl Hs Ha; cbn [lookup_slot_loop].
  { exists (Some a). split; [done|]. by rewrite <- at_level_0. }
  sm_step Ha. destruct (E !! at_level k (S l)) as [p|] eqn:Hp.
  - apply IH; [lia|apply shift_ok_next; [pose proof (ri_height _ _ _ _ _ HI); lia|done]|].
    rewrite (Hs _ eq_refl), offset_at_digit by apply Hk. by apply (get_child σ E TT).
  - exists None. split; [done|]. rewrite <- at_level_0. by apply (below_none HI k 0 (S l)); [|lia].
Qed.

Lemma __lookup_slot_spec σ E TT k :
  rt σ E TT -> is_u32 k ->
  exists res, __lookup_slot k σ = Some (res, σ) /\
    match res with
    | None => E !! (0%nat, k) = None
    | Some a => read_slot a σ = Some (E !! (0%nat, k), σ)
    end.
Proof.
  intros HI Hk. unfold __lookup_slot. sm.
  destruct (maxindex_lookup (height σ) ltac:(apply HI)) as (m & -> & _ & Hm). sm. case_decide as Hlt.
  - exists None. split; [done|]. apply (key_high HI). by apply Hm.
  - rewrite Hm in Hlt by done. apply (lookup_slot_loop_spec σ E TT); [done..|apply top_shift_ok; apply HI|].
    unfold read_slot, gets. rewrite (ri_root _ _ _ _ _ HI). unfold at_level. rewrite span_u32; [done|done|lia].
Qed.

Lemma lookup_spec σ E TT k : rt σ E TT -> is_u32 k -> radix_tree_lookup k σ = Some (E !! (0%nat, k), σ).
Proof.
  intros HI Hk. unfold radix_tree_lookup.
  destruct (__lookup_slot_spec σ E TT k HI Hk) as (res & Hr & Hres). sm_step Hr.
  destruct res as [a|]; [done|]. by rewrite Hres.
Qed.

(** * Changing the bits of one node *)

Lemma digit_iff k l i : 64 * (k / span (S l)) + i = k / span l <-> i = digit k l.
Proof. pose proof (digit_child k l). lia. Qed.

Lemma retag σ E TT TT' k l p nd' :
  rt σ E TT -> E !! at_level k (S l) = Some p -> node_ok E TT' l (k / span (S l)) nd' ->
  (forall l' t k', 0 <= t < 2 -> ~ (l' = l /\ k' / span (S l) = k / span (S l)) -> k' ∈ TT' l' t <-> k' ∈ TT l' t) ->
  (forall l0 t k', 0 <= t < 2 -> k' ∈ TT' l0 t -> is_Some (E !! (0%nat, k'))) ->
  rt (upd p nd' σ) E TT'.
Proof.
  intros HI Hp Hok Hsame Ht. apply (rt_inv_retag _ _ _ E TT TT' l (k / span (S l))); [done..| |done].
  intros l' q' p' _ Hne t i Ht' Hi. unfold tag_bits.
  enough (forall k', k' / span l' = 64 * q' + i -> k' ∈ TT' l' t <-> k' ∈ TT l' t) by naive_solver.
  intros k' Hk'. apply Hsame; [done|]. intros [-> Hq]. apply Hne. f_equal.
  rewrite <- Hq, div_span_S, Hk'. symmetry. by apply kid_div.
Qed.

(** A function with one value replaced. *)
Definition fupd {A} (f : Z -> A) (t : Z) (x : A) (t' : Z) : A := if decide (t' = t) then x else f t'.

Lemma fupd_eq {A} (f : Z -> A) t x : fupd f t x t = x.
Proof. unfold fupd. by rewrite decide_True. Qed.
Lemma fupd_ne {A} (f : Z -> A) t x t' : t' <> t -> fupd f t x t' = f t'.
Proof. intros. unfold fupd. by rewrite decide_False. Qed.

(** * Setting a tag *)

(** The levels from [l] on have been visited. *)
Definition mix (l : nat) (T T' : Z -> gset Z) : tmap := fun l' => if decide (l <= l')%nat then T' else T.

Lemma tag_set_loop_spec σ E T k x l s t slot (T' := fupd T t ({[k]} ∪ T t)) :
  rt σ E (mix l T T') -> is_u32 k -> (l <= height σ)%nat -> shift_ok l s -> 0 <= t < 2 ->
  E !! (0%nat, k) = Some x -> slot = E !! at_level k l ->
  exists ns', tag_set_loop l k s t slot σ = Some (Some x, set_nodes ns' σ) /\
    rt (set_nodes ns' σ) E (fun _ => T') /\ forall p, ~ is_node E p -> ns' !! p = nodes σ !! p.
Proof.
  intros HI Hk. revert σ s slot HI. induction l as [|l IH]; intros σ s slot HI Hl Hs Ht Hx Hslot; cbn [tag_set_loop].
  { exists (nodes σ). rewrite Hslot, at_level_0, Hx.
    assert (Hid : set_nodes (nodes σ) σ = σ) by (by destruct σ). rewrite Hid. split; [done|]. split; [|done].
    eapply rt_inv_tags; [exact HI|done|]. intros l0 t' k'. apply (ri_tags _ _ _ _ _ HI 0%nat). }
  assert (Hup : forall l', (l' <= height σ)%nat -> is_Some (E !! at_level k l')).
  { intros l' Hl'. apply (ancestor HI k 0); [by rewrite at_level_0, Hx; eexists|lia]. }
  destruct (Hup (S l) Hl) as [p Hp]. rewrite Hslot, Hp, (Hs _ eq_refl), offset_at_digit by apply Hk.
  destruct (node_at HI _ _ _ Hp) as (nd & Hnd & Hok).
  destruct (tag_set_eq _ _ _ _ _ Hnd (nr_core _ _ _ Hok) t _ Ht (digit_range k l)) as (nd' & E1 & Hc & Hsl & Hcore).
  sm_step E1.
  assert (HI1 : rt (upd p nd' σ) E (mix l T T')).
  { apply (retag σ E (mix (S l) T T') _ k l); [done|done| | |].
    - eapply (node_rep_words _ _ _ nd); [exact Hok| |done|done]. eapply node_core_ext; [reflexivity| |exact Hcore].
      intros t' i Ht' Hi. unfold tag_bits, mix. rewrite decide_False, decide_True by lia.
      unfold T', fupd. case_decide as Hc'.
      + subst t'. setoid_rewrite elem_of_union. setoid_rewrite elem_of_singleton.
        pose proof (digit_iff k l i). naive_solver.
      + naive_solver.
    - intros l' t' k' Ht' Hne. unfold mix. destruct (decide (l' = l)) as [->|?].
      + rewrite decide_True, decide_False by lia. unfold T', fupd. case_decide; [|done]. subst t'.
        rewrite elem_of_union, elem_of_singleton. naive_solver.
      + destruct (decide (S l <= l')%nat); [rewrite decide_True by lia|rewrite decide_False by lia]; done.
    - intros l0 t' k' Ht'. unfold mix, T', fupd. pose proof (ri_tags _ _ _ _ _ HI l t' k' Ht') as Hold.
      unfold mix in Hold. rewrite decide_False in Hold by lia. case_decide; [|done]. case_decide; [|done].
      subst t'. rewrite elem_of_union, elem_of_singleton. intros [->|?]; [rewrite Hx; eauto|auto]. }
  sm_step (get_child _ _ _ _ _ _ HI1 Hp). destruct (Hup l ltac:(lia)) as [c Hc']. rewrite Hc'.
  rewrite bool_decide_eq_false_2 by done. cbn [BUG_ON]. sm.
  destruct (IH (upd p nd' σ) (6 * Z.of_nat l -u RADIX_TREE_MAP_SHIFT) (Some c) HI1) as (ns' & -> & HI' & Hfr);
    [cbn; lia| |done|done|done|].
  { rewrite <- (Hs _ eq_refl). apply shift_ok_next; [pose proof (ri_height _ _ _ _ _ HI); lia|done]. }
  exists ns'. split; [done|]. split; [done|]. intros p' Hp'. rewrite Hfr by done. cbn.
  rewrite lookup_insert_ne; [done|]. intros <-. apply Hp'. by eexists _, _.
Qed.

Lemma tag_set_spec σ E T k x t (T' := fupd T t ({[k]} ∪ T t)) :
  rt σ E (fun _ => T) -> is_u32 k -> 0 <= t < 2 -> E !! (0%nat, k) = Some x ->
  exists ns', radix_tree_tag_set k t σ = Some (Some x, set_nodes ns' σ) /\
    rt (set_nodes ns' σ) E (fun _ => T') /\ forall p, ~ is_node E p -> ns' !! p = nodes σ !! p.
Proof.
  intros HI Hk Ht Hx. unfold radix_tree_tag_set. sm.
  destruct (maxindex_lookup (height σ) ltac:(apply HI)) as (m & -> & _ & Hm). sm.
  destruct (key_range HI k) as [_ Hlt]; [rewrite Hx; eauto|]. rewrite decide_False by (rewrite Hm by done; lia).
  sm. apply (tag_set_loop_spec σ E T k x); [|done|done|apply top_shift_ok; apply HI|done|done|].
  - eapply rt_inv_tags; [exact HI| |].
    + intros l q p Hp t' i _ _. unfold tag_bits, mix. rewrite decide_False; [done|].
      apply (ri_range _ _ _ _ _ HI) in Hp. lia.
    + intros l0 t' k' Ht'. unfold mix, T', fupd. pose proof (ri_tags _ _ _ _ _ HI 0%nat t' k' Ht') as Hold.
      do 2 (case_decide; [|done]). subst t'. rewrite elem_of_union, elem_of_singleton.
      intros [->|?]; [rewrite Hx; eauto|auto].
  - rewrite (ri_root _ _ _ _ _ HI). unfold at_level. by rewrite span_u32.
Qed.

(** * The path to a key *)

Definition path_from (E : emap) (k : Z) (l n : nat) : rpath :=
  (fun j => (E !! at_level k (S j), digit k j)) <$> seq l n.

Lemma walk_path_spec σ E TT k l s slot :
  rt σ E TT -> is_u32 k -> (l <= height σ)%nat -> shift_ok l s -> slot = E !! at_level k l ->
  exists res, walk_path l k s slot (path_from E k l (height σ - l)) σ = Some (res, σ) /\
    match E !! (0%nat, k) with
    | Some x => res = Some (path_from E k 0 (height σ), Some x)
    | None => res = None \/ exists path, res = Some (path, None)
    end.
Proof.
  intros HI Hk. pose proof (ri_height _ _ _ _ _ HI) as Hh. revert s slot.
  induction l as [|l IH]; intros s slot Hl Hs ->; cbn [walk_path].
  { eexists. split; [reflexivity|]. rewrite at_level_0, Nat.sub_0_r.
    destruct (E !! (0%nat, k)); eauto. }
  destruct (E !! at_level k (S l)) as [p|] eqn:Hp.
  - rewrite (Hs _ eq_refl), offset_at_digit by apply Hk. unfold push_path.
    rewrite decide_True; [|unfold path_from; rewrite length_fmap, length_seq; unfold RADIX_TREE_MAX_PATH; lia].
    sm. sm_step (get_child _ _ _ _ _ _ HI Hp).
    replace ((Some p, digit k l) :: path_from E k (S l) (height σ - S l)) with (path_from E k l (height σ - l)).
    + apply IH; [lia| |done]. rewrite <- (Hs _ eq_refl). apply shift_ok_next; [lia|done].
    + replace (height σ - l)%nat with (S (height σ - S l)) by lia. unfold path_from. cbn [seq fmap list_fmap].
      by rewrite Hp.
  - eexists. split; [reflexivity|].
    pose proof (below_none HI k 0 (S l) Hp ltac:(lia)) as Hn. rewrite at_level_0 in Hn. rewrite Hn. auto.
Qed.

(** * Clearing tags *)

(** [k] is untagged at all levels when [kept] is set, and otherwise below level [l]. *)
Definition cleared (kept : bool) (l : nat) (k : Z) (S : gset Z) (l' : nat) : gset Z :=
  if kept || bool_decide (l' < l)%nat then S ∖ {[k]} else S.

Definition clearing (T : Z -> gset Z) (k : Z) (kept : Z -> bool) (lv : Z -> nat) : tmap :=
  fun l' t => cleared (kept t) (lv t) k (T t) l'.

(** Below the position of [k] at level [l] no other key is tagged. *)
Definition alone (S : gset Z) (k : Z) (l : nat) : Prop :=
  forall k', k' ∈ S -> k' <> k -> k' / span l <> k / span l.

Lemma alone_0 S k : alone S k 0.
Proof. intros k' _ Hne. by rewrite !div_span_0. Qed.

Lemma div_span_mono k k' l l' : (l <= l')%nat -> k / span l = k' / span l -> k / span l' = k' / span l'.
Proof.
  intros Hle Heq. induction Hle as [|l' _ IH]; [done|]. by rewrite !div_span_S, IH.
Qed.

Lemma cleared_sub kept l k S l' k' : k' ∈ cleared kept l k S l' -> k' ∈ S.
Proof. unfold cleared. destruct (_ || _); set_solver. Qed.

Lemma clearing_ok σ E T k kept lv kept' lv' :
  rt σ E (clearing T k kept lv) -> is_Some (E !! (0%nat, k)) ->
  forall l0 t k', 0 <= t < 2 -> k' ∈ clearing T k kept' lv' l0 t -> is_Some (E !! (0%nat, k')).
Proof.
  intros HI Hk l0 t k' Ht Hin%cleared_sub. destruct (decide (k' = k)) as [->|Hne]; [done|].
  apply (ri_tags _ _ _ _ _ HI 0%nat t); [done|]. unfold clearing, cleared. destruct (_ || _); set_solver.
Qed.

(** Once another tagged key is found beside [k], the levels above do not change. *)
Lemma clearing_keep σ E T k lv kept t l k' :
  rt σ E (clearing T k kept lv) -> is_Some (E !! (0%nat, k)) -> lv t = S l ->
  k' ∈ T t -> k' <> k -> k' / span (S l) = k / span (S l) ->
  rt σ E (clearing T k (fupd kept t true) lv).
Proof.
  intros HI Hk Hlv Hk' Hne Hq. eapply rt_inv_tags; [exact HI| |by eapply clearing_ok].
  intros l1 q1 p1 _ t1 i Ht1 Hi. unfold tag_bits, clearing. destruct (decide (t1 = t)) as [->|?].
  2: { by rewrite fupd_ne. }
  rewrite fupd_eq. unfold cleared. destruct (kept t); cbn [orb]; [done|]. case_bool_decide as Hlt; [done|].
  split; [|set_solver]. intros (k1 & Hin & Hk1). destruct (decide (k1 = k)) as [->|?]; [|set_solver].
  exists k'. split; [set_solver|]. rewrite <- Hk1. apply (div_span_mono _ _ (S l)); [lia|done].
Qed.

Lemma clear_round σ E T k kept lv l p t :
  rt σ E (clearing T k kept lv) -> is_Some (E !! (0%nat, k)) -> 0 <= t < 2 -> kept t = false -> lv t = l ->
  alone (T t) k l -> E !! at_level k (S l) = Some p ->
  exists nd' b, tag_clear (Some p) t (digit k l) σ = Some (tt, upd p nd' σ) /\
    any_tag (Some p) t (upd p nd' σ) = Some (b, upd p nd' σ) /\
    rt (upd p nd' σ) E (clearing T k (fupd kept t b) (fupd lv t (S l))) /\
    (b = false -> alone (T t) k (S l)).
Proof.
  intros HI Hk Ht Hkept Hlv Hal Hp. destruct (node_at HI _ _ _ Hp) as (nd & Hnd & Hok).
  destruct (tag_clear_eq _ _ _ _ _ Hnd (nr_core _ _ _ Hok) t _ Ht (digit_range k l)) as (nd' & E1 & Hc & Hsl & Hcore).
  exists nd'. set (TT' := clearing T k kept (fupd lv t (S l))).
  assert (Hok' : node_ok E TT' l (k / span (S l)) nd').
  { eapply (node_rep_words _ _ _ nd); [exact Hok| |done|done]. eapply node_core_ext; [reflexivity| |exact Hcore].
    intros t' i Ht' Hi. unfold tag_bits, TT', clearing. destruct (decide (t' = t)) as [->|?].
    2: { rewrite fupd_ne by done. naive_solver. }
    rewrite fupd_eq, Hkept, Hlv. unfold cleared. cbn [orb].
    rewrite (bool_decide_eq_false_2 (l < l)%nat), (bool_decide_eq_true_2 (l < S l)%nat) by lia.
    pose proof (digit_iff k l i). split.
    - intros [Hne (k' & Hin & Hq)]. exists k'. split; [|done]. assert (k' <> k) by (intros ->; naive_solver). set_solver.
    - intros (k' & Hin & Hq). apply elem_of_difference in Hin as [Hin Hne]. split; [|eauto].
      intros [_ ->]. rewrite digit_child in Hq. apply (Hal k'); [done|set_solver|done]. }
  assert (HI1 : rt (upd p nd' σ) E TT').
  { apply (retag σ E (clearing T k kept lv) _ k l); [done|done|done| |by eapply clearing_ok].
    intros l' t' k' Ht' Hne. unfold TT', clearing. destruct (decide (t' = t)) as [->|?]; [|by rewrite fupd_ne].
    rewrite fupd_eq, Hkept, Hlv. unfold cleared. cbn [orb]. destruct (decide (l' = l)) as [->|?].
    - rewrite (bool_decide_eq_false_2 (l < l)%nat), (bool_decide_eq_true_2 (l < S l)%nat) by lia.
      assert (k' <> k) by naive_solver. set_solver.
    - destruct (decide (l' < l)%nat); [rewrite !bool_decide_eq_true_2 by lia|rewrite !bool_decide_eq_false_2 by lia]; done. }
  destruct (any_tag_eq _ _ _ _ _ (upd_lookup p nd' σ) (nr_core _ _ _ Hok') t Ht) as (b & E2 & Hb).
  assert (Hb' : b = true <-> exists k', k' ∈ T t /\ k' <> k /\ k' / span (S l) = k / span (S l)).
  { rewrite Hb. unfold tag_bits, TT', clearing, cleared.
    rewrite fupd_eq, Hkept, (bool_decide_eq_true_2 (l < S l)%nat) by lia. cbn [orb]. split.
    - intros (i & Hi & k' & Hin & Hq). exists k'. split; [set_solver|]. split; [set_solver|].
      rewrite (div_span_S k'), Hq. by apply kid_div.
    - intros (k' & Hin & Hne & Hq). exists (digit k' l). split; [apply digit_range|]. exists k'. split; [set_solver|].
      rewrite <- Hq. by rewrite digit_child. }
  exists b. split; [done|]. split; [done|]. destruct b; split.
  - destruct (proj1 Hb' eq_refl) as (k' & ? & ? & ?). by eapply (clearing_keep _ _ _ _ _ _ _ l k'); [| |apply fupd_eq|..].
  - done.
  - eapply rt_inv_tags; [exact HI1| |by eapply clearing_ok]. intros l1 q1 p1 _ t1 i _ _.
    assert (Hk' : fupd kept t false t1 = kept t1) by (unfold fupd; case_decide; congruence).
    unfold TT', clearing, tag_bits. by rewrite Hk'.
  - intros _ k' Hin Hne Hq. assert (false = true) by (apply Hb'; eauto). done.
Qed.

(** [radix_tree_tag_clear] goes up until a node keeps the tag. *)
Lemma tag_clear_loop_spec σ E T k t l n (lv := fupd (fun _ => O) t l) :
  rt σ E (clearing T k (fun _ => false) lv) -> is_Some (E !! (0%nat, k)) -> 0 <= t < 2 ->
  (height σ = l + S n)%nat -> alone (T t) k l ->
  exists ns', tag_clear_loop t (path_from E k l (S n)) σ = Some (tt, set_nodes ns' σ) /\
    rt (set_nodes ns' σ) E (fun _ => fupd T t (T t ∖ {[k]})) /\ forall p, ~ is_node E p -> ns' !! p = nodes σ !! p.
Proof.
  revert σ l lv. induction n as [n IH] using lt_wf_ind; intros σ l lv HI Hk Ht Hh Hal.
  destruct (ancestor HI k 0 (S l)) as [p Hp]; [by rewrite at_level_0|lia|].
  unfold path_from. cbn [seq fmap list_fmap tag_clear_loop]. rewrite Hp.
  destruct (clear_round σ E T k (fun _ => false) lv l p t HI Hk Ht eq_refl ltac:(apply fupd_eq) Hal Hp)
    as (nd' & b & E1 & E2 & HI1 & Hb).
  sm_step E1. sm_step E2.
  assert (Hfr : forall p', ~ is_node E p' -> <[p := nd']> (nodes σ) !! p' = nodes σ !! p').
  { intros p' Hp'. rewrite lookup_insert_ne; [done|]. intros <-. apply Hp'. by eexists _, _. }
  assert (Hdone : b = true \/ height σ = S l -> rt (upd p nd' σ) E (fun _ => fupd T t (T t ∖ {[k]}))).
  { intros Hd. eapply rt_inv_tags; [exact HI1| |].
    - intros l1 q1 p1 Hp1 t1 i _ _. unfold tag_bits, clearing, cleared. destruct (decide (t1 = t)) as [->|?].
      + rewrite !fupd_eq. replace (b || bool_decide (l1 < S l)%nat) with true; [done|].
        destruct b; [done|]. destruct Hd as [?|Hd]; [done|]. symmetry. apply bool_decide_eq_true.
        apply (ri_range _ _ _ _ _ HI) in Hp1. lia.
      + unfold lv. rewrite !fupd_ne by done. cbn [orb]. by rewrite bool_decide_eq_false_2 by lia.
    - intros l1 t1 k1 Ht1 Hin. eapply (clearing_ok _ _ _ _ _ _ (fun _ => false) (fun _ => O) HI Hk 0%nat t1); [done|].
      unfold clearing, cleared. cbn. revert Hin. unfold fupd. case_decide; [subst t1; set_solver|done]. }
  destruct b; [|destruct n as [|n]].
  - exists (<[p := nd']> (nodes σ)). split; [done|]. split; [|done]. apply Hdone. auto.
  - exists (<[p := nd']> (nodes σ)). split; [done|]. split; [|done]. apply Hdone. lia.
  - destruct (IH n ltac:(lia) (upd p nd' σ) (S l)) as (ns' & Hl & HI' & Hfr').
    + eapply rt_inv_tags; [exact HI1| |by eapply clearing_ok]. intros l1 q1 p1 _ t1 i _ _.
      unfold tag_bits, clearing, cleared, lv, fupd. case_decide; done.
    + done.
    + done.
    + cbn. lia.
    + by apply Hb.
    + exists ns'. split; [exact Hl|]. split; [exact HI'|]. intros p' Hp'. rewrite Hfr' by done. by apply Hfr.
Qed.

Lemma tag_clear_spec σ E T k t :
  rt σ E (fun _ => T) -> is_u32 k -> 0 <= t < 2 ->
  exists ns', radix_tree_tag_clear k t σ = Some (E !! (0%nat, k), set_nodes ns' σ) /\
    rt (set_nodes ns' σ) E (fun _ => fupd T t (T t ∖ {[k]})) /\ forall p, ~ is_node E p -> ns' !! p = nodes σ !! p.
Proof.
  intros HI Hk Ht. unfold radix_tree_tag_clear. sm.
  assert (Hid : set_nodes (nodes σ) σ = σ) by (by destruct σ).
  assert (Hnone : E !! (0%nat, k) = None -> exists ns', Some (None, σ) = Some (E !! (0%nat, k), set_nodes ns' σ) /\
    rt (set_nodes ns' σ) E (fun _ => fupd T t (T t ∖ {[k]})) /\ forall p, ~ is_node E p -> ns' !! p = nodes σ !! p).
  { intros Hn. exists (nodes σ). rewrite Hid, Hn. split; [done|]. split; [|done].
    assert (Hnin : k ∉ T t). { intros Hin. apply (ri_tags _ _ _ _ _ HI 0%nat) in Hin as [? ?]; [congruence|done]. }
    eapply rt_inv_tags; [exact HI| |].
    - intros l q p _ t' i _ _. unfold tag_bits, fupd. case_decide; [subst t'; set_solver|done].
    - intros l t' k' Ht' Hin. apply (ri_tags _ _ _ _ _ HI 0%nat t'); [done|]. revert Hin. unfold fupd.
      case_decide; [subst t'; set_solver|done]. }
  destruct (maxindex_lookup (height σ) ltac:(apply HI)) as (m & -> & _ & Hm). sm. case_decide as Hlt.
  { apply Hnone. apply (key_high HI). by apply Hm. }
  rewrite Hm in Hlt by done. sm.
  destruct (walk_path_spec σ E _ k (height σ) (top_shift (height σ)) (rnode σ) HI Hk) as (res & Hw & Hres).
  { done. } { apply top_shift_ok, HI. }
  { rewrite (ri_root _ _ _ _ _ HI). unfold at_level. rewrite span_u32; [done|done|lia]. }
  rewrite Nat.sub_diag in Hw. sm_step Hw. destruct (E !! (0%nat, k)) as [x|] eqn:Hx.
  2: { destruct Hres as [->|[path ->]]; by apply Hnone. }
  subst res. destruct (height σ) as [|n] eqn:Hh.
  { exfalso. pose proof (root_none_empty HI (ri_zero _ _ _ _ _ HI Hh)) as ->. done. }
  destruct (tag_clear_loop_spec σ E T k t 0 n) as (ns' & Hl & HI' & Hfr).
  - eapply rt_inv_tags; [exact HI| |].
    + intros l q p _ t' i _ _. unfold tag_bits, clearing, cleared, fupd. cbn [orb]. case_decide; done.
    + intros l t' k' Ht' Hin%cleared_sub. by apply (ri_tags _ _ _ _ _ HI 0%nat t').
  - rewrite Hx. by eexists.
  - done.
  - done.
  - apply alone_0.
  - exists ns'. sm_step Hl. done.
Qed.
