(* ===== verification/RadixDelete.v ===== *)
(** Deletion from the radix tree: the tags of the key go first, then the item and the nodes
    that become empty. *)
From Stdlib Require Import ZArith Lia.
From stdpp Require Import base numbers list list_numbers option gmap.
From S2P Require Import Prelude Bitops Radix RadixTree RadixOps RadixTags.

Local Open Scope Z_scope.
Local Open Scope kernel_scope.

Import Radix.

(** * Tags *)

Lemma delete_tag_spec σ E T k kept lv l p t nr :
  rt σ E (clearing T k kept lv) -> is_Some (E !! (0%nat, k)) -> 0 <= t < 2 ->
  (kept t = false -> lv t = l /\ alone (T t) k l) -> E !! at_level k (S l) = Some p ->
  exists (b : bool) ns', delete_tag (Some p) (digit k l) t (kept t) nr σ =
      Some ((b, if kept t then nr else if b then nr - 1 else nr), set_nodes ns' σ) /\
    rt (set_nodes ns' σ) E (clearing T k (fupd kept t b) (fupd lv t (S l))) /\
    (b = false -> kept t = false /\ alone (T t) k (S l)) /\
    forall p, ~ is_node E p -> ns' !! p = nodes σ !! p.
Proof.
  intros HI Hk Ht Hal Hp. unfold delete_tag. destruct (kept t) eqn:Hkept.
  - exists true, (nodes σ). assert (Hid : set_nodes (nodes σ) σ = σ) by (by destruct σ). rewrite Hid.
    split; [done|]. split; [|done]. eapply rt_inv_tags; [exact HI| |by eapply clearing_ok].
    intros l1 q1 p1 _ t1 i _ _. unfold tag_bits, clearing, cleared. destruct (decide (t1 = t)) as [->|?].
    + by rewrite !fupd_eq, Hkept.
    + by rewrite !fupd_ne by done.
  - destruct (Hal eq_refl) as [Hlv Hal'].
    destruct (clear_round σ E T k kept lv l p t HI Hk Ht Hkept Hlv Hal' Hp) as (nd' & b & E1 & E2 & HI1 & Hb).
    exists b, (<[p := nd']> (nodes σ)). sm_step E1. sm_step E2. split; [by destruct b|]. split; [done|].
    split; [auto|]. intros p' Hp'. rewrite lookup_insert_ne; [done|]. intros <-. apply Hp'. by eexists _, _.
Qed.

Definition two (t0 t1 : bool) (t : Z) : bool := if decide (t = 0) then t0 else t1.

Lemma delete_tags_loop_spec σ E T k l n t0 t1 :
  rt σ E (clearing T k (two t0 t1) (fun _ => l)) -> is_Some (E !! (0%nat, k)) ->
  (height σ = l + S n)%nat -> (t0 = false -> alone (T 0) k l) -> (t1 = false -> alone (T 1) k l) ->
  exists ns', delete_tags_loop (path_from E k l (S n)) t0 t1 σ = Some (tt, set_nodes ns' σ) /\
    rt (set_nodes ns' σ) E (fun _ t => T t ∖ {[k]}) /\ forall p, ~ is_node E p -> ns' !! p = nodes σ !! p.
Proof.
  revert σ l t0 t1. induction n as [n IH] using lt_wf_ind; intros σ l t0 t1 HI Hk Hh Ha0 Ha1.
  destruct (ancestor HI k 0 (S l)) as [p Hp]; [by rewrite at_level_0|lia|].
  unfold path_from. cbn [seq fmap list_fmap delete_tags_loop]. rewrite Hp.
  destruct (delete_tag_spec σ E T k _ _ l p 0 RADIX_TREE_TAGS HI Hk ltac:(lia) ltac:(auto) Hp)
    as (b0 & ns0 & E0 & HI0 & Hb0 & Hf0).
  change (two t0 t1 0) with t0 in *. sm_step E0.
  destruct (delete_tag_spec (set_nodes ns0 σ) E T k _ _ l p 1 (if t0 then RADIX_TREE_TAGS else if b0 then RADIX_TREE_TAGS - 1 else RADIX_TREE_TAGS) HI0 Hk ltac:(lia) ltac:(auto) Hp)
    as (b1 & ns1 & E1 & HI1 & Hb1 & Hf1).
  change (fupd (two t0 t1) 0 b0 1) with t1 in *. sm_step E1. cbn in Hf1.
  change (set_nodes ns1 (set_nodes ns0 σ)) with (set_nodes ns1 σ) in *.
  assert (Hfr : forall p', ~ is_node E p' -> ns1 !! p' = nodes σ !! p').
  { intros p' Hp'. rewrite Hf1 by done. auto. }
  assert (HI2 : rt (set_nodes ns1 σ) E (clearing T k (two b0 b1) (fun _ => S l))).
  { eapply rt_inv_tags; [exact HI1| |by eapply clearing_ok]. intros l1 q1 p1 _ t i Ht _.
    assert (t = 0 \/ t = 1) as [-> | ->] by lia; done. }
  assert (Hdone : b0 = true /\ b1 = true \/ height σ = S l -> rt (set_nodes ns1 σ) E (fun _ t => T t ∖ {[k]})).
  { intros Hd. eapply rt_inv_tags; [exact HI2| |].
    - intros l1 q1 p1 Hp1 t i Ht _. unfold tag_bits, clearing, cleared.
      replace (two b0 b1 t || bool_decide (l1 < S l)%nat) with true; [done|]. symmetry. apply orb_true_iff.
      destruct Hd as [[-> ->]|Hd]; [left; unfold two; by case_decide|right]. apply bool_decide_eq_true.
      apply (ri_range _ _ _ _ _ HI) in Hp1. lia.
    - intros l1 t k1 Ht Hin. eapply (clearing_ok _ _ _ _ _ _ (fun _ => false) (fun _ => O) HI Hk 0%nat t); [done|].
      unfold clearing, cleared. cbn. set_solver. }
  destruct n as [|n].
  - exists ns1. split; [done|]. split; [|done]. apply Hdone. lia.
  - cbn [seq fmap list_fmap]. case_decide as Hnr.
    + destruct (IH n ltac:(lia) (set_nodes ns1 σ) (S l) b0 b1 HI2 Hk ltac:(cbn; lia)) as (ns' & Hl & HI' & Hfr').
      { intros H. by apply Hb0. } { intros H. by apply Hb1. }
      exists ns'. split; [exact Hl|]. split; [exact HI'|]. intros p' Hp'. rewrite Hfr' by done. by apply Hfr.
    + exists ns1. split; [done|]. split; [|done]. apply Hdone. left.
      destruct t0, t1, b0, b1; try done; exfalso; apply Hnr; done.
Qed.

Lemma upd_some p nd σ p' : is_Some (nodes σ !! p') -> is_Some (nodes (upd p nd σ) !! p').
Proof.
  intros Hp. cbn. destruct (decide (p' = p)) as [->|?]; [rewrite lookup_insert_eq; eauto|by rewrite lookup_insert_ne].
Qed.

(** * Items and nodes *)

(** The freed objects are answers of later allocations. *)
Definition refill (fs : list loc) (σ : rstate) : rstate := set_kmem (kmem σ ++ (Some <$> fs)) σ.

Lemma avail_refill fs σ : avail (refill fs σ) = avail σ ++ fs.
Proof.
  unfold avail, refill. cbn. rewrite <- app_assoc. f_equal. rewrite omap_app. f_equal.
  induction fs as [|p fs IH]; [done|]. cbn. by rewrite IH.
Qed.

Lemma is_node_delete (E : emap) pos p : is_node (delete pos E) p -> is_node E p.
Proof. intros (l & q & Hp). rewrite lookup_delete_Some in Hp. exists l, q. apply Hp. Qed.

(** The empty node [x] at level [l] leaves the tree and becomes available. *)
Definition gone (l : nat) (x : loc) : list loc := if decide (l = O) then [] else [x].

Lemma is_node_gone (h : nat) (r : ptr) (ns : gmap loc radix_tree_node) (E : emap) (TT : tmap) (k : Z) (l : nat) (x p : loc) :
  rt_inv h r ns E TT -> E !! at_level k l = Some x ->
  is_node E p <-> is_node (delete (at_level k l) E) p \/ p ∈ gone l x.
Proof.
  intros HI Hx. unfold gone. split.
  - intros (l' & q' & Hp). destruct (decide (at_level k l = (S l', q'))) as [Heq|Hne].
    + right. rewrite Heq in Hx. case_decide; [|set_solver]. unfold at_level in Heq. injection Heq. intros _ ?. lia.
    + left. exists l', q'. by rewrite lookup_delete_ne.
  - intros [Hp|Hp]; [by eapply is_node_delete|]. case_decide; [set_solver|]. destruct l as [|l]; [done|].
    apply list_elem_of_singleton in Hp as ->. by eexists _, _.
Qed.

Lemma slab_ok_gone σ σ1 E TT ex k l x :
  rt σ E TT -> slab_ok (refill ex σ) E -> E !! at_level k l = Some x ->
  (l <> O -> nodes σ !! x = Some radix_tree_node_ctor) ->
  preloads σ1 = preloads σ -> kmem σ1 = kmem σ ->
  (forall p, p ∈ avail (refill ex σ) -> nodes σ1 !! p = nodes σ !! p) ->
  (l <> O -> nodes σ1 !! x = nodes σ !! x) ->
  slab_ok (refill (ex ++ gone l x) σ1) (delete (at_level k l) E).
Proof.
  intros HI [Hnd Hf Hc Hpre] Hx Hct Hp1 Hk1 Hn1 Hnx.
  assert (Hav : avail (refill (ex ++ gone l x) σ1) = avail (refill ex σ) ++ gone l x).
  { rewrite !avail_refill, <- app_assoc. unfold avail. by rewrite Hp1, Hk1. }
  assert (Hgone : forall p, p ∈ gone l x -> l <> O /\ p = x).
  { unfold gone. case_decide; set_solver. }
  split; rewrite ?Hav.
  - apply NoDup_app. split; [done|]. split.
    + intros p Hp [Hl0 ->]%Hgone. apply (Hf x Hp). destruct l as [|l]; [done|]. by eexists _, _.
    + unfold gone. case_decide; [apply NoDup_nil_2|apply NoDup_singleton].
  - intros p [Hp|Hp]%elem_of_app Hnode.
    + apply (Hf p Hp). by eapply is_node_delete.
    + apply Hgone in Hp as [Hl0 ->]. destruct l as [|l]; [done|]. destruct Hnode as (l' & q' & Hp').
      rewrite lookup_delete_Some in Hp'. destruct Hp' as [Hne Hp']. apply Hne.
      destruct (ri_inj _ _ _ _ _ HI _ _ _ _ _ Hx Hp') as [-> <-]. done.
  - intros p [Hp|Hp]%elem_of_app; cbn.
    + rewrite Hn1 by done. by apply Hc.
    + apply Hgone in Hp as [Hl0 ->]. rewrite Hnx by done. auto.
  - intros p Hp. cbn in Hp |- *. rewrite Hp1 in Hp. rewrite Hn1; [by apply Hpre|].
    unfold avail. cbn. set_solver.
Qed.

(** A tree whose root has no children is empty without its root. *)
Lemma root_only h r ns E TT k x :
  rt_inv (S h) r ns E TT -> E !! at_level k (S h) = Some x ->
  (forall i, 0 <= i < 64 -> kids E h (k / span (S h)) i = None) -> delete (at_level k (S h)) E = ∅.
Proof.
  intros HI Hx Hkids. pose proof (ri_range _ _ _ _ _ HI _ _ _ Hx) as (_ & _ & _ & Hz). specialize (Hz eq_refl).
  apply map_empty. intros [l q]. apply eq_None_not_Some. intros [p Hp].
  rewrite lookup_delete_Some in Hp. destruct Hp as [Hne Hp]. unfold at_level in Hne. rewrite Hz in *.
  pose proof (ri_range _ _ _ _ _ HI _ _ _ Hp) as (Hl & Hq & _ & Hq0).
  destruct (decide (l = S h)) as [->|Hlt]; [by rewrite Hq0 in Hne|].
  set (k1 := q * span l).
  destruct (ancestor HI k1 l h) as [p1 Hp1]; [unfold k1; rewrite at_level_mul, Hp; eauto|lia|].
  destruct (ri_parent _ _ _ _ _ HI _ _ _ Hp1 ltac:(lia)) as [p2 Hp2].
  pose proof (ri_range _ _ _ _ _ HI _ _ _ Hp2) as (_ & _ & _ & Hz2). specialize (Hz2 eq_refl).
  pose proof (Z.mod_pos_bound (k1 / span h) 64 ltac:(lia)) as Hm. specialize (Hkids _ Hm).
  unfold kids in Hkids. rewrite <- Hz2, <- child_split in Hkids. unfold at_level in Hp1. congruence.
Qed.

Lemma path_from_delete E k l n : path_from (delete (at_level k l) E) k (S l) n = path_from E k (S l) n.
Proof.
  unfold path_from. apply list_fmap_ext. intros i j Hj. apply lookup_seq in Hj as [-> _]. f_equal.
  apply lookup_delete_ne. unfold at_level. intros [=]. lia.
Qed.

Definition untagged (T : Z -> gset Z) (k : Z) (l : nat) : Prop :=
  forall t k', 0 <= t < 2 -> k' ∈ T t -> k' / span l <> k / span l.

Definition childless (E : emap) (k : Z) (l : nat) : Prop :=
  forall l0 i, l = S l0 -> 0 <= i < 64 -> kids E l0 (k / span l) i = None.

(** What is at the position of [k] at level [l] is taken out of the slot of its parent [p]. *)
Lemma drop_spec σ E T ex k l x p :
  rt σ E (fun _ => T) -> slab_ok (refill ex σ) E -> E !! at_level k l = Some x -> childless E k l ->
  untagged T k l -> (l < height σ)%nat -> (l <> O -> nodes σ !! x = Some radix_tree_node_ctor) ->
  E !! at_level k (S l) = Some p ->
  exists nd1 c, (forall A (K : Z -> RM A),
      (set_slot (Some p) (digit k l) None;; cn ← get_count (Some p); set_count (Some p) (cn -u 1);; K (cn -u 1)) σ =
      K c (upd p nd1 σ)) /\
    c = count nd1 /\
    rt (upd p nd1 σ) (delete (at_level k l) E) (fun _ => T) /\
    slab_ok (refill (ex ++ gone l x) (upd p nd1 σ)) (delete (at_level k l) E) /\
    forall p', ~ is_node E p' -> nodes (upd p nd1 σ) !! p' = nodes σ !! p'.
Proof.
  intros HI Hsl Hx Hkids Hun Hl Hct Hp. destruct (node_at HI _ _ _ Hp) as (nd & Hnd & Hok).
  assert (Hkid : kids E l (k / span (S l)) (digit k l) = Some x) by (unfold kids; by rewrite digit_child).
  set (nd1 := with_slot nd (digit k l) None (-1)). exists nd1, (count nd - 1).
  assert (Hrest : forall l' q' p', E !! (S l', q') = Some p' -> (l', q') <> (l, k / span l / 64) ->
    <[p := nd1]> (nodes σ) !! p' = nodes σ !! p').
  { intros l' q' p' Hp' Hne. rewrite lookup_insert_ne; [done|]. intros <-. apply Hne.
    destruct (ri_inj _ _ _ _ _ HI _ _ _ _ _ Hp Hp') as [<- <-]. by rewrite div_span_S. }
  split; [|split; [done|split; [|split]]].
  - intros A K. apply (drop_slot_eq _ _ _ _ _ Hnd Hok _ (digit_range k l) x K Hkid).
  - apply (rt_inv_remove HI l (k / span l) x); [done|lia|done|by intros _ ? ?; apply Hun| |done].
    exists p, nd. rewrite <- div_span_S. do 2 (split; [done|]). apply upd_lookup.
  - apply (slab_ok_gone σ _ E (fun _ => T)); try done.
    + intros p' Hp'. cbn. rewrite lookup_insert_ne; [done|]. intros <-. apply (sl_free _ _ Hsl _ Hp'). by eexists _, _.
    + intros Hl0. destruct l as [|l]; [done|]. cbn. apply (Hrest l (k / span (S l))); [done|]. intros [=]. lia.
  - intros p' Hp'. cbn. rewrite lookup_insert_ne; [done|]. intros <-. apply Hp'. by eexists _, _.
Qed.

(** A node whose count is zero has neither children nor tags: it is as good as new. *)
Lemma empty_node σ E T k l p nd :
  rt σ E (fun _ => T) -> E !! at_level k (S l) = Some p -> nodes σ !! p = Some nd -> count nd = 0 ->
  nd = radix_tree_node_ctor /\ childless E k (S l) /\ untagged T k (S l).
Proof.
  intros HI Hp Hnd Hc. destruct (node_at HI _ _ _ Hp) as (nd' & ? & Hok). simplify_eq.
  pose proof (ri_range _ _ _ _ _ HI _ _ _ Hp) as [Hl _].
  assert (Hkids : forall i, 0 <= i < 64 -> kids E l (k / span (S l)) i = None).
  { intros i Hi. pose proof (node_core_slot _ _ _ _ (nr_core _ _ _ Hok) Hi) as Hs.
    pose proof (nr_count _ _ _ Hok) as Hn. rewrite Hc in Hn. symmetry in Hn.
    apply nslots_zero in Hn. rewrite Forall_lookup in Hn. by apply Hn in Hs. }
  assert (Hun : untagged T k (S l)).
  { intros t k' Ht Hin Hq. destruct (tagged_above HI 0%nat t k' l Ht Hin) as [x Hx]; [lia|].
    pose proof (Hkids _ (digit_range k' l)) as Hn. unfold kids in Hn. rewrite <- Hq, digit_child in Hn.
    unfold at_level in Hx. congruence. }
  split; [|split; [|done]].
  - eapply ctor_unique; [exact Hok|done|]. intros t i Ht Hi (k' & Hin & Hq). apply (Hun t k' Ht Hin).
    rewrite (div_span_S k'), Hq. by apply kid_div.
  - intros l0 i [= <-]. apply Hkids.
Qed.

(** The last node is the root. *)
Lemma delete_root_spec σ E T ex k l x :
  rt σ E (fun _ => T) -> slab_ok (refill ex σ) E -> E !! at_level k l = Some x -> childless E k l ->
  untagged T k l -> height σ = l -> l <> O -> (l <> O -> nodes σ !! x = Some radix_tree_node_ctor) ->
  let σ' := set_height 0 (set_rnode None σ) in
  rt σ' ∅ (fun _ => T) /\ slab_ok (refill (ex ++ gone l x) σ') ∅ /\ delete (at_level k l) E = ∅.
Proof.
  intros HI Hsl Hx Hkids Hun Hh Hl0 Hct σ'. destruct l as [|l]; [lia|].
  assert (Hempty : delete (at_level k (S l)) E = ∅).
  { unfold rt in HI. rewrite Hh in HI. exact (root_only _ _ _ _ _ _ _ HI Hx (fun i => Hkids l i eq_refl)). }
  split; [|split; [|done]].
  - unfold rt. cbn. split; [lia|by rewrite lookup_empty|done|..].
    1-4: intros ? ? ? **; simplify_map_eq.
    intros l0 t k' Ht Hin. exfalso. apply (Hun t k' Ht Hin).
    destruct (tagged_above HI l0 t k' (S l) Ht Hin) as [p Hp]; [lia|].
    pose proof (ri_range _ _ _ _ _ HI _ _ _ Hp) as (_ & _ & _ & Hz).
    pose proof (ri_range _ _ _ _ _ HI _ _ _ Hx) as (_ & _ & _ & Hz'). by rewrite Hz, Hz'.
  - rewrite <- Hempty. by apply (slab_ok_gone σ _ E (fun _ => T)).
Qed.

Lemma delete_free_loop_spec n : forall σ E T ex k l x,
  rt σ E (fun _ => T) -> slab_ok (refill ex σ) E -> E !! at_level k l = Some x -> childless E k l ->
  untagged T k l -> height σ = (l + n)%nat -> height σ <> O ->
  (l <> O -> nodes σ !! x = Some radix_tree_node_ctor) ->
  exists σ' E' fs, delete_free_loop (path_from E k l n) σ = Some (tt, σ') /\
    rt σ' E' (fun _ => T) /\ slab_ok (refill (ex ++ gone l x ++ reverse fs) σ') E' /\
    (forall k', E' !! (0%nat, k') = delete (at_level k l) E !! (0%nat, k')) /\
    freed σ' = fs ++ freed σ /\ gfp_mask σ' = gfp_mask σ /\ preloads σ' = preloads σ /\ kmem σ' = kmem σ /\
    (rnode σ' = None -> height σ' = O) /\
    (forall p, is_node E p <-> is_node E' p \/ p ∈ gone l x ++ fs) /\
    (forall p, is_Some (nodes σ !! p) -> is_Some (nodes σ' !! p)) /\
    forall p, ~ is_node E p -> nodes σ' !! p = nodes σ !! p.
Proof.
  induction n as [|n IH]; intros σ E T ex k l x HI Hsl Hx Hkids Hun Hh Hh0 Hct.
  - destruct (delete_root_spec σ E T ex k l x) as (HI' & Hsl' & Hempty); try (done || lia).
    eexists _, ∅, []. split; [reflexivity|]. split; [done|]. split; [by rewrite app_nil_r|].
    split; [intros k'; by rewrite Hempty|]. do 5 (split; [done|]). split; [|done].
    intros p. rewrite app_nil_r, <- Hempty. by apply (is_node_gone _ _ _ _ _ _ _ _ _ HI).
  - destruct (ancestor HI k l (S l)) as [p Hp]; [rewrite Hx; eauto|lia|].
    destruct (drop_spec σ E T ex k l x p) as (nd1 & c & Hdrop & -> & HI1 & Hsl1 & Hfr); try (done || lia).
    assert (Hgo : delete_free_loop (path_from E k l (S n)) σ =
      (if decide (count nd1 <> 0) then mret tt
       else radix_tree_node_free (Some p);; delete_free_loop (path_from E k (S l) n)) (upd p nd1 σ)).
    { change (path_from E k l (S n)) with ((E !! at_level k (S l), digit k l) :: path_from E k (S l) n).
      rewrite Hp. exact (Hdrop _ (fun c => if decide (c <> 0) then mret tt
        else radix_tree_node_free (Some p);; delete_free_loop (path_from E k (S l) n))). }
    rewrite Hgo. clear Hgo.
    case_decide as Hc.
    { eexists (upd p nd1 σ), _, []. split; [done|]. split; [done|]. split; [by rewrite app_nil_r|].
      do 5 (split; [done|]). split; [|split; [|split; [|done]]].
      - intros Hr. cbn in Hr. exfalso. pose proof (root_none_empty HI Hr) as ->. by rewrite lookup_empty in Hx.
      - intros p'. rewrite app_nil_r. by apply (is_node_gone _ _ _ _ _ _ _ _ _ HI).
      - intros p' Hp'. by apply upd_some. }
    assert (Hp1 : delete (at_level k l) E !! at_level k (S l) = Some p).
    { rewrite lookup_delete_ne; [done|]. intros [=]. lia. }
    destruct (empty_node _ _ T k l p nd1 HI1 Hp1 (upd_lookup _ _ _)) as (-> & Hkids1 & Hun1); [lia|].
    cbn [radix_tree_node_free]. sm. rewrite <- path_from_delete.
    destruct (IH (add_freed p (upd p radix_tree_node_ctor σ)) (delete (at_level k l) E) T (ex ++ gone l x) k (S l) p)
      as (σ' & E' & fs & -> & HI' & Hsl' & Hit & Hfd & Hg & Hpr & Hkm & Hrn & Hnodes & Hdom & Hfr'); try done.
    { destruct Hsl1. by split. }
    { cbn. lia. }
    { intros _. apply upd_lookup. }
    exists σ', E', (fs ++ [p]). split; [done|]. split; [done|].
    split; [|split; [|split; [|do 4 (split; [done|]); split; [|split]]]].
    + rewrite reverse_app, app_assoc. exact Hsl'.
    + intros k'. rewrite Hit. by rewrite lookup_delete_ne.
    + rewrite Hfd. cbn. by rewrite <- app_assoc.
    + intros p'. rewrite (is_node_gone _ _ _ _ _ _ _ _ p' HI Hx), Hnodes. change (gone (S l) p) with [p].
      rewrite !elem_of_app. tauto.
    + intros p' Hp'. apply Hdom. by apply upd_some.
    + intros p' Hp'. rewrite Hfr' by (by intros ?%is_node_delete). by apply Hfr.
Qed.

Lemma delete_spec σ E T k :
  rt σ E (fun _ => T) -> slab_ok σ E -> is_u32 k ->
  exists σ' E' fs, radix_tree_delete k σ = Some (E !! (0%nat, k), σ') /\
    rt σ' E' (fun _ t => T t ∖ {[k]}) /\ slab_ok (refill (reverse fs) σ') E' /\
    (forall k', E' !! (0%nat, k') = if decide (k' = k) then None else E !! (0%nat, k')) /\
    freed σ' = fs ++ freed σ /\ gfp_mask σ' = gfp_mask σ /\ preloads σ' = preloads σ /\ kmem σ' = kmem σ /\
    (settled σ -> settled σ') /\
    (forall p, is_node E p <-> is_node E' p \/ p ∈ fs) /\
    (forall p, is_Some (nodes σ !! p) -> is_Some (nodes σ' !! p)) /\
    forall p, ~ is_node E p -> nodes σ' !! p = nodes σ !! p.
Proof.
  intros HI Hsl Hk. unfold radix_tree_delete. sm.
  assert (Hr0 : forall σ0, refill [] σ0 = σ0) by (intros []; unfold refill; cbn; by rewrite app_nil_r).
  assert (Hnone : E !! (0%nat, k) = None -> exists σ' E' fs, Some (None, σ) = Some (E !! (0%nat, k), σ') /\
    rt σ' E' (fun _ t => T t ∖ {[k]}) /\ slab_ok (refill (reverse fs) σ') E' /\
    (forall k', E' !! (0%nat, k') = if decide (k' = k) then None else E !! (0%nat, k')) /\
    freed σ' = fs ++ freed σ /\ gfp_mask σ' = gfp_mask σ /\ preloads σ' = preloads σ /\ kmem σ' = kmem σ /\
    (settled σ -> settled σ') /\
    (forall p, is_node E p <-> is_node E' p \/ p ∈ fs) /\
    (forall p, is_Some (nodes σ !! p) -> is_Some (nodes σ' !! p)) /\
    forall p, ~ is_node E p -> nodes σ' !! p = nodes σ !! p).
  { intros Hn. exists σ, E, []. rewrite Hn. split; [done|]. split; [|split; [by rewrite Hr0|]].
    - assert (Hnin : forall t, 0 <= t < 2 -> k ∉ T t).
      { intros t Ht Hin. apply (ri_tags _ _ _ _ _ HI 0%nat) in Hin as [? ?]; [congruence|done]. }
      eapply rt_inv_tags; [exact HI| |].
      + intros l q p _ t' i Ht' _. unfold tag_bits. specialize (Hnin t' Ht'). set_solver.
      + intros l t' k' Ht' Hin. apply (ri_tags _ _ _ _ _ HI 0%nat t'); [done|]. set_solver.
    - split; [|split; [done|]; do 4 (split; [done|]); split; [set_solver|done]].
      intros k'. case_decide; congruence. }
  destruct (maxindex_lookup (height σ) ltac:(apply HI)) as (m & -> & _ & Hm). sm. case_decide as Hlt.
  { apply Hnone. apply (key_high HI). by apply Hm. }
  rewrite Hm in Hlt by done. sm.
  destruct (walk_path_spec σ E _ k (height σ) (top_shift (height σ)) (rnode σ) HI Hk) as (res & Hw & Hres).
  { done. } { apply top_shift_ok, HI. }
  { rewrite (ri_root _ _ _ _ _ HI). unfold at_level. rewrite span_u32; [done|done|lia]. }
  rewrite Nat.sub_diag in Hw. sm_step Hw. destruct (E !! (0%nat, k)) as [x|] eqn:Hx.
  2: { destruct Hres as [->|[path ->]]; by apply Hnone. }
  subst res. destruct (height σ) as [|n] eqn:Hh.
  { exfalso. pose proof (root_none_empty HI (ri_zero _ _ _ _ _ HI Hh)) as ->. done. }
  destruct (delete_tags_loop_spec σ E T k 0 n false false) as (ns' & Hl & HI1 & Hfr).
  { eapply rt_inv_tags; [exact HI| |].
    - intros l q p _ t' i _ _. unfold tag_bits, clearing, cleared, two. cbn [orb]. case_decide; done.
    - intros l t' k' Ht' Hin%cleared_sub. by apply (ri_tags _ _ _ _ _ HI 0%nat t'). }
  { rewrite Hx. by eexists. } { done. } { intros _. apply alone_0. } { intros _. apply alone_0. }
  sm_step Hl.
  assert (Hdom1 : forall p, is_Some (nodes σ !! p) -> is_Some (ns' !! p)).
  { intros p Hp. destruct (decide (is_node E p)) as [(l & q & Hn)|Hn]; [|by rewrite Hfr].
    destruct (node_at HI1 l q p Hn) as (nd' & Hnd' & _). cbn in Hnd'. eauto. }
  destruct (delete_free_loop_spec (S n) (set_nodes ns' σ) E (fun t => T t ∖ {[k]}) [] k 0 x HI1)
    as (σ' & E' & fs & Hd & HI' & Hsl' & Hit & Hfd & Hg & Hpr & Hkm & Hrn & Hnodes & Hdom & Hfr').
  { rewrite Hr0. apply (slab_ok_step σ _ E); [done..| |].
    - intros p Hp Ha. by apply (sl_free _ _ Hsl p).
    - intros p Hp. apply Hfr. by apply (sl_free _ _ Hsl). }
  { by rewrite at_level_0. } { intros ? ? [=]. } { intros t k' _ Hin. rewrite !div_span_0. set_solver. }
  { done. } { cbn. lia. } { done. }
  sm_step Hd. exists σ', E', fs. split; [done|]. split; [done|]. split; [exact Hsl'|].
  split; [|do 6 (split; [done|]); split;
    [intros p Hp; apply Hdom; by apply Hdom1|intros p Hp; rewrite Hfr' by done; by apply Hfr]].
  intros k'. rewrite Hit, at_level_0. case_decide as Hc; [by rewrite Hc, lookup_delete_eq|].
  by rewrite lookup_delete_ne by congruence.
Qed.
