(* ===== verification/RadixGang.v ===== *)
(** Gang lookup in the radix tree. *)
From Stdlib Require Import ZArith Lia Sorted.
From stdpp Require Import base numbers list list_numbers option gmap sorting.
From S2P Require Import Prelude Bitops Radix RadixTree RadixOps RadixTags.

Local Open Scope Z_scope.
Local Open Scope kernel_scope.

Import Radix.

(** * Ascending listings *)

(** [ks] lists the keys in [P] between [a] and [b], in order. *)
Definition listing (P : Z -> Prop) (a b : Z) (ks : list Z) : Prop :=
  StronglySorted Z.lt ks /\ forall k, k ∈ ks <-> P k /\ a <= k < b.

Section Listing.
Context (P : Z -> Prop).

Lemma listing_nil a b : (forall k, P k -> ~ (a <= k < b)) -> listing P a b [].
Proof. intros H. split; [constructor|]. intros k. rewrite elem_of_nil. naive_solver. Qed.

Lemma listing_app a b c ks1 ks2 :
  a <= b <= c -> listing P a b ks1 -> listing P b c ks2 -> listing P a c (ks1 ++ ks2).
Proof.
  intros Hle [Hs1 H1] [Hs2 H2]. split.
  - apply StronglySorted_app. split_and!; [|done|done]. intros k1 k2 Hk1%H1 Hk2%H2. lia.
  - intros k. rewrite elem_of_app, H1, H2. destruct (decide (k < b)); naive_solver lia.
Qed.

Lemma listing_skip a b c ks :
  a <= b <= c -> (forall k, P k -> ~ (a <= k < b)) -> listing P b c ks -> listing P a c ks.
Proof. intros Hle Hno Hl. by apply (listing_app a b c [] ks Hle (listing_nil a b Hno)). Qed.

Lemma listing_cons a c ks : a + 1 <= c -> P a -> listing P (a + 1) c ks -> listing P a c (a :: ks).
Proof.
  intros Hle Ha Hl. apply (listing_app a (a + 1) c [a] ks); [lia| |done].
  split; [repeat constructor|]. intros k. rewrite list_elem_of_singleton. split; [intros ->; split; [done|lia]|].
  intros [_ ?]. lia.
Qed.
End Listing.

(** The end of what a round has covered: [next_index] is zero when it wrapped around. *)
Definition bound (next : Z) : Z := if decide (next = 0) then 2^32 else next.

Lemma bound_u32 x : 0 <= x <= 2^32 -> 0 < x -> bound (u32 x) = x.
Proof.
  intros Hx H0. unfold bound. destruct (decide (x = 2^32)) as [->|Hne]; [done|].
  rewrite u32_small by (unfold is_u32; lia). rewrite decide_False by lia. done.
Qed.

(** * Chunks *)

Lemma span_divides l : (l <= 5)%nat -> exists c, 2^32 = c * span l /\ 0 < c.
Proof.
  intros Hl. exists (2 ^ (32 - 6 * Z.of_nat l)). rewrite span_shift, <- Z.pow_add_r by lia.
  split; [f_equal; lia|apply Z.pow_pos_nonneg; lia].
Qed.

Lemma span_le l : (l <= 5)%nat -> 1 <= span l <= 2^30.
Proof.
  intros Hl. rewrite span_shift. split; [apply (Z.pow_le_mono_r 2 0); lia|apply Z.pow_le_mono_r; lia].
Qed.

Lemma next_chunk_eq idx l :
  is_u32 idx -> (l <= 5)%nat -> next_chunk idx (6 * Z.of_nat l) = u32 ((idx / span l + 1) * span l).
Proof.
  intros Hi Hl. pose proof (span_le l Hl) as Hs. unfold next_chunk.
  rewrite Z.shiftl_1_l, <- span_shift, (u32_small (span l)) by (unfold is_u32; lia).
  rewrite (u32_small (span l - 1)) by (unfold is_u32; lia).
  rewrite land_not32 by (done || (unfold is_u32; lia)).
  replace (span l - 1) with (Z.ones (6 * Z.of_nat l)) by (rewrite Z.ones_equiv, <- span_shift; lia).
  rewrite Z.ldiff_ones_r, Z.shiftl_mul_pow2, Z.shiftr_div_pow2, <- span_shift by lia. f_equal. lia.
Qed.

Lemma chunk_end idx l : is_u32 idx -> (l <= 5)%nat ->
  idx < (idx / span l + 1) * span l <= 2^32.
Proof.
  intros Hi Hl. destruct (span_divides l Hl) as (c & Hc & Hc0). pose proof (span_pos l).
  pose proof (Z.div_mod idx (span l) ltac:(lia)). pose proof (Z.mod_pos_bound idx (span l) ltac:(lia)).
  split; [lia|]. destruct Hi as [? Hi]. rewrite Hc in Hi |- *.
  apply Z.mul_le_mono_nonneg_r; [lia|].
  assert (idx / span l < c) by (apply Z.div_lt_upper_bound; lia). lia.
Qed.

Section Gang.
Context (σ : rstate) (E : emap) (TT : tmap) (HI : rt σ E TT) (P : Z -> Prop).
Context (HP : forall k, P k -> is_Some (E !! (0%nat, k))).

Lemma P_range k : P k -> is_u32 k /\ k < span (height σ).
Proof. intros Hk%HP. by apply (key_range HI). Qed.

(** What the test of a slot tells about the keys below it. *)
Definition hit_ok (l : nat) (q : Z) (hit : Z -> RM bool) : Prop :=
  forall i, 0 <= i < 64 -> exists b, hit i σ = Some (b, σ) /\
    (b = false -> forall k, P k -> k / span l <> 64 * q + i) /\
    (b = true -> is_Some (E !! (l, 64 * q + i))) /\
    (b = true -> l = O -> P (64 * q + i)).

Definition node_end (l : nat) (q : Z) : Z := (q + 1) * span l.

(** Keys of the chunk of [idx] from [idx] on. *)
Lemma chunk_none l q i idx :
  (forall k, P k -> k / span l <> 64 * q + i) -> idx / span l = 64 * q + i ->
  forall k, P k -> ~ (idx <= k < (idx / span l + 1) * span l).
Proof.
  intros Hno Hidx k Hk [Hlo Hhi]. apply (Hno k Hk). rewrite <- Hidx. pose proof (span_pos l).
  apply Z.le_antisymm; [|by apply Z.div_le_mono; lia].
  assert (k / span l < idx / span l + 1) by (apply Z.div_lt_upper_bound; lia). lia.
Qed.

Lemma scan_level_spec hit l q n i idx :
  hit_ok l q hit -> (l <= 5)%nat -> is_u32 idx -> 0 <= i -> i + Z.of_nat n = 64 ->
  idx / span l = 64 * q + i -> (n = O -> idx = node_end (S l) q /\ idx <> 0) ->
  exists res, scan_level hit n i idx (6 * Z.of_nat l) σ = Some (res, σ) /\
    match res with
    | (Some i', idx') => 0 <= i' < 64 /\ idx <= idx' /\ is_u32 idx' /\ idx' / span l = 64 * q + i' /\
        is_Some (E !! (l, 64 * q + i')) /\ forall k, P k -> ~ (idx <= k < idx')
    | (None, idx') => is_u32 idx' /\ (idx' = 0 \/ idx' = node_end (S l) q) /\ idx <= bound idx' /\
        forall k, P k -> ~ (idx <= k < bound idx')
    end.
Proof.
  intros Hhit Hl. revert i idx. induction n as [|n IH]; intros i idx Hu Hi Hn Hidx H0; cbn [scan_level].
  { destruct (H0 eq_refl) as [He Hne]. eexists. split; [reflexivity|]. cbn. unfold bound.
    rewrite decide_False by done. split; [done|]. split; [by right|]. split; [lia|]. intros k _ ?. lia. }
  destruct (Hhit i ltac:(lia)) as (b & Hb & Hno & Hyes & _). sm_step Hb. destruct b.
  { eexists. split; [reflexivity|]. cbn. split; [lia|]. split; [lia|]. do 2 (split; [done|]).
    split; [auto|]. intros k _ ?. lia. }
  pose proof (chunk_none l q i idx (Hno eq_refl) Hidx) as Hchunk. pose proof (chunk_end idx l Hu Hl) as Hend.
  rewrite next_chunk_eq by done. destruct Hu as [Hu0 Hu1].
  pose proof (bound_u32 ((idx / span l + 1) * span l) ltac:(lia) ltac:(lia)) as Hbd.
  case_decide as Hz.
  { eexists. split; [reflexivity|]. cbn. rewrite Hbd. split; [apply u32_range|]. split; [by left|]. split; [lia|done]. }
  unfold bound in Hbd. rewrite decide_False in Hbd by done. rewrite Hbd in *.
  set (idx1 := (idx / span l + 1) * span l) in *. pose proof (span_pos l).
  assert (Hu1' : is_u32 idx1) by (rewrite <- Hbd; apply u32_range).
  destruct (IH (i + 1) idx1) as (res & Hr & Hres); [done|lia|lia| | |].
  { unfold idx1. rewrite Z.div_mul by lia. lia. }
  { intros ->. split; [|done]. unfold idx1, node_end. rewrite span_S, Hidx. replace i with 63 by lia. ring. }
  exists res. split; [done|].
  assert (Hskip : forall b, (forall k, P k -> ~ (idx1 <= k < b)) -> forall k, P k -> ~ (idx <= k < b)).
  { intros b Hb' k Hk Hr'. destruct (decide (k < idx1)); [apply (Hchunk k); [done|lia]|]. apply (Hb' k); [done|lia]. }
  destruct res as [[i'|] idx'].
  - destruct Hres as (? & ? & ? & ? & ? & ?). split_and!; try (done || lia). by apply Hskip.
  - destruct Hres as (? & ? & ? & ?). split_and!; try (done || lia). by apply Hskip.
Qed.

(** The items of a list of keys. *)
Definition items_of (ks : list Z) : list ptr := (fun k => E !! (0%nat, k)) <$> ks.

(** The bottom level: all keys from [idx] on are grabbed until there are enough. *)
Lemma grab_items_spec hit p q n i idx max res :
  E !! (1%nat, q) = Some p -> hit_ok 0 q hit -> 0 <= i -> i + Z.of_nat n = 64 -> 0 <= q ->
  64 * q + 64 <= 2^32 -> idx = u32 (64 * q + i) -> zlen res < max ->
  exists ks nx, grab_items hit (Some p) n i idx max res σ = Some ((res ++ items_of ks, u32 nx), σ) /\
    64 * q + i <= nx <= 64 * q + 64 /\ listing P (64 * q + i) nx ks /\
    (nx = 64 * q + 64 /\ zlen (res ++ items_of ks) <= max \/ zlen (res ++ items_of ks) = max).
Proof.
  intros Hp Hhit. revert i idx res. induction n as [|n IH]; intros i idx res Hi Hn Hq Hq' -> Hmax; cbn [grab_items].
  { exists [], (64 * q + i). cbn [items_of fmap list_fmap]. rewrite app_nil_r. split; [done|]. split; [lia|].
    split; [apply listing_nil; intros; lia|]. left. lia. }
  destruct (Hhit i ltac:(lia)) as (b & Hb & Hno & Hyes & HPi). sm_step Hb.
  assert (Hidx : u32 (64 * q + i) +u 1 = u32 (64 * q + (i + 1))) by (rewrite u32_add_l; f_equal; lia).
  destruct b.
  - destruct (node_at HI _ _ _ Hp) as (nd & Hnd & Hok).
    sm_step (get_slot_eq _ _ _ _ _ Hnd (nr_core _ _ _ Hok) i ltac:(lia)).
    assert (Hz : zlen (res ++ [kids E 0 q i]) = zlen res + 1) by (unfold zlen; rewrite length_app; simpl; lia).
    assert (Hlast : forall c ks, listing P (64 * q + (i + 1)) c ks -> 64 * q + (i + 1) <= c ->
      listing P (64 * q + i) c (64 * q + i :: ks)).
    { intros c ks Hl Hc. apply listing_cons; [lia|auto|]. by replace (64 * q + i + 1) with (64 * q + (i + 1)) by lia. }
    case_decide as Hm.
    + exists [64 * q + i], (64 * q + (i + 1)). rewrite Hidx. split; [done|]. split; [lia|].
      split; [|right; done]. apply Hlast; [apply listing_nil; intros; lia|lia].
    + destruct (IH (i + 1) _ (res ++ [kids E 0 q i]) ltac:(lia) ltac:(lia) Hq Hq' Hidx ltac:(lia))
        as (ks & nx & Hr & Hnx & Hl & Hend).
      exists (64 * q + i :: ks), nx. unfold items_of in *. cbn [fmap list_fmap].
      rewrite <- app_assoc in Hr, Hend. split; [exact Hr|]. split; [lia|]. split; [apply Hlast; [done|lia]|exact Hend].
  - destruct (IH (i + 1) _ res ltac:(lia) ltac:(lia) Hq Hq' Hidx Hmax) as (ks & nx & Hr & Hnx & Hl & Hend).
    exists ks, nx. split; [exact Hr|]. split; [lia|]. split; [|done].
    apply (listing_skip _ _ (64 * q + (i + 1))); [lia| |done].
    intros k Hk Hr'. apply (Hno eq_refl k Hk). rewrite div_span_0. lia.
Qed.

(** One call of [__lookup] or [__lookup_tag] from [cur], for at most [max] items. *)
Definition look_post (cur max : Z) (ks : list Z) (next : Z) : Prop :=
  is_u32 next /\ zlen ks <= max /\ listing P cur (bound next) ks /\ cur <= bound next /\
  (next = 0 \/ zlen ks = max \/ exists l q p, E !! (S l, q) = Some p /\ next = node_end (S l) q /\ cur < next).

Lemma zlen_items ks : zlen (items_of ks) = zlen ks.
Proof. unfold zlen, items_of. by rewrite length_fmap. Qed.

Lemma leaf_range q p : E !! (1%nat, q) = Some p -> 0 <= q /\ 64 * q + 64 <= 2^32.
Proof.
  intros Hp. apply (ri_range _ _ _ _ _ HI) in Hp as (_ & Hq & Hlt & _). change (span 1) with 64 in Hlt.
  change (2^32) with (64 * 2^26) in *. lia.
Qed.

Lemma grab_post hit p q idx max :
  E !! (1%nat, q) = Some p -> hit_ok 0 q hit -> is_u32 idx -> idx / 64 = q -> 0 < max ->
  exists ks next, grab_items hit (Some p) (left_from (idx &u RADIX_TREE_MAP_MASK)) (idx &u RADIX_TREE_MAP_MASK) idx max [] σ =
      Some ((items_of ks, next), σ) /\ look_post idx max ks next.
Proof.
  intros Hp Hhit Hu Hq Hmax. destruct (leaf_range q p Hp) as [Hq0 Hq1].
  change RADIX_TREE_MAP_MASK with (2^6 - 1). rewrite land_mask by lia. change (2^6) with 64.
  pose proof (Z.mod_pos_bound idx 64 ltac:(lia)) as Hm. pose proof (child_split idx) as Hsp. rewrite Hq in Hsp.
  destruct (grab_items_spec hit p q (left_from (idx `mod` 64)) (idx `mod` 64) idx max [])
    as (ks & nx & Hg & Hnx & Hl & Hend); try (done || lia).
  { unfold left_from, RADIX_TREE_MAP_SIZE. lia. } { rewrite <- Hsp, u32_small; done. }
  rewrite <- Hsp in Hl, Hnx. exists ks, (u32 nx). split; [exact Hg|].
  cbn [app] in Hend. rewrite zlen_items in Hend. destruct Hu as [Hu0 Hu1].
  destruct (decide (nx = 0)) as [->|Hne].
  { split; [apply u32_range|]. assert (ks = []) as ->.
    { apply elem_of_nil_inv. intros k Hk. apply Hl in Hk as [_ ?]. lia. }
    destruct Hend as [[? _]|Hz]; [lia|]. change (zlen (@nil Z)) with 0 in Hz. lia. }
  pose proof (bound_u32 nx ltac:(lia) ltac:(lia)) as Hb. unfold look_post. rewrite Hb.
  split; [apply u32_range|]. split; [lia|]. split; [done|]. split; [lia|].
  destruct Hend as [[-> _]|Hz]; [|right; left; done].
  unfold bound in Hb. case_decide as Hc; [by left|]. right; right. exists O, q, p. split; [done|].
  rewrite Hb. unfold node_end. change (span 1) with 64. lia.
Qed.

(** Going on from [idx'] after a stretch without keys. *)
Lemma look_post_skip idx idx' max ks next :
  idx <= idx' -> (forall k, P k -> ~ (idx <= k < idx')) -> look_post idx' max ks next -> look_post idx max ks next.
Proof.
  intros Hle Hno (Hu & Hz & Hl & Hb & Hend). split; [done|]. split; [done|].
  split; [by apply (listing_skip _ _ idx'); [lia| |]|]. split; [lia|].
  destruct Hend as [?|[?|(l & q & p & ? & ? & ?)]]; [left; done|right; left; done|].
  right; right. exists l, q, p. split; [done|]. split; [done|lia].
Qed.

Lemma look_post_out l q p idx idx' max :
  E !! (S l, q) = Some p -> idx / span (S l) = q -> 0 < max -> is_u32 idx' ->
  (idx' = 0 \/ idx' = node_end (S l) q) -> idx <= bound idx' -> (forall k, P k -> ~ (idx <= k < bound idx')) ->
  look_post idx max [] idx'.
Proof.
  intros Hp Hq Hmax Hu He Hb Hno. split; [done|]. split; [unfold zlen; simpl; lia|].
  split; [by apply listing_nil|]. split; [done|]. destruct He as [-> | ->]; [by left|]. right; right.
  exists l, q, p. split; [done|]. split; [done|]. unfold node_end. pose proof (span_pos (S l)).
  pose proof (Z.div_mod idx (span (S l)) ltac:(lia)). pose proof (Z.mod_pos_bound idx (span (S l)) ltac:(lia)). nia.
Qed.

(** The search of one level, when it starts at [idx]. *)
Lemma scan_from hit l q p idx :
  hit_ok l q hit -> E !! (S l, q) = Some p -> is_u32 idx -> idx / span (S l) = q ->
  exists res, scan_level hit (left_from (offset_at idx (6 * Z.of_nat l))) (offset_at idx (6 * Z.of_nat l)) idx (6 * Z.of_nat l) σ = Some (res, σ) /\
    match res with
    | (Some i', idx') => 0 <= i' < 64 /\ idx <= idx' /\ is_u32 idx' /\ idx' / span l = 64 * q + i' /\
        is_Some (E !! (l, 64 * q + i')) /\ forall k, P k -> ~ (idx <= k < idx')
    | (None, idx') => is_u32 idx' /\ (idx' = 0 \/ idx' = node_end (S l) q) /\ idx <= bound idx' /\
        forall k, P k -> ~ (idx <= k < bound idx')
    end.
Proof.
  intros Hhit Hp Hu Hq. pose proof (digit_range idx l). rewrite offset_at_digit by apply Hu.
  pose proof (ri_range _ _ _ _ _ HI _ _ _ Hp) as [Hl _]. pose proof (ri_height _ _ _ _ _ HI).
  apply scan_level_spec; try (done || lia).
  - unfold left_from, RADIX_TREE_MAP_SIZE. lia.
  - rewrite <- digit_child. by rewrite Hq.
  - unfold left_from, RADIX_TREE_MAP_SIZE. lia.
Qed.

(** ** The rounds *)

(** The nodes that end after [cur]. *)
Definition ahead (cur : Z) : gmap (nat * Z) loc :=
  filter (fun x => x.1.1 <> O /\ cur < node_end x.1.1 x.1.2) E.

Lemma ahead_less cur l q p :
  E !! (S l, q) = Some p -> cur < node_end (S l) q -> (size (ahead (node_end (S l) q)) < size (ahead cur))%nat.
Proof.
  intros Hp Hlt. apply map_subset_size. split.
  - apply map_subseteq_spec. intros pos x. unfold ahead. rewrite !map_lookup_filter_Some. cbn. naive_solver lia.
  - intros Hsub. eapply map_subseteq_spec in Hsub; [|unfold ahead; apply map_lookup_filter_Some; split; [exact Hp|by split]].
    unfold ahead in Hsub. rewrite map_lookup_filter_Some in Hsub. cbn in Hsub. lia.
Qed.

(** There are no more of them than nodes in the store. *)
Lemma ahead_nodes cur : (size (ahead cur) <= size (nodes σ))%nat.
Proof.
  rewrite <- (size_dom (D := gset loc) (nodes σ)).
  rewrite <- length_map_to_list, <- (length_fmap snd). change (size (dom (nodes σ))) with (length (elements (dom (nodes σ) : gset loc))).
  apply submseteq_length, NoDup_submseteq.
  - apply NoDup_fmap_2_strong; [|apply NoDup_map_to_list].
    intros [[l q] p] [[l' q'] p'] H1 H2 Hp. cbn in Hp. subst p'.
    apply elem_of_map_to_list in H1, H2. unfold ahead in H1, H2. rewrite map_lookup_filter_Some in H1, H2.
    destruct H1 as [H1 [Hl _]], H2 as [H2 [Hl' _]]. cbn in Hl, Hl'. destruct l as [|l], l' as [|l']; try done.
    destruct (ri_inj _ _ _ _ _ HI _ _ _ _ _ H1 H2) as [-> ->]. done.
  - intros p Hp. apply list_elem_of_fmap in Hp as ([[l q] p'] & -> & Hin). apply elem_of_map_to_list in Hin.
    unfold ahead in Hin. rewrite map_lookup_filter_Some in Hin. destruct Hin as [H1 [Hl _]]. cbn in Hl.
    destruct l as [|l]; [done|]. destruct (node_at HI _ _ _ H1) as (nd & Hnd & _).
    apply elem_of_elements, elem_of_dom. cbn. eauto.
Qed.

(** The keys from [first] on, in order, up to [max] of them. *)
Definition gang_post (first max : Z) (ks : list Z) : Prop :=
  zlen ks <= max /\ StronglySorted Z.lt ks /\ (forall k, k ∈ ks -> P k /\ first <= k) /\
  forall k, P k -> first <= k -> k ∈ ks \/ (zlen ks = max /\ forall k', k' ∈ ks -> k' < k).

Lemma gang_post_listing first max ks b :
  listing P first b ks -> zlen ks <= max -> zlen ks = max \/ (forall k, P k -> first <= k -> k < b) ->
  gang_post first max ks.
Proof.
  intros [Hs Hl] Hz Hend. split; [done|]. split; [done|]. split; [intros k Hk%Hl; naive_solver|].
  intros k Hk Hf. destruct (decide (k < b)) as [Hb|Hb].
  - left. apply Hl. auto.
  - right. destruct Hend as [Hend|Hend]; [|by exfalso; apply Hb, Hend]. split; [done|]. intros k' Hk'%Hl. lia.
Qed.

Lemma gang_loop_spec look fuel m first max :
  (forall k, is_u32 k -> m < k <-> span (height σ) <= k) ->
  (forall cur n, is_u32 cur -> cur < span (height σ) -> 0 < n -> exists ks next,
     look cur n σ = Some ((items_of ks, next), σ) /\ look_post cur n ks next) ->
  forall cur ks, is_u32 cur -> first <= cur -> listing P first cur ks -> zlen ks <= max ->
  (size (ahead cur) < fuel)%nat ->
  exists ks', gang_loop look fuel m cur max (items_of ks) σ = Some (items_of ks', σ) /\ gang_post first max ks'.
Proof.
  intros Hm Hlook. induction fuel as [|fuel IH]; intros cur ks Hu Hf Hl Hz Hfuel; [lia|]. cbn [gang_loop].
  rewrite zlen_items. case_decide as Hlt.
  2: { exists ks. split; [done|]. apply (gang_post_listing first max ks cur Hl Hz). left. lia. }
  case_decide as Hcur.
  { exists ks. split; [done|]. apply (gang_post_listing first max ks cur Hl Hz). right. intros k Hk _.
    apply Hm in Hcur; [|done]. apply P_range in Hk. lia. }
  rewrite Hm in Hcur by done.
  destruct (Hlook cur (max - zlen ks) Hu ltac:(lia) ltac:(lia)) as (ks1 & next & E1 & Hu1 & Hz1 & Hl1 & Hb & Hend).
  sm_step E1. assert (Hitems : items_of ks ++ items_of ks1 = items_of (ks ++ ks1)) by (unfold items_of; by rewrite fmap_app).
  rewrite Hitems.
  assert (Hl2 : listing P first (bound next) (ks ++ ks1)) by (apply (listing_app _ _ cur); [lia|done|done]).
  assert (Hz2 : zlen (ks ++ ks1) = zlen ks + zlen ks1) by (unfold zlen; rewrite length_app; lia).
  unfold bound in Hl2, Hb. case_decide as Hn.
  { exists (ks ++ ks1). split; [done|]. apply (gang_post_listing first max _ (2^32)); [done|lia|]. right.
    intros k Hk _. apply P_range in Hk as [[? ?] _]. done. }
  destruct Hend as [?|[Hfull|(l & q & p & Hp & Hne & Hlt')]]; [done| |].
  - exists (ks ++ ks1). destruct fuel; cbn [gang_loop]; rewrite zlen_items, decide_False by lia;
      (split; [done|]; apply (gang_post_listing first max _ next); [done|lia|left; lia]).
  - apply IH; [done|lia|done|lia|]. pose proof (ahead_less cur l q p Hp ltac:(lia)). rewrite Hne. lia.
Qed.
End Gang.

(** * The two gang lookups *)

Section Lookups.
Context (σ : rstate) (E : emap) (T : Z -> gset Z) (HI : rt σ E (fun _ => T)).

Definition present (k : Z) : Prop := is_Some (E !! (0%nat, k)).

Lemma used_hit l q p : E !! (S l, q) = Some p -> hit_ok σ E present l q (slot_used (Some p)).
Proof.
  intros Hp i Hi. destruct (node_at HI _ _ _ Hp) as (nd & Hnd & Hok).
  pose proof (ri_range _ _ _ _ _ HI _ _ _ Hp) as [Hl _].
  exists (bool_decide (kids E l q i <> None)). unfold slot_used.
  sm_step (get_slot_eq _ _ _ _ _ Hnd (nr_core _ _ _ Hok) i Hi). split; [done|].
  rewrite bool_decide_eq_true, bool_decide_eq_false. split; [|split].
  - intros Hn k Hk Hq. unfold present in Hk. rewrite <- at_level_0 in Hk.
    apply (ancestor HI k 0 l) in Hk as [x Hx]; [|lia]. unfold at_level in Hx. rewrite Hq in Hx.
    apply Hn. unfold kids. congruence.
  - intros Hne. by apply not_eq_None_Some.
  - intros Hne ->. by apply not_eq_None_Some.
Qed.

Lemma tagged_hit t l q p : 0 <= t < 2 -> E !! (S l, q) = Some p ->
  hit_ok σ E (fun k => k ∈ T t) l q (slot_tagged t (Some p)).
Proof.
  intros Ht Hp i Hi. destruct (node_at HI _ _ _ Hp) as (nd & Hnd & Hok).
  pose proof (ri_range _ _ _ _ _ HI _ _ _ Hp) as [Hl _].
  destruct (tag_get_eq _ _ _ _ _ Hnd (nr_core _ _ _ Hok) t i Ht Hi) as (b & Hg & Hb).
  assert (Hsome : b = true -> is_Some (E !! (l, 64 * q + i))).
  { intros (k & Hk & Hq)%Hb. rewrite <- Hq. apply (tagged_above HI l t k l Ht Hk). lia. }
  exists b. unfold slot_tagged. sm_step Hg. split; [|split; [|split]].
  - destruct b; [|done]. sm_step (get_slot_eq _ _ _ _ _ Hnd (nr_core _ _ _ Hok) i Hi).
    destruct (Hsome eq_refl) as [x Hx]. unfold kids. rewrite Hx. done.
  - intros -> k Hk Hq. assert (false = true) by (apply Hb; by exists k). done.
  - done.
  - intros (k & Hk & Hq)%Hb ->. rewrite div_span_0 in Hq. by subst k.
Qed.

Lemma present_some k : present k -> is_Some (E !! (0%nat, k)).
Proof. done. Qed.
Lemma tagged_some t k : 0 <= t < 2 -> k ∈ T t -> is_Some (E !! (0%nat, k)).
Proof. intros Ht. by apply (ri_tags _ _ _ _ _ HI 0%nat). Qed.

Lemma __lookup_loop_upper h index shift max_items slot :
  __lookup_loop (S (S h)) index shift max_items slot =
  ('(found, index) ← scan_level (slot_used slot) (left_from (offset_at index shift)) (offset_at index shift) index shift;
   match found with
   | None => mret ([], index)
   | Some i =>
     next ← get_slot slot i;
     __lookup_loop (S h) index (shift -u RADIX_TREE_MAP_SHIFT) max_items next
   end).
Proof. done. Qed.

Lemma __lookup_loop_spec l idx s max p :
  E !! at_level idx (S l) = Some p -> is_u32 idx -> shift_ok (S l) s -> 0 < max ->
  exists ks next, __lookup_loop (S l) idx s max (Some p) σ = Some ((items_of E ks, next), σ) /\
    look_post E present idx max ks next.
Proof.
  revert idx s p. induction l as [|l IH]; intros idx s p Hp Hu Hs Hmax.
  { apply (grab_post σ E _ HI present _ p (idx / span 1)); try done. by apply used_hit. }
  rewrite (Hs _ eq_refl). rewrite __lookup_loop_upper.
  destruct (scan_from σ E _ HI present _ (S l) (idx / span (S (S l))) p idx (used_hit _ _ _ Hp) Hp Hu eq_refl)
    as ([found idx'] & Hsc & Hres).
  sm_step Hsc. destruct found as [i'|].
  - destruct Hres as (Hi' & Hle & Hu' & Hq' & [c Hc] & Hno).
    destruct (node_at HI _ _ _ Hp) as (nd & Hnd & Hok).
    sm_step (get_slot_eq _ _ _ _ _ Hnd (nr_core _ _ _ Hok) i' Hi'). unfold kids. rewrite Hc.
    pose proof (ri_range _ _ _ _ _ HI _ _ _ Hp) as [Hlh _]. pose proof (ri_height _ _ _ _ _ HI).
    destruct (IH idx' (6 * Z.of_nat (S l) -u RADIX_TREE_MAP_SHIFT) c) as (ks & next & Hr & Hpost).
    + unfold at_level. by rewrite Hq'.
    + done.
    + rewrite <- (Hs _ eq_refl). apply shift_ok_next; [lia|done].
    + done.
    + exists ks, next. split; [exact Hr|]. by eapply look_post_skip.
  - destruct Hres as (Hu' & He & Hb & Hno). exists [], idx'. split; [done|].
    by apply (look_post_out E present (S l) (idx / span (S (S l))) p).
Qed.

Lemma __lookup_tag_loop_spec t l idx s max p :
  0 <= t < 2 -> E !! at_level idx (S l) = Some p -> is_u32 idx -> shift_ok (S l) s -> 0 < max ->
  exists ks next, __lookup_tag_loop (S l) idx s max t (Some p) σ = Some ((items_of E ks, next), σ) /\
    look_post E (fun k => k ∈ T t) idx max ks next.
Proof.
  intros Ht. revert idx s p. induction l as [|l IH]; intros idx s p Hp Hu Hs Hmax; cbn [__lookup_tag_loop].
  all: rewrite (Hs _ eq_refl);
    destruct (scan_from σ E _ HI (fun k => k ∈ T t) _ _ _ p idx (tagged_hit t _ _ _ Ht Hp) Hp Hu eq_refl)
      as ([found idx'] & Hsc & Hres);
    sm_step Hsc; (destruct found as [i'|];
      [destruct Hres as (Hi' & Hle & Hu' & Hq' & [c Hc] & Hno)
      |destruct Hres as (Hu' & He & Hb & Hno); exists [], idx'; split; [done|];
       by eapply (look_post_out E _ _ _ p)]).
  - rewrite decide_True by done.
    destruct (grab_post σ E _ HI (fun k => k ∈ T t) (slot_tagged t (Some p)) p (idx / span 1) idx' max)
      as (ks & next & Hg & Hpost); [done|by apply tagged_hit|done| |done|].
    { rewrite <- (div_span_0 idx'), Hq'. by apply kid_div. }
    exists ks, next. split; [exact Hg|]. by eapply look_post_skip.
  - rewrite decide_False by done. destruct (node_at HI _ _ _ Hp) as (nd & Hnd & Hok).
    sm_step (get_slot_eq _ _ _ _ _ Hnd (nr_core _ _ _ Hok) i' Hi'). unfold kids. rewrite Hc.
    pose proof (ri_range _ _ _ _ _ HI _ _ _ Hp) as [Hlh _]. pose proof (ri_height _ _ _ _ _ HI).
    destruct (IH idx' (6 * Z.of_nat (S l) -u RADIX_TREE_MAP_SHIFT) c) as (ks & next & Hr & Hpost).
    + unfold at_level. by rewrite Hq'.
    + done.
    + rewrite <- (Hs _ eq_refl). apply shift_ok_next; [lia|done].
    + done.
    + exists ks, next. split; [exact Hr|]. by eapply look_post_skip.
Qed.
End Lookups.

Section GangLookups.
Context (σ : rstate) (E : emap) (T : Z -> gset Z) (HI : rt σ E (fun _ => T)) (Hset : settled σ).

Lemma root_at cur : is_u32 cur -> cur < span (height σ) -> height σ <> O ->
  exists p l, rnode σ = Some p /\ height σ = S l /\ E !! at_level cur (S l) = Some p.
Proof.
  intros Hu Hlt Hh. destruct (height σ) as [|l] eqn:Hl; [done|].
  destruct (rnode σ) as [p|] eqn:Hr; [|specialize (Hset Hr); lia].
  exists p, l. do 2 (split; [done|]). unfold at_level. rewrite span_u32 by done.
  pose proof (ri_root _ _ _ _ _ HI) as H. rewrite Hl, Hr in H. done.
Qed.

Lemma empty_look P n : (forall k, P k -> is_Some (E !! (0%nat, k))) -> height σ = O -> 0 < n -> look_post E P 0 n [] 0.
Proof.
  intros HP Hh Hn. split; [done|]. split; [unfold zlen; simpl; lia|]. split; [|split; [done|by left]].
  apply listing_nil. intros k [x Hx]%HP. rewrite (root_none_empty HI (ri_zero _ _ _ _ _ HI Hh)) in Hx. done.
Qed.

Lemma gang_lookup_spec first max :
  is_u32 first -> 0 <= max ->
  exists ks, radix_tree_gang_lookup first max σ = Some (items_of E ks, σ) /\ gang_post (present E) first max ks.
Proof.
  intros Hu Hmax. unfold radix_tree_gang_lookup. sm.
  destruct (maxindex_lookup (height σ) ltac:(apply HI)) as (m & -> & _ & Hm). sm.
  apply (gang_loop_spec σ E _ HI (present E) (present_some E) __lookup _ m first max Hm) with (ks := []); try (done || lia).
  - intros cur n Hc Hlt Hn. unfold __lookup. sm. case_decide as Hh.
    + assert (cur = 0) as -> by (rewrite Hh, span_0 in Hlt; destruct Hc; lia).
      exists [], 0. split; [done|]. by apply empty_look.
    + sm. destruct (root_at cur Hc Hlt Hh) as (p & l & -> & -> & Hp).
      apply (__lookup_loop_spec σ E T HI); [done|done| |done]. apply top_shift_ok.
      pose proof (ri_range _ _ _ _ _ HI _ _ _ Hp). pose proof (ri_height _ _ _ _ _ HI). lia.
  - apply listing_nil. intros; lia.
  - pose proof (ahead_nodes σ E _ HI first). lia.
Qed.

Lemma gang_lookup_tag_spec first max t :
  is_u32 first -> 0 <= max -> 0 <= t < 2 ->
  exists ks, radix_tree_gang_lookup_tag first max t σ = Some (items_of E ks, σ) /\
    gang_post (fun k => k ∈ T t) first max ks.
Proof.
  intros Hu Hmax Ht. unfold radix_tree_gang_lookup_tag. sm.
  destruct (maxindex_lookup (height σ) ltac:(apply HI)) as (m & -> & _ & Hm). sm.
  apply (gang_loop_spec σ E _ HI (fun k => k ∈ T t) (fun k => tagged_some σ E T HI t k Ht) (__lookup_tag t) _ m first max Hm)
    with (ks := []); try (done || lia).
  - intros cur n Hc Hlt Hn. unfold __lookup_tag. sm. destruct (decide (height σ = O)) as [Hh|Hh].
    + assert (cur = 0) as -> by (rewrite Hh, span_0 in Hlt; destruct Hc; lia).
      rewrite Hh. exists [], 0. split; [done|]. apply empty_look; [|done|done]. intros k. by apply (tagged_some σ E T HI).
    + destruct (root_at cur Hc Hlt Hh) as (p & l & -> & -> & Hp).
      apply (__lookup_tag_loop_spec σ E T HI); [done|done|done| |done]. apply top_shift_ok.
      pose proof (ri_range _ _ _ _ _ HI _ _ _ Hp). pose proof (ri_height _ _ _ _ _ HI). lia.
  - apply listing_nil. intros; lia.
  - pose proof (ahead_nodes σ E _ HI first). lia.
Qed.
End GangLookups.
