(* ===== verification/RadixSpec.v ===== *)
(** What the radix tree promises: a finite map from 32-bit keys to items whose present keys
    can carry two tags. *)
From Stdlib Require Import ZArith Lia Sorted.
From stdpp Require Import base numbers list list_numbers option gmap sorting.
From S2P Require Import Prelude Bitops Radix RadixTree RadixOps RadixTags RadixDelete RadixGang.

Local Open Scope Z_scope.
Local Open Scope kernel_scope.

Module RadixSpec.
Import Radix.

(** * The abstract map *)

Record tagged_map := TM { entries : gmap Z loc; marks : Z -> gset Z }.

Inductive call :=
  | Insert (k : Z) (x : loc)
  | Lookup (k : Z)
  | LookupSlot (k : Z)
  | Delete (k : Z)
  | TagSet (k t : Z)
  | TagClear (k t : Z)
  | Tagged (t : Z)
  | Gang (first max : Z)
  | GangTag (first max t : Z).

Inductive result := RInt (z : Z) | RPtr (p : ptr) | RPtrs (l : list ptr).
Global Instance result_eq_dec : EqDecision result.
Proof. solve_decision. Defined.

(** The first [max] members of [S] from [first] on, in ascending order. *)
Definition ascending (S : gset Z) (first max : Z) : list Z :=
  take (Z.to_nat max) (filter (fun k => first <= k) (merge_sort Z.le (elements S))).

Definition abstract (a : tagged_map) (c : call) : result * tagged_map :=
  let M := entries a in
  let T := marks a in
  match c with
  | Insert k x => match M !! k with Some _ => (RInt (- EEXIST), a) | None => (RInt 0, TM (<[k := x]> M) T) end
  | Lookup k | LookupSlot k => (RPtr (M !! k), a)
  | Delete k => (RPtr (M !! k), TM (delete k M) (fun t => T t ∖ {[k]}))
  | TagSet k t => (RPtr (M !! k), TM M (fupd T t ({[k]} ∪ T t)))
  | TagClear k t => (RPtr (M !! k), TM M (fupd T t (T t ∖ {[k]})))
  | Tagged t => (RInt (Z.b2z (bool_decide (T t <> ∅))), a)
  | Gang first max => (RPtrs ((fun k => M !! k) <$> ascending (dom M) first max), a)
  | GangTag first max t => (RPtrs ((fun k => M !! k) <$> ascending (T t) first max), a)
  end.

(** The caller's obligations: 32-bit keys, a tag that exists, and a tag is only set on an
    item that is there. *)
Definition valid (a : tagged_map) (c : call) : Prop :=
  match c with
  | Insert k _ | Lookup k | LookupSlot k | Delete k => is_u32 k
  | TagSet k t => is_u32 k /\ 0 <= t < 2 /\ is_Some (entries a !! k)
  | TagClear k t => is_u32 k /\ 0 <= t < 2
  | Tagged t => 0 <= t < 2
  | Gang first max => is_u32 first /\ 0 <= max
  | GangTag first max t => is_u32 first /\ 0 <= max /\ 0 <= t < 2
  end.

(** * The calls *)

(** [LookupSlot] reads through the address that [radix_tree_lookup_slot] returns.
    After a deletion the slab allocator can hand out the nodes that were freed. *)
Definition delete_and_reuse (k : Z) : RM ptr :=
  f0 ← gets freed;
  r ← radix_tree_delete k;
  f1 ← gets freed;
  modify (refill (reverse (take (length f1 - length f0) f1)));;
  mret r.

Definition exec (c : call) : RM result :=
  match c with
  | Insert k x => r ← radix_tree_insert k (Some x); mret (RInt r)
  | Lookup k => r ← radix_tree_lookup k; mret (RPtr r)
  | LookupSlot k =>
    slot ← radix_tree_lookup_slot k;
    r ← match slot with Some a => read_slot a | None => mret None end;
    mret (RPtr r)
  | Delete k => r ← delete_and_reuse k; mret (RPtr r)
  | TagSet k t => r ← radix_tree_tag_set k t; mret (RPtr r)
  | TagClear k t => r ← radix_tree_tag_clear k t; mret (RPtr r)
  | Tagged t => r ← radix_tree_tagged t; mret (RInt r)
  | Gang first max => r ← radix_tree_gang_lookup first max; mret (RPtrs r)
  | GangTag first max t => r ← radix_tree_gang_lookup_tag first max t; mret (RPtrs r)
  end.

(** * Refinement *)

Definition radix (σ : rstate) (a : tagged_map) : Prop :=
  exists E, rt σ E (fun _ => marks a) /\ slab_ok σ E /\ forall k, entries a !! k = E !! (0%nat, k).

(** The tree with the nodes [N], which may share its store with other trees. *)
Definition radix_in (σ : rstate) (a : tagged_map) (N : loc -> Prop) : Prop :=
  exists E, rt σ E (fun _ => marks a) /\ slab_ok σ E /\ (forall k, entries a !! k = E !! (0%nat, k)) /\
    forall p, N p <-> is_node E p.

(** A sorted list that is closed downwards is a prefix. *)
Lemma sorted_prefix (ks l : list Z) :
  StronglySorted Z.lt ks -> StronglySorted Z.lt l -> (forall k, k ∈ ks -> k ∈ l) ->
  (forall k, k ∈ l -> k ∈ ks \/ forall k', k' ∈ ks -> k' < k) -> ks = take (length ks) l.
Proof.
  intros Hks. revert l. induction Hks as [|a ks Hs IH Ha]; intros l Hl Hsub Hdown; [done|].
  rewrite Forall_forall in Ha. destruct Hl as [|b l Hl Hb].
  { by destruct (not_elem_of_nil a); apply Hsub; left. }
  rewrite Forall_forall in Hb. assert (b = a) as ->.
  { assert (Hba : b <= a) by (specialize (Hsub a ltac:(by left)); apply elem_of_cons in Hsub as [->|?%Hb]; lia).
    destruct (Hdown b ltac:(by left)) as [[->|?%Ha]%elem_of_cons|Hlt]; [done|lia|].
    specialize (Hlt a ltac:(by left)). lia. }
  cbn [length take]. f_equal. apply IH; [done| |].
  - intros k Hk. specialize (Hsub k ltac:(by right)). apply elem_of_cons in Hsub as [->|?]; [|done].
    apply Ha in Hk. lia.
  - intros k Hk. destruct (Hdown k ltac:(by right)) as [[->|?]%elem_of_cons|Hlt]; [apply Hb in Hk; lia|auto|].
    right. intros k' Hk'. apply Hlt. by right.
Qed.

Lemma sorted_nodup (l : list Z) : StronglySorted Z.lt l -> NoDup l.
Proof.
  induction 1 as [|a l _ IH Ha]; [apply NoDup_nil_2|]. apply NoDup_cons. split; [|done].
  intros Hin. rewrite Forall_forall in Ha. apply Ha in Hin. lia.
Qed.

Lemma full_listing (S : gset Z) first :
  StronglySorted Z.lt (filter (fun k => first <= k) (merge_sort Z.le (elements S))) /\
  forall k, k ∈ filter (fun k => first <= k) (merge_sort Z.le (elements S)) <-> k ∈ S /\ first <= k.
Proof.
  set (l := merge_sort Z.le (elements S)).
  assert (Hperm : l ≡ₚ elements S) by apply merge_sort_Permutation.
  assert (Hnd : NoDup l) by (rewrite Hperm; apply NoDup_elements).
  assert (Hsle : StronglySorted Z.le l).
  { apply (StronglySorted_merge_sort Z.le). }
  split.
  - clear Hperm. induction Hsle as [|a l' Hs IH Ha]; [constructor|]. apply NoDup_cons in Hnd as [Hni Hnd].
    rewrite filter_cons. case_decide; [|auto]. constructor; [auto|]. apply Forall_forall. intros k Hk.
    apply list_elem_of_filter in Hk as [_ Hk]. rewrite Forall_forall in Ha. pose proof (Ha _ Hk).
    assert (a <> k) by (by intros ->). lia.
  - intros k. rewrite list_elem_of_filter, Hperm, elem_of_elements. naive_solver.
Qed.

Lemma gang_post_ascending (S : gset Z) first max ks :
  gang_post (fun k => k ∈ S) first max ks -> ks = ascending S first max.
Proof.
  intros (Hz & Hs & Hin & Hcl). destruct (full_listing S first) as [Hfs Hf]. unfold ascending.
  set (l := filter _ _) in *.
  assert (Hpre : ks = take (length ks) l).
  { apply sorted_prefix; [done|done|..].
    - intros k Hk. apply Hf. by apply Hin.
    - intros k [Hk Hle]%Hf. destruct (Hcl k Hk Hle) as [?|[_ ?]]; auto. }
  destruct (decide (length ks = Z.to_nat max)) as [Hl|Hne]; [by rewrite <- Hl|].
  unfold zlen in *. assert (Hlen : (length l <= length ks)%nat).
  { apply submseteq_length, NoDup_submseteq.
    - by apply sorted_nodup.
    - intros k [Hk Hle]%Hf. destruct (Hcl k Hk Hle) as [?|[? _]]; [done|lia]. }
  rewrite take_ge in Hpre by lia. rewrite take_ge by lia. done.
Qed.

(** ** One call *)

Lemma radix_rewrite σ a a' :
  radix σ a -> (forall k, entries a' !! k = entries a !! k) -> marks a' = marks a -> radix σ a'.
Proof. intros (E & HI & Hsl & HM) He Hm. exists E. rewrite Hm. split_and!; [done|done|]. intros k. by rewrite He. Qed.

(** The three outcomes of an insertion. *)
Lemma insert_call σ a k x :
  radix σ a -> is_u32 k -> ~ (rnode σ = None /\ k = 0 /\ height σ = 6%nat) ->
  exists e σ', radix_tree_insert k (Some x) σ = Some (e, σ') /\
    ((e = 0 /\ entries a !! k = None /\ radix σ' (TM (<[k := x]> (entries a)) (marks a)) /\ settled σ') \/
     (e = - EEXIST /\ is_Some (entries a !! k) /\ radix σ' a /\ settled σ') \/
     (e = - ENOMEM /\ entries a !! k = None /\ radix σ' a /\
        (nowait σ -> length (preloads σ) < nodes_needed σ k)%nat)).
Proof.
  intros (E & HI & Hsl & HM) Hk Hbad.
  destruct (insert_spec σ E (marks a) k x HI Hsl Hk Hbad) as (e & σ' & E' & Hi & HI' & Hsl' & Hev & Hres).
  exists e, σ'. split; [done|]. rewrite HM. destruct Hres as [(-> & Hn & HE)|[(-> & [y Hy] & HE)|(-> & Hn & HE & Hw)]].
  - left. split; [done|]. split; [done|]. split.
    + exists E'. split_and!; [done|done|]. intros k'. cbn. rewrite HE. case_decide as Hc.
      * by rewrite Hc, lookup_insert_eq.
      * by rewrite lookup_insert_ne by congruence.
    + apply (settled_some σ' E' (fun _ => marks a) (0%nat, k) x HI'). by rewrite HE, decide_True.
  - right; left. split; [done|]. split; [by eexists|]. split.
    + exists E'. split_and!; [done|done|]. intros k'. by rewrite HM, HE.
    + apply (settled_some σ' E' (fun _ => marks a) (0%nat, k) y HI'). by rewrite HE.
  - right; right. split_and!; [done|done| |done]. exists E'. split_and!; [done|done|]. intros k'. by rewrite HM, HE.
Qed.

Lemma delete_call σ a k :
  radix σ a -> is_u32 k ->
  exists σ', delete_and_reuse k σ = Some (entries a !! k, σ') /\
    radix σ' (TM (delete k (entries a)) (fun t => marks a t ∖ {[k]})) /\ (settled σ -> settled σ').
Proof.
  intros (E & HI & Hsl & HM) Hk.
  destruct (delete_spec σ E (marks a) k HI Hsl Hk)
    as (σ' & E' & fs & Hd & HI' & Hsl' & HE & Hfr & _ & _ & _ & Hset & _ & _ & _).
  unfold delete_and_reuse. sm. sm_step Hd. sm. rewrite Hfr.
  replace (length (fs ++ freed σ) - length (freed σ))%nat with (length fs) by (rewrite length_app; lia).
  rewrite take_app_length. eexists. split; [by rewrite HM|]. split; [|done].
  exists E'. split_and!; [done|done|]. intros k'. cbn. rewrite HE. case_decide as Hc.
  - by rewrite Hc, lookup_delete_eq.
  - by rewrite lookup_delete_ne by congruence.
Qed.

(** A call that only changes words of the nodes of the tree. *)
Lemma radix_nodes σ E a ns' T' :
  slab_ok σ E -> (forall k, entries a !! k = E !! (0%nat, k)) ->
  rt (set_nodes ns' σ) E (fun _ => T') -> (forall p, ~ is_node E p -> ns' !! p = nodes σ !! p) ->
  radix (set_nodes ns' σ) (TM (entries a) T').
Proof.
  intros Hsl HM HI' Hfr. exists E. split_and!; [done| |done].
  apply (slab_ok_step σ _ E); [done..| |].
  - intros p Hp Ha. by apply (sl_free _ _ Hsl p).
  - intros p Hp. apply Hfr. by apply (sl_free _ _ Hsl).
Qed.

Lemma tagged_call σ a t :
  radix σ a -> 0 <= t < 2 -> radix_tree_tagged t σ = Some (Z.b2z (bool_decide (marks a t <> ∅)), σ).
Proof.
  intros (E & HI & Hsl & HM) Ht. unfold radix_tree_tagged. sm. destruct (rnode σ) as [p|] eqn:Hr.
  - destruct (root_any_tag σ E (marks a) p t HI Hr Ht) as (b & Hb & Hiff). sm_step Hb. unfold mret, SM_ret.
    do 3 f_equal. destruct b; symmetry.
    + apply bool_decide_eq_true. destruct (proj1 Hiff eq_refl) as [k Hk]. set_solver.
    + apply bool_decide_eq_false. intros Hne. apply set_choose_L in Hne as [k Hk].
      assert (false = true) by (apply Hiff; eauto). done.
  - rewrite bool_decide_eq_false_2; [done|]. intros Hne. apply set_choose_L in Hne as [k Hk].
    apply (ri_tags _ _ _ _ _ HI 0%nat) in Hk as [y Hy]; [|done]. rewrite (root_none_empty HI Hr) in Hy. done.
Qed.

Lemma items_entries E a ks :
  (forall k, entries a !! k = E !! (0%nat, k)) -> items_of E ks = (fun k => entries a !! k) <$> ks.
Proof. intros HM. apply list_fmap_ext. intros i k _. by rewrite HM. Qed.

Lemma exec_refines σ a c :
  radix σ a -> settled σ -> valid a c ->
  exists r σ', exec c σ = Some (r, σ') /\
    ((r = (abstract a c).1 /\ radix σ' (abstract a c).2 /\ settled σ') \/
     exists k x, c = Insert k x /\ r = RInt (- ENOMEM) /\ entries a !! k = None /\ radix σ' a).
Proof.
  intros Hrep Hset Hv. pose proof Hrep as (E & HI & Hsl & HM).
  destruct c as [k x|k|k|k|k t|k t|t|first max|first max t]; cbn [exec abstract valid] in *.
  - destruct (insert_call σ a k x Hrep Hv) as (e & σ' & Hi & Hres).
    { intros (Hr & _ & Hh). specialize (Hset Hr). lia. }
    exists (RInt e), σ'. sm_step Hi. split; [done|].
    destruct Hres as [(-> & -> & ? & ?)|[(-> & [y ->] & ? & ?)|(-> & ? & ? & _)]]; [by left|by left|right].
    by exists k, x.
  - eexists _, σ. sm_step (lookup_spec σ E _ k HI Hv). split; [done|]. left. split; [by rewrite HM|done].
  - exists (RPtr (E !! (0%nat, k))), σ. unfold radix_tree_lookup_slot.
    destruct (__lookup_slot_spec σ E _ k HI Hv) as (res & Hs & Hres). sm_step Hs.
    split; [|left; split; [by rewrite HM|done]]. destruct res as [sl|]; [by sm_step Hres|by rewrite Hres].
  - destruct (delete_call σ a k Hrep Hv) as (σ' & Hd & Hr & Hs). eexists _, σ'. sm_step Hd. split; [done|].
    left. split_and!; [done|done|auto].
  - destruct Hv as (Hk & Ht & [x Hx]). rewrite HM in Hx.
    destruct (tag_set_spec σ E (marks a) k x t HI Hk Ht Hx) as (ns' & Hs & HI' & Hfr).
    eexists _, _. sm_step Hs. split; [done|]. left. split_and!; [by rewrite HM, Hx|by apply (radix_nodes σ E)|done].
  - destruct Hv as (Hk & Ht). destruct (tag_clear_spec σ E (marks a) k t HI Hk Ht) as (ns' & Hs & HI' & Hfr).
    eexists _, _. sm_step Hs. split; [done|]. left. split_and!; [by rewrite HM|by apply (radix_nodes σ E)|done].
  - eexists _, σ. sm_step (tagged_call σ a t Hrep Hv). split; [done|]. by left.
  - destruct Hv as [Hu Hmax]. destruct (gang_lookup_spec σ E (marks a) HI Hset first max Hu Hmax) as (ks & Hg & Hpost).
    eexists _, σ. sm_step Hg. split; [done|]. left. split_and!; [|done|done]. cbn. f_equal.
    rewrite (items_entries E a) by done. f_equal. apply gang_post_ascending.
    destruct Hpost as (? & ? & Hin & Hcl). split_and!; [done|done| |].
    + intros k Hk. rewrite elem_of_dom, HM. by apply Hin.
    + intros k Hk. rewrite elem_of_dom, HM in Hk. by apply Hcl.
  - destruct Hv as (Hu & Hmax & Ht).
    destruct (gang_lookup_tag_spec σ E (marks a) HI Hset first max t Hu Hmax Ht) as (ks & Hg & Hpost).
    eexists _, σ. sm_step Hg. split; [done|]. left. split_and!; [|done|done]. cbn. f_equal.
    rewrite (items_entries E a) by done. f_equal. by apply gang_post_ascending.
Qed.

(** ** Sequences of calls *)

(** Calls one after the other, up to the first one for which there is no memory. *)
Fixpoint run (cs : list call) : RM (list result) :=
  match cs with
  | [] => mret []
  | c :: cs =>
    r ← exec c;
    if decide (r = RInt (- ENOMEM)) then mret [r]
    else rs ← run cs; mret (r :: rs)
  end.

Fixpoint abstract_run (a : tagged_map) (cs : list call) : list result * tagged_map :=
  match cs with
  | [] => ([], a)
  | c :: cs => let '(r, a) := abstract a c in let '(rs, a) := abstract_run a cs in (r :: rs, a)
  end.

Fixpoint valid_run (a : tagged_map) (cs : list call) : Prop :=
  match cs with
  | [] => True
  | c :: cs => valid a c /\ valid_run (abstract a c).2 cs
  end.

Lemma abstract_no_enomem a c : (abstract a c).1 <> RInt (- ENOMEM).
Proof.
  destruct c; cbn; try done.
  - by destruct (entries a !! k).
  - by destruct (bool_decide _).
Qed.

(** An empty tree, with objects to allocate. *)
Lemma radix_empty σ :
  rnode σ = None -> height σ = O -> NoDup (avail σ) ->
  (forall p, p ∈ avail σ -> nodes σ !! p = None \/ nodes σ !! p = Some radix_tree_node_ctor) ->
  (forall p, p ∈ preloads σ -> is_Some (nodes σ !! p)) ->
  radix_in σ (TM ∅ (fun _ => ∅)) (fun _ => False).
Proof.
  intros Hr Hh Hnd Hc Hp. exists ∅. split_and!; [| |done|].
  - unfold rt. rewrite Hr, Hh. split; [lia|done|done|..].
    1-4: intros l q ? **; simplify_map_eq.
    intros l t k _ Hk. set_solver.
  - split; [done| |done|done]. intros p _ (l & q & Hl). simplify_map_eq.
  - intros p. split; [done|]. intros (l & q & Hl). simplify_map_eq.
Qed.

(** ** Preloading *)




(** * Properties *)

(** C6. Any sequence of calls on a radix tree, from any well-formed tree at rest: every call
    follows only valid pointers, stays inside its arrays, trips no [BUG_ON], and returns what
    the abstract tagged map returns (lookups and gang lookups included, in ascending order),
    with the nodes freed by deletions being handed out again; the only other outcome is that
    an insertion of an absent key returns [-ENOMEM] and leaves the map as it was. *)
Theorem radix_tree_refines cs σ a :
  radix σ a -> settled σ -> valid_run a cs ->
  exists rs σ', run cs σ = Some (rs, σ') /\
    ((rs = (abstract_run a cs).1 /\ radix σ' (abstract_run a cs).2 /\ settled σ') \/
     exists cs1 k x cs2, cs = cs1 ++ Insert k x :: cs2 /\
       rs = (abstract_run a cs1).1 ++ [RInt (- ENOMEM)] /\
       entries (abstract_run a cs1).2 !! k = None /\ radix σ' (abstract_run a cs1).2).
Proof.
  revert σ a. induction cs as [|c cs IH]; intros σ a Hrep Hset Hv.
  { exists [], σ. split; [done|]. by left. }
  destruct Hv as [Hv Hvs]. destruct (exec_refines σ a c Hrep Hset Hv) as (r & σ1 & Hx & Hres).
  cbn [run]. sm_step Hx. destruct Hres as [(-> & Hrep1 & Hset1)|(k & x & -> & -> & Hn & Hrep1)].
  - rewrite decide_False by apply abstract_no_enomem.
    destruct (IH σ1 _ Hrep1 Hset1 Hvs) as (rs & σ' & Hr & Hres). sm_step Hr.
    eexists _, σ'. split; [reflexivity|]. cbn [abstract_run]. destruct (abstract a c) as [r a1] eqn:Ha. cbn in *.
    destruct Hres as [(-> & ? & ?)|(cs1 & k & x & cs2 & -> & -> & ? & ?)].
    + left. by destruct (abstract_run a1 cs).
    + right. exists (c :: cs1), k, x, cs2. split; [done|]. cbn [abstract_run]. rewrite Ha.
      by destruct (abstract_run a1 cs1).
  - rewrite decide_True by done. eexists _, σ1. split; [reflexivity|]. right. by exists [], k, x, cs.
Qed.

(** Raising an empty tree of height six or more asks for the index limit of a height that
    the table does not have. *)
Lemma insert_overrun σ x :
  rnode σ = None -> (6 <= height σ)%nat -> radix_tree_insert 0 (Some x) σ = None.
Proof.
  intros Hr Hh.
  assert (He : radix_tree_extend 0 σ = None).
  { unfold radix_tree_extend. sm. cbn [extend_height]. by rewrite maxindex_none by lia. }
  unfold radix_tree_insert. sm. rewrite Hr. unfold lift, mbind at 1, SM_bind.
  destruct (radix_tree_maxindex (height σ)); [|done]. unfold mbind, SM_bind. rewrite bool_decide_eq_true_2 by done. cbn. by rewrite He.
Qed.

(** C8. [radix_tree_insert] of a 32-bit key: [-EEXIST] and no change when the key is present,
    otherwise the key is added, or [-ENOMEM] is returned and the map is as it was.  With a
    non-waiting allocation mask [-ENOMEM] means that the pool held fewer than the six nodes
    that an insertion can need, or than [11 - height] when the tree has to grow; with a mask
    that allows waiting the pool is not used and nothing is said about when memory is short.
    The call changes no node outside the tree and the nodes that it allocates, so that other
    trees of the same cache are not touched.  One state is different: for key zero in an empty
    tree of height six, which failed insertions can leave, the call reads past the end of
    [height_to_maxindex] ([None]). *)
Theorem radix_insert_correct σ a N k x :
  radix_in σ a N -> is_u32 k ->
  (rnode σ = None /\ k = 0 /\ height σ = 6%nat -> radix_tree_insert k (Some x) σ = None) /\
  (~ (rnode σ = None /\ k = 0 /\ height σ = 6%nat) ->
   exists e σ' N', radix_tree_insert k (Some x) σ = Some (e, σ') /\
    ((e = 0 /\ entries a !! k = None /\ radix_in σ' (TM (<[k := x]> (entries a)) (marks a)) N' /\
        radix_tree_lookup k σ' = Some (Some x, σ')) \/
     (e = - EEXIST /\ is_Some (entries a !! k) /\ radix_in σ' a N') \/
     (e = - ENOMEM /\ entries a !! k = None /\ radix_in σ' a N' /\
        (nowait σ -> length (preloads σ) < nodes_needed σ k)%nat)) /\
    (forall p, N' p -> N p \/ p ∈ avail σ) /\
    (forall p, ~ N p -> p ∉ avail σ -> nodes σ' !! p = nodes σ !! p)).
Proof.
  intros (E & HI & Hsl & HM & HN) Hk.
  split; [intros (Hr & -> & Hh); apply insert_overrun; [done|lia]|]. intros Hbad.
  destruct (insert_spec σ E (marks a) k x HI Hsl Hk Hbad) as (e & σ' & E' & Hi & HI' & Hsl' & Hev & Hres).
  exists e, σ', (is_node E'). split; [done|]. split; [|split].
  - rewrite HM. destruct Hres as [(-> & Hn & HE)|[(-> & Hy & HE)|(-> & Hn & HE & Hw)]].
    + left. split_and!; [done|done| |].
      * exists E'. split_and!; [done|done| |done]. intros k'. cbn. rewrite HE. case_decide as Hc.
        -- by rewrite Hc, lookup_insert_eq.
        -- by rewrite lookup_insert_ne by congruence.
      * rewrite (lookup_spec σ' E' _ k HI' Hk), HE. by rewrite decide_True.
    + right; left. split_and!; [done|done|]. exists E'. split_and!; [done|done| |done]. intros k'. by rewrite HM, HE.
    + right; right. split_and!; [done|done| |done]. exists E'. split_and!; [done|done| |done]. intros k'. by rewrite HM, HE.
  - intros p Hp. rewrite HN. by apply (ev_node _ _ _ _ Hev).
  - intros p Hp. rewrite HN in Hp. by apply (ev_frame _ _ _ _ Hev).
Qed.

(** C7. [radix_tree_delete] returns the item, removes the key and its tags, and frees exactly
    the nodes that leave the tree, each once; a freed node is in the state in which the slab
    constructor left it (no slot in use, no tag, count zero), as the cache requires, and no node outside
    the tree changes.  When the last item goes, the root is [NULL] and the height zero. *)
Theorem radix_delete_correct σ a N k :
  radix_in σ a N -> settled σ -> is_u32 k ->
  exists σ' N' fs, radix_tree_delete k σ = Some (entries a !! k, σ') /\
    radix_in (refill (reverse fs) σ') (TM (delete k (entries a)) (fun t => marks a t ∖ {[k]})) N' /\
    freed σ' = fs ++ freed σ /\ NoDup fs /\ (forall p, p ∈ fs <-> N p /\ ~ N' p) /\
    (forall p, p ∈ fs -> nodes σ' !! p = Some radix_tree_node_ctor) /\
    (forall p, ~ N p -> nodes σ' !! p = nodes σ !! p) /\ settled σ'.
Proof.
  intros (E & HI & Hsl & HM & HN) Hset Hk.
  destruct (delete_spec σ E (marks a) k HI Hsl Hk)
    as (σ' & E' & fs & Hd & HI' & Hsl' & HE & Hfr & _ & _ & _ & Hset' & Hnodes & Hdom & Hframe).
  assert (Hav : forall p, p ∈ fs -> p ∈ avail (refill (reverse fs) σ')).
  { intros p Hp. rewrite avail_refill, elem_of_app, elem_of_reverse. auto. }
  exists σ', (is_node E'), fs. split; [by rewrite HM|]. split_and!.
  - exists E'. split_and!; [done|done| |done]. intros k'. cbn. rewrite HE. case_decide as Hc.
    + by rewrite Hc, lookup_delete_eq.
    + by rewrite lookup_delete_ne by congruence.
  - done.
  - pose proof (sl_nodup _ _ Hsl') as Hnd. rewrite avail_refill in Hnd. apply NoDup_app in Hnd as (_ & _ & Hnd).
    by rewrite reverse_Permutation in Hnd.
  - intros p. rewrite HN, Hnodes. split; [|tauto]. intros Hp. split; [auto|]. apply (sl_free _ _ Hsl'). auto.
  - intros p Hp. destruct (sl_ctor _ _ Hsl' p (Hav p Hp)) as [Hn|?]; [|done]. cbn in Hn.
    assert (Hnode : is_node E p) by (apply Hnodes; auto). destruct Hnode as (l & q & Hlq).
    destruct (node_at HI _ _ _ Hlq) as (nd & Hnd & _). destruct (Hdom p) as [? ?]; [eauto|congruence].
  - intros p Hp. rewrite HN in Hp. by apply Hframe.
  - auto.
Qed.


(** A tree whose cache hands out the nodes [1], [2], ...; the mask does not allow waiting. *)
Definition fresh_tree (n : nat) : rstate :=
  RState 0 0x20 None ∅ [] 0 ((fun i => Some (Pos.of_succ_nat i)) <$> seq 0 n) [].

(** ** Where the code falls short *)

(** The positions of the nodes on the path to a high key [k] and on the path to a key below
    64, in a tree of height six. *)
Definition two_paths (k : Z) : list (nat * Z) :=
  ((fun l => (l, k / span l)) <$> [1; 2; 3; 4; 5]%nat) ++ ((fun l => (l, 0)) <$> [1; 2; 3; 4; 5; 6]%nat).

Lemma two_paths_nodup k : 2^30 <= k < 2^32 -> NoDup (two_paths k).
Proof.
  intros Hk. assert (Hne : forall l, (l <= 5)%nat -> k / span l <> 0).
  { intros l Hl Hz. pose proof (span_pos l). apply Z.div_small_iff in Hz; [|lia].
    assert (span l <= 2^30); [|lia]. rewrite span_shift. apply Z.pow_le_mono_r; lia. }
  pose proof (Hne 1%nat ltac:(lia)). pose proof (Hne 2%nat ltac:(lia)). pose proof (Hne 3%nat ltac:(lia)).
  pose proof (Hne 4%nat ltac:(lia)). pose proof (Hne 5%nat ltac:(lia)). unfold two_paths. cbn [fmap list_fmap app].
  repeat (apply NoDup_cons; split; [rewrite ?elem_of_cons, elem_of_nil; intros Hin; naive_solver|]). apply NoDup_nil_2.
Qed.

(** In a tree of height one all nodes are the root. *)
Lemma low_node σ E T p : rt σ E T -> height σ = 1%nat -> is_node E p -> rnode σ = Some p.
Proof.
  intros HI Hh (l & q & Hp). pose proof (ri_root _ _ _ _ _ HI) as ->. rewrite Hh.
  destruct (ri_range _ _ _ _ _ HI _ _ _ Hp) as (Hl & _ & _ & Hq). rewrite Hh in *.
  assert (l = 0%nat) as -> by lia. by rewrite <- Hq by done.
Qed.

(** A tree that holds a key below 64 and a key of [2^30] or more has eleven nodes. *)
Lemma two_paths_nodes σ E T k k' x y p :
  rt σ E T -> E !! (0%nat, k) = Some x -> E !! (0%nat, k') = Some y -> 0 <= k' < 64 -> 2^30 <= k < 2^32 ->
  p ∈ two_paths k -> exists a, E !! p = Some a /\ is_node E a.
Proof.
  intros HI Hx Hy Hk' Hk Hp.
  assert (Hh : height σ = 6%nat).
  { destruct (key_range HI k ltac:(by eexists)) as [_ Hlt]. pose proof (ri_height _ _ _ _ _ HI) as Hle.
    destruct (decide (height σ = 6%nat)) as [|Hne]; [done|]. exfalso.
    assert (span (height σ) <= 2^30); [|lia]. rewrite span_shift. apply Z.pow_le_mono_r; lia. }
  assert (Hup : forall k0 l, is_Some (E !! (0%nat, k0)) -> (1 <= l <= 6)%nat ->
    exists a, E !! (l, k0 / span l) = Some a /\ is_node E a).
  { intros k0 l H0 Hl. destruct (ancestor HI k0 0 l) as [a Ha]; [by rewrite at_level_0|lia|].
    unfold at_level in Ha. exists a. split; [done|]. destruct l as [|l]; [lia|]. by exists l, (k0 / span (S l)). }
  assert (Hlow : forall l, (1 <= l <= 6)%nat -> k' / span l = 0).
  { intros l Hl. apply Z.div_small. destruct l as [|l]; [lia|]. rewrite span_S. pose proof (span_pos l). lia. }
  unfold two_paths in Hp. apply elem_of_app in Hp as [Hp|Hp]; apply list_elem_of_fmap in Hp as (l & -> & Hl).
  - apply Hup; [by eexists|]. rewrite !elem_of_cons, elem_of_nil in Hl. lia.
  - assert (1 <= l <= 6)%nat by (rewrite !elem_of_cons, elem_of_nil in Hl; lia).
    rewrite <- (Hlow l) by done. apply Hup; [by eexists|done].
Qed.

(** Seven nodes are not enough to add a high key to a tree of height one. *)
Lemma insert_short σ a k k' x y :
  radix σ a -> height σ = 1%nat -> entries a !! k' = Some y -> 2^30 <= k < 2^32 ->
  (length (avail σ) <= RADIX_TREE_MAX_PATH)%nat ->
  exists σ', radix_tree_insert k (Some x) σ = Some (- ENOMEM, σ').
Proof.
  intros (E & HI & Hsl & HM) Hh Hy Hk Hav. rewrite HM in Hy.
  destruct (key_range HI k' ltac:(by eexists)) as [Hk' Hlow].
  rewrite Hh in Hlow. change (span 1) with 64 in Hlow. unfold is_u32 in Hk'.
  destruct (insert_spec σ E (marks a) k x HI Hsl) as (e & σ' & E' & Hi & HI' & Hsl' & Hev & Hres);
    [unfold is_u32; lia|lia|].
  exists σ'. rewrite Hi. destruct Hres as [(-> & Hn & HE)|[(-> & Hs & _)|(-> & _)]]; [exfalso| |done].
  - set (f := fun p => default 1%positive (E' !! p)).
    assert (Hpath : forall p, p ∈ two_paths k -> E' !! p = Some (f p) /\ is_node E' (f p)).
    { intros p Hp. unfold f. edestruct (two_paths_nodes σ' E' _ k k' x y p HI') as (b & Hb & Hnode);
        [by rewrite HE, decide_True|rewrite HE, decide_False by lia; done|lia|done|done|]. by rewrite Hb. }
    assert (Hnd : NoDup (f <$> two_paths k)).
    { apply NoDup_fmap_2_strong; [|by apply two_paths_nodup]. intros p q Hp Hq Heq.
      apply Hpath in Hp as Hp'. apply Hpath in Hq as Hq'. rewrite Heq in Hp'.
      assert (Hpos : forall r : nat * Z, r ∈ two_paths k -> exists l z, r = (S l, z)).
      { intros r Hr. unfold two_paths in Hr. cbn [fmap list_fmap app] in Hr.
        rewrite !elem_of_cons, elem_of_nil in Hr. naive_solver eauto. }
      destruct (Hpos p Hp) as (l & z & ->), (Hpos q Hq) as (l' & z' & ->).
      destruct (ri_inj _ _ _ _ _ HI' _ _ _ _ _ (proj1 Hp') (proj1 Hq')) as [-> ->]. done. }
    assert (Hsub : f <$> two_paths k ⊆+ option_list (rnode σ) ++ avail σ).
    { apply NoDup_submseteq; [done|]. intros b (p & -> & Hp)%list_elem_of_fmap.
      destruct (Hpath p Hp) as [_ Hnode]. apply elem_of_app.
      destruct (ev_node _ _ _ _ Hev _ Hnode) as [Ho|?]; [left|by right].
      rewrite (low_node σ E _ _ HI Hh Ho). by apply list_elem_of_singleton. }
    apply submseteq_length in Hsub. rewrite length_app in Hsub. unfold RADIX_TREE_MAX_PATH in Hav.
    change (length (f <$> two_paths k)) with 11%nat in Hsub. destruct (rnode σ); simpl in Hsub; lia.
  - destruct (key_range HI k Hs) as [_ Hlt]. rewrite Hh in Hlt. change (span 1) with 64 in Hlt. lia.
Qed.

(** Without memory an insertion into an empty tree only changes the height. *)
Lemma insert_no_memory σ k x :
  rnode σ = None -> preloads σ = [] -> kmem σ = [] -> (height σ <= 6)%nat -> is_u32 k ->
  (k = 0 -> (height σ < 6)%nat) ->
  exists h, radix_tree_insert k (Some x) σ = Some (- ENOMEM, set_height h σ) /\
    (1 <= h)%nat /\ (height σ <= h <= 6)%nat /\ (k = 0 -> h = S (height σ)).
Proof.
  intros Hr Hp Hm Hh Hk H0.
  assert (Hloop : forall h, (1 <= h)%nat ->
    insert_loop h k (top_shift h) None 0 None (set_height h σ) = Some (inl (- ENOMEM), set_height h σ)).
  { intros [|h] ?; [lia|]. cbn [insert_loop]. unfold mbind, SM_bind.
    assert (Hal : radix_tree_node_alloc (set_height (S h) σ) = Some (None, set_height (S h) σ)).
    { destruct σ; cbn in *; subst. unfold radix_tree_node_alloc, mbind, SM_bind, kmem_cache_alloc. cbn. by case_decide. }
    by rewrite Hal. }
  unfold radix_tree_insert. sm. destruct (maxindex_lookup (height σ) Hh) as (m & -> & Hm0 & Hmk). sm. rewrite Hr.
  destruct (bool_decide (k = 0) && bool_decide (@None loc = None) || bool_decide (m < k)) eqn:Hc.
  - assert (Hlt : (height σ < 6)%nat).
    { destruct (decide (k = 0)) as [Hz|Hz]; [auto|].
      rewrite bool_decide_eq_false_2 in Hc by done. cbn in Hc. apply bool_decide_eq_true, Hmk in Hc; [|done].
      destruct (decide (height σ = 6%nat)) as [H6|]; [|lia]. rewrite H6 in Hc.
      change (span 6) with (2^36) in Hc. unfold is_u32 in Hk. lia. }
    destruct (extend_height_spec (S RADIX_TREE_MAX_PATH) k (S (height σ)) Hk) as (h & Hext & Hhr & _);
      [lia|unfold RADIX_TREE_MAX_PATH; lia|].
    assert (Hgrow : radix_tree_extend k σ = Some (0, set_height h σ)).
    { unfold radix_tree_extend. sm. rewrite Hext. sm. by rewrite Hr. }
    sm_step Hgrow. rewrite decide_False by lia. sm.
    change (rnode (set_height h σ)) with (rnode σ). rewrite Hr. change (height (set_height h σ)) with h.
    sm_step (Hloop h ltac:(lia)). exists h. split; [done|]. split; [lia|]. split; [lia|].
    intros ->. cbn [extend_height] in Hext. destruct (maxindex_lookup (S (height σ)) ltac:(lia)) as (m' & Hm' & ? & _).
    rewrite Hm' in Hext. cbn [mbind option_bind] in Hext. rewrite decide_False in Hext by lia. by injection Hext.
  - sm. rewrite decide_False by lia. sm. rewrite Hr.
    apply orb_false_iff in Hc as [Hc1 Hc2]. apply bool_decide_eq_false in Hc2. rewrite (bool_decide_eq_true_2 (None = None)) in Hc1 by done.
    rewrite andb_true_r in Hc1. apply bool_decide_eq_false in Hc1.
    assert (Hge : (1 <= height σ)%nat).
    { destruct (height σ) as [|h] eqn:Hz; [|lia]. exfalso. apply Hc2. rewrite Hmk by done.
      change (span 0) with 1. unfold is_u32 in Hk. lia. }
    exists (height σ). assert (set_height (height σ) σ = σ) as Hσ by (by destruct σ).
    pose proof (Hloop _ Hge) as Hl. rewrite Hσ in *. sm_step Hl. split; [done|]. split; [done|]. split; [lia|]. done.
Qed.

(** The gang lookups of an empty tree whose height is not zero. *)
Lemma slot_used_null i σ : slot_used None i σ = None.
Proof. done. Qed.

Lemma left_from_mask i : exists n, left_from (i &u RADIX_TREE_MAP_MASK) = S n.
Proof.
  assert (i &u RADIX_TREE_MAP_MASK < 64).
  { change RADIX_TREE_MAP_MASK with (Z.ones 6). rewrite Z.land_ones by lia. apply Z.mod_pos_bound. lia. }
  unfold left_from. change RADIX_TREE_MAP_SIZE with 64. exists (Z.to_nat (64 - (i &u RADIX_TREE_MAP_MASK)) - 1)%nat. lia.
Qed.

Lemma gang_null look σ fuel max_index first max :
  (forall i n, look i n σ = None) -> 0 < max -> first <= max_index ->
  gang_loop look (S fuel) max_index first max [] σ = None.
Proof.
  intros Hl Hmax Hle. cbn [gang_loop]. change (zlen (@nil ptr)) with 0. rewrite decide_True by lia.
  rewrite decide_False by lia. unfold mbind at 1, SM_bind. by rewrite Hl.
Qed.

Lemma lookup_null σ : rnode σ = None -> (1 <= height σ)%nat -> forall i n, __lookup i n σ = None.
Proof.
  intros Hr Hh i n. unfold __lookup. sm. rewrite decide_False by lia. sm. rewrite Hr.
  destruct (height σ) as [|[|h]]; [lia| |]; cbn [__lookup_loop].
  - destruct (left_from_mask i) as [m ->]. done.
  - unfold offset_at. destruct (left_from_mask (i >>u top_shift (S (S h)))) as [m ->]. done.
Qed.

Lemma lookup_tag_null σ t : rnode σ = None -> (1 <= height σ)%nat -> forall i n, __lookup_tag t i n σ = None.
Proof.
  intros Hr Hh i n. unfold __lookup_tag. sm. rewrite Hr.
  destruct (height σ) as [|h]; [lia|]. cbn [__lookup_tag_loop].
  unfold offset_at. destruct (left_from_mask (i >>u top_shift (S h))) as [m ->]. done.
Qed.

(** C39. Where the code falls short.
    - The [RADIX_TREE_MAX_PATH] nodes that [radix_tree_preload] gathers do not ensure that an
      insertion succeeds: adding a key of [2^30] or more to any tree of height one that holds
      an item returns [-ENOMEM] when no more than seven nodes can be had.
    - An insertion into an empty tree without memory returns [-ENOMEM] and leaves behind a
      height that is not zero, one more than before for key zero.
    - In any empty tree with such a height both gang lookups follow the null [rnode].
    - In any empty tree of height six (or more) the insertion of key zero reads past the end
      of [height_to_maxindex]. *)
Theorem radix_edge_cases σ :
  (forall a k k' x y, radix σ a -> height σ = 1%nat -> entries a !! k' = Some y ->
     2^30 <= k < 2^32 -> (length (avail σ) <= RADIX_TREE_MAX_PATH)%nat ->
     exists σ', radix_tree_insert k (Some x) σ = Some (- ENOMEM, σ')) /\
  (forall k x, rnode σ = None -> preloads σ = [] -> kmem σ = [] -> (height σ <= 6)%nat -> is_u32 k ->
     (k = 0 -> (height σ < 6)%nat) ->
     exists h, radix_tree_insert k (Some x) σ = Some (- ENOMEM, set_height h σ) /\
       (1 <= h)%nat /\ (height σ <= h <= 6)%nat /\ (k = 0 -> h = S (height σ))) /\
  (forall first max t, rnode σ = None -> (1 <= height σ)%nat -> 0 < max ->
     (forall m, radix_tree_maxindex (height σ) = Some m -> first <= m) ->
     radix_tree_gang_lookup first max σ = None /\ radix_tree_gang_lookup_tag first max t σ = None) /\
  (forall x, rnode σ = None -> (6 <= height σ)%nat -> radix_tree_insert 0 (Some x) σ = None).
Proof.
  split; [intros; by eapply insert_short|]. split; [intros; by apply insert_no_memory|].
  split; [|intros; by apply insert_overrun]. intros first max t Hr Hh Hmax Hfirst.
  unfold radix_tree_gang_lookup, radix_tree_gang_lookup_tag. sm. unfold lift, mbind, SM_bind.
  destruct (radix_tree_maxindex (height σ)) as [m|]; [|done]. cbn.
  split; (apply gang_null; [|done|by apply Hfirst]); [by apply lookup_null|by apply lookup_tag_null].
Qed.

(** ** Witnesses *)

Lemma fresh_radix n : radix_in (fresh_tree n) (TM ∅ (fun _ => ∅)) (fun _ => False).
Proof.
  assert (Hav : avail (fresh_tree n) = Pos.of_succ_nat <$> seq 0 n).
  { unfold avail, fresh_tree. cbn [preloads kmem app]. generalize (seq 0 n). intros l.
    induction l as [|i l IH]; [done|]. cbn. by f_equal. }
  apply radix_empty; [done|done| |by left|by intros p ?%not_elem_of_nil].
  rewrite Hav. apply NoDup_fmap_2; [|apply NoDup_seq]. intros i j. lia.
Qed.

Lemma fresh_height n h : (h <= 6)%nat -> radix_in (set_height h (fresh_tree n)) (TM ∅ (fun _ => ∅)) (fun _ => False).
Proof.
  intros Hh. destruct (fresh_radix n) as (E & HI & Hsl & HM & HN).
  pose proof (root_none_empty HI eq_refl) as ->. exists ∅. split; [by eapply rt_inv_empty|].
  split; [|done].
  apply (slab_ok_step (fresh_tree n) _ ∅); [done..| |done]. intros p Hp Ha. by apply (sl_free _ _ Hsl p).
Qed.

Lemma radix_in_radix σ a N : radix_in σ a N -> radix σ a.
Proof. intros (E & ? & ? & ? & _). by exists E. Qed.

Definition example_calls : list call :=
  [Insert 5 100; Insert (2^32 - 1) 101; TagSet 5 1; Gang 0 10; GangTag 0 10 1; Delete 5; Lookup 5; Insert 70 102].

Lemma radix_tree_refines_witness :
  exists rs σ', run example_calls (fresh_tree 20) = Some (rs, σ') /\
    ((rs = (abstract_run (TM ∅ (fun _ => ∅)) example_calls).1 /\
      radix σ' (abstract_run (TM ∅ (fun _ => ∅)) example_calls).2 /\ settled σ') \/
     exists cs1 k x cs2, example_calls = cs1 ++ Insert k x :: cs2 /\
       rs = (abstract_run (TM ∅ (fun _ => ∅)) cs1).1 ++ [RInt (- ENOMEM)] /\
       entries (abstract_run (TM ∅ (fun _ => ∅)) cs1).2 !! k = None /\
       radix σ' (abstract_run (TM ∅ (fun _ => ∅)) cs1).2).
Proof.
  apply (radix_tree_refines example_calls).
  - eapply radix_in_radix, fresh_radix.
  - done.
  - cbn [example_calls valid_run valid]. split_and!; try (unfold is_u32; lia); try done.
Defined.

Lemma radix_insert_correct_witness :
  radix_tree_insert 0 (Some 100%positive) (set_height 6 (fresh_tree 3)) = None /\
  exists e σ' N', radix_tree_insert 70 (Some 100%positive) (fresh_tree 3) = Some (e, σ') /\
    ((e = 0 /\ (∅ : gmap Z loc) !! 70 = None /\ radix_in σ' (TM (<[70 := 100%positive]> ∅) (fun _ => ∅)) N' /\
        radix_tree_lookup 70 σ' = Some (Some 100%positive, σ')) \/
     (e = - EEXIST /\ is_Some ((∅ : gmap Z loc) !! 70) /\ radix_in σ' (TM ∅ (fun _ => ∅)) N') \/
     (e = - ENOMEM /\ (∅ : gmap Z loc) !! 70 = None /\ radix_in σ' (TM ∅ (fun _ => ∅)) N' /\
        (nowait (fresh_tree 3) -> length (preloads (fresh_tree 3)) < nodes_needed (fresh_tree 3) 70)%nat)) /\
    (forall p, N' p -> False \/ p ∈ avail (fresh_tree 3)) /\
    (forall p, ~ False -> p ∉ avail (fresh_tree 3) -> nodes σ' !! p = nodes (fresh_tree 3) !! p).
Proof.
  split.
  - apply (radix_insert_correct (set_height 6 (fresh_tree 3)) (TM ∅ (fun _ => ∅)) (fun _ => False) 0 100%positive);
      [by apply fresh_height|done|done].
  - apply (radix_insert_correct (fresh_tree 3) (TM ∅ (fun _ => ∅)) (fun _ => False) 70 100%positive).
    + apply fresh_radix.
    + unfold is_u32. lia.
    + intros (_ & ? & _). lia.
Defined.

(** The tree with the key 70. *)
Definition one_key : rstate :=
  match radix_tree_insert 70 (Some 100%positive) (fresh_tree 3) with Some (_, σ) => σ | None => fresh_tree 3 end.

Definition one_map : tagged_map := TM {[70 := 100%positive]} (fun _ => ∅).

Lemma one_key_radix : exists N, radix_in one_key one_map N.
Proof.
  unfold one_map.
  destruct (fresh_radix 3) as (E & HI & Hsl & HM & _).
  destruct (insert_spec (fresh_tree 3) E _ 70 100%positive HI Hsl) as (e & σ' & E' & Hi & HI' & Hsl' & _ & Hres).
  { unfold is_u32. lia. } { intros (_ & ? & _). lia. }
  assert (He : e = 0 /\ one_key = σ') by (unfold one_key; rewrite Hi; split; [|done]; revert Hi; vm_compute; congruence).
  destruct He as [-> ->]. exists (is_node E'), E'. destruct Hres as [(_ & _ & HE)|[(? & _)|(? & _)]]; [|done|done].
  split_and!; [done|done| |done]. intros k'. cbn [entries] in *. rewrite HE, <- HM. case_decide as Hc.
  - by rewrite Hc, lookup_singleton_eq.
  - by rewrite lookup_singleton_ne by congruence.
Qed.

Lemma radix_delete_correct_witness :
  exists N σ' N' fs, radix_tree_delete 70 one_key = Some (entries one_map !! 70, σ') /\
    radix_in (refill (reverse fs) σ') (TM (delete 70 (entries one_map)) (fun t => marks one_map t ∖ {[70]})) N' /\
    freed σ' = fs ++ freed one_key /\ NoDup fs /\ (forall p, p ∈ fs <-> N p /\ ~ N' p) /\
    (forall p, p ∈ fs -> nodes σ' !! p = Some radix_tree_node_ctor) /\
    (forall p, ~ N p -> nodes σ' !! p = nodes one_key !! p) /\ settled σ'.
Proof.
  destruct one_key_radix as [N HN]. exists N.
  apply (radix_delete_correct one_key one_map N 70).
  - exact HN.
  - intros H. vm_compute in H. discriminate H.
  - unfold is_u32. lia.
Defined.


(** With key 5 in the tree and seven nodes left; with no node at all. *)
Lemma radix_edge_cases_witness :
  (exists σ1 σ2, radix_tree_insert 5 (Some 100%positive) (fresh_tree 8) = Some (0, σ1) /\
     radix_tree_insert (2^32 - 1) (Some 101%positive) σ1 = Some (- ENOMEM, σ2)) /\
  (exists h, radix_tree_insert 0 (Some 100%positive) (fresh_tree 0) = Some (- ENOMEM, set_height h (fresh_tree 0)) /\
     h = 1%nat) /\
  (radix_tree_gang_lookup 0 1 (set_height 1 (fresh_tree 0)) = None /\
   radix_tree_gang_lookup_tag 0 1 0 (set_height 1 (fresh_tree 0)) = None) /\
  radix_tree_insert 0 (Some 100%positive) (set_height 6 (fresh_tree 0)) = None.
Proof.
  split; [|split; [|split]].
  - destruct (insert_call (fresh_tree 8) (TM ∅ (fun _ => ∅)) 5 100%positive) as (e & σ1 & Hi & Hres);
      [eapply radix_in_radix, fresh_radix|done|by intros (_ & ? & _)|].
    assert (He : e = 0 /\ height σ1 = 1%nat /\ length (avail σ1) = 7%nat).
    { vm_compute in Hi. injection Hi as <- <-. done. }
    destruct He as (-> & Hh & Hl). destruct Hres as [(_ & _ & (E & HI & Hsl & HM) & _)|[(? & _)|(? & _)]]; [|done..].
    destruct (proj1 (radix_edge_cases σ1) (TM (<[5 := 100%positive]> ∅) (fun _ => ∅))
      (2^32 - 1) 5 101%positive 100%positive) as [σ2 H2];
      [by exists E|done|apply lookup_insert_eq|lia|by rewrite Hl|].
    by exists σ1, σ2.
  - destruct (proj1 (proj2 (radix_edge_cases (fresh_tree 0))) 0 100%positive) as (h & Hi & _ & _ & Hh);
      [done|done|done|cbn; lia|done|cbn; lia|]. exists h. split; [done|by apply Hh].
  - apply (proj1 (proj2 (proj2 (radix_edge_cases (set_height 1 (fresh_tree 0)))))); [done|cbn; lia|lia|].
    intros m Hm. injection Hm as <-. by vm_compute.
  - apply (proj2 (proj2 (proj2 (radix_edge_cases (set_height 6 (fresh_tree 0)))))); [done|cbn; lia].
Defined.

End RadixSpec.
