(* ===== verification/Buddy.v ===== *)
(** The page allocator: the buddy system and the per-processor page lists of
    [mm/page_alloc.c], for one zone on one processor.

    A [struct page] is known by its page frame number, and [mem_map] holds the structures.
    The lists that pages are linked on by [lru] are lists of frame numbers, the first page
    first.  Sections under [zone->lock] or with interrupts off are one step.  What a page
    contains, the event counters and the hooks that are empty in this configuration
    ([arch_free_page], [kernel_map_pages]) are left out.  A [struct page] that does not
    exist, or a [BUG_ON] that fires, gives [None]. *)
From Stdlib Require Import ZArith Lia.
From stdpp Require Import base numbers list list_numbers option gmap.
From S2P Require Import Prelude.

Local Open Scope Z_scope.
Local Open Scope kernel_scope.

Module Buddy.

Definition MAX_ORDER : nat := 11.

Definition PG_locked : Z := 0.
Definition PG_error : Z := 1.
Definition PG_referenced : Z := 2.
Definition PG_uptodate : Z := 3.
Definition PG_dirty : Z := 4.
Definition PG_lru : Z := 5.
Definition PG_active : Z := 6.
Definition PG_slab : Z := 7.
Definition PG_checked : Z := 8.
Definition PG_arch_1 : Z := 9.
Definition PG_reserved : Z := 10.
Definition PG_private : Z := 11.
Definition PG_writeback : Z := 12.
Definition PG_compound : Z := 14.
Definition PG_swapcache : Z := 15.
Definition PG_mappedtodisk : Z := 16.
Definition PG_reclaim : Z := 17.

Definition __GFP_WAIT : Z := 0x10.
Definition __GFP_HIGHMEM : Z := 0x02.
Definition __GFP_COLD : Z := 0x100.
Definition __GFP_COMP : Z := 0x4000.
Definition __GFP_ZERO : Z := 0x8000.

Definition ALLOC_HARDER : Z := 0x10.
Definition ALLOC_HIGH : Z := 0x20.

Abbreviation pfn := Z.

(** [struct page]; [zone_of] is what [page_zone] reads from the upper bits of [flags], and
    [private] of a page of a compound page is the frame number of its head. *)
Record page := Page {
  flags : Z;
  _count : Z;
  _mapcount : Z;
  private : Z;
  mapping : Z;
  index : Z;
  zone_of : Z
}.

Record free_area := FreeArea { free_list : list pfn; nr_free : Z }.

Record per_cpu_pages := Pcp { count : Z; low : Z; high : Z; batch : Z; plist : list pfn }.

(** [struct zone], with the lists of its [pageset] (hot, cold), [mem_map], and whether the
    kernel is tainted. *)
Record zone := Zone {
  id : Z;
  zone_start_pfn : pfn;
  spanned_pages : Z;
  free_pages : Z;
  lowmem_reserve : list Z;
  free_areas : list free_area;
  pcps : list per_cpu_pages;
  all_unreclaimable : Z;
  pages_scanned : Z;
  mem_map : gmap pfn page;
  tainted : bool
}.

Definition ZM : Type -> Type := SM zone.

(** ** Access to the state *)

Definition gets {A} (f : zone -> A) : ZM A := fun z => Some (f z, z).
Definition modify (f : zone -> zone) : ZM unit := fun z => Some (tt, f z).
Definition lift {A} (x : option A) : ZM A := fun z => match x with Some a => Some (a, z) | None => None end.
Definition BUG_ON (b : bool) : ZM unit := if b then SM_fail else mret tt.

Definition set_free_pages (n : Z) (z : zone) : zone :=
  Zone (id z) (zone_start_pfn z) (spanned_pages z) n (lowmem_reserve z) (free_areas z) (pcps z)
    (all_unreclaimable z) (pages_scanned z) (mem_map z) (tainted z).
Definition set_free_areas (l : list free_area) (z : zone) : zone :=
  Zone (id z) (zone_start_pfn z) (spanned_pages z) (free_pages z) (lowmem_reserve z) l (pcps z)
    (all_unreclaimable z) (pages_scanned z) (mem_map z) (tainted z).
Definition set_pcps (l : list per_cpu_pages) (z : zone) : zone :=
  Zone (id z) (zone_start_pfn z) (spanned_pages z) (free_pages z) (lowmem_reserve z) (free_areas z) l
    (all_unreclaimable z) (pages_scanned z) (mem_map z) (tainted z).
Definition set_scanned (u s : Z) (z : zone) : zone :=
  Zone (id z) (zone_start_pfn z) (spanned_pages z) (free_pages z) (lowmem_reserve z) (free_areas z) (pcps z)
    u s (mem_map z) (tainted z).
Definition set_mem_map (m : gmap pfn page) (z : zone) : zone :=
  Zone (id z) (zone_start_pfn z) (spanned_pages z) (free_pages z) (lowmem_reserve z) (free_areas z) (pcps z)
    (all_unreclaimable z) (pages_scanned z) m (tainted z).
Definition set_tainted (z : zone) : zone :=
  Zone (id z) (zone_start_pfn z) (spanned_pages z) (free_pages z) (lowmem_reserve z) (free_areas z) (pcps z)
    (all_unreclaimable z) (pages_scanned z) (mem_map z) true.

Definition get_page (p : pfn) : ZM page := fun z => match mem_map z !! p with Some pg => Some (pg, z) | None => None end.
Definition put_page (p : pfn) (pg : page) : ZM unit :=
  fun z => match mem_map z !! p with Some _ => Some (tt, set_mem_map (<[p := pg]> (mem_map z)) z) | None => None end.

Definition set_flags (f : Z) (pg : page) : page :=
  Page f (_count pg) (_mapcount pg) (private pg) (mapping pg) (index pg) (zone_of pg).
Definition set_count (c : Z) (pg : page) : page :=
  Page (flags pg) c (_mapcount pg) (private pg) (mapping pg) (index pg) (zone_of pg).
Definition set_mapcount (c : Z) (pg : page) : page :=
  Page (flags pg) (_count pg) c (private pg) (mapping pg) (index pg) (zone_of pg).
Definition set_private (v : Z) (pg : page) : page :=
  Page (flags pg) (_count pg) (_mapcount pg) v (mapping pg) (index pg) (zone_of pg).
Definition set_mapping (m : Z) (pg : page) : page :=
  Page (flags pg) (_count pg) (_mapcount pg) (private pg) m (index pg) (zone_of pg).
Definition set_index (i : Z) (pg : page) : page :=
  Page (flags pg) (_count pg) (_mapcount pg) (private pg) (mapping pg) i (zone_of pg).

Definition modify_page (p : pfn) (f : page -> page) : ZM unit := pg ← get_page p; put_page p (f pg).

Definition flag (b : Z) (pg : page) : bool := Z.testbit (flags pg) b.
Definition set_flag (b : Z) (pg : page) : page := set_flags (Z.setbit (flags pg) b) pg.
Definition clear_flag (b : Z) (pg : page) : page := set_flags (Z.clearbit (flags pg) b) pg.

(** [1 << a | 1 << b | ...] *)
Definition mask_of (bits : list Z) : Z := foldr (fun b m => Z.lor (Z.shiftl 1 b) m) 0 bits.

(** [page_count]: of a compound page it is that of the head. *)
Definition page_count (p : pfn) : ZM Z :=
  pg ← get_page p;
  if flag PG_compound pg then hd ← get_page (private pg); mret (_count hd + 1)
  else mret (_count pg + 1).
Definition page_mapcount (pg : page) : Z := _mapcount pg + 1.
Definition set_page_count (p : pfn) (v : Z) : ZM unit := modify_page p (set_count (v - 1)).

(** ** Lists *)

Definition get_area (o : nat) : ZM free_area := l ← gets free_areas; lift (l !! o).
Definition put_area (o : nat) (a : free_area) : ZM unit :=
  l ← gets free_areas;
  match l !! o with Some _ => modify (set_free_areas (<[o := a]> l)) | None => SM_fail end.

Definition without (p : pfn) (l : list pfn) : list pfn := filter (fun x => x <> p) l.

(** [list_del(&page->lru)]: the page leaves the list of the zone that it is on. *)
Definition list_del (p : pfn) : ZM unit :=
  modify (fun z => set_free_areas ((fun a => FreeArea (without p (free_list a)) (nr_free a)) <$> free_areas z) z).

(** [list_add(&page->lru, &zone->free_area[o].free_list)] *)
Definition list_add (p : pfn) (o : nat) : ZM unit :=
  a ← get_area o; put_area o (FreeArea (p :: free_list a) (nr_free a)).

Definition add_nr_free (o : nat) (d : Z) : ZM unit :=
  a ← get_area o; put_area o (FreeArea (free_list a) (nr_free a +u d)).

(** ** Checks *)

Definition page_outside_zone_boundaries (p : pfn) : ZM bool :=
  start ← gets zone_start_pfn;
  span ← gets spanned_pages;
  mret (if decide (start + span <= p) then true else if decide (p < start) then true else false).

Definition page_is_consistent (p : pfn) : ZM bool :=
  i ← gets id;
  pg ← get_page p;
  mret (bool_decide (zone_of pg = i)).

Definition bad_range (p : pfn) : ZM bool :=
  out ← page_outside_zone_boundaries p;
  if out : bool then mret true else
  ok ← page_is_consistent p;
  mret (negb ok).

Definition bad_page_mask : Z :=
  mask_of [PG_lru; PG_private; PG_locked; PG_active; PG_dirty; PG_reclaim; PG_slab; PG_swapcache; PG_writeback].

Definition bad_page (p : pfn) : ZM unit :=
  modify_page p (fun pg => set_flags (flags pg &u not32 bad_page_mask) pg);;
  set_page_count p 0;;
  modify_page p (fun pg => set_mapping 0 (set_mapcount (-1) pg));;
  modify set_tainted.

(** ** Compound pages *)

Fixpoint prep_compound_loop (n : nat) (i : Z) (p : pfn) : ZM unit :=
  match n with
  | O => mret tt
  | S n =>
    modify_page (p + i) (fun pg => set_private p (set_flag PG_compound pg));;
    prep_compound_loop n (i + 1) p
  end.

Definition pages_of (order : nat) : nat := Nat.pow 2 order.

Definition prep_compound_page (p : pfn) (order : nat) : ZM unit :=
  modify_page (p + 1) (fun pg => set_index (Z.of_nat order) (set_mapping 0 pg));;
  prep_compound_loop (pages_of order) 0 p.

Fixpoint destroy_compound_loop (n : nat) (i : Z) (p : pfn) : ZM unit :=
  match n with
  | O => mret tt
  | S n =>
    pg ← get_page (p + i);
    (if negb (flag PG_compound pg) then bad_page p else mret tt);;
    pg ← get_page (p + i);
    (if decide (private pg <> p) then bad_page p else mret tt);;
    modify_page (p + i) (clear_flag PG_compound);;
    destroy_compound_loop n (i + 1) p
  end.

Definition destroy_compound_page (p : pfn) (order : nat) : ZM unit :=
  pg ← get_page p;
  if negb (flag PG_compound pg) then mret tt else
  pg1 ← get_page (p + 1);
  (if decide (index pg1 <> Z.of_nat order) then bad_page p else mret tt);;
  destroy_compound_loop (pages_of order) 0 p.

(** ** Orders and buddies *)

Definition page_order (pg : page) : Z := private pg.

Definition set_page_order (p : pfn) (order : nat) : ZM unit :=
  modify_page p (fun pg => set_flag PG_private (set_private (Z.of_nat order) pg)).

Definition rmv_page_order (p : pfn) : ZM unit :=
  modify_page p (fun pg => set_private 0 (clear_flag PG_private pg)).

Definition __page_find_buddy (p : pfn) (page_idx : Z) (order : nat) : pfn :=
  let buddy_idx := page_idx ^u (1 <<u Z.of_nat order) in
  p + (buddy_idx - page_idx).

Definition __find_combined_index (page_idx : Z) (order : nat) : Z := page_idx &u not32 (1 <<u Z.of_nat order).

Definition page_is_buddy (p : pfn) (order : nat) : ZM bool :=
  pg ← get_page p;
  if flag PG_private pg then
    if decide (page_order pg = Z.of_nat order) then
      c ← page_count p;
      mret (bool_decide (c = 0))
    else mret false
  else mret false.

(** ** Freeing *)

(** The [while (order < MAX_ORDER-1)] loop, with [n] orders left: the block that it ends with. *)
Fixpoint merge_loop (n : nat) (p : pfn) (page_idx : Z) (order : nat) : ZM (pfn * nat) :=
  match n with
  | O => mret (p, order)
  | S n =>
    let combined_idx := __find_combined_index page_idx order in
    let buddy := __page_find_buddy p page_idx order in
    bad ← bad_range buddy;
    if bad : bool then mret (p, order) else
    b ← page_is_buddy buddy order;
    if negb b then mret (p, order) else
    list_del buddy;;
    add_nr_free order (-1);;
    rmv_page_order buddy;;
    merge_loop n (p + (combined_idx - page_idx)) combined_idx (S order)
  end.

Definition __free_pages_bulk (p : pfn) (order : nat) : ZM unit :=
  let order_size := Z.shiftl 1 (Z.of_nat order) in
  (if decide (order <> O) then destroy_compound_page p order else mret tt);;
  let page_idx := p &u (Z.shiftl 1 (Z.of_nat MAX_ORDER) - 1) in
  BUG_ON (bool_decide ((page_idx &u (order_size - 1)) <> 0));;
  bad ← bad_range p;
  BUG_ON bad;;
  n ← gets free_pages;
  modify (set_free_pages (n +u order_size));;
  '(p, order) ← merge_loop (MAX_ORDER - 1 - order) p page_idx order;
  set_page_order p order;;
  list_add p order;;
  add_nr_free order 1.

Definition free_check_mask : Z :=
  mask_of [PG_lru; PG_private; PG_locked; PG_active; PG_reclaim; PG_slab; PG_swapcache; PG_writeback; PG_reserved].

Definition free_pages_check (p : pfn) : ZM bool :=
  pg ← get_page p;
  c ← page_count p;
  (if bool_decide (page_mapcount pg <> 0) || bool_decide (mapping pg <> 0) || bool_decide (c <> 0)
      || bool_decide ((flags pg &u free_check_mask) <> 0)
   then bad_page p else mret tt);;
  pg ← get_page p;
  (if flag PG_dirty pg then modify_page p (clear_flag PG_dirty) else mret tt);;
  pg ← get_page p;
  mret (flag PG_reserved pg).

(** The [while (!list_empty(list) && count--)] loop: pages are taken from the end. *)
Fixpoint free_bulk_loop (fuel : nat) (cnt : Z) (l : list pfn) (order : nat) (ret : Z) : ZM (Z * list pfn) :=
  match last l with
  | None => mret (ret, l)
  | Some p =>
    if decide (cnt = 0) then mret (ret, l) else
    match fuel with
    | O => SM_fail
    | S fuel =>
      __free_pages_bulk p order;;
      free_bulk_loop fuel (cnt - 1) (removelast l) order (ret + 1)
    end
  end.

(** Returns the number of pages freed and what is left of the list. *)
Definition free_pages_bulk (cnt : Z) (l : list pfn) (order : nat) : ZM (Z * list pfn) :=
  modify (set_scanned 0 0);;
  free_bulk_loop (length l) cnt l order 0.

Fixpoint check_loop (n : nat) (i : Z) (p : pfn) (reserved : Z) : ZM Z :=
  match n with
  | O => mret reserved
  | S n =>
    b ← free_pages_check (p + i);
    check_loop n (i + 1) p (reserved + Z.b2z b)
  end.

Definition __free_pages_ok (p : pfn) (order : nat) : ZM unit :=
  reserved ← check_loop (pages_of order) 0 p 0;
  if decide (reserved <> 0) then mret tt else
  free_pages_bulk 1 [p] order;;
  mret tt.

(** ** Allocation *)

(** [high] counts down to [low]; [page[size]] is the upper half. *)
Fixpoint expand_loop (n : nat) (p : pfn) (high : nat) (size : Z) : ZM unit :=
  match n with
  | O => mret tt
  | S n =>
    let high := Nat.pred high in
    let size := Z.shiftr size 1 in
    bad ← bad_range (p + size);
    BUG_ON bad;;
    list_add (p + size) high;;
    add_nr_free high 1;;
    set_page_order (p + size) high;;
    expand_loop n p high size
  end.

Definition expand (p : pfn) (low high : nat) : ZM pfn :=
  expand_loop (high - low) p high (Z.shiftl 1 (Z.of_nat high));;
  mret p.

Definition set_page_refs (p : pfn) : ZM unit := set_page_count p 1.

Definition new_page_mask : Z :=
  mask_of [PG_lru; PG_private; PG_locked; PG_active; PG_dirty; PG_reclaim; PG_slab; PG_swapcache; PG_writeback; PG_reserved].
Definition stale_mask : Z :=
  mask_of [PG_uptodate; PG_error; PG_referenced; PG_arch_1; PG_checked; PG_mappedtodisk].

(** Whether the page is reserved and must not be handed out. *)
Definition prep_new_page (p : pfn) : ZM bool :=
  pg ← get_page p;
  c ← page_count p;
  (if bool_decide (page_mapcount pg <> 0) || bool_decide (mapping pg <> 0) || bool_decide (c <> 0)
      || bool_decide ((flags pg &u new_page_mask) <> 0)
   then bad_page p else mret tt);;
  pg ← get_page p;
  if flag PG_reserved pg then mret true else
  modify_page p (fun pg => set_flags (flags pg &u not32 stale_mask) pg);;
  modify_page p (set_private 0);;
  set_page_refs p;;
  mret false.

(** The [for] loop over the orders from [current_order] on, [n] of them. *)
Fixpoint rmqueue_loop (n : nat) (order current_order : nat) : ZM (option pfn) :=
  match n with
  | O => mret None
  | S n =>
    a ← get_area current_order;
    match free_list a with
    | [] => rmqueue_loop n order (S current_order)
    | p :: _ =>
      list_del p;;
      rmv_page_order p;;
      add_nr_free current_order (-1);;
      f ← gets free_pages;
      modify (set_free_pages (f -u (1 <<u Z.of_nat order)));;
      p ← expand p order current_order;
      mret (Some p)
    end
  end.

Definition __rmqueue (order : nat) : ZM (option pfn) := rmqueue_loop (MAX_ORDER - order) order order.

(** [count] allocations, put at the end of the list: how many succeeded, and the list. *)
Fixpoint rmqueue_bulk (n : nat) (order : nat) (l : list pfn) (allocated : Z) : ZM (Z * list pfn) :=
  match n with
  | O => mret (allocated, l)
  | S n =>
    r ← __rmqueue order;
    match r with
    | None => mret (allocated, l)
    | Some p => rmqueue_bulk n order (l ++ [p]) (allocated + 1)
    end
  end.

Definition get_pcp (cold : nat) : ZM per_cpu_pages := l ← gets pcps; lift (l !! cold).
Definition put_pcp (cold : nat) (c : per_cpu_pages) : ZM unit :=
  l ← gets pcps;
  match l !! cold with Some _ => modify (set_pcps (<[cold := c]> l)) | None => SM_fail end.

Definition free_hot_cold_page (p : pfn) (cold : nat) : ZM unit :=
  pg ← get_page p;
  (if Z.odd (mapping pg) then modify_page p (set_mapping 0) else mret tt);;
  b ← free_pages_check p;
  if b : bool then mret tt else
  pcp ← get_pcp cold;
  let pcp := Pcp (count pcp + 1) (low pcp) (high pcp) (batch pcp) (p :: plist pcp) in
  put_pcp cold pcp;;
  if decide (high pcp <= count pcp) then
    '(ret, l) ← free_pages_bulk (batch pcp) (plist pcp) 0;
    put_pcp cold (Pcp (count pcp - ret) (low pcp) (high pcp) (batch pcp) l)
  else mret tt.

Definition free_hot_page (p : pfn) : ZM unit := free_hot_cold_page p 0.
Definition free_cold_page (p : pfn) : ZM unit := free_hot_cold_page p 1.

(** [put_page_testzero] *)
Definition put_page_testzero (p : pfn) : ZM bool :=
  c ← page_count p;
  BUG_ON (bool_decide (c = 0));;
  pg ← get_page p;
  put_page p (set_count (_count pg - 1) pg);;
  mret (bool_decide (_count pg - 1 < 0)).

Definition __free_pages (p : pfn) (order : nat) : ZM unit :=
  b ← put_page_testzero p;
  if b : bool then
    if decide (order = O) then free_hot_page p else __free_pages_ok p order
  else mret tt.

(** The pages of the zone before the call of [prep_new_page]. *)
Definition take_block (order : nat) (cold : nat) : ZM (option pfn) :=
  if decide (order = O) then
    pcp ← get_pcp cold;
    pcp ← (if decide (count pcp <= low pcp) then
             '(n, l) ← rmqueue_bulk (Z.to_nat (batch pcp)) 0 (plist pcp) 0;
             mret (Pcp (count pcp + n) (low pcp) (high pcp) (batch pcp) l)
           else mret pcp);
    if decide (count pcp = 0) then put_pcp cold pcp;; mret None else
    match plist pcp with
    | [] => SM_fail
    | p :: l => put_pcp cold (Pcp (count pcp - 1) (low pcp) (high pcp) (batch pcp) l);; mret (Some p)
    end
  else __rmqueue order.

(** [buffered_rmqueue]; the jump to [again] leaves a reserved page behind, so that the
    pages of the memory map bound the number of rounds.  [prep_zero_page] writes to the
    contents of the pages only. *)
Fixpoint buffered_rmqueue_loop (fuel : nat) (order : nat) (gfp_flags : Z) : ZM (option pfn) :=
  match fuel with
  | O => SM_fail
  | S fuel =>
    r ← take_block order (if decide ((gfp_flags &u __GFP_COLD) = 0) then 0%nat else 1%nat);
    match r with
    | None => mret None
    | Some p =>
      bad ← bad_range p;
      BUG_ON bad;;
      again ← prep_new_page p;
      if again : bool then buffered_rmqueue_loop fuel order gfp_flags else
      (if decide ((gfp_flags &u __GFP_ZERO) <> 0)
       then BUG_ON (bool_decide ((gfp_flags &u (__GFP_WAIT |u __GFP_HIGHMEM)) = __GFP_HIGHMEM)) else mret tt);;
      (if bool_decide (order <> O) && bool_decide ((gfp_flags &u __GFP_COMP) <> 0)
       then prep_compound_page p order else mret tt);;
      mret (Some p)
    end
  end.

Definition buffered_rmqueue (order : nat) (gfp_flags : Z) : ZM (option pfn) :=
  m ← gets mem_map;
  buffered_rmqueue_loop (S (size m)) order gfp_flags.

(** ** Watermarks

    The first comparison is unsigned, because [lowmem_reserve] is. *)

(** The [for (o = 0; o < order; o++)] loop, with [n] rounds left. *)
Fixpoint watermark_loop (n : nat) (areas : list free_area) (o : nat) (free min : Z) : option bool :=
  match n with
  | O => Some true
  | S n =>
    a ← areas !! o;
    let free := s32 (free - u32 (Z.shiftl (nr_free a) (Z.of_nat o))) in
    let min := Z.shiftr min 1 in
    if decide (free <= min) then Some false else watermark_loop n areas (S o) free min
  end.

Definition zone_watermark_ok (order : nat) (mark : Z) (classzone_idx : nat) (alloc_flags : Z) : ZM bool :=
  n ← gets free_pages;
  r ← gets lowmem_reserve;
  reserve ← lift (r !! classzone_idx);
  areas ← gets free_areas;
  let min := s32 mark in
  let free := s32 (n - Z.shiftl 1 (Z.of_nat order) + 1) in
  let min := if decide ((alloc_flags &u ALLOC_HIGH) <> 0) then min - Z.quot min 2 else min in
  let min := if decide ((alloc_flags &u ALLOC_HARDER) <> 0) then min - Z.quot min 4 else min in
  if decide (u32 free <= min +u reserve) then mret false
  else lift (watermark_loop order areas 0 free min).

End Buddy.
