(* ===== verification/BuddyBlocks.v ===== *)
(** Aligned blocks of pages and the blocks that a set of free pages falls into.

    Block [b] of order [o] holds the pages [x] with [x / 2^o = b]; its buddy is the other
    half of block [b / 2] of order [o + 1].  The canonical blocks of a set of pages are the
    largest aligned blocks, up to order 10, that lie in the set. *)
From Stdlib Require Import ZArith Lia.
From stdpp Require Import base numbers list list_numbers option gmap sets.
From S2P Require Import Prelude.

Local Open Scope Z_scope.

(** * Blocks *)

Definition psize (o : nat) : Z := 2 ^ Z.of_nat o.

Lemma psize_pos o : 0 < psize o.
Proof. apply Z.pow_pos_nonneg; lia. Qed.
Lemma psize_S o : psize (S o) = 2 * psize o.
Proof. unfold psize. rewrite Nat2Z.inj_succ, Z.pow_succ_r by lia. done. Qed.
Lemma psize_le o o' : (o <= o')%nat -> psize o <= psize o'.
Proof. intros. apply Z.pow_le_mono_r; lia. Qed.

Lemma div_psize_S x o : x / psize (S o) = x / psize o / 2.
Proof. pose proof (psize_pos o). rewrite psize_S, Z.mul_comm, Z.div_div by lia. done. Qed.

(** Pages that share a block share the larger blocks. *)
Lemma same_block_up x y o o' : (o <= o')%nat -> x / psize o = y / psize o -> x / psize o' = y / psize o'.
Proof. intros Hle Heq. induction Hle as [|o' _ IH]; [done|]. by rewrite !div_psize_S, IH. Qed.

Definition first (o : nat) (b : Z) : Z := b * psize o.

Lemma first_block o b : first o b / psize o = b.
Proof. unfold first. apply Z.div_mul. pose proof (psize_pos o). lia. Qed.

Lemma block_iff o b x : x / psize o = b <-> first o b <= x < first o b + psize o.
Proof.
  pose proof (psize_pos o). unfold first. split.
  - intros <-. pose proof (Z.div_mod x (psize o) ltac:(lia)). pose proof (Z.mod_pos_bound x (psize o) ltac:(lia)). lia.
  - intros Hx. symmetry. apply (Z.div_unique _ _ _ (x - b * psize o)); lia.
Qed.

Definition bud (b : Z) : Z := if decide (b `mod` 2 = 0) then b + 1 else b - 1.

Lemma bud_half b : bud b / 2 = b / 2.
Proof.
  unfold bud. pose proof (Z.div_mod b 2 ltac:(lia)). pose proof (Z.mod_pos_bound b 2 ltac:(lia)).
  case_decide; symmetry; [apply (Z.div_unique _ _ _ 1); lia|apply (Z.div_unique _ _ _ 0); lia].
Qed.
Lemma bud_ne b : bud b <> b.
Proof. unfold bud. case_decide; lia. Qed.
Lemma half_cases b c : c / 2 = b / 2 -> c = b \/ c = bud b.
Proof.
  intros H. unfold bud. pose proof (Z.div_mod b 2 ltac:(lia)). pose proof (Z.mod_pos_bound b 2 ltac:(lia)).
  pose proof (Z.div_mod c 2 ltac:(lia)). pose proof (Z.mod_pos_bound c 2 ltac:(lia)). case_decide; lia.
Qed.
Lemma bud_bud b : bud (bud b) = b.
Proof. destruct (half_cases (bud b) b) as [?|?]; [by rewrite bud_half|by destruct (bud_ne b)|done]. Qed.

(** * Canonical blocks *)

Definition top : nat := 10.

Section Canon.
Implicit Types F A : gset Z.

Definition full F (o : nat) (b : Z) : Prop := forall x, x / psize o = b -> x ∈ F.

Global Instance full_dec F o b : Decision (full F o b).
Proof.
  refine (cast_if (decide (Forall (fun x => x ∈ F) (seqZ (first o b) (psize o))))).
  - abstract (intros x Hx; rewrite Forall_forall in f; apply f, elem_of_seqZ; apply block_iff in Hx; lia).
  - abstract (intros Hf; apply n, Forall_forall; intros x Hx%elem_of_seqZ; apply Hf, block_iff; lia).
Defined.

Definition canon F (o : nat) (b : Z) : Prop :=
  (o <= top)%nat /\ full F o b /\ (o <> top -> ~ full F (S o) (b / 2)).

Lemma full_sub F o o' x : (o <= o')%nat -> full F o' (x / psize o') -> full F o (x / psize o).
Proof. intros Hle Hf y Hy. apply Hf. by apply (same_block_up _ _ o o'). Qed.

Lemma full_mono F F' o b : F ⊆ F' -> full F o b -> full F' o b.
Proof. intros Hs Hf x Hx. by apply Hs, Hf. Qed.

Lemma full_halves F o b : full F o b -> full F o (bud b) -> full F (S o) (b / 2).
Proof.
  intros H1 H2 x Hx. rewrite div_psize_S in Hx. destruct (half_cases b (x / psize o) Hx); [by apply H1|by apply H2].
Qed.

Lemma full_half F o b : full F (S o) (b / 2) -> full F o b.
Proof. intros Hf x Hx. apply Hf. by rewrite div_psize_S, Hx. Qed.

(** Canonical blocks are disjoint. *)
Lemma canon_le F o o' x :
  canon F o (x / psize o) -> canon F o' (x / psize o') -> (o' <= o)%nat.
Proof.
  intros (_ & _ & Hn) (Ht & Hf & _). destruct (decide (o' <= o)%nat) as [?|Hlt]; [done|]. exfalso.
  apply Hn; [unfold top in *; lia|]. rewrite <- div_psize_S. apply (full_sub _ _ o'); [lia|done].
Qed.

Lemma canon_disjoint F o b o' b' x :
  canon F o b -> canon F o' b' -> x / psize o = b -> x / psize o' = b' -> o = o' /\ b = b'.
Proof.
  intros H1 H2 <- <-. pose proof (canon_le _ _ _ _ H1 H2). pose proof (canon_le _ _ _ _ H2 H1).
  assert (o = o') as -> by lia. done.
Qed.

(** Every full block lies in a canonical one. *)
Lemma canon_above F o x :
  (o <= top)%nat -> full F o (x / psize o) -> exists o', (o <= o')%nat /\ canon F o' (x / psize o').
Proof.
  intros Ho. remember (top - o)%nat as n eqn:Hn. revert o Ho Hn. induction n as [|n IH]; intros o Ho Hn Hf.
  - exists o. split; [lia|]. split; [done|]. split; [done|]. lia.
  - destruct (decide (full F (S o) (x / psize (S o)))) as [Hs|Hs].
    + destruct (IH (S o)) as (o' & ? & ?); [lia|lia|done|]. exists o'. split; [lia|done].
    + exists o. split; [lia|]. split; [done|]. split; [done|]. intros _. by rewrite <- div_psize_S.
Qed.

(** ** Freeing *)

(** The block [A], with the page [x0], joins the free pages; the block [(o, b)] contains it
    and is full afterwards. *)
Section Free.
Context (F A : gset Z) (x0 : Z) (o : nat) (b : Z).
Context (Hx0 : x0 ∈ A) (Hdisj : A ## F) (Hin : forall x, x ∈ A -> x / psize o = b).
Context (Hfull : full (F ∪ A) o b) (Ho : (o <= top)%nat).

Lemma x0_not : x0 ∉ F.
Proof. set_solver. Qed.

Lemma full_out o' b' : (forall x, x / psize o' = b' -> x / psize o <> b) -> full (F ∪ A) o' b' -> full F o' b'.
Proof.
  intros Hout Hf x Hx. apply Hf in Hx as Hu. apply elem_of_union in Hu as [?|HA]; [done|].
  exfalso. by apply (Hout x Hx), Hin.
Qed.

(** The merge stops exactly when the buddy is not a canonical block of its own. *)
Lemma merge_stop : (o < top)%nat -> ~ canon F o (bud b) -> canon (F ∪ A) o b.
Proof.
  intros Hlt Hn. split; [done|]. split; [done|]. intros _ Hp. apply Hn. split; [done|]. split.
  - apply full_out.
    + intros x Hx Hb. apply (bud_ne b). congruence.
    + apply full_half. by rewrite bud_half.
  - intros _ Hf. apply x0_not, Hf. by rewrite div_psize_S, bud_half, (Hin x0).
Qed.

Lemma merge_up : canon F o (bud b) -> full (F ∪ A) (S o) (b / 2).
Proof. intros (_ & Hf & _). apply full_halves; [done|]. eapply full_mono; [|exact Hf]. set_solver. Qed.

(** Whether block [(o', b')] lies in block [(o, b)]. *)
Definition inside (o' : nat) (b' : Z) : Prop := (o' <= o)%nat /\ first o' b' / psize o = b.

Lemma inside_sub o' b' x : inside o' b' -> x / psize o' = b' -> x / psize o = b.
Proof. intros [Hle <-] Hx. apply (same_block_up _ _ o'); [done|]. by rewrite first_block. Qed.

Lemma canon_outside o' b' x :
  canon F o' b' -> ~ inside o' b' -> x / psize o' = b' -> x / psize o <> b.
Proof.
  intros (_ & Hf & _) Hni Hx Hb. destruct (decide (o' <= o)%nat) as [Hle|Hgt].
  - apply Hni. split; [done|]. rewrite <- Hb. apply (same_block_up _ _ o'); [done|]. by rewrite first_block.
  - apply x0_not, Hf. rewrite <- Hx. apply (same_block_up _ _ o); [lia|]. rewrite Hb. by apply Hin.
Qed.

(** The canonical blocks after the block has been added. *)
Lemma canon_free o' b' :
  canon (F ∪ A) o b ->
  canon (F ∪ A) o' b' <-> (o', b') = (o, b) \/ (canon F o' b' /\ ~ inside o' b').
Proof.
  intros Hc. split.
  - intros Hc'. destruct (decide ((o', b') = (o, b))) as [?|Hne]; [by left|]. right.
    assert (Hout : forall x, x / psize o' = b' -> x / psize o <> b).
    { intros x Hx Hb. apply Hne. destruct (canon_disjoint _ _ _ _ _ x Hc' Hc Hx Hb) as [-> ->]. done. }
    split.
    + destruct Hc' as (Ht & Hf & Hp). split; [done|]. split; [by apply full_out|].
      intros Hnt Hf'. apply (Hp Hnt). eapply full_mono; [|exact Hf']. set_solver.
    + intros Hi. apply (Hout (first o' b')); [apply first_block|apply Hi].
  - intros [[= -> ->]|[Hc' Hni]]; [done|]. destruct Hc as (_ & _ & Hnp). pose proof Hc' as (Ht & Hf & Hp).
    split; [done|]. split; [eapply full_mono; [|exact Hf]; set_solver|]. intros Hnt Hf'. apply (Hp Hnt).
    apply full_out; [|done]. intros x Hx Hb. destruct (decide (S o' <= o)%nat) as [Hle|Hgt].
    + apply Hni. split; [lia|]. rewrite <- Hb. apply (same_block_up _ _ (S o')); [done|].
      by rewrite div_psize_S, first_block, Hx.
    + apply Hnp; [unfold top in *; lia|]. rewrite <- Hb, <- div_psize_S.
      apply (full_sub _ _ (S o')); [lia|]. by rewrite Hx.
Qed.
End Free.

(** ** Allocating *)

Section Alloc.
Context (F : gset Z) (h : nat) (B : Z) (low : nat) (A : gset Z).
Context (Hc : canon F h B) (Hlow : (low <= h)%nat).
Context (HA : forall x, x ∈ A <-> x / psize low = first h B / psize low).

Lemma alloc_full : full F low (first h B / psize low).
Proof. apply (full_sub _ _ h); [done|]. rewrite first_block. apply Hc. Qed.

Lemma alloc_sub : A ⊆ F.
Proof. intros x Hx%HA. by apply alloc_full. Qed.

Lemma first_in_A : first h B ∈ A.
Proof. by apply HA. Qed.

(** The upper half of order [j] of the block, for the orders from [low] to [h - 1]. *)
Definition piece (j : nat) : Z := first h B / psize j + 1.

Lemma first_even j : (j < h)%nat -> (first h B / psize j) `mod` 2 = 0.
Proof.
  intros Hj. unfold first. replace (psize h) with (2 * psize (h - S j) * psize j).
  - rewrite Z.mul_assoc, Z.div_mul by (pose proof (psize_pos j); lia).
    replace (B * (2 * psize (h - S j))) with (B * psize (h - S j) * 2) by ring. apply Z.mod_mul. lia.
  - unfold psize. rewrite <- (Z.pow_1_r 2) at 1. rewrite <- !Z.pow_add_r by lia. f_equal. lia.
Qed.

Lemma piece_bud j : (j < h)%nat -> piece j = bud (first h B / psize j).
Proof. intros Hj. unfold bud, piece. by rewrite decide_True by (by apply first_even). Qed.

Lemma piece_half j : (j < h)%nat -> piece j / 2 = first h B / psize (S j).
Proof. intros Hj. by rewrite piece_bud, bud_half, div_psize_S. Qed.

Lemma piece_in j x : (j < h)%nat -> x / psize j = piece j -> x / psize h = B.
Proof.
  intros Hj Hx. rewrite <- (first_block h B). apply (same_block_up _ _ (S j)); [lia|].
  by rewrite div_psize_S, Hx, piece_half.
Qed.

Lemma piece_not_A j x : (low <= j < h)%nat -> x / psize j = piece j -> x ∉ A.
Proof.
  intros Hj Hx HxA%HA. assert (Hs : x / psize j = first h B / psize j) by (apply (same_block_up _ _ low); [lia|done]).
  rewrite Hx, piece_bud in Hs by lia. by apply (bud_ne (first h B / psize j)).
Qed.

(** A page of the block outside the part that is taken is in one of the pieces. *)
Lemma piece_cover x : x / psize h = B -> x ∉ A -> exists j, (low <= j < h)%nat /\ x / psize j = piece j.
Proof.
  intros Hx HxA.
  assert (Hgen : forall n, (n <= h - low)%nat -> x / psize (h - n) = first h B / psize (h - n) \/
    exists j, (h - n <= j < h)%nat /\ x / psize j = piece j).
  { induction n as [|n IH]; intros Hn; [left; by rewrite Nat.sub_0_r, first_block|].
    destruct (IH ltac:(lia)) as [Heq|(j & ? & ?)]; [|right; exists j; split; [lia|done]].
    replace (h - n)%nat with (S (h - S n)) in Heq by lia. rewrite !div_psize_S in Heq.
    apply half_cases in Heq as [Heq|Heq]; [by left|]. right. exists (h - S n)%nat. split; [lia|].
    by rewrite Heq, piece_bud by lia. }
  destruct (Hgen (h - low)%nat) as [Heq|(j & ? & ?)]; [done| |].
  - exfalso. apply HxA, HA. replace (h - (h - low))%nat with low in Heq by lia. done.
  - exists j. split; [lia|done].
Qed.

Lemma canon_piece j : (low <= j < h)%nat -> canon (F ∖ A) j (piece j).
Proof.
  intros Hj. destruct Hc as (Ht & Hf & _). split; [lia|]. split.
  - intros x Hx. apply elem_of_difference. split; [apply Hf; by apply (piece_in j); [lia|]|by apply (piece_not_A j)].
  - intros _ Hf'. rewrite piece_half in Hf' by lia. specialize (Hf' (first h B) eq_refl).
    apply elem_of_difference in Hf' as [_ Hn]. apply Hn, first_in_A.
Qed.

Lemma canon_alloc o b :
  canon (F ∖ A) o b <-> (exists j, (low <= j < h)%nat /\ o = j /\ b = piece j) \/ (canon F o b /\ (o, b) <> (h, B)).
Proof.
  split.
  - intros Hc'. set (x := first o b). assert (Hx : x / psize o = b) by apply first_block.
    destruct (decide (x / psize h = B)) as [Hin|Hout].
    + left. assert (HxA : x ∈ F ∖ A) by (by apply Hc'). apply elem_of_difference in HxA as [_ HxA].
      destruct (piece_cover x Hin HxA) as (j & Hj & Hxj). exists j. split; [done|].
      by apply (canon_disjoint (F ∖ A) o b j (piece j) x Hc' (canon_piece j Hj)).
    + right. split; [|intros [= -> ->]; by apply Hout]. destruct Hc' as (Ht & Hf & Hp).
      assert (HfF : full F o b) by (eapply full_mono; [|exact Hf]; set_solver).
      split; [done|]. split; [done|]. intros Hnt Hf'. apply (Hp Hnt). intros y Hy. apply elem_of_difference.
      split; [by apply Hf'|]. intros HyA%HA.
      assert (Hyh : y / psize h = B).
      { rewrite <- (first_block h B). apply (same_block_up _ _ low); [done|done]. }
      destruct (decide (S o <= h)%nat) as [Hle|Hgt].
      * apply Hout. rewrite <- Hyh. apply (same_block_up _ _ (S o)); [done|]. by rewrite Hy, div_psize_S, Hx.
      * destruct Hc as (_ & _ & Hnp). apply Hnp; [unfold top in *; lia|].
        rewrite <- Hyh, <- div_psize_S. apply (full_sub _ _ (S o)); [lia|]. by rewrite Hy.
  - intros [(j & Hj & -> & ->)|[Hc' Hne]]; [by apply canon_piece|]. pose proof Hc' as (Ht & Hf & Hp).
    split; [done|]. split.
    + intros x Hx. apply elem_of_difference. split; [by apply Hf|]. intros HxA%HA. apply Hne.
      assert (Hxh : x / psize h = B).
      { rewrite <- (first_block h B). apply (same_block_up _ _ low); [done|done]. }
      destruct (canon_disjoint F o b h B x Hc' Hc Hx Hxh) as [-> ->]. done.
    + intros Hnt Hf'. apply (Hp Hnt). eapply full_mono; [|exact Hf']. set_solver.
Qed.
End Alloc.
End Canon.
