(* ===== verification/BuddyOps.v ===== *)
(** The state of the buddy system and the steps that take blocks in and out of its lists. *)
From Stdlib Require Import ZArith Lia.
From stdpp Require Import base numbers list list_numbers option gmap sets.
From S2P Require Import Prelude Buddy BuddyBlocks.

Local Open Scope Z_scope.
Local Open Scope kernel_scope.

Import Buddy.

(** * The monad *)

Section ZBind.
Context {A B : Type}.
Lemma zbind_gets (f : zone -> A) (k : A -> ZM B) z : (gets f ≫= k) z = k (f z) z.
Proof. done. Qed.
Lemma zbind_modify (f : zone -> zone) (k : unit -> ZM B) z : (modify f ≫= k) z = k tt (f z).
Proof. done. Qed.
Lemma zbind_mret (x : A) (k : A -> ZM B) z : (mret x ≫= k) z = k x z.
Proof. done. Qed.
Lemma zbind_lift (x : A) (k : A -> ZM B) z : (lift (Some x) ≫= k) z = k x z.
Proof. done. Qed.
Lemma zbind_assoc {C} (m : ZM A) (k : A -> ZM B) (k' : B -> ZM C) z :
  ((m ≫= k) ≫= k') z = (m ≫= fun x => k x ≫= k') z.
Proof. unfold mbind, SM_bind. destruct (m z) as [[x z']|]; done. Qed.
End ZBind.

Create Rewrite HintDb zm.
#[export] Hint Rewrite @zbind_gets @zbind_modify @zbind_mret @zbind_lift @zbind_assoc : zm.

Ltac zm_step H := rewrite (SM_bind_eq _ _ _ _ _ H).
(** The first operation, by a tactic that computes it. *)
Ltac zm_by t :=
  match goal with
  | |- mbind ?k ?m ?z = _ =>
    let H := fresh in
    eassert (H : m z = Some (_, _)) by t; zm_step H; clear H
  end.
Ltac zm := autorewrite with zm.

(** * Flags *)

Lemma mask_of_bits l b : Forall (fun b => 0 <= b) l -> 0 <= b -> Z.testbit (mask_of l) b = bool_decide (b ∈ l).
Proof.
  intros Hl Hb. induction Hl as [|a l Ha _ IH]; cbn [mask_of foldr].
  { rewrite Z.testbit_0_l. symmetry. apply bool_decide_eq_false, not_elem_of_nil. }
  fold (mask_of l). rewrite Z.lor_spec, IH, Z.shiftl_spec, bool_decide_decide by done.
  destruct (decide (b ∈ l)) as [Hin|Hin].
  - rewrite bool_decide_eq_true_2 by (by right). by rewrite orb_true_r.
  - rewrite orb_false_r. destruct (decide (b = a)) as [->|Hne].
    + rewrite Z.sub_diag, bool_decide_eq_true_2 by (by left). done.
    + rewrite bool_decide_eq_false_2 by (rewrite elem_of_cons; tauto).
      destruct (decide (b < a)); [by rewrite Z.testbit_neg_r by lia|]. rewrite Z.bits_above_log2; [done|lia|].
      change (Z.log2 1) with 0. lia.
Qed.

(** No flag of the mask is set. *)
Lemma land_mask_of f l :
  Forall (fun b => 0 <= b) l -> Z.land f (mask_of l) = 0 <-> Forall (fun b => Z.testbit f b = false) l.
Proof.
  intros Hl. rewrite Forall_forall. split.
  - intros H0 b Hb. rewrite Forall_forall in Hl. pose proof (Hl b Hb) as Hb0.
    assert (Ht : Z.testbit (Z.land f (mask_of l)) b = false) by (by rewrite H0, Z.testbit_0_l).
    rewrite Z.land_spec, mask_of_bits, bool_decide_eq_true_2, andb_true_r in Ht;
      [done|done|by apply Forall_forall|done].
  - intros Hall. apply Z.bits_inj'. intros b Hb. rewrite Z.land_spec, mask_of_bits, Z.testbit_0_l by done.
    case_bool_decide as Hin; [by rewrite (Hall b Hin)|apply andb_false_r].
Qed.

Lemma flag_set b b' pg : 0 <= b -> flag b' (set_flag b pg) = bool_decide (b' = b) || flag b' pg.
Proof.
  intros Hb. unfold flag, set_flag. cbn [flags set_flags].
  destruct (decide (b' = b)) as [->|Hne].
  - rewrite Z.setbit_eq, bool_decide_eq_true_2 by done. done.
  - rewrite Z.setbit_neq, bool_decide_eq_false_2 by lia. done.
Qed.
Lemma flag_clear b b' pg : flag b' (clear_flag b pg) = flag b' pg && bool_decide (b' <> b).
Proof.
  unfold flag, clear_flag. cbn [flags set_flags]. destruct (decide (b' = b)) as [->|Hne].
  - rewrite Z.clearbit_eq, bool_decide_eq_false_2 by tauto. by rewrite andb_false_r.
  - rewrite Z.clearbit_neq, bool_decide_eq_true_2 by lia. by rewrite andb_true_r.
Qed.

(** * Pages *)

(** Flags that a page of the allocator never has. *)
Definition busy_bits : list Z :=
  [PG_lru; PG_locked; PG_active; PG_dirty; PG_reclaim; PG_slab; PG_swapcache; PG_writeback; PG_reserved; PG_compound].

(** A page without users. *)
Definition idle (pg : page) : Prop :=
  _count pg = -1 /\ _mapcount pg = -1 /\ mapping pg = 0 /\ Forall (fun b => flag b pg = false) busy_bits.

(** A page that somebody else owns: it cannot be taken for the head of a free block. *)
Definition foreign (pg : page) : Prop :=
  flag PG_private pg = false \/ (flag PG_compound pg = false /\ _count pg <> -1).

(** A set of blocks, by order and number. *)
Abbreviation blocks := (nat -> Z -> Prop).

Definition head_at (B : blocks) (x : pfn) (o : nat) : Prop := exists b, x = first o b /\ B o b.

Definition owned (B : blocks) (x : pfn) (pg : page) : Prop :=
  idle pg /\ (forall o, head_at B x o -> flag PG_private pg = true /\ private pg = Z.of_nat o) /\
  ((forall o, ~ head_at B x o) -> flag PG_private pg = false).

Definition in_zone (z : zone) (x : pfn) : Prop := zone_start_pfn z <= x < zone_start_pfn z + spanned_pages z.

Global Instance in_zone_dec z x : Decision (in_zone z x).
Proof. apply and_dec; apply _. Defined.

Definition area_ok (B : blocks) (o : nat) (a : free_area) : Prop :=
  NoDup (free_list a) /\ nr_free a = zlen (free_list a) /\ forall p, p ∈ free_list a <-> head_at B p o.

(** The pages [G] belong to the allocator, and the blocks [B] among them are on its lists. *)
Record bstate (z : zone) (G : gset pfn) (B : blocks) : Prop := {
  bs_bounds : 0 <= zone_start_pfn z /\ 0 <= spanned_pages z /\ zone_start_pfn z + spanned_pages z <= 2^20;
  bs_len : length (free_areas z) = MAX_ORDER;
  bs_areas : forall o a, free_areas z !! o = Some a -> area_ok B o a;
  bs_in : forall x, x ∈ G -> in_zone z x;
  bs_pages : forall x, in_zone z x -> exists pg, mem_map z !! x = Some pg /\ zone_of pg = id z /\
    (x ∈ G -> owned B x pg) /\ (x ∉ G -> foreign pg);
  bs_blocks : forall o b, B o b -> (o <= top)%nat /\ full G o b;
  bs_apart : forall o b o' b' x, B o b -> B o' b' -> x / psize o = b -> x / psize o' = b' -> o = o' /\ b = b'
}.

Section State.
Context {z : zone} {G : gset pfn} {B : blocks} (Hz : bstate z G B).

Lemma head_unique x o o' : head_at B x o -> head_at B x o' -> o = o'.
Proof.
  intros (b & Hx & Hb) (b' & Hx' & Hb').
  apply (bs_apart _ _ _ Hz o b o' b' x Hb Hb'); [rewrite Hx|rewrite Hx']; apply first_block.
Qed.

Lemma head_in x o : head_at B x o -> x ∈ G.
Proof. intros (b & -> & Hb). apply (bs_blocks _ _ _ Hz _ _ Hb). apply first_block. Qed.

Lemma get_page_eq x pg : mem_map z !! x = Some pg -> get_page x z = Some (pg, z).
Proof. intros Hx. unfold get_page. by rewrite Hx. Qed.

Lemma bad_range_eq x : bad_range x z = Some (bool_decide (~ in_zone z x), z).
Proof.
  unfold bad_range, page_outside_zone_boundaries. zm. unfold in_zone.
  destruct (decide (zone_start_pfn z + spanned_pages z <= x)).
  { rewrite bool_decide_eq_true_2 by lia. done. }
  destruct (decide (x < zone_start_pfn z)).
  { rewrite bool_decide_eq_true_2 by lia. done. }
  destruct (bs_pages _ _ _ Hz x) as (pg & Hpg & Hid & _); [unfold in_zone; lia|].
  unfold page_is_consistent. zm. zm_step (get_page_eq _ _ Hpg). zm.
  rewrite Hid, bool_decide_eq_true_2, bool_decide_eq_false_2 by (done || lia). done.
Qed.

Lemma page_count_plain x pg :
  mem_map z !! x = Some pg -> flag PG_compound pg = false -> page_count x z = Some (_count pg + 1, z).
Proof. intros Hx Hc. unfold page_count. zm_step (get_page_eq _ _ Hx). by rewrite Hc. Qed.

Lemma idle_flag pg b : idle pg -> b ∈ busy_bits -> flag b pg = false.
Proof. intros (_ & _ & _ & Hall) Hb. rewrite Forall_forall in Hall. by apply Hall. Qed.

Lemma idle_compound pg : idle pg -> flag PG_compound pg = false.
Proof. clear Hz. intros Hi. apply (idle_flag pg _ Hi). unfold busy_bits. set_solver. Qed.

(** The test finds exactly the free block of the order that starts at the page. *)
Lemma page_is_buddy_eq x o :
  in_zone z x -> exists b, page_is_buddy x o z = Some (b, z) /\ (b = true <-> head_at B x o).
Proof.
  intros Hx. destruct (bs_pages _ _ _ Hz x Hx) as (pg & Hpg & _ & Hown & Hfor).
  unfold page_is_buddy. zm_step (get_page_eq _ _ Hpg).
  destruct (decide (x ∈ G)) as [HG|HG].
  - destruct (Hown HG) as (Hidle & Hhead & Hnone). destruct (flag PG_private pg) eqn:Hp.
    + unfold page_order. case_decide as Ho.
      * zm_step (page_count_plain x pg Hpg (idle_compound _ Hidle)). exists true. destruct Hidle as (-> & _).
        split; [done|]. split; [|done]. intros _.
        destruct (free_areas z !! o) as [a|] eqn:Ha.
        -- destruct (decide (x ∈ free_list a)) as [Hin|Hnin]; [by apply (bs_areas _ _ _ Hz o a Ha)|].
           exfalso. assert (Hno : forall o', ~ head_at B x o').
           { intros o' Ho'. destruct (Hhead o' Ho') as [_ Hpr]. assert (o' = o) as -> by lia.
             apply Hnin. by apply (bs_areas _ _ _ Hz o a Ha). }
           specialize (Hnone Hno). congruence.
        -- exfalso. assert (Hno : forall o', ~ head_at B x o').
           { intros o' Ho'. destruct (Hhead o' Ho') as [_ Hpr]. assert (o' = o) as -> by lia.
             destruct Ho' as (b & _ & Hb). apply (bs_blocks _ _ _ Hz) in Hb as [Ht _].
             apply lookup_ge_None in Ha. rewrite (bs_len _ _ _ Hz) in Ha. unfold top, MAX_ORDER in *. lia. }
           specialize (Hnone Hno). congruence.
      * exists false. split; [done|]. split; [done|]. intros Hh. destruct (Hhead o Hh) as [_ ?]. congruence.
    + exists false. split; [done|]. split; [done|]. intros Hh. destruct (Hhead o Hh) as [? _]. congruence.
  - specialize (Hfor HG). assert (Hno : ~ head_at B x o) by (intros Hh; apply HG; by eapply head_in).
    destruct (flag PG_private pg) eqn:Hp; [|by exists false].
    destruct Hfor as [?|[Hc Hcnt]]; [congruence|]. case_decide; [|by exists false].
    zm_step (page_count_plain x pg Hpg Hc). exists false. rewrite bool_decide_eq_false_2 by lia. done.
Qed.
End State.

(** * What a step leaves alone *)

(** Only the pages [G], the free lists and the counters of the zone may change. *)
Record frame (G : gset pfn) (z z' : zone) : Prop := {
  fr_id : id z' = id z;
  fr_start : zone_start_pfn z' = zone_start_pfn z;
  fr_span : spanned_pages z' = spanned_pages z;
  fr_reserve : lowmem_reserve z' = lowmem_reserve z;
  fr_pcps : pcps z' = pcps z;
  fr_tainted : tainted z' = tainted z;
  fr_map : forall x, x ∉ G -> mem_map z' !! x = mem_map z !! x
}.

Global Instance frame_preorder G : PreOrder (frame G).
Proof.
  split; [done|]. intros z1 z2 z3 [] []. split; try congruence. intros x Hx.
  rewrite fr_map1, fr_map0 by done. done.
Qed.

Lemma frame_mono G G' z z' : G ⊆ G' -> frame G z z' -> frame G' z z'.
Proof. intros Hs []. split; try done. intros x Hx. apply fr_map0. set_solver. Qed.

(** The state with new free lists and pages. *)
Definition upd (l : list free_area) (m : gmap pfn page) (z : zone) : zone := set_mem_map m (set_free_areas l z).

Lemma upd_frame G l m z : (forall x, x ∉ G -> m !! x = mem_map z !! x) -> frame G z (upd l m z).
Proof. done. Qed.

Lemma frame_free_pages G n z : frame G z (set_free_pages n z).
Proof. done. Qed.

(** Blocks are compared extensionally. *)
Lemma bstate_ext z G B B' : bstate z G B -> (forall o b, B o b <-> B' o b) -> bstate z G B'.
Proof.
  intros [] HB. assert (Hh : forall x o, head_at B x o <-> head_at B' x o).
  { intros x o. unfold head_at. setoid_rewrite HB. done. }
  split; try done.
  - intros o a Ha. destruct (bs_areas0 o a Ha) as (? & ? & Hl). split; [done|]. split; [done|].
    intros p. by rewrite Hl.
  - intros x Hx. destruct (bs_pages0 x Hx) as (pg & ? & ? & Hown & ?). exists pg. split; [done|]. split; [done|].
    split; [|done]. intros HG. destruct (Hown HG) as (? & Hy & Hn). split; [done|]. split.
    + intros o Ho%Hh. by apply Hy.
    + intros Hno. apply Hn. intros o Ho%Hh. by apply (Hno o).
  - intros o b Hb%HB. by apply bs_blocks0.
  - intros o b o' b' x Hb%HB Hb'%HB. by apply bs_apart0.
Qed.

Lemma bstate_set_free_pages z G B n : bstate z G B -> bstate (set_free_pages n z) G B.
Proof. intros []. by split. Qed.

Lemma bstate_set_scanned z G B u s : bstate z G B -> bstate (set_scanned u s z) G B.
Proof. intros []. by split. Qed.

(** Pages that come from outside join the pages of the allocator. *)
Lemma bstate_extend z F A B :
  bstate z F B -> A ## F -> (forall x, x ∈ A -> in_zone z x) ->
  (forall x, x ∈ A -> exists pg, mem_map z !! x = Some pg /\ idle pg /\ flag PG_private pg = false) ->
  bstate z (F ∪ A) B.
Proof.
  intros Hz Hd HA Hidle. pose proof Hz as []. split; try done.
  - intros x [Hx|Hx]%elem_of_union; [by apply bs_in0|by apply HA].
  - intros x Hx. destruct (bs_pages0 x Hx) as (pg & Hpg & ? & Hown & Hfor). exists pg. split; [done|]. split; [done|].
    split.
    + intros Hxu. destruct (decide (x ∈ F)) as [HF|HF]; [by apply Hown|].
      assert (HxA : x ∈ A) by set_solver. destruct (Hidle x HxA) as (pg' & Hpg' & Hi & Hp).
      assert (pg' = pg) as -> by congruence. split; [done|]. split; [|done].
      intros o Ho. exfalso. apply HF. by apply (head_in Hz) in Ho.
    + intros Hxu. apply Hfor. set_solver.
  - intros o b Hb. destruct (bs_blocks0 o b Hb) as [? Hf]. split; [done|]. eapply full_mono; [|exact Hf]. set_solver.
Qed.

(** Pages that are part of no block leave the allocator. *)
Lemma bstate_shrink z F A B :
  bstate z F B -> (forall o b x, B o b -> x / psize o = b -> x ∉ A) ->
  bstate z (F ∖ A) B.
Proof.
  intros Hz HA. pose proof Hz as []. split; try done.
  - intros x [Hx _]%elem_of_difference. by apply bs_in0.
  - intros x Hx. destruct (bs_pages0 x Hx) as (pg & Hpg & ? & Hown & Hfor). exists pg. split; [done|]. split; [done|].
    split; [set_solver|]. intros Hxd. destruct (decide (x ∈ F)) as [HF|HF]; [|by apply Hfor].
    left. apply (Hown HF). intros o (b & -> & Hb). eapply HA; [done|apply first_block|]. set_solver.
  - intros o b Hb. destruct (bs_blocks0 o b Hb) as [? Hf]. split; [done|]. intros x Hx. apply elem_of_difference.
    split; [by apply Hf|by eapply HA].
Qed.

(** * Taking a block off its list and putting one on *)

Definition minus (B : blocks) (o : nat) (b : Z) : blocks := fun o' b' => B o' b' /\ (o', b') <> (o, b).
Definition plus (B : blocks) (o : nat) (b : Z) : blocks := fun o' b' => B o' b' \/ (o', b') = (o, b).

Lemma modify_page_eq z x pg f :
  mem_map z !! x = Some pg -> modify_page x f z = Some (tt, set_mem_map (<[x := f pg]> (mem_map z)) z).
Proof. intros Hx. unfold modify_page. zm_step (get_page_eq (z:=z) x pg Hx). unfold put_page. by rewrite Hx. Qed.

Lemma NoDup_range_length (l : list Z) n : NoDup l -> 0 <= n -> (forall x, x ∈ l -> 0 <= x < n) -> zlen l <= n.
Proof.
  intros Hnd Hn Hl. assert (Hs : l ⊆+ seqZ 0 n).
  { apply NoDup_submseteq; [done|]. intros x Hx. apply elem_of_seqZ. specialize (Hl x Hx). lia. }
  apply submseteq_length in Hs. rewrite length_seqZ in Hs. unfold zlen. lia.
Qed.

Lemma elem_of_without p x l : x ∈ without p l <-> x <> p /\ x ∈ l.
Proof. unfold without. rewrite list_elem_of_filter. done. Qed.

Lemma without_notin p l : p ∉ l -> without p l = l.
Proof.
  unfold without. induction l as [|x l IH]; [done|]. intros Hp. rewrite filter_cons_True by set_solver.
  f_equal. apply IH. set_solver.
Qed.

Lemma without_length p l : NoDup l -> p ∈ l -> zlen (without p l) = zlen l - 1.
Proof.
  intros Hnd Hp. apply list_elem_of_split in Hp as (l1 & l2 & ->). apply NoDup_app in Hnd as (_ & Hd & Hnd2).
  apply NoDup_cons in Hnd2 as [Hn2 _]. unfold without. rewrite filter_app, filter_cons_False by tauto.
  fold (without p l1) (without p l2). rewrite !without_notin; [|done|].
  - unfold zlen. rewrite !length_app. cbn [length]. lia.
  - intros H1. apply (Hd p H1). by left.
Qed.

Definition drop_lists (o : nat) (p : pfn) (a : free_area) (l : list free_area) : list free_area :=
  <[o := FreeArea (without p (free_list a)) (nr_free a +u -1)]>
    ((fun a => FreeArea (without p (free_list a)) (nr_free a)) <$> l).
Definition drop_page (pg : page) : page := set_private 0 (clear_flag PG_private pg).
Definition add_lists (o : nat) (p : pfn) (a : free_area) (l : list free_area) : list free_area :=
  <[o := FreeArea (p :: free_list a) (nr_free a +u 1)]> l.
Definition add_page (o : nat) (pg : page) : page := set_flag PG_private (set_private (Z.of_nat o) pg).

Section Lists.
Context {z : zone} {G : gset pfn} {B : blocks} (Hz : bstate z G B).

Lemma area_at o : (o <= top)%nat -> exists a, free_areas z !! o = Some a.
Proof. intros Ho. apply lookup_lt_is_Some. rewrite (bs_len _ _ _ Hz). unfold top, MAX_ORDER in *. lia. Qed.

Lemma area_bound o a : free_areas z !! o = Some a -> 0 <= nr_free a <= 2^20.
Proof.
  intros Ha. destruct (bs_areas _ _ _ Hz o a Ha) as (Hnd & -> & Hl). split; [unfold zlen; lia|].
  apply NoDup_range_length; [done|lia|]. intros x Hx%Hl%(head_in Hz)%(bs_in _ _ _ Hz).
  pose proof (bs_bounds _ _ _ Hz). unfold in_zone in Hx. lia.
Qed.

Lemma page_at x : x ∈ G -> exists pg, mem_map z !! x = Some pg /\ zone_of pg = id z /\ owned B x pg.
Proof.
  intros Hx. destruct (bs_pages _ _ _ Hz x) as (pg & ? & ? & Hown & _); [by apply (bs_in _ _ _ Hz)|].
  exists pg. auto.
Qed.

(** An insertion in the list of areas, by order. *)
Lemma head_minus o b x o' : head_at (minus B o b) x o' <-> head_at B x o' /\ (o', x) <> (o, first o b).
Proof.
  unfold head_at, minus. split.
  - intros (b' & -> & Hb & Hne). split; [eauto|]. intros [= -> He]. apply Hne.
    assert (b' = b) as -> by (rewrite <- (first_block o b'), He; apply first_block). done.
  - intros [(b' & -> & Hb) Hne]. exists b'. split; [done|]. split; [done|]. intros [= -> ->]. by apply Hne.
Qed.

Lemma head_plus o b x o' : head_at (plus B o b) x o' <-> head_at B x o' \/ (o', x) = (o, first o b).
Proof.
  unfold head_at, plus. split.
  - intros (b' & -> & [Hb|[= -> ->]]); eauto.
  - intros [(b' & -> & Hb)|[= -> ->]]; eauto.
Qed.

Lemma drop_private pg b' : flag b' (drop_page pg) = flag b' pg && bool_decide (b' <> PG_private).
Proof. unfold drop_page. change (flag b' (set_private ?v ?q)) with (flag b' q). apply flag_clear. Qed.
Lemma add_private o pg b' : flag b' (add_page o pg) = bool_decide (b' = PG_private) || flag b' pg.
Proof. unfold add_page. by rewrite flag_set by done. Qed.

Lemma idle_drop pg : idle pg -> idle (drop_page pg).
Proof.
  intros (? & ? & ? & Hall). do 3 (split; [done|]). eapply Forall_impl; [exact Hall|]. intros b Hb.
  by rewrite drop_private, Hb.
Qed.
Lemma idle_add o pg : idle pg -> idle (add_page o pg).
Proof.
  intros (? & ? & ? & Hall). do 3 (split; [done|]). rewrite Forall_forall in Hall |- *. intros b Hb.
  rewrite add_private, (Hall b Hb), orb_false_r. apply bool_decide_eq_false. intros ->.
  unfold busy_bits in Hb. repeat (apply elem_of_cons in Hb as [Hb|Hb]; [done|]). by apply not_elem_of_nil in Hb.
Qed.

(** Off the list. *)
Lemma drop_bstate o b a pg :
  B o b -> free_areas z !! o = Some a -> mem_map z !! first o b = Some pg ->
  bstate (upd (drop_lists o (first o b) a (free_areas z)) (<[first o b := drop_page pg]> (mem_map z)) z) G (minus B o b).
Proof.
  intros Hb Ha Hpg. pose proof Hz as []. set (p := first o b) in *.
  assert (HpB : head_at B p o) by (exists b; done).
  split; try done.
  - unfold upd, drop_lists. cbn. by rewrite length_insert, length_fmap.
  - intros o' a'. unfold upd, drop_lists. cbn [free_areas set_mem_map set_free_areas].
    intros Ha'. destruct (decide (o' = o)) as [->|Hne].
    + rewrite list_lookup_insert_eq in Ha' by (rewrite length_fmap; by eapply lookup_lt_Some). injection Ha' as <-.
      destruct (bs_areas0 o a Ha) as (Hnd & Hnr & Hl). pose proof (area_bound o a Ha) as Hbd.
      assert (Hin : p ∈ free_list a) by (by apply Hl). split; [by apply NoDup_filter|]. cbn [free_list nr_free].
      assert (Hlen : 0 < zlen (free_list a)).
      { destruct (free_list a); [by apply not_elem_of_nil in Hin|]. unfold zlen. cbn [length]. lia. }
      split.
      * rewrite without_length by done. unfold u32. rewrite Z.mod_small; lia.
      * intros x. rewrite elem_of_without, head_minus, Hl. fold p. split; [intros [? ?]|intros [? Hx]]; split; try done.
        -- intros [= ->]. done.
        -- intros ->. by apply Hx.
    + rewrite list_lookup_insert_ne, list_lookup_fmap in Ha' by done.
      destruct (free_areas z !! o') as [a0|] eqn:Ha0; [|done]. injection Ha' as <-.
      destruct (bs_areas0 o' a0 Ha0) as (Hnd & Hnr & Hl).
      assert (Hnin : p ∉ free_list a0).
      { intros Hin%Hl. apply Hne. by apply (head_unique Hz p). }
      cbn [free_list nr_free]. rewrite without_notin by done. split; [done|]. split; [done|].
      intros x. cbn [free_list]. rewrite head_minus, Hl. split; [|tauto].
      intros Hx. split; [done|]. intros [= ->]. done.
  - intros x Hx. destruct (bs_pages0 x Hx) as (pg0 & Hpg0 & Hid & Hown & Hfor). cbn [mem_map upd set_mem_map].
    destruct (decide (x = p)) as [->|Hne].
    + exists (drop_page pg). assert (pg0 = pg) as -> by congruence. rewrite lookup_insert_eq. split; [done|].
      split; [done|]. assert (HpG : p ∈ G) by (by eapply (head_in Hz)).
      split; [|done]. intros _. destruct (Hown HpG) as (Hi & _). split; [by apply idle_drop|].
      split; [|intros _; rewrite drop_private; by rewrite andb_false_r].
      intros o' [Ho' Hn]%head_minus. destruct Hn. f_equal. by apply (head_unique Hz p).
    + exists pg0. rewrite lookup_insert_ne by done. split; [done|]. split; [done|]. split; [|done].
      intros HG. destruct (Hown HG) as (Hi & Hy & Hn). split; [done|]. split.
      * intros o' [Ho' _]%head_minus. by apply Hy.
      * intros Hno. apply Hn. intros o' Ho'. apply (Hno o'). apply head_minus. split; [done|]. intros [= _ ?]. done.
  - intros o' b' [Hb' _]. by apply bs_blocks0.
  - intros ????? [] []. by apply bs_apart0.
Qed.

(** On the list. *)
Lemma add_bstate o b a pg :
  (o <= top)%nat -> full G o b -> (forall o' b' x, B o' b' -> x / psize o = b -> x / psize o' <> b') ->
  free_areas z !! o = Some a -> mem_map z !! first o b = Some pg ->
  bstate (upd (add_lists o (first o b) a (free_areas z)) (<[first o b := add_page o pg]> (mem_map z)) z) G (plus B o b).
Proof.
  intros Ho Hf Hout Ha Hpg. pose proof Hz as []. set (p := first o b) in *.
  assert (Hno : forall o', ~ head_at B p o').
  { intros o' (b' & Hp & Hb'). apply (Hout o' b' p Hb'); [apply first_block|rewrite Hp; apply first_block]. }
  split; try done.
  - unfold upd, add_lists. cbn. by rewrite length_insert.
  - intros o' a'. unfold upd, add_lists. cbn [free_areas set_mem_map set_free_areas].
    intros Ha'. destruct (decide (o' = o)) as [->|Hne].
    + rewrite list_lookup_insert_eq in Ha' by (by eapply lookup_lt_Some). injection Ha' as <-.
      destruct (bs_areas0 o a Ha) as (Hnd & Hnr & Hl). pose proof (area_bound o a Ha) as Hbd. cbn [free_list nr_free].
      split; [|split].
      * apply NoDup_cons. split; [|done]. intros Hin%Hl. by apply (Hno o).
      * unfold u32. cbn [nr_free]. rewrite Z.mod_small by lia. unfold zlen in *. cbn [free_list length]. lia.
      * intros x. cbn [free_list]. rewrite elem_of_cons, head_plus, Hl. fold p. split; intros [?|?]; try (by auto).
        -- right. congruence.
        -- left. congruence.
    + rewrite list_lookup_insert_ne in Ha' by done. destruct (bs_areas0 o' a' Ha') as (Hnd & Hnr & Hl).
      split; [done|]. split; [done|]. intros x. rewrite head_plus, Hl. split; [by left|]. intros [?|[= ? _]]; done.
  - intros x Hx. destruct (bs_pages0 x Hx) as (pg0 & Hpg0 & Hid & Hown & Hfor). cbn [mem_map upd set_mem_map].
    destruct (decide (x = p)) as [->|Hne].
    + exists (add_page o pg). assert (pg0 = pg) as -> by congruence. rewrite lookup_insert_eq. split; [done|].
      split; [done|]. assert (HpG : p ∈ G) by (apply Hf, first_block).
      split; [|done]. intros _. destruct (Hown HpG) as (Hi & _). split; [by apply idle_add|].
      split; [|intros Hn; destruct (Hn o); apply head_plus; by right].
      intros o' [Ho'|[= -> ]]%head_plus; [by destruct (Hno o')|]. by rewrite add_private.
    + exists pg0. rewrite lookup_insert_ne by done. split; [done|]. split; [done|]. split; [|done].
      intros HG. destruct (Hown HG) as (Hi & Hy & Hn). split; [done|]. split.
      * intros o' [Ho'|[= _ ?]]%head_plus; [by apply Hy|done].
      * intros Hn'. apply Hn. intros o' Ho'. apply (Hn' o'). apply head_plus. by left.
  - intros o' b' [Hb'|[= -> ->]]; [by apply bs_blocks0|done].
  - intros o1 b1 o2 b2 x [H1|[= -> ->]] [H2|[= -> ->]] Hx1 Hx2; [by eapply bs_apart0| | |done].
    + exfalso. by apply (Hout o1 b1 x H1).
    + exfalso. by apply (Hout o2 b2 x H2).
Qed.
End Lists.
