(* ===== verification/BuddyFree.v ===== *)
(** Freeing a block: merging with its buddies keeps the free lists canonical. *)
From Stdlib Require Import ZArith Lia.
From stdpp Require Import base numbers list list_numbers option gmap sets.
From S2P Require Import Prelude Buddy BuddyBlocks BuddyOps.

Local Open Scope Z_scope.
Local Open Scope kernel_scope.

Import Buddy.

(** * The code of the two list steps *)

Section Seq.
Context {C : Type} (z : zone) (o : nat) (p : pfn) (a : free_area) (pg : page).
Context (Ha : free_areas z !! o = Some a) (Hpg : mem_map z !! p = Some pg).

Lemma add_nr_free_eq z' a' d :
  free_areas z' !! o = Some a' ->
  add_nr_free o d z' = Some (tt, set_free_areas (<[o := FreeArea (free_list a') (nr_free a' +u d)]> (free_areas z')) z').
Proof.
  intros Ha'. unfold add_nr_free, get_area. zm. rewrite Ha'. zm. unfold put_area. zm. by rewrite Ha'.
Qed.

Lemma list_add_eq z' a' :
  free_areas z' !! o = Some a' ->
  list_add p o z' = Some (tt, set_free_areas (<[o := FreeArea (p :: free_list a') (nr_free a')]> (free_areas z')) z').
Proof.
  intros Ha'. unfold list_add, get_area. zm. rewrite Ha'. zm. unfold put_area. zm. by rewrite Ha'.
Qed.

Lemma drop_area_at :
  free_areas (set_free_areas ((fun a => FreeArea (without p (free_list a)) (nr_free a)) <$> free_areas z) z) !! o
  = Some (FreeArea (without p (free_list a)) (nr_free a)).
Proof. cbn. by rewrite list_lookup_fmap, Ha. Qed.

Lemma merge_drop_eq (k : unit -> ZM C) :
  (list_del p;; add_nr_free o (-1);; (rmv_page_order p ≫= k)) z
  = k tt (upd (drop_lists o p a (free_areas z)) (<[p := drop_page pg]> (mem_map z)) z).
Proof.
  unfold list_del. zm. zm_step (add_nr_free_eq _ _ (-1) drop_area_at). unfold rmv_page_order.
  zm_step (modify_page_eq (set_free_areas (<[o := FreeArea (without p (free_list a)) (nr_free a +u -1)]>
    ((fun a => FreeArea (without p (free_list a)) (nr_free a)) <$> free_areas z)) z) p pg
    (fun pg => set_private 0 (clear_flag PG_private pg)) Hpg).
  done.
Qed.

Lemma rmqueue_drop_eq (k : unit -> ZM C) :
  (list_del p;; rmv_page_order p;; (add_nr_free o (-1) ≫= k)) z
  = k tt (upd (drop_lists o p a (free_areas z)) (<[p := drop_page pg]> (mem_map z)) z).
Proof.
  unfold list_del. zm. unfold rmv_page_order.
  zm_step (modify_page_eq (set_free_areas
    ((fun a => FreeArea (without p (free_list a)) (nr_free a)) <$> free_areas z) z) p pg
    (fun pg => set_private 0 (clear_flag PG_private pg)) Hpg).
  zm_by ltac:(apply add_nr_free_eq; exact drop_area_at).
  done.
Qed.

Lemma free_add_eq (k : unit -> ZM C) :
  (set_page_order p o;; list_add p o;; (add_nr_free o 1 ≫= k)) z
  = k tt (upd (add_lists o p a (free_areas z)) (<[p := add_page o pg]> (mem_map z)) z).
Proof.
  unfold set_page_order. zm_step (modify_page_eq z p pg
    (fun pg => set_flag PG_private (set_private (Z.of_nat o) pg)) Hpg).
  zm_by ltac:(apply list_add_eq; exact Ha).
  zm_by ltac:(apply add_nr_free_eq; cbn; apply list_lookup_insert_eq; by eapply lookup_lt_Some).
  cbn [free_areas set_free_areas set_mem_map free_list nr_free]. by rewrite list_insert_insert_eq.
Qed.

Lemma expand_add_eq (k : unit -> ZM C) :
  (list_add p o;; add_nr_free o 1;; (set_page_order p o ≫= k)) z
  = k tt (upd (add_lists o p a (free_areas z)) (<[p := add_page o pg]> (mem_map z)) z).
Proof.
  zm_step (list_add_eq z a Ha).
  zm_by ltac:(apply add_nr_free_eq; cbn; apply list_lookup_insert_eq; by eapply lookup_lt_Some).
  cbn [free_areas set_free_areas set_mem_map free_list nr_free]. rewrite list_insert_insert_eq.
  unfold set_page_order. zm_by ltac:(apply modify_page_eq; exact Hpg). done.
Qed.
End Seq.

(** * Indices of blocks *)

(** [page_idx] of a block. *)
Definition idx (p : pfn) : Z := p `mod` 2^11.

Lemma idx_first o b : (o <= 11)%nat -> idx (first o b) = (b `mod` psize (11 - o)) * psize o.
Proof.
  intros Ho. unfold idx, first. replace (2^11) with (psize (11 - o) * psize o).
  - apply Z.mul_mod_distr_r; pose proof (psize_pos o); pose proof (psize_pos (11 - o)); lia.
  - unfold psize. rewrite <- Z.pow_add_r by lia. f_equal. lia.
Qed.

Lemma land_idx p : Z.land p (Z.shiftl 1 (Z.of_nat MAX_ORDER) - 1) = idx p.
Proof. apply (Z.land_ones p 11). done. Qed.

Lemma mod_parity b n : (b `mod` psize (S n)) `mod` 2 = b `mod` 2.
Proof.
  rewrite psize_S. pose proof (psize_pos n). apply Z.mod_mod_divide. exists (psize n). lia.
Qed.

Lemma lxor_even k : Z.lxor (2 * k) 1 = 2 * k + 1.
Proof.
  rewrite <- Z.add_nocarry_lxor; [done|]. apply Z.bits_inj'. intros n Hn.
  rewrite Z.land_spec, Z.testbit_0_l. destruct (decide (n = 0)) as [->|Hne]; [by rewrite Z.testbit_even_0|].
  rewrite (Z.bits_above_log2 1); [apply andb_false_r|done|change (Z.log2 1) with 0; lia].
Qed.

Lemma lxor_one c : Z.lxor c 1 = bud c.
Proof.
  unfold bud. pose proof (Z.div_mod c 2 ltac:(lia)) as Hc. pose proof (Z.mod_pos_bound c 2 ltac:(lia)).
  set (k := c / 2) in *. case_decide as He.
  - replace c with (2 * k) by lia. apply lxor_even.
  - replace c with (2 * k + 1) by lia. rewrite <- lxor_even, Z.lxor_assoc, Z.lxor_nilpotent, Z.lxor_0_r, lxor_even. lia.
Qed.

Lemma idx_range p : 0 <= idx p < 2^11.
Proof. apply Z.mod_pos_bound. done. Qed.

Lemma shl_psize o : (o <= top)%nat -> 1 <<u Z.of_nat o = psize o.
Proof.
  intros Ho. rewrite Z.shiftl_1_l. unfold u32. apply Z.mod_small. pose proof (psize_pos o) as Hp.
  pose proof (psize_le o top Ho) as Hle. change (psize top) with 1024 in Hle. unfold psize in *. lia.
Qed.

Lemma psize_shiftl c o : c * psize o = Z.shiftl c (Z.of_nat o).
Proof. unfold psize. by rewrite Z.shiftl_mul_pow2 by lia. Qed.

Section Idx.
Context (o : nat) (b : Z) (Ho : (o < top)%nat).
Let c := b `mod` psize (11 - o).

Lemma idx_c : idx (first o b) = c * psize o.
Proof. apply idx_first. unfold top in *. lia. Qed.

Lemma c_parity : c `mod` 2 = b `mod` 2.
Proof. unfold c. replace (11 - o)%nat with (S (10 - o)) by (unfold top in *; lia). apply mod_parity. Qed.

Lemma find_buddy_eq : __page_find_buddy (first o b) (idx (first o b)) o = first o (bud b).
Proof.
  unfold __page_find_buddy. rewrite shl_psize, idx_c by lia.
  replace (Z.lxor (c * psize o) (psize o)) with (bud c * psize o).
  - unfold bud, first. rewrite c_parity. case_decide; lia.
  - rewrite <- lxor_one, !psize_shiftl, Z.shiftl_lxor. f_equal. rewrite <- psize_shiftl. lia.
Qed.

Lemma combined_eq : __find_combined_index (idx (first o b)) o = 2 * (c / 2) * psize o.
Proof.
  unfold __find_combined_index. rewrite shl_psize by lia. pose proof (psize_le o top ltac:(lia)) as Hle.
  change (psize top) with 1024 in Hle. pose proof (psize_pos o).
  rewrite land_not32 by (pose proof (idx_range (first o b)); unfold is_u32; lia).
  rewrite idx_c, psize_shiftl. replace (psize o) with (Z.shiftl 1 (Z.of_nat o)) by (rewrite <- psize_shiftl; lia).
  rewrite <- Z.shiftl_ldiff. change (Z.ldiff c 1) with (Z.ldiff c (Z.ones 1)).
  rewrite Z.ldiff_ones_r, !Z.shiftl_mul_pow2, Z.shiftr_div_pow2 by lia. fold (psize o).
  change (2^1) with 2. ring.
Qed.

Lemma combined_first :
  first o b + (__find_combined_index (idx (first o b)) o - idx (first o b)) = first (S o) (b / 2).
Proof.
  rewrite combined_eq, idx_c. unfold first. rewrite psize_S. pose proof c_parity as Hp.
  pose proof (Z.div_mod b 2 ltac:(lia)). pose proof (Z.div_mod c 2 ltac:(lia)).
  rewrite <- Z.mul_sub_distr_r. replace (2 * (c / 2) - c) with (2 * (b / 2) - b) by lia. ring.
Qed.

Lemma combined_idx : __find_combined_index (idx (first o b)) o = idx (first (S o) (b / 2)).
Proof.
  pose proof combined_first as Hf. set (k := __find_combined_index _ _) in *.
  assert (Hk : 0 <= k < 2^11).
  { pose proof (idx_range (first o b)) as Hr. rewrite idx_c in Hr. unfold k. rewrite combined_eq.
    pose proof (Z.div_mod c 2 ltac:(lia)). pose proof (Z.mod_pos_bound c 2 ltac:(lia)). pose proof (psize_pos o).
    assert (0 <= c) by nia. assert (0 <= c / 2) by lia. nia. }
  unfold idx in *. apply (Z.mod_unique_pos _ _ (first o b / 2^11) k Hk).
  pose proof (Z.div_mod (first o b) (2^11) ltac:(lia)). lia.
Qed.
End Idx.

(** * Merging *)

(** The canonical blocks of [F] outside block [(o, b)]. *)
Definition beside (F : gset pfn) (o : nat) (b : Z) : blocks := fun o' b' => canon F o' b' /\ ~ inside o b o' b'.

Section Merge.
Context (F A : gset pfn) (x0 : pfn) (Hx0 : x0 ∈ A) (Hdisj : A ## F).

Section Step.
Context (o : nat) (b : Z) (Ho : (o <= top)%nat) (Hin : forall x, x ∈ A -> x / psize o = b).
Context (Hfull : full (F ∪ A) o b).

Lemma beside_bud : beside F o b o (bud b) <-> canon F o (bud b).
Proof.
  unfold beside. split; [tauto|]. intros Hc. split; [done|]. intros [_ Hi]. rewrite first_block in Hi. by apply (bud_ne b).
Qed.

Lemma head_bud : head_at (beside F o b) (first o (bud b)) o <-> canon F o (bud b).
Proof.
  rewrite <- beside_bud. split; [|by exists (bud b)]. intros (b' & Heq & Hb').
  assert (bud b = b') as -> by (rewrite <- (first_block o (bud b)), Heq; apply first_block). done.
Qed.

(** With the buddy gone, what is left lies beside the merged block. *)
Lemma beside_up o' b' :
  canon F o (bud b) -> minus (beside F o b) o (bud b) o' b' <-> beside F (S o) (b / 2) o' b'.
Proof.
  intros Hc. unfold minus, beside. split.
  - intros [[Hc' Hni] Hne]. split; [done|]. intros [Hle Hb].
    destruct (decide (o' <= o)%nat) as [Hle'|Hgt].
    + rewrite div_psize_S in Hb. apply half_cases in Hb as [Hb|Hb]; [by apply Hni|]. apply Hne.
      destruct (canon_disjoint F o' b' o (bud b) (first o' b') Hc' Hc) as [-> ->]; [apply first_block|done|done].
    + assert (o' = S o) as -> by lia. rewrite first_block in Hb. subst b'.
      assert (HxF : x0 ∉ F) by set_solver. apply HxF, Hc'. by rewrite div_psize_S, Hin.
  - intros [Hc' Hni]. split; [split; [done|]|].
    + intros [Hle Hb]. apply Hni. split; [lia|]. by rewrite div_psize_S, Hb.
    + intros [= -> ->]. apply Hni. split; [lia|]. by rewrite div_psize_S, first_block, bud_half.
Qed.
End Step.

Lemma merge_loop_spec n o b z :
  n = (top - o)%nat -> (o <= top)%nat -> (forall x, x ∈ A -> x / psize o = b) -> full (F ∪ A) o b ->
  bstate z (F ∪ A) (beside F o b) ->
  exists z' o1 b1, merge_loop n (first o b) (idx (first o b)) o z = Some ((first o1 b1, o1), z') /\
    frame (F ∪ A) z z' /\ free_pages z' = free_pages z /\ (forall x, x ∈ A -> x / psize o1 = b1) /\
    canon (F ∪ A) o1 b1 /\ bstate z' (F ∪ A) (beside F o1 b1).
Proof.
  revert o b z. induction n as [|n IH]; intros o b z Hn Ho Hin Hfull Hz.
  { exists z, o, b. split; [done|]. split; [done|]. split; [done|]. split; [done|]. split; [|done].
    split; [done|]. split; [done|]. unfold top in *. lia. }
  assert (Hlt : (o < top)%nat) by lia. cbn [merge_loop]. rewrite find_buddy_eq by done.
  zm_step (bad_range_eq Hz (first o (bud b))).
  assert (Hstop : ~ canon F o (bud b) -> forall k : ZM (pfn * nat), k z = Some ((first o b, o), z) ->
    exists z' o1 b1, k z = Some ((first o1 b1, o1), z') /\
    frame (F ∪ A) z z' /\ free_pages z' = free_pages z /\ (forall x, x ∈ A -> x / psize o1 = b1) /\
    canon (F ∪ A) o1 b1 /\ bstate z' (F ∪ A) (beside F o1 b1)).
  { intros Hnc k Hk. exists z, o, b. split; [done|]. split; [done|]. split; [done|]. split; [done|]. split; [|done].
    by apply (merge_stop F A x0). }
  case_bool_decide as Hrange.
  { apply Hstop; [|done]. intros Hc. apply Hrange, (bs_in _ _ _ Hz), elem_of_union_l, Hc, first_block. }
  destruct (page_is_buddy_eq Hz (first o (bud b)) o) as (t & Ht & Hhead); [done|].
  zm_step Ht. destruct t; cbn [negb]; cycle 1.
  { apply Hstop; [|done]. intros Hc%head_bud. by apply Hhead in Hc. }
  assert (Hc : canon F o (bud b)) by (by apply head_bud, Hhead).
  assert (Hbes : beside F o b o (bud b)) by (by apply beside_bud).
  destruct (area_at Hz o Ho) as (a & Ha).
  destruct (page_at Hz (first o (bud b))) as (pg & Hpg & _).
  { apply elem_of_union_l, Hc, first_block. }
  rewrite (merge_drop_eq z o (first o (bud b)) a pg Ha Hpg), combined_first, combined_idx by done.
  pose proof (drop_bstate Hz o (bud b) a pg Hbes Ha Hpg) as Hz1.
  eapply bstate_ext in Hz1; [|intros o' b'; by apply beside_up].
  edestruct (IH (S o) (b / 2)) as (z' & o1 & b1 & -> & Hfr & Hfree & Hrest); [lia|lia| | |exact Hz1|].
  - intros x Hx. by rewrite div_psize_S, Hin.
  - by apply (merge_up F A x0).
  - exists z', o1, b1. split; [done|]. split; [|by split; [rewrite Hfree|]]. etrans; [|exact Hfr]. apply upd_frame.
    intros x Hx. apply lookup_insert_ne. intros <-. apply Hx, elem_of_union_l, Hc, first_block.
Qed.
End Merge.

(** * The buddy system with the free pages [F] *)

(** The blocks on the lists are the canonical ones, and the pages are counted. *)
Definition bsys (z : zone) (F : gset pfn) : Prop :=
  bstate z F (canon F) /\ free_pages z = Z.of_nat (size F).

Definition block_set (o : nat) (b : Z) : gset pfn := list_to_set (seqZ (first o b) (psize o)).

Lemma elem_of_block o b x : x ∈ block_set o b <-> x / psize o = b.
Proof. unfold block_set. rewrite elem_of_list_to_set, elem_of_seqZ, block_iff. lia. Qed.

Lemma size_block o b : Z.of_nat (size (block_set o b)) = psize o.
Proof.
  unfold block_set. rewrite size_list_to_set by apply NoDup_seqZ. rewrite length_seqZ. pose proof (psize_pos o). lia.
Qed.

Lemma size_range (F : gset pfn) n : 0 <= n -> (forall x, x ∈ F -> 0 <= x < n) -> Z.of_nat (size F) <= n.
Proof.
  intros Hn HF. pose proof (NoDup_range_length (elements F) n) as H. unfold zlen in H. apply H; [apply NoDup_elements|done|].
  intros x Hx. apply HF. by apply elem_of_elements.
Qed.

Lemma bsys_size z F : bsys z F -> 0 <= Z.of_nat (size F) <= 2^20.
Proof.
  intros [Hz _]. split; [lia|]. apply size_range; [done|]. intros x Hx%(bs_in _ _ _ Hz).
  pose proof (bs_bounds _ _ _ Hz). unfold in_zone in Hx. lia.
Qed.

(** A page that can be put on a free list. *)
Definition clean (pg : page) : Prop := idle pg /\ flag PG_private pg = false.

Definition clean_at (z : zone) (x : pfn) : Prop := in_zone z x /\ exists pg, mem_map z !! x = Some pg /\ clean pg.

Lemma block_aligned o b : (o <= top)%nat -> Z.land (idx (first o b)) (Z.shiftl 1 (Z.of_nat o) - 1) = 0.
Proof.
  intros Ho. rewrite Z.shiftl_1_l.
  replace (2 ^ Z.of_nat o - 1) with (Z.ones (Z.of_nat o)) by (rewrite Z.ones_equiv; lia).
  rewrite Z.land_ones, idx_first by (unfold top in *; lia). apply Z.mod_mul. pose proof (psize_pos o). unfold psize in *. lia.
Qed.

Section FreeBlock.
Context (z z0 : zone) (F : gset pfn) (o : nat) (b : Z).
Context (Ho : (o <= top)%nat) (Hz : bsys z F) (Hdisj : block_set o b ## F).
Context (Hclean : forall x, x / psize o = b -> clean_at z x).

Lemma first_in_block : first o b ∈ block_set o b.
Proof. apply elem_of_block, first_block. Qed.

Lemma full_block : full (F ∪ block_set o b) o b.
Proof. intros x Hx. by apply elem_of_union_r, elem_of_block. Qed.

Lemma beside_start o' b' : canon F o' b' <-> beside F o b o' b'.
Proof.
  unfold beside. split; [|tauto]. intros Hc. split; [done|]. intros [_ Hi].
  apply (Hdisj (first o' b')); [by apply elem_of_block|]. apply Hc, first_block.
Qed.

Lemma free_start : bstate z (F ∪ block_set o b) (beside F o b).
Proof.
  eapply bstate_ext; [|exact beside_start]. destruct Hz as [Hb _]. apply bstate_extend; [done|done| |].
  - intros x Hx%elem_of_block. by apply Hclean.
  - intros x Hx%elem_of_block. destruct (Hclean x Hx) as (_ & pg & ? & ? & ?). eauto.
Qed.

Lemma free_count : free_pages z +u psize o = Z.of_nat (size (F ∪ block_set o b)).
Proof.
  pose proof (bsys_size _ _ Hz) as Hs. destruct Hz as [_ ->]. rewrite size_union by set_solver.
  rewrite Nat2Z.inj_add, size_block. pose proof (psize_le o top Ho) as Hp. change (psize top) with 1024 in Hp.
  pose proof (psize_pos o). unfold u32. apply Z.mod_small. lia.
Qed.

(** The whole of [__free_pages_bulk] but the compound page. *)
Lemma free_pages_bulk_core :
  ((if decide (o <> O) then destroy_compound_page (first o b) o else mret tt) : ZM unit) z0 = Some (tt, z) ->
  exists z', __free_pages_bulk (first o b) o z0 = Some (tt, z') /\
    frame (F ∪ block_set o b) z z' /\ bsys z' (F ∪ block_set o b).
Proof.
  intros Hdest. unfold __free_pages_bulk. zm_step Hdest. rewrite land_idx, block_aligned, bool_decide_eq_false_2 by tauto.
  cbn [BUG_ON]. zm. pose proof free_start as Hs. zm_step (bad_range_eq Hs (first o b)).
  rewrite bool_decide_eq_false_2; [|intros Hn; apply Hn, Hclean, first_block].
  cbn [BUG_ON]. zm. rewrite Z.shiftl_1_l. fold (psize o). rewrite free_count.
  set (z1 := set_free_pages _ z).
  assert (Hs1 : bstate z1 (F ∪ block_set o b) (beside F o b)) by (by apply bstate_set_free_pages).
  destruct (merge_loop_spec F (block_set o b) (first o b) first_in_block Hdisj (MAX_ORDER - 1 - o) o b z1)
    as (z2 & o1 & b1 & Hm & Hfr & Hfree & Hin & Hc & Hs2); [unfold MAX_ORDER, top; lia|done| |apply full_block|done|].
  { intros x. by apply elem_of_block. }
  zm_step Hm. cbv beta iota. destruct (area_at Hs2 o1) as (a & Ha); [apply Hc|].
  destruct (page_at Hs2 (first o1 b1)) as (pg & Hpg & _); [apply Hc, first_block|].
  pose proof (free_add_eq z2 o1 (first o1 b1) a pg Ha Hpg mret) as Heq.
  eexists. split; [etrans; [|exact Heq]|].
  { unfold mbind, SM_bind. destruct (set_page_order _ _ z2) as [[[] ?]|]; [|done].
    destruct (list_add _ _ _) as [[[] ?]|]; [|done]. destruct (add_nr_free _ _ _) as [[[] ?]|]; done. }
  split.
  - etrans; [|etrans; [exact Hfr|]]; [apply frame_free_pages|]. apply upd_frame. intros x Hx. apply lookup_insert_ne.
    intros <-. apply Hx, Hc, first_block.
  - split; [|done]. eapply bstate_ext; [apply (add_bstate Hs2 o1 b1 a pg); [apply Hc|apply Hc| |done|done]|].
    + intros o' b' x [Hc' Hni] Hx Hx'.
      by apply (canon_outside F (block_set o b) (first o b) o1 b1 first_in_block Hdisj Hin
        (proj1 (proj2 Hc)) (proj1 Hc) o' b' x).
    + intros o' b'. unfold plus. rewrite (canon_free F (block_set o b) (first o b) o1 b1 first_in_block Hdisj Hin
        (proj1 (proj2 Hc)) (proj1 Hc) o' b' Hc).
      unfold beside. tauto.
Qed.
End FreeBlock.
