(* ===== verification/BuddyAlloc.v ===== *)
(** Allocating a block: the smallest free block that is large enough is split. *)
From Stdlib Require Import ZArith Lia.
From stdpp Require Import base numbers list list_numbers option gmap sets.
From S2P Require Import Prelude Buddy BuddyBlocks BuddyOps BuddyFree.

Local Open Scope Z_scope.
Local Open Scope kernel_scope.

Import Buddy.

Lemma psize_split (o h : nat) : (o <= h)%nat -> psize h = psize (h - o) * psize o.
Proof. intros Ho. unfold psize. rewrite <- Z.pow_add_r by lia. f_equal. lia. Qed.

(** The first page of a block is the first page of a smaller block. *)
Lemma first_first o h B : (o <= h)%nat -> first o (first h B / psize o) = first h B.
Proof.
  intros Ho. unfold first. rewrite (psize_split o h Ho), Z.mul_assoc, Z.div_mul; [done|].
  pose proof (psize_pos o). lia.
Qed.

(** * Splitting *)

Section Expand.
Context (F : gset pfn) (h : nat) (B : Z) (low : nat) (Hc : canon F h B) (Hlow : (low <= h)%nat).

Let A : gset pfn := block_set low (first h B / psize low).

Lemma HA x : x ∈ A <-> x / psize low = first h B / psize low.
Proof. apply elem_of_block. Qed.

(** The blocks on the lists when the orders from [j] on have been given back. *)
Definition given (j : nat) : blocks :=
  fun o b => (exists k, (j <= k < h)%nat /\ o = k /\ b = piece h B k) \/ (canon F o b /\ (o, b) <> (h, B)).

Lemma given_canon j o b : (low <= j)%nat -> given j o b -> canon (F ∖ A) o b.
Proof.
  intros Hj Hg. apply (canon_alloc F h B low A Hc Hlow HA). destruct Hg as [(k & Hk & -> & ->)|Hg]; [left|by right].
  exists k. split; [lia|done].
Qed.

Lemma given_low o b : given low o b <-> canon (F ∖ A) o b.
Proof. unfold given. by rewrite (canon_alloc F h B low A Hc Hlow HA). Qed.

Lemma given_top o b : minus (canon F) h B o b <-> given h o b.
Proof. unfold minus, given. split; [by right|]. intros [(k & ? & _)|?]; [lia|done]. Qed.

Lemma given_step k o b : (k < h)%nat -> plus (given (S k)) k (piece h B k) o b <-> given k o b.
Proof.
  intros Hk. unfold plus, given. split.
  - intros [[(k' & ? & ?)|?]|[= -> ->]]; [left; exists k'; split; [lia|done]|by right|left; exists k; split; [lia|done]].
  - intros [(k' & Hk' & -> & ->)|?]; [|by left; right]. destruct (decide (k' = k)) as [->|Hne]; [by right|].
    left. left. exists k'. split; [lia|done].
Qed.

Lemma given_apart k o b x :
  (low <= k < h)%nat -> given (S k) o b -> x / psize k = piece h B k -> x / psize o <> b.
Proof.
  intros Hk Hg Hx Hxo.
  destruct (canon_disjoint (F ∖ A) o b k (piece h B k) x) as [-> ->]; [by apply (given_canon (S k)); [lia|]| |done|done|].
  { by apply (canon_piece F h B low A Hc Hlow HA). }
  destruct Hg as [(k' & Hk' & -> & _)|[Hck Hne]]; [lia|].
  destruct (canon_disjoint F k (piece h B k) h B x Hck Hc Hx) as [-> _]; [|lia].
  refine (piece_in h B low Hlow k x _ Hx); lia.
Qed.

Lemma piece_first k : (k < h)%nat -> first h B + psize k = first k (piece h B k).
Proof.
  intros Hk. rewrite <- (first_first k h B) at 1 by lia. unfold piece, first. lia.
Qed.

Lemma expand_loop_spec n j z :
  n = (j - low)%nat -> (low <= j <= h)%nat -> bstate z (F ∖ A) (given j) ->
  exists z', expand_loop n (first h B) j (psize j) z = Some (tt, z') /\ frame (F ∖ A) z z' /\
    free_pages z' = free_pages z /\ bstate z' (F ∖ A) (given low).
Proof.
  revert j z. induction n as [|n IH]; intros j z Hn Hj Hz.
  { assert (j = low) as -> by lia. by exists z. }
  destruct j as [|k]; [lia|]. cbn [expand_loop Nat.pred].
  replace (Z.shiftr (psize (S k)) 1) with (psize k)
    by (rewrite Z.shiftr_div_pow2, psize_S by lia; change (2^1) with 2; rewrite Z.mul_comm, Z.div_mul; lia).
  rewrite piece_first by lia. assert (Hk : (low <= k < h)%nat) by lia.
  pose proof (canon_piece F h B low A Hc Hlow HA k Hk) as Hck.
  assert (Hin : first k (piece h B k) ∈ F ∖ A) by (apply Hck, first_block).
  zm_step (bad_range_eq Hz (first k (piece h B k))).
  rewrite bool_decide_eq_false_2; [|intros Hb; by apply Hb, (bs_in _ _ _ Hz)]. cbn [BUG_ON]. zm.
  destruct (area_at Hz k) as (a & Ha); [apply Hck|]. destruct (page_at Hz _ Hin) as (pg & Hpg & _).
  rewrite (expand_add_eq z k (first k (piece h B k)) a pg Ha Hpg).
  pose proof (add_bstate Hz k (piece h B k) a pg (proj1 Hck) (proj1 (proj2 Hck))) as Hz1.
  specialize (Hz1 (fun o' b' x Hg Hx => given_apart k o' b' x Hk Hg Hx) Ha Hpg).
  eapply bstate_ext in Hz1; [|intros o' b'; apply given_step; lia].
  destruct (IH k _ ltac:(lia) ltac:(lia) Hz1) as (z' & -> & Hfr & Hfree & Hz'). exists z'. split; [done|].
  split; [|split; [by rewrite Hfree|done]]. etrans; [|exact Hfr]. apply upd_frame. intros x Hx. apply lookup_insert_ne.
  intros <-. by apply Hx.
Qed.

Lemma alloc_block_sub : A ⊆ F.
Proof. apply (alloc_sub F h B low A Hc Hlow HA). Qed.

Lemma alloc_count : Z.of_nat (size F) <= 2^20 -> Z.of_nat (size F) -u psize low = Z.of_nat (size (F ∖ A)).
Proof.
  intros Hs. rewrite size_difference by apply alloc_block_sub. pose proof (subseteq_size _ _ alloc_block_sub) as Hle.
  rewrite Nat2Z.inj_sub by done. unfold A in *. rewrite size_block. pose proof (psize_pos low).
  pose proof (size_block low (first h B / psize low)). unfold u32. apply Z.mod_small. lia.
Qed.

(** The block leaves its list and what is not wanted goes back. *)
Lemma take_spec z a pg :
  bsys z F -> free_areas z !! h = Some a -> mem_map z !! first h B = Some pg ->
  exists z',
    (list_del (first h B);; rmv_page_order (first h B);; add_nr_free h (-1);;
     f ← gets free_pages; modify (set_free_pages (f -u (1 <<u Z.of_nat low)));;
     p ← expand (first h B) low h; mret (Some p)) z = Some (Some (first h B), z') /\
    frame F z z' /\ bsys z' (F ∖ A) /\ forall x, x ∈ A -> clean_at z' x.
Proof.
  intros Hz Ha Hpg. pose proof (bsys_size _ _ Hz) as Hs. destruct Hz as [Hz Hfree].
  rewrite (rmqueue_drop_eq z h (first h B) a pg Ha Hpg). zm.
  pose proof (drop_bstate Hz h B a pg Hc Ha Hpg) as Hz1. set (z1 := upd _ _ z) in *.
  change (free_pages z1) with (free_pages z). rewrite Hfree, shl_psize, alloc_count by (lia || (destruct Hc; lia)).
  set (z2 := set_free_pages _ z1). apply (bstate_set_free_pages _ _ _ (Z.of_nat (size (F ∖ A)))) in Hz1. fold z2 in Hz1.
  assert (Hout : forall o b x, minus (canon F) h B o b -> x / psize o = b -> x ∉ A).
  { intros o b x Hm Hx HxA. apply given_top, (given_canon h) in Hm; [|done]. apply Hm in Hx. set_solver. }
  assert (Hcl : forall x, x ∈ A -> clean_at z2 x).
  { intros x Hx. assert (HF : x ∈ F) by (by apply alloc_block_sub). split; [by apply (bs_in _ _ _ Hz)|].
    destruct (page_at Hz1 x HF) as (pg' & ? & _ & Hi & _ & Hn). exists pg'. split; [done|]. split; [done|].
    apply Hn. intros o (b & -> & Hb). by apply (Hout o b (first o b) Hb (first_block o b)). }
  apply (bstate_shrink _ _ A) in Hz1; [|done]. eapply bstate_ext in Hz1; [|exact given_top].
  destruct (expand_loop_spec (h - low) h z2 eq_refl ltac:(lia) Hz1) as (z' & He & Hfr & Hfree' & Hz').
  exists z'. unfold expand. zm. rewrite Z.shiftl_1_l. fold (psize h). zm_step He. split; [done|].
  assert (Hz2 : frame F z z2).
  { unfold z2, z1. etrans; [|apply frame_free_pages]. apply upd_frame. intros x Hx. apply lookup_insert_ne.
    intros <-. apply Hx, Hc, first_block. }
  split; [etrans; [exact Hz2|]; eapply frame_mono; [|exact Hfr]; set_solver|]. split.
  - split; [|by rewrite Hfree']. eapply bstate_ext; [exact Hz'|exact given_low].
  - intros x Hx. destruct (Hcl x Hx) as (Hr & pg' & Hpg' & Hi). split.
    + unfold in_zone in *. rewrite (fr_start _ _ _ Hfr), (fr_span _ _ _ Hfr). done.
    + exists pg'. split; [|done]. rewrite (fr_map _ _ _ Hfr) by set_solver. done.
Qed.
End Expand.

(** * [__rmqueue] *)

(** The outcome of an allocation of order [o]: the first block of a smallest sufficient
    free block, or no free block is large enough. *)
Inductive taken (z : zone) (F : gset pfn) (o : nat) : option pfn -> zone -> Prop :=
| taken_some h B z' :
    (o <= h)%nat -> canon F h B -> (forall h' B', (o <= h' < h)%nat -> ~ canon F h' B') ->
    frame F z z' -> bsys z' (F ∖ block_set o (first h B / psize o)) ->
    (forall x, x ∈ block_set o (first h B / psize o) -> clean_at z' x) ->
    taken z F o (Some (first h B)) z'
| taken_none : (forall b, ~ full F o b) -> taken z F o None z.

Lemma rmqueue_loop_spec z F o n cur :
  bsys z F -> (o <= top)%nat -> (o <= cur)%nat -> n = (MAX_ORDER - cur)%nat ->
  (forall h B, (o <= h < cur)%nat -> ~ canon F h B) ->
  exists r z', rmqueue_loop n o cur z = Some (r, z') /\ taken z F o r z'.
Proof.
  intros Hz Hot. revert cur. induction n as [|n IH]; intros cur Ho Hn Hno.
  { exists None, z. split; [done|]. apply taken_none. intros b Hf. rewrite <- (first_block o b) in Hf.
    apply canon_above in Hf as (h & Hh & Hch); [|done]. apply (Hno h (first o b / psize h)); [|done].
    destruct Hch as [? _]. unfold top, MAX_ORDER in *. lia. }
  destruct (area_at (proj1 Hz) cur) as (a & Ha); [unfold top, MAX_ORDER in *; lia|].
  cbn [rmqueue_loop]. unfold get_area. zm. rewrite Ha. zm.
  destruct (bs_areas _ _ _ (proj1 Hz) cur a Ha) as (_ & _ & Hl).
  destruct (free_list a) as [|p l] eqn:Hfl.
  - apply IH; [lia|lia|]. intros h B Hh Hc. destruct (decide (h = cur)) as [->|Hne]; [|apply (Hno h B); [lia|done]].
    apply (not_elem_of_nil (first cur B)), Hl. by exists B.
  - destruct (proj1 (Hl p) ltac:(by left)) as (B & -> & Hc).
    destruct (page_at (proj1 Hz) (first cur B)) as (pg & Hpg & _); [apply Hc, first_block|].
    destruct (take_spec F cur B o Hc Ho z a pg Hz Ha Hpg) as (z' & Heq & Hfr & Hz' & Hcl).
    exists (Some (first cur B)), z'. split; [exact Heq|]. by apply taken_some.
Qed.

Lemma rmqueue_spec z F o :
  bsys z F -> (o <= top)%nat -> exists r z', __rmqueue o z = Some (r, z') /\ taken z F o r z'.
Proof. intros Hz Ho. apply rmqueue_loop_spec; [done|done|lia|done|]. lia. Qed.

Lemma taken_block z F o p z' :
  taken z F o (Some p) z' -> exists b, p = first o b /\ block_set o b ⊆ F /\ frame F z z' /\
    bsys z' (F ∖ block_set o b) /\ forall x, x ∈ block_set o b -> clean_at z' x.
Proof.
  inversion 1 as [h B ? Ho Hc _ Hfr Hz Hcl|]; subst. exists (first h B / psize o).
  split; [symmetry; by apply first_first|]. split; [by apply alloc_block_sub|done].
Qed.
