(* ===== verification/BuddyPool.v ===== *)
(** Pages that go in and out of the allocator: the checks on freed and new pages, compound
    pages, and the lists of single pages that each processor keeps. *)
From Stdlib Require Import ZArith Lia.
From stdpp Require Import base numbers list list_numbers option gmap sets.
From S2P Require Import Prelude Buddy BuddyBlocks BuddyOps BuddyFree BuddyAlloc.

Local Open Scope Z_scope.
Local Open Scope kernel_scope.

Import Buddy.

(** * Changes to pages that the buddy system does not own *)

Definition with_page (x : pfn) (pg : page) (z : zone) : zone := set_mem_map (<[x := pg]> (mem_map z)) z.

Lemma with_page_frame A x pg z : x ∈ A -> frame A z (with_page x pg z).
Proof. intros Hx. split; try done. intros y Hy. apply lookup_insert_ne. set_solver. Qed.

Lemma with_page_id x pg z : mem_map z !! x = Some pg -> with_page x pg z = z.
Proof. intros Hx. unfold with_page. rewrite insert_id by done. by destruct z. Qed.

Lemma with_page_at x pg z y :
  mem_map (with_page x pg z) !! y = if decide (y = x) then Some pg else mem_map z !! y.
Proof. unfold with_page. cbn. case_decide as Hy; [subst; apply lookup_insert_eq|apply lookup_insert_ne; congruence]. Qed.

Lemma bsys_with_page z F x pg pg' :
  bsys z F -> x ∉ F -> mem_map z !! x = Some pg -> zone_of pg' = zone_of pg -> foreign pg' ->
  bsys (with_page x pg' z) F.
Proof.
  intros [Hz Hf] Hx Hpg Hid Hfor. pose proof Hz as []. split; [|done]. split; try done. intros y Hy.
  destruct (bs_pages y Hy) as (pgy & Hpgy & Hidy & Hown & Hfory). rewrite with_page_at. case_decide as Heq.
  - subst y. exists pg'. split; [done|]. split; [change (zone_of pg' = id z); congruence|]. split; [done|]. done.
  - exists pgy. done.
Qed.

Lemma bsys_page z F x : bsys z F -> in_zone z x -> exists pg, mem_map z !! x = Some pg.
Proof. intros [Hz _] Hx. destruct (bs_pages _ _ _ Hz x Hx) as (pg & ? & _). eauto. Qed.

Lemma clean_foreign pg : clean pg -> foreign pg.
Proof. intros [_ ?]. by left. Qed.

(** * The check of a freed page *)

Definition free_bits : list Z :=
  [PG_lru; PG_private; PG_locked; PG_active; PG_reclaim; PG_slab; PG_swapcache; PG_writeback; PG_reserved].

(** A page that has lost its last user. *)
Definition dropped (pg : page) : Prop :=
  _mapcount pg = -1 /\ mapping pg = 0 /\ Forall (fun b => flag b pg = false) free_bits.

Definition undirty (pg : page) : page := if flag PG_dirty pg then clear_flag PG_dirty pg else pg.

Lemma flag_undirty b pg : flag b (undirty pg) = flag b pg && bool_decide (b <> PG_dirty).
Proof.
  unfold undirty. destruct (flag PG_dirty pg) eqn:Hd; [apply flag_clear|].
  case_bool_decide as Hb; [by rewrite andb_true_r|]. assert (b = PG_dirty) as -> by lia. by rewrite Hd.
Qed.

Lemma undirty_rest pg :
  _count (undirty pg) = _count pg /\ _mapcount (undirty pg) = _mapcount pg /\ private (undirty pg) = private pg /\
  mapping (undirty pg) = mapping pg /\ index (undirty pg) = index pg /\ zone_of (undirty pg) = zone_of pg.
Proof. unfold undirty. by destruct (flag PG_dirty pg). Qed.

Lemma dropped_undirty pg : dropped pg -> dropped (undirty pg).
Proof.
  intros (? & ? & Hall). destruct (undirty_rest pg) as (_ & Hm & _ & Hma & _). split; [congruence|]. split; [congruence|].
  eapply Forall_impl; [exact Hall|]. intros b Hb. by rewrite flag_undirty, Hb.
Qed.

Lemma undirty_foreign pg : foreign pg -> foreign (undirty pg).
Proof.
  destruct (undirty_rest pg) as (Hc & _). unfold foreign. rewrite !flag_undirty, Hc. intros [Hf|[Hf ?]]; rewrite Hf; auto.
Qed.

Lemma free_pages_check_eq z x pg :
  mem_map z !! x = Some pg -> dropped pg -> page_count x z = Some (0, z) ->
  free_pages_check x z = Some (false, with_page x (undirty pg) z).
Proof.
  intros Hx (Hm & Hma & Hall) Hc. unfold free_pages_check. zm_step (get_page_eq (z:=z) x pg Hx). zm_step Hc.
  unfold page_mapcount. rewrite Hm, Hma.
  replace (bool_decide (Z.land (flags pg) free_check_mask <> 0)) with false
    by (symmetry; apply bool_decide_eq_false; intros Hn; apply Hn, land_mask_of; [by repeat constructor|exact Hall]).
  replace (bool_decide (-1 + 1 <> 0)) with false by done. replace (bool_decide (0 <> 0)) with false by done.
  cbn [orb]. zm. zm_step (get_page_eq (z:=z) x pg Hx).
  assert (Hr : flag PG_reserved pg = false).
  { rewrite Forall_forall in Hall. apply Hall. unfold free_bits. set_solver. }
  unfold undirty. destruct (flag PG_dirty pg) eqn:Hd.
  - zm_step (modify_page_eq z x pg (clear_flag PG_dirty) Hx).
    zm_step (get_page_eq (z:=with_page x (clear_flag PG_dirty pg) z) x (clear_flag PG_dirty pg) ltac:(by rewrite with_page_at, decide_True)).
    by rewrite flag_clear, Hr.
  - zm. zm_step (get_page_eq (z:=z) x pg Hx). by rewrite Hr, with_page_id.
Qed.

(** * Freed blocks *)

Definition has (z : zone) (x : pfn) (P : page -> Prop) : Prop := exists pg, mem_map z !! x = Some pg /\ P pg.

Lemma has_with_page z x pg y P :
  has (with_page x pg z) y P <-> if decide (y = x) then P pg else has z y P.
Proof.
  unfold has. setoid_rewrite with_page_at. case_decide; [|done]. split; [by intros (? & [= <-] & ?)|eauto].
Qed.

Lemma has_impl z x (P Q : page -> Prop) : (forall pg, P pg -> Q pg) -> has z x P -> has z x Q.
Proof. intros HPQ (pg & ? & ?). exists pg. auto. Qed.

Lemma has_frame A z z' x P : frame A z z' -> x ∉ A -> has z x P -> has z' x P.
Proof. intros Hfr Hx (pg & ? & ?). exists pg. by rewrite (fr_map _ _ _ Hfr). Qed.

Definition freed_page (comp : bool) (p : pfn) (pg : page) : Prop :=
  dropped pg /\ _count pg = -1 /\ flag PG_compound pg = comp /\ (comp = true -> private pg = p).

(** A block without users, as the clients leave it: a compound page ([comp]) or not. *)
Definition freed_block (comp : bool) (z : zone) (o : nat) (b : Z) : Prop :=
  (forall x, x / psize o = b -> has z x (freed_page comp (first o b))) /\
  (comp = true -> o <> O /\ has z (first o b + 1) (fun pg => index pg = Z.of_nat o)).

Lemma freed_page_undirty comp p pg : freed_page comp p pg -> freed_page comp p (undirty pg).
Proof.
  intros (Hd & Hc & Hf & Hp). destruct (undirty_rest pg) as (Hc' & _ & Hp' & _). split; [by apply dropped_undirty|].
  split; [congruence|]. split; [rewrite flag_undirty, Hf; apply andb_true_r|]. by rewrite Hp'.
Qed.

Lemma freed_page_foreign comp p pg : freed_page comp p pg -> foreign pg.
Proof.
  intros ((_ & _ & Hall) & _). left. rewrite Forall_forall in Hall. apply Hall. unfold free_bits. set_solver.
Qed.

Section Freed.
Context (comp : bool) (F : gset pfn) (o : nat) (b : Z) (Hdisj : block_set o b ## F).

Lemma freed_count z x : freed_block comp z o b -> x / psize o = b -> page_count x z = Some (0, z).
Proof.
  intros [Hb _] Hx. destruct (Hb x Hx) as (pg & Hpg & _ & Hc & Hf & Hp). unfold page_count.
  zm_step (get_page_eq (z:=z) x pg Hpg). rewrite Hf. destruct comp; [|by rewrite Hc].
  destruct (Hb (first o b) (first_block o b)) as (hd & Hhd & _ & Hch & _). rewrite Hp by done.
  zm_step (get_page_eq (z:=z) _ _ Hhd). by rewrite Hch.
Qed.

(** A page of the block may be replaced by one that is as good. *)
Lemma freed_with_page z x pg pg' :
  freed_block comp z o b -> mem_map z !! x = Some pg -> freed_page comp (first o b) pg' -> index pg' = index pg ->
  freed_block comp (with_page x pg' z) o b.
Proof.
  intros [Hb Hi] Hx Hpg' Hidx. split.
  - intros y Hy. apply has_with_page. case_decide; [done|by apply Hb].
  - intros Hc. destruct (Hi Hc) as [Ho H1]. split; [done|]. apply has_with_page. case_decide as Heq; [|done].
    rewrite Heq in H1. destruct H1 as (pg1 & ? & ?). congruence.
Qed.

Lemma block_outside x : x / psize o = b -> x ∉ F.
Proof. intros Hx HF. apply (Hdisj x); [by apply elem_of_block|done]. Qed.

Lemma check_loop_spec n i z r :
  0 <= i -> i + Z.of_nat n = psize o -> freed_block comp z o b -> bsys z F ->
  (forall x, first o b <= x < first o b + i -> has z x (fun pg => flag PG_dirty pg = false)) ->
  exists z', check_loop n i (first o b) r z = Some (r, z') /\ frame (block_set o b) z z' /\ bsys z' F /\
    freed_block comp z' o b /\ forall x, x / psize o = b -> has z' x (fun pg => flag PG_dirty pg = false).
Proof.
  revert i z. induction n as [|n IH]; intros i z Hi Hn Hb Hz Hd.
  { exists z. split; [done|]. split; [done|]. split; [done|]. split; [done|]. intros x Hx%block_iff. apply Hd. lia. }
  cbn [check_loop]. set (x := first o b + i). assert (Hx : x / psize o = b) by (apply block_iff; lia).
  destruct (proj1 Hb x Hx) as (pg & Hpg & Hfp).
  zm_step (free_pages_check_eq z x pg Hpg (proj1 Hfp) (freed_count z x Hb Hx)). cbn [Z.b2z]. rewrite Z.add_0_r.
  destruct (undirty_rest pg) as (_ & _ & _ & _ & Hidx & Hzo).
  destruct (IH (i + 1) (with_page x (undirty pg) z)) as (z' & Heq & Hfr & Hrest).
  - lia.
  - lia.
  - by apply (freed_with_page _ _ pg); [..|apply freed_page_undirty|].
  - apply (bsys_with_page _ _ _ pg); [done|by apply block_outside|done|done|].
    by eapply freed_page_foreign, freed_page_undirty.
  - intros y Hy. apply has_with_page. case_decide; [rewrite flag_undirty; apply andb_false_r|]. apply Hd. lia.
  - exists z'. split; [done|]. split; [|done]. etrans; [|exact Hfr]. apply with_page_frame. by apply elem_of_block.
Qed.
End Freed.

(** * Compound pages are taken apart *)

Definition settled (comp : bool) (p : pfn) (pg : page) : Prop := freed_page comp p pg /\ flag PG_dirty pg = false.

Lemma settled_clean p pg : settled false p pg -> clean pg.
Proof.
  intros [((? & ? & Hall) & ? & Hc & _) Hd]. rewrite Forall_forall in Hall. split.
  - do 3 (split; [done|]). unfold busy_bits. repeat apply Forall_cons_2; try apply Forall_nil_2.
    all: first [assumption|apply Hall; unfold free_bits; set_solver].
  - apply Hall. unfold free_bits. set_solver.
Qed.

Lemma settled_uncompound p pg : settled true p pg -> clean (clear_flag PG_compound pg).
Proof.
  intros [((? & ? & Hall) & ? & Hc & _) Hd]. apply (settled_clean p). split.
  - split; [|split; [done|]; split; [rewrite flag_clear; apply andb_false_r|done]].
    split; [done|]. split; [done|]. eapply Forall_impl; [exact Hall|]. intros x Hx. by rewrite flag_clear, Hx.
  - by rewrite flag_clear, Hd.
Qed.

Section Destroy.
Context (F : gset pfn) (o : nat) (b : Z) (Hdisj : block_set o b ## F).

Lemma destroy_loop_spec n i z :
  0 <= i -> i + Z.of_nat n = psize o -> bsys z F ->
  (forall x, first o b <= x < first o b + i -> has z x clean) ->
  (forall x, first o b + i <= x < first o b + psize o -> has z x (settled true (first o b))) ->
  exists z', destroy_compound_loop n i (first o b) z = Some (tt, z') /\ frame (block_set o b) z z' /\ bsys z' F /\
    forall x, x / psize o = b -> has z' x clean.
Proof.
  revert i z. induction n as [|n IH]; intros i z Hi Hn Hz Hlo Hhi.
  { exists z. split; [done|]. split; [done|]. split; [done|]. intros x Hx%block_iff. apply Hlo. lia. }
  cbn [destroy_compound_loop]. set (x := first o b + i). assert (Hx : x / psize o = b) by (apply block_iff; lia).
  destruct (Hhi x ltac:(lia)) as (pg & Hpg & Hs). pose proof Hs as [(_ & _ & Hcomp & Hpriv) _].
  zm_step (get_page_eq (z:=z) x pg Hpg). rewrite Hcomp. cbn [negb]. zm. zm_step (get_page_eq (z:=z) x pg Hpg).
  rewrite decide_False by (rewrite Hpriv by done; tauto). zm.
  zm_step (modify_page_eq z x pg (clear_flag PG_compound) Hpg). fold (with_page x (clear_flag PG_compound pg) z).
  pose proof (settled_uncompound _ _ Hs) as Hcl.
  destruct (IH (i + 1) (with_page x (clear_flag PG_compound pg) z)) as (z' & Heq & Hfr & Hrest).
  - lia.
  - lia.
  - apply (bsys_with_page _ _ _ pg); [done|by eapply block_outside|done|done|by apply clean_foreign].
  - intros y Hy. apply has_with_page. case_decide; [done|]. apply Hlo. lia.
  - intros y Hy. apply has_with_page. rewrite decide_False by lia. apply Hhi. lia.
  - exists z'. split; [done|]. split; [|done]. etrans; [|exact Hfr]. apply with_page_frame. by apply elem_of_block.
Qed.

Lemma destroy_spec comp z :
  (o <> O \/ comp = false) ->
  bsys z F -> freed_block comp z o b -> (forall x, x / psize o = b -> has z x (fun pg => flag PG_dirty pg = false)) ->
  exists z', ((if decide (o <> O) then destroy_compound_page (first o b) o else mret tt) : ZM unit) z = Some (tt, z') /\
    frame (block_set o b) z z' /\ bsys z' F /\ forall x, x / psize o = b -> has z' x clean.
Proof.
  intros Hoc Hz [Hb Hi] Hd.
  assert (Hset : forall x, x / psize o = b -> has z x (settled comp (first o b))).
  { intros x Hx. destruct (Hb x Hx) as (pg & Hpg & Hf), (Hd x Hx) as (pg' & Hpg' & Hd'). exists pg.
    assert (pg' = pg) as -> by congruence. done. }
  assert (Hplain : comp = false -> forall x, x / psize o = b -> has z x clean).
  { intros -> x Hx. eapply has_impl; [|by apply Hset]. apply settled_clean. }
  case_decide as Ho; cycle 1.
  { destruct Hoc as [?|Hc]; [done|]. exists z. split; [done|]. split; [done|]. split; [done|]. by apply Hplain. }
  destruct (Hb _ (first_block o b)) as (hd & Hhd & _ & _ & Hc & _). unfold destroy_compound_page.
  zm_step (get_page_eq (z:=z) _ _ Hhd). rewrite Hc. destruct comp; cbn [negb]; cycle 1.
  { exists z. split; [done|]. split; [done|]. split; [done|]. by apply Hplain. }
  destruct (Hi eq_refl) as (_ & p1 & Hp1 & Hidx). zm_step (get_page_eq (z:=z) _ _ Hp1).
  rewrite decide_False by (rewrite Hidx; tauto). zm. apply destroy_loop_spec; [done| |done| |].
  - unfold pages_of, psize. rewrite Nat2Z.inj_pow. lia.
  - intros x Hx. lia.
  - intros x Hx. apply Hset, block_iff. lia.
Qed.

(** The pages of a block of order [o] are given back. *)
Lemma free_block_spec comp z :
  (o <= top)%nat -> bsys z F -> (forall x, x / psize o = b -> in_zone z x) -> (o <> O \/ comp = false) ->
  freed_block comp z o b -> (forall x, x / psize o = b -> has z x (fun pg => flag PG_dirty pg = false)) ->
  exists z', __free_pages_bulk (first o b) o z = Some (tt, z') /\ frame (F ∪ block_set o b) z z' /\
    bsys z' (F ∪ block_set o b).
Proof.
  intros Ho Hz Hin Hoc Hb Hd. destruct (destroy_spec comp z Hoc Hz Hb Hd) as (z1 & Heq & Hfr & Hz1 & Hcl).
  destruct (free_pages_bulk_core z1 z F o b Ho Hz1 Hdisj) as (z' & Heq' & Hfr' & Hz'); [|done|].
  - intros x Hx. split; [|apply Hcl, Hx]. unfold in_zone. rewrite (fr_start _ _ _ Hfr), (fr_span _ _ _ Hfr). by apply Hin.
  - exists z'. split; [done|]. split; [|done]. etrans; [|exact Hfr']. eapply frame_mono; [|exact Hfr]. set_solver.
Qed.

(** [__free_pages_ok] *)
Lemma free_pages_ok_spec comp z :
  (o <= top)%nat -> bsys z F -> (forall x, x / psize o = b -> in_zone z x) -> (o <> O \/ comp = false) ->
  freed_block comp z o b ->
  exists z', __free_pages_ok (first o b) o z = Some (tt, z') /\ frame (F ∪ block_set o b) z z' /\
    bsys z' (F ∪ block_set o b).
Proof.
  intros Ho Hz Hin Hoc Hb.
  destruct (check_loop_spec comp F o b Hdisj (pages_of o) 0 z 0) as (z1 & Heq & Hfr & Hz1 & Hb1 & Hd1); [done| |done|done| |].
  { unfold pages_of, psize. rewrite Nat2Z.inj_pow. lia. }
  { intros x Hx. lia. }
  unfold __free_pages_ok. zm_step Heq. rewrite decide_False by tauto. unfold free_pages_bulk. zm.
  cbn [length free_bulk_loop last]. rewrite decide_False by done.
  destruct (free_block_spec comp (set_scanned 0 0 z1)) as (z' & Heq' & Hfr' & Hz'); [done| | |done|done|done|].
  { destruct Hz1. split; [by apply bstate_set_scanned|done]. }
  { intros x Hx. unfold in_zone. cbn [zone_start_pfn spanned_pages set_scanned].
    rewrite (fr_start _ _ _ Hfr), (fr_span _ _ _ Hfr). by apply Hin. }
  zm. zm_step Heq'. exists z'. split; [done|]. split; [|done]. etrans; [|exact Hfr'].
  etrans; [eapply frame_mono; [|exact Hfr]; set_solver|done].
Qed.
End Destroy.
