(* ===== verification/BuddyCache.v ===== *)
(** Single pages between the buddy system and the lists of the processor. *)
From Stdlib Require Import ZArith Lia.
From stdpp Require Import base numbers list list_numbers option gmap sets.
From S2P Require Import Prelude Buddy BuddyBlocks BuddyOps BuddyFree BuddyAlloc BuddyPool.

Local Open Scope Z_scope.
Local Open Scope kernel_scope.

Import Buddy.

Lemma div_psize_0 x : x / psize 0 = x.
Proof. change (psize 0) with 1. apply Z.div_1_r. Qed.
Lemma first_0 x : first 0 x = x.
Proof. unfold first. change (psize 0) with 1. lia. Qed.
Lemma block_set_0 x : block_set 0 x = {[x]}.
Proof. apply set_eq. intros y. by rewrite elem_of_block, div_psize_0, elem_of_singleton. Qed.

Lemma clean_at_frame A z z' x : frame A z z' -> x ∉ A -> clean_at z x -> clean_at z' x.
Proof.
  intros Hfr Hx [Hr Hp]. split.
  - unfold in_zone in *. by rewrite (fr_start _ _ _ Hfr), (fr_span _ _ _ Hfr).
  - destruct Hp as (pg & ? & ?). exists pg. by rewrite (fr_map _ _ _ Hfr).
Qed.

(** * Giving pages back *)

Lemma free_one_spec z F x :
  bsys z F -> x ∉ F -> clean_at z x ->
  exists z', __free_pages_bulk x 0 z = Some (tt, z') /\ frame (F ∪ {[x]}) z z' /\ bsys z' (F ∪ {[x]}).
Proof.
  intros Hz Hx Hc. pose proof (free_pages_bulk_core z z F 0 x) as H. rewrite block_set_0, first_0 in H.
  apply H; [unfold top; lia|done|set_solver| |done]. intros y. rewrite div_psize_0. by intros ->.
Qed.

Definition pages (l : list pfn) : gset pfn := list_to_set l.

Lemma pages_app l1 l2 : pages (l1 ++ l2) = pages l1 ∪ pages l2.
Proof. apply list_to_set_app_L. Qed.
Lemma elem_of_pages x l : x ∈ pages l <-> x ∈ l.
Proof. apply elem_of_list_to_set. Qed.

(** What a call of [free_bulk_loop] does with the list: the pages at its end go, [cnt] of
    them if there are so many. *)
Definition bulk_freed (cnt : Z) (l : list pfn) (ret : Z) (z : zone) (F : gset pfn) (res : option (Z * list pfn * zone)) : Prop :=
  exists l1 l2 z', l = l1 ++ l2 /\ zlen l2 = Z.min cnt (zlen l) /\ res = Some ((ret + zlen l2, l1), z') /\
    frame (F ∪ pages l2) z z' /\ bsys z' (F ∪ pages l2).

Lemma bulk_freed_none cnt l ret z F :
  bsys z F -> 0 <= cnt -> zlen l = 0 \/ cnt = 0 -> bulk_freed cnt l ret z F (Some ((ret, l), z)).
Proof.
  intros Hz Hc H0. exists l, [], z. rewrite app_nil_r. change (zlen (@nil Z)) with 0. rewrite Z.add_0_r.
  replace (F ∪ pages []) with F by (unfold pages; set_solver). unfold zlen in *. split; [done|]. split; [lia|done].
Qed.

Lemma free_bulk_loop_spec l fuel cnt ret z F :
  (length l <= fuel)%nat -> 0 <= cnt -> bsys z F -> NoDup l -> (forall x, x ∈ l -> (x ∉ F) /\ clean_at z x) ->
  bulk_freed cnt l ret z F (free_bulk_loop fuel cnt l 0 ret z).
Proof.
  revert fuel cnt ret z F. induction l as [|x l IH] using rev_ind; intros fuel cnt ret z F Hfuel Hcnt Hz Hnd Hl.
  { replace (free_bulk_loop fuel cnt [] 0 ret z) with (Some ((ret, @nil pfn), z)) by (by destruct fuel).
    apply bulk_freed_none; auto. }
  destruct (decide (cnt = 0)) as [->|Hc].
  { replace (free_bulk_loop fuel 0 (l ++ [x]) 0 ret z) with (Some ((ret, l ++ [x]), z))
      by (destruct fuel; cbn [free_bulk_loop]; by rewrite last_snoc).
    apply bulk_freed_none; auto. }
  rewrite length_app in Hfuel. cbn in Hfuel. destruct fuel as [|fuel]; [lia|]. cbn [free_bulk_loop].
  rewrite last_snoc, decide_False by done. destruct (Hl x ltac:(set_solver)) as [HxF Hxc].
  destruct (free_one_spec z F x Hz HxF Hxc) as (z1 & Heq & Hfr & Hz1). zm_step Heq.
  rewrite removelast_last. apply NoDup_app in Hnd as (Hnd & Hnx & _).
  destruct (IH fuel (cnt - 1) (ret + 1) z1 (F ∪ {[x]})) as (l1 & l2 & z' & -> & Hlen & -> & Hfr' & Hz'); [lia|lia|done|done| |].
  - intros y Hy. destruct (Hl y ltac:(set_solver)) as [? ?]. specialize (Hnx y Hy). split; [set_solver|].
    eapply clean_at_frame; [exact Hfr|set_solver|done].
  - assert (Hset : F ∪ {[x]} ∪ pages l2 = F ∪ pages (l2 ++ [x])) by (rewrite pages_app; unfold pages; set_solver).
    rewrite Hset in Hfr', Hz'. exists l1, (l2 ++ [x]), z'. split; [by rewrite app_assoc|].
    unfold zlen in *. rewrite !length_app in *. cbn [length] in *. split; [lia|]. split; [do 3 f_equal; lia|].
    split; [|done]. etrans; [|exact Hfr']. eapply frame_mono; [|exact Hfr]. rewrite <- Hset. set_solver.
Qed.

Lemma free_pages_bulk_spec cnt l z F :
  0 <= cnt -> bsys z F -> NoDup l -> (forall x, x ∈ l -> (x ∉ F) /\ clean_at z x) ->
  bulk_freed cnt l 0 z F (free_pages_bulk cnt l 0 z).
Proof.
  intros Hcnt Hz Hnd Hl. unfold free_pages_bulk. zm.
  destruct (free_bulk_loop_spec l (length l) cnt 0 (set_scanned 0 0 z) F) as (l1 & l2 & z' & ? & ? & Heq & Hfr & Hz');
    [done|done| |done|done|].
  { destruct Hz. split; [by apply bstate_set_scanned|done]. }
  exists l1, l2, z'. do 3 (split; [done|]). split; [|done]. etrans; [|exact Hfr]. done.
Qed.

(** * Taking pages *)

Lemma rmqueue_bulk_spec n l k z F :
  bsys z F -> exists l' z', rmqueue_bulk n 0 l k z = Some ((k + zlen l', l ++ l'), z') /\
    NoDup l' /\ pages l' ⊆ F /\ frame F z z' /\ bsys z' (F ∖ pages l') /\ (forall x, x ∈ l' -> clean_at z' x) /\
    (n <> O -> l' = [] -> F = ∅).
Proof.
  revert l k z F. induction n as [|n IH]; intros l k z F Hz; cbn [rmqueue_bulk].
  { exists [], z. change (zlen (@nil Z)) with 0. rewrite app_nil_r, Z.add_0_r. split; [done|]. split; [constructor|].
    split; [unfold pages; set_solver|]. split; [done|]. split; [|by split; [intros x Hx%not_elem_of_nil|]].
    replace (F ∖ pages []) with F; [done|]. unfold pages. set_solver. }
  destruct (rmqueue_spec z F 0 Hz) as (r & z1 & Heq & Ht); [unfold top; lia|]. zm_step Heq.
  destruct r as [p|].
  - apply taken_block in Ht as (b & Hp & Hsub & Hfr & Hz1 & Hcl). rewrite first_0 in Hp. subst b.
    rewrite block_set_0 in *.
    destruct (IH (l ++ [p]) (k + 1) z1 (F ∖ {[p]}) Hz1) as (l' & z' & Heq' & Hnd & Hs' & Hfr' & Hz' & Hcl' & _).
    exists (p :: l'), z'. assert (Hp : p ∉ l') by (rewrite <- elem_of_pages; set_solver).
    assert (Hset : F ∖ {[p]} ∖ pages l' = F ∖ pages (p :: l')) by (unfold pages; set_solver).
    split; [|split; [by constructor|]].
    { rewrite Heq', <- app_assoc. unfold zlen. cbn [length app]. do 3 f_equal. lia. }
    split; [unfold pages in *; set_solver|]. split; [etrans; [exact Hfr|]; eapply frame_mono; [|exact Hfr']; set_solver|].
    rewrite <- Hset. split; [done|]. split; [|done]. intros x [->|Hx]%elem_of_cons; [|by apply Hcl'].
    eapply clean_at_frame; [exact Hfr'| |apply Hcl; set_solver]. set_solver.
  - inversion Ht as [|Hno]; subst. exists [], z1. change (zlen (@nil Z)) with 0. rewrite app_nil_r, Z.add_0_r.
    replace (F ∖ pages []) with F by (unfold pages; set_solver).
    split; [done|]. split; [constructor|]. split; [unfold pages; set_solver|]. split; [done|]. split; [done|].
    split; [by intros x Hx%not_elem_of_nil|]. intros _ _. apply set_eq. intros x. split; [|set_solver].
    intros Hx. exfalso. apply (Hno x). intros y. rewrite div_psize_0. by intros ->.
Qed.

(** * The lists of the processor *)

Definition cached (z : zone) : list pfn := concat (plist <$> pcps z).

Definition pcp_ok (q : per_cpu_pages) : Prop := count q = zlen (plist q) /\ 0 <= low q /\ 0 < batch q.

(** The buddy system holds the pages [F] and the lists of the processor hold others. *)
Record cache (z : zone) (F : gset pfn) : Prop := {
  ca_sys : bsys z F;
  ca_len : length (pcps z) = 2%nat;
  ca_pcps : Forall pcp_ok (pcps z);
  ca_nodup : NoDup (cached z);
  ca_cached : forall x, x ∈ cached z -> (x ∉ F) /\ clean_at z x;
  ca_tainted : tainted z = false
}.

(** All the pages of the allocator. *)
Definition mine (z : zone) (F : gset pfn) : gset pfn := F ∪ pages (cached z).

(** As [frame], when the lists of the processor may change. *)
Record keeps (G : gset pfn) (z z' : zone) : Prop := {
  kp_id : id z' = id z;
  kp_start : zone_start_pfn z' = zone_start_pfn z;
  kp_span : spanned_pages z' = spanned_pages z;
  kp_reserve : lowmem_reserve z' = lowmem_reserve z;
  kp_tainted : tainted z' = tainted z;
  kp_map : forall x, x ∉ G -> mem_map z' !! x = mem_map z !! x
}.

Global Instance keeps_preorder G : PreOrder (keeps G).
Proof.
  split; [done|]. intros z1 z2 z3 Ha Hb. destruct Ha, Hb. split; try congruence.
  intros x Hx. etrans; auto.
Qed.

Lemma keeps_mono G G' z z' : G ⊆ G' -> keeps G z z' -> keeps G' z z'.
Proof. intros Hs H. split; intros; apply H. auto. Qed.

Lemma frame_keeps G G' z z' : G ⊆ G' -> frame G z z' -> keeps G' z z'.
Proof. intros Hs H. split; intros; apply H. auto. Qed.

Lemma keeps_pcps G l z : keeps G z (set_pcps l z).
Proof. done. Qed.

Lemma bsys_set_pcps z F l : bsys z F -> bsys (set_pcps l z) F.
Proof. intros [Hz ?]. split; [|done]. destruct Hz. by split. Qed.

(** One of the two lists and the other. *)
Lemma cached_split z c q :
  length (pcps z) = 2%nat -> pcps z !! c = Some q ->
  exists rest, cached z ≡ₚ plist q ++ rest /\
    forall z' q', pcps z' = <[c := q']> (pcps z) -> cached z' ≡ₚ plist q' ++ rest.
Proof.
  unfold cached. intros Hlen Hq. destruct (pcps z) as [|q0 [|q1 [|? ?]]]; try done.
  destruct c as [|[|c]]; [| |done]; injection Hq as ->.
  - exists (plist q1). cbn. rewrite app_nil_r. split; [done|]. intros z' q' ->. cbn. by rewrite app_nil_r.
  - exists (plist q0). cbn. rewrite app_nil_r. split; [apply Permutation_app_comm|]. intros z' q' ->. cbn.
    rewrite app_nil_r. apply Permutation_app_comm.
Qed.

Lemma put_pcp_eq z c q q' : pcps z !! c = Some q -> put_pcp c q' z = Some (tt, set_pcps (<[c := q']> (pcps z)) z).
Proof. intros Hq. unfold put_pcp. zm. by rewrite Hq. Qed.

Lemma cache_put z F c q' L :
  bsys z F -> length (pcps z) = 2%nat -> Forall pcp_ok (pcps z) -> pcp_ok q' -> tainted z = false ->
  cached (set_pcps (<[c := q']> (pcps z)) z) ≡ₚ L -> NoDup L -> (forall x, x ∈ L -> (x ∉ F) /\ clean_at z x) ->
  cache (set_pcps (<[c := q']> (pcps z)) z) F.
Proof.
  intros Hz Hlen Hok Hq' Ht HL Hnd Hcl. split.
  - by apply bsys_set_pcps.
  - cbn. by rewrite length_insert.
  - cbn. by apply Forall_insert.
  - by rewrite HL.
  - intros x. rewrite HL. apply Hcl.
  - done.
Qed.

Lemma pages_perm l l' : l ≡ₚ l' -> pages l = pages l'.
Proof. intros Hp. apply set_eq. intros x. by rewrite !elem_of_pages, Hp. Qed.
