(* ===== verification/BuddySpec.v ===== *)
(** The page allocator as its clients see it: blocks are allocated from the pages of the
    allocator, belong to their users until they are freed, and come back. *)
From Stdlib Require Import ZArith Lia.
From stdpp Require Import base numbers list list_numbers option gmap sets.
From S2P Require Import Prelude Buddy BuddyBlocks BuddyOps BuddyFree BuddyAlloc BuddyPool BuddyCache.

Local Open Scope Z_scope.
Local Open Scope kernel_scope.

Import Buddy.

(** * Taking a block *)

(** The refill of a list of the processor, if it is low. *)
Lemma refill_spec z F q :
  cache z F -> pcp_ok q ->
  exists l' z', (if decide (count q <= low q) then
      '(n, l) ← rmqueue_bulk (Z.to_nat (batch q)) 0 (plist q) 0;
      mret (Pcp (count q + n) (low q) (high q) (batch q) l)
    else mret q : ZM per_cpu_pages) z
    = Some (Pcp (count q + zlen l') (low q) (high q) (batch q) (plist q ++ l'), z') /\
    NoDup l' /\ pages l' ⊆ F /\ frame F z z' /\ bsys z' (F ∖ pages l') /\ (forall x, x ∈ l' -> clean_at z' x) /\
    (plist q ++ l' = [] -> F = ∅).
Proof.
  intros Hz (Hcount & Hlow & Hbatch). case_decide as Hlo.
  - destruct (rmqueue_bulk_spec (Z.to_nat (batch q)) (plist q) 0 z F) as (l' & z' & Heq & Hrest); [apply Hz|].
    exists l', z'. zm_step Heq. rewrite Z.add_0_l. split; [done|].
    destruct Hrest as (? & ? & ? & ? & ? & He). do 5 (split; [done|]). intros [_ Hn]%app_eq_nil. apply He; [lia|done].
  - exists [], z. change (zlen (@nil Z)) with 0. rewrite Z.add_0_r, app_nil_r.
    replace (F ∖ pages []) with F by (unfold pages; set_solver).
    split; [by destruct q|]. split; [constructor|]. split; [unfold pages; set_solver|]. split; [done|].
    split; [apply Hz|]. split; [by intros x Hx%not_elem_of_nil|]. intros Hn. rewrite Hn in Hcount.
    change (zlen (@nil Z)) with 0 in Hcount. lia.
Qed.

(** No free block is large enough and, for a single page, list [c] of the processor is
    empty. *)
Definition exhausted (z : zone) (F : gset pfn) (o c : nat) : Prop :=
  (forall b, ~ full F o b) /\ (o = O -> exists q, pcps z !! c = Some q /\ plist q = []).

Lemma not_exhausted z F o c b :
  full F o b \/ o = O /\ (exists q, pcps z !! c = Some q /\ plist q <> []) -> ~ exhausted z F o c.
Proof.
  intros [Hf|[Ho (q & Hq & Hne)]] [Hno Hl]; [by apply (Hno b)|]. destruct (Hl Ho) as (q' & Hq' & ?). congruence.
Qed.

Lemma full_block_set F o b : block_set o b ⊆ F -> full F o b.
Proof. intros Hs x Hx. apply Hs. by apply elem_of_block. Qed.

(** What [take_block] does for order [o] with list [c] of the processor. *)
Definition block_taken (z : zone) (F : gset pfn) (o c : nat) (r : option pfn) (z' : zone) (F' : gset pfn) : Prop :=
  match r with
  | Some p => exists b, p = first o b /\ block_set o b ⊆ mine z F /\ mine z' F' = mine z F ∖ block_set o b /\
      (forall x, x ∈ block_set o b -> clean_at z' x) /\
      (full F o b \/ o = O /\ exists q, pcps z !! c = Some q /\ plist q <> [])
  | None => mine z' F' = mine z F /\ exhausted z F o c
  end.

(** The state after the refill, with the pages [l'] on list [c]. *)
Section Refilled.
Context (z : zone) (F : gset pfn) (c : nat) (q : per_cpu_pages) (rest l' : list pfn) (z1 : zone).
Context (Hz : cache z F) (Hq : pcps z !! c = Some q) (Hsplit : cached z ≡ₚ plist q ++ rest).
Context (Hupd : forall z' q', pcps z' = <[c := q']> (pcps z) -> cached z' ≡ₚ plist q' ++ rest).
Context (Hnd' : NoDup l') (Hsub : pages l' ⊆ F) (Hfr : frame F z z1) (Hz1 : bsys z1 (F ∖ pages l')).
Context (Hcl' : forall x, x ∈ l' -> clean_at z1 x).

Lemma refilled_clean x : x ∈ (plist q ++ l') ++ rest -> (x ∉ F ∖ pages l') /\ clean_at z1 x.
Proof.
  intros Hx. destruct (decide (x ∈ l')) as [Hin|Hnin]; [split; [rewrite <- elem_of_pages in Hin; set_solver|auto]|].
  destruct (ca_cached _ _ Hz x) as [? ?]; [rewrite Hsplit; set_solver|]. split; [set_solver|]. eapply clean_at_frame; eauto.
Qed.

Lemma refilled_nodup : NoDup ((plist q ++ l') ++ rest).
Proof.
  rewrite (Permutation_app_comm (plist q)), <- app_assoc, <- Hsplit. apply NoDup_app. split; [done|].
  split; [|apply Hz]. intros x Hx HxC. destruct (ca_cached _ _ Hz x HxC) as [HxF _].
  apply HxF, Hsub. by apply elem_of_pages.
Qed.

Lemma refilled_mine : F ∖ pages l' ∪ pages ((plist q ++ l') ++ rest) = mine z F.
Proof.
  unfold mine. rewrite (pages_perm _ _ Hsplit), !pages_app. apply set_eq. intros x.
  destruct (decide (x ∈ pages l')); set_solver.
Qed.

(** The list is stored without its first pages [l0]. *)
Lemma refilled_put q2 l0 :
  plist q ++ l' = l0 ++ plist q2 -> pcp_ok q2 ->
  exists z', put_pcp c q2 z1 = Some (tt, z') /\ cache z' (F ∖ pages l') /\ keeps (mine z F) z z' /\
    mine z' (F ∖ pages l') = mine z F ∖ pages l0 /\ pages l0 ⊆ mine z F /\ forall x, x ∈ l0 -> clean_at z' x.
Proof.
  intros Hl Hq2. assert (Hp1 : pcps z1 = pcps z) by apply Hfr.
  exists (set_pcps (<[c := q2]> (pcps z1)) z1). split; [apply (put_pcp_eq z1 c q); by rewrite Hp1|].
  pose proof refilled_clean as Hcl. pose proof refilled_nodup as Hnd. rewrite <- refilled_mine.
  rewrite Hl, <- app_assoc in Hcl, Hnd |- *. apply NoDup_app in Hnd as (_ & Hdis & Hnd).
  assert (HL : cached (set_pcps (<[c := q2]> (pcps z1)) z1) ≡ₚ plist q2 ++ rest) by (apply (Hupd _ q2); cbn; by rewrite Hp1).
  split; [|split; [|split; [|split]]].
  - eapply cache_put; [exact Hz1|rewrite Hp1; apply Hz|rewrite Hp1; apply Hz|done| |exact HL|done|].
    + rewrite (fr_tainted _ _ _ Hfr). apply Hz.
    + intros x Hx. apply Hcl. apply elem_of_app. by right.
  - etrans; [eapply frame_keeps; [|exact Hfr]|apply keeps_pcps]. intros x Hx. destruct (decide (x ∈ pages l')) as [Hin|]; [|set_solver].
    apply elem_of_union_r, elem_of_pages. rewrite app_assoc, <- Hl. rewrite elem_of_pages in Hin. set_solver.
  - unfold mine. rewrite (pages_perm _ _ HL), (pages_app l0). apply set_eq. intros x.
    rewrite elem_of_difference, !elem_of_union. split; [|tauto]. intros Hx. split; [tauto|].
    intros Hx0. rewrite elem_of_pages in Hx0. destruct Hx as [Hx|Hx].
    + destruct (Hcl x) as [Hn _]; [apply elem_of_app; by left|done].
    + apply (Hdis x Hx0). by rewrite <- elem_of_pages.
  - rewrite (pages_app l0). set_solver.
  - intros x Hx. apply Hcl. apply elem_of_app. by left.
Qed.
End Refilled.

Lemma take_page_spec z F c :
  cache z F -> (c < 2)%nat ->
  exists r z' F', take_block 0 c z = Some (r, z') /\ cache z' F' /\ keeps (mine z F) z z' /\ block_taken z F 0 c r z' F'.
Proof.
  intros Hz Hc. destruct (lookup_lt_is_Some_2 (pcps z) c) as (q & Hq); [rewrite (ca_len _ _ Hz); lia|].
  assert (Hqok : pcp_ok q) by (pose proof (ca_pcps _ _ Hz) as Hok; rewrite Forall_lookup in Hok; by eapply Hok).
  destruct (cached_split z c q (ca_len _ _ Hz) Hq) as (rest & Hsplit & Hupd).
  destruct (refill_spec z F q Hz Hqok) as (l' & z1 & Heq & Hnd' & Hsub & Hfr & Hz1 & Hcl' & Hempty).
  unfold take_block. rewrite decide_True by done. unfold get_pcp. zm. rewrite Hq. zm. zm_step Heq. clear Heq.
  pose proof (refilled_put z F c q rest l' z1 Hz Hq Hsplit Hupd Hnd' Hsub Hfr Hz1 Hcl') as Hput.
  destruct Hqok as (Hcount & Hlow & Hbatch). cbn [count plist low high batch].
  replace (count q + zlen l') with (zlen (plist q ++ l')) by (unfold zlen in *; rewrite length_app; lia).
  destruct (plist q ++ l') as [|p l] eqn:Hl.
  - rewrite decide_True by done.
    destruct (Hput (Pcp (zlen (@nil pfn)) (low q) (high q) (batch q) []) []) as (z' & Heq & Hz' & Hk & Hm & _); [done|done|].
    zm_step Heq. exists None, z', (F ∖ pages l'). do 3 (split; [done|]). split; [|split].
    + rewrite Hm. unfold pages. set_solver.
    + rewrite Hempty by done. intros b Hf. apply (not_elem_of_empty (C:=gset pfn) b), Hf, div_psize_0.
    + intros _. exists q. split; [done|]. by apply app_eq_nil in Hl as [? _].
  - rewrite decide_False by (unfold zlen; cbn [length]; lia).
    destruct (Hput (Pcp (zlen (p :: l) - 1) (low q) (high q) (batch q) l) [p]) as (z' & Heq & Hz' & Hk & Hm & Hs & Hcl); [done| |].
    { split; [|done]. unfold zlen. cbn [length plist count]. lia. }
    zm_step Heq. exists (Some p), z', (F ∖ pages l'). do 3 (split; [done|]). exists p. rewrite first_0, block_set_0.
    unfold pages in Hm, Hs. cbn [list_to_set foldr] in Hm, Hs. split; [done|]. split; [set_solver|]. split; [set_solver|].
    split; [intros x ->%elem_of_singleton; apply Hcl; by left|].
    destruct (plist q) as [|p' l0] eqn:Hpq; [left|right; split; [done|by exists q; rewrite Hpq]].
    intros x. rewrite div_psize_0. intros ->. apply Hsub. rewrite elem_of_pages. cbn in Hl. subst l'. by left.
Qed.

Lemma take_block_spec z F o c :
  cache z F -> (o <= top)%nat -> (c < 2)%nat ->
  exists r z' F', take_block o c z = Some (r, z') /\ cache z' F' /\ keeps (mine z F) z z' /\ block_taken z F o c r z' F'.
Proof.
  intros Hz Ho Hc. destruct (decide (o = O)) as [->|Hne]; [by apply take_page_spec|].
  destruct (rmqueue_spec z F o (ca_sys _ _ Hz) Ho) as (r & z' & Heq & Ht). unfold take_block. rewrite decide_False by done.
  destruct r as [p|].
  - apply taken_block in Ht as (b & -> & Hsub & Hfr & Hz' & Hcl).
    assert (Hca : cached z' = cached z) by (unfold cached; by rewrite (fr_pcps _ _ _ Hfr)).
    exists (Some (first o b)), z', (F ∖ block_set o b). split; [done|].
    assert (Hdis : forall x, x ∈ cached z -> x ∉ block_set o b).
    { intros x Hx Hxb. destruct (ca_cached _ _ Hz x Hx) as [HF _]. by apply HF, Hsub. }
    split; [|split; [eapply frame_keeps; [|exact Hfr]; unfold mine; set_solver|]].
    + split; [done|rewrite (fr_pcps _ _ _ Hfr); apply Hz|rewrite (fr_pcps _ _ _ Hfr); apply Hz|rewrite Hca; apply Hz| |].
      * rewrite Hca. intros x Hx. destruct (ca_cached _ _ Hz x Hx) as [HF Hc']. split; [set_solver|].
        eapply clean_at_frame; eauto.
      * rewrite (fr_tainted _ _ _ Hfr). apply Hz.
    + exists b. split; [done|]. unfold mine. rewrite Hca. split; [set_solver|].
      split; [|split; [done|left; by apply full_block_set]]. apply set_eq. intros x.
      rewrite elem_of_difference, !elem_of_union, elem_of_difference, elem_of_pages. specialize (Hdis x). tauto.
  - inversion Ht as [|Hno]; subst. exists None, z', F. split; [done|]. split; [done|]. split; [done|]. split; [done|].
    split; [done|]. done.
Qed.

(** * New pages *)

Lemma mine_with_page x pg z F : mine (with_page x pg z) F = mine z F.
Proof. done. Qed.

Lemma cache_with_page z F x pg pg' :
  cache z F -> x ∉ mine z F -> mem_map z !! x = Some pg -> zone_of pg' = zone_of pg -> foreign pg' ->
  cache (with_page x pg' z) F.
Proof.
  intros Hz Hx Hpg Hid Hfor. unfold mine in Hx. split; try apply Hz.
  - eapply bsys_with_page; [apply Hz|set_solver|done|done|done].
  - intros y Hy. destruct (ca_cached _ _ Hz y Hy) as [? Hc]. split; [done|].
    eapply (clean_at_frame {[x]}); [apply with_page_frame; set_solver| |done].
    intros ->%elem_of_singleton. apply Hx, elem_of_union_r, elem_of_pages, Hy.
Qed.

Lemma keeps_with_page G x pg z : x ∈ G -> keeps G z (with_page x pg z).
Proof. intros Hx. eapply frame_keeps; [done|]. by apply with_page_frame. Qed.

Definition new_page (pg : page) : page :=
  set_count 0 (set_private 0 (set_flags (flags pg &u not32 stale_mask) pg)).

Lemma flag_new_page b pg : flag b pg = false -> flag b (new_page pg) = false.
Proof. unfold flag. cbn. rewrite Z.land_spec. by intros ->. Qed.

Definition new_bits : list Z :=
  [PG_lru; PG_private; PG_locked; PG_active; PG_dirty; PG_reclaim; PG_slab; PG_swapcache; PG_writeback; PG_reserved].

Lemma clean_bits pg : clean pg -> Forall (fun b => flag b pg = false) new_bits.
Proof.
  intros [Hi Hp]. repeat apply Forall_cons_2; try apply Forall_nil_2; try exact Hp.
  all: apply (idle_flag pg _ Hi); unfold busy_bits; set_solver.
Qed.

Lemma prep_new_page_eq z x pg :
  mem_map z !! x = Some pg -> clean pg -> prep_new_page x z = Some (false, with_page x (new_page pg) z).
Proof.
  intros Hx Hcl. pose proof Hcl as [Hi _]. pose proof (idle_compound _ Hi) as Hcomp. destruct Hi as (Hc & Hm & Hma & _).
  unfold prep_new_page. zm_step (get_page_eq (z:=z) x pg Hx). zm_step (page_count_plain (z:=z) x pg Hx Hcomp).
  unfold page_mapcount. rewrite Hc, Hm, Hma. pose proof (clean_bits _ Hcl) as Hall.
  replace (bool_decide (Z.land (flags pg) new_page_mask <> 0)) with false
    by (symmetry; apply bool_decide_eq_false; intros Hn; apply Hn, land_mask_of; [by repeat constructor|exact Hall]).
  replace (bool_decide (-1 + 1 <> 0)) with false by done. replace (bool_decide (0 <> 0)) with false by done.
  cbn [orb]. zm. zm_step (get_page_eq (z:=z) x pg Hx).
  assert (flag PG_reserved pg = false) as ->.
  { rewrite Forall_forall in Hall. apply Hall. unfold new_bits. set_solver. }
  zm_by ltac:(apply modify_page_eq; exact Hx). zm_by ltac:(apply modify_page_eq; cbn; apply lookup_insert_eq).
  unfold set_page_refs, set_page_count. zm_by ltac:(apply modify_page_eq; cbn; apply lookup_insert_eq).
  unfold with_page. cbn [mem_map set_mem_map]. by rewrite !insert_insert_eq.
Qed.

(** * Blocks in the hands of a client *)

Definition head_count (o : nat) (b x : Z) : Z := if decide (x = first o b) then 0 else -1.

(** A page of an allocated block that is ready to be freed: nobody uses it, and only the
    first page of the block has a reference. *)
Definition ready_page (comp : bool) (o : nat) (b x : Z) (pg : page) : Prop :=
  _mapcount pg = -1 /\ (mapping pg = 0 \/ (o = O /\ Z.odd (mapping pg) = true)) /\
  Forall (fun f => flag f pg = false) free_bits /\
  _count pg = head_count o b x /\ flag PG_compound pg = comp /\ (comp = true -> private pg = first o b).

Definition releasable (comp : bool) (z : zone) (o : nat) (b : Z) : Prop :=
  (forall x, x / psize o = b -> has z x (ready_page comp o b x)) /\
  (comp = true -> o <> O /\ has z (first o b + 1) (fun pg => index pg = Z.of_nat o)).

Definition fresh_page (o : nat) (b x : Z) (pg : page) : Prop := dropped pg /\ _count pg = head_count o b x.

Lemma fresh_ready comp o b x pg :
  fresh_page o b x pg -> flag PG_compound pg = comp -> (comp = true -> private pg = first o b) -> ready_page comp o b x pg.
Proof. intros ((? & ? & ?) & ?) ? ?. unfold ready_page. auto 10. Qed.

Lemma dropped_foreign pg : dropped pg -> foreign pg.
Proof. intros (_ & _ & Hall). left. rewrite Forall_forall in Hall. apply Hall. unfold free_bits. set_solver. Qed.

Lemma clean_dropped pg : clean pg -> dropped pg.
Proof.
  intros [Hi Hp]. pose proof Hi as (_ & ? & ? & _). split; [done|]. split; [done|].
  repeat apply Forall_cons_2; try apply Forall_nil_2; try exact Hp. all: apply (idle_flag pg _ Hi); unfold busy_bits; set_solver.
Qed.

Definition compound_page (p : pfn) (pg : page) : page := set_private p (set_flag PG_compound pg).

Lemma compound_fresh p o b x pg : fresh_page o b x pg -> fresh_page o b x (compound_page p pg).
Proof.
  intros ((? & ? & Hall) & ?). split; [|done]. split; [done|]. split; [done|]. rewrite Forall_forall in Hall |- *.
  intros f Hf. unfold compound_page. change (flag f (set_private p ?q)) with (flag f q).
  rewrite flag_set, (Hall f Hf), orb_false_r by done. apply bool_decide_eq_false. intros ->.
  unfold free_bits in Hf. repeat (apply elem_of_cons in Hf as [Hf|Hf]; [done|]). by apply not_elem_of_nil in Hf.
Qed.

Section NewBlock.
Context (F : gset pfn) (o : nat) (b : Z).

Lemma prep_compound_loop_spec n i z :
  0 <= i -> i + Z.of_nat n = psize o -> cache z F -> block_set o b ## mine z F ->
  (forall x, first o b <= x < first o b + i -> has z x (ready_page true o b x)) ->
  (forall x, first o b + i <= x < first o b + psize o -> has z x (fresh_page o b x)) ->
  has z (first o b + 1) (fun pg => index pg = Z.of_nat o) ->
  exists z', prep_compound_loop n i (first o b) z = Some (tt, z') /\ cache z' F /\ mine z' F = mine z F /\
    keeps (block_set o b) z z' /\ (forall x, x / psize o = b -> has z' x (ready_page true o b x)) /\
    has z' (first o b + 1) (fun pg => index pg = Z.of_nat o).
Proof.
  revert i z. induction n as [|n IH]; intros i z Hi Hn Hz Hd Hlo Hhi Hidx.
  { exists z. do 4 (split; [done|]). split; [|done]. intros x Hx%block_iff. apply Hlo. lia. }
  cbn [prep_compound_loop]. set (x := first o b + i). assert (Hx : x / psize o = b) by (apply block_iff; lia).
  destruct (Hhi x ltac:(lia)) as (pg & Hpg & Hs).
  zm_step (modify_page_eq z x pg (fun pg => set_private (first o b) (set_flag PG_compound pg)) Hpg).
  fold (compound_page (first o b) pg). fold (with_page x (compound_page (first o b) pg) z).
  pose proof (compound_fresh (first o b) o b x pg Hs) as Hs'.
  assert (Hxb : x ∈ block_set o b) by (by apply elem_of_block).
  destruct (IH (i + 1) (with_page x (compound_page (first o b) pg) z)) as (z' & Heq & Hz' & Hm & Hk & Hrest).
  - lia.
  - lia.
  - eapply cache_with_page; [done| |done|done|by apply dropped_foreign, Hs']. intros Hm. by apply (Hd x).
  - done.
  - intros y Hy. apply has_with_page. case_decide as Hy'; [|apply Hlo; lia]. rewrite Hy'. apply fresh_ready; [done| |done].
    unfold compound_page. change (flag PG_compound (set_private ?v ?q)) with (flag PG_compound q). by rewrite flag_set.
  - intros y Hy. apply has_with_page. rewrite decide_False by lia. apply Hhi. lia.
  - apply has_with_page. case_decide as Hy; [|done]. rewrite Hy in Hidx. destruct Hidx as (pg1 & ? & ?). cbn. congruence.
  - exists z'. split; [done|]. split; [done|]. split; [done|]. split; [|done]. etrans; [|exact Hk]. by apply keeps_with_page.
Qed.

Lemma second_page : o <> O -> (first o b + 1) / psize o = b.
Proof.
  intros Ho. apply block_iff. destruct o as [|n]; [done|]. rewrite psize_S. pose proof (psize_pos n). lia.
Qed.

Lemma prep_compound_spec z :
  o <> O -> cache z F -> block_set o b ## mine z F -> (forall x, x / psize o = b -> has z x (fresh_page o b x)) ->
  exists z', prep_compound_page (first o b) o z = Some (tt, z') /\ cache z' F /\ mine z' F = mine z F /\
    keeps (block_set o b) z z' /\ releasable true z' o b.
Proof.
  intros Ho Hz Hd Hf. pose proof (second_page Ho) as H1. destruct (Hf _ H1) as (pg & Hpg & Hs).
  unfold prep_compound_page.
  zm_step (modify_page_eq z (first o b + 1) pg (fun pg => set_index (Z.of_nat o) (set_mapping 0 pg)) Hpg).
  set (pg' := set_index _ _). fold (with_page (first o b + 1) pg' z).
  assert (Hs' : fresh_page o b (first o b + 1) pg') by (destruct Hs as ((? & ? & ?) & ?); by repeat split).
  assert (H1b : first o b + 1 ∈ block_set o b) by (by apply elem_of_block).
  destruct (prep_compound_loop_spec (pages_of o) 0 (with_page (first o b + 1) pg' z)) as (z' & Heq & Hz' & Hm & Hk & Hr & Hi).
  - done.
  - unfold pages_of, psize. rewrite Nat2Z.inj_pow. lia.
  - eapply cache_with_page; [done| |done|done|by apply dropped_foreign, Hs']. intros Hm. by apply (Hd (first o b + 1)).
  - done.
  - intros x Hx. lia.
  - intros x Hx. apply has_with_page. case_decide as He; [by rewrite He|]. apply Hf, block_iff. lia.
  - apply has_with_page. by rewrite decide_True.
  - exists z'. split; [done|]. split; [done|]. split; [done|]. split; [|done]. etrans; [|exact Hk]. by apply keeps_with_page.
Qed.

(** The head of the block is prepared, the rest is as it was. *)
Lemma prep_block_fresh z pg :
  (forall x, x ∈ block_set o b -> clean_at z x) -> mem_map z !! first o b = Some pg ->
  forall x, x / psize o = b -> has (with_page (first o b) (new_page pg) z) x
    (fun pg => fresh_page o b x pg /\ flag PG_compound pg = false).
Proof.
  intros Hcl Hpg x Hx. apply has_with_page. unfold fresh_page, head_count.
  destruct (Hcl x) as (_ & pg' & Hpg' & Hc); [by apply elem_of_block|]. pose proof (clean_dropped _ Hc) as (Hm & Hma & Hall).
  pose proof Hc as [Hi _]. pose proof (idle_compound _ Hi) as Hcomp.
  case_decide as Hxe; [subst x; assert (pg' = pg) as -> by congruence|].
  - split; [|by apply flag_new_page]. split; [|done]. split; [done|]. split; [done|].
    eapply Forall_impl; [exact Hall|]. intros f Hf. by apply flag_new_page.
  - exists pg'. split; [done|]. split; [|done]. split; [by split|]. by destruct Hi.
Qed.
End NewBlock.

(** [__GFP_ZERO] wants pages that can be mapped without sleeping. *)
Definition gfp_ok (gfp : Z) : Prop := (gfp &u __GFP_ZERO) <> 0 -> (gfp &u (__GFP_WAIT |u __GFP_HIGHMEM)) <> __GFP_HIGHMEM.

Definition wants_compound (o : nat) (gfp : Z) : bool := bool_decide (o <> O) && bool_decide ((gfp &u __GFP_COMP) <> 0).

Definition list_of (gfp : Z) : nat := if decide ((gfp &u __GFP_COLD) = 0) then 0%nat else 1%nat.

(** What an allocation does. *)
Definition block_allocated (z : zone) (F : gset pfn) (o : nat) (gfp : Z) (r : option pfn) (z' : zone) (F' : gset pfn) : Prop :=
  match r with
  | Some p => exists b, p = first o b /\ block_set o b ⊆ mine z F /\ mine z' F' = mine z F ∖ block_set o b /\
      releasable (wants_compound o gfp) z' o b /\
      (full F o b \/ o = O /\ exists q, pcps z !! list_of gfp = Some q /\ plist q <> [])
  | None => mine z' F' = mine z F /\ exhausted z F o (list_of gfp)
  end.

Lemma alloc_spec z F o gfp :
  cache z F -> (o <= top)%nat -> gfp_ok gfp ->
  exists r z' F', buffered_rmqueue o gfp z = Some (r, z') /\ cache z' F' /\ keeps (mine z F) z z' /\
    block_allocated z F o gfp r z' F'.
Proof.
  intros Hz Ho Hg. unfold buffered_rmqueue. zm. cbn [buffered_rmqueue_loop]. fold (list_of gfp).
  destruct (take_block_spec z F o (list_of gfp) Hz Ho) as (r & z1 & F' & Heq & Hz1 & Hk & Ht);
    [unfold list_of; case_decide; lia|].
  zm_step Heq. destruct r as [p|]; [|by exists None, z1, F'].
  destruct Ht as (b & -> & Hsub & Hm & Hcl & Hwhy). pose proof (Hcl _ (first_in_block o b)) as (Hin & pg & Hpg & Hc).
  zm_step (bad_range_eq (proj1 (ca_sys _ _ Hz1)) (first o b)).
  rewrite (bool_decide_eq_false_2 (~ in_zone z1 (first o b))) by tauto. cbn [BUG_ON]. zm.
  zm_step (prep_new_page_eq z1 _ pg Hpg Hc).
  assert (Hd : block_set o b ## mine z1 F') by (rewrite Hm; set_solver).
  pose proof (prep_block_fresh o b z1 pg Hcl Hpg) as Hfr. set (z2 := with_page _ _ z1) in *.
  assert (Hz2 : cache z2 F').
  { eapply cache_with_page; [done| |done|done|by left; apply flag_new_page; destruct Hc].
    intros Hx. apply (Hd (first o b)); [apply first_in_block|done]. }
  assert (Hk2 : keeps (mine z F) z z2).
  { etrans; [exact Hk|]. apply keeps_with_page. apply Hsub, first_in_block. }
  replace ((if decide ((gfp &u __GFP_ZERO) <> 0)
       then BUG_ON (bool_decide ((gfp &u (__GFP_WAIT |u __GFP_HIGHMEM)) = __GFP_HIGHMEM)) else mret tt : ZM unit))
    with (mret tt : ZM unit) by (case_decide; [rewrite bool_decide_eq_false_2 by (by apply Hg)|]; done).
  zm. fold (wants_compound o gfp). destruct (wants_compound o gfp) eqn:Hw.
  - pose proof Hw as [Hne%bool_decide_eq_true _]%andb_true_iff.
    destruct (prep_compound_spec F' o b z2) as (z' & Heq' & Hz' & Hm' & Hk' & Hr); [done|done|done| |].
    { intros x Hx. eapply has_impl; [|by apply Hfr]. by intros ? []. }
    zm_step Heq'. exists (Some (first o b)), z', F'. split; [done|]. split; [done|].
    split; [etrans; [exact Hk2|]; eapply keeps_mono; [|exact Hk']; done|]. exists b. by rewrite Hm', Hw.
  - exists (Some (first o b)), z2, F'. split; [done|]. split; [done|]. split; [done|]. exists b. rewrite Hw.
    split; [done|]. split; [done|]. split; [done|]. split; [|done]. split; [|done].
    intros x Hx. eapply has_impl; [|by apply Hfr]. intros pg' [? ?]. by apply fresh_ready.
Qed.

(** * Freeing *)

(** A page that has just lost its last reference. *)
Definition idle_page (pg : page) : Prop :=
  _mapcount pg = -1 /\ (mapping pg = 0 \/ Z.odd (mapping pg) = true) /\ Forall (fun f => flag f pg = false) free_bits /\
  _count pg = -1 /\ flag PG_compound pg = false.

Definition unmapped (pg : page) : page := if Z.odd (mapping pg) then set_mapping 0 pg else pg.

Lemma unmapped_freed pg : idle_page pg -> freed_page false 0 (unmapped pg).
Proof.
  intros (? & Hm & ? & ? & ?). unfold unmapped, freed_page, dropped. destruct (Z.odd (mapping pg)) eqn:Ho; [done|].
  destruct Hm as [?|?]; [|congruence]. done.
Qed.

(** The first half of [free_hot_cold_page]: the page becomes clean. *)
Lemma free_page_checked z x pg :
  mem_map z !! x = Some pg -> idle_page pg -> exists pg', clean pg' /\ zone_of pg' = zone_of pg /\
    forall C (k : bool -> ZM C),
      ((if Z.odd (mapping pg) then modify_page x (set_mapping 0) else mret tt);; (free_pages_check x ≫= k)) z
      = k false (with_page x pg' z).
Proof.
  intros Hx Hi. pose proof (unmapped_freed pg Hi) as Hf. pose proof (freed_page_undirty _ _ _ Hf) as Hf'.
  exists (undirty (unmapped pg)). split; [|split].
  - apply (settled_clean 0). split; [done|]. rewrite flag_undirty. apply andb_false_r.
  - destruct (undirty_rest (unmapped pg)) as (_ & _ & _ & _ & _ & ->). unfold unmapped. by destruct (Z.odd _).
  - intros C k. transitivity ((free_pages_check x ≫= k) (with_page x (unmapped pg) z)).
    + unfold unmapped. destruct (Z.odd (mapping pg)).
      * by zm_step (modify_page_eq z x pg (set_mapping 0) Hx).
      * zm. by rewrite with_page_id.
    + set (z1 := with_page x (unmapped pg) z).
      assert (Hx1 : mem_map z1 !! x = Some (unmapped pg)) by (unfold z1; by rewrite with_page_at, decide_True).
      destruct Hf as (Hd & Hc & Hcomp & _).
      pose proof (page_count_plain x _ Hx1 Hcomp) as Hcnt. rewrite Hc in Hcnt.
      zm_step (free_pages_check_eq z1 x _ Hx1 Hd Hcnt). f_equal. unfold z1, with_page. cbn. by rewrite insert_insert_eq.
Qed.

(** A page is put on a list of the processor. *)
Lemma cache_add z F c q x pg pg' :
  cache z F -> pcps z !! c = Some q -> x ∉ mine z F -> in_zone z x -> mem_map z !! x = Some pg -> zone_of pg' = zone_of pg ->
  clean pg' ->
  let q1 := Pcp (count q + 1) (low q) (high q) (batch q) (x :: plist q) in
  exists z1, put_pcp c q1 (with_page x pg' z) = Some (tt, z1) /\ cache z1 F /\ mine z1 F = mine z F ∪ {[x]} /\
    keeps {[x]} z z1 /\ pcps z1 !! c = Some q1.
Proof.
  intros Hz Hq Hx Hin Hpg Hid Hcl q1. set (z0 := with_page x pg' z).
  assert (Hz0 : cache z0 F) by (eapply cache_with_page; eauto using clean_foreign).
  destruct (cached_split z c q (ca_len _ _ Hz) Hq) as (rest & Hsplit & Hupd).
  assert (Hqok : pcp_ok q) by (pose proof (ca_pcps _ _ Hz) as Hok; rewrite Forall_lookup in Hok; by eapply Hok).
  exists (set_pcps (<[c := q1]> (pcps z0)) z0). split; [by apply (put_pcp_eq z0 c q)|].
  assert (HL : cached (set_pcps (<[c := q1]> (pcps z0)) z0) ≡ₚ x :: cached z) by (rewrite (Hupd _ q1), Hsplit; done).
  unfold mine in Hx. split; [|split; [|split]].
  - eapply cache_put; [apply Hz0|apply Hz|apply Hz| |apply Hz|exact HL| |].
    + destruct Hqok as (? & ? & ?). split; [|done]. unfold q1, zlen in *. cbn [count plist length]. lia.
    + apply NoDup_cons. split; [|apply Hz]. intros Hxc. apply Hx, elem_of_union_r, elem_of_pages, Hxc.
    + intros y [->|Hy]%elem_of_cons; [|by apply Hz0]. split; [set_solver|]. split; [done|].
      exists pg'. split; [|done]. unfold z0. by rewrite with_page_at, decide_True.
  - unfold mine. rewrite (pages_perm _ _ HL). unfold pages. cbn [list_to_set foldr]. set_solver.
  - etrans; [apply (keeps_with_page _ x pg'); set_solver|apply keeps_pcps].
  - cbn. apply list_lookup_insert_eq. by eapply lookup_lt_Some.
Qed.

(** Pages go from the end of a list of the processor to the buddy system. *)
Lemma cache_flush z F c q :
  cache z F -> pcps z !! c = Some q ->
  exists ret l z1 z', free_pages_bulk (batch q) (plist q) 0 z = Some ((ret, l), z1) /\
    put_pcp c (Pcp (count q - ret) (low q) (high q) (batch q) l) z1 = Some (tt, z') /\
    exists F', cache z' F' /\ mine z' F' = mine z F /\ keeps (mine z F) z z'.
Proof.
  intros Hz Hq. destruct (cached_split z c q (ca_len _ _ Hz) Hq) as (rest & Hsplit & Hupd).
  assert (Hqok : pcp_ok q) by (pose proof (ca_pcps _ _ Hz) as Hok; rewrite Forall_lookup in Hok; by eapply Hok).
  destruct Hqok as (Hcount & Hlow & Hbatch). pose proof (ca_nodup _ _ Hz) as Hnd. rewrite Hsplit in Hnd.
  assert (Hcl : forall x, x ∈ plist q ++ rest -> (x ∉ F) /\ clean_at z x) by (intros x; rewrite <- Hsplit; apply Hz).
  pose proof Hnd as (Hndq & _ & _)%NoDup_app.
  destruct (free_pages_bulk_spec (batch q) (plist q) z F) as (l1 & l2 & z1 & Hl & Hlen & Heq & Hfr & Hz1); [lia|apply Hz|done| |].
  { intros x Hx. apply Hcl, elem_of_app. by left. }
  assert (Hp1 : pcps z1 = pcps z) by apply Hfr. set (q2 := Pcp (count q - (0 + zlen l2)) (low q) (high q) (batch q) l1).
  exists (0 + zlen l2), l1, z1, (set_pcps (<[c := q2]> (pcps z1)) z1). split; [done|].
  split; [apply (put_pcp_eq z1 c q); by rewrite Hp1|]. exists (F ∪ pages l2).
  assert (HL : cached (set_pcps (<[c := q2]> (pcps z1)) z1) ≡ₚ l1 ++ rest) by (apply (Hupd _ q2); cbn; by rewrite Hp1).
  rewrite Hl in Hnd, Hcl. assert (Hnd' : NoDup (l2 ++ l1 ++ rest)) by (by rewrite app_assoc, (Permutation_app_comm l2)).
  apply NoDup_app in Hnd' as (_ & Hdis & Hnd').
  assert (Hin : forall x, x ∈ l1 ++ rest -> x ∈ (l1 ++ l2) ++ rest) by set_solver. split; [|split].
  - eapply cache_put; [done|rewrite Hp1; apply Hz|rewrite Hp1; apply Hz| |rewrite (fr_tainted _ _ _ Hfr); apply Hz|exact HL|done|].
    + split; [|done]. cbn. rewrite Hl in Hcount. unfold zlen in *. rewrite length_app in Hcount. lia.
    + intros x Hx. destruct (Hcl x (Hin x Hx)) as [HF Hc].
      assert (Hn : x ∉ F ∪ pages l2) by (rewrite elem_of_union, elem_of_pages; intros [?|Hx2]; [done|by apply (Hdis x Hx2)]).
      split; [done|]. by eapply clean_at_frame.
  - unfold mine. rewrite (pages_perm _ _ HL), (pages_perm _ _ Hsplit), Hl, !pages_app. set_solver.
  - etrans; [|apply keeps_pcps]. eapply frame_keeps; [|exact Hfr]. unfold mine. rewrite (pages_perm _ _ Hsplit), Hl, !pages_app.
    set_solver.
Qed.

Lemma free_hot_cold_spec z F x c :
  cache z F -> (c < 2)%nat -> x ∉ mine z F -> in_zone z x -> has z x idle_page ->
  exists z' F', free_hot_cold_page x c z = Some (tt, z') /\ cache z' F' /\ mine z' F' = mine z F ∪ {[x]} /\
    keeps (mine z F ∪ {[x]}) z z'.
Proof.
  intros Hz Hc Hx Hin (pg & Hpg & Hi). destruct (free_page_checked z x pg Hpg Hi) as (pg' & Hcl & Hid & Hchk).
  unfold free_hot_cold_page. zm_step (get_page_eq (z:=z) x pg Hpg). rewrite Hchk.
  destruct (lookup_lt_is_Some_2 (pcps z) c) as (q & Hq); [rewrite (ca_len _ _ Hz); lia|].
  unfold get_pcp. zm. change (pcps (with_page x pg' z)) with (pcps z). rewrite Hq. zm.
  destruct (cache_add z F c q x pg pg' Hz Hq Hx Hin Hpg Hid Hcl) as (z1 & Heq & Hz1 & Hm1 & Hk1 & Hq1).
  zm_step Heq. assert (Hk : keeps (mine z F ∪ {[x]}) z z1) by (eapply keeps_mono; [|exact Hk1]; set_solver).
  case_decide as Hh; [|by exists z1, F].
  destruct (cache_flush z1 F c _ Hz1 Hq1) as (ret & l & z2 & z' & Hb & Hput & F' & Hz' & Hm' & Hk').
  zm_step Hb. cbv beta iota. exists z', F'. split; [exact Hput|]. split; [done|]. split; [by rewrite Hm'|].
  etrans; [exact Hk|]. by rewrite <- Hm1.
Qed.

(** * References *)

(** [put_page_testzero] on the first page of a block. *)
Lemma put_page_testzero_eq z p pg :
  mem_map z !! p = Some pg -> (flag PG_compound pg = true -> private pg = p) -> 0 <= _count pg ->
  put_page_testzero p z = Some (bool_decide (_count pg = 0), with_page p (set_count (_count pg - 1) pg) z).
Proof.
  intros Hp Hcomp Hc. unfold put_page_testzero.
  assert (Hcnt : page_count p z = Some (_count pg + 1, z)).
  { unfold page_count. zm_step (get_page_eq (z:=z) p pg Hp). destruct (flag PG_compound pg); [|done].
    rewrite Hcomp by done. by zm_step (get_page_eq (z:=z) p pg Hp). }
  zm_step Hcnt. rewrite bool_decide_eq_false_2 by lia. cbn [BUG_ON]. zm. zm_step (get_page_eq (z:=z) p pg Hp).
  unfold put_page. zm_by ltac:(rewrite Hp; reflexivity). unfold mret, SM_ret. do 2 f_equal. apply bool_decide_ext. lia.
Qed.

Section Release.
Context (z : zone) (F : gset pfn) (o : nat) (b : Z) (comp : bool).
Context (Hz : cache z F) (Hd : block_set o b ## mine z F) (Hin : forall x, x / psize o = b -> in_zone z x).
Context (Hr : releasable comp z o b).

(** The last reference goes. *)
Lemma release_head : exists pg, mem_map z !! first o b = Some pg /\ ready_page comp o b (first o b) pg /\
  put_page_testzero (first o b) z = Some (true, with_page (first o b) (set_count (-1) pg) z) /\
  cache (with_page (first o b) (set_count (-1) pg) z) F.
Proof.
  destruct (proj1 Hr _ (first_block o b)) as (pg & Hpg & Hrp). exists pg. split; [done|]. split; [done|].
  pose proof Hrp as (_ & _ & Hall & Hc & Hcomp & Hpr). unfold head_count in Hc. rewrite decide_True in Hc by done. split.
  - rewrite (put_page_testzero_eq z _ pg Hpg); [by rewrite Hc|rewrite Hcomp; auto|lia].
  - eapply cache_with_page; [done| |done|done|].
    + intros Hm. apply (Hd (first o b)); [apply first_in_block|done].
    + left. change (flag PG_private pg = false). rewrite Forall_forall in Hall. apply Hall. unfold free_bits. set_solver.
Qed.

Lemma release_freed pg :
  o <> O -> mem_map z !! first o b = Some pg -> freed_block comp (with_page (first o b) (set_count (-1) pg) z) o b.
Proof.
  intros Ho Hpg. destruct Hr as [Hpages Hidx].
  assert (Hfp : forall x pg, ready_page comp o b x pg -> dropped pg /\ flag PG_compound pg = comp /\
    (comp = true -> private pg = first o b)) by (intros ? ? (? & [?|[? ?]] & ? & ? & ? & ?); done).
  split.
  - intros x Hx. destruct (Hpages x Hx) as (pg' & Hpg' & Hrp). destruct (Hfp _ _ Hrp) as (? & ? & ?).
    apply has_with_page. case_decide as He.
    + subst x. assert (pg' = pg) as -> by congruence. done.
    + exists pg'. split; [done|]. destruct Hrp as (_ & _ & _ & Hc & _). unfold head_count in Hc. rewrite decide_False in Hc by done.
      done.
  - intros Hc. destruct (Hidx Hc) as [_ H1]. split; [done|]. apply has_with_page. rewrite decide_False by lia. done.
Qed.

Lemma free_spec :
  (o <= top)%nat ->
  exists z' F', __free_pages (first o b) o z = Some (tt, z') /\ cache z' F' /\ mine z' F' = mine z F ∪ block_set o b /\
    keeps (mine z F ∪ block_set o b) z z' /\ (o <> O -> F' = F ∪ block_set o b).
Proof.
  intros Ho. destruct release_head as (pg & Hpg & Hrp & Heq & Hz1). unfold __free_pages. zm_step Heq.
  set (z1 := with_page _ _ z) in *. case_decide as Ho0.
  - subst o. destruct (free_hot_cold_spec z1 F b 0 Hz1) as (z' & F' & Heq' & Hz' & Hm' & Hk').
    + lia.
    + change (mine z1 F) with (mine z F). intros Hb. apply (Hd b); [|done]. rewrite block_set_0. set_solver.
    + change (in_zone z b). apply Hin, div_psize_0.
    + rewrite first_0 in Hpg. unfold z1. rewrite first_0. apply has_with_page. rewrite decide_True by done.
      destruct Hrp as (? & Hm & ? & _ & Hc & _). destruct comp; [by destruct (proj2 Hr eq_refl)|].
      split; [done|]. split; [|done]. destruct Hm as [?|[_ ?]]; auto.
    + rewrite first_0, block_set_0. unfold free_hot_page. exists z', F'. do 3 (split; [done|]). split; [|done].
      etrans; [|exact Hk']. unfold z1. rewrite first_0. apply keeps_with_page. set_solver.
  - assert (HdF : block_set o b ## F) by (unfold mine in Hd; set_solver).
    destruct (free_pages_ok_spec F o b HdF comp z1 Ho (ca_sys _ _ Hz1)) as (z' & Heq' & Hfr & Hz'); [done|by left|by apply release_freed|].
    exists z', (F ∪ block_set o b). split; [done|]. assert (Hp : pcps z' = pcps z) by (by rewrite (fr_pcps _ _ _ Hfr)).
    assert (Hca : cached z' = cached z) by (unfold cached; by rewrite Hp).
    assert (Hdc : forall x, x ∈ cached z -> x ∉ block_set o b).
    { intros x Hx Hxb. apply (Hd x Hxb). unfold mine. by apply elem_of_union_r, elem_of_pages. }
    split; [|split; [|split; [|done]]].
    + split; [done|rewrite Hp; apply Hz|rewrite Hp; apply Hz|rewrite Hca; apply Hz| |rewrite (fr_tainted _ _ _ Hfr); apply Hz].
      rewrite Hca. intros x Hx. destruct (ca_cached _ _ Hz1 x Hx) as [HF Hc]. specialize (Hdc x Hx).
      assert (Hn : x ∉ F ∪ block_set o b) by set_solver. split; [done|]. by eapply clean_at_frame.
    + unfold mine. rewrite Hca. set_solver.
    + etrans; [|eapply frame_keeps; [|exact Hfr]; unfold mine; set_solver]. apply keeps_with_page.
      apply elem_of_union_r, first_in_block.
Qed.
End Release.
