(* ===== verification/BuddyWater.v ===== *)
(** Counting the free pages by their blocks, and the watermark test. *)
From Stdlib Require Import ZArith Lia.
From stdpp Require Import base numbers list list_numbers option gmap sets.
From S2P Require Import Prelude Buddy BuddyBlocks BuddyOps BuddyFree BuddyAlloc.

Local Open Scope Z_scope.
Local Open Scope kernel_scope.

Import Buddy.

(** * The pages of the lists *)

(** The pages of the blocks on the lists, from order [o] on. *)
Fixpoint covered (o : nat) (l : list free_area) : list pfn :=
  match l with
  | [] => []
  | a :: l => (free_list a ≫= fun p => seqZ p (psize o)) ++ covered (S o) l
  end.

Fixpoint total (o : nat) (l : list free_area) : Z :=
  match l with
  | [] => 0
  | a :: l => zlen (free_list a) * psize o + total (S o) l
  end.

Lemma zlen_bind_seqZ o l : zlen (l ≫= fun p => seqZ p (psize o)) = zlen l * psize o.
Proof.
  unfold zlen. induction l as [|p l IH]; [done|]. cbn [mbind list_bind length]. rewrite length_app, Nat2Z.inj_add, IH, length_seqZ.
  pose proof (psize_pos o). lia.
Qed.

Lemma covered_length o l : zlen (covered o l) = total o l.
Proof.
  revert o. induction l as [|a l IH]; intros o; [done|]. cbn [covered total]. rewrite <- IH, <- zlen_bind_seqZ.
  unfold zlen. rewrite length_app. lia.
Qed.

Lemma elem_of_covered o l x :
  x ∈ covered o l <-> exists k a p, l !! k = Some a /\ p ∈ free_list a /\ p <= x < p + psize (o + k).
Proof.
  revert o. induction l as [|a l IH]; intros o; cbn [covered].
  { rewrite elem_of_nil. split; [done|]. intros (k & a & p & Hk & _). by rewrite lookup_nil in Hk. }
  rewrite elem_of_app, list_elem_of_bind, IH. split.
  - intros [(p & Hx%elem_of_seqZ & Hp)|(k & a' & p & Hk & Hp & Hx)].
    + exists O, a, p. rewrite Nat.add_0_r. split; [done|]. split; [done|]. lia.
    + exists (S k), a', p. split; [done|]. split; [done|]. by rewrite Nat.add_succ_r.
  - intros ([|k] & a' & p & Hk & Hp & Hx).
    + injection Hk as ->. rewrite Nat.add_0_r in Hx. left. exists p. rewrite elem_of_seqZ. split; [lia|done].
    + right. exists k, a', p. rewrite Nat.add_succ_r in Hx. done.
Qed.

(** The blocks do not overlap. *)
Definition apart (o : nat) (l : list free_area) : Prop :=
  forall k a p k' a' p' x, l !! k = Some a -> p ∈ free_list a -> p <= x < p + psize (o + k) ->
    l !! k' = Some a' -> p' ∈ free_list a' -> p' <= x < p' + psize (o + k') -> k = k' /\ p = p'.

Lemma covered_nodup o l : (forall k a, l !! k = Some a -> NoDup (free_list a)) -> apart o l -> NoDup (covered o l).
Proof.
  revert o. induction l as [|a l IH]; intros o Hnd Hap; cbn [covered]; [constructor|]. apply NoDup_app. split; [|split].
  - apply NoDup_bind; [|intros; apply NoDup_seqZ|by apply (Hnd O)].
    intros p p' x Hp Hp' Hx%elem_of_seqZ Hx'%elem_of_seqZ.
    destruct (Hap O a p O a p' x) as [_ ?]; rewrite ?Nat.add_0_r; done || lia.
  - intros x (p & Hx%elem_of_seqZ & Hp)%list_elem_of_bind (k & a' & p' & Hk & Hp' & Hx')%elem_of_covered.
    destruct (Hap O a p (S k) a' p' x) as [? _]; rewrite ?Nat.add_0_r, ?Nat.add_succ_r; done || lia.
  - apply IH; [intros k; apply (Hnd (S k))|]. intros k a1 p k' a1' p' x Hk Hp Hx Hk' Hp' Hx'.
    destruct (Hap (S k) a1 p (S k') a1' p' x) as [? ?]; rewrite ?Nat.add_succ_r; try done. split; [lia|done].
Qed.

Lemma total_app o l l' : total o (l ++ l') = total o l + total (o + length l) l'.
Proof.
  revert o. induction l as [|a l IH]; intros o; cbn [app total length]; [by rewrite Nat.add_0_r|].
  rewrite IH, Nat.add_succ_r. cbn [Nat.add]. lia.
Qed.

Lemma total_zero o l : total o (take 0 l) = 0.
Proof. done. Qed.

Lemma total_nonneg o l : 0 <= total o l.
Proof. rewrite <- covered_length. unfold zlen. lia. Qed.

Lemma total_empty o l : Forall (fun a => free_list a = []) l -> total o l = 0.
Proof. intros Hl. revert o. induction Hl as [|a l Ha _ IH]; intros o; [done|]. cbn [total]. rewrite Ha, IH. done. Qed.

Section Count.
Context (z : zone) (F : gset pfn) (Hz : bsys z F).

Lemma area_head o a p : free_areas z !! o = Some a -> p ∈ free_list a -> exists b, p = first o b /\ canon F o b.
Proof. intros Ha Hp. destruct (bs_areas _ _ _ (proj1 Hz) o a Ha) as (_ & _ & Hl). by apply Hl. Qed.

Lemma areas_apart : apart 0 (free_areas z).
Proof.
  intros k a p k' a' p' x Hk Hp Hx Hk' Hp' Hx'. cbn [Nat.add] in *.
  destruct (area_head k a p Hk Hp) as (b & -> & Hc), (area_head k' a' p' Hk' Hp') as (b' & -> & Hc').
  destruct (canon_disjoint F k b k' b' x) as [-> ->]; [done|done|by apply block_iff|by apply block_iff|done].
Qed.

(** Each free page is on exactly one list, in exactly one block. *)
Lemma free_pages_total : Z.of_nat (size F) = total 0 (free_areas z).
Proof.
  rewrite <- covered_length. assert (Hset : F = list_to_set (covered 0 (free_areas z))).
  { apply set_eq. intros x. rewrite elem_of_list_to_set, elem_of_covered. split.
    - intros Hx. destruct (canon_above F 0 x) as (o & _ & Hc).
      + unfold top. lia.
      + intros y Hy. change (psize 0) with 1 in Hy. rewrite !Z.div_1_r in Hy. by subst y.
      + destruct (area_at (proj1 Hz) o (proj1 Hc)) as (a & Ha). exists o, a, (first o (x / psize o)).
        split; [done|]. destruct (bs_areas _ _ _ (proj1 Hz) o a Ha) as (_ & _ & Hl).
        split; [apply Hl; by exists (x / psize o)|]. by apply block_iff.
    - intros (k & a & p & Hk & Hp & Hx). destruct (area_head k a p Hk Hp) as (b & -> & Hc). apply Hc. by apply block_iff. }
  rewrite Hset at 1. unfold zlen. f_equal. apply size_list_to_set, covered_nodup; [|apply areas_apart].
  intros k a Hk. by apply (bs_areas _ _ _ (proj1 Hz) k a Hk).
Qed.

(** When no block of an order is free, the smaller blocks hold all the free pages. *)
Lemma total_below o : (o <= top)%nat -> (forall b, ~ full F o b) -> total 0 (take o (free_areas z)) = Z.of_nat (size F).
Proof.
  intros Ho Hno. rewrite free_pages_total. rewrite <- (take_drop o (free_areas z)) at 2. rewrite total_app.
  rewrite (total_empty _ (drop o _)); [lia|]. apply Forall_lookup. intros k a Hk. rewrite lookup_drop in Hk.
  destruct (free_list a) as [|p l] eqn:Hl; [done|]. exfalso.
  destruct (area_head (o + k) a p Hk) as (b & -> & Hc); [rewrite Hl; by left|].
  apply (Hno (first (o + k) b / psize o)), (full_sub F o (o + k)); [lia|]. rewrite first_block. apply Hc.
Qed.

Lemma total_take n : 0 <= total 0 (take n (free_areas z)) <= 2^20.
Proof.
  split; [apply total_nonneg|]. pose proof (bsys_size _ _ Hz) as Hs. rewrite free_pages_total in Hs.
  rewrite <- (take_drop n (free_areas z)), total_app in Hs. pose proof (total_nonneg (0 + length (take n (free_areas z))) (drop n (free_areas z))).
  lia.
Qed.

(** * The loop of the watermark test *)

Lemma watermark_loop_spec n o free min :
  (o + n <= top)%nat -> - 2^21 <= free + total 0 (take o (free_areas z)) <= 2^21 -> 0 <= min ->
  exists r, watermark_loop n (free_areas z) o free min = Some r /\
    (r = true <-> forall k, (k < n)%nat ->
      Z.shiftr min (Z.of_nat (S k)) < free + total 0 (take o (free_areas z)) - total 0 (take (o + S k) (free_areas z))).
Proof.
  revert o free min. induction n as [|n IH]; intros o free min Ho Hf Hmin.
  { exists true. split; [done|]. split; [lia|done]. }
  cbn [watermark_loop]. destruct (area_at (proj1 Hz) o) as (a & Ha); [lia|]. rewrite Ha. cbn [mbind option_bind].
  pose proof (total_take o) as Ht. pose proof (total_take (S o)) as Ht'.
  assert (Hnr : nr_free a * psize o = total 0 (take (S o) (free_areas z)) - total 0 (take o (free_areas z))).
  { rewrite (take_S_r _ _ a Ha), total_app, length_take_le by (apply lookup_lt_Some in Ha; lia). cbn [total Nat.add].
    destruct (bs_areas _ _ _ (proj1 Hz) o a Ha) as (_ & -> & _). lia. }
  assert (Hn0 : 0 <= nr_free a * psize o).
  { pose proof (area_bound (proj1 Hz) o a Ha). pose proof (psize_pos o). lia. }
  rewrite <- psize_shiftl. unfold u32. rewrite (Z.mod_small (nr_free a * psize o)) by lia.
  rewrite s32_small by lia. assert (Hmin' : 0 <= Z.shiftr min 1) by (by apply Z.shiftr_nonneg).
  case_decide as Hle.
  { exists false. split; [done|]. split; [done|]. intros Hk. specialize (Hk O ltac:(lia)).
    rewrite Nat.add_1_r in Hk. change (Z.of_nat 1) with 1 in Hk. lia. }
  destruct (IH (S o) (free - nr_free a * psize o) (Z.shiftr min 1)) as (r & -> & Hr); [lia|lia|done|].
  exists r. split; [done|]. rewrite Hr. split.
  - intros Hall [|k] Hk; [rewrite Nat.add_1_r; change (Z.of_nat 1) with 1; lia|].
    specialize (Hall k ltac:(lia)). rewrite Z.shiftr_shiftr in Hall by lia.
    replace (1 + Z.of_nat (S k)) with (Z.of_nat (S (S k))) in Hall by lia. rewrite <- Nat.add_succ_comm. lia.
  - intros Hall k Hk. specialize (Hall (S k) ltac:(lia)). rewrite Z.shiftr_shiftr by lia.
    replace (1 + Z.of_nat (S k)) with (Z.of_nat (S (S k))) by lia. rewrite <- Nat.add_succ_comm in Hall. lia.
Qed.

(** The reserve that the caller must leave. *)
Definition reserve_of (mark alloc_flags : Z) : Z :=
  let min := if decide ((alloc_flags &u ALLOC_HIGH) <> 0) then mark - Z.quot mark 2 else mark in
  if decide ((alloc_flags &u ALLOC_HARDER) <> 0) then min - Z.quot min 4 else min.

Lemma reserve_of_range mark fl : 0 <= mark -> 0 <= reserve_of mark fl <= mark.
Proof.
  intros Hm. unfold reserve_of. assert (Hq : forall x d, 0 <= x -> 0 < d -> 0 <= Z.quot x d <= x).
  { intros x d Hx Hd. rewrite Z.quot_div_nonneg by lia. split; [apply Z.div_pos; lia|]. apply Z.div_le_upper_bound; nia. }
  repeat case_decide; try lia.
  - pose proof (Hq mark 2 Hm ltac:(lia)). pose proof (Hq (mark - Z.quot mark 2) 4 ltac:(lia) ltac:(lia)). lia.
  - pose proof (Hq mark 4 Hm ltac:(lia)). lia.
  - pose proof (Hq mark 2 Hm ltac:(lia)). lia.
Qed.

(** Free pages in blocks of orders above [k]. *)
Definition above (k : nat) : Z := total (S k) (drop (S k) (free_areas z)).

Lemma above_eq k : (k < top)%nat -> above k = Z.of_nat (size F) - total 0 (take (S k) (free_areas z)).
Proof.
  intros Hk. unfold above. rewrite free_pages_total. rewrite <- (take_drop (S k) (free_areas z)) at 2.
  rewrite total_app, length_take_le by (rewrite (bs_len _ _ _ (proj1 Hz)); unfold top, MAX_ORDER in *; lia).
  cbn [Nat.add]. lia.
Qed.

Lemma watermark_spec o mark ci fl reserve :
  (o <= top)%nat -> 0 <= mark < 2^31 -> lowmem_reserve z !! ci = Some reserve -> 0 <= reserve <= 2^31 ->
  exists r, zone_watermark_ok o mark ci fl z = Some (r, z) /\
    (r = true <-> reserve_of mark fl + reserve + psize o <= Z.of_nat (size F) /\
      forall k, (k < o)%nat -> Z.shiftr (reserve_of mark fl) (Z.of_nat (S k)) + psize o <= above k).
Proof.
  intros Ho Hm Hres Hr. pose proof (reserve_of_range mark fl ltac:(lia)) as Hmin. pose proof (bsys_size _ _ Hz) as Hs.
  pose proof (psize_pos o) as Hp. pose proof (psize_le o top Ho) as Hp'. change (psize top) with 1024 in Hp'.
  unfold zone_watermark_ok. zm. rewrite Hres. zm. rewrite (proj2 Hz), (s32_small mark) by lia.
  fold (reserve_of mark fl). set (mn := reserve_of mark fl) in *. rewrite Z.shiftl_1_l. fold (psize o).
  rewrite s32_small by lia. set (free := Z.of_nat (size F) - psize o + 1).
  assert (Hu : u32 (mn + reserve) = mn + reserve) by (unfold u32; apply Z.mod_small; lia). rewrite Hu. clear Hu.
  destruct (watermark_loop_spec o 0 free mn) as (r & Hw & Hiff); [lia|unfold free; rewrite total_zero; lia|lia|].
  rewrite total_zero in Hiff. cbn [Nat.add] in Hiff.
  assert (Hk : (forall k, (k < o)%nat -> Z.shiftr mn (Z.of_nat (S k)) < free + 0 - total 0 (take (S k) (free_areas z))) <->
    forall k, (k < o)%nat -> Z.shiftr mn (Z.of_nat (S k)) + psize o <= above k).
  { split; intros Hall k Hk; specialize (Hall k Hk); rewrite above_eq in * by lia; unfold free in *; lia. }
  case_decide as Hle.
  - exists false. split; [done|]. split; [done|]. intros [Hsz _]. unfold u32, free in Hle. rewrite Z.mod_small in Hle; lia.
  - exists r. rewrite Hw. split; [done|]. rewrite Hiff, <- Hk. split; [|tauto]. intros Hall. split; [|done].
    destruct (decide (0 <= free)) as [Hf|Hf]; unfold free in *;
      [unfold u32 in Hle; rewrite Z.mod_small in Hle by lia; lia|].
    exfalso. destruct o as [|n]; [change (psize 0) with 1 in *; lia|]. specialize (Hall O ltac:(lia)).
    pose proof (total_take 1). assert (0 <= Z.shiftr mn (Z.of_nat 1)) by (apply Z.shiftr_nonneg; lia). lia.
Qed.
End Count.

(** A zone that passes the test has a block of the order. *)
Lemma watermark_block z F o mark ci fl reserve :
  bsys z F -> (o <= top)%nat -> 0 <= mark < 2^31 -> lowmem_reserve z !! ci = Some reserve -> 0 <= reserve <= 2^31 ->
  zone_watermark_ok o mark ci fl z = Some (true, z) -> exists b, full F o b.
Proof.
  intros Hz Ho Hm Hres Hr Hok. destruct (watermark_spec z F Hz o mark ci fl reserve Ho Hm Hres Hr) as (r & Heq & [Hr1 _]).
  assert (r = true) as Hrt by congruence. destruct (Hr1 Hrt) as [Hsz Hall]. pose proof (psize_pos o).
  pose proof (reserve_of_range mark fl ltac:(lia)).
  destruct (__rmqueue o z) as [[[p|] z']|] eqn:Hq.
  all: destruct (rmqueue_spec z F o Hz Ho) as (r' & z'' & Hq' & Ht); rewrite Hq in Hq'; try done; injection Hq' as <- <-.
  - apply taken_block in Ht as (b & _ & Hsub & _). exists b. intros x Hx. by apply Hsub, elem_of_block.
  - assert (Hno : forall b, ~ full F o b) by (by inversion Ht). exfalso. pose proof (total_below z F Hz o Ho Hno) as Htot.
    destruct o as [|n]; [rewrite total_zero in Htot; lia|]. specialize (Hall n ltac:(lia)).
    rewrite (above_eq z F Hz) in Hall by lia.
    assert (0 <= Z.shiftr (reserve_of mark fl) (Z.of_nat (S n))) by (apply Z.shiftr_nonneg; lia). lia.
Qed.
