(* ===== verification/PageAlloc.v ===== *)
(** The page allocator with its clients: every interleaving of allocations, uses and frees
    keeps each page either with the allocator or in one block of one client. *)
From Stdlib Require Import ZArith Lia.
From stdpp Require Import base numbers list list_numbers option gmap sets relations.
From S2P Require Import Prelude Buddy BuddyBlocks BuddyOps BuddyFree BuddyAlloc BuddyPool BuddyCache BuddySpec BuddyWater.

Local Open Scope Z_scope.
Local Open Scope kernel_scope.

Import Buddy.

(** * Clients *)

(** The allocated blocks: the first page of each and its order. *)
Abbreviation clients := (gmap pfn nat).

Definition in_block (p : pfn) (o : nat) (x : pfn) : Prop := x / psize o = p / psize o.

Definition used_at (U : clients) (x : pfn) : Prop := exists p o, U !! p = Some o /\ in_block p o x.

(** The blocks are aligned, in the zone, apart from each other and from the pages [M]. *)
Record used_ok (z : zone) (M : gset pfn) (U : clients) : Prop := {
  us_order : forall p o, U !! p = Some o -> (o <= top)%nat /\ p = first o (p / psize o);
  us_out : forall p o x, U !! p = Some o -> in_block p o x -> in_zone z x /\ x ∉ M;
  us_apart : forall p o p' o' x, U !! p = Some o -> U !! p' = Some o' -> in_block p o x -> in_block p' o' x -> p = p'
}.

(** The allocator has the pages [F] in the buddy system and others on the lists of the
    processor; the blocks [U] are allocated. *)
Definition pool (z : zone) (F : gset pfn) (U : clients) : Prop := cache z F /\ used_ok z (mine z F) U.

(** The pages that the allocator or a client has. *)
Definition known (z : zone) (F : gset pfn) (U : clients) (x : pfn) : Prop := x ∈ mine z F \/ used_at U x.

Lemma in_block_first o b x : in_block (first o b) o x <-> x / psize o = b.
Proof. unfold in_block. by rewrite first_block. Qed.

Lemma in_zone_keeps G z z' x : keeps G z z' -> in_zone z' x <-> in_zone z x.
Proof. intros Hk. unfold in_zone. by rewrite (kp_start _ _ _ Hk), (kp_span _ _ _ Hk). Qed.

(** A block leaves the allocator. *)
Lemma used_insert z z' M U o b :
  used_ok z M U -> keeps M z z' -> (o <= top)%nat -> (forall x, x ∈ M -> in_zone z x) -> block_set o b ⊆ M ->
  used_ok z' (M ∖ block_set o b) (<[first o b := o]> U).
Proof.
  intros [Hord Hout Hap] Hk Ho Hz Hsub.
  assert (Hnew : forall p o' x, U !! p = Some o' -> in_block p o' x -> x / psize o <> b).
  { intros p o' x Hp Hx Hxb. destruct (Hout p o' x Hp Hx) as [_ Hn]. apply Hn, Hsub. by apply elem_of_block. }
  split.
  - intros p o' [[<- <-]|[Hne Hp]]%lookup_insert_Some; [|by apply Hord]. split; [done|]. by rewrite first_block.
  - intros p o' x [[<- <-]|[Hne Hp]]%lookup_insert_Some Hx; rewrite (in_zone_keeps _ _ _ _ Hk).
    + rewrite in_block_first, <- elem_of_block in Hx. split; [by apply Hz, Hsub|set_solver].
    + destruct (Hout p o' x Hp Hx). split; [done|]. set_solver.
  - intros p o1 p' o2 x [[<- <-]|[? Hp]]%lookup_insert_Some [[<- <-]|[? Hp']]%lookup_insert_Some Hx Hx'; [done| | |by eapply Hap].
    + rewrite in_block_first in Hx. by destruct (Hnew _ _ _ Hp' Hx').
    + rewrite in_block_first in Hx'. by destruct (Hnew _ _ _ Hp Hx).
Qed.

(** A block returns to the allocator. *)
Lemma used_delete G z z' M U p o b :
  used_ok z M U -> keeps G z z' -> U !! p = Some o -> p = first o b -> used_ok z' (M ∪ block_set o b) (delete p U).
Proof.
  intros [Hord Hout Hap] Hk Hp ->. split.
  - intros p' o' [_ Hp']%lookup_delete_Some. by apply Hord.
  - intros p' o' x [Hne Hp']%lookup_delete_Some Hx. rewrite (in_zone_keeps _ _ _ _ Hk).
    destruct (Hout p' o' x Hp' Hx) as [? ?]. split; [done|]. intros [?|Hxb]%elem_of_union; [done|].
    rewrite elem_of_block, <- in_block_first in Hxb. apply Hne. by eapply Hap.
  - intros p1 o1 p2 o2 x [_ H1]%lookup_delete_Some [_ H2]%lookup_delete_Some. by eapply Hap.
Qed.

Lemma used_keeps G z z' M U : used_ok z M U -> keeps G z z' -> used_ok z' M U.
Proof.
  intros [Hord Hout Hap] Hk. split; [done| |done]. intros p o x Hp Hx. rewrite (in_zone_keeps _ _ _ _ Hk). by eapply Hout.
Qed.

Lemma mine_in_zone z F x : cache z F -> x ∈ mine z F -> in_zone z x.
Proof.
  unfold mine. intros Hz [Hx|Hx]%elem_of_union; [by apply (bs_in _ _ _ (proj1 (ca_sys _ _ Hz)))|].
  apply elem_of_pages in Hx. by apply (ca_cached _ _ Hz).
Qed.

Section Pool.
Context (z : zone) (F : gset pfn) (U : clients) (Hp : pool z F U).

Lemma used_block p o : U !! p = Some o -> exists b, p = first o b /\ (o <= top)%nat /\ block_set o b ## mine z F /\
  forall x, x / psize o = b -> in_zone z x.
Proof.
  intros HU. destruct Hp as [_ [Hord Hout _]]. destruct (Hord p o HU) as [Ho Hfirst]. exists (p / psize o).
  split; [done|]. split; [done|]. split.
  - intros x Hx%elem_of_block Hm. by destruct (Hout p o x HU Hx).
  - intros x Hx. by apply (Hout p o x HU Hx).
Qed.

Lemma used_unchanged G z' x : keeps G z z' -> G ⊆ mine z F -> used_at U x -> mem_map z' !! x = mem_map z !! x.
Proof.
  intros Hk HG (p & o & HU & Hx). apply (kp_map _ _ _ Hk). intros Hin%HG. destruct Hp as [_ Hu].
  by destruct (us_out _ _ _ Hu p o x HU Hx).
Qed.
End Pool.

Lemma known_insert z F U z' F' o b x :
  block_set o b ⊆ mine z F -> mine z' F' = mine z F ∖ block_set o b -> U !! first o b = None ->
  known z' F' (<[first o b := o]> U) x <-> known z F U x.
Proof.
  intros Hsub Hm HU. unfold known, used_at. rewrite Hm, elem_of_difference, elem_of_block. split.
  - intros [[? _]|(p & o' & [[<- <-]|[? Hp]]%lookup_insert_Some & Hx)]; [by left| |right; eauto].
    left. apply Hsub, elem_of_block. by apply in_block_first.
  - intros [Hx|(p & o' & Hp & Hx)].
    + destruct (decide (x / psize o = b)) as [Hb|Hb]; [|by left]. right. exists (first o b), o.
      rewrite lookup_insert_eq. split; [done|]. by apply in_block_first.
    + right. exists p, o'. rewrite lookup_insert_ne by congruence. done.
Qed.

Lemma known_delete z F U z' F' p o b x :
  U !! p = Some o -> p = first o b -> mine z' F' = mine z F ∪ block_set o b ->
  known z' F' (delete p U) x <-> known z F U x.
Proof.
  intros HU -> Hm. unfold known, used_at. rewrite Hm, elem_of_union, elem_of_block. split.
  - intros [[?|Hx]|(p & o' & [? Hp]%lookup_delete_Some & Hx)]; [by left| |right; eauto].
    right. exists (first o b), o. split; [done|]. by apply in_block_first.
  - intros [Hx|(p & o' & Hp & Hx)]; [by left; left|]. destruct (decide (p = first o b)) as [->|Hne].
    + left. right. assert (o' = o) as -> by congruence. by apply in_block_first.
    + right. exists p, o'. by rewrite lookup_delete_ne.
Qed.

(** * Operations *)

Section Ops.
Context (z : zone) (F : gset pfn) (U : clients) (Hp : pool z F U).

Lemma block_new o b : block_set o b ⊆ mine z F -> U !! first o b = None.
Proof.
  intros Hsub. destruct (U !! first o b) as [o'|] eqn:HU; [|done]. exfalso. destruct Hp as [_ Hu].
  destruct (us_out _ _ _ Hu _ _ (first o b) HU) as [_ Hn]; [done|]. apply Hn, Hsub, first_in_block.
Qed.

(** The pages of the other clients are as before. *)
Definition undisturbed (U' : clients) (z' : zone) : Prop := forall x, used_at U' x -> mem_map z' !! x = mem_map z !! x.

Lemma pool_alloc o gfp :
  (o <= top)%nat -> gfp_ok gfp ->
  exists r z' F', buffered_rmqueue o gfp z = Some (r, z') /\ undisturbed U z' /\
    match r with
    | Some p => U !! p = None /\ pool z' F' (<[p := o]> U) /\ (forall x, known z' F' (<[p := o]> U) x <-> known z F U x) /\
        p = first o (p / psize o) /\ releasable (wants_compound o gfp) z' o (p / psize o)
    | None => pool z' F' U /\ (forall x, known z' F' U x <-> known z F U x)
    end /\ (r = None <-> exhausted z F o (list_of gfp)).
Proof.
  intros Ho Hg. destruct Hp as [Hz Hu].
  destruct (alloc_spec z F o gfp Hz Ho Hg) as (r & z' & F' & Heq & Hz' & Hk & Ht). exists r, z', F'. split; [done|].
  split; [intros x; by eapply used_unchanged|]. destruct r as [p|].
  - destruct Ht as (b & -> & Hsub & Hm & Hr & Hwhy). pose proof (block_new o b Hsub) as Hn. rewrite first_block.
    split; [|split; [done|intros He; by destruct (not_exhausted _ _ _ _ _ Hwhy)]]. split; [done|]. split; [|split; [intros x; by apply known_insert|done]]. split; [done|]. rewrite Hm.
    eapply used_insert; [done|done|done|intros x; by apply mine_in_zone|done].
  - destruct Ht as (Hm & Hno). split; [|done]. split; [|intros x; unfold known; by rewrite Hm].
    split; [done|]. rewrite Hm. by eapply used_keeps.
Qed.

(** What comes back leaves the other clients alone. *)
Lemma free_unchanged p o b z' :
  U !! p = Some o -> p = first o b -> keeps (mine z F ∪ block_set o b) z z' -> undisturbed (delete p U) z'.
Proof.
  intros HU -> Hk x (p' & o' & [Hne HU']%lookup_delete_Some & Hx). apply (kp_map _ _ _ Hk). destruct Hp as [_ Hu].
  intros [Hx'|Hx']%elem_of_union; [by destruct (us_out _ _ _ Hu p' o' x HU' Hx)|].
  apply Hne. eapply (us_apart _ _ _ Hu); [done|done| |done]. by rewrite in_block_first, <- elem_of_block.
Qed.

Lemma pool_free comp p o :
  U !! p = Some o -> releasable comp z o (p / psize o) ->
  exists z' F', __free_pages p o z = Some (tt, z') /\ pool z' F' (delete p U) /\ undisturbed (delete p U) z' /\
    (forall x, known z' F' (delete p U) x <-> known z F U x) /\ (o <> O -> F' = F ∪ block_set o (p / psize o)).
Proof.
  intros HU Hr. destruct (used_block z F U Hp p o HU) as (b & Hb & Ho & Hd & Hin). subst p. rewrite first_block in *.
  destruct (free_spec z F o b comp (proj1 Hp) Hd Hin Hr Ho) as (z' & F' & Heq & Hz' & Hm & Hk & HF).
  exists z', F'. split; [done|]. split; [split; [done|]; rewrite Hm; eapply used_delete; [apply Hp|done|done|done]|].
  split; [by eapply free_unchanged|]. split; [intros x; by eapply known_delete|done].
Qed.

Lemma pool_free_page p c :
  U !! p = Some O -> (c < 2)%nat -> has z p idle_page ->
  exists z' F', free_hot_cold_page p c z = Some (tt, z') /\ pool z' F' (delete p U) /\ undisturbed (delete p U) z' /\
    (forall x, known z' F' (delete p U) x <-> known z F U x).
Proof.
  intros HU Hc Hi. destruct (used_block z F U Hp p O HU) as (b & Hb & Ho & Hd & Hin). rewrite first_0 in Hb. subst p.
  rewrite block_set_0 in Hd.
  destruct (free_hot_cold_spec z F b c (proj1 Hp) Hc) as (z' & F' & Heq & Hz' & Hm & Hk); [set_solver|apply Hin, div_psize_0|done|].
  rewrite <- block_set_0 in Hm, Hk. exists z', F'. split; [done|].
  split; [split; [done|]; rewrite Hm; eapply used_delete; [apply Hp|done|done|by rewrite first_0]|].
  split; [eapply free_unchanged; [done|by rewrite first_0|done]|].
  intros x. eapply known_delete; [done|by rewrite first_0|done].
Qed.

(** Pages of clients are not taken for pages of the allocator. *)
Lemma used_foreign x : used_at U x -> has z x (fun pg => zone_of pg = id z /\ foreign pg).
Proof.
  intros (p & o & HU & Hx). destruct Hp as [Hz Hu]. destruct (us_out _ _ _ Hu p o x HU Hx) as [Hin Hn].
  destruct (bs_pages _ _ _ (proj1 (ca_sys _ _ Hz)) x Hin) as (pg & Hpg & Hid & _ & Hfor). exists pg. split; [done|].
  split; [done|]. apply Hfor. unfold mine in Hn. set_solver.
Qed.

Lemma pool_with_page x pg pg' :
  used_at U x -> mem_map z !! x = Some pg -> zone_of pg' = zone_of pg -> foreign pg' -> pool (with_page x pg' z) F U.
Proof.
  intros (p & o & HU & Hx) Hpg Hid Hfor. destruct Hp as [Hz Hu]. split; [|by destruct Hu].
  eapply cache_with_page; [done| |done|done|done]. by destruct (us_out _ _ _ Hu p o x HU Hx).
Qed.

(** A reference that is not the last one goes. *)
Lemma pool_put p o pg :
  U !! p = Some o -> mem_map z !! p = Some pg -> (flag PG_compound pg = true -> private pg = p) -> 0 < _count pg ->
  __free_pages p o z = Some (tt, with_page p (set_count (_count pg - 1) pg) z) /\
  pool (with_page p (set_count (_count pg - 1) pg) z) F U.
Proof.
  intros HU Hpg Hcomp Hc. assert (Hused : used_at U p) by (by exists p, o).
  destruct (used_foreign p Hused) as (pg' & Hpg' & _ & Hfor). assert (pg' = pg) as -> by congruence. split.
  - unfold __free_pages. zm_step (put_page_testzero_eq z p pg Hpg Hcomp ltac:(lia)).
    by rewrite bool_decide_eq_false_2 by lia.
  - eapply pool_with_page; [done|done|done|]. destruct Hfor as [?|[? ?]]; [by left|right]. split; [done|]. cbn. lia.
Qed.

(** The clients may do what they like with their pages, as long as no page looks like the
    first page of a free block. *)
Definition uses (z' : zone) : Prop := exists m, z' = set_mem_map m z /\
  forall x, m !! x = mem_map z !! x \/
    (used_at U x /\ exists pg, m !! x = Some pg /\ zone_of pg = id z /\ foreign pg).

Lemma pool_use z' : uses z' -> pool z' F U.
Proof.
  intros (m & -> & Hm). destruct Hp as [Hz Hu]. split; [|by destruct Hu].
  assert (Hn : forall x, used_at U x -> x ∉ mine z F).
  { intros x (p & o & HU & Hxb). by destruct (us_out _ _ _ Hu p o x HU Hxb). }
  unfold mine in Hn. destruct (ca_sys _ _ Hz) as [Hb Hf]. split; try apply Hz.
  - split; [|done]. split; try apply Hb. intros x Hx. cbn [mem_map set_mem_map]. destruct (Hm x) as [->|(Hx' & pg & ? & ? & ?)].
    + by apply (bs_pages _ _ _ Hb).
    + exists pg. split; [done|]. split; [done|]. specialize (Hn x Hx'). split; [set_solver|done].
  - intros x Hx. destruct (ca_cached _ _ Hz x Hx) as [? [? (pg & Hpg & ?)]]. split; [done|]. split; [done|]. exists pg.
    cbn [mem_map set_mem_map]. destruct (Hm x) as [->|(Hx' & _)]; [done|]. destruct (Hn x Hx').
    by apply elem_of_union_r, elem_of_pages.
Qed.

(** The allocator notices that a page is its own. *)
Lemma pool_double_free p o : p ∈ mine z F -> __free_pages p o z = None.
Proof.
  intros Hm. assert (Hi : has z p idle).
  { unfold mine in Hm. destruct Hp as [Hz _]. apply elem_of_union in Hm as [HF|HC].
    - destruct (page_at (proj1 (ca_sys _ _ Hz)) p HF) as (pg & ? & _ & ? & _). by exists pg.
    - apply elem_of_pages, (ca_cached _ _ Hz) in HC as (_ & _ & pg & ? & ? & _). by exists pg. }
  destruct Hi as (pg & Hpg & Hi). unfold __free_pages, put_page_testzero. zm.
  zm_step (page_count_plain p pg Hpg (idle_compound _ Hi)). destruct Hi as (-> & _). done.
Qed.
End Ops.

(** * Interleavings *)

Inductive step : zone * clients -> zone * clients -> Prop :=
| step_alloc z U o gfp p z' :
    (o <= top)%nat -> gfp_ok gfp -> buffered_rmqueue o gfp z = Some (Some p, z') -> step (z, U) (z', <[p := o]> U)
| step_no_memory z U o gfp z' :
    (o <= top)%nat -> gfp_ok gfp -> buffered_rmqueue o gfp z = Some (None, z') -> step (z, U) (z', U)
| step_use z U z' : uses z U z' -> step (z, U) (z', U)
| step_free z U comp p o z' :
    U !! p = Some o -> releasable comp z o (p / psize o) -> __free_pages p o z = Some (tt, z') ->
    step (z, U) (z', delete p U)
| step_put z U p o pg z' :
    U !! p = Some o -> mem_map z !! p = Some pg -> (flag PG_compound pg = true -> private pg = p) -> 0 < _count pg ->
    __free_pages p o z = Some (tt, z') -> step (z, U) (z', U)
| step_free_page z U p c z' :
    U !! p = Some O -> (c < 2)%nat -> has z p idle_page -> free_hot_cold_page p c z = Some (tt, z') ->
    step (z, U) (z', delete p U).

Lemma pool_step s s' F :
  step s s' -> pool s.1 F s.2 -> exists F', pool s'.1 F' s'.2 /\ forall x, known s'.1 F' s'.2 x <-> known s.1 F s.2 x.
Proof.
  intros Hs. destruct Hs as [z U o gfp p z' Ho Hg He|z U o gfp z' Ho Hg He|z U z' Hu|z U comp p o z' HU Hr He
    |z U p o pg z' HU Hpg Hc Hcnt He|z U p c z' HU Hc Hi He]; cbn [fst snd]; intros Hp.
  - destruct (pool_alloc z F U Hp o gfp Ho Hg) as (r & z1 & F' & He' & _ & Hr). rewrite He in He'. injection He' as <- <-.
    destruct Hr as [(_ & ? & ? & _) _]. eauto.
  - destruct (pool_alloc z F U Hp o gfp Ho Hg) as (r & z1 & F' & He' & _ & Hr). rewrite He in He'. injection He' as <- <-.
    destruct Hr as [[? ?] _]. eauto.
  - exists F. split; [by eapply pool_use|]. destruct Hu as (m & -> & _). done.
  - destruct (pool_free z F U Hp comp p o HU Hr) as (z1 & F' & He' & ? & _ & ? & _). rewrite He in He'. injection He' as <-.
    eauto.
  - destruct (pool_put z F U Hp p o pg HU Hpg Hc Hcnt) as [He' ?]. rewrite He in He'. injection He' as ->. eauto.
  - destruct (pool_free_page z F U Hp p c HU Hc Hi) as (z1 & F' & He' & ? & _ & ?). rewrite He in He'. injection He' as <-.
    eauto.
Qed.

Lemma pool_steps s s' F :
  rtc step s s' -> pool s.1 F s.2 -> exists F', pool s'.1 F' s'.2 /\ forall x, known s'.1 F' s'.2 x <-> known s.1 F s.2 x.
Proof.
  intros Hs. revert F. induction Hs as [s|s1 s2 s3 H1 _ IH]; intros F Hp; [by exists F|].
  destruct (pool_step s1 s2 F H1 Hp) as (F2 & Hp2 & Hk2). destruct (IH F2 Hp2) as (F3 & Hp3 & Hk3).
  exists F3. split; [done|]. intros x. by rewrite Hk3.
Qed.

(** * The start *)

(** The memory belongs to the blocks [U] and the allocator has nothing. *)
Record boot (z : zone) (U : clients) : Prop := {
  bo_bounds : 0 <= zone_start_pfn z /\ 0 <= spanned_pages z /\ zone_start_pfn z + spanned_pages z <= 2^20;
  bo_areas : free_areas z = replicate MAX_ORDER (FreeArea [] 0);
  bo_free : free_pages z = 0;
  bo_pages : forall x, in_zone z x -> has z x (fun pg => zone_of pg = id z /\ foreign pg);
  bo_pcps : length (pcps z) = 2%nat /\ Forall (fun q => pcp_ok q /\ plist q = []) (pcps z);
  bo_tainted : tainted z = false;
  bo_used : used_ok z ∅ U
}.

Lemma boot_cached z U : boot z U -> cached z = [].
Proof.
  intros Hb. destruct (bo_pcps _ _ Hb) as [_ Hall]. unfold cached. induction Hall as [|q l [_ Hq] _ IH]; [done|].
  cbn. by rewrite Hq.
Qed.

Lemma canon_empty o b : ~ canon ∅ o b.
Proof. intros (_ & Hf & _). apply (not_elem_of_empty (C:=gset pfn) (first o b)), Hf, first_block. Qed.

Lemma boot_pool z U : boot z U -> pool z ∅ U.
Proof.
  intros Hb. pose proof (boot_cached z U Hb) as Hc. destruct Hb as [Hbd Har Hfree Hpg [Hlen Hall] Ht Hu].
  split; [|unfold mine; rewrite Hc; by replace (∅ ∪ pages []) with (∅ : gset pfn) by (unfold pages; set_solver)].
  split; [|done| | |by rewrite Hc; intros x ?%not_elem_of_nil|done].
  - split; [|by rewrite Hfree, size_empty]. split; [done|by rewrite Har, length_replicate| |set_solver| | |].
    + intros o a Ha. rewrite Har in Ha. apply lookup_replicate in Ha as [-> _]. split; [constructor|]. split; [done|].
      intros p. split; [by intros ?%not_elem_of_nil|]. intros (b & _ & Hb). by apply canon_empty in Hb.
    + intros x Hx. destruct (Hpg x Hx) as (pg & ? & ? & ?). exists pg. split; [done|]. split; [done|]. split; [set_solver|done].
    + intros o b Hb. by apply canon_empty in Hb.
    + intros o b o' b' x Hb. by apply canon_empty in Hb.
  - eapply Forall_impl; [exact Hall|]. by intros q [? _].
  - rewrite Hc. constructor.
Qed.

(** * An example: six pages, in blocks of four and of two *)

Definition demo_page (c : Z) : page := Page 0 c (-1) 0 0 0 0.

Definition demo_blocks : clients := <[0 := 2%nat]> (<[4 := 1%nat]> ∅).

Definition demo_boot : zone :=
  Zone 0 0 6 0 [0; 0; 0] (replicate MAX_ORDER (FreeArea [] 0)) [Pcp 0 0 6 1 []; Pcp 0 0 2 1 []] 0 0
    (list_to_map [(0, demo_page 0); (1, demo_page (-1)); (2, demo_page (-1)); (3, demo_page (-1));
                  (4, demo_page 0); (5, demo_page (-1))]) false.

(** After the first block has been freed. *)
Definition demo_zone : zone := match __free_pages 0 2 demo_boot with Some (_, z) => z | None => demo_boot end.
Definition demo_clients : clients := <[4 := 1%nat]> ∅.

Ltac demo_cases x Hx :=
  let H := fresh in
  assert (H : x = 0 \/ x = 1 \/ x = 2 \/ x = 3 \/ x = 4 \/ x = 5) by lia;
  destruct H as [-> | [-> | [-> | [-> | [-> | ->]]]]]; try lia.

Lemma demo_used p o : demo_blocks !! p = Some o -> (p = 0 /\ o = 2%nat) \/ (p = 4 /\ o = 1%nat).
Proof.
  unfold demo_blocks. rewrite lookup_insert_Some, lookup_insert_Some, lookup_empty. naive_solver.
Qed.

Lemma demo_block p o x : demo_blocks !! p = Some o -> in_block p o x -> p <= x < p + psize o /\ 0 <= x < 6.
Proof.
  intros [[-> ->]|[-> ->]]%demo_used Hx; apply (proj1 (block_iff _ _ _)) in Hx.
  - change (first 2 (0 / psize 2)) with 0 in Hx. change (psize 2) with 4 in *. lia.
  - change (first 1 (4 / psize 1)) with 4 in Hx. change (psize 1) with 2 in *. lia.
Qed.

Lemma demo_boot_ok : boot demo_boot demo_blocks.
Proof.
  split; try done.
  - intros x Hx. change (0 <= x < 0 + 6) in Hx.
    demo_cases x Hx; (eexists; split; [reflexivity|]; split; [done|]; by left).
  - split; [done|]. repeat constructor; done.
  - split.
    + intros p o [[-> ->]|[-> ->]]%demo_used; unfold top; split; done || lia.
    + intros p o x Hp Hx. destruct (demo_block p o x Hp Hx). split; [|set_solver]. change (0 <= x < 0 + 6). lia.
    + intros p o p' o' x Hp Hp' Hx Hx'. destruct (demo_block p o x Hp Hx), (demo_block p' o' x Hp' Hx').
      apply demo_used in Hp as [[-> ->]|[-> ->]], Hp' as [[-> ->]|[-> ->]]; try done;
        change (psize 2) with 4 in *; change (psize 1) with 2 in *; lia.
Qed.

Lemma demo_releasable : releasable false demo_boot 2 (0 / psize 2).
Proof.
  split; [|done]. intros x Hx. apply (proj1 (block_iff _ _ _)) in Hx. change (first 2 (0 / psize 2)) with 0 in Hx.
  change (psize 2) with 4 in Hx. demo_cases x Hx; (eexists; split; [reflexivity|]; repeat split; [by left|by repeat constructor|done..]).
Qed.

Lemma demo_zone_ok : exists F, pool demo_zone F demo_clients.
Proof.
  destruct (pool_free demo_boot ∅ demo_blocks (boot_pool _ _ demo_boot_ok) false 0 2 eq_refl demo_releasable)
    as (z' & F' & He & Hp & _). exists F'. unfold demo_zone. rewrite He.
  replace (delete 0 demo_blocks) with demo_clients in Hp by reflexivity. done.
Qed.

(** * Correctness *)

(** C9. From boot on, whatever sequence of allocations, failed allocations, uses by the
    clients, dropped references and frees happens: the kernel is never tainted by a bad
    page; the free lists hold exactly the largest aligned blocks of the free pages [F], each
    once and counted, and [free_pages] is the number of free pages; no page is lost and none
    is gained: each page that came with the boot blocks is a free page, on a list of the
    processor, or in an allocated block, and in only one of these; allocated blocks are
    aligned and do not overlap. *)
Theorem page_alloc_invariant z U z' U' :
  boot z U -> rtc step (z, U) (z', U') ->
  tainted z' = false /\ exists F,
    (forall o a, free_areas z' !! o = Some a -> NoDup (free_list a) /\ nr_free a = zlen (free_list a) /\
      forall p, p ∈ free_list a <-> exists b, p = first o b /\ canon F o b) /\
    free_pages z' = Z.of_nat (size F) /\
    (forall x, used_at U x <-> x ∈ F \/ x ∈ cached z' \/ used_at U' x) /\
    NoDup (cached z') /\ (forall x, x ∈ cached z' -> x ∉ F) /\
    (forall p o x, U' !! p = Some o -> in_block p o x -> p = first o (p / psize o) /\ (x ∉ F) /\ x ∉ cached z') /\
    (forall p o p' o' x, U' !! p = Some o -> U' !! p' = Some o' -> in_block p o x -> in_block p' o' x -> p = p').
Proof.
  intros Hb Hs. destruct (pool_steps _ _ ∅ Hs (boot_pool _ _ Hb)) as (F & [Hz Hu] & Hk). cbn [fst snd] in *.
  split; [apply Hz|]. exists F. destruct (ca_sys _ _ Hz) as [Hsys Hfree].
  split; [intros o a Ha; apply (bs_areas _ _ _ Hsys o a Ha)|]. split; [done|]. split; [|split; [|split; [|split]]].
  - intros x. specialize (Hk x). unfold known, mine in Hk. rewrite (boot_cached _ _ Hb) in Hk.
    rewrite !elem_of_union, !elem_of_pages, elem_of_nil in Hk. set_solver.
  - apply Hz.
  - intros x Hx. by apply (ca_cached _ _ Hz).
  - intros p o x Hp Hx. split; [by apply (us_order _ _ _ Hu)|]. destruct (us_out _ _ _ Hu p o x Hp Hx) as [_ Hn].
    unfold mine in Hn. rewrite elem_of_union, elem_of_pages in Hn. tauto.
  - apply Hu.
Qed.

Lemma demo_steps : rtc step (demo_boot, demo_blocks) (demo_zone, demo_clients).
Proof.
  eapply rtc_once. change demo_clients with (delete 0 demo_blocks).
  apply (step_free _ _ false 0 2); [done|exact demo_releasable|by vm_compute].
Qed.

Lemma page_alloc_invariant_witness : boot demo_boot demo_blocks /\ tainted demo_zone = false.
Proof.
  split; [exact demo_boot_ok|]. exact (proj1 (page_alloc_invariant _ _ _ _ demo_boot_ok demo_steps)).
Defined.

(** C10. [buffered_rmqueue] never stops at a [BUG_ON].  When it returns a page, that is the
    first page of an aligned block of the order that nobody had; the block now belongs to
    the caller, with one reference, as a compound page if that was asked for, and ready to
    be freed again.  It returns nothing exactly when the allocator is [exhausted] for the
    order: no free block is large enough and, for a single page, the list of the processor is
    empty.  The pages of the other clients are not touched. *)
Theorem page_alloc_correct z F U o gfp :
  pool z F U -> (o <= top)%nat -> gfp_ok gfp ->
  exists r z' F', buffered_rmqueue o gfp z = Some (r, z') /\ undisturbed z U z' /\
    match r with
    | Some p => U !! p = None /\ pool z' F' (<[p := o]> U) /\ (forall x, known z' F' (<[p := o]> U) x <-> known z F U x) /\
        p = first o (p / psize o) /\ releasable (wants_compound o gfp) z' o (p / psize o)
    | None => pool z' F' U /\ (forall x, known z' F' U x <-> known z F U x)
    end /\ (r = None <-> exhausted z F o (list_of gfp)).
Proof. intros Hp Ho Hg. by apply pool_alloc. Qed.

Lemma page_alloc_correct_witness :
  exists F p z', buffered_rmqueue 1 __GFP_COMP demo_zone = Some (Some p, z') /\ undisturbed demo_zone demo_clients z' /\
    ~ exhausted demo_zone F 1 (list_of __GFP_COMP).
Proof.
  destruct demo_zone_ok as (F & Hp). exists F.
  destruct (page_alloc_correct demo_zone F demo_clients 1 __GFP_COMP Hp) as (r & z' & _ & He & Hu & _ & Hiff);
    [unfold top; lia|done|].
  assert (Hr : exists p, r = Some p).
  { destruct r as [p|]; [by exists p|]. exfalso. vm_compute in He. discriminate He. }
  destruct Hr as [p ->]. exists p, z'. split; [exact He|]. split; [exact Hu|]. by intros Hx%Hiff.
Defined.

(** C11. [__free_pages] never stops at a [BUG_ON] and reports no bad page when a client frees
    a block that is ready for it, compound or not: the block returns to the allocator, where
    it is merged with its buddies as far as possible (for orders above 0 the free pages are
    the old ones and the block, and the lists hold the largest blocks of them).  A reference
    that is not the last is only counted.  The other clients' pages are not touched.  A free
    of a page that the allocator already has, in a free block or on a list of the processor,
    is caught by the [BUG_ON] of [put_page_testzero]. *)
Theorem page_free_correct z F U p o :
  pool z F U ->
  (forall comp, U !! p = Some o -> releasable comp z o (p / psize o) ->
    exists z' F', __free_pages p o z = Some (tt, z') /\ pool z' F' (delete p U) /\ undisturbed z (delete p U) z' /\
      (forall x, known z' F' (delete p U) x <-> known z F U x) /\ (o <> O -> F' = F ∪ block_set o (p / psize o))) /\
  (forall pg, U !! p = Some o -> mem_map z !! p = Some pg -> (flag PG_compound pg = true -> private pg = p) ->
    0 < _count pg ->
    __free_pages p o z = Some (tt, with_page p (set_count (_count pg - 1) pg) z) /\
    pool (with_page p (set_count (_count pg - 1) pg) z) F U) /\
  (p ∈ mine z F -> __free_pages p o z = None).
Proof.
  intros Hp. split; [|split].
  - intros comp HU Hr. by apply (pool_free z F U Hp comp p o HU Hr).
  - intros pg HU. by apply pool_put.
  - by apply (pool_double_free z F U Hp).
Qed.

Lemma page_free_correct_witness : (exists z', __free_pages 0 2 demo_boot = Some (tt, z')) /\ __free_pages 0 2 demo_zone = None.
Proof.
  pose proof (page_free_correct demo_boot ∅ demo_blocks 0 2 (boot_pool _ _ demo_boot_ok)) as (Hf & _ & _).
  destruct (Hf false eq_refl demo_releasable) as (z' & F' & He & Hp & _ & _ & HF).
  split; [exists z'; exact He|].
  assert (Hz : demo_zone = z') by (unfold demo_zone; rewrite He; reflexivity). rewrite Hz.
  apply (page_free_correct z' F' (delete 0 demo_blocks) 0 2 Hp).
  rewrite HF by done. unfold mine. apply elem_of_union_l, elem_of_union_r, elem_of_block. reflexivity.
Defined.

(** C40. [zone_watermark_ok] holds exactly if the zone keeps the reserve after the
    allocation and, for each order below the one that is wanted, the larger blocks alone
    keep a reserve that is halved with each order; this is so although the first comparison
    is unsigned and [free_pages] may be negative there.  When it holds, [__rmqueue] finds a
    block, and takes it from a smallest free block that is large enough. *)
Theorem page_watermark_correct z F U o mark ci fl reserve :
  pool z F U -> (o <= top)%nat -> 0 <= mark < 2^31 -> lowmem_reserve z !! ci = Some reserve -> 0 <= reserve <= 2^31 ->
  exists r, zone_watermark_ok o mark ci fl z = Some (r, z) /\
    (r = true <-> reserve_of mark fl + reserve + psize o <= Z.of_nat (size F) /\
      forall k, (k < o)%nat -> Z.shiftr (reserve_of mark fl) (Z.of_nat (S k)) + psize o <= above z k) /\
    (r = true -> exists h b z', __rmqueue o z = Some (Some (first h b), z') /\ (o <= h)%nat /\ canon F h b /\
      forall h' b', (o <= h' < h)%nat -> ~ canon F h' b').
Proof.
  intros [Hz _] Ho Hm Hres Hr. pose proof (ca_sys _ _ Hz) as Hsys.
  destruct (watermark_spec z F Hsys o mark ci fl reserve Ho Hm Hres Hr) as (r & He & Hiff). exists r. split; [done|].
  split; [done|]. intros ->. destruct (watermark_block z F o mark ci fl reserve Hsys Ho Hm Hres Hr He) as (b & Hf).
  destruct (rmqueue_spec z F o Hsys Ho) as (q & z' & Hq & Ht).
  destruct Ht as [h B z' Hh Hc Hmin _ _ _|Hno]; [|by destruct (Hno b)]. exists h, B, z'. done.
Qed.

Lemma page_watermark_correct_witness : exists r, zone_watermark_ok 1 2 0 0 demo_zone = Some (r, demo_zone).
Proof.
  destruct demo_zone_ok as (F & Hp).
  destruct (page_watermark_correct demo_zone F demo_clients 1 2 0 0 0 Hp) as (r & He & _); [unfold top; lia|lia|done|lia|].
  exists r. exact He.
Defined.
