(* ===== verification/Str.v ===== *)
(** Strings and memory areas: [lib/string.c], [lib/ctype.c] and [include/linux/ctype.h].

    Memory is a map from addresses to bytes, and an access to an address that is not mapped
    is [None].  [char] is a byte here; where its sign matters it is taken by [s8].  A loop
    that walks along a string gets the size of memory as its bound: it visits each address
    at most once.  [strcpy], [strncpy], [strcmp], [strncmp], [memset], [memcpy] and [memmove]
    are the portable versions, which the machine replaces by its own. *)
From Stdlib Require Import ZArith Lia.
From stdpp Require Import base numbers list list_numbers option gmap.
From S2P Require Import Prelude.

Local Open Scope Z_scope.
Local Open Scope kernel_scope.

Module Str.

Abbreviation mem := (gmap Z Z).

Definition NULL : Z := 0.

Definition store (m : mem) (p c : Z) : option mem :=
  match m !! p with Some _ => Some (<[p := u8 c]> m) | None => None end.

(** The bound of the walks along a string. *)
Definition walk (m : mem) : nat := S (size m).

(** A [signed char]. *)
Definition s8 (x : Z) : Z := (x + 2^7) `mod` 2^8 - 2^7.

(** * Character classes *)

Definition _U : Z := 0x01.
Definition _L : Z := 0x02.
Definition _D : Z := 0x04.
Definition _C : Z := 0x08.
Definition _P : Z := 0x10.
Definition _S : Z := 0x20.
Definition _X : Z := 0x40.
Definition _SP : Z := 0x80.

Definition _ctype : list Z :=
  replicate 9 _C ++ replicate 5 (_C |u _S) ++ replicate 18 _C ++
  [_S |u _SP] ++ replicate 15 _P ++ replicate 10 _D ++ replicate 7 _P ++
  replicate 6 (_U |u _X) ++ replicate 20 _U ++ replicate 6 _P ++
  replicate 6 (_L |u _X) ++ replicate 20 _L ++ replicate 4 _P ++ [_C] ++
  replicate 32 0 ++ [_S |u _SP] ++ replicate 31 _P ++
  replicate 23 _U ++ [_P] ++ replicate 7 _U ++ replicate 24 _L ++ [_P] ++ replicate 8 _L.

Definition __ismask (c : Z) : Z := nth (Z.to_nat (u8 c)) _ctype 0.
Definition isdigit (c : Z) : bool := bool_decide ((__ismask c &u _D) <> 0).
Definition islower (c : Z) : bool := bool_decide ((__ismask c &u _L) <> 0).
Definition isupper (c : Z) : bool := bool_decide ((__ismask c &u _U) <> 0).
Definition isspace (c : Z) : bool := bool_decide ((__ismask c &u _S) <> 0).
Definition isxdigit (c : Z) : bool := bool_decide ((__ismask c &u (_D |u _X)) <> 0).

Definition tolower (c : Z) : Z := if isupper c then u8 (c - (65 - 97)) else u8 c.
Definition toupper (c : Z) : Z := if islower c then u8 (c - (97 - 65)) else u8 c.

(** * Memory areas *)

Fixpoint memset_loop (count : nat) (m : mem) (xs c : Z) : option mem :=
  match count with
  | O => Some m
  | S count => m ← store m xs c; memset_loop count m (xs + 1) c
  end.
Definition memset (m : mem) (s c count : Z) : option mem := memset_loop (Z.to_nat count) m s c.

Fixpoint memcpy_loop (count : nat) (m : mem) (tmp s : Z) : option mem :=
  match count with
  | O => Some m
  | S count => c ← m !! s; m ← store m tmp c; memcpy_loop count m (tmp + 1) (s + 1)
  end.
Definition memcpy (m : mem) (dest src count : Z) : option mem := memcpy_loop (Z.to_nat count) m dest src.

(** The copy from the end. *)
Fixpoint memmove_loop (count : nat) (m : mem) (tmp s : Z) : option mem :=
  match count with
  | O => Some m
  | S count => c ← m !! (s - 1); m ← store m (tmp - 1) c; memmove_loop count m (tmp - 1) (s - 1)
  end.
Definition memmove (m : mem) (dest src count : Z) : option mem :=
  if decide (dest <= src) then memcpy_loop (Z.to_nat count) m dest src
  else memmove_loop (Z.to_nat count) m (dest + count) (src + count).

Fixpoint memcmp_loop (count : nat) (m : mem) (su1 su2 : Z) : option Z :=
  match count with
  | O => Some 0
  | S count =>
    a ← m !! su1;
    b ← m !! su2;
    let res := a - b in
    if decide (res <> 0) then Some res else memcmp_loop count m (su1 + 1) (su2 + 1)
  end.
Definition memcmp (m : mem) (cs ct count : Z) : option Z := memcmp_loop (Z.to_nat count) m cs ct.

Fixpoint memscan_loop (size : nat) (m : mem) (p c : Z) : option Z :=
  match size with
  | O => Some p
  | S size => x ← m !! p; if decide (x = c) then Some p else memscan_loop size m (p + 1) c
  end.
Definition memscan (m : mem) (addr c size : Z) : option Z := memscan_loop (Z.to_nat size) m addr c.

Fixpoint memchr_loop (n : nat) (m : mem) (p c : Z) : option Z :=
  match n with
  | O => Some NULL
  | S n => x ← m !! p; if decide (u8 c = x) then Some (p + 1 - 1) else memchr_loop n m (p + 1) c
  end.
Definition memchr (m : mem) (s c n : Z) : option Z := memchr_loop (Z.to_nat n) m s c.

(** * Lengths *)

Fixpoint strlen_loop (fuel : nat) (m : mem) (sc : Z) : option Z :=
  match fuel with
  | O => None
  | S fuel => c ← m !! sc; if decide (c = 0) then Some sc else strlen_loop fuel m (sc + 1)
  end.
Definition strlen (m : mem) (s : Z) : option Z := sc ← strlen_loop (walk m) m s; Some (sc - s).

Fixpoint strnlen_loop (fuel : nat) (m : mem) (sc count : Z) : option Z :=
  match fuel with
  | O => None
  | S fuel =>
    if decide (count = 0) then Some sc else
    c ← m !! sc;
    if decide (c = 0) then Some sc else strnlen_loop fuel m (sc + 1) (count - 1)
  end.
Definition strnlen (m : mem) (s count : Z) : option Z := sc ← strnlen_loop (walk m) m s count; Some (sc - s).

(** * Copies *)

Fixpoint strcpy_loop (fuel : nat) (m : mem) (dest src : Z) : option mem :=
  match fuel with
  | O => None
  | S fuel =>
    c ← m !! src;
    m ← store m dest c;
    if decide (c = 0) then Some m else strcpy_loop fuel m (dest + 1) (src + 1)
  end.
Definition strcpy (m : mem) (dest src : Z) : option mem := strcpy_loop (walk m) m dest src.

Fixpoint strncpy_loop (count : nat) (m : mem) (tmp src : Z) : option mem :=
  match count with
  | O => Some m
  | S count =>
    c ← m !! src;
    m ← store m tmp c;
    strncpy_loop count m (tmp + 1) (if decide (c <> 0) then src + 1 else src)
  end.
Definition strncpy (m : mem) (dest src count : Z) : option mem := strncpy_loop (Z.to_nat count) m dest src.

Definition strlcpy (m : mem) (dest src size : Z) : option (Z * mem) :=
  ret ← strlen m src;
  if decide (size <> 0) then
    let len := if decide (size <= ret) then size - 1 else ret in
    m ← memcpy m dest src len;
    m ← store m (dest + len) 0;
    Some (ret, m)
  else Some (ret, m).

(** [while ( *dest ) dest++;] is the loop of [strlen]. *)
Definition strcat (m : mem) (dest src : Z) : option mem :=
  d ← strlen_loop (walk m) m dest;
  strcpy_loop (walk m) m d src.

Fixpoint strncat_loop (fuel : nat) (m : mem) (dest src count : Z) : option mem :=
  match fuel with
  | O => None
  | S fuel =>
    c ← m !! src;
    m ← store m dest c;
    if decide (c = 0) then Some m else
    if decide (count - 1 = 0) then store m (dest + 1) 0
    else strncat_loop fuel m (dest + 1) (src + 1) (count - 1)
  end.
Definition strncat (m : mem) (dest src count : Z) : option mem :=
  if decide (count <> 0) then
    d ← strlen_loop (walk m) m dest;
    strncat_loop (walk m) m d src count
  else Some m.

Definition strlcat (m : mem) (dest src count : Z) : option (Z * mem) :=
  dsize ← strlen m dest;
  len ← strlen m src;
  let res := dsize +u len in
  if decide (count <= dsize) then None else
  let dest := dest + dsize in
  let count := count - dsize in
  let len := if decide (count <= len) then count - 1 else len in
  m ← memcpy m dest src len;
  m ← store m (dest + len) 0;
  Some (res, m).

(** * Comparisons *)

Fixpoint strcmp_loop (fuel : nat) (m : mem) (cs ct : Z) : option Z :=
  match fuel with
  | O => None
  | S fuel =>
    a ← m !! cs;
    b ← m !! ct;
    let __res := s8 (s8 a - s8 b) in
    if decide (__res <> 0) then Some __res else
    if decide (a = 0) then Some __res else strcmp_loop fuel m (cs + 1) (ct + 1)
  end.
Definition strcmp (m : mem) (cs ct : Z) : option Z := strcmp_loop (walk m) m cs ct.

Fixpoint strncmp_loop (count : nat) (m : mem) (cs ct __res : Z) : option Z :=
  match count with
  | O => Some __res
  | S count =>
    a ← m !! cs;
    b ← m !! ct;
    let __res := s8 (s8 a - s8 b) in
    if decide (__res <> 0) then Some __res else
    if decide (a = 0) then Some __res else strncmp_loop count m (cs + 1) (ct + 1) __res
  end.
Definition strncmp (m : mem) (cs ct count : Z) : option Z := strncmp_loop (Z.to_nat count) m cs ct 0.

(** [len] is not zero; the [continue] of the source goes to the test of [--len]. *)
Fixpoint strnicmp_loop (len : nat) (m : mem) (s1 s2 c1 c2 : Z) : option Z :=
  match len with
  | O => Some (c1 - c2)
  | S len =>
    c1 ← m !! s1;
    c2 ← m !! s2;
    if decide (c1 = 0) then Some (c1 - c2) else
    if decide (c2 = 0) then Some (c1 - c2) else
    if decide (c1 = c2) then strnicmp_loop len m (s1 + 1) (s2 + 1) c1 c2 else
    let c1 := tolower c1 in
    let c2 := tolower c2 in
    if decide (c1 <> c2) then Some (c1 - c2) else strnicmp_loop len m (s1 + 1) (s2 + 1) c1 c2
  end.
Definition strnicmp (m : mem) (s1 s2 len : Z) : option Z := strnicmp_loop (Z.to_nat len) m s1 s2 0 0.

(** * Searches *)

Fixpoint strchr_loop (fuel : nat) (m : mem) (s c : Z) : option Z :=
  match fuel with
  | O => None
  | S fuel =>
    x ← m !! s;
    if decide (x <> u8 c) then
      if decide (x = 0) then Some NULL else strchr_loop fuel m (s + 1) c
    else Some s
  end.
Definition strchr (m : mem) (s c : Z) : option Z := strchr_loop (walk m) m s c.

Fixpoint strrchr_loop (n : nat) (m : mem) (p c : Z) : option Z :=
  match n with
  | O => Some NULL
  | S n => x ← m !! p; if decide (x = u8 c) then Some p else strrchr_loop n m (p - 1) c
  end.
Definition strrchr (m : mem) (s c : Z) : option Z :=
  len ← strlen m s;
  strrchr_loop (S (Z.to_nat len)) m (s + len) c.

Fixpoint strnchr_loop (fuel : nat) (m : mem) (s count c : Z) : option Z :=
  match fuel with
  | O => None
  | S fuel =>
    if decide (count = 0) then Some NULL else
    x ← m !! s;
    if decide (x = 0) then Some NULL else
    if decide (x = u8 c) then Some s else strnchr_loop fuel m (s + 1) (count - 1) c
  end.
Definition strnchr (m : mem) (s count c : Z) : option Z := strnchr_loop (walk m) m s count c.

(** The inner loops of [strspn], [strcspn] and [strpbrk]: whether the character is in the string. *)
Fixpoint in_string (fuel : nat) (m : mem) (c a : Z) : option bool :=
  match fuel with
  | O => None
  | S fuel =>
    x ← m !! a;
    if decide (x = 0) then Some false else
    if decide (c = x) then Some true else in_string fuel m c (a + 1)
  end.

Fixpoint strspn_loop (fuel : nat) (m : mem) (p accept count : Z) : option Z :=
  match fuel with
  | O => None
  | S fuel =>
    c ← m !! p;
    if decide (c = 0) then Some count else
    b ← in_string (walk m) m c accept;
    if negb b then Some count else strspn_loop fuel m (p + 1) accept (count + 1)
  end.
Definition strspn (m : mem) (s accept : Z) : option Z := strspn_loop (walk m) m s accept 0.

Fixpoint strcspn_loop (fuel : nat) (m : mem) (p reject count : Z) : option Z :=
  match fuel with
  | O => None
  | S fuel =>
    c ← m !! p;
    if decide (c = 0) then Some count else
    b ← in_string (walk m) m c reject;
    if b : bool then Some count else strcspn_loop fuel m (p + 1) reject (count + 1)
  end.
Definition strcspn (m : mem) (s reject : Z) : option Z := strcspn_loop (walk m) m s reject 0.

Fixpoint strpbrk_loop (fuel : nat) (m : mem) (sc1 ct : Z) : option Z :=
  match fuel with
  | O => None
  | S fuel =>
    c ← m !! sc1;
    if decide (c = 0) then Some NULL else
    b ← in_string (walk m) m c ct;
    if b : bool then Some sc1 else strpbrk_loop fuel m (sc1 + 1) ct
  end.
Definition strpbrk (m : mem) (cs ct : Z) : option Z := strpbrk_loop (walk m) m cs ct.

(** What is returned, the new value of [*s], and memory. *)
Definition strsep (m : mem) (s ct : Z) : option (Z * Z * mem) :=
  if decide (s = NULL) then Some (NULL, s, m) else
  end_ ← strpbrk m s ct;
  if decide (end_ <> NULL) then m ← store m end_ 0; Some (s, end_ + 1, m)
  else Some (s, end_, m).

(** [l1] counts down to [l2]: [n] is the number of places that are left. *)
Fixpoint strstr_loop (n : nat) (m : mem) (s1 s2 l2 : Z) : option Z :=
  match n with
  | O => Some NULL
  | S n =>
    r ← memcmp m s1 s2 l2;
    if decide (r = 0) then Some s1 else strstr_loop n m (s1 + 1) s2 l2
  end.
Definition strstr (m : mem) (s1 s2 : Z) : option Z :=
  l2 ← strlen m s2;
  if decide (l2 = 0) then Some s1 else
  l1 ← strlen m s1;
  strstr_loop (Z.to_nat (l1 - l2 + 1)) m s1 s2 l2.

End Str.
