(* ===== verification/StrMem.v ===== *)
(** Strings and arrays in memory, and the copies between them. *)
From Stdlib Require Import ZArith Lia.
From stdpp Require Import base numbers list list_numbers option gmap.
From S2P Require Import Prelude Str.

Local Open Scope Z_scope.
Local Open Scope kernel_scope.

Import Str.

(** * What is in memory *)

(** The bytes [l] are at [p]. *)
Fixpoint arr (m : mem) (p : Z) (l : list Z) : Prop :=
  match l with
  | [] => True
  | c :: l => m !! p = Some c /\ is_u8 c /\ arr m (p + 1) l
  end.

(** The string [s], without its terminator, is at [p]. *)
Fixpoint cstr (m : mem) (p : Z) (s : list Z) : Prop :=
  match s with
  | [] => m !! p = Some 0
  | c :: s => m !! p = Some c /\ 0 < c < 2^8 /\ cstr m (p + 1) s
  end.

(** The [n] bytes from [p] on can be written. *)
Definition mapped (m : mem) (p n : Z) : Prop := forall a, p <= a < p + n -> is_Some (m !! a).

(** Memory after the bytes [l] have been written to [p]. *)
Fixpoint writes (m : mem) (p : Z) (l : list Z) : mem :=
  match l with
  | [] => m
  | c :: l => writes (<[p := c]> m) (p + 1) l
  end.

Lemma zlen_app {A} (l l' : list A) : zlen (l ++ l') = zlen l + zlen l'.
Proof. unfold zlen. rewrite length_app. lia. Qed.
Lemma zlen_nil {A} : zlen (@nil A) = 0.
Proof. done. Qed.

Lemma zlen_take n (s : list Z) : 0 <= n -> zlen (take (Z.to_nat n) s) = Z.min n (zlen s).
Proof. intros Hn. unfold zlen. rewrite length_take. lia. Qed.
Lemma zlen_reverse {A} (l : list A) : zlen (reverse l) = zlen l.
Proof. unfold zlen. by rewrite length_reverse. Qed.

Lemma zlen_prefix {A} (l l' : list A) n : zlen (l ++ l') <= n -> zlen l <= n.
Proof. rewrite zlen_app. pose proof (zlen_nonneg l'). lia. Qed.

Lemma lookup_writes m p l a :
  writes m p l !! a = if decide (p <= a < p + zlen l) then l !! Z.to_nat (a - p) else m !! a.
Proof.
  revert m p. induction l as [|c l IH]; intros m p; cbn [writes].
  { rewrite zlen_nil. rewrite decide_False by lia. done. }
  rewrite IH, zlen_cons. pose proof (zlen_nonneg l). destruct (decide (a = p)) as [->|Hne].
  - rewrite decide_False, decide_True, Z.sub_diag by lia. apply lookup_insert_eq.
  - rewrite lookup_insert_ne by congruence. destruct (decide (p + 1 <= a < p + 1 + zlen l)) as [Hin|Hout].
    + rewrite decide_True by lia. replace (Z.to_nat (a - p)) with (S (Z.to_nat (a - (p + 1)))) by lia. done.
    + by rewrite decide_False by lia.
Qed.

Lemma writes_out m p l a : a < p \/ p + zlen l <= a -> writes m p l !! a = m !! a.
Proof. intros H. rewrite lookup_writes. by rewrite decide_False by lia. Qed.

Lemma writes_app m p l l' : writes m p (l ++ l') = writes (writes m p l) (p + zlen l) l'.
Proof.
  revert m p. induction l as [|c l IH]; intros m p; cbn [app writes]; [by rewrite zlen_nil, Z.add_0_r|].
  rewrite IH, zlen_cons. f_equal. lia.
Qed.

(** The last byte may as well be written first. *)
Lemma writes_snoc m p l c : writes m p (l ++ [c]) = writes (<[p + zlen l := c]> m) p l.
Proof.
  rewrite writes_app. apply map_eq. intros a. cbn [writes]. destruct (decide (a = p + zlen l)) as [->|Hne].
  - rewrite lookup_insert_eq, writes_out, lookup_insert_eq by lia. done.
  - rewrite lookup_insert_ne, !lookup_writes by congruence. case_decide; [done|]. by rewrite lookup_insert_ne by congruence.
Qed.

Lemma mapped_insert m p n q c : mapped m p n -> mapped (<[q := c]> m) p n.
Proof. intros Hm a Ha. destruct (decide (a = q)) as [->|?]; [by rewrite lookup_insert_eq|]. rewrite lookup_insert_ne by congruence. by apply Hm. Qed.

Lemma mapped_writes m p n q l : mapped m p n -> mapped (writes m q l) p n.
Proof. revert m q. induction l as [|c l IH]; intros m q Hm; [done|]. cbn [writes]. by apply IH, mapped_insert. Qed.

Lemma mapped_sub m p n q k : mapped m p n -> p <= q -> q + k <= p + n -> mapped m q k.
Proof. intros Hm Hq Hk a Ha. apply Hm. lia. Qed.

(** * Arrays and strings *)

Lemma arr_lookup m p l i c : arr m p l -> l !! i = Some c -> m !! (p + Z.of_nat i) = Some c /\ is_u8 c.
Proof.
  revert p i. induction l as [|x l IH]; intros p i Ha Hi; [done|]. destruct Ha as (Hx & Hu & Ha). destruct i as [|i].
  - injection Hi as ->. by rewrite Z.add_0_r.
  - replace (p + Z.of_nat (S i)) with (p + 1 + Z.of_nat i) by lia. by apply IH.
Qed.

Lemma arr_same m m' p l : arr m p l -> (forall a, p <= a < p + zlen l -> m' !! a = m !! a) -> arr m' p l.
Proof.
  revert p. induction l as [|c l IH]; intros p Ha Hs; [done|]. destruct Ha as (Hc & Hu & Ha).
  rewrite zlen_cons in Hs. pose proof (zlen_nonneg l). split; [rewrite Hs by lia; done|]. split; [done|].
  apply IH; [done|]. intros a Hr. apply Hs. lia.
Qed.

Lemma arr_writes m p l : Forall is_u8 l -> arr (writes m p l) p l.
Proof.
  intros Hl. revert m p. induction Hl as [|c l Hc Hl IH]; intros m p; [done|]. cbn [writes arr].
  split; [|split; [done|apply IH]]. rewrite writes_out by lia. apply lookup_insert_eq.
Qed.

Lemma arr_app m p l l' : arr m p (l ++ l') <-> arr m p l /\ arr m (p + zlen l) l'.
Proof.
  revert p. induction l as [|c l IH]; intros p; cbn [app arr]; [by rewrite zlen_nil, Z.add_0_r; intuition|].
  rewrite IH, zlen_cons. replace (p + 1 + zlen l) with (p + (zlen l + 1)) by lia. tauto.
Qed.

Lemma arr_bytes m p l : arr m p l -> Forall is_u8 l.
Proof. revert p. induction l as [|c l IH]; intros p; [constructor|]. intros (_ & ? & ?). constructor; [done|by eapply IH]. Qed.

Lemma cstr_arr m p s : cstr m p s <-> arr m p (s ++ [0]) /\ Forall (fun c => c <> 0) s.
Proof.
  revert p. induction s as [|c s IH]; intros p; cbn [app arr cstr].
  { unfold is_u8. rewrite Forall_nil. intuition lia. }
  rewrite IH, Forall_cons. unfold is_u8. intuition lia.
Qed.

Lemma cstr_same m m' p s : cstr m p s -> (forall a, p <= a <= p + zlen s -> m' !! a = m !! a) -> cstr m' p s.
Proof.
  rewrite !cstr_arr. intros [Ha Hn] Hs. split; [|done]. eapply arr_same; [done|]. intros a. rewrite zlen_app, zlen_cons, zlen_nil.
  intros Hr. apply Hs. lia.
Qed.

Lemma cstr_char m p s i c : cstr m p s -> s !! i = Some c -> m !! (p + Z.of_nat i) = Some c /\ 0 < c < 2^8.
Proof.
  revert p i. induction s as [|x s IH]; intros p i Hs Hi; [done|]. destruct Hs as (Hx & Hr & Hs). destruct i as [|i].
  - injection Hi as ->. by rewrite Z.add_0_r.
  - replace (p + Z.of_nat (S i)) with (p + 1 + Z.of_nat i) by lia. by apply IH.
Qed.

Lemma cstr_mapped m p s : cstr m p s -> mapped m p (zlen s + 1).
Proof.
  revert p. induction s as [|c s IH]; intros p Hs a Ha.
  - rewrite zlen_nil in Ha. replace a with p by lia. by eexists.
  - destruct Hs as (Hc & _ & Hs). destruct (decide (a = p)) as [->|?]; [by eexists|].
    apply (IH (p + 1) Hs). rewrite zlen_cons in Ha. lia.
Qed.

(** A region of memory is no larger than memory. *)
Lemma mapped_size m p n : mapped m p n -> n <= Z.of_nat (size m).
Proof.
  intros Hm. destruct (decide (n <= 0)) as [?|Hpos]; [lia|]. rewrite <- size_dom.
  assert (Hs : list_to_set (seqZ p n) ⊆ dom m).
  { intros a Ha. rewrite elem_of_list_to_set, elem_of_seqZ in Ha. by apply elem_of_dom, Hm. }
  apply subseteq_size in Hs. rewrite size_list_to_set, length_seqZ in Hs by apply NoDup_seqZ. lia.
Qed.

(** The bound of a walk along a string is enough. *)
Lemma cstr_walk m p s : cstr m p s -> (length s < walk m)%nat.
Proof. intros Hs. apply cstr_mapped, mapped_size in Hs. unfold walk, zlen in *. lia. Qed.

Lemma walk_store m p c : is_Some (m !! p) -> walk (<[p := c]> m) = walk m.
Proof. intros [x Hx]. unfold walk. by rewrite map_size_insert_Some. Qed.

(** * Stores *)

Lemma store_eq m p c : is_Some (m !! p) -> is_u8 c -> store m p c = Some (<[p := c]> m).
Proof. intros [x Hx] Hc. unfold store. by rewrite Hx, u8_small. Qed.

Lemma mapped_head m p n : mapped m p n -> 0 < n -> is_Some (m !! p).
Proof. intros Hm Hn. apply Hm. lia. Qed.

Lemma memset_spec n m p c : mapped m p (Z.of_nat n) -> memset_loop n m p c = Some (writes m p (replicate n (u8 c))).
Proof.
  revert m p. induction n as [|n IH]; intros m p Hm; [done|]. cbn [memset_loop replicate writes].
  assert (Hst : store m p c = Some (<[p := u8 c]> m)).
  { unfold store. destruct (mapped_head m p _ Hm ltac:(lia)) as [x ->]. done. }
  rewrite Hst. cbn [mbind option_bind]. apply IH, mapped_insert. eapply mapped_sub; [done|lia|lia].
Qed.

(** Copying upwards is right when the target does not start inside the rest of the source. *)
Lemma copy_up m dest src l :
  arr m src l -> mapped m dest (zlen l) -> dest <= src \/ src + zlen l <= dest ->
  memcpy_loop (length l) m dest src = Some (writes m dest l).
Proof.
  revert m dest src. induction l as [|c l IH]; intros m dest src Ha Hm Hd; [done|]. destruct Ha as (Hc & Hu & Ha).
  rewrite zlen_cons in *. pose proof (zlen_nonneg l). cbn [length memcpy_loop writes]. rewrite Hc. cbn [mbind option_bind].
  rewrite store_eq by (done || apply Hm; lia). cbn [mbind option_bind]. apply IH.
  - eapply arr_same; [done|]. intros a Hr. apply lookup_insert_ne. lia.
  - apply mapped_insert. eapply mapped_sub; [done|lia|lia].
  - lia.
Qed.

Lemma copy_down m dest src l :
  arr m src l -> mapped m dest (zlen l) -> src <= dest ->
  memmove_loop (length l) m (dest + zlen l) (src + zlen l) = Some (writes m dest l).
Proof.
  revert m. induction l as [|c l IH] using rev_ind; intros m Ha Hm Hd; [done|].
  rewrite arr_app in Ha. destruct Ha as [Ha (Hc & Hu & _)]. rewrite zlen_app, zlen_cons, zlen_nil, writes_snoc in *.
  pose proof (zlen_nonneg l). rewrite length_app, Nat.add_1_r. cbn [memmove_loop].
  replace (src + (zlen l + (0 + 1)) - 1) with (src + zlen l) by lia. rewrite Hc. cbn [mbind option_bind].
  replace (dest + (zlen l + (0 + 1)) - 1) with (dest + zlen l) by lia. rewrite store_eq by (done || apply Hm; lia).
  cbn [mbind option_bind]. apply IH; [|apply mapped_insert; eapply mapped_sub; [done|lia|lia]|done].
  eapply arr_same; [done|]. intros a Hr. apply lookup_insert_ne. lia.
Qed.

Lemma memcpy_spec m dest src l :
  arr m src l -> mapped m dest (zlen l) -> dest <= src \/ src + zlen l <= dest ->
  memcpy m dest src (zlen l) = Some (writes m dest l).
Proof. intros. unfold memcpy. replace (Z.to_nat (zlen l)) with (length l) by (unfold zlen; lia). by apply copy_up. Qed.

(** [memmove] copies any areas. *)
Lemma memmove_spec m dest src l :
  arr m src l -> mapped m dest (zlen l) -> memmove m dest src (zlen l) = Some (writes m dest l).
Proof.
  intros Ha Hm. unfold memmove. replace (Z.to_nat (zlen l)) with (length l) by (unfold zlen; lia).
  case_decide; [apply copy_up; auto|apply copy_down; auto; lia].
Qed.
