(* ===== verification/StrSpec.v ===== *)
(** The string functions and their reference definitions on lists of characters. *)
From Stdlib Require Import ZArith Lia.
From stdpp Require Import base numbers list list_numbers option gmap.
From S2P Require Import Prelude Str StrMem.

Local Open Scope Z_scope.
Local Open Scope kernel_scope.

Import Str.

Ltac ob := cbn [mbind option_bind].

(** * Lengths *)

Lemma strlen_loop_spec m p s fuel : cstr m p s -> (length s < fuel)%nat -> strlen_loop fuel m p = Some (p + zlen s).
Proof.
  revert p fuel. induction s as [|c s IH]; intros p fuel Hs Hf; (destruct fuel as [|fuel]; [lia|]); cbn [strlen_loop].
  - cbn [cstr] in Hs. rewrite Hs. ob. rewrite decide_True by done. f_equal. rewrite zlen_nil. lia.
  - destruct Hs as (Hc & Hr & Hs). rewrite Hc. ob. rewrite decide_False by lia. cbn [length] in Hf.
    rewrite IH by (done || lia). rewrite zlen_cons. f_equal. lia.
Qed.

Lemma strlen_spec m p s : cstr m p s -> strlen m p = Some (zlen s).
Proof.
  intros Hs. unfold strlen. rewrite (strlen_loop_spec m p s) by (done || by eapply cstr_walk). ob. f_equal. lia.
Qed.

Lemma strnlen_loop_spec m p s count fuel :
  cstr m p s -> 0 <= count -> (length s < fuel)%nat -> strnlen_loop fuel m p count = Some (p + Z.min count (zlen s)).
Proof.
  revert p count fuel. induction s as [|c s IH]; intros p count fuel Hs Hc Hf; (destruct fuel as [|fuel]; [lia|]);
    cbn [strnlen_loop].
  all: case_decide as H0; [f_equal; match goal with |- context [zlen ?l] => pose proof (zlen_nonneg l) end; lia|].
  - cbn [cstr] in Hs. rewrite Hs. ob. rewrite decide_True by done. f_equal. rewrite zlen_nil. lia.
  - destruct Hs as (Hx & Hr & Hs). rewrite Hx. ob. rewrite decide_False by lia. cbn [length] in Hf.
    rewrite IH by (done || lia). rewrite zlen_cons. f_equal. lia.
Qed.

Lemma strnlen_spec m p s count : cstr m p s -> 0 <= count -> strnlen m p count = Some (Z.min count (zlen s)).
Proof.
  intros Hs Hc. unfold strnlen. rewrite (strnlen_loop_spec m p s) by (done || by eapply cstr_walk). ob. f_equal. lia.
Qed.

(** * Searches *)

(** The place of the first element with the property. *)
Fixpoint index (P : Z -> bool) (l : list Z) : option Z :=
  match l with
  | [] => None
  | c :: l => if P c then Some 0 else (fun i => i + 1) <$> index P l
  end.

(** The place of the last one. *)
Fixpoint rindex (P : Z -> bool) (l : list Z) : option Z :=
  match l with
  | [] => None
  | c :: l => match rindex P l with Some i => Some (i + 1) | None => if P c then Some 0 else None end
  end.

(** How many elements at the start have the property. *)
Fixpoint span (P : Z -> bool) (l : list Z) : Z :=
  match l with
  | [] => 0
  | c :: l => if P c then span P l + 1 else 0
  end.

Definition ptr (p : Z) (i : option Z) : Z := match i with Some i => p + i | None => NULL end.

Definition eqc (c : Z) : Z -> bool := fun x => bool_decide (x = c).
Definition isin (s : list Z) : Z -> bool := fun x => bool_decide (x ∈ s).

Lemma ptr_S p (i : option Z) : ptr (p + 1) i = ptr p ((fun i => i + 1) <$> i).
Proof. destruct i; cbn; lia. Qed.

(** The characterisation of the references. *)
Lemma index_Some P l i :
  index P l = Some i <-> 0 <= i /\ (exists c, l !! Z.to_nat i = Some c /\ P c = true) /\
    forall j c, (j < Z.to_nat i)%nat -> l !! j = Some c -> P c = false.
Proof.
  revert i. induction l as [|c l IH]; intros i; cbn [index].
  { split; [done|]. intros (_ & (c & Hc & _) & _). done. }
  destruct (P c) eqn:Hc.
  - split.
    + intros [= <-]. split; [lia|]. split; [by exists c|]. intros j x Hj. cbn in Hj. lia.
    + intros (Hi & _ & Hall). destruct (decide (i = 0)) as [->|Hne]; [done|]. exfalso.
      specialize (Hall O c ltac:(lia) eq_refl). congruence.
  - split.
    + intros (k & (Hk & (x & Hx & Hpx) & Hall)%IH & ->)%fmap_Some. split; [lia|].
      replace (Z.to_nat (k + 1)) with (S (Z.to_nat k)) by lia. split; [by exists x|].
      intros [|j] y Hj Hy; [by injection Hy as ->|]. apply (Hall j); [lia|done].
    + intros (Hi & (x & Hx & Hpx) & Hall). destruct (decide (i = 0)) as [->|Hne].
      { injection Hx as ->. congruence. }
      apply fmap_Some. exists (i - 1). split; [|lia]. apply IH.
      replace (Z.to_nat i) with (S (Z.to_nat (i - 1))) in * by lia. split; [lia|]. split; [by exists x|].
      intros j y Hj. apply (Hall (S j)). lia.
Qed.

Lemma strchr_loop_spec m p s c fuel :
  cstr m p s -> (length s < fuel)%nat -> strchr_loop fuel m p c = Some (ptr p (index (eqc (u8 c)) (s ++ [0]))).
Proof.
  revert p fuel. induction s as [|x s IH]; intros p fuel Hs Hf; (destruct fuel as [|fuel]; [lia|]);
    cbn [strchr_loop app index]; unfold eqc at 1.
  - cbn [cstr] in Hs. rewrite Hs. ob. case_decide as Hd.
    + rewrite bool_decide_eq_false_2 by done. done.
    + rewrite bool_decide_eq_true_2 by lia. cbn. f_equal. lia.
  - destruct Hs as (Hx & Hr & Hs). rewrite Hx. ob. cbn [length] in Hf. case_decide as Hd.
    + rewrite bool_decide_eq_false_2, decide_False by (done || lia). rewrite IH by (done || lia). by rewrite ptr_S.
    + rewrite bool_decide_eq_true_2 by lia. cbn. f_equal. lia.
Qed.

Lemma strrchr_loop_spec m p l c :
  arr m p l -> strrchr_loop (length l) m (p + zlen l - 1) c = Some (ptr p (rindex (eqc (u8 c)) l)).
Proof.
  assert (Hsnoc : forall P l x, rindex P (l ++ [x]) = if P x then Some (zlen l) else rindex P l).
  { intros P l' x. induction l' as [|y l' IH]; cbn [app rindex]; [done|]. rewrite IH. destruct (P x) eqn:Hx; [|done].
    by rewrite zlen_cons. }
  induction l as [|x l IH] using rev_ind; [done|]. rewrite arr_app. intros [Ha (Hx & _ & _)].
  rewrite length_app, Nat.add_1_r, zlen_app, zlen_cons, zlen_nil, Hsnoc. cbn [strrchr_loop].
  replace (p + (zlen l + (0 + 1)) - 1) with (p + zlen l) by lia. rewrite Hx. ob. unfold eqc at 1.
  case_decide as Hd; [by rewrite bool_decide_eq_true_2|]. rewrite bool_decide_eq_false_2 by done. by apply IH.
Qed.

Lemma strnchr_loop_spec m p s count c fuel :
  cstr m p s -> 0 <= count -> (length s < fuel)%nat ->
  strnchr_loop fuel m p count c = Some (ptr p (index (eqc (u8 c)) (take (Z.to_nat count) s))).
Proof.
  revert p count fuel. induction s as [|x s IH]; intros p count fuel Hs Hc Hf; (destruct fuel as [|fuel]; [lia|]);
    cbn [strnchr_loop]; (case_decide as H0; [subst count; done|]).
  - cbn [cstr] in Hs. rewrite Hs, take_nil. done.
  - destruct Hs as (Hx & Hr & Hs). rewrite Hx. ob. cbn [length] in Hf. rewrite decide_False by lia.
    replace (Z.to_nat count) with (S (Z.to_nat (count - 1))) by lia. cbn [firstn index]. unfold eqc at 1.
    case_decide as Hd; [rewrite bool_decide_eq_true_2 by done; cbn; f_equal; lia|].
    rewrite bool_decide_eq_false_2 by done. rewrite IH by (done || lia). by rewrite ptr_S.
Qed.

Lemma in_string_spec m c p s fuel :
  cstr m p s -> (length s < fuel)%nat -> in_string fuel m c p = Some (isin s c).
Proof.
  unfold isin. revert p fuel. induction s as [|x s IH]; intros p fuel Hs Hf; (destruct fuel as [|fuel]; [lia|]);
    cbn [in_string].
  - cbn [cstr] in Hs. rewrite Hs. ob. rewrite decide_True by done. done.
  - destruct Hs as (Hx & Hr & Hs). rewrite Hx. ob. rewrite decide_False by lia. cbn [length] in Hf. destruct (decide (c = x)) as [Hd|Hd].
    + f_equal. symmetry. apply bool_decide_eq_true_2. subst. by left.
    + rewrite IH by (done || lia). f_equal. apply bool_decide_ext. rewrite elem_of_cons. tauto.
Qed.

Section Sets.
Context (m : mem) (a : Z) (t : list Z) (Ht : cstr m a t).

Lemma in_string_walk c : in_string (walk m) m c a = Some (isin t c).
Proof. apply in_string_spec; [done|]. by eapply cstr_walk. Qed.

Lemma strspn_loop_spec p s fuel n :
  cstr m p s -> (length s < fuel)%nat -> strspn_loop fuel m p a n = Some (n + span (isin t) s).
Proof.
  revert p fuel n. induction s as [|x s IH]; intros p fuel n Hs Hf; (destruct fuel as [|fuel]; [lia|]); cbn [strspn_loop span].
  - cbn [cstr] in Hs. rewrite Hs. ob. rewrite decide_True by done. f_equal. lia.
  - destruct Hs as (Hx & Hr & Hs). rewrite Hx. ob. rewrite decide_False by lia. rewrite in_string_walk. ob. cbn [length] in Hf.
    destruct (isin t x); cbn [negb]; [rewrite IH by (done || lia)|]; f_equal; lia.
Qed.

Lemma strcspn_loop_spec p s fuel n :
  cstr m p s -> (length s < fuel)%nat -> strcspn_loop fuel m p a n = Some (n + span (fun c => negb (isin t c)) s).
Proof.
  revert p fuel n. induction s as [|x s IH]; intros p fuel n Hs Hf; (destruct fuel as [|fuel]; [lia|]); cbn [strcspn_loop span].
  - cbn [cstr] in Hs. rewrite Hs. ob. rewrite decide_True by done. f_equal. lia.
  - destruct Hs as (Hx & Hr & Hs). rewrite Hx. ob. rewrite decide_False by lia. rewrite in_string_walk. ob. cbn [length] in Hf.
    destruct (isin t x); cbn [negb]; [|rewrite IH by (done || lia)]; f_equal; lia.
Qed.

Lemma strpbrk_loop_spec p s fuel :
  cstr m p s -> (length s < fuel)%nat -> strpbrk_loop fuel m p a = Some (ptr p (index (isin t) s)).
Proof.
  revert p fuel. induction s as [|x s IH]; intros p fuel Hs Hf; (destruct fuel as [|fuel]; [lia|]); cbn [strpbrk_loop index].
  - cbn [cstr] in Hs. rewrite Hs. done.
  - destruct Hs as (Hx & Hr & Hs). rewrite Hx. ob. rewrite decide_False by lia. rewrite in_string_walk. ob. cbn [length] in Hf.
    destruct (isin t x); [cbn; f_equal; lia|]. rewrite IH by (done || lia). by rewrite ptr_S.
Qed.
End Sets.

Lemma memscan_loop_spec m p l c : arr m p l -> memscan_loop (length l) m p c = Some (p + default (zlen l) (index (eqc c) l)).
Proof.
  revert p. induction l as [|x l IH]; intros p Ha; [cbn; by rewrite zlen_nil, Z.add_0_r|].
  destruct Ha as (Hx & _ & Ha). cbn [length memscan_loop index]. rewrite Hx. ob. unfold eqc at 1. case_decide as Hd.
  - rewrite bool_decide_eq_true_2 by done. cbn. f_equal. lia.
  - rewrite bool_decide_eq_false_2 by done. rewrite IH by done. rewrite zlen_cons. destruct (index _ l); cbn; f_equal; lia.
Qed.

Lemma memchr_loop_spec m p l c : arr m p l -> memchr_loop (length l) m p c = Some (ptr p (index (eqc (u8 c)) l)).
Proof.
  revert p. induction l as [|x l IH]; intros p Ha; [done|].
  destruct Ha as (Hx & _ & Ha). cbn [length memchr_loop index]. rewrite Hx. ob. unfold eqc at 1. case_decide as Hd.
  - rewrite bool_decide_eq_true_2 by done. cbn. f_equal. lia.
  - rewrite bool_decide_eq_false_2 by done. rewrite IH by done. by rewrite ptr_S.
Qed.

(** * Comparisons *)

(** The first difference of two lists of one length. *)
Fixpoint diff (l l' : list Z) : Z :=
  match l, l' with
  | c :: l, c' :: l' => if decide (c = c') then diff l l' else c - c'
  | _, _ => 0
  end.

Lemma diff_zero l l' : length l = length l' -> diff l l' = 0 <-> l = l'.
Proof.
  revert l'. induction l as [|c l IH]; intros [|c' l'] Hlen; try done. injection Hlen as Hlen. cbn [diff].
  case_decide as Hd; [subst; rewrite IH by done; by split; [intros ->|intros [= ->]]|].
  split; [lia|]. by intros [= ? _].
Qed.

Lemma memcmp_loop_spec m p q l l' :
  arr m p l -> arr m q l' -> length l = length l' -> memcmp_loop (length l) m p q = Some (diff l l').
Proof.
  revert p q l'. induction l as [|c l IH]; intros p q [|c' l'] Ha Hb Hlen; try done. injection Hlen as Hlen.
  destruct Ha as (Hc & _ & Ha), Hb as (Hc' & _ & Hb). cbn [length memcmp_loop diff]. rewrite Hc. ob. rewrite Hc'. ob.
  destruct (decide (c = c')) as [->|Hne]; [rewrite decide_False by lia; by apply IH|]. by rewrite decide_True by lia.
Qed.

Lemma memcmp_spec m p q l l' :
  arr m p l -> arr m q l' -> length l = length l' -> memcmp m p q (zlen l) = Some (diff l l').
Proof.
  intros. unfold memcmp. replace (Z.to_nat (zlen l)) with (length l) by (unfold zlen; lia). by apply memcmp_loop_spec.
Qed.

(** What [strcmp] computes of the first difference. *)
Lemma s8_diff a b : is_u8 a -> is_u8 b -> s8 (s8 a - s8 b) = 0 <-> a = b.
Proof.
  unfold s8, is_u8. intros Ha Hb. split; [|intros ->; by rewrite Z.sub_diag]. intros H.
  pose proof (Z.div_mod (a + 2^7) (2^8) ltac:(lia)). pose proof (Z.mod_pos_bound (a + 2^7) (2^8) ltac:(lia)).
  pose proof (Z.div_mod (b + 2^7) (2^8) ltac:(lia)). pose proof (Z.mod_pos_bound (b + 2^7) (2^8) ltac:(lia)).
  set (d := (a + 2 ^ 7) `mod` 2 ^ 8 - 2 ^ 7 - ((b + 2 ^ 7) `mod` 2 ^ 8 - 2 ^ 7)) in *.
  pose proof (Z.div_mod (d + 2^7) (2^8) ltac:(lia)). unfold d in *. lia.
Qed.

(** The order of the characters, for seven-bit characters. *)
Lemma s8_ascii a b : 0 <= a < 2^7 -> 0 <= b < 2^7 -> s8 (s8 a - s8 b) = a - b.
Proof.
  intros Ha Hb. unfold s8. rewrite (Z.mod_small (a + 2^7)), (Z.mod_small (b + 2^7)) by lia.
  rewrite Z.mod_small; lia.
Qed.

Fixpoint sdiff (l l' : list Z) : Z :=
  match l, l' with
  | c :: l, c' :: l' => if decide (c = c') then sdiff l l' else s8 (s8 c - s8 c')
  | _, _ => 0
  end.

Lemma strcmp_loop_spec m p q s t fuel :
  cstr m p s -> cstr m q t -> (length s < fuel)%nat -> strcmp_loop fuel m p q = Some (sdiff (s ++ [0]) (t ++ [0])).
Proof.
  revert p q t fuel. induction s as [|c s IH]; intros p q t fuel Hs Ht Hf; (destruct fuel as [|fuel]; [lia|]);
    cbn [strcmp_loop app sdiff].
  - cbn [cstr] in Hs. rewrite Hs. ob. destruct t as [|d t]; cbn [app].
    + cbn [cstr] in Ht. rewrite Ht. done.
    + destruct Ht as (Hd & Hr & Ht). rewrite Hd. ob. rewrite decide_True by (rewrite s8_diff; unfold is_u8; lia).
      by rewrite decide_False by lia.
  - destruct Hs as (Hc & Hr & Hs). rewrite Hc. ob. cbn [length] in Hf. destruct t as [|d t]; cbn [app].
    + cbn [cstr] in Ht. rewrite Ht. ob. rewrite decide_True by (rewrite s8_diff; unfold is_u8; lia).
      by rewrite decide_False by lia.
    + destruct Ht as (Hd & Hr' & Ht). rewrite Hd. ob. destruct (decide (c = d)) as [->|Hne].
      * rewrite decide_False by (rewrite s8_diff; unfold is_u8; lia). rewrite decide_False by lia. apply IH; [done|done|lia].
      * by rewrite decide_True by (rewrite s8_diff; unfold is_u8; lia).
Qed.

Lemma strncmp_loop_spec m p q s t n :
  cstr m p s -> cstr m q t ->
  strncmp_loop n m p q 0 = Some (sdiff (take n (s ++ [0])) (take n (t ++ [0]))).
Proof.
  revert p q s t. induction n as [|n IH]; intros p q s t Hs Ht; [done|]. cbn [strncmp_loop].
  destruct s as [|c s], t as [|d t]; cbn [app firstn sdiff cstr] in *.
  - rewrite Hs. ob. rewrite Ht. ob. rewrite take_nil. done.
  - destruct Ht as (Hd & Hr & Ht). rewrite Hs. ob. rewrite Hd. ob.
    rewrite decide_True by (rewrite s8_diff; unfold is_u8; lia). by rewrite decide_False by lia.
  - destruct Hs as (Hc & Hr & Hs). rewrite Hc. ob. rewrite Ht. ob.
    rewrite decide_True by (rewrite s8_diff; unfold is_u8; lia). by rewrite decide_False by lia.
  - destruct Hs as (Hc & Hr & Hs), Ht as (Hd & Hr' & Ht). rewrite Hc. ob. rewrite Hd. ob.
    destruct (decide (c = d)) as [->|Hne].
    + replace (s8 (s8 d - s8 d)) with 0 by (symmetry; apply s8_diff; unfold is_u8; lia || done).
      rewrite decide_False by lia. rewrite decide_False by lia. by apply IH.
    + by rewrite decide_True by (rewrite s8_diff; unfold is_u8; lia).
Qed.

(** Two strings, or their first [n] characters, are equal exactly if there is no difference. *)
Lemma sdiff_zero m p q s t :
  cstr m p s -> cstr m q t -> sdiff (s ++ [0]) (t ++ [0]) = 0 <-> s = t.
Proof.
  revert p q t. induction s as [|c s IH]; intros p q [|d t] Hs Ht; cbn [app sdiff cstr] in *; [done| | |].
  - destruct Ht as (_ & Hr & _). rewrite decide_False, s8_diff by (unfold is_u8; lia). split; [lia|done].
  - destruct Hs as (_ & Hr & _). rewrite decide_False, s8_diff by (unfold is_u8; lia). split; [lia|done].
  - destruct Hs as (_ & Hr & Hs), Ht as (_ & Hr' & Ht). case_decide as Hd.
    + subst d. rewrite (IH (p + 1) (q + 1) t) by done. by split; [intros ->|intros [= ->]].
    + rewrite s8_diff by (unfold is_u8; lia). split; [done|]. by intros [= ? _].
Qed.

Lemma sdiff_take_zero m p q s t n :
  cstr m p s -> cstr m q t -> sdiff (take n (s ++ [0])) (take n (t ++ [0])) = 0 <-> take n s = take n t.
Proof.
  revert p q s t. induction n as [|n IH]; intros p q s t Hs Ht; [done|].
  destruct s as [|c s], t as [|d t]; cbn [app firstn sdiff cstr] in *.
  - by rewrite take_nil.
  - destruct Ht as (_ & Hr & _). rewrite decide_False, s8_diff by (unfold is_u8; lia). split; [lia|done].
  - destruct Hs as (_ & Hr & _). rewrite decide_False, s8_diff by (unfold is_u8; lia). split; [lia|done].
  - destruct Hs as (_ & Hr & Hs), Ht as (_ & Hr' & Ht). case_decide as Hd.
    + subst d. rewrite (IH (p + 1) (q + 1) s t) by done. by split; [intros ->|intros [= ->]].
    + rewrite s8_diff by (unfold is_u8; lia). split; [done|]. by intros [= ? _].
Qed.

(** The comparison without regard to case. *)
Lemma strnicmp_loop_spec m p q s t n c1 c2 :
  cstr m p s -> cstr m q t -> c1 = c2 ->
  exists r, strnicmp_loop n m p q c1 c2 = Some r /\
    (r = 0 <-> tolower <$> take n s = tolower <$> take n t).
Proof.
  revert p q s t c1 c2. induction n as [|n IH]; intros p q s t c1 c2 Hs Ht Heq.
  { exists (c1 - c2). split; [done|]. split; [done|lia]. }
  destruct s as [|c s], t as [|d t]; cbn [strnicmp_loop firstn cstr fmap list_fmap] in *.
  - rewrite Hs. ob. rewrite Ht. ob. rewrite decide_True by done. exists (0 - 0). done.
  - destruct Ht as (Hd & Hr & _). rewrite Hs. ob. rewrite Hd. ob. rewrite decide_True by done. exists (0 - d).
    split; [done|]. split; [lia|done].
  - destruct Hs as (Hc & Hr & _). rewrite Hc. ob. rewrite Ht. ob. rewrite decide_False, decide_True by lia. exists (c - 0).
    split; [done|]. split; [lia|done].
  - destruct Hs as (Hc & Hr & Hs), Ht as (Hd & Hr' & Ht). rewrite Hc. ob. rewrite Hd. ob. rewrite !decide_False by lia.
    destruct (decide (c = d)) as [->|Hne].
    + destruct (IH (p + 1) (q + 1) s t d d Hs Ht eq_refl) as (r & -> & Hiff). exists r. split; [done|]. rewrite Hiff.
      by split; [intros ->|intros [= ->]].
    + destruct (decide (tolower c = tolower d)) as [Hl|Hl].
      * rewrite decide_False by tauto. destruct (IH (p + 1) (q + 1) s t _ _ Hs Ht Hl) as (r & -> & Hiff). exists r.
        split; [done|]. rewrite Hiff, Hl. by split; [intros ->|intros [= ->]].
      * rewrite decide_True by done. exists (tolower c - tolower d). split; [done|]. split; [lia|]. by intros [= ? _].
Qed.

(** * Substrings *)

(** The first place where [t] occurs in [s]. *)
Definition occurs (t s : list Z) (i : nat) : Prop := take (length t) (drop i s) = t.

Lemma arr_take_drop m p l i n : arr m p l -> (i + n <= length l)%nat -> arr m (p + Z.of_nat i) (take n (drop i l)).
Proof.
  intros Ha Hi. rewrite <- (take_drop i l) in Ha. apply arr_app in Ha as [_ Ha].
  unfold zlen in Ha. rewrite length_take_le in Ha by lia. rewrite <- (take_drop n (drop i l)) in Ha. by apply arr_app in Ha as [Ha _].
Qed.

Lemma strstr_loop_spec m p q s t n k :
  arr m p s -> arr m q t -> (k + n = S (length s) - length t)%nat -> (length t <= length s)%nat ->
  (forall i, (i < k)%nat -> ~ occurs t s i) ->
  exists r, strstr_loop n m (p + Z.of_nat k) q (zlen t) = Some r /\
    ((exists i, r = p + Z.of_nat i /\ (i + length t <= length s)%nat /\ occurs t s i /\ forall j, (j < i)%nat -> ~ occurs t s j) \/
     (r = NULL /\ forall i, (i + length t <= length s)%nat -> ~ occurs t s i)).
Proof.
  intros Hs Ht. revert k. induction n as [|n IH]; intros k Hk Hlen Hno; cbn [strstr_loop].
  { exists NULL. split; [done|]. right. split; [done|]. intros i Hi. apply Hno. lia. }
  assert (Hl : length (take (length t) (drop k s)) = length t) by (rewrite length_take_le; [done|rewrite length_drop; lia]).
  pose proof (memcmp_spec m _ q _ t (arr_take_drop m p s k (length t) Hs ltac:(lia)) Ht Hl) as Hm.
  replace (zlen (take (length t) (drop k s))) with (zlen t) in Hm by (unfold zlen; lia). rewrite Hm. ob.
  case_decide as Hd.
  - apply diff_zero in Hd; [|done]. exists (p + Z.of_nat k). split; [done|]. left. exists k. split; [done|]. split; [lia|]. done.
  - replace (p + Z.of_nat k + 1) with (p + Z.of_nat (S k)) by lia. apply IH; [lia|done|]. intros i Hi.
    destruct (decide (i = k)) as [->|Hne]; [|apply Hno; lia]. intros Ho. apply Hd. by apply diff_zero.
Qed.

Lemma strstr_spec m p q s t :
  cstr m p s -> cstr m q t ->
  exists r, strstr m p q = Some r /\
    ((exists i, r = p + Z.of_nat i /\ (i + length t <= length s)%nat /\ occurs t s i /\ forall j, (j < i)%nat -> ~ occurs t s j) \/
     (r = NULL /\ forall i, (i + length t <= length s)%nat -> ~ occurs t s i)).
Proof.
  intros Hs Ht. unfold strstr. rewrite (strlen_spec m q t Ht). ob. case_decide as H0.
  - exists p. split; [done|]. left. exists O. assert (t = []) as -> by (destruct t; [done|rewrite zlen_cons in H0; pose proof (zlen_nonneg t); lia]).
    split; [lia|]. split; [cbn; lia|]. split; [done|]. lia.
  - rewrite (strlen_spec m p s Hs). ob. destruct (decide (length t <= length s)%nat) as [Hle|Hgt].
    + apply cstr_arr in Hs as [Hs%arr_app _], Ht as [Ht%arr_app _].
      destruct (strstr_loop_spec m p q s t (Z.to_nat (zlen s - zlen t + 1)) 0) as (r & Heq & Hr);
        [apply Hs|apply Ht|unfold zlen; lia|done|lia|]. rewrite Z.add_0_r in Heq. exists r. done.
    + replace (Z.to_nat (zlen s - zlen t + 1)) with O by (unfold zlen; lia). exists NULL. split; [done|]. right. split; [done|]. lia.
Qed.

(** * Copies *)

(** Copying from [src] to [dest] upwards does not overwrite what is still to be read. *)
Definition clear_of (dest src n : Z) : Prop := dest <= src \/ src + n <= dest.

Lemma strcpy_loop_spec m dest src s fuel :
  cstr m src s -> mapped m dest (zlen s + 1) -> clear_of dest src (zlen s + 1) -> (length s < fuel)%nat ->
  strcpy_loop fuel m dest src = Some (writes m dest (s ++ [0])).
Proof.
  unfold clear_of. revert m dest src fuel. induction s as [|c s IH]; intros m dest src fuel Hs Hm Hd Hf;
    (destruct fuel as [|fuel]; [lia|]); cbn [strcpy_loop app writes].
  - cbn [cstr] in Hs. rewrite zlen_nil in *. rewrite Hs. ob. rewrite store_eq by (done || apply Hm; lia). done.
  - destruct Hs as (Hc & Hr & Hs). rewrite zlen_cons in *. pose proof (zlen_nonneg s). cbn [length] in Hf. rewrite Hc. ob.
    rewrite store_eq by (apply Hm; lia) || (unfold is_u8; lia). ob. rewrite decide_False by lia. apply IH; [|..|lia|lia].
    + eapply cstr_same; [done|]. intros a Ha. apply lookup_insert_ne. lia.
    + apply mapped_insert. eapply mapped_sub; [done|lia|lia].
Qed.

Definition pad_to (n : nat) (s : list Z) : list Z := take n s ++ replicate (n - length s) 0.

Lemma strncpy_loop_spec m dest src s n :
  cstr m src s -> mapped m dest (Z.of_nat n) -> dest + Z.of_nat n <= src \/ src + zlen s + 1 <= dest ->
  strncpy_loop n m dest src = Some (writes m dest (pad_to n s)).
Proof.
  revert m dest src s. induction n as [|n IH]; intros m dest src s Hs Hm Hd; [done|].
  assert (Hm' : forall c, mapped (<[dest := c]> m) (dest + 1) (Z.of_nat n)).
  { intros c. apply mapped_insert. eapply mapped_sub; [done|lia|lia]. }
  destruct s as [|c s]; cbn [strncpy_loop].
  - cbn [cstr] in Hs. rewrite zlen_nil in Hd. rewrite Hs. ob. rewrite store_eq by (done || apply Hm; lia). ob.
    rewrite decide_False by lia. rewrite (IH _ _ _ []); [|..|done|rewrite zlen_nil; lia].
    + unfold pad_to. rewrite !take_nil. cbn [length app]. rewrite !Nat.sub_0_r. done.
    + cbn [cstr]. rewrite lookup_insert_ne by lia. done.
  - destruct Hs as (Hc & Hr & Hs). rewrite zlen_cons in Hd. pose proof (zlen_nonneg s). rewrite Hc. ob.
    rewrite store_eq by (apply Hm; lia) || (unfold is_u8; lia). ob. rewrite decide_True by lia.
    rewrite (IH _ _ _ s); [done| |done|lia]. eapply cstr_same; [done|]. intros a Ha. apply lookup_insert_ne. lia.
Qed.

Lemma strncat_loop_spec m dest src s count fuel :
  cstr m src s -> 0 < count -> mapped m dest (Z.min count (zlen s) + 1) -> clear_of dest src (zlen s + 1) ->
  (length s < fuel)%nat ->
  strncat_loop fuel m dest src count = Some (writes m dest (take (Z.to_nat count) s ++ [0])).
Proof.
  unfold clear_of. revert m dest src count fuel. induction s as [|c s IH]; intros m dest src count fuel Hs Hc Hm Hd Hf;
    (destruct fuel as [|fuel]; [lia|]); cbn [strncat_loop].
  - cbn [cstr] in Hs. rewrite zlen_nil in *. rewrite Hs. ob. rewrite store_eq by (done || apply Hm; lia). ob. rewrite take_nil. done.
  - destruct Hs as (Hx & Hr & Hs). rewrite zlen_cons in *. pose proof (zlen_nonneg s). cbn [length] in Hf. rewrite Hx. ob.
    rewrite store_eq by (apply Hm; lia) || (unfold is_u8; lia). ob. rewrite decide_False by lia.
    replace (Z.to_nat count) with (S (Z.to_nat (count - 1))) by lia. cbn [firstn app writes]. case_decide as H1.
    + rewrite H1. cbn [Z.to_nat firstn app writes]. apply store_eq; [|done]. apply mapped_insert with (n := 2) (p := dest); [|lia].
      eapply mapped_sub; [done|lia|lia].
    + apply IH; [|lia| |lia|lia].
      * eapply cstr_same; [done|]. intros a Ha. apply lookup_insert_ne. lia.
      * apply mapped_insert. eapply mapped_sub; [done|lia|lia].
Qed.

(** Truncation to a buffer of [n] bytes, with its terminator. *)
Definition fit (n : Z) (s : list Z) : list Z := take (Z.to_nat (n - 1)) s ++ [0].

Lemma take_arr m p s n : cstr m p s -> arr m p (take n s).
Proof. intros [Hs _]%cstr_arr. apply arr_app in Hs as [Hs _]. rewrite <- (take_drop n s) in Hs. by apply arr_app in Hs as [Hs _]. Qed.

(** The common end of [strlcpy] and [strlcat]. *)
Lemma copy_fit m dest src s n :
  cstr m src s -> 0 < n -> mapped m dest (Z.min n (zlen s + 1)) -> clear_of dest src (zlen s + 1) ->
  (m ← memcpy m dest src (if decide (n <= zlen s) then n - 1 else zlen s);
   store m (dest + (if decide (n <= zlen s) then n - 1 else zlen s)) 0) = Some (writes m dest (fit n s)).
Proof.
  unfold clear_of. intros Hs Hn Hm Hd. set (k := if decide (n <= zlen s) then n - 1 else zlen s). pose proof (zlen_nonneg s).
  assert (Hk : 0 <= k /\ k = Z.min (n - 1) (zlen s)) by (unfold k; case_decide; lia).
  assert (Hzl : zlen (take (Z.to_nat (n - 1)) s) = k) by (unfold zlen in *; rewrite length_take; lia).
  unfold fit. rewrite writes_app, Hzl. rewrite <- Hzl at 1. rewrite memcpy_spec; [|by apply take_arr|..].
  - ob. apply store_eq; [|done]. apply (mapped_writes m dest (Z.min n (zlen s + 1))); [done|lia].
  - rewrite Hzl. eapply mapped_sub; [done|lia|lia].
  - rewrite Hzl. lia.
Qed.

Lemma strlcpy_spec m dest src s size :
  cstr m src s -> 0 <= size -> mapped m dest (Z.min size (zlen s + 1)) -> clear_of dest src (zlen s + 1) ->
  strlcpy m dest src size = Some (zlen s, if decide (size = 0) then m else writes m dest (fit size s)).
Proof.
  intros Hs Hn Hm Hd. unfold strlcpy. rewrite (strlen_spec m src s Hs). ob. destruct (decide (size = 0)) as [->|Hne]; [done|].
  rewrite decide_True by done. pose proof (copy_fit m dest src s size Hs ltac:(lia) Hm Hd) as Hc.
  destruct (memcpy _ _ _ _) as [m1|]; [|done]. cbn [mbind option_bind] in Hc |- *. rewrite Hc. done.
Qed.

Lemma strlcat_spec m dest src d s count :
  cstr m dest d -> cstr m src s -> is_u32 (zlen d + zlen s) -> zlen d < count ->
  mapped m dest (Z.min count (zlen d + zlen s + 1)) -> clear_of (dest + zlen d) src (zlen s + 1) ->
  strlcat m dest src count = Some (zlen d + zlen s, writes m (dest + zlen d) (fit (count - zlen d) s)).
Proof.
  intros Hdst Hs Hu Hc Hm Hd. unfold strlcat. rewrite (strlen_spec m dest d Hdst), (strlen_spec m src s Hs). ob.
  rewrite decide_False by lia. rewrite (u32_small _ Hu). pose proof (zlen_nonneg d).
  pose proof (copy_fit m (dest + zlen d) src s (count - zlen d) Hs ltac:(lia)) as Hcf.
  specialize (Hcf ltac:(eapply mapped_sub; [done|lia|lia]) Hd).
  destruct (memcpy _ _ _ _) as [m1|]; [|done]. cbn [mbind option_bind] in Hcf |- *. rewrite Hcf. done.
Qed.

(** What is written as a string can be read as one. *)
Lemma cstr_writes m p s : Forall (fun c => 0 < c < 2^8) s -> cstr (writes m p (s ++ [0])) p s.
Proof.
  intros Hs. apply cstr_arr. split.
  - apply arr_writes, Forall_app. split; [|by repeat constructor]. eapply Forall_impl; [exact Hs|]. unfold is_u8. lia.
  - eapply Forall_impl; [exact Hs|]. cbv beta. lia.
Qed.

Lemma cstr_range m p s : cstr m p s -> Forall (fun c => 0 < c < 2^8) s.
Proof. revert p. induction s as [|c s IH]; intros p; [constructor|]. intros (_ & ? & ?). constructor; [done|by eapply IH]. Qed.

Lemma cstr_join m p s t : arr m p s -> Forall (fun c => c <> 0) s -> cstr m (p + zlen s) t -> cstr m p (s ++ t).
Proof.
  intros Hs Hn [Ht Htn]%cstr_arr. apply cstr_arr. rewrite <- app_assoc. split; [by apply arr_app|]. by apply Forall_app.
Qed.

(** [strsep] cuts the string at the first separator. *)
Lemma strsep_spec m p q s t :
  cstr m p s -> cstr m q t -> p <> NULL -> 0 < p ->
  match index (isin t) s with
  | None => strsep m p q = Some (p, NULL, m)
  | Some i => exists m', strsep m p q = Some (p, p + i + 1, m') /\ m' = <[p + i := 0]> m /\
      cstr m' p (take (Z.to_nat i) s) /\ cstr m' (p + i + 1) (drop (S (Z.to_nat i)) s)
  end.
Proof.
  intros Hs Ht Hp Hpos. unfold strsep, strpbrk. rewrite decide_False by done.
  rewrite (strpbrk_loop_spec m q t Ht p s) by (done || by eapply cstr_walk). ob.
  destruct (index (isin t) s) as [i|] eqn:Hi; cbn [ptr]; [|by rewrite decide_False by tauto].
  pose proof Hi as (Hi0 & (c & Hc & _) & _)%index_Some. rewrite decide_True by (unfold NULL; lia).
  destruct (cstr_char m p s (Z.to_nat i) c Hs Hc) as [Hci _]. rewrite Z2Nat.id in Hci by lia.
  rewrite store_eq by (done || by eexists). ob. eexists. split; [done|]. split; [done|].
  pose proof (lookup_lt_Some _ _ _ Hc) as Hlt.
  rewrite <- (take_drop_middle s (Z.to_nat i) c Hc) in Hs. pose proof (cstr_range _ _ _ Hs) as Hr.
  apply Forall_app in Hr as [Hr1 Hr2]. apply cstr_arr in Hs as [Hs _]. rewrite <- app_assoc in Hs. apply arr_app in Hs as [H1 H2].
  assert (Hz : zlen (take (Z.to_nat i) s) = i) by (unfold zlen; rewrite length_take_le; lia). rewrite Hz in *. split.
  - apply cstr_arr. split; [|eapply Forall_impl; [exact Hr1|]; cbv beta; lia]. apply arr_app. split.
    + eapply arr_same; [done|]. intros a Ha. apply lookup_insert_ne. lia.
    + rewrite Hz. split; [apply lookup_insert_eq|]. done.
  - destruct H2 as (_ & _ & H2). apply cstr_arr. apply Forall_cons in Hr2 as [_ Hr2]. split; [|eapply Forall_impl; [exact Hr2|]; cbv beta; lia].
    eapply arr_same; [exact H2|]. intros a Ha. apply lookup_insert_ne. lia.
Qed.

(** * Correctness *)

Lemma sdiff_ascii l l' :
  Forall (fun c => 0 <= c < 2^7) l -> Forall (fun c => 0 <= c < 2^7) l' -> sdiff l l' = diff l l'.
Proof.
  intros Hl. revert l'. induction Hl as [|c l Hc Hl IH]; intros l' Hl'; destruct Hl' as [|c' l' Hc' Hl']; try done.
  cbn [sdiff diff]. case_decide; [by apply IH|]. by apply s8_ascii.
Qed.

Lemma strrchr_spec m p s c : cstr m p s -> strrchr m p c = Some (ptr p (rindex (eqc (u8 c)) (s ++ [0]))).
Proof.
  intros Hs. unfold strrchr. rewrite (strlen_spec m p s Hs). ob. apply cstr_arr in Hs as [Hs _].
  pose proof (strrchr_loop_spec m p (s ++ [0]) c Hs) as H. rewrite <- H. f_equal.
  - unfold zlen. rewrite length_app. cbn [length]. lia.
  - rewrite zlen_app, zlen_cons, zlen_nil. lia.
Qed.

Definition demo_mem : mem := writes (writes (writes ∅ 100 [97; 98; 44; 99; 0]) 200 [44; 0]) 300 (replicate 16 7).

Lemma demo_s : cstr demo_mem 100 [97; 98; 44; 99].
Proof. repeat (split; [vm_compute; reflexivity|split; [lia|]]). vm_compute. reflexivity. Qed.
Lemma demo_t : cstr demo_mem 200 [44].
Proof. repeat (split; [vm_compute; reflexivity|split; [lia|]]). vm_compute. reflexivity. Qed.
Lemma demo_buf : mapped demo_mem 300 16.
Proof. intros a Ha. unfold demo_mem. rewrite lookup_writes, decide_True by (cbn; unfold zlen; cbn; lia). apply lookup_lt_is_Some. cbn. lia. Qed.

(** C14. The functions that only read compute what their descriptions say, for all strings
    that end, and within the bound of their loops: the length, the length up to a limit, the
    first and last place of a character (the terminator included), the first within a limit,
    the number of leading characters in or not in a set, the first character of a set, the
    first occurrence of a substring.  The comparisons are zero exactly for equal strings, equal
    prefixes and prefixes that are equal but for case, and [strcmp] gives the first
    difference of seven-bit strings.  [memchr] and [memscan] find the first byte, [memcmp]
    gives the first difference. *)
Theorem string_reads_correct m p q s t c n :
  cstr m p s -> cstr m q t -> 0 <= n ->
  strlen m p = Some (zlen s) /\
  strnlen m p n = Some (Z.min n (zlen s)) /\
  strchr m p c = Some (ptr p (index (eqc (u8 c)) (s ++ [0]))) /\
  strrchr m p c = Some (ptr p (rindex (eqc (u8 c)) (s ++ [0]))) /\
  strnchr m p n c = Some (ptr p (index (eqc (u8 c)) (take (Z.to_nat n) s))) /\
  strspn m p q = Some (span (isin t) s) /\
  strcspn m p q = Some (span (fun c => negb (isin t c)) s) /\
  strpbrk m p q = Some (ptr p (index (isin t) s)) /\
  (exists r, strstr m p q = Some r /\
    ((exists i, r = p + Z.of_nat i /\ (i + length t <= length s)%nat /\ occurs t s i /\ forall j, (j < i)%nat -> ~ occurs t s j) \/
     (r = NULL /\ forall i, (i + length t <= length s)%nat -> ~ occurs t s i))) /\
  (exists r, strcmp m p q = Some r /\ (r = 0 <-> s = t) /\
    (Forall (fun c => c < 2^7) s -> Forall (fun c => c < 2^7) t -> r = diff (s ++ [0]) (t ++ [0]))) /\
  (exists r, strncmp m p q n = Some r /\ (r = 0 <-> take (Z.to_nat n) s = take (Z.to_nat n) t)) /\
  (exists r, strnicmp m p q n = Some r /\ (r = 0 <-> tolower <$> take (Z.to_nat n) s = tolower <$> take (Z.to_nat n) t)) /\
  (forall l, arr m p l -> memchr m p c (zlen l) = Some (ptr p (index (eqc (u8 c)) l)) /\
    memscan m p c (zlen l) = Some (p + default (zlen l) (index (eqc c) l)) /\
    forall l', arr m q l' -> length l = length l' ->
      memcmp m p q (zlen l) = Some (diff l l') /\ (diff l l' = 0 <-> l = l')).
Proof.
  intros Hs Ht Hn. pose proof (cstr_walk _ _ _ Hs) as Hw.
  split; [by apply strlen_spec|]. split; [by apply strnlen_spec|]. split; [by apply strchr_loop_spec|].
  split; [by apply strrchr_spec|]. split; [by apply strnchr_loop_spec|]. split; [by apply (strspn_loop_spec m q t Ht p s)|].
  split; [by apply (strcspn_loop_spec m q t Ht p s)|]. split; [by apply strpbrk_loop_spec|]. split; [by apply strstr_spec|].
  split.
  { eexists. split; [by apply strcmp_loop_spec|]. split; [by eapply sdiff_zero|]. intros H1 H2.
    pose proof (cstr_range _ _ _ Hs) as R1. pose proof (cstr_range _ _ _ Ht) as R2. rewrite Forall_forall in H1, H2, R1, R2.
    apply sdiff_ascii; apply Forall_app; (split; [apply Forall_forall|by repeat constructor]).
    - intros x Hx. specialize (H1 x Hx). specialize (R1 x Hx). lia.
    - intros x Hx. specialize (H2 x Hx). specialize (R2 x Hx). lia. }
  split; [eexists; split; [by apply strncmp_loop_spec|by eapply sdiff_take_zero]|].
  split; [by eapply strnicmp_loop_spec|]. intros l Hl. unfold memchr, memscan.
  replace (Z.to_nat (zlen l)) with (length l) by (unfold zlen; lia).
  split; [by apply memchr_loop_spec|]. split; [by apply memscan_loop_spec|]. intros l' Hl' Hlen.
  split; [by apply memcmp_spec|by apply diff_zero].
Qed.

Lemma string_reads_correct_witness : strlen demo_mem 100 = Some 4 /\ strpbrk demo_mem 100 200 = Some 102.
Proof.
  destruct (string_reads_correct demo_mem 100 200 [97; 98; 44; 99] [44] 98 3 demo_s demo_t ltac:(lia))
    as (H1 & _ & _ & _ & _ & _ & _ & H2 & _). split; [exact H1|exact H2].
Defined.

(** C15. The functions that write change exactly the bytes that they should, whatever else is
    in memory: [memset] and [memcpy]; [memmove] for areas that overlap in any way; [strcpy] and
    [strcat] write the string with its terminator, [strncpy] pads with zeros or leaves the
    terminator out, [strncat] appends at most [n] characters and a terminator; [strlcpy] and
    [strlcat] never write more than the given size, end the string, and return the length
    that was wanted, and [strlcat] stops with [BUG_ON] when the buffer is full already;
    [strsep] cuts off the first token. *)
Theorem string_copies_correct m dest src d s n c :
  cstr m src s -> 0 <= n ->
  (mapped m dest n -> memset m dest c n = Some (writes m dest (replicate (Z.to_nat n) (u8 c)))) /\
  (forall l, arr m src l -> mapped m dest (zlen l) ->
    memmove m dest src (zlen l) = Some (writes m dest l) /\
    (clear_of dest src (zlen l) -> memcpy m dest src (zlen l) = Some (writes m dest l))) /\
  (mapped m dest (zlen s + 1) -> clear_of dest src (zlen s + 1) -> strcpy m dest src = Some (writes m dest (s ++ [0]))) /\
  (mapped m dest n -> dest + n <= src \/ src + zlen s + 1 <= dest ->
    strncpy m dest src n = Some (writes m dest (pad_to (Z.to_nat n) s))) /\
  (mapped m dest (Z.min n (zlen s + 1)) -> clear_of dest src (zlen s + 1) ->
    strlcpy m dest src n = Some (zlen s, if decide (n = 0) then m else writes m dest (fit n s))) /\
  (cstr m dest d -> clear_of (dest + zlen d) src (zlen s + 1) ->
    (mapped m dest (zlen d + zlen s + 1) -> strcat m dest src = Some (writes m (dest + zlen d) (s ++ [0]))) /\
    (mapped m dest (zlen d + Z.min n (zlen s) + 1) -> strncat m dest src n =
      Some (if decide (n = 0) then m else writes m (dest + zlen d) (take (Z.to_nat n) s ++ [0]))) /\
    (is_u32 (zlen d + zlen s) -> mapped m dest (Z.min n (zlen d + zlen s + 1)) -> strlcat m dest src n =
      if decide (zlen d < n) then Some (zlen d + zlen s, writes m (dest + zlen d) (fit (n - zlen d) s)) else None)) /\
  (forall q t, cstr m q t -> 0 < src ->
    match index (isin t) s with
    | None => strsep m src q = Some (src, NULL, m)
    | Some i => exists m', strsep m src q = Some (src, src + i + 1, m') /\ m' = <[src + i := 0]> m /\
        cstr m' src (take (Z.to_nat i) s) /\ cstr m' (src + i + 1) (drop (S (Z.to_nat i)) s)
    end).
Proof.
  intros Hs Hn. pose proof (cstr_walk _ _ _ Hs) as Hw. pose proof (zlen_nonneg s).
  split; [intros Hm; apply memset_spec; by rewrite Z2Nat.id|].
  split; [intros l Hl Hm; split; [by apply memmove_spec|intros Hc; by apply memcpy_spec]|].
  split; [intros Hm Hc; by apply strcpy_loop_spec|].
  split; [intros Hm Hc; apply strncpy_loop_spec; rewrite ?Z2Nat.id by done; done|].
  split; [intros Hm Hc; by apply strlcpy_spec|]. split; [|intros q t Ht Hp; apply strsep_spec; [done|done|unfold NULL; lia|done]].
  intros Hd Hc. pose proof (cstr_walk _ _ _ Hd) as Hwd. pose proof (zlen_nonneg d). split; [|split].
  - intros Hm. unfold strcat. rewrite (strlen_loop_spec m dest d) by done. ob. apply strcpy_loop_spec; [done| |done|done].
    eapply mapped_sub; [done|lia|lia].
  - intros Hm. unfold strncat. destruct (decide (n = 0)) as [->|Hne]; [done|]. rewrite decide_True by done.
    rewrite (strlen_loop_spec m dest d) by done. ob. apply strncat_loop_spec; [done|lia| |done|done].
    eapply mapped_sub; [done|lia|lia].
  - intros Hu Hm. case_decide as Hlt; [by apply strlcat_spec|]. unfold strlcat.
    rewrite (strlen_spec m dest d Hd), (strlen_spec m src s Hs). ob. by rewrite decide_True by lia.
Qed.

Lemma string_copies_correct_witness :
  strlcpy demo_mem 300 100 3 = Some (4, writes demo_mem 300 [97; 98; 0]).
Proof.
  destruct (string_copies_correct demo_mem 300 100 [] [97; 98; 44; 99] 3 0 demo_s ltac:(lia)) as (_ & _ & _ & _ & H & _).
  apply H; [eapply mapped_sub; [exact demo_buf|lia|cbn; unfold zlen; cbn; lia]|right; unfold zlen; cbn; lia].
Defined.
