(* ===== verification/Vsprintf.v ===== *)
(** Numbers and formatted output: [simple_strtoul] and its variants, [number], [vsnprintf] and
    its variants of [lib/vsprintf.c].

    Memory is that of [Str].  The output position wraps as a pointer does.  An argument is a
    word, or a double word for [long long]; taking one for the other is [None].  Arithmetic on
    [int] is not reduced where the values are widths and precisions, which are small.  The
    marks ['%'], ['0'], ... are written as character codes. *)
From Stdlib Require Import ZArith Lia.
From stdpp Require Import base numbers list list_numbers option gmap.
From S2P Require Import Prelude Str.

Local Open Scope Z_scope.
Local Open Scope kernel_scope.

Import Str.

Module Vsprintf.

Definition s64 (x : Z) : Z := (x + 2^63) `mod` 2^64 - 2^63.
Definition s16 (x : Z) : Z := (x + 2^15) `mod` 2^16 - 2^15.

(** * Reading numbers *)

Definition digit_value (c : Z) : Z := if isdigit c then c - 48 else toupper c - 65 + 10.
Definition digit_value_ll (c : Z) : Z :=
  if isdigit c then c - 48 else (if islower c then toupper c else c) - 65 + 10.

(** The [while] loop of the two functions: the result and where it stopped. *)
Fixpoint strtou_loop (wrap : Z -> Z) (value : Z -> Z) (fuel : nat) (m : mem) (cp base result : Z) : option (Z * Z) :=
  match fuel with
  | O => None
  | S fuel =>
    c ← m !! cp;
    if isxdigit c then
      if decide (value c < base) then strtou_loop wrap value fuel m (cp + 1) base (wrap (result * base + value c))
      else Some (result, cp)
    else Some (result, cp)
  end.

(** The prefix that gives the base: the base and the first digit. *)
Definition strtou_base (m : mem) (cp base : Z) : option (Z * Z) :=
  if decide (base = 0) then
    c ← m !! cp;
    if decide (c = 48) then
      c1 ← m !! (cp + 1);
      if decide (toupper c1 = 88) then
        c2 ← m !! (cp + 2);
        if isxdigit c2 then Some (16, cp + 2) else Some (8, cp + 1)
      else Some (8, cp + 1)
    else Some (10, cp)
  else if decide (base = 16) then
    c ← m !! cp;
    if decide (c = 48) then
      c1 ← m !! (cp + 1);
      if decide (toupper c1 = 88) then Some (base, cp + 2) else Some (base, cp)
    else Some (base, cp)
  else Some (base, cp).

Definition simple_strtoul (m : mem) (cp base : Z) : option (Z * Z) :=
  '(base, cp) ← strtou_base m cp base;
  strtou_loop u32 digit_value (walk m) m cp base 0.

Definition simple_strtol (m : mem) (cp base : Z) : option (Z * Z) :=
  c ← m !! cp;
  if decide (c = 45) then '(r, e) ← simple_strtoul m (cp + 1) base; Some (s32 (- r), e)
  else '(r, e) ← simple_strtoul m cp base; Some (s32 r, e).

Definition simple_strtoull (m : mem) (cp base : Z) : option (Z * Z) :=
  '(base, cp) ← strtou_base m cp base;
  strtou_loop u64 digit_value_ll (walk m) m cp base 0.

Definition simple_strtoll (m : mem) (cp base : Z) : option (Z * Z) :=
  c ← m !! cp;
  if decide (c = 45) then '(r, e) ← simple_strtoull m (cp + 1) base; Some (s64 (- r), e)
  else '(r, e) ← simple_strtoull m cp base; Some (s64 r, e).

Fixpoint skip_atoi_loop (fuel : nat) (m : mem) (s i : Z) : option (Z * Z) :=
  match fuel with
  | O => None
  | S fuel =>
    c ← m !! s;
    if isdigit c then skip_atoi_loop fuel m (s + 1) (s32 (i * 10 + c - 48)) else Some (i, s)
  end.
Definition skip_atoi (m : mem) (s : Z) : option (Z * Z) := skip_atoi_loop (walk m) m s 0.

(** * Output *)

(** Memory and the output position. *)
Abbreviation out := (mem * Z)%type.

(** [if (buf <= end) *buf = c; ++buf;] *)
Definition emit (end_ : Z) (c : Z) (st : out) : option out :=
  let '(m, str) := st in
  if decide (str <= end_) then m ← store m str c; Some (m, str +u 1) else Some (m, str +u 1).

Fixpoint emit_n (end_ : Z) (n : nat) (c : Z) (st : out) : option out :=
  match n with
  | O => Some st
  | S n => st ← emit end_ c st; emit_n end_ n c st
  end.

Fixpoint emit_list (end_ : Z) (l : list Z) (st : out) : option out :=
  match l with
  | [] => Some st
  | c :: l => st ← emit end_ c st; emit_list end_ l st
  end.

(** * Writing numbers *)

Definition ZEROPAD : Z := 1.
Definition SIGN : Z := 2.
Definition PLUS : Z := 4.
Definition SPACE : Z := 8.
Definition LEFT : Z := 16.
Definition SPECIAL : Z := 32.
Definition LARGE : Z := 64.

Definition has_flag (type f : Z) : bool := bool_decide ((type &u f) <> 0).

(** [small_digits] and [large_digits]. *)
Definition digit_char (large : bool) (d : Z) : Z := if decide (d < 10) then 48 + d else if large then 55 + d else 87 + d.

(** The digits in [tmp], the last one first; [tmp] has room for 66. *)
Fixpoint digits_loop (room : nat) (large : bool) (num base : Z) : option (list Z) :=
  if decide (num = 0) then Some [] else
  match room with
  | O => None
  | S room => l ← digits_loop room large (num / base) base; Some (digit_char large (num `mod` base) :: l)
  end.

(** [while (size-- > 0)] leaves [size] behind. *)
Definition spent (size : Z) : Z := (if decide (0 < size) then 0 else size) - 1.

Definition number (end_ : Z) (num base size precision type : Z) (st : out) : option out :=
  let large := has_flag type LARGE in
  let type := if has_flag type LEFT then type &u not32 ZEROPAD else type in
  if decide (base < 2 \/ 36 < base) then Some (st.1, NULL) else
  let c := if has_flag type ZEROPAD then 48 else 32 in
  let '(sign, num, size) :=
    if has_flag type SIGN then
      if decide (s64 num < 0) then (45, u64 (- s64 num), size - 1)
      else if has_flag type PLUS then (43, num, size - 1)
      else if has_flag type SPACE then (32, num, size - 1)
      else (0, num, size)
    else (0, num, size) in
  let size :=
    if has_flag type SPECIAL then
      if decide (base = 16) then size - 2 else if decide (base = 8) then size - 1 else size
    else size in
  tmp ← (if decide (num = 0) then Some [48] else digits_loop 66 large num base);
  let i := zlen tmp in
  let precision := if decide (precision < i) then i else precision in
  let size := size - precision in
  '(st, size) ← (if negb (has_flag type (ZEROPAD + LEFT))
                 then st ← emit_n end_ (Z.to_nat size) 32 st; Some (st, spent size) else Some (st, size));
  st ← (if decide (sign <> 0) then emit end_ sign st else Some st);
  st ← (if has_flag type SPECIAL then
          if decide (base = 8) then emit end_ 48 st
          else if decide (base = 16) then st ← emit end_ 48 st; emit end_ (digit_char large 33) st
          else Some st
        else Some st);
  '(st, size) ← (if negb (has_flag type LEFT)
                 then st ← emit_n end_ (Z.to_nat size) c st; Some (st, spent size) else Some (st, size));
  st ← emit_n end_ (Z.to_nat (precision - i)) 48 st;
  st ← emit_list end_ (reverse tmp) st;
  emit_n end_ (Z.to_nat size) 32 st.

(** * Formats *)

Inductive varg := W32 (w : Z) | W64 (d : Z).

Definition va_word (args : list varg) : option (Z * list varg) :=
  match args with W32 w :: args => Some (w, args) | _ => None end.
Definition va_dword (args : list varg) : option (Z * list varg) :=
  match args with W64 d :: args => Some (d, args) | _ => None end.

(** The label [repeat]: [fmt] is at the character before. *)
Fixpoint flags_loop (fuel : nat) (m : mem) (fmt flags : Z) : option (Z * Z) :=
  match fuel with
  | O => None
  | S fuel =>
    let fmt := fmt + 1 in
    c ← m !! fmt;
    if decide (c = 45) then flags_loop fuel m fmt (flags |u LEFT)
    else if decide (c = 43) then flags_loop fuel m fmt (flags |u PLUS)
    else if decide (c = 32) then flags_loop fuel m fmt (flags |u SPACE)
    else if decide (c = 35) then flags_loop fuel m fmt (flags |u SPECIAL)
    else if decide (c = 48) then flags_loop fuel m fmt (flags |u ZEROPAD)
    else Some (fmt, flags)
  end.

Definition get_width (m : mem) (fmt flags : Z) (args : list varg) : option (Z * Z * Z * list varg) :=
  c ← m !! fmt;
  if isdigit c then '(w, fmt) ← skip_atoi m fmt; Some (fmt, flags, w, args)
  else if decide (c = 42) then
    '(w, args) ← va_word args;
    let w := s32 w in
    Some (if decide (w < 0) then (fmt + 1, flags |u LEFT, - w, args) else (fmt + 1, flags, w, args))
  else Some (fmt, flags, -1, args).

Definition get_precision (m : mem) (fmt : Z) (args : list varg) : option (Z * Z * list varg) :=
  c ← m !! fmt;
  if decide (c = 46) then
    let fmt := fmt + 1 in
    c ← m !! fmt;
    '(fmt, precision, args) ←
      (if isdigit c then '(v, fmt) ← skip_atoi m fmt; Some (fmt, v, args)
       else if decide (c = 42) then '(v, args) ← va_word args; Some (fmt + 1, s32 v, args)
       else Some (fmt, -1, args));
    Some (fmt, if decide (precision < 0) then 0 else precision, args)
  else Some (fmt, -1, args).

Definition get_qualifier (m : mem) (fmt : Z) : option (Z * Z) :=
  c ← m !! fmt;
  if decide (c ∈ [104; 108; 76; 90; 122; 116]) then
    c1 ← m !! (fmt + 1);
    Some (if bool_decide (c = 108) && bool_decide (c1 = 108) then (fmt + 2, 76) else (fmt + 1, c))
  else Some (fmt, -1).

(** The argument of an integer conversion. *)
Definition get_num (qualifier flags : Z) (args : list varg) : option (Z * list varg) :=
  if decide (qualifier = 76) then va_dword args
  else
    '(w, args) ← va_word args;
    let signed := has_flag flags SIGN in
    Some (if decide (qualifier = 108) then (if signed then u64 (s32 w) else w)
          else if decide (qualifier = 90 \/ qualifier = 122) then w
          else if decide (qualifier = 116) then u64 (s32 w)
          else if decide (qualifier = 104) then (if signed then u64 (s16 (u16 w)) else u16 w)
          else (if signed then u64 (s32 w) else w), args).

Definition PAGE_SIZE : Z := 4096.

(** The string ["<NULL>"]. *)
Definition null_text : list Z := [60; 78; 85; 76; 76; 62].

Fixpoint copy_string (end_ : Z) (n : nat) (s : Z) (st : out) : option out :=
  match n with
  | O => Some st
  | S n => c ← st.1 !! s; st ← emit end_ c st; copy_string end_ n (s + 1) st
  end.

Definition conv_char (end_ flags field_width : Z) (w : Z) (st : out) : option out :=
  '(st, field_width) ← (if negb (has_flag flags LEFT)
    then st ← emit_n end_ (Z.to_nat (field_width - 1)) 32 st; Some (st, if decide (0 < field_width - 1) then 0 else field_width - 1)
    else Some (st, field_width));
  st ← emit end_ (u8 w) st;
  emit_n end_ (Z.to_nat (field_width - 1)) 32 st.

Definition conv_string (end_ flags field_width precision : Z) (s : Z) (st : out) : option out :=
  len ← (if decide (s < PAGE_SIZE) then Some (Z.min (u32 precision) (zlen null_text)) else strnlen st.1 s (u32 precision));
  '(st, field_width) ← (if negb (has_flag flags LEFT)
    then st ← emit_n end_ (Z.to_nat (field_width - len)) 32 st; Some (st, (if decide (len < field_width) then len else field_width) - 1)
    else Some (st, field_width));
  st ← (if decide (s < PAGE_SIZE) then emit_list end_ (take (Z.to_nat len) null_text) st
        else copy_string end_ (Z.to_nat len) s st);
  emit_n end_ (Z.to_nat (field_width - len)) 32 st.

(** [*ip = n] for a word. *)
Definition store_word (m : mem) (p n : Z) : option mem :=
  m ← store m p n;
  m ← store m (p + 1) (Z.shiftr (u32 n) 8);
  m ← store m (p + 2) (Z.shiftr (u32 n) 16);
  store m (p + 3) (Z.shiftr (u32 n) 24).

(** The flags and the base of an integer conversion. *)
Definition int_conv (c flags : Z) : option (Z * Z) :=
  if decide (c = 111) then Some (flags, 8)
  else if decide (c = 88) then Some (flags |u LARGE, 16)
  else if decide (c = 120) then Some (flags, 16)
  else if decide (c = 100 \/ c = 105) then Some (flags |u SIGN, 10)
  else if decide (c = 117) then Some (flags, 10)
  else None.

(** The [switch] on the conversion [c] at [fmt]. *)
Definition conversion (buf end_ fmt flags field_width precision qualifier c : Z) (args : list varg) (st : out) :
  option (Z * list varg * out) :=
  if decide (c = 99) then
    '(w, args) ← va_word args;
    st ← conv_char end_ flags field_width w st; Some (fmt, args, st)
  else if decide (c = 115) then
    '(w, args) ← va_word args;
    st ← conv_string end_ flags field_width precision w st; Some (fmt, args, st)
  else if decide (c = 112) then
    let '(field_width, flags) := if decide (field_width = -1) then (8, flags |u ZEROPAD) else (field_width, flags) in
    '(w, args) ← va_word args;
    st ← number end_ w 16 field_width precision flags st; Some (fmt, args, st)
  else if decide (c = 110) then
    '(w, args) ← va_word args;
    m ← store_word st.1 w (st.2 - buf); Some (fmt, args, (m, st.2))
  else if decide (c = 37) then
    st ← emit end_ 37 st; Some (fmt, args, st)
  else match int_conv c flags with
  | Some (flags, base) =>
    '(num, args) ← get_num qualifier flags args;
    st ← number end_ num base field_width precision flags st; Some (fmt, args, st)
  | None =>
    st ← emit end_ 37 st;
    if decide (c <> 0) then st ← emit end_ c st; Some (fmt, args, st) else Some (fmt - 1, args, st)
  end.

(** A directive from the ['%'] at [fmt] on: where its last character is, what arguments are
    left, and the output. *)
Definition directive (m : mem) (buf end_ fmt : Z) (args : list varg) (st : out) : option (Z * list varg * out) :=
  '(fmt, flags) ← flags_loop (walk m) m fmt 0;
  '(fmt, flags, field_width, args) ← get_width m fmt flags args;
  '(fmt, precision, args) ← get_precision m fmt args;
  '(fmt, qualifier) ← get_qualifier m fmt;
  c ← m !! fmt;
  conversion buf end_ fmt flags field_width precision qualifier c args st.

Fixpoint vsnprintf_loop (fuel : nat) (buf end_ fmt : Z) (args : list varg) (st : out) : option out :=
  match fuel with
  | O => None
  | S fuel =>
    c ← st.1 !! fmt;
    if decide (c = 0) then Some st else
    if decide (c <> 37) then st ← emit end_ c st; vsnprintf_loop fuel buf end_ (fmt + 1) args st else
    '(fmt, args, st) ← directive st.1 buf end_ fmt args st;
    vsnprintf_loop fuel buf end_ (fmt + 1) args st
  end.

Definition vsnprintf (m : mem) (buf size fmt : Z) (args : list varg) : option (Z * mem) :=
  if decide (s32 size < 0) then Some (0, m) else
  let end_ := u32 (buf + size - 1) in
  let '(end_, size) := if decide (end_ < u32 (buf - 1)) then (2^32 - 1, u32 (2^32 - 1 - buf + 1)) else (end_, size) in
  '(m, str) ← vsnprintf_loop (walk m) buf end_ fmt args (m, buf);
  m ← (if decide (str <= end_) then store m str 0 else if decide (0 < size) then store m end_ 0 else Some m);
  Some (s32 (str - buf), m).

Definition vscnprintf (m : mem) (buf size fmt : Z) (args : list varg) : option (Z * mem) :=
  '(i, m) ← vsnprintf m buf size fmt args;
  Some (if decide (size <= u32 i) then s32 (size - 1) else i, m).

Definition snprintf := vsnprintf.

Definition scnprintf (m : mem) (buf size fmt : Z) (args : list varg) : option (Z * mem) :=
  '(i, m) ← vsnprintf m buf size fmt args;
  Some (if decide (size <= u32 i) then s32 (size - 1) else i, m).

Definition INT_MAX : Z := 2^31 - 1.
Definition vsprintf (m : mem) (buf fmt : Z) (args : list varg) : option (Z * mem) := vsnprintf m buf INT_MAX fmt args.
Definition sprintf := vsprintf.

End Vsprintf.
