(* ===== verification/VsprintfText.v ===== *)
(** What formats mean: the text of a number and of the other conversions, how a directive is
    parsed, and the text of a format with its arguments. *)
From Stdlib Require Import ZArith Lia.
From stdpp Require Import base numbers list list_numbers option gmap.
From S2P Require Import Prelude Str StrMem StrSpec Vsprintf.

Local Open Scope Z_scope.
Local Open Scope kernel_scope.

Import Str Vsprintf.

(** * Numbers *)

(** The digits of a number, the first one first. *)
Fixpoint digits (room : nat) (base n : Z) : list Z :=
  match room with
  | O => []
  | S room => if decide (n = 0) then [] else digits room base (n / base) ++ [n `mod` base]
  end.

(** The number that digits stand for. *)
Definition from_digits (base : Z) (l : list Z) : Z := foldl (fun v d => v * base + d) 0 l.

Definition number_digits (large : bool) (base n : Z) : list Z :=
  if decide (n = 0) then [48] else digit_char large <$> digits 66 base n.

Definition spaces (n : Z) : list Z := replicate (Z.to_nat n) 32.
Definition zeros (n : Z) : list Z := replicate (Z.to_nat n) 48.

(** Whether a number counts as negative, and its magnitude. *)
Definition negative (num type : Z) : bool := has_flag type SIGN && bool_decide (s64 num < 0).
Definition magnitude (num type : Z) : Z := if negative num type then u64 (- s64 num) else num.

Definition sign_text (num type : Z) : list Z :=
  if negb (has_flag type SIGN) then []
  else if negative num type then [45]
  else if has_flag type PLUS then [43]
  else if has_flag type SPACE then [32] else [].

Definition prefix_text (base type : Z) : list Z :=
  if negb (has_flag type SPECIAL) then []
  else if decide (base = 8) then [48]
  else if decide (base = 16) then [48; digit_char (has_flag type LARGE) 33] else [].

(** A number in a field: on the left, on the right behind zeros, or on the right behind spaces. *)
Definition number_text (num base width precision type : Z) : list Z :=
  let ds := number_digits (has_flag type LARGE) base (magnitude num type) in
  let body := zeros (precision - zlen ds) ++ ds in
  let front := sign_text num type ++ prefix_text base type in
  let room := width - zlen front - zlen body in
  if has_flag type LEFT then front ++ body ++ spaces room
  else if has_flag type ZEROPAD then front ++ zeros room ++ body
  else spaces room ++ front ++ body.

(** * Characters and strings *)

Definition char_text (flags width w : Z) : list Z :=
  if has_flag flags LEFT then u8 w :: spaces (width - 1) else spaces (width - 1) ++ [u8 w].

(** A negative precision does not limit. *)
Definition string_text (flags width precision : Z) (s : list Z) : list Z :=
  let t := take (Z.to_nat (Z.min (u32 precision) (zlen s))) s in
  if has_flag flags LEFT then t ++ spaces (width - zlen t) else spaces (width - zlen t) ++ t.

(** * Directives *)

(** Arguments with the strings that they point to. *)
Inductive sarg := AWord (w : Z) | ADword (d : Z) | AStr (s : list Z) | ANull.

Definition hd0 (l : list Z) : Z := match l with [] => 0 | c :: _ => c end.

Fixpoint parse_flags (l : list Z) (flags : Z) : list Z * Z :=
  match l with
  | [] => ([], flags)
  | c :: r =>
    if decide (c = 45) then parse_flags r (flags |u LEFT)
    else if decide (c = 43) then parse_flags r (flags |u PLUS)
    else if decide (c = 32) then parse_flags r (flags |u SPACE)
    else if decide (c = 35) then parse_flags r (flags |u SPECIAL)
    else if decide (c = 48) then parse_flags r (flags |u ZEROPAD)
    else (l, flags)
  end.

Fixpoint parse_num (l : list Z) (i : Z) : Z * list Z :=
  match l with
  | [] => (i, [])
  | c :: r => if isdigit c then parse_num r (s32 (i * 10 + c - 48)) else (i, l)
  end.

Definition parse_width (l : list Z) (flags : Z) (args : list sarg) : option (list Z * Z * Z * list sarg) :=
  if isdigit (hd0 l) then let '(w, r) := parse_num l 0 in Some (r, flags, w, args)
  else if decide (hd0 l = 42) then
    match args with
    | AWord w :: args =>
      Some (if decide (s32 w < 0) then (tail l, flags |u LEFT, - s32 w, args) else (tail l, flags, s32 w, args))
    | _ => None
    end
  else Some (l, flags, -1, args).

Definition parse_precision (l : list Z) (args : list sarg) : option (list Z * Z * list sarg) :=
  if decide (hd0 l = 46) then
    let l := tail l in
    if isdigit (hd0 l) then let '(v, r) := parse_num l 0 in Some (r, if decide (v < 0) then 0 else v, args)
    else if decide (hd0 l = 42) then
      match args with
      | AWord w :: args => Some (tail l, if decide (s32 w < 0) then 0 else s32 w, args)
      | _ => None
      end
    else Some (l, 0, args)
  else Some (l, -1, args).

Definition parse_qualifier (l : list Z) : list Z * Z :=
  if decide (hd0 l ∈ [104; 108; 76; 90; 122; 116]) then
    if bool_decide (hd0 l = 108) && bool_decide (hd0 (tail l) = 108) then (tail (tail l), 76) else (tail l, hd0 l)
  else (l, -1).

(** The argument of an integer conversion. *)
Definition take_num (qualifier flags : Z) (args : list sarg) : option (Z * list sarg) :=
  if decide (qualifier = 76) then match args with ADword d :: args => Some (d, args) | _ => None end
  else match args with
  | AWord w :: args =>
    let signed := has_flag flags SIGN in
    Some (if decide (qualifier = 108) then (if signed then u64 (s32 w) else w)
          else if decide (qualifier = 90 \/ qualifier = 122) then w
          else if decide (qualifier = 116) then u64 (s32 w)
          else if decide (qualifier = 104) then (if signed then u64 (s16 (u16 w)) else u16 w)
          else (if signed then u64 (s32 w) else w), args)
  | _ => None
  end.

(** The text of a directive, with the rest of the format and of the arguments.  [%n] writes
    to memory and is not covered. *)
Definition convert (c flags width precision qualifier : Z) (args : list sarg) : option (list sarg * list Z) :=
  if decide (c = 99) then
    match args with AWord w :: args => Some (args, char_text flags width w) | _ => None end
  else if decide (c = 115) then
    match args with
    | AStr s :: args => Some (args, string_text flags width precision s)
    | ANull :: args => Some (args, string_text flags width precision null_text)
    | _ => None
    end
  else if decide (c = 112) then
    match args with
    | AWord w :: args =>
      Some (args, if decide (width = -1) then number_text w 16 8 precision (flags |u ZEROPAD)
                  else number_text w 16 width precision flags)
    | _ => None
    end
  else if decide (c = 110) then None
  else if decide (c = 37) then Some (args, [37])
  else match int_conv c flags with
  | Some (flags, base) =>
    '(num, args) ← take_num qualifier flags args; Some (args, number_text num base width precision flags)
  | None => Some (args, if decide (c = 0) then [37] else [37; c])
  end.

Definition render_directive (f : list Z) (args : list sarg) : option (list Z * list sarg * list Z) :=
  let '(l, flags) := parse_flags f 0 in
  '(l, flags, width, args) ← parse_width l flags args;
  '(l, precision, args) ← parse_precision l args;
  let '(l, qualifier) := parse_qualifier l in
  '(args, text) ← convert (hd0 l) flags width precision qualifier args;
  Some (tail l, args, text).

(** The text of a format. *)
Inductive renders : list Z -> list sarg -> list Z -> Prop :=
| renders_end args : renders [] args []
| renders_char c f args text : c <> 37 -> renders f args text -> renders (c :: f) args (c :: text)
| renders_directive f args f' args' text text' :
    render_directive f args = Some (f', args', text) -> renders f' args' text' -> renders (37 :: f) args (text ++ text').

(** * Digits *)

Lemma digits_value room base n :
  2 <= base -> 0 <= n < 2 ^ Z.of_nat room -> from_digits base (digits room base n) = n.
Proof.
  intros Hb. revert n. induction room as [|room IH]; intros n Hn; cbn [digits]; [cbn; change (2 ^ Z.of_nat 0) with 1 in Hn; lia|].
  case_decide as H0; [by subst|]. unfold from_digits in *. rewrite foldl_app. cbn [foldl].
  rewrite IH; [pose proof (Z.div_mod n base ltac:(lia)); lia|].
  split; [apply Z.div_pos; lia|]. apply Z.div_lt_upper_bound; [lia|]. rewrite Nat2Z.inj_succ, Z.pow_succ_r in Hn by lia. nia.
Qed.

Lemma digits_range room base n : 2 <= base -> Forall (fun d => 0 <= d < base) (digits room base n).
Proof.
  intros Hb. revert n. induction room as [|room IH]; intros n; cbn [digits]; [constructor|]. case_decide; [constructor|].
  apply Forall_app. split; [apply IH|]. repeat constructor; apply Z.mod_pos_bound; lia.
Qed.

(** A number below [2^64] has at most 22 digits in a base from eight on. *)
Lemma digits_length_pow room base n k :
  2 <= base -> 0 <= n < base ^ Z.of_nat k -> (length (digits room base n) <= k)%nat.
Proof.
  intros Hb. revert n k. induction room as [|room IH]; intros n k Hn; cbn [digits]; [cbn; lia|]. case_decide as H0; [cbn; lia|].
  destruct k as [|k]; [change (base ^ Z.of_nat 0) with 1 in Hn; lia|]. rewrite length_app, Nat.add_1_r. apply le_n_S, IH.
  rewrite Nat2Z.inj_succ, Z.pow_succ_r in Hn by lia. split; [apply Z.div_pos; lia|]. apply Z.div_lt_upper_bound; lia.
Qed.

Lemma digits_length room base n : 8 <= base -> 0 <= n < 2^64 -> zlen (digits room base n) <= 22.
Proof.
  intros Hb Hn. pose proof (digits_length_pow room base n 22 ltac:(lia)) as H. unfold zlen.
  assert (8 ^ 22 <= base ^ Z.of_nat 22) by (apply Z.pow_le_mono_l; lia). assert (2^64 < 8^22) by done.
  specialize (H ltac:(lia)). lia.
Qed.

(** The digits that the code makes, from the last one on. *)
Lemma digits_loop_spec room large num base :
  2 <= base -> 0 <= num < 2 ^ Z.of_nat room -> digits_loop room large num base = Some (reverse (digit_char large <$> digits room base num)).
Proof.
  intros Hb. revert num. induction room as [|room IH]; intros num Hn; cbn [digits_loop digits].
  { change (2 ^ Z.of_nat 0) with 1 in Hn. rewrite decide_True by lia. done. }
  case_decide as H0; [done|]. rewrite IH.
  - ob. rewrite fmap_app, reverse_app. done.
  - split; [apply Z.div_pos; lia|]. apply Z.div_lt_upper_bound; [lia|]. rewrite Nat2Z.inj_succ, Z.pow_succ_r in Hn by lia. nia.
Qed.
