(* ===== verification/VsprintfOut.v ===== *)
(** Output into a buffer of limited size: what each piece of the formatting code emits. *)
From Stdlib Require Import ZArith Lia.
From stdpp Require Import base numbers list list_numbers option gmap.
From S2P Require Import Prelude Str StrMem StrSpec Vsprintf VsprintfText.

Local Open Scope Z_scope.
Local Open Scope kernel_scope.

Import Str Vsprintf.

(** * Numbers: signs, prefixes, digits and flags *)

Lemma spaces_none n : n <= 0 -> spaces n = [].
Proof. intros Hn. unfold spaces. by replace (Z.to_nat n) with O by lia. Qed.

Lemma zeros_none n : n <= 0 -> zeros n = [].
Proof. intros Hn. unfold zeros. by replace (Z.to_nat n) with O by lia. Qed.

Lemma spent_neg n : spent n <= 0.
Proof. unfold spent. case_decide; lia. Qed.

Lemma digit_char_range large d : 0 <= d < 36 -> 48 <= digit_char large d < 128.
Proof. intros Hd. unfold digit_char. case_decide; [lia|]. destruct large; lia. Qed.

Lemma number_digits_bytes large base n : 2 <= base <= 36 -> Forall (fun c => 48 <= c < 128) (number_digits large base n).
Proof.
  intros Hb. unfold number_digits. case_decide; [by repeat constructor|]. apply Forall_fmap.
  eapply Forall_impl; [apply digits_range; lia|]. intros d Hd. apply digit_char_range. cbv beta in Hd. lia.
Qed.

Definition is_u64 (x : Z) : Prop := 0 <= x < 2^64.

Lemma magnitude_range num type : is_u64 num -> is_u64 (magnitude num type).
Proof. intros Hn. unfold magnitude. case_match; [|done]. unfold is_u64, u64. apply Z.mod_pos_bound. lia. Qed.

(** [tmp], read backwards. *)
Lemma tmp_spec large base n :
  2 <= base -> is_u64 n ->
  (if decide (n = 0) then Some [48] else digits_loop 66 large n base) = Some (reverse (number_digits large base n)).
Proof.
  intros Hb Hn. unfold number_digits. case_decide; [done|]. apply digits_loop_spec; [done|]. unfold is_u64 in Hn.
  change (Z.of_nat 66) with 66. lia.
Qed.

Lemma flag_unpad type f :
  0 <= type < 2^7 -> f = LEFT \/ f = SIGN \/ f = PLUS \/ f = SPACE \/ f = SPECIAL \/ f = LARGE ->
  has_flag (type &u not32 ZEROPAD) f = has_flag type f.
Proof.
  intros Ht Hf. unfold has_flag. apply bool_decide_ext. rewrite <- Z.land_assoc. replace (Z.land (not32 ZEROPAD) f) with f; [done|].
  destruct_or! Hf; subst f; reflexivity.
Qed.

Lemma flag_unpad_zero type : has_flag (type &u not32 ZEROPAD) ZEROPAD = false.
Proof. unfold has_flag. rewrite <- Z.land_assoc. replace (Z.land (not32 ZEROPAD) ZEROPAD) with 0 by reflexivity. by rewrite Z.land_0_r. Qed.

Lemma flag_either type : has_flag type (ZEROPAD + LEFT) = has_flag type ZEROPAD || has_flag type LEFT.
Proof.
  unfold has_flag. change (ZEROPAD + LEFT) with (Z.lor ZEROPAD LEFT). rewrite Z.land_lor_distr_r.
  rewrite <- bool_decide_or. apply bool_decide_ext. rewrite Z.lor_eq_0_iff. destruct (decide (Z.land type ZEROPAD = 0)); tauto.
Qed.

(** The sign and the prefix as lists. *)
Definition sign_char (num type : Z) : Z := match sign_text num type with [] => 0 | c :: _ => c end.

Lemma sign_triple num type width :
  (if has_flag type SIGN then
     if decide (s64 num < 0) then (45, u64 (- s64 num), width - 1)
     else if has_flag type PLUS then (43, num, width - 1)
     else if has_flag type SPACE then (32, num, width - 1)
     else (0, num, width)
   else (0, num, width))
  = (sign_char num type, magnitude num type, width - zlen (sign_text num type)).
Proof.
  unfold sign_char, magnitude, sign_text, negative. destruct (has_flag type SIGN); cbn [negb andb].
  2: { change (zlen (@nil Z)) with 0. f_equal. lia. }
  case_decide as Hn; [by rewrite bool_decide_eq_true_2|rewrite bool_decide_eq_false_2 by done].
  destruct (has_flag type PLUS); [done|]. destruct (has_flag type SPACE); [done|]. change (zlen (@nil Z)) with 0. f_equal. lia.
Qed.

Lemma emit_one (e c : Z) (st : out) : emit_list e [c] st = emit e c st.
Proof. cbn [emit_list]. by destruct (emit e c st). Qed.

Lemma prefix_room base type width :
  (if has_flag type SPECIAL then
     if decide (base = 16) then width - 2 else if decide (base = 8) then width - 1 else width
   else width) = width - zlen (prefix_text base type).
Proof.
  unfold prefix_text. destruct (has_flag type SPECIAL); cbn [negb]; [|change (zlen (@nil Z)) with 0; lia].
  destruct (decide (base = 16)) as [->|?]; [done|]. case_decide; [done|]. change (zlen (@nil Z)) with 0. lia.
Qed.

(** * Output *)

Section Out.
Context (m0 : mem) (buf size N : Z).
Context (Hbuf : 0 <= buf) (Hsize : 0 <= size) (Hend : buf + size <= 2^32).
Context (Hmap : mapped m0 buf (Z.min size (N + 1))) (HN : buf + N < 2^32).

Let end_ : Z := buf + size - 1.

(** Memory and position when the text [l] has been put out. *)
Definition outm (l : list Z) : mem := writes m0 buf (take (Z.to_nat size) l).
Definition pos (l : list Z) : out := (outm l, buf + zlen l).

(** The code emits the text [t]. *)
Definition emits (F : out -> option out) (t : list Z) : Prop :=
  forall l, zlen (l ++ t) <= N -> F (pos l) = Some (pos (l ++ t)).

Lemma emits_nil : emits Some [].
Proof. intros l _. by rewrite app_nil_r. Qed.

Lemma emits_bind F G t u : emits F t -> emits G u -> emits (fun st => st ← F st; G st) (t ++ u).
Proof.
  intros HF HG l Hl. rewrite app_assoc in *. pose proof (zlen_nonneg u). rewrite HF by (rewrite zlen_app in Hl; lia). ob. by apply HG.
Qed.

Lemma emits_emit c : is_u8 c -> emits (emit end_ c) [c].
Proof.
  intros Hc l Hl. unfold pos, outm, emit. rewrite zlen_app, zlen_cons, zlen_nil in *. pose proof (zlen_nonneg l) as Hl0.
  rewrite (u32_small (buf + zlen l + 1)) by (unfold is_u32; lia). replace (buf + (zlen l + (0 + 1))) with (buf + zlen l + 1) by lia.
  case_decide as Hle.
  - unfold end_ in Hle. rewrite store_eq; [|apply mapped_writes with (p := buf) (n := Z.min size (N + 1)); [done|lia]|done].
    ob. do 2 f_equal. rewrite !take_ge by (unfold zlen in *; rewrite ?length_app; cbn [length]; lia). by rewrite writes_app.
  - do 2 f_equal. unfold end_ in Hle. by rewrite take_app_le by (unfold zlen in *; lia).
Qed.

Lemma emits_n n c : is_u8 c -> emits (emit_n end_ n c) (replicate n c).
Proof.
  intros Hc. induction n as [|n IH]; [apply emits_nil|]. cbn [emit_n replicate].
  change (c :: replicate n c) with ([c] ++ replicate n c). apply emits_bind; [by apply emits_emit|done].
Qed.

Lemma emits_list t : Forall is_u8 t -> emits (emit_list end_ t) t.
Proof.
  induction 1 as [|c t Hc Ht IH]; [apply emits_nil|]. cbn [emit_list]. change (c :: t) with ([c] ++ t).
  apply emits_bind; [by apply emits_emit|done].
Qed.

Lemma emits_spaces n : emits (emit_n end_ (Z.to_nat n) 32) (spaces n).
Proof. by apply emits_n. Qed.
Lemma emits_zeros n : emits (emit_n end_ (Z.to_nat n) 48) (zeros n).
Proof. by apply emits_n. Qed.

Lemma emits_if (b : bool) F G t u : emits F t -> emits G u -> emits (fun st => if b then F st else G st) (if b then t else u).
Proof. by destruct b. Qed.

(** The parts of [number] one after the other, with the room that is left in the field. *)
Definition number_parts (left zero : bool) (sg pf ds : list Z) (room extra : Z) (st : out) : option out :=
  let a := if zero || left then 0 else room in
  let r1 := if zero || left then room else spent room in
  let b := if left then 0 else r1 in
  let r2 := if left then r1 else spent r1 in
  st ← emit_n end_ (Z.to_nat a) 32 st;
  st ← emit_list end_ sg st;
  st ← emit_list end_ pf st;
  st ← emit_n end_ (Z.to_nat b) (if zero then 48 else 32) st;
  st ← emit_n end_ (Z.to_nat extra) 48 st;
  st ← emit_list end_ ds st;
  emit_n end_ (Z.to_nat r2) 32 st.

Lemma number_parts_emits left zero sg pf ds room extra :
  Forall is_u8 sg -> Forall is_u8 pf -> Forall is_u8 ds ->
  emits (number_parts left zero sg pf ds room extra)
    (if left then sg ++ pf ++ zeros extra ++ ds ++ spaces room
     else if zero then sg ++ pf ++ zeros room ++ zeros extra ++ ds
     else spaces room ++ sg ++ pf ++ zeros extra ++ ds).
Proof.
  intros Hs Hp Hd. unfold number_parts.
  set (a := if zero || left then 0 else room). set (s1 := if zero || left then room else spent room).
  set (b := if left then 0 else s1). set (s2 := if left then s1 else spent s1).
  match goal with |- emits _ ?t => assert (t = spaces a ++ sg ++ pf ++ replicate (Z.to_nat b) (if zero then 48 else 32) ++
    zeros extra ++ ds ++ spaces s2) as -> end.
  { unfold a, b, s1, s2. pose proof (spent_neg room). pose proof (spent_neg (spent room)).
    destruct left, zero; cbn [orb]; rewrite ?(spaces_none 0), ?(spaces_none (spent _)), ?app_nil_r by (done || apply spent_neg);
      cbn [Z.to_nat replicate app]; try done.
    replace (Z.to_nat (spent room)) with O by lia. done. }
  repeat (apply emits_bind; [by (apply emits_spaces || apply emits_list || apply emits_zeros || (apply emits_n; destruct zero))|]).
  apply emits_spaces.
Qed.

Lemma sign_emit num type st : (if decide (sign_char num type <> 0) then emit end_ (sign_char num type) st else Some st)
  = emit_list end_ (sign_text num type) st.
Proof.
  assert (Ht : sign_text num type = [] \/ exists c, c <> 0 /\ sign_text num type = [c]).
  { unfold sign_text. repeat (case_match; eauto); right; eexists; (split; [|done]); done. }
  unfold sign_char. destruct Ht as [->|(c & Hc & ->)]; [done|]. by rewrite decide_True, emit_one.
Qed.

Lemma prefix_emit large base type st :
  has_flag type LARGE = large ->
  (if has_flag type SPECIAL then
     if decide (base = 8) then emit end_ 48 st
     else if decide (base = 16) then st ← emit end_ 48 st; emit end_ (digit_char large 33) st
     else Some st
   else Some st) = emit_list end_ (prefix_text base type) st.
Proof.
  intros <-. unfold prefix_text. destruct (has_flag type SPECIAL); cbn [negb]; [|done].
  case_decide; [by rewrite emit_one|]. case_decide; [|done]. cbn [emit_list]. destruct (emit end_ 48 st) as [st1|]; [|done].
  ob. by destruct (emit _ _ st1).
Qed.

Lemma number_eq num base width precision type st :
  2 <= base <= 36 -> is_u64 num -> 0 <= type < 2^7 ->
  let ds := number_digits (has_flag type LARGE) base (magnitude num type) in
  let p := Z.max precision (zlen ds) in
  number end_ num base width precision type st =
  number_parts (has_flag type LEFT) (has_flag type ZEROPAD && negb (has_flag type LEFT)) (sign_text num type)
    (prefix_text base type) ds (width - zlen (sign_text num type) - zlen (prefix_text base type) - p) (p - zlen ds) st.
Proof.
  intros Hb Hn Ht ds p. unfold number. set (ty := if has_flag type LEFT then type &u not32 ZEROPAD else type).
  assert (Hf : forall f, f = LEFT \/ f = SIGN \/ f = PLUS \/ f = SPACE \/ f = SPECIAL \/ f = LARGE -> has_flag ty f = has_flag type f).
  { intros f Hf. unfold ty. destruct (has_flag type LEFT); [by apply flag_unpad|done]. }
  assert (Hz : has_flag ty ZEROPAD = has_flag type ZEROPAD && negb (has_flag type LEFT)).
  { unfold ty. destruct (has_flag type LEFT); [by rewrite flag_unpad_zero, andb_false_r|by rewrite andb_true_r]. }
  rewrite decide_False by lia. rewrite flag_either, !Hz, !Hf by tauto. rewrite sign_triple, prefix_room.
  rewrite tmp_spec by (by apply magnitude_range || lia). ob. rewrite zlen_reverse, reverse_involutive. fold ds.
  replace (if decide (precision < zlen ds) then zlen ds else precision) with p by (unfold p; case_decide; lia).
  unfold number_parts. set (z := has_flag type ZEROPAD && negb (has_flag type LEFT)). set (r := width - _ - _ - p).
  destruct (z || has_flag type LEFT); cbn [negb]; [change (Z.to_nat 0) with O; cbn [emit_n]|destruct (emit_n end_ (Z.to_nat r) 32 st) as [st1|]; [|done]]; ob.
  all: rewrite sign_emit; destruct (emit_list end_ (sign_text num type) _) as [st2|]; [|done]; ob.
  all: rewrite (prefix_emit (has_flag type LARGE)) by done; destruct (emit_list end_ (prefix_text base type) _) as [st3|]; [|done]; ob.
  all: destruct (has_flag type LEFT); cbn [negb]; change (Z.to_nat 0) with O; cbn [emit_n]; ob; [done|]; destruct (emit_n end_ _ _ st3) as [st4|]; done.
Qed.

Lemma number_emits num base width precision type :
  2 <= base <= 36 -> is_u64 num -> 0 <= type < 2^7 ->
  emits (number end_ num base width precision type) (number_text num base width precision type).
Proof.
  intros Hb Hn Ht l. rewrite number_eq by done. unfold number_text.
  set (ds := number_digits _ _ _). set (sg := sign_text num type). set (pf := prefix_text base type).
  set (p := Z.max precision (zlen ds)). set (r := width - zlen sg - zlen pf - p).
  assert (Hz : zlen (zeros (precision - zlen ds) ++ ds) = p).
  { rewrite zlen_app. unfold p, zeros, zlen. rewrite length_replicate. lia. }
  replace (width - zlen (sg ++ pf) - zlen (zeros (precision - zlen ds) ++ ds)) with r by (rewrite Hz, zlen_app; unfold r; lia).
  replace (zeros (precision - zlen ds)) with (zeros (p - zlen ds)) by (unfold p, zeros; f_equal; lia).
  assert (Hgen : emits (number_parts (has_flag type LEFT) (has_flag type ZEROPAD && negb (has_flag type LEFT)) sg pf ds r (p - zlen ds))
    (if has_flag type LEFT then sg ++ pf ++ zeros (p - zlen ds) ++ ds ++ spaces r
     else if has_flag type ZEROPAD && negb (has_flag type LEFT) then sg ++ pf ++ zeros r ++ zeros (p - zlen ds) ++ ds
     else spaces r ++ sg ++ pf ++ zeros (p - zlen ds) ++ ds)).
  { apply number_parts_emits.
    - unfold sg, sign_text. repeat (case_match; try constructor); try done.
    - pose proof (digit_char_range (has_flag type LARGE) 33 ltac:(lia)). unfold pf, prefix_text.
      destruct (negb _); [constructor|]. case_decide; [by repeat constructor|]. case_decide; [|constructor].
      apply Forall_cons. split; [done|]. apply Forall_singleton. unfold is_u8. lia.
    - eapply Forall_impl; [by apply number_digits_bytes|]. unfold is_u8. intros c Hc. lia. }
  destruct (has_flag type LEFT), (has_flag type ZEROPAD); cbn [andb negb] in *; rewrite <- ?app_assoc; apply Hgen.
Qed.

(** * Characters and strings *)

(** Memory outside the buffer stays as it is. *)
Lemma outm_out l a : zlen l <= N -> a < buf \/ buf + Z.min size N <= a -> outm l !! a = m0 !! a.
Proof. intros Hl Ha. unfold outm. apply writes_out. unfold zlen in *. rewrite length_take. lia. Qed.

(** A string outside of what is written before the terminator. *)
Definition safe (p : Z) (s : list Z) : Prop := cstr m0 p s /\ (p + zlen s < buf \/ buf + Z.min size N <= p).

Lemma safe_cstr l p s : zlen l <= N -> safe p s -> cstr (outm l) p s.
Proof. intros Hl [Hs Hd]. eapply cstr_same; [done|]. intros a Ha. apply outm_out; lia. Qed.

Lemma safe_suffix p s t : safe p (s ++ t) -> safe (p + zlen s) t.
Proof.
  intros [Hs Hd]. rewrite zlen_app in Hd. pose proof (zlen_nonneg s) as Hz. split; [|lia]. clear Hd Hz. revert p Hs. induction s as [|c s IH]; intros p Hs.
  - change (zlen (@nil Z)) with 0. by rewrite Z.add_0_r.
  - destruct Hs as (_ & _ & Hs). rewrite zlen_cons. replace (p + (zlen s + 1)) with (p + 1 + zlen s) by lia. by apply IH.
Qed.

Lemma copy_string_emits n p s : safe p s -> (n <= length s)%nat -> emits (copy_string end_ n p) (take n s).
Proof.
  revert p s. induction n as [|n IH]; intros p s Hs Hn; [apply emits_nil|]. destruct s as [|c s]; [cbn in Hn; lia|].
  intros l Hl. cbn [copy_string firstn] in *.
  pose proof (safe_cstr l p _ (zlen_prefix l _ _ Hl) Hs) as (Hc & Hr & _). cbn [fst pos].
  rewrite Hc. ob. revert l Hl Hc. assert (Hcut : emits (fun st => st ← emit end_ c st; copy_string end_ n (p + 1) st) ([c] ++ take n s)).
  { apply emits_bind; [apply emits_emit; unfold is_u8; lia|]. apply IH; [|cbn in Hn; lia].
    apply (safe_suffix p [c] s Hs). }
  intros l Hl _. by apply Hcut.
Qed.

Lemma conv_char_emits flags width w : emits (conv_char end_ flags width w) (char_text flags width w).
Proof.
  unfold conv_char, char_text. assert (Hc : emits (emit end_ (u8 w)) [u8 w]) by apply emits_emit, u8_range.
  destruct (has_flag flags LEFT); cbn [negb].
  - change (u8 w :: spaces (width - 1)) with ([u8 w] ++ spaces (width - 1)). apply emits_bind; [done|apply emits_spaces].
  - intros l Hl. set (w' := if decide (0 < width - 1) then 0 else width - 1).
    assert (Hw : w' - 1 <= 0) by (unfold w'; case_decide; lia).
    pose proof (emits_bind _ _ _ _ (emits_spaces (width - 1)) (emits_bind _ _ _ _ Hc (emits_spaces (w' - 1)))) as H.
    rewrite (spaces_none (w' - 1)), app_nil_r in H by done. specialize (H l Hl). rewrite <- H.
    by destruct (emit_n end_ (Z.to_nat (width - 1)) 32 (pos l)).
Qed.

(** The string with its padding, when [copy] puts out the string. *)
Lemma padded_emits flags width t copy :
  emits copy t ->
  emits (fun st =>
    '(st, width) ← (if negb (has_flag flags LEFT)
      then st ← emit_n end_ (Z.to_nat (width - zlen t)) 32 st; Some (st, (if decide (zlen t < width) then zlen t else width) - 1)
      else Some (st, width));
    st ← copy st; emit_n end_ (Z.to_nat (width - zlen t)) 32 st)
  (if has_flag flags LEFT then t ++ spaces (width - zlen t) else spaces (width - zlen t) ++ t).
Proof.
  intros Hc. destruct (has_flag flags LEFT); cbn [negb].
  - apply emits_bind; [done|apply emits_spaces].
  - intros l Hl. set (w' := (if decide (zlen t < width) then zlen t else width) - 1).
    assert (Hw : w' - zlen t <= 0) by (unfold w'; case_decide; lia).
    pose proof (emits_bind _ _ _ _ (emits_spaces (width - zlen t)) (emits_bind _ _ _ _ Hc (emits_spaces (w' - zlen t)))) as H.
    rewrite (spaces_none (w' - zlen t)), app_nil_r in H by done. specialize (H l Hl). rewrite <- H.
    by destruct (emit_n end_ (Z.to_nat (width - zlen t)) 32 (pos l)).
Qed.

Lemma conv_string_emits flags width precision p s :
  safe p s -> PAGE_SIZE <= p -> emits (conv_string end_ flags width precision p) (string_text flags width precision s).
Proof.
  intros Hs Hp l Hl. unfold conv_string, string_text in *. destruct (decide (p < PAGE_SIZE)) as [?|_]; [lia|]. cbn [fst pos].
  pose proof (u32_range precision) as Hu. unfold is_u32 in Hu. pose proof (zlen_nonneg s).
  rewrite (strnlen_spec (outm l) p s _ (safe_cstr l p s (zlen_prefix l _ _ Hl) Hs)) by lia. ob.
  set (n := Z.min (u32 precision) (zlen s)) in *. assert (Hz : zlen (take (Z.to_nat n) s) = n) by (rewrite zlen_take; lia).
  rewrite Hz in *. pose proof (padded_emits flags width (take (Z.to_nat n) s) (copy_string end_ (Z.to_nat n) p)) as H1.
  rewrite Hz in H1. apply H1; [|exact Hl]. apply copy_string_emits; [done|]. unfold n, zlen. lia.
Qed.

Lemma conv_null_emits flags width precision p :
  p < PAGE_SIZE -> emits (conv_string end_ flags width precision p) (string_text flags width precision null_text).
Proof.
  intros Hp l Hl. unfold conv_string, string_text in *. destruct (decide (p < PAGE_SIZE)) as [_|?]; [|lia].
  pose proof (u32_range precision) as Hu. unfold is_u32 in Hu. ob.
  set (n := Z.min (u32 precision) (zlen null_text)) in *.
  assert (Hz : zlen (take (Z.to_nat n) null_text) = n) by (rewrite zlen_take; unfold n, zlen; cbn; lia).
  rewrite Hz in *. pose proof (padded_emits flags width (take (Z.to_nat n) null_text) (emit_list end_ (take (Z.to_nat n) null_text))) as H1.
  rewrite Hz in H1. apply H1; [|exact Hl]. apply emits_list, Forall_take. by repeat constructor.
Qed.
End Out.
