(* ===== verification/VsprintfParse.v ===== *)
(** Parsing a directive: the code walks along the format as the reference definitions do. *)
From Stdlib Require Import ZArith Lia.
From stdpp Require Import base numbers list list_numbers option gmap.
From S2P Require Import Prelude Str StrMem StrSpec Vsprintf VsprintfText VsprintfOut.

Local Open Scope Z_scope.
Local Open Scope kernel_scope.

Import Str Vsprintf.

(** From the text [l] at [p] to the rest [l'] at [p']. *)
Definition advance (p : Z) (l : list Z) (p' : Z) (l' : list Z) : Prop := exists pre, l = pre ++ l' /\ p' = p + zlen pre.

Lemma advance_refl p l : advance p l p l.
Proof. exists []. split; [done|]. change (zlen (@nil Z)) with 0. lia. Qed.

Lemma advance_cons p c l : advance p (c :: l) (p + 1) l.
Proof. by exists [c]. Qed.

Lemma advance_trans p l p1 l1 p2 l2 : advance p l p1 l1 -> advance p1 l1 p2 l2 -> advance p l p2 l2.
Proof.
  intros (a & -> & ->) (b & -> & ->). exists (a ++ b). split; [by rewrite app_assoc|]. rewrite zlen_app. lia.
Qed.

Lemma advance_cstr m p l p' l' : cstr m p l -> advance p l p' l' -> cstr m p' l'.
Proof.
  intros Hc (pre & -> & ->). revert p Hc. induction pre as [|c pre IH]; intros p Hc.
  - change (zlen (@nil Z)) with 0. by rewrite Z.add_0_r.
  - destruct Hc as (_ & _ & Hc). rewrite zlen_cons. replace (p + (zlen pre + 1)) with (p + 1 + zlen pre) by lia. by apply IH.
Qed.

Lemma advance_safe m buf size N p l p' l' : safe m buf size N p l -> advance p l p' l' -> safe m buf size N p' l'.
Proof. intros Hs (pre & -> & ->). by apply safe_suffix. Qed.

Lemma advance_length p l p' l' : advance p l p' l' -> (length l' <= length l)%nat.
Proof. intros (pre & -> & _). rewrite length_app. lia. Qed.

Create HintDb vsp.
#[export] Hint Resolve advance_refl advance_cons advance_trans : vsp.

Lemma cstr_hd m p l : cstr m p l -> m !! p = Some (hd0 l).
Proof. destruct l; [done|]. by intros [? _]. Qed.

Lemma hd0_tail l : hd0 l <> 0 -> l = hd0 l :: tail l.
Proof. by destruct l. Qed.

Lemma advance_tail p l : hd0 l <> 0 -> advance p l (p + 1) (tail l).
Proof. intros Hl. rewrite (hd0_tail l Hl) at 1. apply advance_cons. Qed.

Lemma isdigit_0 : isdigit 0 = false.
Proof. reflexivity. Qed.

(** * The parts of a directive *)

Lemma flags_loop_spec fuel m p l flags l' flags' :
  cstr m (p + 1) l -> (length l < fuel)%nat -> 0 <= flags < 2^7 -> parse_flags l flags = (l', flags') ->
  exists p', flags_loop fuel m p flags = Some (p', flags') /\ advance (p + 1) l p' l' /\ 0 <= flags' < 2^7.
Proof.
  revert p l flags. induction fuel as [|fuel IH]; intros p l flags Hc Hf Hfl Hp; [lia|]. cbn [flags_loop].
  rewrite (cstr_hd _ _ _ Hc). ob. destruct l as [|c r]; cbn [hd0 parse_flags] in *.
  { injection Hp as <- <-. rewrite !decide_False by lia. eauto with vsp. }
  destruct Hc as (_ & _ & Hc). cbn [length] in Hf.
  assert (Hstep : forall f, 0 <= f < 2^7 -> parse_flags r (flags |u f) = (l', flags') ->
    exists p', flags_loop fuel m (p + 1) (flags |u f) = Some (p', flags') /\ advance (p + 1) (c :: r) p' l' /\ 0 <= flags' < 2^7).
  { intros f Hr Hp'. destruct (IH (p + 1) r (flags |u f)) as (q & ? & ? & ?); [done|lia|by apply lor_range|done|]. eauto 6 with vsp. }
  repeat (case_decide; [apply Hstep; [done|assumption]|]). injection Hp as <- <-. eauto with vsp.
Qed.

Lemma skip_atoi_loop_spec fuel m p l i v l' :
  cstr m p l -> (length l < fuel)%nat -> parse_num l i = (v, l') ->
  exists p', skip_atoi_loop fuel m p i = Some (v, p') /\ advance p l p' l'.
Proof.
  revert p l i. induction fuel as [|fuel IH]; intros p l i Hc Hf Hp; [lia|]. cbn [skip_atoi_loop].
  rewrite (cstr_hd _ _ _ Hc). ob. destruct l as [|c r]; cbn [hd0 parse_num] in *.
  { injection Hp as <- <-. rewrite isdigit_0. eauto with vsp. }
  destruct Hc as (_ & _ & Hc). cbn [length] in Hf. destruct (isdigit c); [|injection Hp as <- <-; eauto with vsp].
  destruct (IH _ _ _ Hc ltac:(lia) Hp) as (q & ? & ?). eauto with vsp.
Qed.

Lemma skip_atoi_spec m p l v l' :
  cstr m p l -> parse_num l 0 = (v, l') -> exists p', skip_atoi m p = Some (v, p') /\ advance p l p' l'.
Proof. intros Hc Hp. eapply skip_atoi_loop_spec; [done|by eapply cstr_walk|done]. Qed.

Lemma get_qualifier_spec m p l l' q :
  cstr m p l -> parse_qualifier l = (l', q) -> exists p', get_qualifier m p = Some (p', q) /\ advance p l p' l'.
Proof.
  intros Hc Hp. unfold get_qualifier, parse_qualifier in *. rewrite (cstr_hd _ _ _ Hc). ob.
  destruct (decide (hd0 l ∈ [104; 108; 76; 90; 122; 116])) as [Hin|_]; [|injection Hp as <- <-; eauto with vsp].
  assert (Hne : hd0 l <> 0) by (intros H0; rewrite H0 in Hin; set_solver). pose proof (advance_tail p l Hne) as Ht.
  pose proof (advance_cstr _ _ _ _ _ Hc Ht) as Hc'. rewrite (cstr_hd _ _ _ Hc'). ob.
  destruct (bool_decide (hd0 l = 108) && bool_decide (hd0 (tail l) = 108)) eqn:Hll; injection Hp as <- <-; eauto with vsp.
  apply andb_prop in Hll as [_ H2]. apply bool_decide_eq_true in H2. eexists. split; [done|].
  replace (p + 2) with (p + 1 + 1) by lia. eapply advance_trans; [exact Ht|]. apply advance_tail. lia.
Qed.

(** * Arguments *)

Section Args.
Context (m0 : mem) (buf size N : Z).

(** The machine's argument for an abstract one. *)
Definition amatch (v : varg) (a : sarg) : Prop :=
  match v, a with
  | W32 w, AWord w' => w = w' /\ is_u32 w
  | W64 d, ADword d' => d = d' /\ is_u64 d
  | W32 p, AStr s => PAGE_SIZE <= p /\ safe m0 buf size N p s
  | W32 p, ANull => p < PAGE_SIZE
  | _, _ => False
  end.

Lemma va_word_spec args w sargs :
  Forall2 amatch args (AWord w :: sargs) -> exists args', va_word args = Some (w, args') /\ is_u32 w /\ Forall2 amatch args' sargs.
Proof. intros (v & args' & Hv & Ha & ->)%Forall2_cons_inv_r. destruct v; [|done]. destruct Hv as [-> ?]. eauto. Qed.

Lemma get_width_spec m p l flags args sargs l' flags' width sargs' :
  cstr m p l -> 0 <= flags < 2^7 -> Forall2 amatch args sargs -> parse_width l flags sargs = Some (l', flags', width, sargs') ->
  exists p' args', get_width m p flags args = Some (p', flags', width, args') /\ advance p l p' l' /\ 0 <= flags' < 2^7 /\
    Forall2 amatch args' sargs'.
Proof.
  intros Hc Hf Ha Hp. unfold get_width, parse_width in *. rewrite (cstr_hd _ _ _ Hc). ob.
  destruct (isdigit (hd0 l)) eqn:Hd.
  { destruct (parse_num l 0) as [w r] eqn:Hn. injection Hp as <- <- <- <-.
    destruct (skip_atoi_spec _ _ _ _ _ Hc Hn) as (q & -> & ?). ob. eauto 6. }
  destruct (decide (hd0 l = 42)) as [Hs|_]; [|injection Hp as <- <- <- <-; eauto 6 with vsp].
  destruct sargs as [|[w| | |] sargs]; try done. destruct (va_word_spec _ _ _ Ha) as (args' & -> & Hw & Ha'). ob.
  pose proof (advance_tail p l ltac:(lia)) as Ht.
  destruct (decide (s32 w < 0)); injection Hp as <- <- <- <-; [|eauto 6].
  do 2 eexists. split; [done|]. split; [done|]. split; [by apply lor_range|done].
Qed.

Lemma get_precision_spec m p l args sargs l' precision sargs' :
  cstr m p l -> Forall2 amatch args sargs -> parse_precision l sargs = Some (l', precision, sargs') ->
  exists p' args', get_precision m p args = Some (p', precision, args') /\ advance p l p' l' /\ Forall2 amatch args' sargs'.
Proof.
  intros Hc Ha Hp. unfold get_precision, parse_precision in *. rewrite (cstr_hd _ _ _ Hc). ob.
  destruct (decide (hd0 l = 46)) as [Hs|_]; [|injection Hp as <- <- <-; eauto 6 with vsp].
  pose proof (advance_tail p l ltac:(lia)) as Ht. pose proof (advance_cstr _ _ _ _ _ Hc Ht) as Hc'.
  rewrite (cstr_hd _ _ _ Hc'). ob. destruct (isdigit (hd0 (tail l))).
  { destruct (parse_num (tail l) 0) as [w r] eqn:Hn. injection Hp as <- <- <-.
    destruct (skip_atoi_spec _ _ _ _ _ Hc' Hn) as (q & -> & ?). ob. eauto 6 with vsp. }
  destruct (decide (hd0 (tail l) = 42)) as [Hs2|_]; [|injection Hp as <- <- <-; ob; eauto 6 with vsp].
  destruct sargs as [|[w| | |] sargs]; try done. destruct (va_word_spec _ _ _ Ha) as (args' & -> & Hw & Ha'). ob.
  injection Hp as <- <- <-. do 2 eexists. split; [done|]. split; [|done].
  eapply advance_trans; [exact Ht|]. apply advance_tail. lia.
Qed.

Lemma u64_range x : is_u64 (u64 x).
Proof. apply Z.mod_pos_bound. lia. Qed.

Lemma is_u64_word x : is_u32 x -> is_u64 x.
Proof. unfold is_u32, is_u64. lia. Qed.

Lemma get_num_spec q flags args sargs num sargs' :
  Forall2 amatch args sargs -> take_num q flags sargs = Some (num, sargs') ->
  exists args', get_num q flags args = Some (num, args') /\ is_u64 num /\ Forall2 amatch args' sargs'.
Proof.
  intros Ha Ht. unfold get_num, take_num in *. destruct (decide (q = 76)).
  - destruct sargs as [|[|d| |] sargs]; try done. injection Ht as <- <-.
    apply Forall2_cons_inv_r in Ha as (v & args' & Hv & Ha & ->). destruct v; [done|]. destruct Hv as [-> ?]. eauto.
  - destruct sargs as [|[w| | |] sargs]; try done. destruct (va_word_spec _ _ _ Ha) as (args' & -> & Hw & Ha'). ob.
    injection Ht as <- <-. eexists. split; [done|]. split; [|done].
    repeat (case_match; try apply u64_range; try by apply is_u64_word).
    all: apply is_u64_word; unfold is_u32, u16; pose proof (Z.mod_pos_bound w (2^16) ltac:(lia)); lia.
Qed.
End Args.
