(* ===== verification/VsprintfSpec.v ===== *)
(** [vsnprintf] puts out the text of its format, and numbers can be read back. *)
From Stdlib Require Import ZArith Lia.
From stdpp Require Import base numbers list list_numbers option gmap.
From S2P Require Import Prelude Str StrMem StrSpec Vsprintf VsprintfText VsprintfOut VsprintfParse.

Local Open Scope Z_scope.
Local Open Scope kernel_scope.

Import Str Vsprintf.

Section Format.
Context (m0 : mem) (buf size N : Z).
Context (Hbuf : 0 <= buf) (Hsize : 0 <= size) (Hend : buf + size <= 2^32).
Context (Hmap : mapped m0 buf (Z.min size (N + 1))) (HN : buf + N < 2^32).

Let end_ : Z := buf + size - 1.
Let pos := pos m0 buf size.
Let safe := safe m0 buf size N.
Let amatch := amatch m0 buf size N.
Let emits := emits m0 buf size N.

(** * Directives *)

(** A conversion that only puts out text. *)
Lemma emits_conv F t out (p : Z) (args : list varg) :
  emits F t -> zlen (out ++ t) <= N -> (st ← F (pos out); Some (p, args, st)) = Some (p, args, pos (out ++ t)).
Proof. intros HF Hl. unfold pos. rewrite (HF out Hl). done. Qed.

Lemma Forall2_str args sargs s :
  Forall2 amatch args (AStr s :: sargs) -> exists p args', args = W32 p :: args' /\ PAGE_SIZE <= p /\ safe p s /\ Forall2 amatch args' sargs.
Proof. intros (v & args' & Hv & Ha & ->)%Forall2_cons_inv_r. destruct v; [|done]. destruct Hv. eauto 6. Qed.

Lemma Forall2_null args sargs :
  Forall2 amatch args (ANull :: sargs) -> exists p args', args = W32 p :: args' /\ p < PAGE_SIZE /\ Forall2 amatch args' sargs.
Proof. intros (v & args' & Hv & Ha & ->)%Forall2_cons_inv_r. destruct v; [|done]. eauto 6. Qed.

Lemma int_conv_range c flags flags' base :
  0 <= flags < 2^7 -> int_conv c flags = Some (flags', base) -> 0 <= flags' < 2^7 /\ 2 <= base <= 36.
Proof.
  intros Hf. unfold int_conv. repeat (case_decide; [intros [= <- <-]; (split; [first [done|by apply lor_range]|lia])|]). done.
Qed.

Definition conv_ok (c flags width precision q p : Z) (args : list varg) (sargs' : list sarg) (text out : list Z) : Prop :=
  exists p' args', conversion buf end_ p flags width precision q c args (pos out) = Some (p', args', pos (out ++ text)) /\
    p' = (if decide (c = 0) then p - 1 else p) /\ Forall2 amatch args' sargs'.

(** The conversion after the flags, the width, the precision and the qualifier. *)
Lemma conversion_spec p c flags width precision q args sargs sargs' text out :
  is_u8 c -> 0 <= flags < 2^7 -> Forall2 amatch args sargs ->
  convert c flags width precision q sargs = Some (sargs', text) -> zlen (out ++ text) <= N ->
  conv_ok c flags width precision q p args sargs' text out.
Proof.
  intros Hu Hf Ha Hc HNl. unfold conv_ok, conversion, convert in *.
  destruct (decide (c = 99)) as [->|_].
  { destruct sargs as [|[w| | |] sargs]; try done. injection Hc as <- <-. destruct (va_word_spec _ _ _ _ _ _ _ Ha) as (args' & -> & _ & Ha').
    ob. rewrite (emits_conv _ (char_text flags width w)) by (done || by apply conv_char_emits). eauto 6. }
  destruct (decide (c = 115)) as [->|_].
  { destruct sargs as [|[w|d|s|] sargs]; try done; injection Hc as <- <-.
    - destruct (Forall2_str _ _ _ Ha) as (a & args' & -> & Hp & Hs & Ha'). cbn [va_word]. ob.
      rewrite (emits_conv _ (string_text flags width precision s)) by (done || by apply conv_string_emits). eauto 6.
    - destruct (Forall2_null _ _ Ha) as (a & args' & -> & Hp & Ha'). cbn [va_word]. ob.
      rewrite (emits_conv _ (string_text flags width precision null_text)) by (done || by apply conv_null_emits). eauto 6. }
  destruct (decide (c = 112)) as [->|_].
  { destruct sargs as [|[w| | |] sargs]; try done. injection Hc as <- <-. destruct (va_word_spec _ _ _ _ _ _ _ Ha) as (args' & He & Hw & Ha').
    apply is_u64_word in Hw. destruct (decide (width = -1)); rewrite He; ob.
    - rewrite (emits_conv _ (number_text w 16 8 precision (flags |u ZEROPAD))); [eauto 6| |done].
      apply number_emits; (done || lia || by apply lor_range).
    - rewrite (emits_conv _ (number_text w 16 width precision flags)); [eauto 6| |done]. apply number_emits; done || lia. }
  destruct (decide (c = 110)) as [->|_]; [done|]. destruct (decide (c = 37)) as [->|_].
  { injection Hc as <- <-. rewrite (emits_conv _ [37]) by (done || by apply emits_emit). eauto 6. }
  destruct (int_conv c flags) as [[flags' base]|] eqn:Hi.
  - destruct (int_conv_range _ _ _ _ Hf Hi) as [Hf' Hb]. assert (c <> 0) by (by intros ->).
    destruct (take_num q flags' sargs) as [[num sargs1]|] eqn:Ht; [|done]. injection Hc as <- <-.
    destruct (get_num_spec _ _ _ _ _ _ _ _ _ _ Ha Ht) as (args' & -> & Hn & Ha'). ob.
    rewrite (emits_conv _ (number_text num base width precision flags')) by (done || by apply number_emits).
    rewrite decide_False by done. eauto 6.
  - injection Hc as <- <-. destruct (decide (c = 0)) as [->|Hne].
    + destruct (decide (0 <> 0)) as [?|_]; [done|]. rewrite (emits_conv _ [37]) by (done || by apply emits_emit). eauto 6.
    + pose proof (emits_conv (fun st => st ← emit end_ 37 st; emit end_ c st) [37; c] out p args) as He.
      destruct (decide (c <> 0)) as [_|?]; [|done].
      unfold emits in He. specialize (He (emits_bind m0 buf size N _ _ [37] [c] ltac:(by apply emits_emit) ltac:(by apply emits_emit)) HNl).
      exists p, args. split; [|done]. rewrite <- He. by destruct (emit end_ 37 (pos out)).
Qed.

Lemma directive_spec fmt f args sargs f' sargs' text out :
  safe (fmt + 1) f -> Forall2 amatch args sargs -> render_directive f sargs = Some (f', sargs', text) -> zlen (out ++ text) <= N ->
  exists p' args', directive (pos out).1 buf end_ fmt args (pos out) = Some (p', args', pos (out ++ text)) /\
    advance (fmt + 1) f (p' + 1) f' /\ Forall2 amatch args' sargs'.
Proof.
  intros Hs Ha Hr HNl. unfold render_directive, directive in *. set (m := (pos out).1).
  assert (Hc : cstr m (fmt + 1) f) by (apply (safe_cstr m0 buf size N); [done|by eapply zlen_prefix|done]).
  destruct (parse_flags f 0) as [l1 fl1] eqn:H1.
  destruct (flags_loop_spec (walk m) m fmt f 0 _ _ Hc (cstr_walk _ _ _ Hc) ltac:(lia) H1) as (p1 & -> & A1 & F1). ob.
  destruct (parse_width l1 fl1 sargs) as [[[[l2 fl2] width] sargs2]|] eqn:H2; [|done]. cbn [mbind option_bind] in Hr.
  destruct (get_width_spec _ _ _ _ _ _ _ _ _ _ _ _ _ _ (advance_cstr _ _ _ _ _ Hc A1) F1 Ha H2) as (p2 & args2 & -> & A2 & F2 & Ha2). ob.
  assert (A12 : advance (fmt + 1) f p2 l2) by eauto with vsp.
  destruct (parse_precision l2 sargs2) as [[[l3 prec] sargs3]|] eqn:H3; [|done]. cbn [mbind option_bind] in Hr.
  destruct (get_precision_spec _ _ _ _ _ _ _ _ _ _ _ _ (advance_cstr _ _ _ _ _ Hc A12) Ha2 H3) as (p3 & args3 & -> & A3 & Ha3). ob.
  assert (A13 : advance (fmt + 1) f p3 l3) by eauto with vsp.
  destruct (parse_qualifier l3) as [l4 q] eqn:H4.
  destruct (get_qualifier_spec _ _ _ _ _ (advance_cstr _ _ _ _ _ Hc A13) H4) as (p4 & -> & A4). ob.
  assert (A14 : advance (fmt + 1) f p4 l4) by eauto with vsp. pose proof (advance_cstr _ _ _ _ _ Hc A14) as Hc4.
  destruct (convert (hd0 l4) fl2 width prec q sargs3) as [[sargs5 t]|] eqn:H5; [|done]. injection Hr as <- <- <-.
  rewrite (cstr_hd _ _ _ Hc4). ob.
  assert (Hu : is_u8 (hd0 l4)) by (destruct l4; [done|]; destruct Hc4 as (_ & ? & _); unfold is_u8; cbn [hd0]; lia).
  destruct (conversion_spec p4 _ _ _ _ _ _ _ _ _ _ Hu F2 Ha3 H5 HNl) as (p' & args' & -> & -> & Ha').
  do 2 eexists. split; [done|]. split; [|done]. eapply advance_trans; [exact A14|]. case_decide as H0.
  - destruct l4 as [|c l4]; [replace (p4 - 1 + 1) with p4 by lia; apply advance_refl|].
    destruct Hc4 as (_ & ? & _). cbn [hd0] in H0. lia.
  - by apply advance_tail.
Qed.

Lemma vsnprintf_loop_spec f sargs text :
  renders f sargs text -> forall fuel fmt args out,
  safe fmt f -> Forall2 amatch args sargs -> (length f < fuel)%nat -> zlen (out ++ text) <= N ->
  vsnprintf_loop fuel buf end_ fmt args (pos out) = Some (pos (out ++ text)).
Proof.
  induction 1 as [sargs|c f sargs text Hc Hr IH|f sargs f' sargs' text text' Hd Hr IH]; intros fuel fmt args out Hs Ha Hf Hl;
    (destruct fuel as [|fuel]; [lia|]); cbn [vsnprintf_loop length] in *;
    pose proof (safe_cstr m0 buf size N Hsize out fmt _ (zlen_prefix _ _ _ Hl) Hs) as Hm; change (outm m0 buf size out) with (pos out).1 in Hm; rewrite (cstr_hd _ _ _ Hm); ob; cbn [hd0].
  - rewrite decide_True by done. by rewrite app_nil_r.
  - destruct Hm as (_ & Hr0 & _). rewrite decide_False by lia. rewrite decide_True by done.
    replace (out ++ c :: text) with ((out ++ [c]) ++ text) in * by (by rewrite <- app_assoc).
    pose proof (emits_emit m0 buf size N Hbuf Hend Hmap HN c ltac:(unfold is_u8; lia) out) as He. fold end_ in He. change (VsprintfOut.pos m0 buf size) with pos in He.
    rewrite zlen_app in Hl. pose proof (zlen_nonneg text). rewrite He by lia. ob.
    apply IH; [|done|lia|rewrite zlen_app; lia]. eapply advance_safe; [exact Hs|apply advance_cons].
  - rewrite decide_False, decide_False by lia.
    pose proof (advance_safe _ _ _ _ _ _ _ _ Hs (advance_cons fmt 37 f)) as Hs'.
    rewrite app_assoc in Hl |- *. pose proof Hl as Hl'. rewrite zlen_app in Hl'. pose proof (zlen_nonneg text').
    destruct (directive_spec fmt f args sargs f' sargs' text out Hs' Ha Hd ltac:(lia)) as (p' & args' & -> & A & Ha'). ob.
    apply IH; [|done| |done]; [eapply advance_safe; [exact Hs'|exact A]|]. pose proof (advance_length _ _ _ _ A). lia.
Qed.

(** The terminator. *)
Lemma terminate_spec text :
  zlen text <= N ->
  (let '(m, str) := pos text in
   if decide (str <= end_) then store m str 0 else if decide (0 < size) then store m end_ 0 else Some m)
  = Some (if decide (size = 0) then m0 else writes m0 buf (fit size text)).
Proof.
  intros Hl. unfold pos, VsprintfOut.pos, outm, end_, fit. pose proof (zlen_nonneg text). case_decide as H1.
  - rewrite decide_False by lia. rewrite store_eq; [|apply mapped_writes with (p := buf) (n := Z.min size (N + 1)); [done|lia]|done].
    rewrite !take_ge by (unfold zlen in *; lia). by rewrite writes_app.
  - case_decide as H2; [|rewrite decide_True by lia; by replace (Z.to_nat size) with O by lia].
    rewrite decide_False by lia. rewrite store_eq; [|apply mapped_writes with (p := buf) (n := Z.min size (N + 1)); [done|lia]|done].
    f_equal. rewrite writes_app. cbn [writes]. assert (Hz : zlen (take (Z.to_nat (size - 1)) text) = size - 1).
    { rewrite zlen_take by lia. lia. }
    rewrite Hz. replace (buf + size - 1) with (buf + (size - 1)) by lia.
    destruct (lookup_lt_is_Some_2 text (Z.to_nat (size - 1))) as [c Hc]; [unfold zlen in *; lia|].
    replace (Z.to_nat size) with (S (Z.to_nat (size - 1))) by lia. rewrite (take_S_r _ _ c Hc), writes_app. cbn [writes].
    rewrite Hz. by rewrite insert_insert_eq.
Qed.
End Format.

(** * [vsnprintf] *)

(** The part of the buffer that lies below the end of the address space. *)
Definition room (buf size : Z) : Z := Z.min size (2^32 - buf).

Lemma vsnprintf_spec m buf size fmt args f sargs text :
  0 < buf -> 0 <= size < 2^31 -> buf + zlen text < 2^32 -> zlen text < 2^31 ->
  mapped m buf (Z.min (room buf size) (zlen text + 1)) ->
  safe m buf (room buf size) (zlen text) fmt f -> Forall2 (amatch m buf (room buf size) (zlen text)) args sargs -> renders f sargs text ->
  vsnprintf m buf size fmt args =
    Some (zlen text, if decide (size = 0) then m else writes m buf (fit (room buf size) text)).
Proof.
  intros Hb Hsz Ht Ht' Hm Hs Ha Hr. unfold vsnprintf. pose proof (zlen_nonneg text).
  rewrite s32_small by lia. rewrite decide_False by lia. rewrite (u32_small (buf - 1)) by (unfold is_u32; lia).
  set (e := if decide (u32 (buf + size - 1) < buf - 1) then _ else _).
  assert (He : e = (buf + room buf size - 1, room buf size)).
  { unfold e, room. destruct (decide (buf + size - 1 < 2^32)) as [Hlt|Hge].
    - rewrite u32_small by (unfold is_u32; lia). rewrite decide_False by lia. f_equal; lia.
    - assert (Hu : u32 (buf + size - 1) = buf + size - 1 - 2^32).
      { unfold u32. symmetry. apply (Z.mod_unique_pos _ _ 1); lia. }
      rewrite Hu, decide_True by lia. rewrite (u32_small (2^32 - 1 - buf + 1)) by (unfold is_u32; lia). f_equal; lia. }
  rewrite He. assert (H0 : 0 <= room buf size) by (unfold room; lia). assert (H1 : buf + room buf size <= 2^32) by (unfold room; lia).
  pose proof (vsnprintf_loop_spec m buf (room buf size) (zlen text) ltac:(lia) H0 H1 Hm Ht f sargs text Hr (walk m) fmt args []
    Hs Ha (cstr_walk _ _ _ (proj1 Hs)) ltac:(done)) as Hl.
  assert (Hp : pos m buf (room buf size) [] = (m, buf)).
  { unfold pos, outm. rewrite take_nil. change (zlen (@nil Z)) with 0. by rewrite Z.add_0_r. }
  rewrite Hp in Hl. rewrite Hl. cbn [app]. ob.
  pose proof (terminate_spec m buf (room buf size) (zlen text) ltac:(lia) Hm text ltac:(lia)) as He2.
  unfold pos in *. rewrite He2. ob. rewrite s32_small by lia. do 2 f_equal; [lia|].
  destruct (decide (size = 0)) as [->|Hne]; [by rewrite decide_True by (unfold room; lia)|]. by rewrite decide_False by (unfold room; lia).
Qed.

(** * Edge cases and the other entries *)

Lemma cut_spec (text : list Z) size : 0 < size -> zlen text < 2^31 -> size < 2^31 ->
  (if decide (size <= u32 (zlen text)) then s32 (size - 1) else zlen text) = Z.min (zlen text) (size - 1).
Proof.
  intros Hs Ht Hs'. pose proof (zlen_nonneg text). rewrite u32_small by (unfold is_u32; lia).
  case_decide; [rewrite s32_small by lia|]; lia.
Qed.

Definition fmt_demo : list Z := [37; 115; 61; 37; 45; 53; 100; 37; 35; 120; 33].
Definition vs_demo : mem := writes (writes (writes ∅ 5000 (fmt_demo ++ [0])) 6000 [107; 49; 0]) 7000 (replicate 16 7).
Definition text_demo : list Z := [107; 49; 61; 45; 55; 32; 32; 32; 48; 120; 102; 102; 33].

(** [s] stands as [p] in the tests of strings in a closed memory. *)
Fixpoint cstrb (m : mem) (p : Z) (s : list Z) : bool :=
  match s with
  | [] => bool_decide (m !! p = Some 0)
  | c :: s => bool_decide (m !! p = Some c) && bool_decide (0 < c < 2^8) && cstrb m (p + 1) s
  end.
Lemma cstrb_ok m p s : cstrb m p s = true -> cstr m p s.
Proof.
  revert p. induction s as [|c s IH]; intros p; cbn [cstrb cstr]; [by intros H%bool_decide_eq_true|].
  intros [[H1%bool_decide_eq_true H2%bool_decide_eq_true]%andb_prop H3]%andb_prop. auto.
Qed.

(** C12. [vsnprintf] refines the meaning of formats: for every format and arguments whose text
    is [text], whatever is in memory, it returns the length of [text] and writes to the
    buffer [text], cut to its size, with a terminator, and nothing else; with size zero it writes nothing.
    The part of a buffer that would go past the end of the address space is not used.
    [snprintf], [sprintf] and [vsprintf] do the same, [vscnprintf] and [scnprintf] return the
    number of characters in the buffer.  The format and the strings may be anywhere outside of
    what is written before the terminator. *)
Theorem vsnprintf_refines m buf size fmt args f sargs text :
  0 < buf -> 0 <= size < 2^31 -> buf + zlen text < 2^32 -> zlen text < 2^31 ->
  mapped m buf (Z.min (room buf size) (zlen text + 1)) ->
  safe m buf (room buf size) (zlen text) fmt f -> Forall2 (amatch m buf (room buf size) (zlen text)) args sargs ->
  renders f sargs text ->
  let m' := if decide (size = 0) then m else writes m buf (fit (room buf size) text) in
  vsnprintf m buf size fmt args = Some (zlen text, m') /\ snprintf m buf size fmt args = Some (zlen text, m') /\
  (0 < size -> vscnprintf m buf size fmt args = Some (Z.min (zlen text) (size - 1), m') /\
    scnprintf m buf size fmt args = Some (Z.min (zlen text) (size - 1), m')) /\
  (size = INT_MAX -> vsprintf m buf fmt args = Some (zlen text, m') /\ sprintf m buf fmt args = Some (zlen text, m')).
Proof.
  intros Hb Hsz Ht Ht' Hm Hs Ha Hr m'. pose proof (vsnprintf_spec m buf size fmt args f sargs text Hb Hsz Ht Ht' Hm Hs Ha Hr) as Hv.
  split; [exact Hv|]. split; [exact Hv|]. split.
  - intros Hp. unfold vscnprintf, scnprintf. rewrite Hv. ob. by rewrite cut_spec by lia.
  - intros ->. split; exact Hv.
Qed.

Lemma renders_demo : renders fmt_demo [AStr [107; 49]; AWord (2^32 - 7); AWord 255] text_demo.
Proof.
  change text_demo with ([107; 49] ++ 61 :: [45; 55; 32; 32; 32] ++ [48; 120; 102; 102] ++ [33]).
  eapply renders_directive; [vm_compute; reflexivity|]. apply renders_char; [lia|].
  eapply renders_directive; [vm_compute; reflexivity|]. eapply renders_directive; [vm_compute; reflexivity|].
  apply renders_char; [lia|]. apply renders_end.
Qed.

Lemma vsnprintf_refines_witness :
  vsnprintf vs_demo 7000 6 5000 [W32 6000; W32 (2^32 - 7); W32 255] = Some (13, writes vs_demo 7000 [107; 49; 61; 45; 55; 0]).
Proof.
  assert (Hm : mapped vs_demo 7000 (Z.min (room 7000 6) (zlen text_demo + 1))).
  { change (Z.min (room 7000 6) (zlen text_demo + 1)) with 6. intros a Ha. unfold vs_demo.
    rewrite lookup_writes, decide_True by (unfold zlen; rewrite length_replicate; lia). apply lookup_lt_is_Some.
    rewrite length_replicate. lia. }
  assert (Hs : forall p s, cstrb vs_demo p s = true -> p + zlen s < 7000 -> safe vs_demo 7000 (room 7000 6) (zlen text_demo) p s).
  { intros p s Hc Hp. split; [by apply cstrb_ok|by left]. }
  assert (Ha : Forall2 (amatch vs_demo 7000 (room 7000 6) (zlen text_demo)) [W32 6000; W32 (2^32 - 7); W32 255]
    [AStr [107; 49]; AWord (2^32 - 7); AWord 255]).
  { constructor; [|repeat constructor; lia]. split; [unfold PAGE_SIZE; lia|]. apply Hs; [vm_compute; reflexivity|]. by vm_compute. }
  destruct (vsnprintf_refines vs_demo 7000 6 5000 [W32 6000; W32 (2^32 - 7); W32 255] fmt_demo
    [AStr [107; 49]; AWord (2^32 - 7); AWord 255] text_demo ltac:(lia) ltac:(lia) ltac:(by vm_compute) ltac:(by vm_compute) Hm
    (Hs 5000 fmt_demo ltac:(vm_compute; reflexivity) ltac:(by vm_compute)) Ha renders_demo) as [H _]. exact H.
Defined.

(** With a null buffer and size zero, the first character goes to address zero. *)
Lemma null_first m fmt args c f :
  cstr m fmt (c :: f) -> c <> 37 ->
  vsnprintf m NULL 0 fmt args =
    '(m, str) ← (st ← emit (2^32 - 1) c (m, NULL); vsnprintf_loop (pred (walk m)) NULL (2^32 - 1) (fmt + 1) args st);
    m ← (if decide (str <= 2^32 - 1) then store m str 0 else Some m); Some (s32 (str - NULL), m).
Proof.
  intros (Hc & Hr & _) Hne. unfold vsnprintf. rewrite decide_False by done.
  change (u32 (NULL + 0 - 1)) with (2^32 - 1). change (u32 (NULL - 1)) with (2^32 - 1). rewrite decide_False by lia.
  unfold walk. cbn [pred vsnprintf_loop fst]. rewrite Hc. ob. rewrite decide_False by lia. rewrite decide_True by done. done.
Qed.

(** C38. The boundary cases of the sizes: a size that is negative as an [int] gives 0 and writes
    nothing; [vscnprintf] with size zero returns -1 and not the 0 that its description says; and
    with a null buffer and size zero, which ISO C allows in order to measure a text, the last
    address wraps around, so the first character is stored to address zero. *)
Theorem vsnprintf_edge_cases m fmt args :
  (forall buf size, 2^31 <= size < 2^32 -> vsnprintf m buf size fmt args = Some (0, m)) /\
  (forall buf k m', vsnprintf m buf 0 fmt args = Some (k, m') ->
    vscnprintf m buf 0 fmt args = Some (-1, m') /\ scnprintf m buf 0 fmt args = Some (-1, m')) /\
  (forall c f, cstr m fmt (c :: f) -> c <> 37 -> m !! NULL = None -> vsnprintf m NULL 0 fmt args = None) /\
  (forall c, cstr m fmt [c] -> c <> 37 -> 2 <= fmt -> mapped m NULL 2 ->
    vsnprintf m NULL 0 fmt args = Some (1, writes m NULL [c; 0])).
Proof.
  split; [|split; [|split]].
  - intros buf size Hs. unfold vsnprintf. rewrite decide_True; [done|]. unfold s32.
    replace ((size + 2^31) `mod` 2^32) with (size - 2^31); [lia|]. apply (Z.mod_unique_pos _ _ 1); lia.
  - intros buf k m' Hv. unfold vscnprintf, scnprintf. rewrite Hv. ob. pose proof (u32_range k) as Hk. unfold is_u32 in Hk.
    by rewrite decide_True by lia.
  - intros c f Hc Hne H0. rewrite (null_first m fmt args c f Hc Hne). unfold emit, store. rewrite decide_True, H0 by done. done.
  - intros c Hc Hne Hf Hm. rewrite (null_first m fmt args c [] Hc Hne). destruct Hc as (_ & Hr & Hc). cbn [cstr] in Hc.
    unfold emit. rewrite decide_True by done. rewrite store_eq by (by apply Hm || unfold is_u8; lia). ob.
    change (NULL +u 1) with 1. unfold walk. destruct (size m) as [|n] eqn:Hz.
    { apply map_size_empty_inv in Hz. subst m. by rewrite lookup_empty in Hc. }
    cbn [pred vsnprintf_loop fst]. unfold NULL. rewrite lookup_insert_ne, Hc by lia. ob. rewrite decide_True by done. ob. rewrite decide_True by done.
    rewrite store_eq by (done || apply mapped_insert with (1 := Hm); unfold NULL; lia). ob. done.
Qed.

Lemma vsnprintf_edge_cases_witness :
  vsnprintf vs_demo 7000 (2^32 - 1) 5000 [] = Some (0, vs_demo) /\ vsnprintf (writes ∅ 100 [97; 0]) NULL 0 100 [] = None.
Proof.
  split; [apply (vsnprintf_edge_cases vs_demo 5000 []); lia|].
  apply (vsnprintf_edge_cases (writes ∅ 100 [97; 0]) 100 []) with (c := 97) (f := []); [|lia|vm_compute; reflexivity].
  apply cstrb_ok. vm_compute. reflexivity.
Defined.
