(* ===== verification/VsprintfRead.v ===== *)
(** Numbers that were put out by [vsnprintf] are read back by [simple_strtoul] and its variants. *)
From Stdlib Require Import ZArith Lia.
From stdpp Require Import base numbers list list_numbers option gmap.
From S2P Require Import Prelude Str StrMem StrSpec Vsprintf VsprintfText VsprintfOut VsprintfParse VsprintfSpec.

Local Open Scope Z_scope.
Local Open Scope kernel_scope.

Import Str Vsprintf.

(** * Reading digits *)

(** What the readers need of a digit below 16. *)
Definition reads (large : bool) (d : Z) : Prop :=
  isxdigit (digit_char large d) = true /\ digit_value (digit_char large d) = d /\ digit_value_ll (digit_char large d) = d /\
  toupper (digit_char large d) <> 88 /\ 0 < digit_char large d < 2^8 /\ digit_char large d <> 45.
#[local] Instance reads_decision large d : Decision (reads large d).
Proof. unfold reads. apply _. Defined.

Lemma digit_char_reads large d : 0 <= d < 16 -> reads large d.
Proof.
  intros Hd. assert (Hall : Forall (reads large) (seqZ 0 16)).
  { apply (bool_decide_unpack _). destruct large; vm_compute; exact I. }
  rewrite Forall_forall in Hall. apply Hall. rewrite elem_of_seqZ. lia.
Qed.

Lemma strtou_loop_spec M value large fuel m cp base ds v :
  0 < M -> (forall d, 0 <= d < 16 -> value (digit_char large d) = d) -> 2 <= base <= 16 -> Forall (fun d => 0 <= d < base) ds ->
  cstr m cp (digit_char large <$> ds) -> (length ds < fuel)%nat ->
  strtou_loop (fun x => x `mod` M) value fuel m cp base (v `mod` M) =
    Some (foldl (fun v d => v * base + d) v ds `mod` M, cp + zlen ds).
Proof.
  intros HM Hval Hb. revert cp ds v. induction fuel as [|fuel IH]; intros cp ds v Hds Hc Hf; [lia|]. cbn [strtou_loop].
  rewrite (cstr_hd _ _ _ Hc). ob. destruct ds as [|d ds].
  { change (isxdigit (hd0 (digit_char large <$> []))) with false. change (zlen (@nil Z)) with 0. by rewrite Z.add_0_r. }
  apply Forall_cons in Hds as [Hd Hds]. destruct Hc as (_ & _ & Hc). cbn [fmap list_fmap hd0 length foldl] in *.
  destruct (digit_char_reads large d ltac:(lia)) as (-> & _). rewrite Hval by lia. rewrite decide_True by lia.
  replace ((v `mod` M * base + d) `mod` M) with ((v * base + d) `mod` M) by
    (rewrite <- (Z.add_mod_idemp_l (v * base)), <- (Z.mul_mod_idemp_l v), Z.add_mod_idemp_l by lia; done).
  rewrite (IH (cp + 1) ds (v * base + d)) by (done || lia). rewrite zlen_cons. do 2 f_equal. lia.
Qed.

Lemma number_digits_list large base n :
  2 <= base -> is_u64 n ->
  exists ds, number_digits large base n = digit_char large <$> ds /\ from_digits base ds = n /\ Forall (fun d => 0 <= d < base) ds /\
    ds <> [] /\ (zlen ds <= 22 \/ base < 8).
Proof.
  intros Hb Hn. unfold number_digits, is_u64 in *. case_decide as H0.
  - subst. exists [0]. split; [by destruct large|]. split; [done|]. split; [repeat constructor; lia|]. split; [done|]. left. done.
  - exists (digits 66 base n). split; [done|]. pose proof (digits_value 66 base n Hb ltac:(change (Z.of_nat 66) with 66; lia)) as Hv.
    split; [done|]. split; [by apply digits_range|]. split; [intros He; rewrite He in Hv; cbn in Hv; lia|].
    destruct (decide (base < 8)) as [?|H8]; [by right|left]. apply digits_length; lia.
Qed.

(** * The base and the prefix *)

Lemma not_x large ds : Forall (fun d => 0 <= d < 16) ds -> toupper (hd0 (digit_char large <$> ds)) <> 88.
Proof. destruct 1 as [|d ds Hd _]; [done|]. cbn [fmap list_fmap hd0]. apply (digit_char_reads large d Hd). Qed.

Lemma strtou_base_plain m cp base large ds :
  2 <= base -> Forall (fun d => 0 <= d < 16) ds -> cstr m cp (digit_char large <$> ds) -> strtou_base m cp base = Some (base, cp).
Proof.
  intros Hb Hds Hc. unfold strtou_base. rewrite decide_False by lia. case_decide; [|done]. rewrite (cstr_hd _ _ _ Hc). ob.
  case_decide as H48; [|done]. destruct Hds as [|d ds Hd Hds]; [done|]. destruct Hc as (_ & _ & Hc). fold (cstr m) in Hc.
  rewrite (cstr_hd _ _ _ Hc). ob. rewrite decide_False; [done|]. by apply not_x.
Qed.

Lemma strtou_base_hex m cp base large ds :
  base = 0 \/ base = 16 -> Forall (fun d => 0 <= d < 16) ds -> ds <> [] -> cstr m cp (48 :: digit_char large 33 :: (digit_char large <$> ds)) ->
  strtou_base m cp base = Some (16, cp + 2).
Proof.
  intros Hb Hds Hne (H1 & _ & H2 & _ & Hc). unfold strtou_base. rewrite H1, H2. ob.
  assert (Hx : toupper (digit_char large 33) = 88) by (by destruct large).
  destruct Hb as [-> | ->].
  - rewrite !decide_True by (done || exact Hx). replace (cp + 1 + 1) with (cp + 2) in Hc by lia.
    destruct Hds as [|d ds Hd Hds]; [done|]. rewrite (cstr_hd _ _ _ Hc). ob. cbn [fmap list_fmap hd0].
    destruct (digit_char_reads large d Hd) as (-> & _). done.
  - rewrite decide_False, !decide_True by (done || exact Hx). done.
Qed.

Lemma strtou_base_octal m cp large ds :
  Forall (fun d => 0 <= d < 16) ds -> cstr m cp (48 :: (digit_char large <$> ds)) -> strtou_base m cp 0 = Some (8, cp + 1).
Proof.
  intros Hds (H1 & _ & Hc). unfold strtou_base. rewrite H1. ob. rewrite !decide_True by done. rewrite (cstr_hd _ _ _ Hc). ob.
  rewrite decide_False; [done|]. by apply not_x.
Qed.

(** * The readers *)

Lemma strtou_digits M value large m cp base n :
  (M = 2^32 \/ M = 2^64) -> (forall d, 0 <= d < 16 -> value (digit_char large d) = d) ->
  2 <= base <= 16 -> 0 <= n < M -> cstr m cp (number_digits large base n) ->
  strtou_loop (fun x => x `mod` M) value (walk m) m cp base 0 = Some (n, cp + zlen (number_digits large base n)).
Proof.
  intros HM Hval Hb Hn Hc. destruct (number_digits_list large base n) as (ds & Hds & Hv & Hr & _); [lia|unfold is_u64; lia|].
  pose proof (cstr_walk _ _ _ Hc) as Hw. rewrite Hds in *. rewrite length_fmap in Hw.
  pose proof (strtou_loop_spec M value large (walk m) m cp base ds 0 ltac:(lia) Hval Hb Hr Hc Hw) as H.
  rewrite Z.mod_0_l in H by lia. rewrite H. unfold from_digits in Hv. rewrite Hv, Z.mod_small by lia.
  unfold zlen. by rewrite length_fmap.
Qed.

Lemma strtoul_digits large m cp base n :
  2 <= base <= 16 -> is_u32 n -> cstr m cp (number_digits large base n) ->
  simple_strtoul m cp base = Some (n, cp + zlen (number_digits large base n)).
Proof.
  intros Hb Hn Hc. unfold simple_strtoul. destruct (number_digits_list large base n) as (ds & Hds & _ & Hr & _);
    [lia|unfold is_u64, is_u32 in *; lia|]. rewrite (strtou_base_plain m cp base large ds); [|lia| |by rewrite <- Hds].
  - ob. apply (strtou_digits (2^32)); [by left|intros d Hd; apply (digit_char_reads large d Hd)|done|exact Hn|done].
  - eapply Forall_impl; [exact Hr|]. cbv beta. lia.
Qed.

Lemma strtoull_digits large m cp base n :
  2 <= base <= 16 -> is_u64 n -> cstr m cp (number_digits large base n) ->
  simple_strtoull m cp base = Some (n, cp + zlen (number_digits large base n)).
Proof.
  intros Hb Hn Hc. unfold simple_strtoull. destruct (number_digits_list large base n) as (ds & Hds & _ & Hr & _); [lia|done|].
  rewrite (strtou_base_plain m cp base large ds); [|lia| |by rewrite <- Hds].
  - ob. apply (strtou_digits (2^64)); [by right|intros d Hd; apply (digit_char_reads large d Hd)|done|exact Hn|done].
  - eapply Forall_impl; [exact Hr|]. cbv beta. lia.
Qed.

(** The first character of a number is no sign. *)
Lemma number_digits_hd large base n : 2 <= base <= 16 -> is_u64 n -> hd0 (number_digits large base n) <> 45.
Proof.
  intros Hb Hn. destruct (number_digits_list large base n) as (ds & -> & _ & Hr & Hne & _); [lia|done|].
  destruct Hr as [|d ds Hd _]; [done|]. cbn [fmap list_fmap hd0]. apply (digit_char_reads large d). lia.
Qed.

(** * Printing and reading *)

(** A number without a width and a precision. *)
Lemma number_text_plain num base type :
  number_text num base (-1) (-1) type =
  sign_text num type ++ prefix_text base type ++ number_digits (has_flag type LARGE) base (magnitude num type).
Proof.
  unfold number_text. set (ds := number_digits _ _ _). pose proof (zlen_nonneg ds). rewrite (zeros_none (-1 - zlen ds)) by lia.
  set (fr := sign_text num type ++ prefix_text base type). pose proof (zlen_nonneg fr). cbn [app].
  rewrite (spaces_none (-1 - zlen fr - zlen ds)), (zeros_none (-1 - zlen fr - zlen ds)) by lia. cbn [app]. rewrite app_nil_r.
  unfold fr. rewrite <- app_assoc. by destruct (has_flag type LEFT), (has_flag type ZEROPAD).
Qed.

Section Print.
Context (m : mem) (buf size fmt : Z) (args : list varg) (f : list Z).
Context (Hb : 0 < buf) (Hs : 32 <= size < 2^31) (He : buf + size < 2^32) (Hm : mapped m buf size).
Context (Hf : cstr m fmt f) (Hout : fmt + zlen f < buf \/ buf + size <= fmt).

(** The text stands in the buffer, as a string. *)
Lemma printed sargs text :
  Forall2 (amatch m buf (room buf size) (zlen text)) args sargs -> renders f sargs text -> zlen text < 32 ->
  Forall (fun c => 0 < c < 2^8) text -> exists m', vsnprintf m buf size fmt args = Some (zlen text, m') /\ cstr m' buf text.
Proof.
  intros Ha Hr Hl Hc. pose proof (zlen_nonneg text). assert (Hroom : room buf size = size) by (unfold room; lia).
  rewrite (vsnprintf_spec m buf size fmt args f sargs text); try done; try lia.
  - eexists. split; [done|]. rewrite decide_False by lia. rewrite Hroom. unfold fit. rewrite take_ge; [|unfold zlen in *; lia].
    apply cstr_arr. split; [|eapply Forall_impl; [exact Hc|]; cbv beta; lia]. apply arr_writes, Forall_app. split; [|by repeat constructor].
    eapply Forall_impl; [exact Hc|]. unfold is_u8. cbv beta. lia.
  - eapply mapped_sub; [exact Hm|lia|lia].
  - split; [done|]. rewrite Hroom. lia.
Qed.

End Print.

(** What is printed with one argument is read back in full. *)
Definition reads_back (m : mem) (buf size : Z) (f : list Z) (arg : varg) (read : mem -> Z -> option (Z * Z)) (v : Z) : Prop :=
  forall fmt, cstr m fmt f -> fmt + zlen f < buf \/ buf + size <= fmt ->
  exists k m', vsnprintf m buf size fmt [arg] = Some (k, m') /\ read m' buf = Some (v, buf + k).

Lemma number_bytes large base n : 2 <= base <= 36 -> Forall (fun c => 0 < c < 2^8) (number_digits large base n).
Proof. intros Hb. eapply Forall_impl; [by apply number_digits_bytes|]. cbv beta. lia. Qed.

Lemma number_short large base n : 8 <= base -> is_u64 n -> zlen (number_digits large base n) <= 22.
Proof.
  intros Hb Hn. destruct (number_digits_list large base n) as (ds & -> & _ & _ & _ & Hl); [lia|done|].
  unfold zlen in *. rewrite length_fmap. lia.
Qed.

(** A directive alone. *)
Lemma renders_one f a text : render_directive f [a] = Some ([], [], text) -> renders (37 :: f) [a] text.
Proof. intros H. rewrite <- (app_nil_r text). eapply renders_directive; [exact H|apply renders_end]. Qed.

Section Back.
Context (m : mem) (buf size : Z).
Context (Hb : 0 < buf) (Hs : 32 <= size < 2^31) (He : buf + size < 2^32) (Hm : mapped m buf size).

Lemma reads_back_intro f arg a sg pf large base n read v :
  (forall N, amatch m buf (room buf size) N arg a) ->
  render_directive f [a] = Some ([], [], sg ++ pf ++ number_digits large base n) ->
  8 <= base <= 16 -> is_u64 n -> zlen (sg ++ pf) <= 3 -> Forall (fun c => 0 < c < 2^8) (sg ++ pf) ->
  (forall m', cstr m' buf (sg ++ pf ++ number_digits large base n) ->
    read m' buf = Some (v, buf + zlen (sg ++ pf ++ number_digits large base n))) ->
  reads_back m buf size (37 :: f) arg read v.
Proof.
  intros Ha Hr Hbase Hn Hl Hc Hrd fmt Hf Hout. set (text := sg ++ pf ++ _) in *. pose proof (number_short large base n ltac:(lia) Hn).
  assert (Ht : text = (sg ++ pf) ++ number_digits large base n) by (by rewrite <- app_assoc).
  destruct (printed m buf size fmt [arg] (37 :: f) Hb Hs He Hm Hf Hout [a] text) as (m' & Hv & Hm').
  - repeat constructor. apply Ha.
  - by apply renders_one.
  - rewrite Ht, zlen_app. lia.
  - rewrite Ht. apply Forall_app. split; [done|]. apply number_bytes. lia.
  - eauto.
Qed.

(** Unsigned words without a prefix. *)
Lemma unsigned_back c base type w :
  is_u32 w -> 8 <= base <= 16 -> has_flag type SIGN = false -> has_flag type SPECIAL = false ->
  render_directive [c] [AWord w] = Some ([], [], number_text w base (-1) (-1) type) ->
  reads_back m buf size [37; c] (W32 w) (fun m p => simple_strtoul m p base) w.
Proof.
  intros Hw Hbase Hsg Hsp Hr. assert (Hmag : magnitude w type = w) by (unfold magnitude, negative; by rewrite Hsg).
  apply (reads_back_intro [c] _ (AWord w) [] [] (has_flag type LARGE) base w); [done| |done|by apply is_u64_word|done|constructor|].
  - rewrite Hr, number_text_plain, Hmag. unfold sign_text, prefix_text. by rewrite Hsg, Hsp.
  - intros m' Hc. apply strtoul_digits; [lia|done|done].
Qed.

(** With a prefix the base may be left open. *)
Lemma hex_back base w :
  is_u32 w -> base = 0 \/ base = 16 -> reads_back m buf size [37; 35; 120] (W32 w) (fun m p => simple_strtoul m p base) w.
Proof.
  intros Hw Hbase. pose proof (is_u64_word w Hw) as Hw64.
  apply (reads_back_intro [35; 120] _ (AWord w) [] [48; 120] false 16 w); [done| |done|done|done|repeat constructor; lia|].
  - exact (f_equal (fun t => Some ([], [], t)) (number_text_plain w 16 SPECIAL)).
  - intros m' Hc. unfold simple_strtoul. destruct (number_digits_list false 16 w) as (ds & Hds & _ & Hr & Hne & _); [lia|done|].
    rewrite (strtou_base_hex m' buf base false ds) by (done || by rewrite <- Hds). ob. destruct Hc as (_ & _ & _ & _ & Hc).
    rewrite !zlen_app. change (zlen (@nil Z)) with 0. change (zlen [48; 120]) with 2. replace (buf + 1 + 1) with (buf + 2) in Hc by lia.
    etrans; [apply (strtou_digits (2^32) digit_value false m' (buf + 2) 16 w); [by left| |lia|done|done]|do 2 f_equal; lia].
    intros d Hd. apply (digit_char_reads false d Hd).
Qed.

Lemma octal_back w : is_u32 w -> reads_back m buf size [37; 35; 111] (W32 w) (fun m p => simple_strtoul m p 0) w.
Proof.
  intros Hw. pose proof (is_u64_word w Hw) as Hw64.
  apply (reads_back_intro [35; 111] _ (AWord w) [] [48] false 8 w); [done| |done|done|done|repeat constructor; lia|].
  - exact (f_equal (fun t => Some ([], [], t)) (number_text_plain w 8 SPECIAL)).
  - intros m' Hc. unfold simple_strtoul. destruct (number_digits_list false 8 w) as (ds & Hds & _ & Hr & Hne & _); [lia|done|].
    rewrite (strtou_base_octal m' buf false ds); [|eapply Forall_impl; [exact Hr|]; cbv beta; lia|by rewrite <- Hds]. ob.
    destruct Hc as (_ & _ & Hc). rewrite !zlen_app. change (zlen (@nil Z)) with 0. change (zlen [48]) with 1.
    etrans; [apply (strtou_digits (2^32) digit_value false m' (buf + 1) 8 w); [by left| |lia|done|done]|do 2 f_equal; lia].
    intros d Hd. apply (digit_char_reads false d Hd).
Qed.

Lemma s64_u64 x : - 2^63 <= x < 2^63 -> s64 (u64 x) = x.
Proof. intros Hx. unfold s64, u64. rewrite Z.add_mod_idemp_l, Z.mod_small by lia. lia. Qed.

(** Signed numbers of a width: [x] is the value, [u64 x] the argument. *)
Lemma signed_back f arg a x read_u read_s wrap (h : Z) :
  (forall N, amatch m buf (room buf size) N arg a) -> h = 2^31 \/ h = 2^63 -> - h <= x < h ->
  render_directive f [a] = Some ([], [], number_text (u64 x) 10 (-1) (-1) SIGN) ->
  (forall m' p n, 0 <= n < 2 * h -> cstr m' p (number_digits false 10 n) -> read_u m' p = Some (n, p + zlen (number_digits false 10 n))) ->
  (forall y, - h <= y < h -> wrap y = y) ->
  (forall m' p, read_s m' p = c ← m' !! p;
    if decide (c = 45) then '(r, e) ← read_u m' (p + 1); Some (wrap (- r), e) else '(r, e) ← read_u m' p; Some (wrap r, e)) ->
  reads_back m buf size (37 :: f) arg read_s x.
Proof.
  intros Ha HM Hx Hr Hu Hwrap Hrd. pose proof (s64_u64 x ltac:(lia)) as Hs64.
  rewrite number_text_plain in Hr. unfold sign_text, magnitude, negative in Hr. rewrite Hs64 in Hr.
  change (has_flag SIGN SIGN) with true in Hr. change (has_flag SIGN LARGE) with false in Hr. cbn [negb andb] in Hr.
  destruct (decide (x < 0)) as [Hneg|Hpos].
  - rewrite bool_decide_eq_true_2 in Hr by done. assert (Hmag : u64 (- x) = - x) by (apply Z.mod_small; lia). rewrite Hmag in Hr.
    apply (reads_back_intro f arg a [45] [] false 10 (- x)); [done|done|lia|unfold is_u64; lia|done|repeat constructor; lia|].
    intros m' Hc. rewrite Hrd. destruct Hc as (-> & _ & Hc). ob. rewrite decide_True by done.
    rewrite (Hu m' (buf + 1) (- x)) by (lia || done). ob. rewrite Hwrap by lia. rewrite !zlen_app. change (zlen [45]) with 1. 
    change (zlen (@nil Z)) with 0. do 2 f_equal; lia.
  - rewrite bool_decide_eq_false_2 in Hr by done. assert (Hmag : u64 x = x) by (apply Z.mod_small; lia). rewrite Hmag in Hr.
    apply (reads_back_intro f arg a [] [] false 10 x); [done|done|lia|unfold is_u64; lia|done|repeat constructor; lia|].
    intros m' Hc. rewrite Hrd, (cstr_hd _ _ _ Hc). ob. cbn [app] in *.
    rewrite decide_False by (apply number_digits_hd; [lia|unfold is_u64; lia]).
    rewrite (Hu m' buf x) by (lia || done). ob. by rewrite Hwrap by lia.
Qed.
End Back.

(** C13. Numbers survive printing and reading: what [vsnprintf] prints with [%u], [%o], [%x], [%X],
    [%#x], [%#o] or [%d] of any word, or with [%Lu] or [%Ld] of any double word, into a buffer of at least 32
    bytes, [simple_strtoul], [simple_strtol], [simple_strtoull] and [simple_strtoll] read back as the
    same number, with the end pointer at the terminator; with a prefix the base may be left to be found. *)
Theorem numbers_read_back m buf size w d :
  0 < buf -> 32 <= size < 2^31 -> buf + size < 2^32 -> mapped m buf size -> is_u32 w -> is_u64 d ->
  reads_back m buf size [37; 117] (W32 w) (fun m p => simple_strtoul m p 10) w /\
  reads_back m buf size [37; 111] (W32 w) (fun m p => simple_strtoul m p 8) w /\
  reads_back m buf size [37; 120] (W32 w) (fun m p => simple_strtoul m p 16) w /\
  reads_back m buf size [37; 88] (W32 w) (fun m p => simple_strtoul m p 16) w /\
  (forall base, base = 0 \/ base = 16 -> reads_back m buf size [37; 35; 120] (W32 w) (fun m p => simple_strtoul m p base) w) /\
  reads_back m buf size [37; 35; 111] (W32 w) (fun m p => simple_strtoul m p 0) w /\
  reads_back m buf size [37; 100] (W32 w) (fun m p => simple_strtol m p 10) (s32 w) /\
  reads_back m buf size [37; 76; 117] (W64 d) (fun m p => simple_strtoull m p 10) d /\
  reads_back m buf size [37; 76; 100] (W64 d) (fun m p => simple_strtoll m p 10) (s64 d).
Proof.
  intros Hb Hs He Hm Hw Hd. split; [by apply (unsigned_back m buf size Hb Hs He Hm 117 10 0)|].
  split; [by apply (unsigned_back m buf size Hb Hs He Hm 111 8 0)|]. split; [by apply (unsigned_back m buf size Hb Hs He Hm 120 16 0)|].
  split; [by apply (unsigned_back m buf size Hb Hs He Hm 88 16 LARGE)|]. split; [intros base Hbase; by apply hex_back|].
  split; [by apply octal_back|]. split; [|split].
  - apply (signed_back m buf size Hb Hs He Hm [100] _ (AWord w) (s32 w) (fun m p => simple_strtoul m p 10) _ s32 (2^31)); try done.
    + by left.
    + unfold s32. pose proof (Z.mod_pos_bound (w + 2^31) (2^32) ltac:(lia)). lia.
    + intros m' p n Hn Hc. apply strtoul_digits; [lia|unfold is_u32; lia|done].
    + intros y Hy. by apply s32_small.
  - apply (reads_back_intro m buf size Hb Hs He Hm [76; 117] _ (ADword d) [] [] false 10 d); [done| |lia|done|done|constructor|].
    + exact (f_equal (fun t => Some ([], [], t)) (number_text_plain d 10 0)).
    + intros m' Hc. apply strtoull_digits; [lia|done|done].
  - assert (Hsd : u64 (s64 d) = d).
    { unfold u64, s64. rewrite Zminus_mod_idemp_l. replace (d + 2^63 - 2^63) with d by lia. by apply Z.mod_small. }
    apply (signed_back m buf size Hb Hs He Hm [76; 100] _ (ADword d) (s64 d) (fun m p => simple_strtoull m p 10) _ s64 (2^63)); try done.
    + by right.
    + unfold s64. pose proof (Z.mod_pos_bound (d + 2^63) (2^64) ltac:(lia)). lia.
    + rewrite Hsd. done.
    + intros m' p n Hn Hc. apply strtoull_digits; [lia|unfold is_u64; lia|done].
    + intros y Hy. unfold s64. rewrite Z.mod_small by lia. lia.
Qed.

Definition back_demo : mem := writes (writes ∅ 5000 [37; 100; 0]) 7000 (replicate 32 7).

Lemma numbers_read_back_witness :
  exists k m', vsnprintf back_demo 7000 32 5000 [W32 (2^32 - 12)] = Some (k, m') /\ simple_strtol m' 7000 10 = Some (-12, 7000 + k).
Proof.
  assert (Hm : mapped back_demo 7000 32).
  { intros a Ha. unfold back_demo. rewrite lookup_writes, decide_True by (unfold zlen; rewrite length_replicate; lia).
    apply lookup_lt_is_Some. rewrite length_replicate. lia. }
  destruct (numbers_read_back back_demo 7000 32 (2^32 - 12) 0 ltac:(lia) ltac:(lia) ltac:(lia) Hm ltac:(unfold is_u32; lia)
    ltac:(unfold is_u64; lia)) as (_ & _ & _ & _ & _ & _ & H & _).
  apply (H 5000); [apply cstrb_ok; vm_compute; reflexivity|left; by vm_compute].
Defined.
